(* ===== verification/_CoqProject ===== *)
-Q . S2P
Prelude.v
Errors.v
Thread.v
ProducerContext.v
ProducerSpecialised.v
ConsumerContext.v
ResultState.v
ResultStateProps.v
ResultStateFacts.v
ResultStateTheorems.v
Slist.v
AsyncLock.v
AsyncLockProps.v
AsyncLockTheorems.v
Task.v
ManualExecutor.v
ManualExecutorTheorems.v
Timer.v
TimerQueue.v
TimerQueueProps.v
TimerQueueTheorems.v
TimerService.v
TimerServiceProps.v
TimerServiceTheorems.v
TimerShutdown.v
DelayObject.v
DelayTheorems.v
WorkerThreadExecutor.v
WorkerThreadTheorems.v
IdleWorkerSet.v
ThreadPool.v
PoolWorker.v
PoolWorkerTheorems.v
Pool.v
PoolTheorems.v
ThreadExecutor.v
ThreadExecutorTheorems.v
Coroutines.v
CoroutinesProps.v
CoroutinesTheorems.v
Promises.v
Runtime.v
SharedResult.v
SharedResultProps.v
SharedResultSteps.v
SharedResultFinish.v
SharedResultTheorems.v
Result.v
ResultProps.v
ResultOwnership.v
ResultSafety.v
ResultTheorems.v
Generator.v
GeneratorTheorems.v
WhenResult.v
WhenResultProps.v
WhenResultTheorems.v
LazyResult.v
LazyResultProps.v
LazyResultSteps.v
LazyResultTheorems.v
AsyncCV.v
AsyncCVProps.v
AsyncCVQueue.v
AsyncCVInvariant.v
AsyncCVTheorems.v
Examples.v
ExamplesTheorems.v
