(* ===== verification/Prelude.v ===== *)
(** * concurrencpp: a verification library (root file)

    concurrencpp is a C++20 library for concurrent programs: executors that run
    tasks, results that carry values and exceptions between producers and
    consumers, coroutines that connect the two, timers, and a lock and a
    condition variable for coroutines.  This library models it in Rocq and proves
    what makes it correct.  Paths are relative to [src/]; headers are under
    [include/concurrencpp/], implementations under [source/].

    ** The program, and the files that model it

    The files named [...Props], [...Facts], [...Steps], [...Queue],
    [...Invariant], [...Ownership], [...Safety], [...Finish] and [...Theorems] hold
    the invariant, the lemmas and the theorems of the component before them.

    - Constants and errors ([errors.h], the four [constants.h] and
      [result_fwd_declarations.h]): [Errors].  Threads ([threads/thread.*]):
      [Thread], the ids, the function of a thread and the handles.
    - The result of an asynchronous computation.  A producer and a consumer share
      a [result_state]: [ProducerContext] is the storage (with
      [ProducerSpecialised] for [void] and references), [ConsumerContext] is who
      waits and how it is woken up, [ResultState] is the protocol of the two
      threads over the atomic [m_pc_state], one transition per atomic action.
      [Result] ([result.h], [result_awaitable.h], [make_result.h]) is what owns
      such states: [result] and [result_promise] objects in a heap.
      [SharedResult] ([shared_result.h], [shared_result_state.*],
      [shared_result_awaitable.h]) puts any number of consumers behind one state.
      [WhenResult] ([when_result.h]) is [when_all] and [when_any];
      [LazyResult] ([lazy_result.h], [lazy_result_state.h],
      [lazy_result_awaitable.h]) the coroutines that run when awaited;
      [Generator] ([generator.h], [generator_state.h]) those that yield.
    - Tasks ([task.h], [task.cpp]): [Task], the hand-made vtable, the inline
      buffer and the heap block.
    - Executors.  [ManualExecutor], [WorkerThreadExecutor], [ThreadExecutor], and
      the thread pool in parts: [IdleWorkerSet], [ThreadPool] (how work is shared
      out), [PoolWorker] (one worker) and [Pool] (all of them together).
    - Coroutines ([executor.h], [derivable_executor.h], [inline_executor.h],
      [bind.h], [promises.h], [resume_on.h]): [Coroutines], what [post], [submit]
      and the promises do with any executor, and [Promises], which promise a
      coroutine gets.  A coroutine there is the tree of its suspensions, in an
      executor or in anything else.  [Runtime] ([runtime.*]) owns the executors and
      the timer queue and shuts them down.
    - Timers ([timer.*], [timer_queue.*]): [Timer] (the shared states),
      [TimerQueue] (the ordered set of due timers), [TimerService] (users, request
      queue and worker thread; [TimerShutdown] is how the shutdown ends),
      [DelayObject] with [DelayTheorems] (the awaitable timers and who owns their
      state).
    - Synchronisation of coroutines: [Slist] ([utils/slist.h]) is the intrusive
      queue of awaiters and an instance of the class [AwaiterQueue], against which
      [AsyncLock] ([async_lock.*]) and [AsyncCV] ([async_condition_variable.*])
      are stated.
    - [Examples]: the example programs that compute something.

    ** How code becomes definitions

    A sequential function is a function on the state of its object, in the monad
    [M] of this file when it can throw or fail an assertion.  A concurrent
    component is a labelled transition system: a record of its members and of the
    program counters of its threads, and a partial function [step]; one label is
    one atomic action (an access to an atomic, a critical section, a blocking
    wait).  What a component leaves open (time-outs, spurious wake-ups, what a
    task does, what another component answers) is in the labels, or in a script
    of environment events, so a theorem about all labels or scripts is about all
    interleavings.  Interleavings are sequentially consistent.  C++ memory is
    explicit where the code shares or destroys objects: heaps of nodes, of timer
    states, of task buffers, logs of what was deleted.

    ** What the theorems show

    - Safety: no assertion of the code fails and no dead object is used (except
      where a theorem shows a run in which it happens); a state, a callable and a
      task are destroyed exactly once; a coroutine is resumed once for every time
      it is suspended; mutual exclusion.
    - Functional behaviour: consumers get what was produced; timers that are due
      fire, in order; work is shared out evenly and nothing is left over; lazy
      results are computed once, generators yield in order.
    - Liveness, as statements on finite runs: every call completes within a
      bound, no wake-up is lost, a delay ends.  A shutdown ends: of a timer queue
      whose periodic timers have positive frequencies (a fired timer whose
      executor was shut down terminates the program instead), and of an executor.
      After the shutdown of all executors no coroutine is suspended in one; those
      that await something else end when they are answered.
    - Composition: [Result] puts the states of [ResultState] in a heap, where each
      call runs until it returns, blocks or suspends; the interleavings of the
      actions of two calls are in [ResultState].  [Runtime] interleaves its
      destructor with the timer queue of [TimerService] and with the operations of
      [Coroutines], where the shutdown of an executor is one step: how the
      executors with threads join them is in their own files.
    - Invariants and refinements: every task has one fate, in one executor and in
      a whole pool whose workers pass tasks on; every state has an owner;
      [result_state] refines a one-shot future; the intrusive list refines a queue;
      the specialisations of [producer_context] agree with the template.
    - Reachable faults: some theorems and lemmas exhibit a run that ends badly;
      each is a finding about the code.

    ** Bounds and fuel

    [size_t] has 64 bits ([size_bits]) and wraps; [milliseconds] and [ptrdiff_t]
    are signed 64-bit integers; the clock is an unbounded integer.  Recursion is
    structural, except for loops with fuel, whose files prove that the given fuel
    is enough.  Numbers of threads, coroutines, tasks and timers are arbitrary.

    ** Not modelled

    - Weak memory: [memory_order_acquire] and [memory_order_release] are taken as
      sequentially consistent.
    - What the operating system does: the system calls that name a thread, and
      failures of allocation and of thread creation other than those that a label
      or an outcome mentions.
    - The compile-time part of templates: [static_assert], [noexcept]
      specifications and the deduction of types, apart from the choice of promise
      in [Promises].  [max_worker_idle_time] and the like only return a member.
    - [platform_defs.h], [cache_line.h], [forward_declarations.h],
      [coroutines/coroutine.h], [concurrencpp.h], [executor_all.h]: includes and
      aliases without behaviour.  Tests, build files, the [sandbox], and the
      examples that only print and sleep. *)

From stdpp Require Import prelude gmap list sorting.
From Stdlib Require Import ZArith Lia.

(** ** Outcomes of C++ functions

    [Ok a]: the function returned [a].  [Throw e]: it threw the exception
    [e].  [Abort]: a debug [assert] failed, [std::terminate] or [std::abort]
    ran, or the call has undefined behaviour.  Every definition of the library
    that models a fallible function returns this type, so that a theorem which
    says that the outcome is never [Abort] says that the assertions of the
    code hold. *)
Inductive outcome (E A : Type) : Type :=
  | Ok (a : A)
  | Throw (e : E)
  | Abort.
Arguments Ok {E A} a.
Arguments Throw {E A} e.
Arguments Abort {E A}.

Definition is_Ok {E A} (o : outcome E A) : bool :=
  match o with Ok _ => true | _ => false end.

Definition is_Abort {E A} (o : outcome E A) : bool :=
  match o with Abort => true | _ => false end.

Definition outcome_map {E A B} (f : A -> B) (o : outcome E A) : outcome E B :=
  match o with
  | Ok a => Ok (f a)
  | Throw e => Throw e
  | Abort => Abort
  end.

(** ** A state and exception monad

    [M E S A] threads a state through a computation; an exception keeps the
    changes made before it was thrown, as in C++. *)
Definition M (E S A : Type) : Type := S -> outcome E A * S.

#[global] Instance M_ret {E S} : MRet (M E S) := fun A a s => (Ok a, s).

#[global] Instance M_bind {E S} : MBind (M E S) := fun A B k m s =>
  match m s with
  | (Ok a, s') => k a s'
  | (Throw e, s') => (Throw e, s')
  | (Abort, s') => (Abort, s')
  end.

Definition get_state {E S} : M E S S := fun s => (Ok s, s).
Definition put_state {E S} (s : S) : M E S unit := fun _ => (Ok tt, s).
Definition modify {E S} (f : S -> S) : M E S unit := fun s => (Ok tt, f s).
Definition gets {E S A} (f : S -> A) : M E S A := fun s => (Ok (f s), s).
Definition throw {E S A} (e : E) : M E S A := fun s => (Throw e, s).
Definition abort {E S A} : M E S A := fun s => (Abort, s).

(** [assert(b)]. *)
Definition massert {E S} (b : bool) : M E S unit :=
  fun s => if b then (Ok tt, s) else (Abort, s).

(** [try { m } catch (...) { h }]. *)
Definition try_catch {E S A} (m : M E S A) (h : E -> M E S A) : M E S A := fun s =>
  match m s with
  | (Ok a, s') => (Ok a, s')
  | (Throw e, s') => h e s'
  | (Abort, s') => (Abort, s')
  end.

(** A [noexcept] function: an exception that leaves it calls
    [std::terminate]. *)
Definition noexcept {E S A} (m : M E S A) : M E S A := fun s =>
  match m s with
  | (Throw _, s') => (Abort, s')
  | r => r
  end.

Fixpoint mfor {E S A} (l : list A) (body : A -> M E S unit) : M E S unit :=
  match l with
  | [] => mret tt
  | a :: l => body a;; mfor l body
  end.

(** Running the first half of a sequence. *)
Lemma bind_Ok {E S A B} (m : M E S A) (k : A -> M E S B) s a s' :
  m s = (Ok a, s') -> (m ≫= k) s = k a s'.
Proof. intros H. unfold mbind, M_bind. by rewrite H. Qed.

Lemma bind_Throw {E S A B} (m : M E S A) (k : A -> M E S B) s e s' :
  m s = (Throw e, s') -> (m ≫= k) s = (Throw e, s').
Proof. intros H. unfold mbind, M_bind. by rewrite H. Qed.

(** ** Labelled transition systems

    A concurrent component is a partial step function: [step l s] is the
    state after the atomic action [l], [None] when [l] is not enabled. *)
Section transition_system.
Context {S L : Type}.
Variable step : L -> S -> option S.
Variable init : S.

Fixpoint run (ls : list L) (s : S) : option S :=
  match ls with
  | [] => Some s
  | l :: ls => match step l s with Some s' => run ls s' | None => None end
  end.

(** The state a run leads to; [init] when the run is not possible. *)
Definition after (ls : list L) : S :=
  match run ls init with Some s => s | None => init end.

Inductive reachable : S -> Prop :=
  | reachable_init : reachable init
  | reachable_step l s s' : reachable s -> step l s = Some s' -> reachable s'.
End transition_system.

(** ** Machine integers

    [size_t] is 64 bits wide. *)
Definition size_bits : Z := 64.
Definition size_mod : Z := 2 ^ size_bits.
Definition size_max : Z := size_mod - 1.
Definition wrap_size (z : Z) : Z := z mod size_mod.

(** [static_cast<size_t>(-1)]. *)
Definition size_minus_one : Z := wrap_size (-1).

(** ** Automation *)

(** Split a hypothesis that says a partial step succeeded. *)
Ltac step_inv H :=
  repeat first
    [ progress simplify_eq/=
    | match type of H with
      | context [match ?x with _ => _ end] => destruct x eqn:?
      end ].

Ltac split_ands := repeat match goal with |- _ /\ _ => split end.

Create HintDb crcpp.

(** ** Lemmas on transition systems *)
Section transition_system_lemmas.
Context {S L : Type}.
Variable step : L -> S -> option S.
Variable init : S.

Lemma run_app ls1 ls2 s :
  run step (ls1 ++ ls2) s =
  match run step ls1 s with Some s' => run step ls2 s' | None => None end.
Proof.
  revert s. induction ls1 as [|l ls1 IH]; intros s; simpl; [done|].
  destruct (step l s); [apply IH|done].
Qed.

Lemma run_preserves (I : S -> Prop) :
  (forall l s s', I s -> step l s = Some s' -> I s') ->
  forall ls s s', I s -> run step ls s = Some s' -> I s'.
Proof.
  intros Hpres ls. induction ls as [|l ls IH]; intros s s' HI Hrun; simpl in *.
  - by simplify_eq.
  - destruct (step l s) eqn:E; [|done]. eauto.
Qed.

Lemma run_reachable_from ls s s' :
  reachable step init s -> run step ls s = Some s' -> reachable step init s'.
Proof.
  intros HI Hrun. eapply run_preserves; [|exact HI|exact Hrun].
  intros; by eapply reachable_step.
Qed.

Lemma run_reachable ls s' :
  run step ls init = Some s' -> reachable step init s'.
Proof. apply run_reachable_from, reachable_init. Qed.

Lemma after_reachable ls : reachable step init (after step init ls).
Proof.
  unfold after. destruct (run step ls init) eqn:E; [by eapply run_reachable|constructor].
Qed.

Lemma reachable_run s :
  reachable step init s -> exists ls, run step ls init = Some s.
Proof.
  induction 1 as [|l s s' _ [ls IH] Hs].
  - by exists [].
  - exists (ls ++ [l]). rewrite run_app, IH. simpl. by rewrite Hs.
Qed.

(** A measure that a label decreases bounds the number of its steps. *)
Lemma run_measure (I : S -> Prop) (rest : S -> bool) (m : S -> nat) (l : L) :
  (forall s, I s -> rest s = false -> exists s', step l s = Some s' /\ I s' /\ m s' < m s) ->
  forall s, I s -> exists n s', n <= m s /\ run step (replicate n l) s = Some s' /\
    I s' /\ rest s' = true.
Proof.
  intros Hstep s. remember (m s) as k eqn:Hk. revert s Hk.
  induction k as [k IH] using lt_wf_ind. intros s -> HI.
  destruct (rest s) eqn:Hr.
  - exists 0, s. repeat split; auto with lia.
  - destruct (Hstep s HI Hr) as (s1 & Hs & HI1 & Hlt).
    destruct (IH _ Hlt s1 eq_refl HI1) as (n & s' & ? & ? & ? & ?).
    exists (Datatypes.S n), s'. simpl. rewrite Hs. repeat split; auto with lia.
Qed.

(** Invariants by rule induction. *)
Lemma reachable_invariant (I : S -> Prop) :
  I init ->
  (forall l s s', I s -> step l s = Some s' -> I s') ->
  forall s, reachable step init s -> I s.
Proof. intros H0 Hpres s. induction 1; eauto. Qed.
End transition_system_lemmas.

(** ** Hoare triples for the monad

    [triple P m Q R]: started in a state with [P], the computation [m] does not
    abort; if it returns, its result and state are in [Q]; if it throws, in
    [R]. *)
Definition triple {E S A} (P : S -> Prop) (m : M E S A) (Q : A -> S -> Prop) (R : E -> S -> Prop) : Prop :=
  forall s, P s ->
    match m s with
    | (Ok a, s') => Q a s'
    | (Throw e, s') => R e s'
    | (Abort, _) => False
    end.

Section triples.
Context {E S : Type}.
Implicit Types P : S -> Prop.
Implicit Types R : E -> S -> Prop.

Lemma triple_ret {A} P (a : A) (Q : A -> S -> Prop) R :
  (forall s, P s -> Q a s) -> triple P (mret a) Q R.
Proof. intros H s. apply H. Qed.

Lemma triple_bind {A B} P (m : M E S A) (k : A -> M E S B) Q' Q R :
  triple P m Q' R -> (forall a, triple (Q' a) (k a) Q R) -> triple P (m ≫= k) Q R.
Proof.
  intros Hm Hk s Hs. specialize (Hm s Hs). unfold mbind, M_bind.
  destruct (m s) as [[a|e|] s']; [by apply Hk|done|done].
Qed.

Lemma triple_seq {A} P (m : M E S unit) (k : M E S A) P' Q R :
  triple P m (fun _ => P') R -> triple P' k Q R -> triple P (m;; k) Q R.
Proof. intros Hm Hk. eapply triple_bind; [exact Hm|]. by intros []. Qed.

Lemma triple_conseq {A} P P' (m : M E S A) (Q Q' : A -> S -> Prop) (R R' : E -> S -> Prop) :
  triple P' m Q' R' -> (forall s, P s -> P' s) -> (forall a s, Q' a s -> Q a s) ->
  (forall e s, R' e s -> R e s) -> triple P m Q R.
Proof.
  intros Hm HP HQ HR s Hs. specialize (Hm s (HP s Hs)). destruct (m s) as [[a|e|] s']; eauto.
Qed.

Lemma triple_get P (Q : S -> S -> Prop) R :
  (forall s, P s -> Q s s) -> triple P get_state Q R.
Proof. intros H s. apply H. Qed.

Lemma triple_gets {A} P (f : S -> A) (Q : A -> S -> Prop) R :
  (forall s, P s -> Q (f s) s) -> triple P (gets f) Q R.
Proof. intros H s. apply H. Qed.

Lemma triple_put P s' (Q : unit -> S -> Prop) R :
  (forall s, P s -> Q tt s') -> triple P (put_state s') Q R.
Proof. intros H s. apply H. Qed.

Lemma triple_modify P (f : S -> S) (Q : unit -> S -> Prop) R :
  (forall s, P s -> Q tt (f s)) -> triple P (modify f) Q R.
Proof. intros H s. apply H. Qed.

Lemma triple_throw {A} P (e : E) (Q : A -> S -> Prop) R :
  (forall s, P s -> R e s) -> triple P (throw e) Q R.
Proof. intros H s. apply H. Qed.

Lemma triple_massert P (b : bool) (Q : unit -> S -> Prop) R :
  (forall s, P s -> b = true /\ Q tt s) -> triple P (massert b) Q R.
Proof. intros H s Hs. destruct (H s Hs) as [-> ?]. done. Qed.

(** Read the state, then go on with a fixed one. *)
Lemma triple_read {A} P (k : S -> M E S A) Q R :
  (forall s0, P s0 -> triple (fun s => s = s0) (k s0) Q R) -> triple P (s ← get_state; k s) Q R.
Proof. intros H s Hs. by apply (H s Hs). Qed.

Lemma triple_fix {A} P (m : M E S A) Q R :
  (forall s0, P s0 -> triple (fun s => s = s0) m Q R) -> triple P m Q R.
Proof. intros H s Hs. by apply (H s Hs). Qed.

Lemma triple_Ok {A} P (m : M E S A) Q R s a s' :
  triple P m Q R -> P s -> m s = (Ok a, s') -> Q a s'.
Proof. intros Hm Hs E1. specialize (Hm s Hs). by rewrite E1 in Hm. Qed.

Lemma triple_Throw {A} P (m : M E S A) Q R s e s' :
  triple P m Q R -> P s -> m s = (Throw e, s') -> R e s'.
Proof. intros Hm Hs E1. specialize (Hm s Hs). by rewrite E1 in Hm. Qed.

Lemma triple_no_abort {A} P (m : M E S A) Q R s :
  triple P m Q R -> P s -> is_Abort (m s).1 = false.
Proof. intros Hm Hs. specialize (Hm s Hs). by destruct (m s) as [[a|e|] s']. Qed.
End triples.

(** ** Lemmas on lists *)
Section list_lemmas.
Context {A : Type}.
Implicit Types l : list A.

Lemma length_cons_pos x l : 0 < length (x :: l).
Proof. simpl. lia. Qed.

Lemma drop_take_app_split (b e : nat) l :
  b <= e -> take e l = take b l ++ take (e - b) (drop b l).
Proof. intros. rewrite take_take_drop. f_equal. lia. Qed.
End list_lemmas.

Lemma wrap_size_small z : (0 <= z < size_mod)%Z -> wrap_size z = z.
Proof. intros. by apply Z.mod_small. Qed.

Lemma wrap_size_bounds z : (0 <= wrap_size z < size_mod)%Z.
Proof. apply Z.mod_pos_bound. by vm_compute. Qed.

#[export] Hint Resolve reachable_init reachable_step : crcpp.
