(* ===== verification/Errors.v ===== *)
(** * Exceptions, messages and numeric constants of the library

    The exception classes of [errors.h] with their inheritance (a [catch] of a
    base class also catches the derived ones), the standard exceptions the code
    throws, and the constants of the four [constants.h] headers. *)

From stdpp Require Import prelude strings.
From Stdlib Require Import ZArith.
From S2P Require Import Prelude.

Open Scope string_scope.

(** ** Exception classes *)
Inductive exn_class :=
  | runtime_error
  | empty_object
  | empty_result
  | empty_result_promise
  | empty_awaitable
  | empty_timer
  | empty_generator
  | interrupted_task
  | broken_task
  | runtime_shutdown
  | result_already_retrieved
  | invalid_argument
  | operation_not_permitted      (* std::system_error with this std::errc *)
  | resource_deadlock_would_occur (* std::system_error with this std::errc *)
  | user_exception (n : nat).    (* an exception of the application *)

#[export] Instance exn_class_eq_dec : EqDecision exn_class.
Proof. solve_decision. Defined.

(** The direct base class, for the classes of [errors.h]. *)
Definition base_class (c : exn_class) : option exn_class :=
  match c with
  | empty_object => Some runtime_error
  | empty_result => Some empty_object
  | empty_result_promise => Some empty_object
  | empty_awaitable => Some empty_object
  | empty_timer => Some empty_object
  | empty_generator => Some empty_object
  | interrupted_task => Some runtime_error
  | broken_task => Some interrupted_task
  | runtime_shutdown => Some interrupted_task
  | result_already_retrieved => Some runtime_error
  | _ => None
  end.

(** A thrown exception: its class and [what()]. *)
Record exn := make_exn { exn_cls : exn_class; what : string }.

#[export] Instance exn_eq_dec : EqDecision exn.
Proof. solve_decision. Defined.

(** [is_a fuel c d]: class [c] is [d] or derives from it.  The hierarchy is
    at most three levels deep. *)
Fixpoint is_a_fuel (fuel : nat) (c d : exn_class) : bool :=
  bool_decide (c = d) ||
  match fuel, base_class c with
  | S fuel, Some c' => is_a_fuel fuel c' d
  | _, _ => false
  end.

Definition is_a (c d : exn_class) : bool := is_a_fuel 3 c d.

(** ** Messages *)

(** *** [include/concurrencpp/results/constants.h] *)
Definition k_result_promise_set_result_error_msg : string :=
  "concurrencpp::result_promise::set_result() - empty result_promise.".
Definition k_result_promise_set_exception_error_msg : string :=
  "concurrencpp::result_promise::set_exception() - empty result_promise.".
Definition k_result_promise_set_exception_null_exception_error_msg : string :=
  "concurrencpp::result_promise::set_exception() - exception pointer is null.".
Definition k_result_promise_set_from_function_error_msg : string :=
  "concurrencpp::result_promise::set_from_function() - empty result_promise.".
Definition k_result_promise_get_result_error_msg : string :=
  "concurrencpp::result_promise::get_result() - empty result_promise.".
Definition k_result_promise_get_result_already_retrieved_error_msg : string :=
  "concurrencpp::result_promise::get_result() - result was already retrieved.".
Definition k_result_status_error_msg : string :=
  "concurrencpp::result::status() - result is empty.".
Definition k_result_get_error_msg : string :=
  "concurrencpp::result::get() - result is empty.".
Definition k_result_wait_error_msg : string :=
  "concurrencpp::result::wait() - result is empty.".
Definition k_result_wait_for_error_msg : string :=
  "concurrencpp::result::wait_for() - result is empty.".
Definition k_result_wait_until_error_msg : string :=
  "concurrencpp::result::wait_until() - result is empty.".
Definition k_result_operator_co_await_error_msg : string :=
  "concurrencpp::result::operator co_await() - result is empty.".
Definition k_result_resolve_error_msg : string :=
  "concurrencpp::result::resolve() - result is empty.".
Definition k_executor_exception_error_msg : string :=
  "concurrencpp::concurrencpp::result - an exception was thrown while trying to enqueue result continuation.".
Definition k_broken_task_exception_error_msg : string :=
  "concurrencpp::result - associated task was interrupted abnormally".
Definition k_make_exceptional_result_exception_null_error_msg : string :=
  "concurrencpp::make_exception_result() - given exception_ptr is null.".
Definition k_when_all_empty_result_error_msg : string :=
  "concurrencpp::when_all() - one of the result objects is empty.".
Definition k_when_all_null_resume_executor_error_msg : string :=
  "concurrencpp::when_all() - given resume_executor is null.".
Definition k_when_any_empty_result_error_msg : string :=
  "concurrencpp::when_any() - one of the result objects is empty.".
Definition k_when_any_empty_range_error_msg : string :=
  "concurrencpp::when_any() - given range contains no elements.".
Definition k_when_any_null_resume_executor_error_msg : string :=
  "concurrencpp::when_any() - given resume_executor is null.".
Definition k_shared_result_status_error_msg : string :=
  "concurrencpp::shared_result::status() - result is empty.".
Definition k_shared_result_get_error_msg : string :=
  "concurrencpp::shared_result::get() - result is empty.".
Definition k_shared_result_wait_error_msg : string :=
  "concurrencpp::shared_result::wait() - result is empty.".
Definition k_shared_result_wait_for_error_msg : string :=
  "concurrencpp::shared_result::wait_for() - result is empty.".
Definition k_shared_result_wait_until_error_msg : string :=
  "concurrencpp::shared_result::wait_until() - result is empty.".
Definition k_shared_result_operator_co_await_error_msg : string :=
  "concurrencpp::shared_result::operator co_await() - result is empty.".
Definition k_shared_result_resolve_error_msg : string :=
  "concurrencpp::shared_result::resolve() - result is empty.".
Definition k_empty_lazy_result_status_err_msg : string :=
  "concurrencpp::lazy_result::status - result is empty.".
Definition k_empty_lazy_result_operator_co_await_err_msg : string :=
  "concurrencpp::lazy_result::operator co_await - result is empty.".
Definition k_empty_lazy_result_resolve_err_msg : string :=
  "concurrencpp::lazy_result::resolve - result is empty.".
Definition k_empty_lazy_result_run_err_msg : string :=
  "concurrencpp::lazy_result::run - result is empty.".
Definition k_resume_on_null_exception_err_msg : string :=
  "concurrencpp::resume_on - given executor is null.".
Definition k_empty_generator_begin_err_msg : string :=
  "concurrencpp::generator::begin - generator is empty.".
Definition k_parallel_coroutine_null_exception_err_msg : string :=
  "concurrencpp::parallel-coroutine - given executor is null.".

(** *** [include/concurrencpp/timers/constants.h] *)
Definition k_timer_empty_get_due_time_err_msg : string :=
  "concurrencpp::timer::get_due_time() - timer is empty.".
Definition k_timer_empty_get_frequency_err_msg : string :=
  "concurrencpp::timer::get_frequency() - timer is empty.".
Definition k_timer_empty_get_executor_err_msg : string :=
  "concurrencpp::timer::get_executor() - timer is empty.".
Definition k_timer_empty_get_timer_queue_err_msg : string :=
  "concurrencpp::timer::get_timer_queue() - timer is empty.".
Definition k_timer_empty_set_frequency_err_msg : string :=
  "concurrencpp::timer::set_frequency() - timer is empty.".
Definition k_timer_queue_make_timer_executor_null_err_msg : string :=
  "concurrencpp::timer_queue::make_timer() - executor is null.".
Definition k_timer_queue_make_oneshot_timer_executor_null_err_msg : string :=
  "concurrencpp::timer_queue::make_one_shot_timer() - executor is null.".
Definition k_timer_queue_make_delay_object_executor_null_err_msg : string :=
  "concurrencpp::timer_queue::make_delay_object() - executor is null.".
Definition k_timer_queue_shutdown_err_msg : string :=
  "concurrencpp::timer_queue has been shut down.".

(** *** [include/concurrencpp/threads/constants.h] *)
Definition k_async_lock_null_resume_executor_err_msg : string :=
  "concurrencpp::async_lock::lock() - given resume executor is null.".
Definition k_async_lock_unlock_invalid_lock_err_msg : string :=
  "concurrencpp::async_lock::unlock() - trying to unlock an unowned lock.".
Definition k_scoped_async_lock_null_resume_executor_err_msg : string :=
  "concurrencpp::scoped_async_lock::lock() - given resume executor is null.".
Definition k_scoped_async_lock_lock_deadlock_err_msg : string :=
  "concurrencpp::scoped_async_lock::lock() - *this is already locked.".
Definition k_scoped_async_lock_lock_no_mutex_err_msg : string :=
  "concurrencpp::scoped_async_lock::lock() - *this doesn't reference any async_lock.".
Definition k_scoped_async_lock_try_lock_deadlock_err_msg : string :=
  "concurrencpp::scoped_async_lock::try_lock() - *this is already locked.".
Definition k_scoped_async_lock_try_lock_no_mutex_err_msg : string :=
  "concurrencpp::scoped_async_lock::try_lock() - *this doesn't reference any async_lock.".
Definition k_scoped_async_lock_unlock_invalid_lock_err_msg : string :=
  "concurrencpp::scoped_async_lock::unlock() - trying to unlock an unowned lock.".
Definition k_async_condition_variable_await_invalid_resume_executor_err_msg : string :=
  "concurrencpp::async_condition_variable::await() - resume_executor is null.".
Definition k_async_condition_variable_await_lock_unlocked_err_msg : string :=
  "concurrencpp::async_condition_variable::await() - lock is unlocked.".

(** *** [include/concurrencpp/executors/constants.h] *)
Definition k_inline_executor_name : string :=
  "concurrencpp::inline_executor".
Definition k_thread_executor_name : string :=
  "concurrencpp::thread_executor".
Definition k_thread_pool_executor_name : string :=
  "concurrencpp::thread_pool_executor".
Definition k_background_executor_name : string :=
  "concurrencpp::background_executor".
Definition k_worker_thread_executor_name : string :=
  "concurrencpp::worker_thread_executor".
Definition k_manual_executor_name : string :=
  "concurrencpp::manual_executor".
Definition k_timer_queue_name : string :=
  "concurrencpp::timer_queue".
Definition k_executor_shutdown_err_msg : string :=
  " - shutdown has been called on this executor.".

(** *** Numeric constants *)
Definition int_max : Z := 2 ^ 31 - 1.
Definition k_inline_executor_max_concurrency_level : Z := 0.
Definition k_thread_executor_max_concurrency_level : Z := int_max.
Definition k_worker_thread_max_concurrency_level : Z := 1.
Definition k_manual_executor_max_concurrency_level : Z := int_max.

(** *** [include/concurrencpp/runtime/constants.h] *)
Definition k_cpu_threadpool_worker_count_factor : Z := 1.
Definition k_background_threadpool_worker_count_factor : Z := 4.
Definition k_max_threadpool_worker_waiting_time_sec : Z := 2 * 60.
Definition k_default_number_of_cores : Z := 8.
Definition k_max_timer_queue_worker_waiting_time_sec : Z := 2 * 60.
Definition k_concurrencpp_version_major : Z := 0.
Definition k_concurrencpp_version_minor : Z := 1.
Definition k_concurrencpp_version_revision : Z := 7.

(** *** [source/executors/executor.cpp] *)

(** [throw_runtime_shutdown_exception]: the exception it throws. *)
Definition runtime_shutdown_exception (executor_name : string) : exn :=
  make_exn runtime_shutdown (executor_name ++ k_executor_shutdown_err_msg).

Definition make_executor_worker_name (executor_name : string) : string :=
  executor_name ++ " worker".

(** ** Lemmas *)

(** [catch (const errors::interrupted_task&)] catches exactly the classes
    that [errors.h] derives from it. *)
Lemma is_a_interrupted_task c :
  is_a c interrupted_task = true <->
  c = interrupted_task \/ c = broken_task \/ c = runtime_shutdown.
Proof. destruct c; vm_compute; naive_solver. Qed.
