(* ===== verification/Thread.v ===== *)
(** * details::thread

    [include/concurrencpp/threads/thread.h] and [source/threads/thread.cpp]:
    the wrapper of [std::thread] that every worker of the library runs in, the
    function that its thread executes, and the virtual identifiers of threads.

    The system call behind [set_name] is an argument; [hardware_concurrency] is
    in [Runtime], which uses it. *)

From Stdlib Require Import ZArith Lia.
From stdpp Require Import prelude gmap list fin_maps strings.
From S2P Require Import Prelude Errors.
#[local] Open Scope list_scope.

(** An operating-system thread. *)
Definition thread_id : Type := nat.

(** ** Virtual identifiers *)

(** The seed, and the [thread_local] datum of the threads that have one. *)
Record id_source := make_ids {
  s_id_seed : Z;
  s_tl_thread_per_data : gmap thread_id Z
}.

Notation IM := (M exn id_source).

Definition initial_ids : id_source := make_ids 1 ∅.

(** [fetch_add] on an [atomic_uintptr_t] of 64 bits. *)
Definition generate_thread_id : IM Z :=
  id ← gets s_id_seed;
  modify (fun w => make_ids (wrap_size (id + 1)) (s_tl_thread_per_data w));;
  mret id.

(** [get_current_virtual_id()] on the thread [t]; the datum is made when the
    thread first uses it. *)
Definition get_current_virtual_id (t : thread_id) : IM Z :=
  data ← gets s_tl_thread_per_data;
  match data !! t with
  | Some id => mret id
  | None =>
      id ← generate_thread_id;
      modify (fun w => make_ids (s_id_seed w) (<[t := id]> (s_tl_thread_per_data w)));;
      mret id
  end.

(** Calls on several threads, in the order of their [fetch_add]s. *)
Fixpoint virtual_ids (calls : list thread_id) : IM (list (thread_id * Z)) :=
  match calls with
  | [] => mret []
  | t :: calls =>
      id ← get_current_virtual_id t;
      ids ← virtual_ids calls;
      mret ((t, id) :: ids)
  end.

(** ** The function of a thread *)
Section thread_function.
Context {E S : Type}.
Variable set_name : string -> M E S unit.

(** A [std::function] may be empty. *)
Definition call_if_set (callback : option (string -> M E S unit)) (name : string) : M E S unit :=
  match callback with Some f => f name | None => mret tt end.

Definition thread_body (name : string) (callable : M E S unit)
  (thread_started_callback thread_terminated_callback : option (string -> M E S unit)) : M E S unit :=
  set_name name;;
  call_if_set thread_started_callback name;;
  callable;;
  call_if_set thread_terminated_callback name.

(** [std::thread] terminates the program when its function throws. *)
Definition run_thread (name : string) (callable : M E S unit)
  (thread_started_callback thread_terminated_callback : option (string -> M E S unit)) : M E S unit :=
  noexcept (thread_body name callable thread_started_callback thread_terminated_callback).
End thread_function.

(** ** Handles

    The objects of the class, by name, and the threads of the system.  A
    [std::thread] that is destroyed or assigned to while it is joinable
    terminates the program. *)
Definition object_id : Type := nat.

Record threads := make_threads {
  m_thread : gmap object_id (option thread_id);   (* the objects; None: not joinable *)
  finished : gmap thread_id bool;                 (* the threads that were started *)
  program_terminated : bool
}.

Definition no_threads : threads := make_threads ∅ ∅ false.

Definition joinable (h : option thread_id) : bool := bool_decide (h <> None).
Definition get_id (h : option thread_id) : option thread_id := h.

Inductive thread_label :=
  | t_default (o : object_id)             (* thread() *)
  | t_start (o : object_id)               (* thread(name, callable, ...) *)
  | t_finish (t : thread_id)              (* the function returns *)
  | t_join (o : object_id)
  | t_move (o o' : object_id)             (* a new o = std::move(o') *)
  | t_assign (o o' : object_id)           (* operator=: o = std::move(o') *)
  | t_destroy (o : object_id).

Definition set_object (o : object_id) (h : option thread_id) (s : threads) : threads :=
  make_threads (<[o := h]> (m_thread s)) (finished s) (program_terminated s).
Definition terminate (s : threads) : threads := make_threads (m_thread s) (finished s) true.

(** [std::thread::operator=]. *)
Definition move_assign (o o' : object_id) (h h' : option thread_id) (s : threads) : threads :=
  if joinable h then terminate s else set_object o h' (set_object o' None s).

(** [join] of a thread that is not joinable throws [std::system_error]; it is
    not part of a run. *)
Definition thread_step (l : thread_label) (s : threads) : option threads :=
  if program_terminated s then None
  else
    match l with
    | t_default o => if m_thread s !! o is None then Some (set_object o None s) else None
    | t_start o =>
        if m_thread s !! o is None then
          let t := fresh (dom (finished s)) in
          Some (make_threads (<[o := Some t]> (m_thread s)) (<[t := false]> (finished s)) false)
        else None
    | t_finish t =>
        if finished s !! t is Some false then Some (make_threads (m_thread s) (<[t := true]> (finished s)) false) else None
    | t_join o =>
        match m_thread s !! o with
        | Some (Some t) => if finished s !! t is Some true then Some (set_object o None s) else None
        | _ => None
        end
    | t_move o o' =>
        match m_thread s !! o, m_thread s !! o' with
        | None, Some h => Some (set_object o h (set_object o' None s))
        | _, _ => None
        end
    | t_assign o o' =>
        match m_thread s !! o, m_thread s !! o' with
        | Some h, Some h' => if decide (o = o') then None else Some (move_assign o o' h h' s)
        | _, _ => None
        end
    | t_destroy o =>
        match m_thread s !! o with
        | Some h => Some (if joinable h then terminate s else make_threads (delete o (m_thread s)) (finished s) false)
        | None => None
        end
    end.

(** ** Virtual identifiers: theorems *)

Definition ids_inv (w : id_source) : Prop :=
  s_id_seed w = wrap_size (Z.of_nat (size (s_tl_thread_per_data w)) + 1) /\
  (forall t id, s_tl_thread_per_data w !! t = Some id -> (1 <= id <= Z.of_nat (size (s_tl_thread_per_data w)))%Z) /\
  (forall t t' id, s_tl_thread_per_data w !! t = Some id -> s_tl_thread_per_data w !! t' = Some id -> t = t').

Lemma ids_inv_initial : ids_inv initial_ids.
Proof. split_ands; simpl; [done|by intros ?? ?%lookup_empty_Some..]. Qed.

(** One call: the thread keeps the identifier it has. *)
Lemma virtual_id_call t w :
  ids_inv w -> (Z.of_nat (size (dom (s_tl_thread_per_data w) ∪ {[t]})) < size_mod)%Z ->
  exists id w', get_current_virtual_id t w = (Ok id, w') /\ ids_inv w' /\
    s_tl_thread_per_data w' !! t = Some id /\
    s_tl_thread_per_data w ⊆ s_tl_thread_per_data w' /\
    dom (s_tl_thread_per_data w') = {[t]} ∪ dom (s_tl_thread_per_data w).
Proof.
  intros (Hseed & Hrange & Hinj) Hsz. unfold get_current_virtual_id, gets, mbind, M_bind. simpl.
  destruct (s_tl_thread_per_data w !! t) as [id|] eqn:E.
  - exists id, w. split_ands; try done. rewrite (subseteq_union_1_L {[t]}); [done|].
    apply singleton_subseteq_l, elem_of_dom. by exists id.
  - assert (Hd : t ∉ dom (s_tl_thread_per_data w)) by by apply not_elem_of_dom.
    rewrite size_union, size_singleton, size_dom in Hsz by set_solver.
    eexists _, _. split; [reflexivity|]. simpl.
    assert (Hseed' : s_id_seed w = (Z.of_nat (size (s_tl_thread_per_data w)) + 1)%Z) by (rewrite Hseed, wrap_size_small; lia).
    assert (Hnew : forall t', s_tl_thread_per_data w !! t' <> Some (s_id_seed w)).
    { intros t' [_ H]%Hrange. lia. }
    split; [|split_ands; [by apply lookup_insert_eq|by apply insert_subseteq|by rewrite dom_insert_L]].
    unfold ids_inv; simpl. rewrite (map_size_insert_None _ _ _ E). split_ands.
    + by rewrite Hseed', Nat2Z.inj_succ.
    + intros t' id. rewrite lookup_insert_Some. intros [[<- <-]|[_ H%Hrange]]; lia.
    + intros t1 t2 id. rewrite !lookup_insert_Some. intros [[<- <-]|[? H1]] [[<- E2]|[? H2]]; try done.
      * by destruct (Hnew t2).
      * subst. by destruct (Hnew t1).
      * by eapply Hinj.
Qed.

Lemma virtual_ids_spec calls : forall w,
  ids_inv w ->
  (Z.of_nat (size (dom (s_tl_thread_per_data w) ∪ list_to_set calls)) < size_mod)%Z ->
  exists l w', virtual_ids calls w = (Ok l, w') /\ ids_inv w' /\ l.*1 = calls /\
    s_tl_thread_per_data w ⊆ s_tl_thread_per_data w' /\
    dom (s_tl_thread_per_data w') = dom (s_tl_thread_per_data w) ∪ list_to_set calls /\
    (forall t id, (t, id) ∈ l -> s_tl_thread_per_data w' !! t = Some id).
Proof.
  induction calls as [|t calls IH]; intros w Hw Hsz.
  - exists [], w. split_ands; try done; [set_solver|by intros ?? ?%not_elem_of_nil].
  - simpl in Hsz.
    destruct (virtual_id_call t w Hw) as (id & w1 & E1 & Hw1 & Ht & Hsub & Hdom).
    { eapply Z.le_lt_trans; [|exact Hsz]. apply inj_le, subseteq_size. set_solver. }
    destruct (IH w1 Hw1) as (l & w2 & E2 & Hw2 & Hl & Hsub2 & Hdom2 & Hin).
    { rewrite Hdom. replace ({[t]} ∪ dom (s_tl_thread_per_data w) ∪ list_to_set calls)
        with (dom (s_tl_thread_per_data w) ∪ ({[t]} ∪ list_to_set calls)) by set_solver. done. }
    exists ((t, id) :: l), w2. split_ands; try done.
    + simpl. by rewrite (bind_Ok _ _ _ _ _ E1), (bind_Ok _ _ _ _ _ E2).
    + by rewrite fmap_cons, Hl.
    + by transitivity (s_tl_thread_per_data w1).
    + rewrite Hdom2, Hdom. simpl. set_solver.
    + intros t' id' [[= -> ->]|H]%elem_of_cons; [|by apply Hin]. by eapply lookup_weaken.
Qed.

(** C22. The virtual identifiers: while fewer than 2^64 threads have asked,
    whatever the order and the number of the calls, a thread is always told the
    same identifier, different threads are told different ones, none is 0, and
    they are the numbers from 1 to the number of threads. *)
Theorem virtual_ids_identify_threads calls :
  (Z.of_nat (size (list_to_set calls : gset thread_id)) < size_mod)%Z ->
  exists l w, virtual_ids calls initial_ids = (Ok l, w) /\ l.*1 = calls /\
    (forall t t' id id', (t, id) ∈ l -> (t', id') ∈ l -> (t = t' <-> id = id')) /\
    (forall t id, (t, id) ∈ l -> (1 <= id <= Z.of_nat (size (list_to_set calls : gset thread_id)))%Z).
Proof.
  intros Hsz. destruct (virtual_ids_spec calls initial_ids) as (l & w & E & (Hs & Hr & Hi) & Hl & _ & Hdom & Hin).
  { apply ids_inv_initial. }
  { simpl. by rewrite dom_empty_L, union_empty_l_L. }
  assert (Hn : size (s_tl_thread_per_data w) = size (list_to_set calls : gset thread_id)).
  { rewrite <-size_dom, Hdom. simpl. by rewrite dom_empty_L, union_empty_l_L. }
  exists l, w. split_ands; try done.
  - intros t t' id id' H1%Hin H2%Hin. split; [intros ->; congruence|intros ->; by eapply Hi].
  - intros t id H%Hin%Hr. by rewrite <-Hn.
Qed.

(** The bound is sharp: the seed wraps around, and identifiers come again. *)
Lemma virtual_ids_wrap m :
  generate_thread_id (make_ids size_max m) = (Ok size_max, make_ids 0 m) /\
  generate_thread_id (make_ids 0 m) = (Ok 0%Z, make_ids 1 m).
Proof. by vm_compute. Qed.

Lemma virtual_ids_identify_threads_witness :
  exists l w, virtual_ids [7; 3; 7; 5] initial_ids = (Ok l, w) /\ l.*1 = [7; 3; 7; 5].
Proof.
  destruct (virtual_ids_identify_threads [7; 3; 7; 5]) as (l & w & E & Hl & _); [by vm_compute|].
  exists l, w. split; [exact E|exact Hl].
Defined.

(** ** Handles: theorems *)

(** Each started thread that has not finished is owned by one object: nothing
    is detached and nothing is joined twice. *)
Record thread_inv (s : threads) : Prop := {
  ti_unique : forall o o' t, m_thread s !! o = Some (Some t) -> m_thread s !! o' = Some (Some t) -> o = o';
  ti_started : forall o t, m_thread s !! o = Some (Some t) -> is_Some (finished s !! t);
  ti_owned : forall t, finished s !! t = Some false -> exists o, m_thread s !! o = Some (Some t)
}.

Lemma thread_inv_move o o' h s :
  thread_inv s -> m_thread s !! o' = Some h -> m_thread s !! o = None \/ m_thread s !! o = Some None -> o <> o' ->
  thread_inv (set_object o h (set_object o' None s)).
Proof.
  intros [Hu Hst Hown] Ho' Ho Hne.
  assert (Hlk : forall x t, <[o := h]> (<[o' := None]> (m_thread s)) !! x = Some (Some t) <->
    (x = o /\ h = Some t) \/ (x <> o /\ x <> o' /\ m_thread s !! x = Some (Some t))).
  { intros x t. rewrite !lookup_insert_Some. naive_solver. }
  constructor; simpl.
  - intros x x' t H1%Hlk H2%Hlk.
    destruct H1 as [[-> E]|(?&?&E)], H2 as [[-> E2]|(?&?&E2)]; subst; [done| | |by eapply Hu].
    + by destruct (Hu x' o' t).
    + by destruct (Hu x o' t).
  - intros x t [[-> ->]|(_&_&E)]%Hlk; by eapply Hst.
  - intros t [x Hx]%Hown. destruct (decide (x = o')) as [->|].
    + exists o. apply Hlk. left. split; [done|]. congruence.
    + exists x. apply Hlk. right. split; [|done]. intros ->. destruct Ho; congruence.
Qed.

Lemma thread_inv_none o s :
  thread_inv s -> m_thread s !! o = None -> thread_inv (set_object o None s).
Proof.
  intros [Hu Hst Hown] Ho. constructor; simpl.
  - intros x x' t [[_ ?]|[_ H1]]%lookup_insert_Some [[_ ?]|[_ H2]]%lookup_insert_Some; try done. by eapply Hu.
  - intros x t [[_ ?]|[_ H1]]%lookup_insert_Some; [done|by eapply Hst].
  - intros t [x Hx]%Hown. exists x. rewrite lookup_insert_ne; [done|congruence].
Qed.

Lemma thread_inv_start o s :
  thread_inv s -> m_thread s !! o = None ->
  thread_inv (make_threads (<[o := Some (fresh (dom (finished s)))]> (m_thread s)) (<[fresh (dom (finished s)) := false]> (finished s)) false).
Proof.
  intros [Hu Hst Hown] Ho. set (t0 := fresh (dom (finished s))).
  assert (Hnew : finished s !! t0 = None) by (apply not_elem_of_dom, is_fresh).
  assert (Hfree : forall x, m_thread s !! x <> Some (Some t0)) by (intros x [? ?]%Hst; congruence).
  constructor; simpl.
  - intros x x' t [[<- [= <-]]|[_ H1]]%lookup_insert_Some [[<- E]|[_ H2]]%lookup_insert_Some; try done.
    + by destruct (Hfree x').
    + injection E as <-. by destruct (Hfree x).
    + by eapply Hu.
  - intros x t [[<- [= <-]]|[_ H1]]%lookup_insert_Some; [by rewrite lookup_insert_eq|].
    apply lookup_insert_is_Some'. right. by eapply Hst.
  - intros t [[<- _]|[_ H]]%lookup_insert_Some; [exists o; by rewrite lookup_insert_eq|].
    apply Hown in H as [x Hx]. exists x. rewrite lookup_insert_ne; [done|congruence].
Qed.

(** An object that is not joinable changes or goes. *)
Lemma thread_inv_join o t s :
  thread_inv s -> m_thread s !! o = Some (Some t) -> finished s !! t = Some true -> thread_inv (set_object o None s).
Proof.
  intros [Hu Hst Hown] Ho Ht. constructor; simpl.
  - intros x x' t' [[_ ?]|[_ H1]]%lookup_insert_Some [[_ ?]|[_ H2]]%lookup_insert_Some; try done. by eapply Hu.
  - intros x t' [[_ ?]|[_ H1]]%lookup_insert_Some; [done|by eapply Hst].
  - intros t' Ht'. assert (H := Ht'). apply Hown in H as [x Hx]. exists x. rewrite lookup_insert_ne; [done|].
    intros <-. congruence.
Qed.

Lemma thread_inv_destroy o s :
  thread_inv s -> m_thread s !! o = Some None -> thread_inv (make_threads (delete o (m_thread s)) (finished s) false).
Proof.
  intros [Hu Hst Hown] Ho. constructor; simpl.
  - intros x x' t [_ H1]%lookup_delete_Some [_ H2]%lookup_delete_Some. by eapply Hu.
  - intros x t [_ H1]%lookup_delete_Some. by eapply Hst.
  - intros t [x Hx]%Hown. exists x. rewrite lookup_delete_ne; [done|congruence].
Qed.

Lemma thread_inv_finish t s :
  thread_inv s -> thread_inv (make_threads (m_thread s) (<[t := true]> (finished s)) false).
Proof.
  intros [Hu Hst Hown]. constructor; simpl; [done| |].
  - intros x t' H. apply lookup_insert_is_Some'. right. by eapply Hst.
  - intros t' [[_ ?]|[_ H]]%lookup_insert_Some; [done|by apply Hown].
Qed.

Lemma thread_inv_terminate s : thread_inv s -> thread_inv (terminate s).
Proof. by intros []. Qed.

Lemma thread_inv_step l s s' : thread_inv s -> thread_step l s = Some s' -> thread_inv s'.
Proof.
  intros Hs. unfold thread_step. destruct (program_terminated s); [done|].
  destruct l; intros Hl; step_inv Hl.
  - by apply thread_inv_none.
  - by apply thread_inv_start.
  - by apply thread_inv_finish.
  - by eapply thread_inv_join.
  - apply thread_inv_move; [done|done|by left|congruence].
  - unfold move_assign. destruct (joinable _) eqn:E; [by apply thread_inv_terminate|].
    apply bool_decide_eq_false, dec_stable in E. subst. apply thread_inv_move; [done|done|by right|done].
  - destruct (joinable _) eqn:E; [by apply thread_inv_terminate|].
    apply bool_decide_eq_false, dec_stable in E. subst. by apply thread_inv_destroy.
Qed.

(** Objects of the class own threads linearly: in every use of them, no two
    objects have the same thread, a thread that runs is owned by an object, so
    that when the program has destroyed all of them (and was not terminated by
    the destruction of or the assignment to a joinable one) every thread that was
    started has returned. *)
Theorem threads_are_joined s :
  reachable thread_step no_threads s ->
  (forall o o' t, m_thread s !! o = Some (Some t) -> m_thread s !! o' = Some (Some t) -> o = o') /\
  (forall t, finished s !! t = Some false -> exists o, m_thread s !! o = Some (Some t)) /\
  (m_thread s = ∅ -> forall t b, finished s !! t = Some b -> b = true).
Proof.
  intros Hr. assert (Hs : thread_inv s).
  { revert s Hr. apply reachable_invariant; [|exact thread_inv_step].
    constructor; simpl; [by intros ??? ?%lookup_empty_Some|by intros ?? ?%lookup_empty_Some|by intros ? ?%lookup_empty_Some]. }
  split_ands; [apply Hs|apply Hs|].
  intros He t [] Ht; [done|]. apply Hs in Ht as [o Ho]. rewrite He in Ho. by apply lookup_empty_Some in Ho.
Qed.

(** [ensure_worker_thread] of the timer queue and of the executors: the old
    worker is moved away before the new one is assigned, so that nothing is
    terminated; without the move it would be. *)
Lemma replace_worker_thread :
  (exists s, run thread_step [t_default 0; t_start 2; t_assign 0 2; t_destroy 2; t_finish 0;
       t_move 1 0; t_start 2; t_assign 0 2; t_destroy 2; t_join 1; t_destroy 1] no_threads = Some s /\
     program_terminated s = false) /\
  (exists s, run thread_step [t_default 0; t_start 2; t_assign 0 2; t_destroy 2; t_finish 0; t_start 2; t_assign 0 2]
     no_threads = Some s /\ program_terminated s = true).
Proof. split; eexists; (split; [vm_compute; reflexivity|reflexivity]). Qed.

(** What a thread executes, when nothing throws: the name is set, then the
    started callback, the callable and the terminated callback. *)
Lemma thread_runs_in_order {E S} (set_name : string -> M E S unit) name callable started ended s s1 s2 s3 s4 :
  set_name name s = (Ok tt, s1) -> call_if_set started name s1 = (Ok tt, s2) ->
  callable s2 = (Ok tt, s3) -> call_if_set ended name s3 = (Ok tt, s4) ->
  run_thread set_name name callable started ended s = (Ok tt, s4).
Proof.
  intros H1 H2 H3 H4. unfold run_thread, noexcept, thread_body.
  by rewrite (bind_Ok _ _ _ _ _ H1), (bind_Ok _ _ _ _ _ H2), (bind_Ok _ _ _ _ _ H3), H4.
Qed.

(** An exception of the callable skips the terminated callback and terminates
    the program. *)
Lemma thread_exception_terminates {E S} (set_name : string -> M E S unit) name callable started ended s s1 s2 s3 e :
  set_name name s = (Ok tt, s1) -> call_if_set started name s1 = (Ok tt, s2) -> callable s2 = (Throw e, s3) ->
  run_thread set_name name callable started ended s = (Abort, s3).
Proof.
  intros H1 H2 H3. unfold run_thread, noexcept, thread_body.
  by rewrite (bind_Ok _ _ _ _ _ H1), (bind_Ok _ _ _ _ _ H2), (bind_Throw _ _ _ _ _ H3).
Qed.

Lemma threads_are_joined_witness :
  exists s, run thread_step [t_start 0; t_finish 0; t_join 0; t_destroy 0] no_threads = Some s /\
    forall t b, finished s !! t = Some b -> b = true.
Proof.
  destruct (run thread_step [t_start 0; t_finish 0; t_join 0; t_destroy 0] no_threads) as [s|] eqn:E;
    [|vm_compute in E; discriminate].
  exists s. split; [reflexivity|].
  apply (threads_are_joined s); [exact (run_reachable _ _ _ _ E)|]. vm_compute in E. injection E as <-. reflexivity.
Defined.
