(* ===== verification/ProducerContext.v ===== *)
(** * producer_context: the storage of an asynchronous result

    [include/concurrencpp/results/impl/producer_context.h].  The class is a
    hand-written tagged union: [m_status] is the tag, [m_storage] the union.
    The model keeps the two apart, as the code does: nothing but the
    operations keeps the tag in step with the active union member.

    The class has a primary template and the specialisations [void] and
    [type&].  Their operations are the same up to the type of what they store:
    [T] is the value itself, [unit] for [void], the address for [type&];
    [ProducerSpecialised] translates them one by one and shows this. *)

From stdpp Require Import prelude strings.
From S2P Require Import Prelude Errors.

(** [enum class result_status]. *)
Inductive result_status := idle | value | exception.

#[export] Instance result_status_eq_dec : EqDecision result_status.
Proof. solve_decision. Defined.

(** [std::exception_ptr]: [None] is the null pointer. *)
Definition exception_ptr : Type := option exn.

Section producer_context.
Context {T : Type}.

(** [union storage]: which member is alive, and its content. *)
Inductive storage :=
  | uninitialised
  | object (t : T)
  | stored_exception (e : exception_ptr).

Record producer_context := make_producer_context {
  m_storage : storage;
  m_status : result_status
}.

(** A new [producer_context]. *)
Definition empty_producer : producer_context :=
  make_producer_context uninitialised idle.

(** [build_result]: [ctor] is the constructor of [type] applied to the
    arguments; it may throw, and then [m_status] keeps its value. *)
Definition build_result (ctor : outcome exn T) : M exn producer_context unit :=
  p ← get_state;
  massert (bool_decide (m_status p = idle));;
  match ctor with
  | Ok t => put_state (make_producer_context (object t) value)
  | Throw e => throw e
  | Abort => abort
  end.

Definition build_exception (e : exception_ptr) : M exn producer_context unit :=
  p ← get_state;
  massert (bool_decide (m_status p = idle));;
  put_state (make_producer_context (stored_exception e) exception).

Definition status (p : producer_context) : result_status := m_status p.

(** [get_ref]: reading the member that is not alive is undefined. *)
Definition get_ref : M exn producer_context T :=
  p ← get_state;
  massert (bool_decide (m_status p ≠ idle));;
  if bool_decide (m_status p = value) then
    match m_storage p with
    | object t => mret t
    | _ => abort
    end
  else
    massert (bool_decide (m_status p = exception));;
    match m_storage p with
    | stored_exception (Some e) => throw e
    | _ => abort          (* assert(static_cast<bool>(m_storage.exception)) *)
    end.

(** [get] moves the object out of the storage; the union member stays alive
    (moved-from) until the destructor runs. *)
Definition get : M exn producer_context T := get_ref.

(** [~producer_context]: the storage it leaves; destroying a member that is
    not alive is undefined. *)
Definition destruct_context (p : producer_context) : outcome exn storage :=
  match m_status p, m_storage p with
  | value, object _ => Ok uninitialised
  | exception, stored_exception _ => Ok uninitialised
  | idle, st => Ok st
  | _, _ => Abort
  end.

(** What a finished asynchronous computation produced. *)
Definition payload : Type := T + exn.

(** ** The invariant: the tag describes the union. *)
Definition producer_wf (p : producer_context) : Prop :=
  match m_status p, m_storage p with
  | idle, _ => True
  | value, object _ => True
  | exception, stored_exception (Some _) => True
  | _, _ => False
  end.

(** The abstract content of a context. *)
Definition content (p : producer_context) : option payload :=
  match m_status p, m_storage p with
  | value, object t => Some (inl t)
  | exception, stored_exception (Some e) => Some (inr e)
  | _, _ => None
  end.

(** The outcome a consumer gets from a payload. *)
Definition payload_outcome (r : payload) : outcome exn T :=
  match r with inl t => Ok t | inr e => Throw e end.

(** ** Lemmas *)

Lemma empty_producer_wf : producer_wf empty_producer.
Proof. done. Qed.

Lemma content_status p r :
  content p = Some r -> m_status p = match r with inl _ => value | inr _ => exception end.
Proof. unfold content. destruct p as [[|t|[e|]] []]; intros; by simplify_eq/=. Qed.

Lemma wf_content p : producer_wf p -> m_status p ≠ idle -> is_Some (content p).
Proof.
  unfold producer_wf, content. destruct p as [[|t|[e|]] []]; simpl; try done; eauto.
Qed.

Lemma get_ref_content p r :
  content p = Some r -> get_ref p = (payload_outcome r, p).
Proof. unfold content. destruct p as [[|t|[e|]] []]; intros; by simplify_eq/=. Qed.

Lemma build_result_Ok t p :
  m_status p = idle ->
  build_result (Ok t) p = (Ok tt, make_producer_context (object t) value).
Proof. destruct p as [st []]; by intros. Qed.

Lemma build_exception_Ok e p :
  m_status p = idle ->
  build_exception e p = (Ok tt, make_producer_context (stored_exception e) exception).
Proof. destruct p as [st []]; by intros. Qed.

(** [get_ref] never runs into a failed assertion or a dead union member
    once a result was built. *)
Lemma get_ref_safe p :
  producer_wf p -> m_status p ≠ idle -> is_Abort (get_ref p).1 = false.
Proof.
  intros Hwf Hne. destruct (wf_content p Hwf Hne) as [r Hr].
  rewrite (get_ref_content p r Hr). by destruct r.
Qed.

Lemma destruct_context_safe p :
  producer_wf p -> is_Abort (destruct_context p) = false.
Proof. destruct p as [[|t|[e|]] []]; by simpl. Qed.
End producer_context.
Arguments storage : clear implicits.
Arguments producer_context : clear implicits.
Arguments payload : clear implicits.

#[export] Hint Resolve empty_producer_wf : crcpp.
#[export] Hint Rewrite @build_result_Ok @build_exception_Ok using done : crcpp.

(** [status_of_payload]: the tag of a finished computation. *)
Definition status_of_payload {T} (r : payload T) : result_status :=
  match r with inl _ => value | inr _ => exception end.
