(* ===== verification/ProducerSpecialised.v ===== *)
(** * producer_context<void> and producer_context<type&>

    The two specialisations of
    [include/concurrencpp/results/impl/producer_context.h], translated on their
    own, and what the rest of the library relies on: seen from outside they
    behave as the primary template does for the values [unit] and addresses.
    They also have an [operator=], which the primary template has not. *)

From stdpp Require Import prelude strings.
From S2P Require Import Prelude Errors ProducerContext.
#[local] Open Scope list_scope.

(** ** What a context offers

    [ops_valid t]: may [t] be stored at all (a reference is neither null nor
    misaligned)? *)
Class ContextOps (P T : Type) := {
  ops_empty : P;
  ops_status : P -> result_status;
  ops_build_result : T -> M exn P unit;
  ops_build_exception : exception_ptr -> M exn P unit;
  ops_get_ref : M exn P T;
  ops_destruct : P -> outcome exn unit
}.

#[export] Instance primary_ops (T : Type) : ContextOps (producer_context T) T := {
  ops_empty := empty_producer;
  ops_status := status;
  ops_build_result t := build_result (Ok t);
  ops_build_exception := build_exception;
  ops_get_ref := get_ref;
  ops_destruct p := outcome_map (fun _ => tt) (destruct_context p)
}.

(** ** producer_context<void> *)
Module of_void.
Inductive storage := uninitialised | stored (e : exception_ptr).

Record t := make { m_storage : storage; m_status : result_status }.

Definition empty : t := make uninitialised idle.

Definition destruct_context (p : t) : outcome exn unit :=
  if decide (m_status p = exception) then
    match m_storage p with stored _ => Ok tt | uninitialised => Abort end
  else Ok tt.

Definition move_assign (self rhs : t) : outcome exn (t * t) :=
  if bool_decide (m_status self = idle) then
    if decide (m_status rhs = exception) then
      match m_storage rhs with
      | stored e => Ok (make (stored e) exception, make uninitialised idle)
      | uninitialised => Abort
      end
    else Ok (make (m_storage self) (m_status rhs), make (m_storage rhs) idle)
  else Abort.

Definition build_result : M exn t unit :=
  p ← get_state;
  massert (bool_decide (m_status p = idle));;
  put_state (make (m_storage p) value).

Definition build_exception (e : exception_ptr) : M exn t unit :=
  p ← get_state;
  massert (bool_decide (m_status p = idle));;
  put_state (make (stored e) exception).

Definition get_ref : M exn t unit :=
  p ← get_state;
  massert (bool_decide (m_status p <> idle));;
  if decide (m_status p = exception) then
    match m_storage p with
    | stored (Some e) => throw e
    | _ => abort
    end
  else mret tt.

#[global] Instance ops : ContextOps t unit := {
  ops_empty := empty;
  ops_status := m_status;
  ops_build_result _ := build_result;
  ops_build_exception := build_exception;
  ops_get_ref := get_ref;
  ops_destruct := destruct_context
}.
End of_void.

(** ** producer_context<type&> *)
Module of_reference.
Section of_reference.
Variable alignment : N.          (* alignof(type) *)

(** Addresses as numbers. *)
Inductive storage := uninitialised | pointer (a : N) | stored (e : exception_ptr).

Record t := make { m_storage : storage; m_status : result_status }.

Definition empty : t := make uninitialised idle.

Definition destruct_context (p : t) : outcome exn unit :=
  if decide (m_status p = exception) then
    match m_storage p with stored _ => Ok tt | _ => Abort end
  else Ok tt.

Definition move_assign (self rhs : t) : outcome exn (t * t) :=
  if bool_decide (m_status self = idle) then
    match m_status rhs, m_storage rhs with
    | value, pointer a => Ok (make (pointer a) value, make (m_storage rhs) idle)
    | exception, stored e => Ok (make (stored e) exception, make uninitialised idle)
    | idle, _ => Ok (make (m_storage self) idle, make (m_storage rhs) idle)
    | _, _ => Abort
    end
  else Abort.

(** The assertions on a pointer. *)
Definition valid_pointer (a : N) : bool := bool_decide (a <> 0%N) && bool_decide (N.modulo a alignment = 0%N).

Definition build_result (reference : N) : M exn t unit :=
  p ← get_state;
  massert (bool_decide (m_status p = idle));;
  massert (valid_pointer reference);;
  put_state (make (pointer reference) value).

Definition build_exception (e : exception_ptr) : M exn t unit :=
  p ← get_state;
  massert (bool_decide (m_status p = idle));;
  put_state (make (stored e) exception).

Definition get_ref : M exn t N :=
  p ← get_state;
  massert (bool_decide (m_status p <> idle));;
  if decide (m_status p = value) then
    match m_storage p with
    | pointer a => massert (valid_pointer a);; mret a
    | _ => abort
    end
  else
    massert (bool_decide (m_status p = exception));;
    match m_storage p with
    | stored (Some e) => throw e
    | _ => abort
    end.

Definition ops : ContextOps t N := {|
  ops_empty := empty;
  ops_status := m_status;
  ops_build_result := build_result;
  ops_build_exception := build_exception;
  ops_get_ref := get_ref;
  ops_destruct := destruct_context
|}.
End of_reference.
End of_reference.

(** ** Programs over a context

    A context that is destroyed is followed by a new one in its place. *)
Inductive context_op (T : Type) :=
  | do_build (t : T)
  | do_throw (e : exception_ptr)
  | do_get
  | do_status
  | do_destruct.
Arguments do_build {T} t.
Arguments do_throw {T} e.
Arguments do_get {T}.
Arguments do_status {T}.
Arguments do_destruct {T}.

(** What the caller sees. *)
Inductive observation (T : Type) :=
  | saw_return
  | saw_value (t : T)
  | saw_throw (e : exn)
  | saw_status (s : result_status)
  | saw_failure.
Arguments saw_return {T}.
Arguments saw_value {T} t.
Arguments saw_throw {T} e.
Arguments saw_status {T} s.
Arguments saw_failure {T}.

Section programs.
Context {P T : Type} `{ContextOps P T}.

Definition seen_of {A} (see : A -> observation T) (r : outcome exn A * P) : observation T * P :=
  (match r.1 with Ok a => see a | Throw e => saw_throw e | Abort => saw_failure end, r.2).

Definition do_op (o : context_op T) (p : P) : observation T * P :=
  match o with
  | do_build t => seen_of (fun _ => saw_return) (ops_build_result t p)
  | do_throw e => seen_of (fun _ => saw_return) (ops_build_exception e p)
  | do_get => seen_of saw_value (ops_get_ref p)
  | do_status => (saw_status (ops_status p), p)
  | do_destruct =>
      match ops_destruct p with
      | Ok _ => (saw_return, ops_empty)
      | _ => (saw_failure, p)
      end
  end.

(** A program ends at the first failed assertion. *)
Fixpoint do_ops (os : list (context_op T)) (p : P) : list (observation T) :=
  match os with
  | [] => []
  | o :: os =>
      match do_op o p with
      | (saw_failure, _) => [saw_failure]
      | (s, p') => s :: do_ops os p'
      end
  end.

Definition run_program (os : list (context_op T)) : list (observation T) := do_ops os ops_empty.
End programs.

(** ** Simulation *)
Section simulation.
Context {P Q T : Type} `{ContextOps P T} `{ContextOps Q T}.
Variable R : P -> Q -> Prop.
Variable valid : T -> bool.

(** Two outcomes of the same operation. *)
Definition same_outcome {A} (r : outcome exn A * P) (r' : outcome exn A * Q) : Prop :=
  r.1 = r'.1 /\ R r.2 r'.2.

Class SameContext : Prop := {
  sim_empty : R ops_empty ops_empty;
  sim_status p q : R p q -> ops_status p = ops_status q;
  sim_build p q t : R p q -> valid t = true -> same_outcome (ops_build_result t p) (ops_build_result t q);
  sim_throw p q e : R p q -> same_outcome (ops_build_exception e p) (ops_build_exception e q);
  sim_get p q : R p q -> same_outcome (ops_get_ref p) (ops_get_ref q);
  sim_destruct p q : R p q -> ops_destruct p = ops_destruct q
}.

Definition uses_valid (o : context_op T) : bool := match o with do_build t => valid t | _ => true end.

Context `{SameContext}.

Lemma same_seen {A} (see : A -> observation T) r r' :
  same_outcome r r' -> (seen_of see r).1 = (seen_of see r').1 /\ R (seen_of see r).2 (seen_of see r').2.
Proof. intros [E HR]. unfold seen_of. simpl. by rewrite E. Qed.

Lemma same_op o p q :
  R p q -> uses_valid o = true -> (do_op o p).1 = (do_op o q).1 /\ R (do_op o p).2 (do_op o q).2.
Proof.
  intros Hp Hv. destruct o as [t|e| | |]; simpl.
  - by apply same_seen, sim_build.
  - by apply same_seen, sim_throw.
  - by apply same_seen, sim_get.
  - by rewrite (sim_status _ _ Hp).
  - rewrite (sim_destruct _ _ Hp). destruct (ops_destruct q); try done. split; [done|apply sim_empty].
Qed.

Lemma same_program os : forallb uses_valid os = true -> run_program (P := P) os = run_program (P := Q) os.
Proof.
  unfold run_program. generalize (@ops_empty P T _), (@ops_empty Q T _), sim_empty.
  induction os as [|o os IH]; intros p q Hp; [done|]. simpl. intros [Hv Hvs]%andb_true_iff.
  destruct (same_op o p q Hp Hv) as [E Hp']. destruct (do_op o p) as [s p'], (do_op o q) as [s' q']. simpl in *. subst s'.
  by destruct s; try done; rewrite (IH _ _ Hp').
Qed.
End simulation.

(** ** The two specialisations *)
Definition same_void (p : of_void.t) (q : producer_context unit) : Prop :=
  of_void.m_status p = m_status q /\
  match m_status q with
  | value => m_storage q = object tt
  | exception => exists e, of_void.m_storage p = of_void.stored e /\ m_storage q = stored_exception e
  | idle => True
  end.

Definition same_reference (alignment : N) (p : of_reference.t) (q : producer_context N) : Prop :=
  of_reference.m_status p = m_status q /\
  match m_status q with
  | value => exists a, of_reference.m_storage p = of_reference.pointer a /\ m_storage q = object a /\
      of_reference.valid_pointer alignment a = true
  | exception => exists e, of_reference.m_storage p = of_reference.stored e /\ m_storage q = stored_exception e
  | idle => True
  end.

Ltac contexts :=
  repeat match goal with
  | p : of_void.t |- _ => destruct p as [? []]
  | p : of_reference.t |- _ => destruct p as [? []]
  | q : producer_context _ |- _ => destruct q as [? []]
  end;
  unfold same_void, same_reference in *; simpl in *;
  repeat match goal with
  | H : _ /\ _ |- _ => destruct H
  | H : exists _, _ |- _ => destruct H
  | e : exception_ptr |- _ => destruct e
  | H : ?x = _ |- _ => is_var x; subst x
  end; try done.

Ltac contexts_agree :=
  unfold same_outcome in *; simpl;
  repeat match goal with |- _ /\ _ => split end; simpl; eauto; fail.

#[export] Instance void_same : SameContext same_void (fun _ : unit => true).
Proof.
  constructor; intros; try match goal with t : unit |- _ => destruct t end; contexts; contexts_agree.
Qed.

Section reference.
Variable alignment : N.
#[local] Existing Instance of_reference.ops.

Lemma reference_build a p :
  of_reference.valid_pointer alignment a = true -> of_reference.m_status p = idle ->
  of_reference.build_result alignment a p = (Ok tt, of_reference.make (of_reference.pointer a) value).
Proof.
  intros Hv Hp. unfold of_reference.build_result, get_state, mbind, M_bind, massert. simpl. rewrite Hp. simpl. by rewrite Hv.
Qed.

Lemma reference_get a p :
  of_reference.valid_pointer alignment a = true -> of_reference.m_storage p = of_reference.pointer a ->
  of_reference.m_status p = value -> of_reference.get_ref alignment p = (Ok a, p).
Proof.
  intros Hv Hs Hp. unfold of_reference.get_ref, get_state, mbind, M_bind, massert. simpl. rewrite Hp. simpl.
  by rewrite Hs, Hv.
Qed.

#[export] Instance reference_same :
  @SameContext of_reference.t (producer_context N) N (of_reference.ops alignment) _
    (same_reference alignment) (of_reference.valid_pointer alignment).
Proof.
  constructor; intros; contexts; try contexts_agree.
  - cbn [ops_build_result of_reference.ops]. rewrite reference_build by done. contexts_agree.
  - cbn [ops_get_ref of_reference.ops]. erewrite reference_get by done. contexts_agree.
Qed.

(** [rhs] is moved into an empty context: what [rhs] was is what [*this] is
    now, and [rhs] is empty. *)
Lemma void_move self rhs (q : producer_context unit) :
  of_void.m_status self = idle -> same_void rhs q ->
  exists self' rhs', of_void.move_assign self rhs = Ok (self', rhs') /\
    same_void self' q /\ same_void rhs' empty_producer.
Proof. intros H Hq. unfold of_void.move_assign. contexts; do 2 eexists; by repeat split; eauto. Qed.

Lemma reference_move self rhs (q : producer_context N) :
  of_reference.m_status self = idle -> same_reference alignment rhs q ->
  exists self' rhs', of_reference.move_assign self rhs = Ok (self', rhs') /\
    same_reference alignment self' q /\ same_reference alignment rhs' empty_producer.
Proof. intros H Hq. unfold of_reference.move_assign. contexts; do 2 eexists; by repeat split; eauto. Qed.

(** C6. The specialisations of [producer_context] for [void] and for references
    cannot be told from the primary template: every program over a context
    (building results and exceptions, reading, asking for the status,
    destroying) sees the same values, exceptions and statuses, and fails an
    assertion at the same point, as long as references are to aligned objects.
    The move assignment, which only the specialisations have, asserts that
    [*this] is empty; then it takes over what [rhs] was, seen as a context of
    the primary template, and leaves [rhs] empty. *)
Theorem specialisations_agree os os' :
  forallb (uses_valid (of_reference.valid_pointer alignment)) os' = true ->
  (run_program (P := of_void.t) os = run_program (P := producer_context unit) os /\
   @run_program of_reference.t N (of_reference.ops alignment) os' = run_program (P := producer_context N) os') /\
  (forall self rhs q, same_void rhs q ->
     if decide (of_void.m_status self = idle)
     then exists self' rhs', of_void.move_assign self rhs = Ok (self', rhs') /\
       same_void self' q /\ same_void rhs' empty_producer
     else of_void.move_assign self rhs = Abort) /\
  (forall self rhs q, same_reference alignment rhs q ->
     if decide (of_reference.m_status self = idle)
     then exists self' rhs', of_reference.move_assign self rhs = Ok (self', rhs') /\
       same_reference alignment self' q /\ same_reference alignment rhs' empty_producer
     else of_reference.move_assign self rhs = Abort).
Proof.
  intros Hv. split_and!.
  - apply (same_program same_void (fun _ => true)). by induction os as [|[]].
  - by apply (same_program (same_reference alignment) (of_reference.valid_pointer alignment)).
  - intros self rhs q Hq. case_decide; [by apply void_move|]. unfold of_void.move_assign. by rewrite bool_decide_eq_false_2.
  - intros self rhs q Hq. case_decide; [by apply reference_move|]. unfold of_reference.move_assign. by rewrite bool_decide_eq_false_2.
Qed.

(** A reference that is null or misaligned fails the assertion. *)
Lemma bad_reference a :
  of_reference.valid_pointer alignment a = false ->
  @run_program of_reference.t N (of_reference.ops alignment) [do_build a] = [saw_failure].
Proof.
  intros Hv. unfold run_program. simpl. unfold of_reference.build_result, get_state, mbind, M_bind, massert. simpl.
  by rewrite Hv.
Qed.
End reference.

(** A value is stored and read, then an exception in a second context; building
    twice fails. *)
Definition a_program {T} (t : T) : list (context_op T) :=
  [do_status; do_build t; do_get; do_status; do_destruct;
   do_throw (Some (make_exn broken_task k_broken_task_exception_error_msg)); do_get; do_build t].

Lemma specialisations_agree_witness :
  run_program (P := of_void.t) (a_program tt) = run_program (P := producer_context unit) (a_program tt) /\
  @run_program of_reference.t N (of_reference.ops 8) (a_program 4096%N) =
  [saw_status idle; saw_return; saw_value 4096%N; saw_status value; saw_return; saw_return;
   saw_throw (make_exn broken_task k_broken_task_exception_error_msg); saw_failure].
Proof.
  destruct (specialisations_agree 8 (a_program tt) (a_program 4096%N)) as [[H1 H2] _]; [reflexivity|].
  split; [exact H1|rewrite H2; reflexivity].
Defined.
