(* ===== verification/ConsumerContext.v ===== *)
(** * consumer_context: who waits for a result, and how to wake it up

    [include/concurrencpp/results/impl/consumer_context.h] and
    [source/results/impl/consumer_context.cpp]: the functor that resumes a
    coroutine inside an executor ([await_via_functor]), the rendez-vous of
    [when_any] ([when_any_context]) and the tagged union of consumers
    ([consumer_context]). *)

From stdpp Require Import prelude.
From S2P Require Import Prelude Errors.

(** A coroutine handle, and the address of a local variable or of a shared
    object; only their identity matters. *)
Definition handle : Type := nat.
Definition addr : Type := nat.

(** ** await_via_functor *)
Module await_via_functor.
(** What running the code of the functor does to the world. *)
Inductive event :=
  | set_interrupted (flag : addr)   (* *m_interrupted = true *)
  | resume (h : handle).            (* m_caller_handle() *)

#[export] Instance event_eq_dec : EqDecision event.
Proof. solve_decision. Defined.

Record t := make {
  m_caller_handle : option handle;
  m_interrupted : option addr
}.

(** The constructor. *)
Definition construct (caller_handle : handle) (interrupted : addr) : t :=
  make (Some caller_handle) (Some interrupted).

(** The move constructor: the new functor and what is left of [rhs]. *)
Definition move (rhs : t) : t * t :=
  (make (m_caller_handle rhs) (m_interrupted rhs), make None None).

(** [m_caller_handle()]: calling a null handle is undefined. *)
Definition call_handle (f : t) : outcome exn (list event) :=
  match m_caller_handle f with
  | Some h => Ok [resume h]
  | None => Abort
  end.

(** [~await_via_functor]. *)
Definition destruct_functor (f : t) : outcome exn (list event) :=
  match m_interrupted f with
  | None => Ok []
  | Some flag => outcome_map (cons (set_interrupted flag)) (call_handle f)
  end.

(** [operator()]: the functor after the call and the events of the call. *)
Definition call (f : t) : outcome exn (t * list event) :=
  match m_interrupted f with
  | None => Abort                    (* assert(m_interrupted != nullptr) *)
  | Some _ =>
      let f' := make (m_caller_handle f) None in
      outcome_map (fun evs => (f', evs)) (call_handle f)
  end.

(** A life of a functor: it is moved [n] times (every moved-from functor is
    destroyed at once, as [task] does), called or not, and destroyed. *)
Fixpoint move_many (n : nat) (f : t) : outcome exn (t * list event) :=
  match n with
  | O => Ok (f, [])
  | S n =>
      let (f', rhs) := move f in
      match destruct_functor rhs with
      | Ok evs =>
          match move_many n f' with
          | Ok (g, evs') => Ok (g, evs ++ evs')
          | Throw e => Throw e
          | Abort => Abort
          end
      | Throw e => Throw e
      | Abort => Abort
      end
  end.

Definition life (moves : nat) (called : bool) (f : t) : outcome exn (list event) :=
  match move_many moves f with
  | Ok (f, evs) =>
      if called then
        match call f with
        | Ok (f, evs') =>
            outcome_map (fun evs'' => evs ++ evs' ++ evs'') (destruct_functor f)
        | Throw e => Throw e
        | Abort => Abort
        end
      else outcome_map (app evs) (destruct_functor f)
  | Throw e => Throw e
  | Abort => Abort
  end.
End await_via_functor.

(** ** when_any_context

    [m_status] is an atomic pointer: two reserved values and the address of
    the completed result.  The functions that loop or do more than one atomic
    action are step functions, one step per atomic action. *)
Module when_any_context.
Inductive status :=
  | k_processing
  | k_done_processing
  | completed (r : addr).

#[export] Instance status_eq_dec : EqDecision status.
Proof. solve_decision. Defined.

(** [compare_exchange_strong]: the new value and whether it was swapped. *)
Definition cas (s expected desired : status) : status * bool :=
  if decide (s = expected) then (desired, true) else (s, false).

Definition any_result_finished (s : status) : outcome exn bool :=
  if decide (s = k_done_processing) then Abort
  else Ok (bool_decide (s ≠ k_processing)).

Definition finish_processing (s : status) : outcome exn (status * bool) :=
  if decide (s = k_done_processing) then Abort
  else Ok (cas s k_processing k_done_processing).

Definition completed_result (s : status) : status := s.

(** [try_resume]; [tr_returned true] after [m_coro_handle()] was called. *)
Inductive try_resume_pc :=
  | tr_load
  | tr_cas_done        (* status == k_done_processing, before the CAS *)
  | tr_cas_processing  (* status == k_processing, before the CAS *)
  | tr_returned (resumed : bool).

Definition try_resume_step (r : addr) (pc : try_resume_pc) (s : status) :
    option (try_resume_pc * status) :=
  match pc with
  | tr_load =>
      match s with
      | completed _ => Some (tr_returned false, s)
      | k_done_processing => Some (tr_cas_done, s)
      | k_processing => Some (tr_cas_processing, s)
      end
  | tr_cas_done =>
      let (s', swapped) := cas s k_done_processing (completed r) in
      Some (tr_returned swapped, s')
  | tr_cas_processing =>
      let (s', swapped) := cas s k_processing (completed r) in
      Some (if swapped then tr_returned false else tr_load, s')
  | tr_returned _ => None
  end.

(** [resume_inline]: what the load decides, then the CAS. *)
Definition resume_inline_load (s : status) : outcome exn (option bool) :=
  if decide (s = k_done_processing) then Abort
  else if decide (s = k_processing) then Ok None   (* go on with the CAS *)
  else Ok (Some false).

Definition resume_inline_cas (r : addr) (s : status) : status * bool :=
  ((cas s k_processing (completed r)).1, false).
End when_any_context.

(** ** consumer_context *)
Module consumer_context.
Inductive consumer_status := idle | await | wait_for | when_any | shared.

#[export] Instance consumer_status_eq_dec : EqDecision consumer_status.
Proof. solve_decision. Defined.

(** [union storage]. *)
Inductive storage :=
  | uninitialised
  | caller_handle (h : handle)
  | wait_for_ctx (sem : addr)       (* shared_ptr<binary_semaphore> *)
  | when_any_ctx (ctx : addr)       (* shared_ptr<when_any_context> *)
  | shared_ctx (ctx : addr).        (* weak_ptr<shared_result_state_base> *)

Record t := make { m_status : consumer_status; m_storage : storage }.

Definition empty_context : t := make idle uninitialised.

(** [destroy]: ends the life of the union member the tag names. *)
Definition destroy (c : t) : outcome exn t :=
  match m_status c, m_storage c with
  | idle, _ => Ok c
  | await, caller_handle _ => Ok (make await uninitialised)
  | wait_for, wait_for_ctx _ => Ok (make wait_for uninitialised)
  | when_any, when_any_ctx _ => Ok (make when_any uninitialised)
  | shared, shared_ctx _ => Ok (make shared uninitialised)
  | _, _ => Abort
  end.

Definition clear (c : t) : outcome exn t :=
  outcome_map (fun c' => make idle (m_storage c')) (destroy c).

(** The four setters; each asserts that the context is idle. *)
Definition set_await_handle (h : handle) (c : t) : outcome exn t :=
  if decide (m_status c = idle) then Ok (make await (caller_handle h)) else Abort.

Definition set_wait_for_context (sem : addr) (c : t) : outcome exn t :=
  if decide (m_status c = idle) then Ok (make wait_for (wait_for_ctx sem)) else Abort.

Definition set_when_any_context (ctx : addr) (c : t) : outcome exn t :=
  if decide (m_status c = idle) then Ok (make when_any (when_any_ctx ctx)) else Abort.

Definition set_shared_context (ctx : addr) (c : t) : outcome exn t :=
  if decide (m_status c = idle) then Ok (make shared (shared_ctx ctx)) else Abort.

(** What [resume_consumer] does once it has read the context. *)
Inductive action :=
  | do_nothing
  | resume_caller (h : handle)              (* caller_handle() *)
  | release_semaphore (sem : addr)          (* wait_ctx->release() *)
  | try_resume_when_any (ctx : addr)        (* when_any_ctx->try_resume(self) *)
  | notify_shared (ctx : addr).             (* on_result_finished(), if ctx is alive *)

#[export] Instance action_eq_dec : EqDecision action.
Proof. solve_decision. Defined.

(** [resume_consumer]: the read of [m_status] and [m_storage]; the returned
    action runs on local copies and no longer touches [*this]. *)
Definition resume_consumer (c : t) : outcome exn action :=
  match m_status c, m_storage c with
  | idle, _ => Ok do_nothing
  | await, caller_handle h => Ok (resume_caller h)
  | wait_for, wait_for_ctx sem => Ok (release_semaphore sem)
  | when_any, when_any_ctx ctx => Ok (try_resume_when_any ctx)
  | shared, shared_ctx ctx => Ok (notify_shared ctx)
  | _, _ => Abort
  end.

(** The tag describes the union. *)
Definition wf (c : t) : Prop := is_Abort (destroy c) = false.

(** The contexts that the setters build. *)
Definition await_context (h : handle) : t := make await (caller_handle h).
Definition wait_for_context (sem : addr) : t := make wait_for (wait_for_ctx sem).
Definition any_context (ctx : addr) : t := make when_any (when_any_ctx ctx).
Definition shared_context (ctx : addr) : t := make shared (shared_ctx ctx).
End consumer_context.

(** ** Lemmas *)
Module consumer_lemmas.
Import consumer_context.

Lemma wf_resume c : wf c -> is_Abort (resume_consumer c) = false.
Proof. destruct c as [[] []]; by vm_compute. Qed.

Lemma clear_wf c : wf c -> exists st, clear c = Ok (make idle st).
Proof. destruct c as [[] []]; unfold clear; simpl; try done; eauto. Qed.
End consumer_lemmas.

Module functor_lemmas.
Import await_via_functor.

Lemma move_many_spec n f : move_many n f = Ok (f, []).
Proof. induction n as [|n IH]; simpl; [done|]. destruct f. simpl in *. by rewrite IH. Qed.

(** A functor resumes its coroutine exactly once in its life, however often
    it is moved: from the call if it is called, from the destructor if not;
    the [interrupted] flag is set in the second case only. *)
Lemma life_spec n called h flag :
  life n called (construct h flag) =
  Ok (if called then [resume h] else [set_interrupted flag; resume h]).
Proof. unfold life. rewrite move_many_spec. by destruct called. Qed.
End functor_lemmas.
