(* ===== verification/ResultState.v ===== *)
(** * result_state: the rendez-vous of a producer and a consumer

    [include/concurrencpp/results/impl/result_state.h] and
    [source/results/impl/result_state.cpp].  One producer (the owner of the
    [producer_result_state_ptr]) and one consumer (the owner of the
    [consumer_result_state_ptr]) share a [result_state]; they meet in the
    atomic [m_pc_state].

    The two threads are state machines: a program counter stands between two
    atomic actions of a member function.  An atomic action is one operation on
    [m_pc_state], or one access to a non-atomic member ([m_consumer],
    [m_producer], [m_done_handle]).  Interleavings are sequentially consistent;
    that the non-atomic members need no more than that is a theorem (no two
    threads access one of them at the same time, one writing). *)

From stdpp Require Import prelude list.
From S2P Require Import Prelude Errors ProducerContext ConsumerContext.

Import consumer_context (action, resume_caller, release_semaphore,
  try_resume_when_any, notify_shared, do_nothing, resume_consumer,
  set_await_handle, set_wait_for_context, set_when_any_context,
  set_shared_context, clear, empty_context,
  await_context, wait_for_context, any_context, shared_context).

(** [enum class pc_state]. *)
Inductive pc_state :=
  | pc_idle | consumer_set | consumer_waiting | consumer_done | producer_done.

#[export] Instance pc_state_eq_dec : EqDecision pc_state.
Proof. solve_decision. Defined.

(** The [coroutine_handle] that [complete_producer] is given: the frame in
    which the state lives, and what [done()] answers. *)
Record done_handle := make_done_handle { frame : handle; done : bool }.

Section result_state.
Context {T : Type}.

(** ** Program counters *)

(** What the last call of the consumer returned. *)
Inductive cret :=
  | r_start                     (* no call yet *)
  | r_wait                      (* wait() returned *)
  | r_await (suspended : bool)  (* await() and, if it suspended, the resumption *)
  | r_status (s : result_status) (* status(), wait_for(), wait_until() *)
  | r_any (s : pc_state)        (* when_any() *)
  | r_shared (ctx : addr)       (* share() *)
  | r_rewound                   (* try_rewind_consumer() *)
  | r_unshared.                 (* try_rewind_consumer() of ~shared_result_state *)

(** What follows a call of [assert_done]. *)
Inductive after_assert :=
  | then_return (r : cret)
  | then_registered (r : cret)
  | then_read_status
  | then_notify (ctx : addr)
  | then_get
  | then_delete (o : outcome exn T).

(** The consumer. *)
Inductive consumer_pc :=
  | C_own (r : cret)                       (* between two calls *)
  | C_registered (r : cret)                (* after when_any() or share() *)
  | C_assert_done (k : after_assert)       (* assert_done() *)
  | C_read_status                          (* return m_producer.status() *)
  | C_status_load                          (* status() *)
  | C_wait_load | C_wait_cas               (* wait() *)
  | C_wait_loop                            (*   the load of the loop *)
  | C_wait_block                           (*   m_pc_state.wait, comparing *)
  | C_wait_parked                          (*   m_pc_state.wait, blocked *)
  | C_await_load (h : handle) | C_await_set (h : handle) | C_await_cas (h : handle)
  | C_suspended (h : handle)
  | C_wf_load | C_wf_set | C_wf_cas (sem : addr)   (* wait_for() *)
  | C_wf_acquire (sem : addr)              (*   try_acquire_for *)
  | C_wf_load2                             (*   the load after try_acquire_for *)
  | C_wf_rewind (sem : addr) | C_wf_clear
  | C_wa_load (ctx : addr) | C_wa_set (ctx : addr) (s : pc_state)
  | C_wa_cas (ctx : addr) (s : pc_state)           (* when_any() *)
  | C_share_load (ctx : addr) | C_share_set (ctx : addr)
  | C_share_cas (ctx : addr) | C_share_notify (ctx : addr)
  | C_rewind_load (r : cret) | C_rewind_cas (r : cret) | C_rewind_clear (r : cret)
  | C_get                                  (* return m_producer.get() *)
  | C_delete (o : outcome exn T)           (* delete_self of the joined consumer *)
  | C_cc_load | C_cc_exchange | C_cc_delete (* complete_consumer() *)
  | C_gone (o : option (outcome exn T))    (* the consumer has let go *)
  | C_aborted.                             (* an assertion failed *)

(** The producer. *)
Inductive producer_pc :=
  | P_own             (* no result yet *)
  | P_built           (* after set_result() or set_exception() *)
  | P_exchange        (* complete_producer(): before the exchange *)
  | P_resume          (* before m_consumer.resume_consumer() reads m_consumer *)
  | P_act (a : action) (* resume_consumer() works on its local copies *)
  | P_notify          (* before m_pc_state.notify_one() *)
  | P_delete          (* before delete_self() *)
  | P_gone
  | P_aborted.

(** ** The state *)
Record state := make_state {
  m_pc_state : pc_state;
  m_consumer : consumer_context.t;
  m_done_handle : option done_handle;
  m_producer : producer_context T;
  semaphores : list nat;             (* the binary_semaphores of wait_for *)
  freed : list (option done_handle); (* one entry per delete_self: its done_handle *)
  notified : nat;                    (* calls of on_result_finished *)
  cons : consumer_pc;
  prod : producer_pc
}.

Definition set_pc_state v s := make_state v (m_consumer s) (m_done_handle s)
  (m_producer s) (semaphores s) (freed s) (notified s) (cons s) (prod s).
Definition set_consumer v s := make_state (m_pc_state s) v (m_done_handle s)
  (m_producer s) (semaphores s) (freed s) (notified s) (cons s) (prod s).
Definition set_done_handle v s := make_state (m_pc_state s) (m_consumer s) v
  (m_producer s) (semaphores s) (freed s) (notified s) (cons s) (prod s).
Definition set_producer v s := make_state (m_pc_state s) (m_consumer s) (m_done_handle s)
  v (semaphores s) (freed s) (notified s) (cons s) (prod s).
Definition set_semaphores v s := make_state (m_pc_state s) (m_consumer s) (m_done_handle s)
  (m_producer s) v (freed s) (notified s) (cons s) (prod s).
Definition set_freed v s := make_state (m_pc_state s) (m_consumer s) (m_done_handle s)
  (m_producer s) (semaphores s) v (notified s) (cons s) (prod s).
Definition set_notified v s := make_state (m_pc_state s) (m_consumer s) (m_done_handle s)
  (m_producer s) (semaphores s) (freed s) v (cons s) (prod s).
Definition set_cons v s := make_state (m_pc_state s) (m_consumer s) (m_done_handle s)
  (m_producer s) (semaphores s) (freed s) (notified s) v (prod s).
Definition set_prod v s := make_state (m_pc_state s) (m_consumer s) (m_done_handle s)
  (m_producer s) (semaphores s) (freed s) (notified s) (cons s) v.

(** A new [result_state], owned by both sides. *)
Definition init : state :=
  make_state pc_idle empty_context None empty_producer [] [] 0 (C_own r_start) P_own.

(** [compare_exchange_strong] on [m_pc_state]. *)
Definition cas (expected desired : pc_state) (s : state) : state * bool :=
  if decide (m_pc_state s = expected) then (set_pc_state desired s, true) else (s, false).

(** A setter of [m_consumer]; it may fail its assertion. *)
Definition write_consumer (f : consumer_context.t -> outcome exn consumer_context.t)
    (next : consumer_pc) (s : state) : state :=
  match f (m_consumer s) with
  | Ok c => set_cons next (set_consumer c s)
  | _ => set_cons C_aborted s
  end.

Definition massert_cons (b : bool) (s : state) : state :=
  if b then s else set_cons C_aborted s.

(** ** The member functions *)

(** [delete_self]: the state lives inside a coroutine frame when
    [m_done_handle] is set, on the heap when it is not; both ways the
    destructors of the members run ([members_destruct]: neither fails) and the
    memory is gone.  [freed] records that; the members keep their last contents,
    and every later action on them counts as [touches_freed].  A handle that is
    not done fails the assertion. *)
Definition members_destruct (s : state) : bool :=
  negb (is_Abort (destruct_context (m_producer s))) &&
  negb (is_Abort (consumer_context.destroy (m_consumer s))).

Definition delete_self (deleted aborted : state -> state) (s : state) : state :=
  if match m_done_handle s with Some handle => done handle | None => true end && members_destruct s
  then deleted (set_freed (freed s ++ [m_done_handle s]) s)
  else aborted s.

Definition assert_done_step (k : after_assert) (s : state) : state :=
  if decide (m_pc_state s = producer_done) then
    set_cons match k with
             | then_return r => C_own r
             | then_registered r => C_registered r
             | then_read_status => C_read_status
             | then_notify ctx => C_share_notify ctx
             | then_get => C_get
             | then_delete o => C_delete o
             end s
  else set_cons C_aborted s.

(** [wait()]. *)
Definition wait_step (pc : consumer_pc) (s : state) : option state :=
  match pc with
  | C_wait_load =>
      Some (if decide (m_pc_state s = producer_done)
            then set_cons (C_own r_wait) s else set_cons C_wait_cas s)
  | C_wait_cas =>
      let (s', idle) := cas pc_idle consumer_waiting s in
      Some (if idle then set_cons C_wait_loop s'
            else set_cons (C_assert_done (then_return r_wait)) s')
  | C_wait_loop =>
      Some (if decide (m_pc_state s = producer_done)
            then set_cons (C_assert_done (then_return r_wait)) s
            else set_cons C_wait_block s)
  | C_wait_block =>
      Some (if decide (m_pc_state s = consumer_waiting)
            then set_cons C_wait_parked s else set_cons C_wait_loop s)
  | _ => None     (* C_wait_parked: blocked *)
  end.

(** [await(caller_handle)]. *)
Definition await_step (pc : consumer_pc) (s : state) : option state :=
  match pc with
  | C_await_load h =>
      Some (if decide (m_pc_state s = producer_done)
            then set_cons (C_own (r_await false)) s else set_cons (C_await_set h) s)
  | C_await_set h => Some (write_consumer (set_await_handle h) (C_await_cas h) s)
  | C_await_cas h =>
      let (s', idle) := cas pc_idle consumer_set s in
      Some (if idle then set_cons (C_suspended h) s'
            else set_cons (C_assert_done (then_return (r_await false))) s')
  | _ => None     (* C_suspended: resumed by the producer *)
  end.

(** [when_any(when_any_state)]. *)
Definition when_any_step (pc : consumer_pc) (s : state) : option state :=
  match pc with
  | C_wa_load ctx =>
      let st := m_pc_state s in
      Some (if decide (st = producer_done)
            then set_cons (C_registered (r_any st)) s else set_cons (C_wa_set ctx st) s)
  | C_wa_set ctx st => Some (write_consumer (set_when_any_context ctx) (C_wa_cas ctx st) s)
  | C_wa_cas ctx st =>
      let (s', idle) := cas pc_idle consumer_set s in
      Some (if idle then set_cons (C_registered (r_any st)) s'
            else set_cons (C_assert_done (then_registered (r_any st))) s')
  | _ => None
  end.

(** [share(shared_result_state)]. *)
Definition share_step (pc : consumer_pc) (s : state) : option state :=
  match pc with
  | C_share_load ctx =>
      Some (if decide (m_pc_state s = producer_done)
            then set_cons (C_share_notify ctx) s else set_cons (C_share_set ctx) s)
  | C_share_set ctx => Some (write_consumer (set_shared_context ctx) (C_share_cas ctx) s)
  | C_share_cas ctx =>
      let (s', idle) := cas pc_idle consumer_set s in
      Some (if idle then set_cons (C_registered (r_shared ctx)) s'
            else set_cons (C_assert_done (then_notify ctx)) s')
  | C_share_notify ctx =>
      Some (set_cons (C_registered (r_shared ctx)) (set_notified (S (notified s)) s))
  | _ => None
  end.

(** [try_rewind_consumer()]. *)
Definition rewind_step (pc : consumer_pc) (s : state) : option state :=
  match pc with
  | C_rewind_load r =>
      Some (if decide (m_pc_state s = consumer_set)
            then set_cons (C_rewind_cas r) s else set_cons (C_own r) s)
  | C_rewind_cas r =>
      let (s', consumer) := cas consumer_set pc_idle s in
      Some (if consumer then set_cons (C_rewind_clear r) s'
            else set_cons (C_assert_done (then_return r)) s')
  | C_rewind_clear r => Some (write_consumer clear (C_own r) s)
  | _ => None
  end.

(** [status()]. *)
Definition status_step (pc : consumer_pc) (s : state) : option state :=
  match pc with
  | C_status_load =>
      Some match m_pc_state s with
           | consumer_set => set_cons C_aborted s
           | pc_idle => set_cons (C_own (r_status idle)) s
           | _ => set_cons C_read_status s
           end
  | C_read_status =>
      Some (set_cons (C_own (r_status (ProducerContext.status (m_producer s)))) s)
  | _ => None
  end.

(** [wait_for(duration)]; [L_timeout] below is the other way out of
    [try_acquire_for]. *)
Definition wait_for_step (pc : consumer_pc) (s : state) : option state :=
  match pc with
  | C_wf_load =>
      Some (if decide (m_pc_state s = producer_done)
            then set_cons C_read_status s else set_cons C_wf_set s)
  | C_wf_set =>
      let sem := length (semaphores s) in
      Some (write_consumer (set_wait_for_context sem) (C_wf_cas sem)
              (set_semaphores (semaphores s ++ [0]) s))
  | C_wf_cas sem =>
      let (s', idle) := cas pc_idle consumer_set s in
      Some (if idle then set_cons (C_wf_acquire sem) s'
            else set_cons (C_assert_done then_read_status) s')
  | C_wf_acquire sem =>
      match semaphores s !! sem with
      | Some (S n) => Some (set_cons C_wf_load2 (set_semaphores (<[sem := n]> (semaphores s)) s))
      | _ => None
      end
  | C_wf_load2 => Some (set_cons (C_assert_done then_read_status) s)
  | C_wf_rewind sem =>
      let (s', idle) := cas consumer_set pc_idle s in
      Some (if idle then set_cons C_wf_clear s'
            else set_cons (C_assert_done then_read_status) s')
  | C_wf_clear => Some (write_consumer clear (C_own (r_status idle)) s)
  | _ => None
  end.

(** [get()] and [complete_joined_consumer()], as [result::get] and
    [awaitable::await_resume] call them. *)
Definition get_step (pc : consumer_pc) (s : state) : option state :=
  match pc with
  | C_get =>
      let (o, p) := ProducerContext.get (m_producer s) in
      Some match o with
           | Abort => set_cons C_aborted s
           | _ => set_cons (C_assert_done (then_delete o)) (set_producer p s)
           end
  | C_delete o => Some (delete_self (set_cons (C_gone (Some o))) (set_cons C_aborted) s)
  | _ => None
  end.

(** [complete_consumer()]. *)
Definition complete_consumer_step (pc : consumer_pc) (s : state) : option state :=
  match pc with
  | C_cc_load =>
      Some (if decide (m_pc_state s = producer_done)
            then set_cons C_cc_delete s else set_cons C_cc_exchange s)
  | C_cc_exchange =>
      let before := m_pc_state s in
      let s' := set_pc_state consumer_done s in
      Some match before with
           | producer_done => set_cons C_cc_delete s'
           | pc_idle => set_cons (C_gone None) s'
           | _ => set_cons C_aborted s'
           end
  | C_cc_delete => Some (delete_self (set_cons (C_gone None)) (set_cons C_aborted) s)
  | _ => None
  end.

(** The next atomic action of the consumer. *)
Definition consumer_step (s : state) : option state :=
  match cons s with
  | C_assert_done k => Some (assert_done_step k s)
  | C_wait_load | C_wait_cas | C_wait_loop | C_wait_block | C_wait_parked => wait_step (cons s) s
  | C_await_load _ | C_await_set _ | C_await_cas _ | C_suspended _ => await_step (cons s) s
  | C_wa_load _ | C_wa_set _ _ | C_wa_cas _ _ => when_any_step (cons s) s
  | C_share_load _ | C_share_set _ | C_share_cas _ | C_share_notify _ => share_step (cons s) s
  | C_rewind_load _ | C_rewind_cas _ | C_rewind_clear _ => rewind_step (cons s) s
  | C_status_load | C_read_status => status_step (cons s) s
  | C_wf_load | C_wf_set | C_wf_cas _ | C_wf_acquire _ | C_wf_load2 | C_wf_rewind _
  | C_wf_clear => wait_for_step (cons s) s
  | C_get | C_delete _ => get_step (cons s) s
  | C_cc_load | C_cc_exchange | C_cc_delete => complete_consumer_step (cons s) s
  | C_own _ | C_registered _ | C_gone _ | C_aborted => None
  end.

(** The exchange of [complete_producer()] and its [switch]. *)
Definition complete_producer_exchange (s : state) : state :=
  let state_before := m_pc_state s in
  let s' := set_pc_state producer_done s in
  match state_before with
  | consumer_set => set_prod P_resume s'
  | pc_idle => set_prod P_gone s'
  | consumer_waiting => set_prod P_notify s'
  | consumer_done => set_prod P_delete s'
  | producer_done => set_prod P_aborted s'
  end.

(** What the copied consumer context is used for. *)
Definition act_step (a : action) (s : state) : state :=
  match a with
  | do_nothing => set_prod P_gone s
  | resume_caller h =>
      match cons s with
      | C_suspended h' =>
          if decide (h = h') then set_prod P_gone (set_cons (C_own (r_await true)) s)
          else set_prod P_aborted s
      | _ => set_prod P_aborted s      (* resuming a coroutine that is not suspended *)
      end
  | release_semaphore sem =>
      set_prod P_gone (set_semaphores (alter S sem (semaphores s)) s)
  | try_resume_when_any _ => set_prod P_gone s
  | notify_shared _ =>
      (* weak_shared_ctx.lock(): null once ~shared_result_state has begun *)
      match cons s with
      | C_registered (r_shared _) => set_prod P_gone (set_notified (S (notified s)) s)
      | _ => set_prod P_gone s
      end
  end.

(** The next atomic action of the producer. *)
Definition producer_step (s : state) : option state :=
  match prod s with
  | P_exchange => Some (complete_producer_exchange s)
  | P_resume =>
      Some match resume_consumer (m_consumer s) with
           | Ok a => set_prod (P_act a) s
           | _ => set_prod P_aborted s
           end
  | P_act a => Some (act_step a s)
  | P_notify =>
      Some (set_prod P_gone
              match cons s with C_wait_parked => set_cons C_wait_block s | _ => s end)
  | P_delete => Some (delete_self (set_prod P_gone) (set_prod P_aborted) s)
  | P_own | P_built | P_gone | P_aborted => None
  end.

(** [set_result(arguments...)] and [set_exception(error)]; a constructor
    that throws ([ctor = inr e]) leaves the producer without a result. *)
Definition set_result_step (ctor : payload T) (s : state) : option state :=
  match prod s, build_result (payload_outcome ctor) (m_producer s) with
  | P_own, (Ok _, p) => Some (set_prod P_built (set_producer p s))
  | P_own, (Throw _, p) => Some (set_producer p s)
  | P_own, (Abort, _) => Some (set_prod P_aborted s)
  | _, _ => None
  end.

Definition set_exception_step (e : exn) (s : state) : option state :=
  match prod s, build_exception (Some e) (m_producer s) with
  | P_own, (Ok _, p) => Some (set_prod P_built (set_producer p s))
  | P_own, _ => Some (set_prod P_aborted s)
  | _, _ => None
  end.

(** ** Calls of the consumer *)
Inductive consumer_call :=
  | call_status | call_wait
  | call_wait_for
  | call_wait_until (timeout_time now : Z)
  | call_await (h : handle)
  | call_when_any (ctx : addr)
  | call_share (ctx : addr)
  | call_rewind
  | call_get              (* result::get after wait(), awaitable::await_resume *)
  | call_complete.        (* consumer_result_state_deleter *)

Definition start_call (c : consumer_call) (r : cret) : option consumer_pc :=
  match r, c with
  | r_unshared, call_complete => Some C_cc_load    (* rest of ~shared_result_state *)
  | r_unshared, _ => None
  | _, call_status => Some C_status_load
  | _, call_wait => Some C_wait_load
  | _, call_wait_for => Some C_wf_load
  | _, call_wait_until timeout_time now =>
      Some (if (timeout_time <=? now)%Z then C_status_load else C_wf_load)
  | _, call_await h => Some (C_await_load h)
  | _, call_when_any ctx => Some (C_wa_load ctx)
  | _, call_share ctx => Some (C_share_load ctx)
  | _, call_rewind => Some (C_rewind_load r_rewound)
  | (r_wait | r_await _), call_get => Some (C_assert_done then_get)
  | _, call_get => None
  | _, call_complete => Some C_cc_load
  end.

Definition call_step (c : consumer_call) (s : state) : option state :=
  match cons s with
  | C_own r =>
      match start_call c r with Some pc => Some (set_cons pc s) | None => None end
  | C_registered r =>
      match c with
      | call_rewind =>
          Some (set_cons (C_rewind_load match r with r_shared _ => r_unshared | _ => r_rewound end) s)
      | _ => None
      end
  | _ => None
  end.

(** ** The transition system *)
Inductive label :=
  | L_set_result (ctor : payload T)             (* set_result(args): inr, type's constructor throws *)
  | L_set_exception (e : exn)
  | L_complete (done_handle : option done_handle)  (* complete_producer(done_handle) *)
  | L_producer                                (* the producer's next action *)
  | L_call (c : consumer_call)
  | L_consumer                                (* the consumer's next action *)
  | L_timeout                                 (* try_acquire_for gives up *)
  | L_spurious.                               (* atomic::wait wakes up by itself *)

Definition step (l : label) (s : state) : option state :=
  match l with
  | L_set_result ctor => set_result_step ctor s
  | L_set_exception e => set_exception_step e s
  | L_complete h =>
      (* the only caller with a handle is result_publisher::await_suspend,
         while the coroutine is suspended at its final suspension point *)
      match prod s with
      | P_built =>
          if match h with Some handle => done handle | None => true end
          then Some (set_prod P_exchange (set_done_handle h s)) else None
      | _ => None
      end
  | L_producer => producer_step s
  | L_call c => call_step c s
  | L_consumer => consumer_step s
  | L_timeout =>
      match cons s with
      | C_wf_acquire sem => Some (set_cons (C_wf_rewind sem) s)
      | _ => None
      end
  | L_spurious =>
      match cons s with
      | C_wait_parked => Some (set_cons C_wait_block s)
      | _ => None
      end
  end.
End result_state.
Arguments state : clear implicits.
Arguments label : clear implicits.
Arguments consumer_pc : clear implicits.
Arguments after_assert : clear implicits.
