(* ===== verification/ResultStateProps.v ===== *)
(** * result_state: what the protocol guarantees

    The inductive invariant of the transition system of [ResultState], and its
    consequences: the assertions of the code hold, the state is deleted
    exactly once, no wake-up is lost, the non-atomic members are never
    accessed by two threads at once, a consumer reads what the producer
    stored.  The last section shows what the protocol does not guarantee. *)

From stdpp Require Import prelude list.
From S2P Require Import Prelude Errors ProducerContext ConsumerContext ResultState.

Import consumer_context (action, resume_caller, release_semaphore,
  try_resume_when_any, notify_shared, do_nothing, resume_consumer,
  empty_context, await_context, wait_for_context, any_context, shared_context).

Section invariant.
Context {T : Type}.
Implicit Types s : state T.
Notation st0 := (@init T).
Notation step := (@step T).

(** The consumer context is unused. *)
Definition ctx_idle s : Prop := consumer_context.m_status (m_consumer s) = consumer_context.idle.

(** [when_any] or [share] has put a context there. *)
Definition ctx_shared_by (r : cret) (c : consumer_context.t) : Prop :=
  match r with
  | r_shared _ | r_unshared => exists ctx, c = shared_context ctx
  | _ => exists ctx, c = any_context ctx
  end.

(** A consumer whose last call returned [r] knows that the result is ready. *)
Definition knows_ready (r : cret) : Prop :=
  match r with r_wait | r_await _ => True | r_status st => st ≠ idle | _ => False end.

(** What a rewind may return. *)
Definition rewound (r : cret) : Prop :=
  match r with r_rewound | r_unshared => True | _ => False end.

Lemma rewound_not_ready r : rewound r -> ~ knows_ready r.
Proof. destruct r; simpl; tauto. Qed.

(** While the producer has not published. *)
Definition pending_inv s : Prop :=
  freed s = [] /\ notified s = 0 /\
  match cons s with
  | C_own r => m_pc_state s = pc_idle /\ ctx_idle s /\ ~ knows_ready r
  | C_status_load | C_wait_load | C_wait_cas
  | C_await_load _ | C_await_set _ | C_wf_load | C_wf_set
  | C_wa_load _ | C_share_load _ | C_share_set _
  | C_cc_load | C_cc_exchange => m_pc_state s = pc_idle /\ ctx_idle s
  | C_wa_set _ st => m_pc_state s = pc_idle /\ ctx_idle s /\ st = pc_idle
  | C_wait_loop | C_wait_block | C_wait_parked => m_pc_state s = consumer_waiting /\ ctx_idle s
  | C_await_cas h => m_pc_state s = pc_idle /\ m_consumer s = await_context h
  | C_suspended h => m_pc_state s = consumer_set /\ m_consumer s = await_context h
  | C_wf_cas i => m_pc_state s = pc_idle /\ m_consumer s = wait_for_context i /\ semaphores s !! i = Some 0
  | C_wf_acquire i | C_wf_rewind i =>
      m_pc_state s = consumer_set /\ m_consumer s = wait_for_context i /\ semaphores s !! i = Some 0
  | C_wf_clear => m_pc_state s = pc_idle /\ exists i, m_consumer s = wait_for_context i
  | C_wa_cas ctx st => m_pc_state s = pc_idle /\ m_consumer s = any_context ctx /\ st = pc_idle
  | C_share_cas ctx => m_pc_state s = pc_idle /\ m_consumer s = shared_context ctx
  | C_registered r =>
      m_pc_state s = consumer_set /\ ctx_shared_by r (m_consumer s) /\
      match r with r_any st => st = pc_idle | r_shared _ => True | _ => False end
  | C_rewind_load r => (m_pc_state s = pc_idle /\ ctx_idle s /\ r = r_rewound) \/
                       (m_pc_state s = consumer_set /\ ctx_shared_by r (m_consumer s) /\ rewound r)
  | C_rewind_cas r => m_pc_state s = consumer_set /\ ctx_shared_by r (m_consumer s) /\ rewound r
  | C_rewind_clear r => m_pc_state s = pc_idle /\ ctx_shared_by r (m_consumer s) /\ rewound r
  | C_gone None => m_pc_state s = consumer_done /\ ctx_idle s
  | C_assert_done _ | C_read_status | C_wf_load2 | C_share_notify _ | C_get | C_delete _
  | C_cc_delete | C_gone (Some _) | C_aborted => False
  end.

(** The producer has published and will not touch [m_consumer] again. *)
Definition settled (p : producer_pc) : Prop := p = P_gone.

Definition final_outcome (o : outcome exn T) (p : producer_context T) : Prop :=
  exists r, content p = Some r /\ o = payload_outcome r.

(** What the producer relies on in its last actions. *)
Definition producer_inv (p : producer_pc) (c : consumer_pc T)
    (con : consumer_context.t) (sems : list nat) : Prop :=
  match p with
  | P_resume =>
      (exists h, con = await_context h /\ c = C_suspended h) \/
      (exists i, con = wait_for_context i /\ i < length sems) \/
      (exists ctx, con = any_context ctx) \/
      (exists ctx, con = shared_context ctx)
  | P_act (resume_caller h) => c = C_suspended h
  | P_act (release_semaphore i) => i < length sems
  | P_act do_nothing => False
  | P_delete => c = C_gone None
  | _ => True
  end.

(** After the producer has published. *)
Definition published_inv s : Prop :=
  match cons s with
  | C_gone o =>
      (m_pc_state s = producer_done \/ m_pc_state s = consumer_done) /\
      length (freed s) = match prod s with P_delete => 0 | _ => 1 end /\
      match o with Some o => final_outcome o (m_producer s) | None => True end
  | C_cc_delete => (m_pc_state s = producer_done \/ (m_pc_state s = consumer_done /\ settled (prod s))) /\ freed s = []
  | _ => m_pc_state s = producer_done /\ freed s = []
  end /\
  match cons s with
  | C_aborted => False
  | C_suspended h =>
      (prod s = P_resume /\ m_consumer s = await_context h) \/ prod s = P_act (resume_caller h)
  | C_wait_parked => prod s = P_notify
  | C_wait_cas | C_await_cas _ | C_wf_cas _ | C_wa_cas _ _ | C_share_cas _ | C_cc_exchange => settled (prod s)
  | C_await_set _ | C_wf_set | C_wa_set _ _ | C_share_set _ => settled (prod s) /\ ctx_idle s
  | C_wf_clear => settled (prod s) /\ exists i, m_consumer s = wait_for_context i
  | C_rewind_clear r => settled (prod s) /\ ctx_shared_by r (m_consumer s)
  | C_wf_acquire i =>
      (prod s = P_resume /\ m_consumer s = wait_for_context i) \/
      prod s = P_act (release_semaphore i) \/
      (prod s = P_gone /\ exists n, semaphores s !! i = Some (S n))
  | C_delete o | C_assert_done (then_delete o) => final_outcome o (m_producer s)
  | _ => True
  end /\
  producer_inv (prod s) (cons s) (m_consumer s) (semaphores s).

Definition result_built s : Prop := is_Some (content (m_producer s)).

(** The assertion and the destructors of [delete_self] are safe. *)
Definition handle_done s : Prop :=
  match m_done_handle s with Some handle => done handle = true | None => True end.

Definition deletable s : Prop :=
  result_built s /\ handle_done s /\ consumer_context.wf (m_consumer s).

Definition inv s : Prop :=
  match prod s with
  | P_own => m_status (m_producer s) = idle /\ pending_inv s
  | P_built => result_built s /\ pending_inv s
  | P_exchange => (result_built s /\ handle_done s) /\ pending_inv s
  | P_aborted => False
  | _ => deletable s /\ published_inv s
  end.

Lemma inv_init : inv st0.
Proof. vm_compute. naive_solver. Qed.
End invariant.

Ltac unfold_step :=
  unfold step, consumer_step, producer_step, call_step, start_call, set_result_step,
    set_exception_step, assert_done_step, wait_step, await_step, when_any_step,
    share_step, rewind_step, status_step, wait_for_step, get_step,
    complete_consumer_step, complete_producer_exchange, act_step, cas,
    write_consumer in *.

Section preservation.
Context {T : Type}.
Implicit Types s : state T.

Lemma content_built s : result_built s -> m_status (m_producer s) ≠ idle.
Proof.
  intros [r Hr]. rewrite (content_status _ _ Hr). by destruct r.
Qed.

#[local] Ltac crush :=
  repeat match goal with
  | H : _ /\ _ |- _ => destruct H
  | H : exists _, _ |- _ => destruct H
  | H : _ = _ |- _ => progress simplify_eq/=
  end.

Lemma ctx_shared_by_clear r c :
  ctx_shared_by r c -> exists st, consumer_context.clear c = Ok (consumer_context.make consumer_context.idle st).
Proof. destruct r; simpl; intros [a ->]; vm_compute; eauto. Qed.

#[local] Ltac ctx_clear :=
  match goal with
  | H : ctx_shared_by ?r ?c |- _ =>
      destruct (ctx_shared_by_clear r c H) as [? Hclear]; rewrite Hclear in *; simpl in *
  end.

#[local] Ltac step_cases c Hstep :=
  destruct c; unfold consumer_step in Hstep; simpl in *; crush;
    unfold_step; simpl in *; repeat case_decide; crush;
    try match goal with Hok : forall d a, delete_self d a _ = _ |- _ => rewrite !Hok in *; simpl in * end; try done.

Lemma delete_self_ok deleted aborted s :
  deletable s -> delete_self deleted aborted s = deleted (set_freed (freed s ++ [m_done_handle s]) s).
Proof.
  intros ([r Hr] & Hd & Hw). unfold delete_self, members_destruct. unfold handle_done, consumer_context.wf in *.
  assert (Hp : is_Abort (destruct_context (m_producer s)) = false).
  { unfold content in Hr. unfold destruct_context. by destruct (m_producer s) as [[|t|[e|]] []]. }
  rewrite Hp, Hw. by destruct (m_done_handle s) as [d|]; [rewrite Hd|].
Qed.

(** What the consumer leaves as it is. *)
Lemma consumer_frame s s' :
  consumer_step s = Some s' -> consumer_context.wf (m_consumer s) ->
  consumer_context.wf (m_consumer s') /\ m_done_handle s' = m_done_handle s.
Proof.
  destruct s as [pcs con dh pr sems fr nt c p]. intros Hstep Hw.
  destruct c; unfold consumer_step in Hstep; simpl in *; crush; unfold_step; unfold delete_self; simpl in *;
    repeat first [progress crush | case_match]; try done;
    destruct con as [[] []]; unfold consumer_context.clear, consumer_context.set_await_handle,
      consumer_context.set_wait_for_context, consumer_context.set_when_any_context,
      consumer_context.set_shared_context in *; simpl in *; repeat case_decide; crush; done.
Qed.

Lemma pending_wf s : pending_inv s -> consumer_context.wf (m_consumer s).
Proof.
  assert (Hidle : forall c, consumer_context.m_status c = consumer_context.idle -> consumer_context.wf c)
    by (intros [[] []]; done).
  assert (Hctx : forall r c, ctx_shared_by r c -> consumer_context.wf c) by (intros [] c; simpl; intros [? ->]; done).
  unfold pending_inv, ctx_idle. intros (_&_&H). destruct (cons s); try destruct o; crush; try (by eauto);
    try match goal with E : m_consumer s = _ |- _ => rewrite E end; try done.
  all: try (destruct_or!; crush; eauto).
Qed.

(** The consumer while the producer has not published. *)
Lemma pending_consumer s s' :
  pending_inv s -> consumer_step s = Some s' ->
  pending_inv s' /\ prod s' = prod s /\ m_producer s' = m_producer s.
Proof.
  destruct s as [pcs con dh pr sems fr nt c p]. unfold pending_inv, ctx_idle.
  intros Hinv Hstep. step_cases c Hstep.
  all: try (ctx_clear; match goal with H : rewound _ |- _ => apply rewound_not_ready in H end;
              naive_solver).
  all: try (destruct con as [cst csto]; simpl in *; crush; rewrite ?list_lookup_middle; naive_solver).
  all: try (by case_match; crush; case_match; crush).
  all: try naive_solver.
Qed.

(** A consumer that is neither suspended nor gone can move without the
    producer noticing. *)
Definition passive (c : consumer_pc T) : bool :=
  match c with C_suspended _ | C_gone None => false | _ => true end.

Lemma producer_inv_move p (c c' : consumer_pc T) con sems sems' :
  passive c = true -> length sems' = length sems ->
  producer_inv p c con sems -> producer_inv p c' con sems'.
Proof.
  intros Hc Hl Hi. destruct p as [| | | |[]| | | |]; simpl in *; subst; rewrite ?Hl; try done.
  naive_solver.
Qed.

Lemma producer_inv_gone (c : consumer_pc T) con sems : producer_inv (T:=T) P_gone c con sems.
Proof. done. Qed.

(** The consumer after the producer has published. *)
Lemma published_consumer s s' :
  deletable s -> published_inv s -> consumer_step s = Some s' ->
  published_inv s' /\ prod s' = prod s /\ m_producer s' = m_producer s.
Proof.
  destruct s as [pcs con dh pr sems fr nt c p]. unfold published_inv, ctx_idle, settled.
  intros Hdeletable (H1 & H2 & H3) Hstep. destruct (id Hdeletable) as [Hb _].
  assert (Hok := fun d a => delete_self_ok d a _ Hdeletable). clear Hdeletable. simpl in Hok.
  assert (Hmove : forall c' sems', passive c = true -> length sems' = length sems ->
            producer_inv p c' con sems') by (intros; by eapply producer_inv_move).
  assert (Hdel : passive c = true -> 1 = match p with P_delete => 0 | _ => 1 end)
    by (destruct p; try done; simpl in H3; by subst c).
  clear H3. step_cases c Hstep.
  all: try (ctx_clear; naive_solver).
  all: try (destruct con as [cst csto]; simpl in *; crush; naive_solver).
  all: try (by case_match; crush; case_match; crush).
  all: try naive_solver.
  - (* assert_done() *) destruct k; naive_solver.
  - (* the semaphore was acquired *)
    destruct (sems !! sem) as [[|n]|]; crush. rewrite ?length_insert in *.
    split_ands; try done. apply Hmove; [done|]. by rewrite length_insert.
  - (* get() *)
    destruct Hb as [r Hr]. unfold ProducerContext.get in Hstep. simpl in *.
    rewrite (get_ref_content _ _ Hr) in Hstep.
    destruct r; crush; unfold final_outcome; naive_solver.
Qed.

Lemma inv_consumer s s' : inv s -> consumer_step s = Some s' -> inv s'.
Proof.
  unfold inv. intros Hinv Hstep.
  destruct (prod s) eqn:Hp; try done; destruct Hinv as [Hb Hinv];
    ((destruct (pending_consumer s s' Hinv Hstep) as (?&E1&E2);
      pose proof (consumer_frame s s' Hstep (pending_wf s Hinv)) as [_ E3]) ||
     (destruct (published_consumer s s' Hb Hinv Hstep) as (?&E1&E2);
      pose proof (consumer_frame s s' Hstep (proj2 (proj2 Hb))) as [? E3]));
    unfold deletable, result_built, handle_done in *; rewrite E1, ?E2, ?E3, Hp; tauto.
Qed.


Lemma ctx_shared_by_cases r c :
  ctx_shared_by r c -> (exists ctx, c = any_context ctx) \/ (exists ctx, c = shared_context ctx).
Proof. destruct r; simpl; eauto. Qed.

(** The exchange of [complete_producer]. *)
Lemma exchange_published s :
  prod s = P_exchange -> pending_inv s ->
  let s' := complete_producer_exchange s in
  published_inv s' /\ prod s' <> P_aborted /\ prod s' <> P_own /\ prod s' <> P_built /\
  prod s' <> P_exchange /\ m_producer s' = m_producer s.
Proof.
  destruct s as [pcs con dh pr sems fr nt c p].
  unfold pending_inv, published_inv, ctx_idle, settled. simpl. intros -> (-> & -> & Hc).
  assert (Hlt : forall i, sems !! i = Some 0 -> i < length sems)
    by (intros; by eapply lookup_lt_Some).
  destruct c; simpl in *; crush; try done; try naive_solver.
  all: try (destruct_or!; crush).
  all: try match goal with H : ctx_shared_by _ _ |- _ => apply ctx_shared_by_cases in H end.
  all: try (destruct o; crush).
  all: unfold complete_producer_exchange; simpl; naive_solver.
Qed.

(** [release()] makes a semaphore available. *)
Lemma alter_S_lookup (l : list nat) i :
  i < length l -> exists n, alter S i l !! i = Some (S n).
Proof.
  intros [n Hn]%lookup_lt_is_Some_2. exists n. by rewrite list_lookup_alter_eq, Hn.
Qed.

(** The producer after the exchange. *)
Lemma published_producer s s' :
  deletable s -> published_inv s -> prod s <> P_exchange -> producer_step s = Some s' ->
  published_inv s' /\ prod s' <> P_aborted /\ prod s' <> P_own /\ prod s' <> P_built /\
  prod s' <> P_exchange /\ m_producer s' = m_producer s.
Proof.
  destruct s as [pcs con dh pr sems fr nt c p].
  unfold published_inv, ctx_idle, settled, producer_step. simpl. intros Hd (H1&H2&H3) Hne Hstep.
  assert (Hok := fun d a => delete_self_ok d a _ Hd). clear Hd. simpl in Hok.
  destruct p as [| | | |a| | | |]; simpl in *; try done.
  - (* resume_consumer() *)
    destruct_or!; crush; try destruct c; simpl in *; destruct_or?; crush; naive_solver.
  - (* the local copies *)
    destruct a; simpl in *; crush; try done; unfold act_step; simpl;
      try destruct c; rewrite ?decide_True by done; simpl in *; destruct_or?; crush; try naive_solver.
    1: split_ands; try done; right; right; (split; [done|]); by apply alter_S_lookup.
    all: by destruct r.
  - (* notify_one() *)
    crush. destruct c; simpl in *; destruct_or?; crush; naive_solver.
  - (* delete_self() *)
    crush. rewrite Hok. simpl. destruct fr; simpl in *; naive_solver.
Qed.

(** The producer keeps the handle and the tag of the consumer context. *)
Lemma producer_frame s s' :
  producer_step s = Some s' -> m_done_handle s' = m_done_handle s /\ m_consumer s' = m_consumer s.
Proof.
  destruct s as [pcs con dh pr sems fr nt c p]. unfold producer_step, complete_producer_exchange, act_step, delete_self.
  simpl. intros Hstep. by repeat first [progress simplify_eq/= | case_match].
Qed.

Lemma inv_producer s s' : inv s -> producer_step s = Some s' -> inv s'.
Proof.
  unfold inv. intros Hinv Hstep. destruct (producer_frame s s' Hstep) as [E1 E2].
  assert (Hd : m_producer s' = m_producer s -> deletable s -> deletable s')
    by (unfold deletable, result_built, handle_done; by rewrite E1, E2; intros ->).
  destruct (prod s) eqn:Hp; try done; destruct Hinv as [Hb Hinv];
    try (unfold producer_step in Hstep; by rewrite Hp in Hstep).
  1: { assert (s' = complete_producer_exchange s) as ->
      by (unfold producer_step in Hstep; rewrite Hp in Hstep; congruence).
    pose proof (exchange_published s Hp Hinv) as H. simpl in H. destruct H as (?&?&?&?&?&E).
    specialize (Hd E). destruct Hb. specialize (Hd ltac:(split_and!; eauto using pending_wf)).
    by destruct (prod (complete_producer_exchange s)). }
  all: destruct (published_producer s s') as (?&?&?&?&?&E); [done|done|congruence|done|].
  all: specialize (Hd E Hb); by destruct (prod s').
Qed.

Lemma start_call_passive c r pc :
  start_call (T:=T) c r = Some pc ->
  (pc = C_assert_done then_get /\ knows_ready r) \/
  pc = C_rewind_load r_rewound \/
  pc = C_status_load \/ pc = C_wait_load \/ pc = C_wf_load \/ pc = C_cc_load \/
  (exists h, pc = C_await_load h) \/ (exists ctx, pc = C_wa_load ctx) \/
  (exists ctx, pc = C_share_load ctx).
Proof. destruct r, c; simpl; try case_match; naive_solver. Qed.

Lemma inv_call c s s' : inv s -> call_step c s = Some s' -> inv s'.
Proof.
  destruct s as [pcs con dh pr sems fr nt pc p].
  intros Hinv Hstep. unfold call_step in Hstep. simpl in Hstep.
  assert (Hmove : forall c', passive pc = true -> producer_inv p pc con sems -> producer_inv p c' con sems)
    by (intros; by eapply producer_inv_move).
  destruct pc; try done; simplify_eq/=.
  - destruct (start_call c r) as [pc|] eqn:E; simplify_eq/=.
    apply start_call_passive in E.
    unfold inv, pending_inv, published_inv, ctx_idle, settled in *; simpl in *.
    destruct p; crush; destruct_or!; crush; naive_solver.
  - destruct c; simplify_eq/=.
    unfold inv, pending_inv, published_inv, ctx_idle, settled in *; simpl in *.
    destruct p; crush; destruct r; simpl in *; crush; naive_solver.
Qed.

Lemma inv_set_result o s s' : inv s -> set_result_step o s = Some s' -> inv s'.
Proof.
  destruct s as [pcs con dh pr sems fr nt pc p]. unfold set_result_step, inv, result_built. simpl.
  intros Hinv Hstep. destruct p; simplify_eq/=. destruct Hinv as [Hi Hinv].
  destruct pr as [st []]; simplify_eq/=. destruct o; simplify_eq/=; eauto.
Qed.

Lemma inv_set_exception e s s' : inv s -> set_exception_step e s = Some s' -> inv s'.
Proof.
  destruct s as [pcs con dh pr sems fr nt pc p]. unfold set_exception_step, inv, result_built. simpl.
  intros Hinv Hstep. destruct p; simplify_eq/=. destruct Hinv as [Hi Hinv].
  destruct pr as [st []]; simplify_eq/=; eauto.
Qed.

Lemma inv_step l s s' : inv s -> step l s = Some s' -> inv s'.
Proof.
  destruct l; simpl; eauto using inv_set_result, inv_set_exception, inv_producer, inv_call, inv_consumer.
  - (* L_complete *) intros Hinv Hstep. destruct (prod s) eqn:Hp; simplify_eq.
    unfold inv in *. rewrite Hp in Hinv. destruct Hinv as [Hb Hinv].
    destruct (match done_handle with Some _ => _ | None => _ end) eqn:Hd; simplify_eq. simpl.
    split; [split; [done|]|exact Hinv]. unfold handle_done. simpl. by destruct done_handle.
  - (* L_timeout *) intros Hinv Hstep. destruct (cons s) eqn:Hc; simplify_eq.
    unfold inv, pending_inv, published_inv in *. simpl. rewrite Hc in Hinv.
    destruct (prod s); crush; try done; split_ands; try done; simpl in *; naive_solver.
  - (* L_spurious *) intros Hinv Hstep. destruct (cons s) eqn:Hc; simplify_eq.
    unfold inv, pending_inv, published_inv in *. simpl. rewrite Hc in Hinv.
    destruct (prod s); crush; try done; split_ands; try done; simpl in *; naive_solver.
Qed.

Lemma inv_reachable s : reachable step init s -> inv s.
Proof. apply reachable_invariant; [apply inv_init|apply inv_step]. Qed.
End preservation.
