(* ===== verification/ResultStateFacts.v ===== *)
(** * result_state: progress, specification, accesses and sharing

    The lemmas that lead from the invariant of [ResultStateProps] to the
    theorems of [ResultStateTheorems]: how many actions a call still takes
    once the result is there, the abstract one-shot future, the accesses to
    non-atomic memory, and the delivery of a shared result. *)

From stdpp Require Import prelude list.
From S2P Require Import Prelude Errors ProducerContext ConsumerContext ResultState ResultStateProps.

Import consumer_context (action, resume_caller, release_semaphore,
  try_resume_when_any, notify_shared, do_nothing, resume_consumer,
  set_await_handle, set_wait_for_context, set_when_any_context,
  set_shared_context, empty_context, await_context, wait_for_context,
  any_context, shared_context).

#[local] Ltac crush :=
  repeat match goal with
  | H : _ /\ _ |- _ => destruct H
  | H : exists _, _ |- _ => destruct H
  | H : _ = _ |- _ => progress simplify_eq/=
  end.

(** ** Progress *)
Section progress.
Context {T : Type}.
Implicit Types s : state T.

(** The consumer is between two calls, or has let go of the state. *)
Definition at_rest (c : consumer_pc T) : bool :=
  match c with C_own _ | C_registered _ | C_gone _ => true | _ => false end.

(** How many actions the current call still takes once the result is
    ready. *)
Definition rank (c : consumer_pc T) : nat :=
  match c with
  | C_own _ | C_registered _ | C_gone _ | C_aborted | C_suspended _ | C_wait_parked => 0
  | C_assert_done k =>
      match k with
      | then_return _ | then_registered _ => 1
      | then_read_status | then_notify _ | then_delete _ => 2
      | then_get => 4
      end
  | C_read_status | C_wait_load | C_await_load _ | C_wa_load _ | C_share_notify _
  | C_rewind_load _ | C_rewind_clear _ | C_wf_clear | C_delete _ | C_cc_delete => 1
  | C_status_load | C_wait_cas | C_wait_loop | C_await_cas _ | C_wf_load | C_wa_cas _ _
  | C_share_load _ | C_rewind_cas _ | C_cc_load | C_cc_exchange => 2
  | C_wait_block | C_await_set _ | C_wa_set _ _ | C_wf_cas _ | C_wf_load2 | C_wf_rewind _
  | C_share_cas _ | C_get => 3
  | C_wf_set | C_wf_acquire _ | C_share_set _ => 4
  end.

Lemma progress_step s :
  inv s -> prod s = P_gone -> at_rest (cons s) = false ->
  exists s', consumer_step s = Some s' /\ rank (cons s') < rank (cons s).
Proof.
  destruct s as [pcs con dh pr sems fr nt c p]. simpl. intros Hinv -> Hrest.
  unfold inv, published_inv, ctx_idle, settled, deletable, result_built in Hinv. simpl in Hinv.
  destruct Hinv as ((Hb & _) & H1 & H2 & _).
  destruct c; simpl in *; try done; destruct_and?; simplify_eq;
    unfold_step; simpl; rewrite ?decide_True by done;
    try (eexists; split; [done|simpl; lia]);
    try (eexists; split; [done|unfold delete_self; match goal with |- context [if ?b then _ else _] => by destruct b; simpl; lia end]).
  - destruct k; eexists; (split; [done|simpl; lia]).
  - unfold set_await_handle. rewrite decide_True by done. eexists; split; [done|simpl; lia].
  - destruct_or!; naive_solver.
  - unfold set_wait_for_context. simpl. rewrite decide_True by done. eexists; split; [done|simpl; lia].
  - destruct H2 as [[]|[|[_ [n Hn]]]]; [done..|]. rewrite Hn. eexists; split; [done|simpl; lia].
  - match goal with H : exists i, con = wait_for_context i |- _ => destruct H as [i ->] end. eexists; split; [done|simpl; lia].
  - unfold set_when_any_context. rewrite decide_True by done. eexists; split; [done|simpl; lia].
  - unfold set_shared_context. rewrite decide_True by done. eexists; split; [done|simpl; lia].
  - match goal with H : ctx_shared_by _ _ |- _ => destruct (ctx_shared_by_clear _ _ H) as [st ->] end.
    eexists; split; [done|simpl; lia].
  - destruct Hb as [r Hr]. unfold ProducerContext.get. rewrite (get_ref_content _ _ Hr).
    destruct r; (eexists; split; [done|simpl; lia]).
Qed.
End progress.

(** ** The abstract specification: a one-shot future *)
Section future.
Context {T : Type}.
Implicit Types s : state T.

Inductive future := Pending | Ready (r : payload T) | Closed.

Inductive future_step : future -> future -> Prop :=
  | future_publish r : future_step Pending (Ready r)
  | future_close r : future_step (Ready r) Closed.

Definition published (p : producer_pc) : bool :=
  match p with P_own | P_built | P_exchange | P_aborted => false | _ => true end.

Definition abstract_future s : future :=
  match freed s, published (prod s), content (m_producer s) with
  | _ :: _, _, _ => Closed
  | [], true, Some r => Ready r
  | _, _, _ => Pending
  end.

(** [r] was handed to the producer in the run [ls]. *)
Definition produced (r : payload T) (ls : list (label T)) : Prop :=
  match r with inl t => L_set_result (inl t) ∈ ls | inr e => L_set_exception e ∈ ls end.

Lemma get_ref_state (p : producer_context T) : (get_ref p).2 = p.
Proof. by destruct p as [[|t|[e|]] []]. Qed.

Lemma consumer_keeps s s' : consumer_step s = Some s' -> m_producer s' = m_producer s /\ prod s' = prod s.
Proof.
  destruct s as [pcs con dh pr sems fr nt c p]. intros H.
  destruct c; unfold consumer_step in H; simpl in *; unfold_step; unfold delete_self in *; simpl in *;
    repeat first [progress simplify_eq/= | case_match]; try done.
  all: try (split; [|done]).
  all: match goal with H : ProducerContext.get ?p = (_, ?q) |- ?q = ?p =>
         rewrite <- (get_ref_state p); unfold ProducerContext.get in H; by rewrite H end.
Qed.

Lemma producer_keeps s s' : producer_step s = Some s' -> m_producer s' = m_producer s.
Proof.
  destruct s as [pcs con dh pr sems fr nt c p]. intros H.
  unfold producer_step, delete_self in H. simpl in *; unfold_step; simpl in *;
    repeat first [progress simplify_eq/= | case_match]; try done.
Qed.

Lemma content_step l s s' r :
  step l s = Some s' -> content (m_producer s') = Some r ->
  content (m_producer s) = Some r \/ produced r [l].
Proof.
  intros Hstep Hr. destruct l; simpl in Hstep.
  - unfold set_result_step in Hstep. destruct s as [??? pr ????[]]; simplify_eq/=.
    destruct pr as [st []]; destruct ctor; unfold content in *; simplify_eq/=;
      first [by left | right; by apply list_elem_of_singleton].
  - unfold set_exception_step in Hstep. destruct s as [??? pr ????[]]; simplify_eq/=.
    destruct pr as [st []]; unfold content in *; simplify_eq/=;
      first [by left | right; by apply list_elem_of_singleton].
  - left. by repeat case_match; simplify_eq/=.
  - left. by rewrite <- (producer_keeps _ _ Hstep).
  - left. unfold call_step in Hstep. by repeat first [progress simplify_eq/= | case_match].
  - left. by rewrite <- (proj1 (consumer_keeps _ _ Hstep)).
  - left. by destruct (cons s); simplify_eq.
  - left. by destruct (cons s); simplify_eq.
Qed.

Lemma produced_app r l ls : produced r [l] \/ produced r ls -> produced r (l :: ls).
Proof. destruct r; simpl; set_solver. Qed.

Lemma content_run ls s s' r :
  run step ls s = Some s' -> content (m_producer s') = Some r ->
  content (m_producer s) = Some r \/ produced r ls.
Proof.
  revert s. induction ls as [|l ls IH]; intros s Hrun Hr; simpl in *.
  - simplify_eq. by left.
  - destruct (step l s) as [s1|] eqn:E; [|done].
    destruct (IH s1 Hrun Hr) as [H|H].
    + destruct (content_step l s s1 r E H); eauto using produced_app.
    + right. apply produced_app. by right.
Qed.
End future.

(** ** Accesses to non-atomic memory *)
Section races.
Context {T : Type}.
Implicit Types s : state T.

Inductive member := mem_consumer | mem_producer | mem_done_handle.
Inductive access := reads | writes.

(** [delete_self] ends the life of every member. *)
Definition all_members : list (member * access) :=
  [(mem_consumer, writes); (mem_producer, writes); (mem_done_handle, writes)].

(** What the next action of the consumer accesses. *)
Definition consumer_accesses (c : consumer_pc T) : list (member * access) :=
  match c with
  | C_await_set _ | C_wf_set | C_wa_set _ _ | C_share_set _
  | C_wf_clear | C_rewind_clear _ => [(mem_consumer, writes)]
  | C_read_status => [(mem_producer, reads)]
  | C_get => [(mem_producer, writes)]        (* moves the value out *)
  | C_delete _ | C_cc_delete => all_members
  | _ => []
  end.

(** What the next action of the producer accesses. *)
Definition producer_accesses (p : producer_pc) : list (member * access) :=
  match p with
  | P_own => [(mem_producer, writes)]
  | P_built => [(mem_done_handle, writes)]
  | P_resume => [(mem_consumer, reads)]
  | P_delete => all_members
  | _ => []
  end.

Definition data_race s : Prop :=
  exists m a b, (m, a) ∈ consumer_accesses (cons s) /\ (m, b) ∈ producer_accesses (prod s) /\
    (a = writes \/ b = writes).

(** The producer's next action is on [*this]. *)
Definition producer_touches (p : producer_pc) : bool :=
  match p with P_act _ | P_gone | P_aborted => false | _ => true end.

(** The action [l] is on [*this]; [P_act] works on the copies that
    [resume_consumer] made. *)
Definition touches_state (l : label T) s : bool :=
  match l with L_producer => producer_touches (prod s) | _ => true end.

Definition use_after_free s : Prop := freed s ≠ [] /\ producer_touches (prod s) = true.

Definition deletes (c : consumer_pc T) : bool :=
  match c with C_delete _ | C_cc_delete => true | _ => false end.

Lemma no_access_when_settled c m : ~ (m ∈ consumer_accesses c /\ m ∈ producer_accesses P_gone).
Proof. simpl. set_solver. Qed.

Lemma pending_accesses s m a :
  pending_inv s -> (m, a) ∈ consumer_accesses (cons s) -> m = mem_consumer.
Proof.
  unfold pending_inv. intros (_&_&Hc) Hm. destruct (cons s); simpl in *; set_solver.
Qed.

Lemma resume_accesses s a :
  published_inv s -> prod s = P_resume ->
  (mem_consumer, a) ∈ consumer_accesses (cons s) -> deletes (cons s) = true.
Proof.
  unfold published_inv, settled. intros (_&H2&_) Hp Hm. rewrite Hp in H2.
  destruct (cons s); simpl in *; set_solver.
Qed.

Lemma resume_await s h :
  published_inv s -> prod s = P_resume -> m_consumer s = await_context h ->
  cons s = C_suspended h /\ freed s = [].
Proof.
  unfold published_inv. intros (H1&_&H3) Hp Hc. rewrite Hp in H3. simpl in H3.
  destruct H3 as [(h'&E&Hs)|[(i&E&_)|[[ctx E]|[ctx E]]]]; rewrite Hc in E; simplify_eq.
  rewrite Hs in *. naive_solver.
Qed.
End races.

(** ** share() *)
Section sharing.
Context {T : Type}.
Implicit Types s : state T.

(** A [notify_shared] of the producer is still to come. *)
Definition notify_due (p : producer_pc) (con : consumer_context.t) : Prop :=
  match p with
  | P_resume => exists ctx, con = shared_context ctx
  | P_act a => exists ctx, a = notify_shared ctx
  | _ => False
  end.

(** Who calls [on_result_finished], and when it has been called. *)
Definition delivery (c : consumer_pc T) (pub : bool) (due : Prop) (n : nat) : Prop :=
  match c with
  | C_registered (r_shared _) =>
      if pub then (due /\ n = 0) \/ (~ due /\ n = 1) else n = 0
  | C_assert_done (then_registered (r_shared _)) => False
  | C_rewind_load r_unshared | C_rewind_cas r_unshared | C_rewind_clear r_unshared
  | C_own r_unshared | C_assert_done (then_return r_unshared)
  | C_cc_load | C_cc_exchange | C_cc_delete | C_gone _ | C_aborted => True
  | _ => n = 0 /\ ~ due
  end.

Definition share_inv s : Prop :=
  delivery (cons s) (published (prod s)) (notify_due (prod s) (m_consumer s)) (notified s).
End sharing.

Section sharing_inv.
Context {T : Type}.
Implicit Types s : state T.

(** The consumer writes [m_consumer] only when the producer is not about to
    read it. *)
Lemma consumer_ctx_change s s' :
  inv s -> consumer_step s = Some s' ->
  m_consumer s' = m_consumer s \/ (forall con, ~ notify_due (prod s) con).
Proof.
  intros Hinv Hstep.
  assert (Hw : (mem_consumer, writes) ∈ consumer_accesses (cons s) -> deletes (cons s) = false ->
               forall con, ~ notify_due (prod s) con).
  { intros Hm Hd con. unfold inv in Hinv.
    destruct (prod s) as [| | | |a| | | |] eqn:Hp; simpl; try tauto.
    - destruct Hinv as [_ Hinv]. by rewrite (resume_accesses s writes Hinv Hp Hm) in Hd.
    - destruct Hinv as [_ (_&H2&_)]. rewrite Hp in H2. unfold settled in H2.
      destruct (cons s); simpl in *; set_solver. }
  destruct s as [pcs con dh pr sems fr nt c p]. simpl in *.
  destruct c; unfold consumer_step in Hstep; simpl in *; unfold_step; unfold delete_self in *; simpl in *;
    try (right; apply Hw; [set_solver|done]); left;
    repeat first [progress simplify_eq/= | case_match]; done.
Qed.

Lemma share_inv_consumer s s' :
  inv s -> share_inv s -> consumer_step s = Some s' -> share_inv s'.
Proof.
  intros Hinv Hsh Hstep. unfold share_inv in *.
  destruct (consumer_keeps s s' Hstep) as [_ Hp]. rewrite Hp.
  assert (Hdue : notify_due (prod s) (m_consumer s') <-> notify_due (prod s) (m_consumer s)).
  { destruct (consumer_ctx_change s s' Hinv Hstep) as [->|Hn]; [done|].
    split; intros H; by apply Hn in H. }
  revert Hdue. generalize (notify_due (prod s) (m_consumer s')); intros due' Hdue.
  revert Hsh Hdue. generalize (notify_due (prod s) (m_consumer s)); intros due Hsh Hdue.
  destruct s as [pcs con dh pr sems fr nt c p]. simpl in *. clear Hp.
  assert (Hidle : pcs = pc_idle -> published p = false).
  { intros ->. unfold inv, published_inv in Hinv. simpl in *.
    destruct p; try done; destruct Hinv as [_ [H _]]; destruct c; naive_solver. }
  assert (Hpub : forall ctx, c = C_share_notify ctx -> published p = true).
  { intros ctx ->. unfold inv, pending_inv in Hinv. simpl in *. destruct p; naive_solver. }
  clear Hinv.
  destruct c; unfold consumer_step in Hstep; simpl in *; unfold_step; unfold delete_self in *; simpl in *;
    repeat first [progress simplify_eq/= | case_decide | match type of Hstep with context [match ?x with _ => _ end] => destruct x eqn:? end]; simpl in *;
    try tauto; try (repeat case_match; simpl; naive_solver).
  all: repeat case_match; simpl; naive_solver.
Qed.

Lemma share_inv_producer s s' :
  inv s -> share_inv s -> producer_step s = Some s' -> share_inv s'.
Proof.
  destruct s as [pcs con dh pr sems fr nt c p]. unfold share_inv, producer_step. simpl.
  intros Hinv Hsh Hstep. destruct p as [| | | |a| | | |]; simplify_eq/=.
  - (* the exchange *)
    unfold inv, pending_inv in Hinv. simpl in Hinv. destruct Hinv as (_&->&->&Hc).
    unfold complete_producer_exchange. simpl.
    destruct c; simpl in *; destruct_and?; simplify_eq/=; try done; try naive_solver.
    all: try (destruct_or!; destruct_and?; simplify_eq/=).
    all: try match goal with H : ctx_shared_by ?r _ |- _ => destruct r; simpl in H end.
    all: try (by destruct o; simplify_eq/=; naive_solver).
    all: try naive_solver.
  - (* resume_consumer() *)
    unfold inv, published_inv in Hinv. simpl in Hinv. destruct Hinv as (_&_&_&H3).
    destruct H3 as [(h&->&->)|[(i&->&_)|[[ctx ->]|[ctx ->]]]];
      unfold wait_for_context, await_context, any_context, shared_context in *; simpl in *.
    + naive_solver.
    + destruct c; simpl in *; repeat case_match; naive_solver.
    + destruct c; simpl in *; repeat case_match; naive_solver.
    + destruct c; simpl in *; repeat case_match; naive_solver.
  - (* the local copies *)
    assert (Hc : forall h, a = resume_caller h -> c = C_suspended h).
    { intros h ->. unfold inv, published_inv in Hinv. simpl in Hinv. tauto. }
    clear Hinv. unfold act_step. simpl.
    destruct a; try (rewrite (Hc _ eq_refl); simpl; rewrite decide_True by done); try destruct c; simpl in *; repeat case_match; simplify_eq/=; naive_solver.
  - destruct c; simpl in *; repeat case_match; simplify_eq/=; naive_solver.
  - rewrite delete_self_ok by (unfold inv in Hinv; naive_solver). clear Hinv. simpl.
    destruct c; simpl in *; repeat case_match; simplify_eq/=; naive_solver.
Qed.

Lemma share_inv_step l s s' : inv s -> share_inv s -> step l s = Some s' -> share_inv s'.
Proof.
  destruct l; simpl; eauto using share_inv_producer, share_inv_consumer.
  all: destruct s as [pcs con dh pr sems fr nt cs p].
  - intros _ Hsh Hstep. unfold set_result_step, share_inv in *. simpl in *.
    destruct p; simplify_eq/=. by repeat case_match; simplify_eq/=.
  - intros _ Hsh Hstep. unfold set_exception_step, share_inv in *. simpl in *.
    destruct p; simplify_eq/=. by repeat case_match; simplify_eq/=.
  - intros _ Hsh Hstep. unfold share_inv in *. simpl in *. destruct p; simplify_eq/=.
    by destruct (match done_handle with Some _ => _ | None => _ end); simplify_eq/=.
  - intros _ Hsh Hstep. unfold call_step, share_inv in *. simpl in *.
    destruct cs; simplify_eq/=.
    + destruct (start_call _ r) eqn:E; simplify_eq/=.
      destruct r; destruct c; simplify_eq/=; repeat case_match; simplify_eq/=; naive_solver.
    + destruct c; simplify_eq/=. destruct r; simpl in *; naive_solver.
  - intros _ Hsh Hstep. unfold share_inv in *. simpl in *. by destruct cs; simplify_eq/=.
  - intros _ Hsh Hstep. unfold share_inv in *. simpl in *. by destruct cs; simplify_eq/=.
Qed.

Lemma share_inv_reachable s : reachable step init s -> share_inv s.
Proof.
  induction 1 as [|l s s' Hr IH Hstep]; [vm_compute; tauto|].
  eapply share_inv_step; [by apply inv_reachable|done..].
Qed.
End sharing_inv.

(** ** Theorems *)
Section finishing.
Context {T : Type}.
Implicit Types s : state T.

Definition producer_rank (p : producer_pc) : nat :=
  match p with P_exchange => 3 | P_resume => 2 | P_act _ | P_notify | P_delete => 1 | _ => 0 end.

Definition producer_at_rest (p : producer_pc) : bool :=
  match p with P_own | P_built | P_gone => true | _ => false end.

Definition completing s : Prop := inv s /\ prod s <> P_own /\ prod s <> P_built.

Lemma producer_progress s :
  completing s -> producer_at_rest (prod s) = false ->
  exists s', producer_step s = Some s' /\ completing s' /\ producer_rank (prod s') < producer_rank (prod s).
Proof.
  intros (Hinv & H1 & H2) Hr. unfold completing.
  assert (H3 : prod s <> P_aborted) by (intros E; unfold inv in Hinv; by rewrite E in Hinv).
  assert (Hs : exists s', producer_step s = Some s')
    by (revert Hr H1 H2 H3; unfold producer_step; destruct (prod s); simpl; intros; try done; eauto).
  destruct Hs as [s' Hs]. pose proof (inv_producer _ _ Hinv Hs) as Hi.
  exists s'. revert Hs Hi Hr H1 H2. unfold producer_step, complete_producer_exchange, act_step, delete_self.
  destruct (prod s); simpl; intros; try done.
  all: repeat case_match; simplify_eq/=; try done; naive_solver lia.
Qed.

Lemma producer_finishes s :
  completing s -> exists n s', n <= 3 /\ run step (replicate n L_producer) s = Some s' /\
    inv s' /\ prod s' = P_gone.
Proof.
  intros Hc.
  destruct (run_measure step completing (fun s => producer_at_rest (prod s))
    (fun s => producer_rank (prod s)) L_producer producer_progress s Hc) as (n & s' & Hn & Hrun & (Hi & H1 & H2) & Hr).
  exists n, s'. split_ands; try done.
  - by destruct (prod s); simpl in *; lia.
  - by destruct (prod s').
Qed.

Lemma rank_bound (c : consumer_pc T) : rank c <= 4.
Proof. destruct c; simpl; try lia. destruct k; simpl; lia. Qed.

Lemma consumer_finishes s :
  inv s -> prod s = P_gone ->
  exists n s', n <= 4 /\ run step (replicate n L_consumer) s = Some s' /\
    inv s' /\ prod s' = P_gone /\ at_rest (cons s') = true.
Proof.
  intros Hi Hp.
  destruct (run_measure step (fun s => inv s /\ prod s = P_gone) (fun s => at_rest (cons s))
    (fun s => rank (cons s)) L_consumer) with (s := s) as (n & s' & Hn & Hrun & (Hi' & Hp') & Hr); [|done|].
  - intros s0 [Hi0 Hp0] Hr0. destruct (progress_step s0 Hi0 Hp0 Hr0) as (s1 & Hs1 & Hlt).
    destruct (consumer_keeps s0 s1 Hs1) as [_ E]. rewrite Hp0 in E.
    exists s1. split_ands; try done. by eapply inv_consumer.
  - exists n, s'. split_ands; try done. pose proof (rank_bound (cons s)). lia.
Qed.

(** Steps of the abstract future. *)
Lemma published_content s : inv s -> published (prod s) = true -> exists r, content (m_producer s) = Some r.
Proof. unfold inv. destruct (prod s); try done; intros [[[r Hr] _] _] _ || intros [[r Hr] _] _; eauto. Qed.

Lemma freed_published s : inv s -> published (prod s) = false -> freed s = [].
Proof. unfold inv, pending_inv. destruct (prod s); try done; intros [_ [H _]] _; done. Qed.

(** After [delete_self] only the two accesses of [complete_producer] that
    follow its exchange can come. *)
Lemma touches_freed l s s' :
  inv s -> step l s = Some s' -> touches_state l s = true -> freed s <> [] ->
  l = L_producer /\ (prod s = P_resume \/ prod s = P_notify).
Proof.
  intros Hi Hstep Ht Hf.
  assert (Hp : published (prod s) = true) by (destruct (published (prod s)) eqn:E; [done|by destruct Hf; apply freed_published]).
  assert (Hg : exists o, cons s = C_gone o /\ length (freed s) = match prod s with P_delete => 0 | _ => 1 end).
  { unfold inv, published_inv in Hi. destruct (prod s); try done; destruct Hi as (_&Hi&_);
      destruct (cons s); destruct_and?; try done; eauto. }
  destruct Hg as (o & Hg & Hl). unfold step, consumer_step, call_step, set_result_step, set_exception_step in Hstep.
  rewrite Hg in Hstep. destruct (prod s) eqn:E, l; simpl in *; try done; eauto; try (by destruct (freed s)).
  all: by rewrite E in Ht.
Qed.

Lemma freed_length s : inv s -> length (freed s) <= 1.
Proof.
  unfold inv, pending_inv, published_inv.
  destruct (prod s); intros H; try done.
  all: try (destruct H as [_ [-> _]]; simpl; lia).
  all: destruct H as [_ [H _]]; destruct (cons s); destruct_and?;
    first [ match goal with E : length (freed _) = _ |- _ => rewrite E; repeat case_match; lia end
          | match goal with E : freed _ = [] |- _ => rewrite E; simpl; lia end ].
Qed.

Lemma freed_monotone l s s' : step l s = Some s' -> exists fr, freed s' = freed s ++ fr.
Proof.
  destruct s as [pcs con dh pr sems fr nt c p]. intros Hstep.
  assert (Hnil : forall l : list (option done_handle), exists fr, l = l ++ fr) by (intros l0; exists []; by rewrite app_nil_r).
  destruct l; simpl in Hstep; unfold producer_step, consumer_step in Hstep; simpl in Hstep; unfold_step; unfold delete_self in *; simpl in *;
    repeat first [progress simplify_eq/= | case_match]; eauto.
Qed.
End finishing.
