(* ===== verification/ResultStateTheorems.v ===== *)
(** * result_state: theorems

    What holds in every interleaving of a producer and a consumer, and two
    interleavings that show what does not. *)

From stdpp Require Import prelude list.
From S2P Require Import Prelude Errors ProducerContext ConsumerContext ResultState ResultStateProps ResultStateFacts.

Import consumer_context (action, resume_caller, release_semaphore,
  try_resume_when_any, notify_shared, do_nothing, resume_consumer,
  set_await_handle, set_wait_for_context, set_when_any_context,
  set_shared_context, empty_context, await_context, wait_for_context,
  any_context, shared_context).

Section refinement.
Context {T : Type}.
Implicit Types s : state T.

Lemma publish_step l s s' :
  step l s = Some s' -> published (prod s) = false -> published (prod s') = true ->
  freed s' = freed s.
Proof.
  intros Hstep H1 H2. destruct l; simpl in Hstep.
  - unfold set_result_step in Hstep. by repeat case_match; simplify_eq/=.
  - unfold set_exception_step in Hstep. by repeat case_match; simplify_eq/=.
  - by repeat case_match; simplify_eq/=.
  - unfold producer_step, complete_producer_exchange in Hstep.
    destruct (prod s); simplify_eq/=. by destruct (m_pc_state s).
  - unfold call_step in Hstep. by repeat case_match; simplify_eq/=.
  - destruct (consumer_keeps s s' Hstep) as [_ E]. by rewrite E, H1 in H2.
  - by repeat case_match; simplify_eq/=.
  - by repeat case_match; simplify_eq/=.
Qed.

Lemma published_stays l s s' :
  inv s' -> step l s = Some s' -> published (prod s) = true ->
  published (prod s') = true /\ m_producer s' = m_producer s.
Proof.
  intros Hi Hstep H1. destruct l; simpl in Hstep.
  - unfold set_result_step in Hstep. by destruct (prod s); simplify_eq/=.
  - unfold set_exception_step in Hstep. by destruct (prod s); simplify_eq/=.
  - by destruct (prod s); simplify_eq/=.
  - rewrite (producer_keeps s s' Hstep). split; [|done].
    assert (H3 : prod s' <> P_aborted) by (intros E; unfold inv in Hi; by rewrite E in Hi).
    revert Hstep H3. unfold producer_step, act_step, delete_self. destruct (prod s); simplify_eq/=;
      intros; repeat first [progress simplify_eq/= | case_match]; done.
  - unfold call_step in Hstep. by repeat case_match; simplify_eq/=.
  - destruct (consumer_keeps s s' Hstep) as [-> ->]. done.
  - by repeat case_match; simplify_eq/=.
  - by repeat case_match; simplify_eq/=.
Qed.

Lemma abstract_pending s : inv s -> published (prod s) = false -> abstract_future s = Pending.
Proof. intros Hi Hp. unfold abstract_future. by rewrite (freed_published s Hi Hp), Hp. Qed.

Lemma abstract_published s r :
  published (prod s) = true -> content (m_producer s) = Some r ->
  abstract_future s = if freed s then Ready r else Closed.
Proof. unfold abstract_future. intros -> ->. by destruct (freed s). Qed.

Lemma refinement_step l s s' :
  inv s -> inv s' -> step l s = Some s' ->
  abstract_future s' = abstract_future s \/ future_step (abstract_future s) (abstract_future s').
Proof.
  intros Hi Hi' Hstep. destruct (published (prod s)) eqn:Hp.
  - destruct (published_stays l s s' Hi' Hstep Hp) as [Hp' E].
    destruct (published_content s Hi Hp) as [r Hr].
    rewrite (abstract_published s r Hp Hr), (abstract_published s' r Hp') by (by rewrite E).
    destruct (freed_monotone l s s' Hstep) as [fr ->].
    destruct (freed s); [|by left]. destruct fr; [by left|right; constructor].
  - rewrite (abstract_pending s Hi Hp). destruct (published (prod s')) eqn:Hp'.
    + destruct (published_content s' Hi' Hp') as [r Hr].
      rewrite (abstract_published s' r Hp' Hr), (publish_step l s s' Hstep Hp Hp'), (freed_published s Hi Hp).
      right; constructor.
    + left. by apply abstract_pending.
Qed.

(** What the consumer knows about the abstract future. *)
Lemma ready_observed s r :
  inv s -> cons s = C_own r -> knows_ready r -> exists p, abstract_future s = Ready p.
Proof.
  intros Hi Hc Hk. destruct (published (prod s)) eqn:Hp.
  - destruct (published_content s Hi Hp) as [p Hr]. exists p.
    rewrite (abstract_published s p Hp Hr).
    unfold inv, published_inv in Hi. rewrite Hc in Hi.
    destruct (prod s); try done; destruct Hi as (_&(_&->)&_); done.
  - unfold inv, pending_inv in Hi. rewrite Hc in Hi.
    destruct (prod s); try done; naive_solver.
Qed.
End refinement.

(** ** Theorems on every reachable state *)
Section theorems.
Context {T : Type}.
Implicit Types s : state T.

(** C1.  No assertion of [result_state] fails, in any interleaving of one
    producer and one consumer: every [assert_done], the assertions on
    [m_pc_state] in [status], [complete_producer] and [complete_consumer], the
    assertion of the [consumer_context] setters, the assertions of
    [producer_context::get], the assertion on the handle in [delete_self], the
    access to the active union members (in the destructors too), and the
    resumption of a coroutine that is suspended.  Nothing touches the state
    after [delete_self], with the exception of two accesses of
    [complete_producer] after its exchange, the read of [m_consumer] and
    [m_pc_state.notify_one()]; [use_after_free_reachable] below shows that
    these two are not safe. *)
Theorem assertions_hold s :
  reachable (@step T) init s ->
  cons s <> C_aborted /\ prod s <> P_aborted /\
  (forall l s', step l s = Some s' -> touches_state l s = true -> freed s <> [] ->
     l = L_producer /\ (prod s = P_resume \/ prod s = P_notify)).
Proof.
  intros Hi%inv_reachable. split_and!; [| |by intros l s'; apply touches_freed].
  all: unfold inv, pending_inv, published_inv in Hi; intros E; rewrite E in Hi.
  - destruct (prod s); simpl in *; naive_solver.
  - done.
Qed.

(** C2.  [delete_self] runs at most once, and it has run exactly once when
    producer and consumer have both let go of the state, whoever was first:
    no double free and no leak. *)
Theorem deleted_exactly_once s :
  reachable (@step T) init s ->
  length (freed s) <= 1 /\
  (forall o, cons s = C_gone o -> prod s = P_gone -> length (freed s) = 1).
Proof.
  intros Hi%inv_reachable. split; [by apply freed_length|].
  intros o Hc Hp. unfold inv, published_inv in Hi. rewrite Hp, Hc in Hi. naive_solver.
Qed.

(** C3.  [result::get] and [awaitable::await_resume] return the value, or
    throw the exception, that the producer was given in this run, and
    nothing else. *)
Theorem get_returns_what_was_produced ls s o :
  run step ls init = Some s -> cons s = C_gone (Some o) ->
  exists r, o = payload_outcome r /\ produced r ls.
Proof.
  intros Hrun Hc. pose proof (inv_reachable s (run_reachable _ _ _ _ Hrun)) as Hi.
  assert (Hf : final_outcome o (m_producer s)).
  { unfold inv, pending_inv, published_inv in Hi. rewrite Hc in Hi.
    destruct (prod s); simpl in *; naive_solver. }
  destruct Hf as (r & Hr & ->). exists r. split; [done|].
  destruct (content_run ls init s r Hrun Hr) as [H|H]; [by simpl in H|done].
Qed.

(** C4.  No wake-up is lost.  Once [complete_producer] has been called, it
    returns after at most three actions of the producer; and whatever the
    consumer was doing then (blocked in [wait], suspended in a coroutine,
    waiting on the semaphore of [wait_for], or in the middle of any other
    call), its call returns after at most four of its own actions. *)
Theorem every_call_completes s :
  reachable (@step T) init s -> prod s <> P_own -> prod s <> P_built ->
  exists n m s', n <= 3 /\ m <= 4 /\
    run step (replicate n L_producer ++ replicate m L_consumer) s = Some s' /\
    prod s' = P_gone /\ at_rest (cons s') = true.
Proof.
  intros Hi%inv_reachable H1 H2.
  destruct (producer_finishes s) as (n & s1 & Hn & Hr1 & Hi1 & Hp1); [done|].
  destruct (consumer_finishes s1 Hi1 Hp1) as (m & s2 & Hm & Hr2 & _ & Hp2 & Hc2).
  exists n, m, s2. rewrite run_app, Hr1. done.
Qed.

(** C5.  Refinement: every atomic action of the protocol is a stutter or a
    step of a one-shot future, which is pending, then ready with one
    payload, then closed; and a call that returned to its caller that the
    result is there ([wait], [await], a status other than idle) returned
    while the future was ready. *)
Theorem implements_one_shot_future l s s' :
  reachable (@step T) init s -> step l s = Some s' ->
  (abstract_future s' = abstract_future s \/ future_step (abstract_future s) (abstract_future s')) /\
  (forall r, cons s' = C_own r -> knows_ready r -> exists p, abstract_future s' = Ready p).
Proof.
  intros Hr Hstep. pose proof (inv_reachable s Hr) as Hi.
  pose proof (inv_step l s s' Hi Hstep) as Hi'.
  split; [by eapply refinement_step|]. intros r. by apply ready_observed.
Qed.

(** A result that is shared is delivered exactly once: when [share] has
    returned and the producer is done, [on_result_finished] has been called
    once, by the producer or by [share] itself, whichever saw the other. *)
Theorem shared_exactly_once s ctx :
  reachable (@step T) init s -> cons s = C_registered (r_shared ctx) -> prod s = P_gone -> notified s = 1.
Proof.
  intros Hs%share_inv_reachable Hc Hp. unfold share_inv in Hs. rewrite Hc, Hp in Hs. naive_solver.
Qed.

(** The non-atomic members are race free, except in one situation: the
    consumer deletes the state while the producer is about to read
    [m_consumer] to wake up a consumer that has given up ([wait_for] timed
    out, or [when_any] or [share] was rewound).  A coroutine that awaits the
    result is never in that situation. *)
Theorem races_only_with_deletion s :
  reachable (@step T) init s -> data_race s ->
  prod s = P_resume /\ deletes (cons s) = true /\ forall h, m_consumer s <> await_context h.
Proof.
  intros Hi%inv_reachable (m & a & b & Hc & Hp & Hab). unfold inv in Hi.
  destruct (prod s) as [| | | |act| | | |] eqn:E; simpl in *; try set_solver.
  - destruct Hi as [_ Hi]. apply pending_accesses in Hc as ->; [|done]. set_solver.
  - destruct Hi as [_ Hi]. apply pending_accesses in Hc as ->; [|done]. set_solver.
  - destruct Hi as [_ Hi]. apply list_elem_of_singleton in Hp. simplify_eq.
    pose proof (resume_accesses s a Hi E Hc) as Hd. split_ands; [done|done|].
    intros h Hh. destruct (resume_await s h Hi E Hh) as [Hs _]. by rewrite Hs in Hd.
  - destruct Hi as [_ (_&_&H3)]. rewrite E in H3. simpl in H3. rewrite H3 in Hc. set_solver.
Qed.
End theorems.

(** ** Concrete runs *)
Section runs.
Notation consumer n := (replicate n (L_consumer (T:=nat))).

(** A coroutine awaits, is suspended, is resumed by the producer and gets
    the value. *)
Definition run_await : list (label nat) :=
  [L_call (call_await 7)] ++ consumer 3 ++
  [L_set_result (inl 42); L_complete None; L_producer; L_producer; L_producer;
   L_call call_get] ++ consumer 4.

(** [wait()] blocks, is woken up, and the value is read. *)
Definition run_wait : list (label nat) :=
  [L_call call_wait] ++ consumer 4 ++
  [L_set_exception (make_exn (user_exception 3) k_broken_task_exception_error_msg); L_complete (Some (make_done_handle 9 true)); L_producer; L_producer] ++
  consumer 3 ++ [L_call call_get] ++ consumer 4.

(** A result is shared before the producer is done. *)
Definition run_share : list (label nat) :=
  [L_call (call_share 5)] ++ consumer 3 ++
  [L_set_result (inl 1); L_complete None; L_producer; L_producer; L_producer].

(** [wait_for] times out just when the producer has seen its context: the
    exchange of [complete_producer] has returned [consumer_set], the CAS of
    [wait_for] fails, [wait_for] returns the status, and the consumer drops
    the result. *)
Definition run_timeout : list (label nat) :=
  [L_call call_wait_for] ++ consumer 3 ++
  [L_set_result (inl 1); L_complete None; L_producer; L_timeout] ++ consumer 3 ++
  [L_call call_complete] ++ consumer 2.

(** The waiting thread sees the result by itself before [notify_one]. *)
Definition run_notify : list (label nat) :=
  [L_call call_wait] ++ consumer 2 ++
  [L_set_result (inl 1); L_complete None; L_producer] ++ consumer 2 ++
  [L_call call_get] ++ consumer 4.

(** [when_any] reads [idle], the producer completes, and then the CAS of
    [when_any] fails. *)
Definition run_any : list (label nat) :=
  [L_call (call_when_any 4)] ++ consumer 2 ++
  [L_set_result (inl 1); L_complete None; L_producer] ++ consumer 2.
End runs.

Notation after_run := (after (@step nat) init).

(** Use after free: the two situations in which the producer still has
      to access the state after the consumer has deleted it.  In the first,
      [wait_for] has timed out, has returned, and the result object was
      destroyed while the producer is about to read [m_consumer]; in the
      second, a consumer in [wait] saw the result before
      [m_pc_state.notify_one()]. *)
Theorem use_after_free_reachable :
  (reachable (@step nat) init (after_run run_timeout) /\
   use_after_free (after_run run_timeout) /\
   prod (after_run run_timeout) = P_resume /\ data_race (after_run (removelast run_timeout))) /\
  (reachable (@step nat) init (after_run run_notify) /\
   use_after_free (after_run run_notify) /\
   prod (after_run run_notify) = P_notify).
Proof.
  split; (split; [apply after_reachable|]); unfold use_after_free; split_ands; try by vm_compute.
  exists mem_consumer, writes, reads. vm_compute. set_solver.
Qed.

(** [when_any] can miss a completion: it returns [idle], although its
      result is already done, nobody was or will be notified, and the context
      it was given is never read. *)
Theorem when_any_misses_completion :
  let s := after_run run_any in
  reachable (@step nat) init s /\ cons s = C_registered (r_any pc_idle) /\
  m_pc_state s = producer_done /\ m_consumer s = any_context 4 /\ prod s = P_gone.
Proof. split; [apply after_reachable|]. by vm_compute. Qed.

(** ** Witnesses *)
Lemma assertions_hold_witness :
  cons (after_run run_wait) <> C_aborted /\ prod (after_run run_wait) <> P_aborted.
Proof. destruct (assertions_hold (after_run run_wait)) as (H1 & H2 & _); [apply after_reachable|by split]. Defined.

Lemma deleted_exactly_once_witness : length (freed (after_run run_wait)) = 1.
Proof. eapply (deleted_exactly_once (after_run run_wait)); [apply after_reachable|by vm_compute..]. Defined.

Lemma get_returns_what_was_produced_witness :
  exists r : payload nat, Ok 42 = payload_outcome r /\ produced r run_await.
Proof. apply (get_returns_what_was_produced run_await (after_run run_await)); by vm_compute. Defined.

Lemma every_call_completes_witness :
  exists n m s', n <= 3 /\ m <= 4 /\
    run step (replicate n L_producer ++ replicate m L_consumer) (after_run (take 8 run_wait)) = Some s' /\
    prod s' = P_gone /\ at_rest (cons s') = true.
Proof.
  apply (every_call_completes (after_run (take 8 run_wait))); [apply after_reachable| |];
    intros H; vm_compute in H; discriminate H.
Defined.

Lemma implements_one_shot_future_witness :
  abstract_future (after_run (take 7 run_await)) = abstract_future (after_run (take 6 run_await)) \/
  future_step (abstract_future (after_run (take 6 run_await))) (abstract_future (after_run (take 7 run_await))).
Proof.
  apply (implements_one_shot_future L_producer); [apply after_reachable|by vm_compute].
Defined.

Lemma shared_exactly_once_witness : notified (after_run run_share) = 1.
Proof. apply (shared_exactly_once _ 5); [apply after_reachable|by vm_compute..]. Defined.

Lemma races_only_with_deletion_witness :
  prod (after_run (removelast run_timeout)) = P_resume.
Proof.
  apply (races_only_with_deletion (after_run (removelast run_timeout))); [apply after_reachable|].
  exists mem_consumer, writes, reads. split; [|split].
  - apply list_elem_of_In. vm_compute. tauto.
  - apply list_elem_of_In. vm_compute. tauto.
  - by left.
Defined.
