(* ===== verification/Slist.v ===== *)
(** * slist: the intrusive queue of awaiters

    [include/concurrencpp/utils/slist.h].  The nodes live in coroutine frames
    and are linked through their [next] member; the list owns nothing.  The
    memory of the nodes is an explicit heap, so that a node that was destroyed,
    or that is linked twice, is a possible state of the model. *)

From stdpp Require Import prelude gmap list.
From S2P Require Import Prelude Errors ConsumerContext.

(** The [next] member of every live node. *)
Notation node_heap := (gmap addr (option addr)).

Record slist := make_slist { m_head : option addr; m_tail : option addr }.

#[export] Instance slist_eq_dec : EqDecision slist.
Proof. solve_decision. Defined.

Definition slist_init : slist := make_slist None None.

(** [assert_state]: true when none of its assertions fails. *)
Definition assert_state (l : slist) : bool :=
  match m_head l with
  | None => bool_decide (m_tail l = None)
  | Some _ => bool_decide (m_tail l ≠ None)
  end.

(** [slist(slist&& rhs)]: the new list and what is left of [rhs]. *)
Definition slist_move (rhs : slist) : slist * slist :=
  (make_slist (m_head rhs) (m_tail rhs), make_slist None None).

Definition slist_empty (l : slist) : outcome exn bool :=
  if assert_state l then Ok (bool_decide (m_head l = None)) else Abort.

(** [push_back]; writing [m_tail->next] of a dead node is undefined. *)
Definition push_back (node : addr) (l : slist) (h : node_heap) : outcome exn (slist * node_heap) :=
  if assert_state l then
    match m_head l with
    | None => Ok (make_slist (Some node) (Some node), h)
    | Some _ =>
        match m_tail l with
        | Some t =>
            match h !! t with
            | Some _ => Ok (make_slist (m_head l) (Some node), <[t := Some node]> h)
            | None => Abort
            end
        | None => Abort
        end
    end
  else Abort.

(** [pop_front]; the popped node keeps its [next] member. *)
Definition pop_front (l : slist) (h : node_heap) : outcome exn (option addr * slist) :=
  if assert_state l then
    match m_head l with
    | None => Ok (None, l)
    | Some node =>
        match h !! node with
        | Some next =>
            Ok (Some node,
                make_slist next (if bool_decide (next = None) then None else m_tail l))
        | None => Abort
        end
    end
  else Abort.

(** ** The queue a list of nodes stands for *)

(** From pointer [p] the [next] members lead through [l] to the null pointer. *)
Fixpoint chain (h : node_heap) (p : option addr) (l : list addr) : Prop :=
  match l with
  | [] => p = None
  | a :: l => p = Some a /\ exists n, h !! a = Some n /\ chain h n l
  end.

Definition slist_repr (l : slist) (h : node_heap) (q : list addr) : Prop :=
  NoDup q /\ chain h (m_head l) q /\ m_tail l = last q.

Lemma chain_insert h p q a n : a ∉ q -> chain h p q -> chain (<[a := n]> h) p q.
Proof.
  revert p. induction q as [|b q IH]; intros p Hn; simpl; [done|].
  apply not_elem_of_cons in Hn as [Hab Hn]. intros [-> (m & Hm & Hc)].
  split; [done|]. exists m. rewrite lookup_insert_ne by done. auto.
Qed.

Lemma chain_delete h p q a : a ∉ q -> chain h p q -> chain (delete a h) p q.
Proof.
  revert p. induction q as [|b q IH]; intros p Hn; simpl; [done|].
  apply not_elem_of_cons in Hn as [Hab Hn]. intros [-> (m & Hm & Hc)].
  split; [done|]. exists m. rewrite lookup_delete_ne by done. auto.
Qed.

(** Linking a fresh node behind the last one appends it to the queue. *)
Lemma chain_snoc h p q t a :
  NoDup (q ++ [t]) -> a ∉ q ++ [t] -> h !! a = Some None ->
  chain h p (q ++ [t]) -> chain (<[t := Some a]> h) p (q ++ [t; a]).
Proof.
  revert p. induction q as [|b q IH]; intros p Hd Ha Hh; simpl in *.
  - intros [-> (n & Hn & ->)]. split; [done|]. exists (Some a).
    split; [apply lookup_insert_eq|]. split; [done|]. exists None.
    split; [|done]. rewrite lookup_insert_ne; [done|]. set_solver.
  - apply NoDup_cons in Hd as [Hb Hd]. intros [-> (n & Hn & Hc)].
    split; [done|]. exists n. split; [|apply IH; set_solver].
    rewrite lookup_insert_ne; [done|]. set_solver.
Qed.

Section laws.
Implicit Types (l : slist) (h : node_heap) (q : list addr).

Lemma slist_repr_init h : slist_repr slist_init h [].
Proof. split; [constructor|done]. Qed.

Lemma slist_repr_head l h a q : slist_repr l h (a :: q) -> m_head l = Some a.
Proof. by intros (_ & [? _] & _). Qed.

Lemma slist_repr_nil l h : slist_repr l h [] -> l = slist_init.
Proof. destruct l. intros (_ & ? & ?); by simplify_eq/=. Qed.

Lemma slist_repr_assert l h q : slist_repr l h q -> assert_state l = true.
Proof.
  unfold assert_state. destruct q as [|a q].
  - by intros ->%slist_repr_nil.
  - intros Hr. rewrite (slist_repr_head l h a q Hr). destruct Hr as (_ & _ & ->).
    rewrite last_cons. apply bool_decide_eq_true. by destruct (last q).
Qed.

Lemma slist_empty_spec l h q :
  slist_repr l h q -> slist_empty l = Ok (bool_decide (q = [])).
Proof.
  intros Hr. unfold slist_empty. rewrite (slist_repr_assert l h q Hr). f_equal.
  destruct q as [|a q].
  - by rewrite (slist_repr_nil l h Hr).
  - by rewrite (slist_repr_head l h a q Hr).
Qed.

Lemma push_back_spec l h q a :
  slist_repr l h q -> a ∉ q -> h !! a = Some None ->
  exists l' h', push_back a l h = Ok (l', h') /\ slist_repr l' h' (q ++ [a]) /\
  forall b, b ∉ q -> h' !! b = h !! b.
Proof.
  intros Hr Ha Hh. pose proof Hr as (Hd & Hc & Ht). unfold push_back.
  rewrite (slist_repr_assert l h q Hr).
  destruct q as [|b q _] using rev_ind.
  - rewrite (slist_repr_nil l h Hr). eexists _, _. split; [done|]. split; [|done].
    split; [apply NoDup_singleton|]. split; [|done]. simpl. eauto.
  - rewrite last_snoc in Ht. rewrite Ht.
    assert (exists hd, m_head l = Some hd) as [hd Hhd].
    { destruct q; simpl in Hc; destruct Hc as [-> _]; eauto. }
    assert (exists n, h !! b = Some n) as [n Hb].
    { clear -Hc. revert Hc. generalize (m_head l). induction q as [|c q IH]; intros p; simpl.
      - intros [_ (n & ? & _)]; eauto.
      - intros [_ (n & _ & Hc)]; eauto. }
    rewrite Hhd, Hb. eexists _, _. split; [done|]. split; [split; [|split]|].
    + apply NoDup_app. split_ands; [done| |apply NoDup_singleton]. set_solver.
    + simpl. rewrite <-app_assoc. rewrite Hhd in Hc. by apply chain_snoc.
    + by rewrite last_snoc.
    + intros c Hcq. rewrite lookup_insert_ne; [done|]. set_solver.
Qed.

Lemma pop_front_spec l h q :
  slist_repr l h q ->
  exists l', pop_front l h = Ok (head q, l') /\ slist_repr l' h (tail q).
Proof.
  intros Hr. pose proof Hr as (Hd & Hc & Ht). unfold pop_front.
  rewrite (slist_repr_assert l h q Hr). destruct q as [|a q].
  - rewrite (slist_repr_nil l h Hr). eexists. split; [done|]. apply slist_repr_init.
  - destruct Hc as [-> (n & -> & Hc)]. apply NoDup_cons in Hd as [_ Hd].
    eexists. split; [done|]. split; [done|split; [done|]]. simpl. rewrite Ht. destruct q as [|b q].
    + by rewrite bool_decide_eq_true_2.
    + destruct Hc as [-> _]. done.
Qed.

(** The move constructor hands the whole queue over. *)
Lemma slist_move_spec l h q :
  slist_repr l h q ->
  slist_repr (slist_move l).1 h q /\ slist_repr (slist_move l).2 h [].
Proof. intros Hr. split; [by destruct l|apply slist_repr_init]. Qed.
End laws.

(** ** The interface a lock and a condition variable use

    A queue of awaiters, each identified by its address.  [q_construct] is the
    construction of an awaiter ([next = nullptr]); [q_destroy] its
    destruction, at the end of the [co_await] expression. *)
Class AwaiterQueue (Q : Type) := {
  q_init : Q;
  q_construct : addr -> Q -> Q;
  q_destroy : addr -> Q -> Q;
  q_push : addr -> Q -> outcome exn Q;
  q_pop : Q -> outcome exn (option addr * Q);
  q_is_empty : Q -> outcome exn bool
}.

(** Its promise: a FIFO queue, as long as the client constructs an awaiter
    before it pushes it, and neither pushes, constructs nor destroys one that
    is in the queue.  [q_repr Q l f]: the queue holds [l], and exactly the
    awaiters [f] are fresh: constructed and not yet pushed. *)
Class AwaiterQueueLaws (Q : Type) `{AwaiterQueue Q} := {
  q_repr : Q -> list addr -> Prop;
  q_fresh : Q -> addr -> Prop;
  q_init_repr : q_repr q_init [];
  q_nodup q l : q_repr q l -> NoDup l;
  q_construct_repr q l a :
    q_repr q l -> a ∉ l ->
    q_repr (q_construct a q) l /\ q_fresh (q_construct a q) a /\
    (forall b, b <> a -> q_fresh q b -> q_fresh (q_construct a q) b);
  q_destroy_repr q l a :
    q_repr q l -> a ∉ l ->
    q_repr (q_destroy a q) l /\ (forall b, b <> a -> q_fresh q b -> q_fresh (q_destroy a q) b);
  q_push_repr q l a :
    q_repr q l -> a ∉ l -> q_fresh q a ->
    exists q', q_push a q = Ok q' /\ q_repr q' (l ++ [a]) /\
      (forall b, b ∉ l -> b <> a -> q_fresh q b -> q_fresh q' b);
  q_pop_repr q l :
    q_repr q l ->
    exists q', q_pop q = Ok (head l, q') /\ q_repr q' (tail l) /\
      (forall b, q_fresh q b -> q_fresh q' b);
  q_is_empty_repr q l : q_repr q l -> q_is_empty q = Ok (bool_decide (l = []))
}.

(** An [slist] with the memory of its nodes implements it. *)
Definition slist_queue : Type := slist * node_heap.

Definition construct_node (a : addr) (q : slist_queue) : slist_queue := (q.1, <[a := None]> q.2).
Definition destroy_node (a : addr) (q : slist_queue) : slist_queue := (q.1, delete a q.2).

#[export] Instance slist_awaiter_queue : AwaiterQueue slist_queue := {
  q_init := (slist_init, ∅);
  q_construct := construct_node;
  q_destroy := destroy_node;
  q_push a q := push_back a q.1 q.2;
  q_pop q := outcome_map (fun r => (r.1, (r.2, q.2))) (pop_front q.1 q.2);
  q_is_empty q := slist_empty q.1
}.

#[export] Program Instance slist_awaiter_queue_laws : AwaiterQueueLaws slist_queue := {
  q_repr q l := slist_repr q.1 q.2 l;
  q_fresh q a := q.2 !! a = Some None
}.
Next Obligation. apply slist_repr_init. Qed.
Next Obligation. by intros q l (? & _). Qed.
Next Obligation.
  intros [s h] l a (Hd & Hc & Ht) Ha. simpl in *. unfold slist_repr. simpl. split_ands.
  - done.
  - by apply chain_insert.
  - done.
  - apply lookup_insert_eq.
  - intros b Hb. by rewrite lookup_insert_ne.
Qed.
Next Obligation.
  intros [s h] l a (Hd & Hc & Ht) Ha. simpl in *. unfold slist_repr. simpl. split_ands.
  - done.
  - by apply chain_delete.
  - done.
  - intros b Hb. by rewrite lookup_delete_ne.
Qed.
Next Obligation.
  intros [s h] l a Hr Ha Hf. simpl in *.
  destruct (push_back_spec s h l a Hr Ha Hf) as (s' & h' & -> & Hr' & Hh).
  exists (s', h'). split_ands; [done|done|]. intros b Hb _ Hfb. simpl. by rewrite Hh.
Qed.
Next Obligation.
  intros [s h] l Hr. simpl in *.
  destruct (pop_front_spec s h l Hr) as (s' & -> & Hr'). by exists (s', h).
Qed.
Next Obligation. intros [s h] l Hr. simpl. by eapply slist_empty_spec. Qed.

(** ** The list against a functional queue *)
Inductive queue_op := op_push (a : addr) | op_pop.

(** A client of the list: every pushed awaiter is constructed first. *)
Fixpoint run_ops (ops : list queue_op) (q : slist_queue) :
    outcome exn (list (option addr) * slist_queue) :=
  match ops with
  | [] => Ok ([], q)
  | op_push a :: ops =>
      match q_push a (construct_node a q) with
      | Ok q => run_ops ops q
      | Throw e => Throw e
      | Abort => Abort
      end
  | op_pop :: ops =>
      match q_pop q with
      | Ok (r, q) => outcome_map (fun p => (r :: p.1, p.2)) (run_ops ops q)
      | Throw e => Throw e
      | Abort => Abort
      end
  end.

(** The same operations on a list; [None]: an awaiter is pushed twice. *)
Fixpoint spec_ops (ops : list queue_op) (l : list addr) : option (list (option addr) * list addr) :=
  match ops with
  | [] => Some ([], l)
  | op_push a :: ops => if decide (a ∈ l) then None else spec_ops ops (l ++ [a])
  | op_pop :: ops => (fun p => (head l :: p.1, p.2)) <$> spec_ops ops (tail l)
  end.

(** The intrusive list is a FIFO queue: for any sequence of pushes and
    pops in which no awaiter is pushed while it is in the list, it returns what
    a functional queue returns, no assertion of [assert_state] fails and no
    dead node is touched. *)
Theorem slist_is_a_queue ops (q : slist_queue) l out l' :
  slist_repr q.1 q.2 l -> spec_ops ops l = Some (out, l') ->
  exists q', run_ops ops q = Ok (out, q') /\ slist_repr q'.1 q'.2 l'.
Proof.
  revert q l out l'. induction ops as [|[a|] ops IH]; intros q l out l' Hr Hs.
  - simpl in *. simplify_eq. eauto.
  - cbn [spec_ops run_ops] in *. destruct (decide (a ∈ l)) as [|Ha]; [done|].
    change (q_repr q l) in Hr.
    destruct (q_construct_repr q l a Hr Ha) as (Hr1 & Hf & _).
    destruct (q_push_repr _ l a Hr1 Ha Hf) as (q1 & E & Hr2 & _). simpl in E |- *. rewrite E. apply (IH q1 _ out l' Hr2 Hs).
  - cbn [spec_ops run_ops] in *. destruct (spec_ops ops (tail l)) as [[o' l1]|] eqn:E; simplify_eq/=.
    change (q_repr q l) in Hr. destruct (q_pop_repr q l Hr) as (q1 & Ep & Hr1 & _). simpl in Ep. rewrite Ep.
    destruct (IH q1 (tail l) o' l' Hr1 E) as (q' & -> & Hq'). eauto.
Qed.

Lemma slist_is_a_queue_witness :
  exists q' : slist_queue,
    run_ops [op_push 1; op_push 2; op_pop; op_push 1; op_pop; op_pop; op_pop] (slist_init, ∅) =
      Ok ([Some 1; Some 2; Some 1; None], q') /\ slist_repr q'.1 q'.2 [].
Proof. by apply (slist_is_a_queue _ (slist_init, ∅) []); [apply slist_repr_init|]. Defined.
