(* ===== verification/AsyncLock.v ===== *)
(** * async_lock and scoped_async_lock

    [include/concurrencpp/threads/async_lock.h] and
    [source/threads/async_lock.cpp].  Any number of coroutines share one
    [async_lock]; each owns one [scoped_async_lock] object.  A coroutine is a
    state machine with one transition per atomic action: taking or releasing
    [m_awaiter_lock], the work of a critical section, the suspension inside
    [async_lock_awaiter::await_suspend], [awaiter->retry()], [resume_on].

    The queue of awaiters is any implementation of [AwaiterQueue]; the awaiter
    of a coroutine is a temporary of its frame, so it is named by the
    coroutine. *)

From stdpp Require Import prelude list functions.
From Stdlib Require Import ZArith.
From S2P Require Import Prelude Errors ConsumerContext Slist.

(** ** scoped_async_lock

    The members, and what each operation does before and after it hands over
    to the [async_lock]. *)
Module scoped_async_lock.
Record t := make { m_lock : option addr; m_owns : bool }.

#[global] Instance t_eq_dec : EqDecision t.
Proof. solve_decision. Defined.

(** The constructors. *)
Definition empty : t := make None false.
Definition defer (lock : addr) : t := make (Some lock) false.
Definition adopt (lock : addr) : t := make (Some lock) true.

(** The move constructor: the new object and what is left of [rhs]. *)
Definition move (rhs : t) : t * t := (make (m_lock rhs) (m_owns rhs), make None false).

(** [lock(resume_executor)] up to the call of [lock_impl]. *)
Definition lock_check (executor_null : bool) (g : t) : outcome exn addr :=
  if executor_null then
    Throw (make_exn invalid_argument k_scoped_async_lock_null_resume_executor_err_msg)
  else
    match m_lock g with
    | None => Throw (make_exn operation_not_permitted k_scoped_async_lock_lock_no_mutex_err_msg)
    | Some l =>
        if m_owns g then
          Throw (make_exn resource_deadlock_would_occur k_scoped_async_lock_lock_deadlock_err_msg)
        else Ok l
    end.

(** [try_lock()] up to the call of [async_lock::try_lock]. *)
Definition try_lock_check (g : t) : outcome exn addr :=
  match m_lock g with
  | None => Throw (make_exn operation_not_permitted k_scoped_async_lock_try_lock_no_mutex_err_msg)
  | Some l =>
      if m_owns g then
        Throw (make_exn resource_deadlock_would_occur k_scoped_async_lock_try_lock_deadlock_err_msg)
      else Ok l
  end.

(** [unlock()] up to the call of [async_lock::unlock]; [Ok None]: nothing to
    do. *)
Definition unlock_check (g : t) : outcome exn (option addr) :=
  if negb (m_owns g) then
    Throw (make_exn operation_not_permitted k_scoped_async_lock_unlock_invalid_lock_err_msg)
  else Ok (m_lock g).

(** [~scoped_async_lock]: the lock it unlocks, if any. *)
Definition destructor_unlocks (g : t) : option addr :=
  if m_owns g then m_lock g else None.

Definition set_owns (b : bool) (g : t) : t := make (m_lock g) b.

Definition owns_lock (g : t) : bool := m_owns g.

Definition swap (lhs rhs : t) : t * t :=
  (make (m_lock rhs) (m_owns rhs), make (m_lock lhs) (m_owns lhs)).

(** [release()]: the object and the returned pointer. *)
Definition release (g : t) : t * option addr := (make None false, m_lock g).

Definition mutex (g : t) : option addr := m_lock g.
End scoped_async_lock.

Notation guard_t := scoped_async_lock.t.

(** ** The coroutines *)

(** What the last call returned to the coroutine. *)
Inductive call_result :=
  | no_result
  | returned (b : bool)       (* true for a void function *)
  | threw (e : exn).

(** Which function called [lock_impl], [try_lock] and [unlock]. *)
Inductive lock_caller := by_lock | by_scoped_lock.
Inductive try_caller := by_try_lock | by_scoped_try_lock.
Inductive unlock_caller := by_unlock | by_scoped_unlock | by_destructor.

Inductive pc :=
  | A_idle (r : call_result)
  (* async_lock::lock_impl; sync is resume_synchronously *)
  | A_lk_mutex (k : lock_caller) (sync : bool)     (* before the unique_lock *)
  | A_lk_check (k : lock_caller) (sync : bool)     (* holds the mutex: if (!m_locked) *)
  | A_lk_unlock (k : lock_caller) (sync : bool)    (* m_locked is true, before lock.unlock() *)
  | A_lk_push (k : lock_caller)                    (* await_suspend: before push_back *)
  | A_lk_park (k : lock_caller)                    (* await_suspend: before ~unique_lock *)
  | A_lk_suspended (k : lock_caller)
  | A_lk_resumed (k : lock_caller)                 (* before ~async_lock_awaiter *)
  | A_lk_resume_on (k : lock_caller)               (* co_await resume_on(resume_executor) *)
  | A_ct_mutex (k : lock_caller) (e : exn)         (* catch (...) *)
  | A_ct_body (k : lock_caller) (e : exn)
  | A_ct_unlock (aw : option addr) (e : exn)
  | A_ct_retry (aw : option addr) (e : exn)
  | A_lk_enter (k : lock_caller)                   (* m_thread_count_in_critical_section *)
  (* async_lock::try_lock *)
  | A_tl_mutex (k : try_caller)
  | A_tl_check (k : try_caller)
  | A_tl_unlock (k : try_caller) (res : bool)
  | A_tl_enter (k : try_caller) (res : bool)
  (* async_lock::unlock *)
  | A_ul_mutex (u : unlock_caller)
  | A_ul_check (u : unlock_caller)
  | A_ul_throw (u : unlock_caller)
  | A_ul_unlock (u : unlock_caller) (aw : option addr)
  | A_ul_retry (u : unlock_caller) (aw : option addr)
  | A_aborted.

(** [raw]: the coroutine owns the lock without a guard ([try_lock] of the
    [async_lock] itself, or [release] of a guard). *)
Record coroutine := make_coroutine { co_pc : pc; guard : guard_t; raw : bool }.

Definition with_pc (p : pc) (c : coroutine) : coroutine := make_coroutine p (guard c) (raw c).
Definition with_guard (p : pc) (g : guard_t) (c : coroutine) : coroutine :=
  make_coroutine p g (raw c).
Definition with_raw (p : pc) (b : bool) (c : coroutine) : coroutine :=
  make_coroutine p (guard c) b.

(** Calls of a coroutine on the lock or on its guard. *)
Inductive call :=
  | call_lock (executor_null : bool)           (* auto g = co_await lock.lock(ex) *)
  | call_try_lock                              (* co_await lock.try_lock() *)
  | call_unlock                                (* lock.unlock(), by its owner *)
  | call_defer                                 (* scoped_async_lock g(lock, defer_lock) *)
  | call_scoped_lock (executor_null : bool)    (* co_await g.lock(ex) *)
  | call_scoped_try_lock                       (* co_await g.try_lock() *)
  | call_scoped_unlock                         (* g.unlock() *)
  | call_release                               (* g.release() *)
  | call_destroy.                              (* ~scoped_async_lock *)

Inductive label :=
  | L_call (i : addr) (c : call)
  | L_act (i : addr)
  | L_interrupted (i : addr).     (* resume_on throws broken_task *)

(** [async_lock::lock]: its check. *)
Definition lock_check (executor_null : bool) : outcome exn unit :=
  if executor_null then Throw (make_exn invalid_argument k_async_lock_null_resume_executor_err_msg)
  else Ok tt.

(** The exception of [async_lock::unlock]. *)
Definition unlock_error : exn :=
  make_exn operation_not_permitted k_async_lock_unlock_invalid_lock_err_msg.

(** The exception of [resume_on_awaitable::await_resume]. *)
Definition interrupted_error : exn := make_exn broken_task k_broken_task_exception_error_msg.

Section async_lock.
Context {Q : Type} `{AwaiterQueue Q}.

(** The address of the lock. *)
Variable this : addr.

Record state := make_state {
  m_awaiter_lock : option addr;      (* who holds the mutex *)
  m_awaiters : Q;
  m_locked : bool;
  m_thread_count_in_critical_section : Z;
  coroutines : addr -> coroutine
}.

Definition init : state :=
  make_state None q_init false 0 (fun _ => make_coroutine (A_idle no_result) scoped_async_lock.empty false).

Definition set_mutex v s := make_state v (m_awaiters s) (m_locked s)
  (m_thread_count_in_critical_section s) (coroutines s).
Definition set_awaiters v s := make_state (m_awaiter_lock s) v (m_locked s)
  (m_thread_count_in_critical_section s) (coroutines s).
Definition set_locked v s := make_state (m_awaiter_lock s) (m_awaiters s) v
  (m_thread_count_in_critical_section s) (coroutines s).
Definition set_count v s := make_state (m_awaiter_lock s) (m_awaiters s) (m_locked s)
  v (coroutines s).
Definition set_coroutine i c s := make_state (m_awaiter_lock s) (m_awaiters s) (m_locked s)
  (m_thread_count_in_critical_section s) (<[i := c]> (coroutines s)).

Definition goto (i : addr) (p : pc) (s : state) : state :=
  set_coroutine i (with_pc p (coroutines s i)) s.

Definition fault (i : addr) (s : state) : state := goto i A_aborted s.

(** [std::unique_lock lock(m_awaiter_lock)]: blocks while somebody holds it. *)
Definition acquire (i : addr) (next : pc) (s : state) : option state :=
  match m_awaiter_lock s with
  | None => Some (goto i next (set_mutex (Some i) s))
  | Some _ => None
  end.

(** [lock.unlock()], or the destructor of the [unique_lock]. *)
Definition release_mutex (i : addr) (next : pc) (s : state) : state :=
  goto i next (set_mutex None s).

(** The debug counter: [fetch_add] or [fetch_sub] and its assertion. *)
Definition count_step (i : addr) (delta expected : Z) (k : state -> state) (s : state) : state :=
  if (m_thread_count_in_critical_section s =? expected)%Z
  then k (set_count (m_thread_count_in_critical_section s + delta) s)
  else fault i s.

(** [m_locked = false; awaiter = m_awaiters.pop_front()]; [next] gets the
    awaiter. *)
Definition unlock_and_pop (i : addr) (next : option addr -> pc) (s : state) : state :=
  match q_pop (m_awaiters s) with
  | Ok (aw, q) => goto i (next aw) (set_awaiters q (set_locked false s))
  | _ => fault i s
  end.

(** [if (awaiter != nullptr) awaiter->retry()]: resumes the coroutine of the
    awaiter, which must be suspended. *)
Definition retry (i : addr) (aw : option addr) (next : state -> state) (s : state) : state :=
  match aw with
  | None => next s
  | Some a =>
      match co_pc (coroutines s a) with
      | A_lk_suspended k => next (goto a (A_lk_resumed k) s)
      | _ => fault i s
      end
  end.

(** *** [async_lock::lock_impl] *)
Definition lock_return (i : addr) (k : lock_caller) (s : state) : state :=
  let c := coroutines s i in
  match k with
  | by_lock =>         (* co_return scoped_async_lock( *this, std::adopt_lock) *)
      set_coroutine i (with_guard (A_idle (returned true)) (scoped_async_lock.adopt this) c) s
  | by_scoped_lock =>  (* co_return scoped_async_lock( *this, std::defer_lock); m_owns = true *)
      set_coroutine i (with_guard (A_idle (returned true)) (scoped_async_lock.set_owns true (guard c)) c) s
  end.

Definition lock_impl_step (i : addr) (p : pc) (s : state) : option state :=
  match p with
  | A_lk_mutex k sync => acquire i (A_lk_check k sync) s
  | A_lk_check k sync =>
      Some (if m_locked s
            then goto i (A_lk_push k) (set_awaiters (q_construct i (m_awaiters s)) s)
            else goto i (A_lk_unlock k sync) (set_locked true s))
  | A_lk_unlock k sync =>
      Some (release_mutex i (if sync then A_lk_enter k else A_lk_resume_on k) s)
  | A_lk_push k =>
      Some match q_push i (m_awaiters s) with
           | Ok q => goto i (A_lk_park k) (set_awaiters q s)
           | _ => fault i s
           end
  | A_lk_park k => Some (release_mutex i (A_lk_suspended k) s)
  | A_lk_resumed k =>
      Some (goto i (A_lk_mutex k false) (set_awaiters (q_destroy i (m_awaiters s)) s))
  | A_lk_resume_on k => Some (goto i (A_lk_enter k) s)
  | A_ct_mutex k e => acquire i (A_ct_body k e) s
  | A_ct_body k e =>
      Some (if m_locked s then unlock_and_pop i (fun aw => A_ct_unlock aw e) s else fault i s)
  | A_ct_unlock aw e => Some (release_mutex i (A_ct_retry aw e) s)
  | A_ct_retry aw e => Some (retry i aw (goto i (A_idle (threw e))) s)
  | A_lk_enter k => Some (count_step i 1 0 (lock_return i k) s)
  | _ => None
  end.

(** *** [async_lock::try_lock] *)
Definition try_lock_return (i : addr) (k : try_caller) (res : bool) (s : state) : state :=
  let c := coroutines s i in
  match k with
  | by_try_lock => set_coroutine i (with_raw (A_idle (returned res)) (res || raw c) c) s
  | by_scoped_try_lock =>
      set_coroutine i (with_guard (A_idle (returned res)) (scoped_async_lock.set_owns res (guard c)) c) s
  end.

Definition try_lock_step (i : addr) (p : pc) (s : state) : option state :=
  match p with
  | A_tl_mutex k => acquire i (A_tl_check k) s
  | A_tl_check k =>
      Some (if m_locked s then goto i (A_tl_unlock k false) s
            else goto i (A_tl_unlock k true) (set_locked true s))
  | A_tl_unlock k res => Some (release_mutex i (A_tl_enter k res) s)
  | A_tl_enter k res =>
      Some (if res then count_step i 1 0 (try_lock_return i k true) s
            else try_lock_return i k false s)
  | _ => None
  end.

(** *** [async_lock::unlock] *)
Definition unlock_return (i : addr) (u : unlock_caller) (s : state) : state :=
  let c := coroutines s i in
  match u with
  | by_unlock => goto i (A_idle (returned true)) s
  | by_scoped_unlock =>
      set_coroutine i (with_guard (A_idle (returned true)) (scoped_async_lock.set_owns false (guard c)) c) s
  | by_destructor =>
      set_coroutine i (with_guard (A_idle (returned true)) scoped_async_lock.empty c) s
  end.

Definition unlock_step (i : addr) (p : pc) (s : state) : option state :=
  match p with
  | A_ul_mutex u => acquire i (A_ul_check u) s
  | A_ul_check u =>
      Some (if m_locked s then
              count_step i (-1) 1 (unlock_and_pop i (A_ul_unlock u)) (set_locked false s)
            else goto i (A_ul_throw u) s)
  | A_ul_throw u =>
      (* throw; ~scoped_async_lock is noexcept *)
      Some (release_mutex i
              match u with by_destructor => A_aborted | _ => A_idle (threw unlock_error) end s)
  | A_ul_unlock u aw => Some (release_mutex i (A_ul_retry u aw) s)
  | A_ul_retry u aw => Some (retry i aw (unlock_return i u) s)
  | _ => None
  end.

Definition act_step (i : addr) (s : state) : option state :=
  match co_pc (coroutines s i) with
  | A_idle _ | A_lk_suspended _ | A_aborted => None
  | (A_tl_mutex _ | A_tl_check _ | A_tl_unlock _ _ | A_tl_enter _ _) as p => try_lock_step i p s
  | (A_ul_mutex _ | A_ul_check _ | A_ul_throw _ | A_ul_unlock _ _ | A_ul_retry _ _) as p =>
      unlock_step i p s
  | p => lock_impl_step i p s
  end.

(** *** Calls

    A coroutine has one guard: [call_lock] and [call_defer] construct it, so
    they need an empty one.  [call_unlock] on the lock itself is a call of its
    owner. *)
Definition start {A} (i : addr) (o : outcome exn A) (next : A -> pc) (s : state) : option state :=
  match o with
  | Ok a => Some (goto i (next a) s)
  | Throw e => Some (goto i (A_idle (threw e)) s)
  | Abort => Some (fault i s)
  end.

Definition no_guard (c : coroutine) : bool := bool_decide (guard c = scoped_async_lock.empty).

Definition call_step (i : addr) (c : call) (s : state) : option state :=
  let co := coroutines s i in
  match co_pc co with
  | A_idle _ =>
      match c with
      | call_lock null =>
          if no_guard co then start i (lock_check null) (fun _ => A_lk_mutex by_lock true) s else None
      | call_try_lock => Some (goto i (A_tl_mutex by_try_lock) s)
      | call_unlock =>
          if raw co then Some (set_coroutine i (with_raw (A_ul_mutex by_unlock) false co) s) else None
      | call_defer =>
          if no_guard co then
            Some (set_coroutine i (with_guard (A_idle no_result) (scoped_async_lock.defer this) co) s)
          else None
      | call_scoped_lock null =>
          start i (scoped_async_lock.lock_check null (guard co)) (fun _ => A_lk_mutex by_scoped_lock true) s
      | call_scoped_try_lock =>
          start i (scoped_async_lock.try_lock_check (guard co)) (fun _ => A_tl_mutex by_scoped_try_lock) s
      | call_scoped_unlock =>
          start i (scoped_async_lock.unlock_check (guard co))
            (fun l => match l with Some _ => A_ul_mutex by_scoped_unlock | None => A_idle (returned true) end) s
      | call_release =>
          Some (set_coroutine i
                  (make_coroutine (A_idle (returned true)) (scoped_async_lock.release (guard co)).1
                     (scoped_async_lock.owns_lock (guard co) || raw co)) s)
      | call_destroy =>
          match scoped_async_lock.destructor_unlocks (guard co) with
          | Some _ => Some (goto i (A_ul_mutex by_destructor) s)
          | None => Some (set_coroutine i (with_guard (A_idle (returned true)) scoped_async_lock.empty co) s)
          end
      end
  | _ => None
  end.

Definition step (l : label) (s : state) : option state :=
  match l with
  | L_call i c => call_step i c s
  | L_act i => act_step i s
  | L_interrupted i =>
      match co_pc (coroutines s i) with
      | A_lk_resume_on k => Some (goto i (A_ct_mutex k interrupted_error) s)
      | _ => None
      end
  end.

(** [~async_lock]: the debug assertion. *)
Definition destroy_lock (s : state) : outcome exn unit := if m_locked s then Abort else Ok tt.
End async_lock.
Arguments state : clear implicits.
