(* ===== verification/AsyncLockProps.v ===== *)
(** * async_lock: the invariant

    Three parts, each about one way to look at a coroutine: does it hold the
    mutex, does it own the lock, and what is its role in the queue of
    awaiters. *)

From Stdlib Require Import ZArith.
From stdpp Require Import prelude list functions.
From S2P Require Import Prelude Errors ConsumerContext Slist AsyncLock.

(** ** Three views of a coroutine *)

(** It holds [m_awaiter_lock]. *)
Definition holds (p : pc) : bool :=
  match p with
  | A_lk_check _ _ | A_lk_unlock _ _ | A_lk_push _ | A_lk_park _ | A_ct_body _ _ | A_ct_unlock _ _
  | A_tl_check _ | A_tl_unlock _ _ | A_ul_check _ | A_ul_throw _ | A_ul_unlock _ _ => true
  | _ => false
  end.

(** It has locked the lock, and has not yet entered the critical section. *)
Definition entering (p : pc) : bool :=
  match p with
  | A_lk_unlock _ _ | A_lk_resume_on _ | A_ct_mutex _ _ | A_ct_body _ _ | A_lk_enter _ => true
  | A_tl_unlock _ res | A_tl_enter _ res => res
  | _ => false
  end.

(** Its guard is about to be told that the lock is unlocked. *)
Definition released (p : pc) : bool :=
  match p with
  | A_ul_unlock (by_scoped_unlock | by_destructor) _
  | A_ul_retry (by_scoped_unlock | by_destructor) _ => true
  | _ => false
  end.

Definition unlocking (p : pc) : bool :=
  match p with A_ul_mutex by_unlock | A_ul_check by_unlock => true | _ => false end.

(** The number of ways in which the coroutine is in the critical section. *)
Definition inside (c : coroutine) : nat :=
  Nat.b2n (raw c) +
  Nat.b2n (scoped_async_lock.m_owns (guard c) && negb (released (co_pc c))) +
  Nat.b2n (unlocking (co_pc c)).

Definition owns (c : coroutine) : nat := Nat.b2n (entering (co_pc c)) + inside c.

(** Its role in the queue. *)
Inductive queue_role :=
  | r_none
  | r_active               (* will look at m_locked *)
  | r_push | r_park | r_suspended
  | r_wake (a : addr).     (* will resume the awaiter of a *)

Definition role (p : pc) : queue_role :=
  match p with
  | A_lk_mutex _ _ | A_lk_check _ _ | A_lk_resumed _ => r_active
  | A_lk_push _ => r_push
  | A_lk_park _ => r_park
  | A_lk_suspended _ => r_suspended
  | A_ct_unlock (Some a) _ | A_ct_retry (Some a) _ | A_ul_unlock _ (Some a) | A_ul_retry _ (Some a) =>
      r_wake a
  | _ => r_none
  end.

Definition promotes (r : queue_role) : bool :=
  match r with r_active | r_wake _ => true | _ => false end.

(** What a program counter says about the guard. *)
Definition pc_ok (c : coroutine) : Prop :=
  match co_pc c with
  | A_ul_mutex (by_scoped_unlock | by_destructor) | A_ul_check (by_scoped_unlock | by_destructor) =>
      scoped_async_lock.m_owns (guard c) = true
  | A_tl_mutex by_scoped_try_lock | A_tl_check by_scoped_try_lock
  | A_tl_unlock by_scoped_try_lock _ | A_tl_enter by_scoped_try_lock _ =>
      scoped_async_lock.m_owns (guard c) = false
  | A_ul_throw _ | A_aborted => False
  | _ => True
  end.

Section invariant.
Context {Q : Type} `{AwaiterQueueLaws Q}.
Implicit Types s : state Q.
Notation co := coroutines.
Notation role_of s i := (role (co_pc (co s i))).

(** Only coroutine [i] differs. *)
Definition only (i : addr) s s' : Prop := forall j, j <> i -> co s' j = co s j.

(** ** The mutex *)
Definition mutex_inv s : Prop :=
  forall i, holds (co_pc (co s i)) = bool_decide (m_awaiter_lock s = Some i).

Lemma mutex_keep s s' i :
  mutex_inv s -> only i s s' -> m_awaiter_lock s' = m_awaiter_lock s ->
  holds (co_pc (co s' i)) = holds (co_pc (co s i)) -> mutex_inv s'.
Proof.
  intros Hm Ho E Hh j. rewrite E. destruct (decide (j = i)) as [->|Hj].
  - by rewrite Hh.
  - by rewrite Ho.
Qed.

Lemma mutex_acquire s s' i :
  mutex_inv s -> only i s s' -> m_awaiter_lock s = None -> m_awaiter_lock s' = Some i ->
  holds (co_pc (co s' i)) = true -> mutex_inv s'.
Proof.
  intros Hm Ho E E' Hh j. rewrite E'. destruct (decide (j = i)) as [->|Hj].
  - by rewrite Hh, bool_decide_eq_true_2.
  - rewrite Ho, Hm, E by done. rewrite !bool_decide_eq_false_2; naive_solver.
Qed.

Lemma mutex_release s s' i :
  mutex_inv s -> only i s s' -> holds (co_pc (co s i)) = true -> m_awaiter_lock s' = None ->
  holds (co_pc (co s' i)) = false -> mutex_inv s'.
Proof.
  intros Hm Ho E E' Hh j. rewrite E'. destruct (decide (j = i)) as [->|Hj].
  - by rewrite Hh.
  - rewrite Ho, Hm by done. rewrite Hm in E. apply bool_decide_eq_true_1 in E. rewrite E.
    rewrite !bool_decide_eq_false_2; naive_solver.
Qed.

(** ** Ownership: [o] is the owner *)
Definition own_inv s (o : option addr) : Prop :=
  (forall i, owns (co s i) = if decide (o = Some i) then 1 else 0) /\
  m_locked s = (if o then true else false) /\
  m_thread_count_in_critical_section s =
    match o with Some i => Z.of_nat (inside (co s i)) | None => 0%Z end.

Lemma own_move s s' i o :
  own_inv s o -> only i s s' -> owns (co s' i) = owns (co s i) -> m_locked s' = m_locked s ->
  m_thread_count_in_critical_section s' =
    (m_thread_count_in_critical_section s + Z.of_nat (inside (co s' i)) - Z.of_nat (inside (co s i)))%Z ->
  own_inv s' o.
Proof.
  intros (Ho & Hl & Hc) Hi E1 E2 E3. unfold own_inv; split_ands.
  - intros j. destruct (decide (j = i)) as [->|Hj]; [by rewrite E1|by rewrite Hi].
  - by rewrite E2.
  - rewrite E3, Hc. pose proof (Ho i) as Hoi. unfold owns in *. destruct o as [j|].
    + destruct (decide (j = i)) as [->|Hj]; [lia|]. rewrite (Hi j) by done.
      rewrite decide_False in Hoi by congruence. lia.
    + rewrite decide_False in Hoi by congruence. lia.
Qed.

Lemma own_take s s' i o :
  own_inv s o -> only i s s' -> m_locked s = false -> m_locked s' = true ->
  owns (co s' i) = S (owns (co s i)) -> inside (co s' i) = inside (co s i) ->
  m_thread_count_in_critical_section s' = m_thread_count_in_critical_section s ->
  own_inv s' (Some i).
Proof.
  intros (Ho & Hl & Hc) Hi E1 E2 E3 E4 E5. destruct o as [?|]; [congruence|].
  pose proof (Ho i) as Hoi. rewrite decide_False in Hoi by congruence. unfold own_inv; split_ands.
  - intros j. destruct (decide (j = i)) as [->|Hj].
    + rewrite decide_True by done. lia.
    + rewrite Hi, Ho, !decide_False by congruence. done.
  - done.
  - rewrite E5, Hc. unfold owns in *. lia.
Qed.

Lemma own_drop s s' i o :
  own_inv s o -> only i s s' -> m_locked s' = false -> owns (co s i) = S (owns (co s' i)) ->
  m_thread_count_in_critical_section s' =
    (m_thread_count_in_critical_section s - Z.of_nat (inside (co s i)))%Z ->
  own_inv s' None.
Proof.
  intros (Ho & Hl & Hc) Hi E2 E3 E5. pose proof (Ho i) as Hoi.
  destruct (decide (o = Some i)) as [->|]; [|lia]. unfold own_inv; split_ands.
  - intros j. destruct (decide (j = i)) as [->|Hj].
    + rewrite decide_False by done. lia.
    + rewrite Hi, Ho, !decide_False by congruence. done.
  - done.
  - rewrite E5, Hc. lia.
Qed.

Lemma own_zero s o i : own_inv s o -> m_locked s = false -> owns (co s i) = 0.
Proof. intros (Ho & Hl & _) E. destruct o; [congruence|]. by rewrite Ho. Qed.

(** The owner knows the values of the flag and of the debug counter. *)
Lemma own_known s o i :
  own_inv s o -> 0 < owns (co s i) ->
  owns (co s i) = 1 /\ m_locked s = true /\
  m_thread_count_in_critical_section s = Z.of_nat (inside (co s i)).
Proof.
  intros (Ho & Hl & Hc) Hi. pose proof (Ho i) as E. rewrite E in Hi |- *.
  destruct (decide (o = Some i)) as [->|]; [done|lia].
Qed.

(** ** The queue *)
Definition role_inv s (l : list addr) : Prop :=
  forall i, match role_of s i with
    | r_push => q_fresh (m_awaiters s) i /\ m_locked s = true /\ i ∉ l
    | r_park => i ∈ l
    | r_suspended => i ∈ l \/ exists j, role_of s j = r_wake i
    | r_wake a => a ∉ l /\ role_of s a = r_suspended /\ i ∉ l
    | r_none | r_active => i ∉ l
    end.

Definition wake_inv s : Prop :=
  forall i j a, role_of s i = r_wake a -> role_of s j = r_wake a -> i = j.

(** No wake-up is lost: when the lock is free and somebody waits, somebody is
    on the way. *)
Definition live_inv s (l : list addr) : Prop :=
  m_locked s = false -> l = [] \/ exists j, promotes (role_of s j) = true.

Definition queue_inv s (l : list addr) : Prop :=
  q_repr (m_awaiters s) l /\ role_inv s l /\ wake_inv s /\ live_inv s l.

Definition inv s : Prop :=
  mutex_inv s /\ (exists o, own_inv s o) /\ (exists l, queue_inv s l) /\ forall i, pc_ok (co s i).

Lemma lock_inv_init : inv init.
Proof.
  unfold inv; split_ands.
  - intros i. done.
  - exists None. done.
  - exists []. unfold queue_inv; split_ands; [apply q_init_repr|intros i; simpl; set_solver|done|by left].
  - done.
Qed.
(** *** How the queue changes *)
Lemma role_others s s' i j : only i s s' -> j <> i -> role_of s' j = role_of s j.
Proof. intros Ho Hj. by rewrite Ho. Qed.

Lemma promotes_still s s' i :
  only i s s' -> (promotes (role_of s i) = true -> promotes (role_of s' i) = true) ->
  (exists j, promotes (role_of s j) = true) -> exists j, promotes (role_of s' j) = true.
Proof.
  intros Ho Hi [j Hj]. exists j. destruct (decide (j = i)) as [->|Hji]; [auto|].
  by rewrite (role_others s s' i j).
Qed.

(** A coroutine that has not to do with the queue, and that did not suspend,
    moves on. *)
Lemma queue_relabel s s' l i :
  queue_inv s l -> only i s s' -> m_awaiters s' = m_awaiters s ->
  role_of s i = r_none \/ role_of s i = r_active ->
  role_of s' i = r_none \/ role_of s' i = r_active ->
  (m_locked s' = true \/ (m_locked s' = m_locked s /\ (role_of s i = r_none \/ role_of s' i = r_active))) ->
  queue_inv s' l.
Proof.
  intros (Hq & Hr & Hw & Hl) Ho Ha Hi Hi' Hk. unfold queue_inv. split_ands.
  - by rewrite Ha.
  - intros j. destruct (decide (j = i)) as [->|Hj].
    + pose proof (Hr i) as Hri. destruct Hi as [E|E], Hi' as [E'|E']; by rewrite E' ; rewrite E in Hri.
    + pose proof (Hr j) as Hrj. rewrite (role_others s s' i j), Ha by done.
      destruct (role_of s j) as [| | | | |a] eqn:Ej; try done.
      * destruct Hrj as (?&?&?). split_ands; [done|naive_solver|done].
      * destruct Hrj as [?|[k Hk']]; [by left|right]. exists k.
        rewrite (role_others s s' i k); [done..|]. naive_solver congruence.
      * destruct Hrj as (?&?&?). split_ands; [done| |done].
        rewrite (role_others s s' i a); [done..|]. naive_solver congruence.
  - intros j k a Hj Hk'.
    assert (j <> i) by naive_solver congruence. assert (k <> i) by naive_solver congruence.
    apply (Hw j k a); by rewrite <-(role_others s s' i).
  - intros E. destruct Hk as [Hk|[Hk1 Hk2]]; [congruence|].
    destruct Hl as [?|?]; [congruence|by left|right].
    eapply (promotes_still s s' i); [done| |done]. destruct Hk2 as [E2|E2]; rewrite E2; done.
Qed.

(** A coroutine keeps its role. *)
Lemma queue_same s s' l i :
  queue_inv s l -> only i s s' -> m_awaiters s' = m_awaiters s -> m_locked s' = m_locked s ->
  role_of s' i = role_of s i -> queue_inv s' l.
Proof.
  intros (Hq & Hr & Hw & Hl) Ho Ha Hk Hi.
  assert (Hall : forall j, role_of s' j = role_of s j).
  { intros j. destruct (decide (j = i)) as [->|]; [done|by eapply role_others]. }
  unfold queue_inv. split_ands.
  - by rewrite Ha.
  - intros j. pose proof (Hr j) as Hrj. rewrite (Hall j), Ha, Hk.
    destruct (role_of s j); rewrite ?Hall; try done.
    destruct Hrj as [|[k ?]]; [by left|right]. exists k. by rewrite Hall.
  - intros j k a. rewrite !Hall. apply Hw.
  - unfold live_inv. rewrite Hk. intros E. destruct (Hl E) as [|[j ?]]; [by left|right]. exists j. by rewrite Hall.
Qed.

(** [async_lock_awaiter( *this, lock)]: the awaiter is constructed. *)
Lemma queue_construct s s' l i :
  queue_inv s l -> only i s s' -> m_awaiters s' = q_construct i (m_awaiters s) ->
  m_locked s = true -> m_locked s' = true ->
  role_of s i = r_active -> role_of s' i = r_push -> queue_inv s' l.
Proof.
  intros (Hq & Hr & Hw & Hl) Ho Ha Hk Hk' Hi Hi'. pose proof (Hr i) as Hri. rewrite Hi in Hri.
  destruct (q_construct_repr _ l i Hq Hri) as (Hq' & Hf & Hfo).
  unfold queue_inv. split_ands.
  - by rewrite Ha.
  - intros j. destruct (decide (j = i)) as [->|Hj]; [by rewrite Hi', Ha|].
    pose proof (Hr j) as Hrj. rewrite (role_others s s' i j), Ha by done.
    destruct (role_of s j) as [| | | | |a] eqn:Ej; try done.
    + destruct Hrj as (?&?&?). eauto.
    + destruct Hrj as [?|[k Hk2]]; [by left|right]. exists k.
      rewrite (role_others s s' i k); [done..|]. naive_solver congruence.
    + destruct Hrj as (?&?&?). split_ands; [done| |done].
      rewrite (role_others s s' i a); [done..|]. naive_solver congruence.
  - intros j k a Hj Hk2.
    assert (j <> i) by naive_solver congruence. assert (k <> i) by naive_solver congruence.
    apply (Hw j k a); by rewrite <-(role_others s s' i).
  - unfold live_inv. congruence.
Qed.
(** [m_awaiters.push_back( *this)]. *)
Lemma queue_push s s' l i :
  queue_inv s l -> only i s s' -> m_locked s' = m_locked s ->
  role_of s i = r_push -> role_of s' i = r_park ->
  q_push i (m_awaiters s) = Ok (m_awaiters s') ->
  (forall j, role_of s j = r_push -> j = i) ->
  queue_inv s' (l ++ [i]).
Proof.
  intros (Hq & Hr & Hw & Hl) Ho Hk Hi Hi' Hp Hone. pose proof (Hr i) as Hri. rewrite Hi in Hri.
  destruct Hri as (Hf & Hlk & Hin).
  destruct (q_push_repr _ l i Hq Hin Hf) as (q' & E & Hq' & Hfo).
  rewrite E in Hp. injection Hp as ->. unfold queue_inv. split_ands.
  - done.
  - assert (Hout : forall x, x <> i -> x ∉ l -> x ∉ l ++ [i]).
    { intros x Hx Hxl [?|?%list_elem_of_singleton]%elem_of_app; done. }
    assert (Hinl : forall x, x ∈ l -> x ∈ l ++ [i]) by (intros; apply elem_of_app; by left).
    intros j. destruct (decide (j = i)) as [->|Hj].
    { rewrite Hi'. apply elem_of_app. right. by left. }
    pose proof (Hr j) as Hrj. rewrite (role_others s s' i j) by done.
    destruct (role_of s j) as [| | | | |a] eqn:Ej; auto.
    + by destruct (Hj (Hone j Ej)).
    + destruct Hrj as [?|[k Hk2]]; [left; auto|right]. exists k.
      rewrite (role_others s s' i k); [done..|]. naive_solver congruence.
    + destruct Hrj as (?&Ea&?). assert (a <> i) by (intros ->; congruence). split_ands; auto.
      by rewrite (role_others s s' i a).
  - intros j k a Hj Hk2.
    assert (j <> i) by naive_solver congruence. assert (k <> i) by naive_solver congruence.
    apply (Hw j k a); by rewrite <-(role_others s s' i).
  - unfold live_inv. congruence.
Qed.

(** The mutex is released: the awaiter is suspended. *)
Lemma queue_park s s' l i :
  queue_inv s l -> only i s s' -> m_awaiters s' = m_awaiters s -> m_locked s' = m_locked s ->
  role_of s i = r_park -> role_of s' i = r_suspended -> queue_inv s' l.
Proof.
  intros (Hq & Hr & Hw & Hl) Ho Ha Hk Hi Hi'. unfold queue_inv. split_ands.
  - by rewrite Ha.
  - intros j. destruct (decide (j = i)) as [->|Hj].
    + rewrite Hi'. left. pose proof (Hr i) as Hri. by rewrite Hi in Hri.
    + pose proof (Hr j) as Hrj. rewrite (role_others s s' i j), Ha, Hk by done.
      destruct (role_of s j) as [| | | | |a] eqn:Ej; try done.
      * destruct Hrj as [?|[k Hk2]]; [by left|right]. exists k.
        rewrite (role_others s s' i k); [done..|]. naive_solver congruence.
      * destruct Hrj as (?&?&?). split_ands; [done| |done].
        rewrite (role_others s s' i a); [done..|]. naive_solver congruence.
  - intros j k a Hj Hk2.
    assert (j <> i) by naive_solver congruence. assert (k <> i) by naive_solver congruence.
    apply (Hw j k a); by rewrite <-(role_others s s' i).
  - unfold live_inv. rewrite Hk. intros E. destruct (Hl E) as [|Hp]; [by left|right].
    eapply (promotes_still s s' i); [done| |done]. by rewrite Hi.
Qed.

(** [m_locked = false; awaiter = m_awaiters.pop_front()]. *)
Lemma queue_pop s s' l i :
  queue_inv s l -> only i s s' -> role_of s i = r_none ->
  role_of s' i = match head l with Some a => r_wake a | None => r_none end ->
  q_pop (m_awaiters s) = Ok (head l, m_awaiters s') ->
  (forall j, role_of s j <> r_push /\ role_of s j <> r_park) ->
  queue_inv s' (tail l).
Proof.
  intros (Hq & Hr & Hw & Hl) Ho Hi Hi' Hp Hno. pose proof (Hr i) as Hri. rewrite Hi in Hri.
  destruct (q_pop_repr _ l Hq) as (q' & E & Hq' & _).
  rewrite E in Hp. injection Hp as Eq. rewrite Eq in Hq'.
  pose proof (q_nodup _ l Hq) as Hd.
  destruct l as [|a l]; simpl in *.
  { unfold queue_inv. split_ands; [done| | |by intros ?; left].
    - intros j. destruct (decide (j = i)) as [->|Hj]; [rewrite Hi'; set_solver|].
      pose proof (Hr j) as Hrj. rewrite (role_others s s' i j) by done.
      destruct (role_of s j) as [| | | | |b] eqn:Ej; try done.
      + by destruct (Hno j).
      + destruct Hrj as [?|[k Hk2]]; [by left|right]. exists k.
        rewrite (role_others s s' i k); [done..|]. naive_solver congruence.
      + destruct Hrj as (?&?&?). split_ands; [done| |done].
        rewrite (role_others s s' i b); [done..|]. naive_solver congruence.
    - intros j k b Hj Hk2.
      assert (j <> i) by naive_solver congruence. assert (k <> i) by naive_solver congruence.
      apply (Hw j k b); by rewrite <-(role_others s s' i). }
  apply list.NoDup_cons in Hd as [Hal Hd]. apply not_elem_of_cons in Hri as [Hia Hil].
  assert (Ha : role_of s a = r_suspended).
  { pose proof (Hr a) as Hra. destruct (Hno a).
    assert (a ∈ a :: l) by left. destruct (role_of s a) eqn:Er; try done; by destruct Hra as (?&?&?). }
  unfold queue_inv. split_ands; [done| | |].
  - intros j. destruct (decide (j = i)) as [->|Hj].
    { rewrite Hi'. split_ands; [done| |done]. by rewrite (role_others s s' i a). }
    pose proof (Hr j) as Hrj. rewrite (role_others s s' i j) by done.
    destruct (role_of s j) as [| | | | |b] eqn:Ej.
    + by apply not_elem_of_cons in Hrj as [_ ?].
    + by apply not_elem_of_cons in Hrj as [_ ?].
    + by destruct (Hno j).
    + by destruct (Hno j).
    + destruct Hrj as [[->|?]%elem_of_cons|[k Hk2]]; [right; by exists i|by left|right].
      exists k. rewrite (role_others s s' i k); [done..|]. intros ->. by rewrite Hi in Hk2.
    + destruct Hrj as ([_ ?]%not_elem_of_cons&Eb&[_ ?]%not_elem_of_cons).
      split_ands; [done| |done]. rewrite (role_others s s' i b); [done..|]. intros ->. congruence.
  - assert (Hna : forall j, j <> i -> role_of s' j <> r_wake a).
    { intros j Hj Ej. rewrite (role_others s s' i j) in Ej by done.
      pose proof (Hr j) as Hrj. rewrite Ej in Hrj. destruct Hrj as (Hn&_). apply Hn. left. }
    intros j k b Hj Hk2. destruct (decide (j = i)) as [->|Hji], (decide (k = i)) as [->|Hki].
    + done.
    + rewrite Hi' in Hj. simplify_eq. by destruct (Hna k).
    + rewrite Hi' in Hk2. simplify_eq. by destruct (Hna j).
    + apply (Hw j k b); by rewrite <-(role_others s s' i).
  - intros _. right. exists i. by rewrite Hi'.
Qed.

(** [awaiter->retry()]. *)
Lemma queue_wake s s' l i a :
  queue_inv s l -> (forall j, j <> i -> j <> a -> co s' j = co s j) -> i <> a ->
  m_awaiters s' = m_awaiters s -> m_locked s' = m_locked s ->
  role_of s i = r_wake a -> role_of s' i = r_none -> role_of s' a = r_active ->
  queue_inv s' l.
Proof.
  intros (Hq & Hr & Hw & Hl) Ho Hia Ha Hk Hi Hi' Haa. pose proof (Hr i) as Hri. rewrite Hi in Hri.
  destruct Hri as (Hal & Hsa & Hil).
  assert (Hoth : forall j, j <> i -> j <> a -> role_of s' j = role_of s j).
  { intros. by rewrite Ho. }
  unfold queue_inv. split_ands.
  - by rewrite Ha.
  - intros j. destruct (decide (j = i)) as [->|Hj]; [by rewrite Hi'|].
    destruct (decide (j = a)) as [->|Hja]; [by rewrite Haa|].
    pose proof (Hr j) as Hrj. rewrite (Hoth j), Ha, Hk by done.
    destruct (role_of s j) as [| | | | |b] eqn:Ej; try done.
    + destruct Hrj as [?|[k Hk2]]; [by left|right]. exists k.
      rewrite Hoth; [done|naive_solver congruence..].
    + destruct Hrj as (?&Eb&?). split_ands; [done| |done].
      assert (b <> a) by (intros ->; apply Hj; by eapply Hw).
      rewrite Hoth; [done|naive_solver congruence|done].
  - assert (Hback : forall j b, role_of s' j = r_wake b -> role_of s j = r_wake b).
    { intros j b Hj. rewrite <-Hoth; [done|naive_solver congruence..]. }
    intros j k b Hj%Hback Hk2%Hback. by eapply Hw.
  - intros _. right. exists a. by rewrite Haa.
Qed.

(** [~async_lock_awaiter]. *)
Lemma queue_destroy s s' l i :
  queue_inv s l -> only i s s' -> m_awaiters s' = q_destroy i (m_awaiters s) ->
  m_locked s' = m_locked s -> role_of s i = r_active -> role_of s' i = r_active -> queue_inv s' l.
Proof.
  intros (Hq & Hr & Hw & Hl) Ho Ha Hk Hi Hi'. pose proof (Hr i) as Hri. rewrite Hi in Hri.
  destruct (q_destroy_repr _ l i Hq Hri) as (Hq' & Hfo).
  assert (Hall : forall j, role_of s' j = role_of s j).
  { intros j. destruct (decide (j = i)) as [->|]; [congruence|by eapply role_others]. }
  unfold queue_inv. split_ands.
  - by rewrite Ha.
  - intros j. pose proof (Hr j) as Hrj. rewrite (Hall j), Ha, Hk.
    destruct (role_of s j) eqn:Ej; rewrite ?Hall; try done.
    + destruct Hrj as (?&?&?). split_ands; [apply Hfo; [congruence|done]|done|done].
    + destruct Hrj as [|[k ?]]; [by left|right]. exists k. by rewrite Hall.
  - intros j k a. rewrite !Hall. apply Hw.
  - unfold live_inv. rewrite Hk. intros E. destruct (Hl E) as [|[j ?]]; [by left|right].
    exists j. by rewrite Hall.
Qed.
(** ** Preservation *)
Variable this : addr.

Lemma inv_intro s s' i o l :
  inv s -> only i s s' -> mutex_inv s' -> own_inv s' o -> queue_inv s' l -> pc_ok (co s' i) -> inv s'.
Proof.
  intros (_ & _ & _ & Hp) Ho Hm Hown Hq Hi. unfold inv. split_ands; [done|by exists o|by exists l|].
  intros j. destruct (decide (j = i)) as [->|Hj]; [done|]. by rewrite (Ho j).
Qed.

Lemma only_set i c s : only i s (set_coroutine i c s).
Proof. intros j Hj. simpl. by rewrite fn_lookup_insert_ne. Qed.

Lemma at_set i c s : co (set_coroutine i c s) i = c.
Proof. simpl. by rewrite fn_lookup_insert. Qed.

Lemma holds_unique s i j :
  mutex_inv s -> holds (co_pc (co s i)) = true -> holds (co_pc (co s j)) = true -> i = j.
Proof.
  intros Hm. rewrite !Hm. intros Hi%bool_decide_eq_true Hj%bool_decide_eq_true. congruence.
Qed.

(** While one coroutine holds the mutex outside of [await_suspend], nobody is
    between [push_back] and the release. *)
Lemma nobody_pushes s i :
  mutex_inv s -> holds (co_pc (co s i)) = true -> role_of s i <> r_push -> role_of s i <> r_park ->
  forall j, role_of s j <> r_push /\ role_of s j <> r_park.
Proof.
  intros Hm Hh H1 H2 j. destruct (co_pc (co s j)) eqn:E; simpl; try done;
    try (by repeat case_match); exfalso;
    assert (i = j) as -> by (apply (holds_unique s i j Hm Hh); by rewrite E);
    by rewrite E in H1, H2.
Qed.

Lemma suspended_pc s a : role_of s a = r_suspended -> exists k, co_pc (co s a) = A_lk_suspended k.
Proof. destruct (co_pc (co s a)); simpl; repeat case_match; try done; eauto. Qed.

(** [retry]: the resumed coroutine was suspended. *)
Lemma inv_retry i aw c' s :
  inv s -> role_of s i = match aw with Some a => r_wake a | None => r_none end ->
  holds (co_pc (co s i)) = false -> holds (co_pc c') = false -> role (co_pc c') = r_none ->
  owns c' = owns (co s i) -> inside c' = inside (co s i) -> pc_ok c' ->
  inv (retry i aw (set_coroutine i c') s).
Proof.
  intros Hinv Hr Hh Hh' Hr' Ho Hn Hp. pose proof Hinv as (Hm & [o Hown] & [l Hq] & Hpc).
  destruct aw as [a|]; simpl.
  - destruct Hq as (Hq1&Hq2&Hq3&Hq4). pose proof (Hq2 i) as Hqi. rewrite Hr in Hqi.
    destruct Hqi as (Hal & Hsa & Hil). destruct (suspended_pc s a Hsa) as [k Ek].
    assert (Hia : i <> a) by (intros ->; congruence). rewrite Ek.
    set (s1 := goto a (A_lk_resumed k) s).
    assert (E1 : co s1 a = with_pc (A_lk_resumed k) (co s a)) by apply at_set.
    assert (Ei : co s1 i = co s i) by (by apply only_set).
    assert (Eo : owns (co s1 a) = owns (co s a) /\ inside (co s1 a) = inside (co s a)).
    { rewrite E1. unfold owns, inside. simpl. by rewrite Ek. }
    assert (Hm1 : mutex_inv s1).
    { eapply (mutex_keep s s1 a); [done|apply only_set|done|]. by rewrite E1, Ek. }
    assert (Hown1 : own_inv s1 o).
    { eapply (own_move s s1 a); [done|apply only_set|apply Eo|done|].
      destruct Eo as [_ ->]. simpl. lia. }
    assert (Hinv1 : forall j, pc_ok (co s1 j)).
    { intros j. destruct (decide (j = a)) as [->|Hj]; [by rewrite E1|].
      unfold s1, goto. rewrite only_set by done. apply Hpc. }
    unfold inv. split_ands.
    + eapply (mutex_keep s1 _ i); [done|apply only_set|done|]. by rewrite at_set, Ei, Hh.
    + exists o. eapply (own_move s1 _ i); [done|apply only_set| |done|];
        rewrite at_set, Ei; [done|]. simpl. lia.
    + exists l. apply (queue_wake s _ l i a); [by split_ands| |done|done|done|done| |].
      * intros j H1 H2. rewrite only_set by done. unfold s1, goto. by rewrite only_set.
      * by rewrite at_set.
      * rewrite only_set by done. by rewrite E1.
    + intros j. destruct (decide (j = i)) as [->|Hj]; [by rewrite at_set|].
      by rewrite only_set.
  - apply (inv_intro s _ i o l); [done|apply only_set| | | |by rewrite at_set].
    + eapply mutex_keep; [done|apply only_set|done|]. by rewrite at_set, Hh.
    + eapply own_move; [done|apply only_set| |done|]; rewrite at_set; [done|]. simpl. lia.
    + eapply queue_same; [done|apply only_set|done|done|]. by rewrite at_set, Hr.
Qed.
(** How one action may change the mutex. *)
Definition mutex_ok i s s' : Prop :=
  (m_awaiter_lock s' = m_awaiter_lock s /\ holds (co_pc (co s' i)) = holds (co_pc (co s i))) \/
  (m_awaiter_lock s = None /\ m_awaiter_lock s' = Some i /\ holds (co_pc (co s' i)) = true) \/
  (holds (co_pc (co s i)) = true /\ m_awaiter_lock s' = None /\ holds (co_pc (co s' i)) = false).

Lemma mutex_step i s s' : mutex_inv s -> only i s s' -> mutex_ok i s s' -> mutex_inv s'.
Proof.
  intros Hm Ho [[? ?]|[(?&?&?)|(?&?&?)]];
    [by eapply mutex_keep|by eapply mutex_acquire|by eapply mutex_release].
Qed.

(** An action that touches neither the queue, nor [m_locked], nor the
    counter. *)
Lemma inv_quiet i s s' :
  inv s -> only i s s' -> mutex_ok i s s' -> m_awaiters s' = m_awaiters s ->
  m_locked s' = m_locked s ->
  m_thread_count_in_critical_section s' = m_thread_count_in_critical_section s ->
  owns (co s' i) = owns (co s i) -> inside (co s' i) = inside (co s i) ->
  (role_of s' i = role_of s i \/ (role_of s i = r_none /\ role_of s' i = r_active)) ->
  pc_ok (co s' i) -> inv s'.
Proof.
  intros Hinv Ho Hmu Ha Hk Hc Hown Hin Hrole Hp. pose proof Hinv as (Hm & [o Hoi] & [l Hq] & _).
  apply (inv_intro s s' i o l); [done|done|by eapply mutex_step| | |done].
  - eapply own_move; [done|done|done|done|]. rewrite Hc, Hin. lia.
  - destruct Hrole as [Hr|[Hr1 Hr2]]; [by eapply queue_same|].
    eapply queue_relabel; eauto.
Qed.

Ltac only_upd := intros ? ?; simpl; by rewrite fn_lookup_insert_ne.

(** Look at the coroutine that moved. *)
Ltac look E :=
  unfold mutex_ok, owns, inside, pc_ok; rewrite ?at_set; simpl; rewrite ?fn_lookup_insert, ?E; simpl.

Ltac quiet i s E :=
  apply (inv_quiet i s); [done|only_upd|look E; auto 6|done..|look E; auto|look E; auto|look E; auto|look E; auto].

Lemma inv_acquire i p s s' :
  inv s -> acquire i p s = Some s' -> holds p = true ->
  owns (with_pc p (co s i)) = owns (co s i) -> inside (with_pc p (co s i)) = inside (co s i) ->
  (role p = role_of s i) -> pc_ok (with_pc p (co s i)) -> inv s'.
Proof.
  unfold acquire. intros Hinv Hs Hh Ho Hn Hr Hp.
  destruct (m_awaiter_lock s) eqn:E; [done|]. simplify_eq.
  apply (inv_quiet i s); [done|only_upd| |done..| | | |];
    unfold mutex_ok; simpl; rewrite ?fn_lookup_insert; auto.
Qed.

Lemma inv_release i p s :
  inv s -> holds (co_pc (co s i)) = true -> holds p = false ->
  owns (with_pc p (co s i)) = owns (co s i) -> inside (with_pc p (co s i)) = inside (co s i) ->
  (role p = role_of s i) -> pc_ok (with_pc p (co s i)) -> inv (release_mutex i p s).
Proof.
  intros Hinv Hh Hh' Ho Hn Hr Hp.
  apply (inv_quiet i s); [done|only_upd| |done..| | | |];
    unfold mutex_ok; simpl; rewrite ?fn_lookup_insert; auto 6.
Qed.

(** The owner pops an awaiter and frees the lock. *)
Lemma inv_unlock_and_pop i next s s0 :
  inv s0 -> only i s0 s -> co s i = co s0 i -> m_awaiters s = m_awaiters s0 ->
  m_awaiter_lock s = m_awaiter_lock s0 ->
  m_thread_count_in_critical_section s =
    (m_thread_count_in_critical_section s0 - Z.of_nat (inside (co s0 i)))%Z ->
  holds (co_pc (co s0 i)) = true -> role_of s0 i = r_none ->
  (forall aw, holds (next aw) = true /\ pc_ok (with_pc (next aw) (co s0 i)) /\
     role (next aw) = match aw with Some a => r_wake a | None => r_none end /\
     owns (co s0 i) = S (owns (with_pc (next aw) (co s0 i)))) ->
  inv (unlock_and_pop i next s).
Proof.
  intros Hinv Hos Hci Haw Hmu Hc Hh Hr Hnext. pose proof Hinv as (Hm & [o Hoi] & [l Hq] & _).
  pose proof Hq as (Hq1&_). destruct (q_pop_repr _ l Hq1) as (q' & E & _). unfold unlock_and_pop.
  rewrite Haw, E. destruct (Hnext (head l)) as (H1&H2&H3&H4).
  set (s' := goto _ _ _).
  assert (Ei : co s' i = with_pc (next (head l)) (co s0 i)) by (by unfold s', goto; rewrite at_set; simpl; rewrite Hci).
  assert (Ho : only i s0 s').
  { intros j Hj. unfold s', goto. rewrite only_set by done. by apply Hos. }
  apply (inv_intro s0 s' i None (tail l)); [done|done| | | |by rewrite Ei].
  - eapply (mutex_keep s0); [done|done|done|]. by rewrite Ei, Hh.
  - eapply (own_drop s0); [done|done|done|by rewrite Ei|done].
  - eapply (queue_pop s0); [done|done|done|by rewrite Ei|done|].
    eapply nobody_pushes; [done|done|by rewrite Hr..].
Qed.

Lemma inv_lock_impl i s s' :
  inv s -> lock_impl_step this i (co_pc (co s i)) s = Some s' -> inv s'.
Proof.
  intros Hinv Hs. pose proof Hinv as (Hm & [o Ho] & [l Hq] & Hp).
  destruct (co_pc (co s i)) eqn:E; simpl in Hs; try done.
  - eapply inv_acquire; [done|done|..]; by look E.
  - (* check *) destruct (m_locked s) eqn:El; simplify_eq.
    + eapply (inv_intro s _ i o l); [done|only_upd| | | |by look E].
      * eapply mutex_keep; [done|only_upd|done|by look E].
      * eapply own_move; [done|only_upd|by look E|done|look E; lia].
      * eapply queue_construct; [done|only_upd|done|done|done|by look E..].
    + eapply (inv_intro s _ i (Some i) l); [done|only_upd| | | |by look E].
      * eapply mutex_keep; [done|only_upd|done|by look E].
      * eapply own_take; [done|only_upd|done|done|by look E..|done].
      * eapply queue_relabel; [done|only_upd|done|look E; auto..].
  - simplify_eq. apply inv_release; try (by look E); by destruct sync; look E.
  - (* push *) simplify_eq. pose proof Hq as (Hq1&Hq2&_). pose proof (Hq2 i) as Hqi.
    rewrite E in Hqi. destruct Hqi as (Hf & Hl & Hin).
    destruct (q_push_repr _ l i Hq1 Hin Hf) as (q' & Eq & _). rewrite Eq.
    eapply (inv_intro s _ i o (l ++ [i])); [done|only_upd| | | |by look E].
    + eapply mutex_keep; [done|only_upd|done|by look E].
    + eapply own_move; [done|only_upd|by look E|done|look E; lia].
    + eapply queue_push; [done|only_upd|done|by look E|by look E|done|].
      intros j Hj. apply (holds_unique s j i Hm); [|by rewrite E].
      destruct (co_pc (co s j)); simpl in *; repeat case_match; done.
  - (* park *) simplify_eq. eapply (inv_intro s _ i o l); [done|only_upd| | | |by look E].
    + eapply mutex_release; [done|only_upd|by look E|done|by look E].
    + eapply own_move; [done|only_upd|by look E|done|look E; lia].
    + eapply queue_park; [done|only_upd|done|done|by look E..].
  - (* resumed *) simplify_eq. eapply (inv_intro s _ i o l); [done|only_upd| | | |by look E].
    + eapply mutex_keep; [done|only_upd|done|by look E].
    + eapply own_move; [done|only_upd|by look E|done|look E; lia].
    + eapply queue_destroy; [done|only_upd|done|done|by look E..].
  - simplify_eq. quiet i s E.
  - eapply inv_acquire; [done|done|..]; by look E.
  - (* catch *)
    assert (Hpos : 0 < owns (co s i)) by (unfold owns; rewrite E; simpl; lia).
    destruct (own_known s o i Ho Hpos) as (H1 & Hl & Hc). rewrite Hl in Hs. simplify_eq.
    assert (Hin : inside (co s i) = 0) by (revert H1; unfold owns; rewrite E; simpl; lia).
    apply (inv_unlock_and_pop i _ s s); [done|done|done|done|done|rewrite Hin; lia|by rewrite E..|].
    intros aw. split_ands; [done|done|by destruct aw|]. unfold owns, inside. simpl. rewrite E. simpl. lia.
  - simplify_eq. apply inv_release; try (by look E); by destruct aw; look E.
  - simplify_eq. change (goto i (A_idle (threw e))) with (fun s => set_coroutine (Q:=Q) i (with_pc (A_idle (threw e)) (co s i)) s).
    replace (retry i aw _ s) with (retry i aw (set_coroutine i (with_pc (A_idle (threw e)) (co s i))) s).
    + apply inv_retry; [done|..]; look E; done.
    + destruct aw as [a|]; [|done]. simpl. destruct (co_pc (co s a)) eqn:Ea; try done.
      unfold goto. simpl. rewrite fn_lookup_insert_ne; [done|]. intros ->. congruence.
  - (* enter *)
    assert (Hpos : 0 < owns (co s i)) by (unfold owns; rewrite E; simpl; lia).
    destruct (own_known s o i Ho Hpos) as (H1 & Hl & Hc).
    assert (Hin : inside (co s i) = 0) by (revert H1; unfold owns; rewrite E; simpl; lia).
    unfold count_step in Hs. rewrite Hc, Hin in Hs. simpl in Hs. simplify_eq.
    assert (Hg : raw (co s i) = false /\ scoped_async_lock.m_owns (guard (co s i)) = false).
    { revert Hin. unfold inside. rewrite E. simpl. destruct (raw (co s i)); simpl; [lia|].
      destruct (scoped_async_lock.m_owns (guard (co s i))); simpl; [lia|done]. }
    destruct Hg as [Hg1 Hg2].
    eapply (inv_intro s _ i o l); [done|destruct k; only_upd| | | |by destruct k; look E].
    + eapply mutex_keep; [done|destruct k; only_upd|by destruct k|by destruct k; look E].
    + eapply own_move; [done|destruct k; only_upd| |by destruct k|].
      * by destruct k; look E; rewrite Hg1, Hg2.
      * rewrite Hin. destruct k; look E; rewrite ?Hg1, ?Hc, ?Hin; simpl; lia.
    + eapply queue_same; [done|destruct k; only_upd|by destruct k..|by destruct k; look E].
Qed.
Lemma inv_try_lock i s s' :
  inv s -> try_lock_step i (co_pc (co s i)) s = Some s' -> inv s'.
Proof.
  intros Hinv Hs. pose proof Hinv as (Hm & [o Ho] & [l Hq] & Hp). pose proof (Hp i) as Hpi.
  destruct (co_pc (co s i)) eqn:E; simpl in Hs; try done; unfold pc_ok in Hpi; rewrite E in Hpi.
  - eapply inv_acquire; [done|done|..]; by look E.
  - destruct (m_locked s) eqn:El; simplify_eq; [quiet i s E|].
    eapply (inv_intro s _ i (Some i) l); [done|only_upd| | | |by look E].
    + eapply mutex_keep; [done|only_upd|done|by look E].
    + eapply own_take; [done|only_upd|done|done|by look E..|done].
    + eapply queue_relabel; [done|only_upd|done|look E; auto..].
  - simplify_eq. apply inv_release; by look E.
  - destruct res; [|simplify_eq].
    + assert (Hpos : 0 < owns (co s i)) by (unfold owns; rewrite E; simpl; lia).
      destruct (own_known s o i Ho Hpos) as (H1 & Hl & Hc).
      assert (Hin : inside (co s i) = 0) by (revert H1; unfold owns; rewrite E; simpl; lia).
      unfold count_step in Hs. rewrite Hc, Hin in Hs. simpl in Hs. simplify_eq.
      assert (Hg : raw (co s i) = false /\ scoped_async_lock.m_owns (guard (co s i)) = false).
      { revert Hin. unfold inside. rewrite E. simpl. destruct (raw (co s i)); simpl; [lia|].
        destruct (scoped_async_lock.m_owns (guard (co s i))); simpl; [lia|done]. }
      destruct Hg as [Hg1 Hg2].
      eapply (inv_intro s _ i o l); [done|destruct k; only_upd| | | |by destruct k; look E].
      * eapply mutex_keep; [done|destruct k; only_upd|by destruct k|by destruct k; look E].
      * eapply own_move; [done|destruct k; only_upd| |by destruct k|].
        -- by destruct k; look E; rewrite Hg1, Hg2.
        -- rewrite Hin. destruct k; look E; rewrite ?Hg1, ?Hg2, ?Hc, ?Hin; simpl; lia.
      * eapply queue_same; [done|destruct k; only_upd|by destruct k..|by destruct k; look E].
    + destruct k.
      * quiet i s E.
      * apply (inv_quiet i s); [done|only_upd|look E; auto 6|done..|look E|look E|look E; auto|by look E];
          by rewrite Hpi.
Qed.

Lemma inv_unlock i s s' :
  inv s -> unlock_step i (co_pc (co s i)) s = Some s' -> inv s'.
Proof.
  intros Hinv Hs. pose proof Hinv as (Hm & [o Ho] & [l Hq] & Hp). pose proof (Hp i) as Hpi.
  destruct (co_pc (co s i)) eqn:E; simpl in Hs; try done; unfold pc_ok in Hpi; rewrite E in Hpi;
    try done.
  - eapply inv_acquire; [done|done|..]; by destruct u; look E.
  - assert (Hpos : 0 < inside (co s i)).
    { unfold inside. rewrite E. destruct u; simpl; rewrite ?Hpi; simpl; lia. }
    assert (Hpos' : 0 < owns (co s i)) by (unfold owns; lia).
    destruct (own_known s o i Ho Hpos') as (H1 & Hl & Hc). rewrite Hl in Hs.
    assert (Hin : inside (co s i) = 1) by (unfold owns in H1; lia).
    unfold count_step in Hs. simpl in Hs. rewrite Hc, Hin in Hs. simpl in Hs. simplify_eq.
    eapply (inv_unlock_and_pop i _ _ s); [done|done|done|done|done|simpl; rewrite Hin; lia|by rewrite E..|].
    intros aw. split_ands; [done|done|by destruct aw|].
    revert H1. unfold owns, inside. simpl. rewrite E. simpl. destruct u; simpl; rewrite ?Hpi; simpl; lia.
  - simplify_eq. apply inv_release; try (by look E); by destruct u, aw; look E.
  - simplify_eq.
    set (c' := match u with
               | by_unlock => with_pc (A_idle (returned true)) (co s i)
               | by_scoped_unlock => with_guard (A_idle (returned true))
                   (scoped_async_lock.set_owns false (guard (co s i))) (co s i)
               | by_destructor => with_guard (A_idle (returned true)) scoped_async_lock.empty (co s i)
               end).
    replace (retry i aw _ s) with (retry i aw (set_coroutine i c') s).
    + apply inv_retry; [done|by rewrite E|by rewrite E|..]; unfold c'; destruct u; look E; try done;
        rewrite ?andb_false_r; done.
    + unfold c'. destruct aw as [a|]; [|by destruct u]. simpl.
      destruct (co_pc (co s a)) eqn:Ea; try done.
      destruct u; unfold unlock_return, goto; simpl; rewrite fn_lookup_insert_ne; try done;
        intros ->; congruence.
Qed.

(** A coroutine at rest owns the lock through [raw] or through its guard. *)
Lemma inside_idle c r :
  co_pc c = A_idle r ->
  inside c = Nat.b2n (raw c) + Nat.b2n (scoped_async_lock.m_owns (guard c)) /\ owns c = inside c.
Proof. intros E. unfold owns, inside. rewrite E. simpl. rewrite andb_true_r. lia. Qed.

Lemma inv_goto_call i p s r :
  inv s -> co_pc (co s i) = A_idle r -> holds p = false -> entering p = false ->
  released p = false -> unlocking p = false -> role p = r_none \/ role p = r_active ->
  pc_ok (with_pc p (co s i)) -> inv (goto i p s).
Proof.
  intros Hinv E H1 H2 H3 H4 Hr Hp.
  apply (inv_quiet i s); [done|only_upd| |done..| | | |by unfold goto; rewrite at_set];
    unfold goto; look E; rewrite ?H1, ?H2, ?H3, ?H4; auto 6. naive_solver.
Qed.

(** *** The guards

    A guard that owns refers to a lock, and so does the guard of a coroutine
    inside [scoped_async_lock::lock] or [try_lock]. *)
Definition uses_guard (p : pc) : bool :=
  match p with
  | A_lk_mutex by_scoped_lock _ | A_lk_check by_scoped_lock _ | A_lk_unlock by_scoped_lock _
  | A_lk_push by_scoped_lock | A_lk_park by_scoped_lock | A_lk_suspended by_scoped_lock
  | A_lk_resumed by_scoped_lock | A_lk_resume_on by_scoped_lock | A_lk_enter by_scoped_lock
  | A_tl_mutex by_scoped_try_lock | A_tl_check by_scoped_try_lock
  | A_tl_unlock by_scoped_try_lock _ | A_tl_enter by_scoped_try_lock _ => true
  | _ => false
  end.

Definition guard_ok (c : coroutine) : Prop :=
  (scoped_async_lock.m_owns (guard c) = true -> is_Some (scoped_async_lock.m_lock (guard c))) /\
  (uses_guard (co_pc c) = true -> is_Some (scoped_async_lock.m_lock (guard c))).

Definition guard_inv s : Prop := forall i, guard_ok (co s i).

Lemma guard_set s i c : guard_inv s -> guard_ok c -> guard_inv (set_coroutine i c s).
Proof.
  intros Hg Hc j. destruct (decide (j = i)) as [->|Hj]; [by rewrite at_set|]. by rewrite only_set.
Qed.

Lemma guard_goto s i p :
  guard_inv s -> (uses_guard p = true -> uses_guard (co_pc (co s i)) = true) -> guard_inv (goto i p s).
Proof. intros Hg Hp. apply guard_set; [done|]. destruct (Hg i) as [? ?]. split; simpl; auto. Qed.

Lemma guard_pop s i f p :
  guard_inv s -> (forall aw, uses_guard (f aw) = false) -> co_pc (co s i) = p ->
  guard_inv (unlock_and_pop i f s).
Proof.
  intros Hg Hf E. unfold unlock_and_pop, fault. repeat case_match; by apply guard_goto; simpl; rewrite ?Hf.
Qed.

Lemma guard_retry s i aw next :
  guard_inv s -> (forall s1, guard_inv s1 -> guard_inv (next s1)) -> guard_inv (retry i aw next s).
Proof.
  intros Hg Hn. unfold retry, fault. destruct aw as [a|]; [|auto].
  destruct (co_pc (co s a)) eqn:E; try by apply guard_goto.
  apply Hn, guard_goto; [done|]. rewrite E. by destruct k.
Qed.

Lemma guard_act i s s' : guard_inv s -> act_step this i s = Some s' -> guard_inv s'.
Proof.
  intros Hg Hs. pose proof (Hg i) as [Hg1 Hg2]. unfold act_step in Hs.
  destruct (co_pc (co s i)) eqn:E; simpl in Hs; try done;
    unfold acquire, release_mutex, fault in Hs; repeat case_match; simplify_eq;
    try (by apply guard_goto; rewrite ?E); try (by apply guard_goto; [done|]; rewrite E; destruct k);
    try (by eapply guard_pop; eauto); try (apply guard_retry; [done|]; intros s1 Hs1).
  all: try (apply guard_goto; [done|]; simpl; rewrite ?E; by repeat case_match).
  - unfold count_step, lock_return, fault. case_match; [|by apply guard_goto].
    destruct k; apply guard_set; try done; split; simpl; eauto.
  - unfold count_step, try_lock_return, fault. case_match; [|by apply guard_goto].
    destruct k; apply guard_set; try done; split; simpl; eauto.
  - unfold try_lock_return. destruct k; apply guard_set; try done; split; simpl; eauto; done.
  - unfold count_step, fault. case_match; [|by apply guard_goto]. by eapply guard_pop.
  - unfold unlock_return. pose proof (Hs1 i) as [Hg3 Hg4]. destruct u; [by apply guard_goto|..];
      apply guard_set; try done; split; simpl; eauto; done.
Qed.

Lemma guard_call i c s s' : guard_inv s -> call_step this i c s = Some s' -> guard_inv s'.
Proof.
  intros Hg Hs. pose proof (Hg i) as [Hg1 Hg2]. unfold call_step, start, fault in Hs.
  destruct (co_pc (co s i)) eqn:E; try done.
  destruct c; repeat case_match; simplify_eq;
    try (by apply guard_goto; rewrite ?E);
    try (apply guard_set; [done|split; simpl; eauto; done]).
  - apply guard_set; [done|]. unfold scoped_async_lock.lock_check in *. repeat case_match; simplify_eq.
    split; simpl; [done|eauto].
  - apply guard_set; [done|]. unfold scoped_async_lock.try_lock_check in *. repeat case_match; simplify_eq.
    split; simpl; [done|eauto].
Qed.

Lemma lock_inv_call i c s s' :
  inv s -> guard_ok (co s i) -> call_step this i c s = Some s' -> inv s'.
Proof.
  intros Hinv [Hgo _] Hs. unfold call_step in Hs. destruct (co_pc (co s i)) as [r| | | | | | | | | | | | | | | | | | | | | | | ] eqn:E; try done.
  pose proof Hinv as (Hm & [o Ho] & [l Hq] & Hp).
  destruct (inside_idle _ _ E) as [Hi1 Hi2].
  assert (Hle : owns (co s i) <= 1).
  { destruct Ho as (Hoi&_). rewrite Hoi. destruct (decide (o = Some i)); lia. }
  rewrite Hi2, Hi1 in Hle.
  destruct (co s i) as [p g rw] eqn:Ec. simpl in E, Hle. subst p.
  assert (E : co_pc (co s i) = A_idle r) by (by rewrite Ec).
  destruct c; simpl in Hs; unfold no_guard in Hs; simpl in Hs.
  - case_bool_decide; [|done]. simpl in *. subst g. destruct executor_null; simpl in Hs; simplify_eq;
      eapply inv_goto_call; eauto; done.
  - simplify_eq. eapply inv_goto_call; eauto; done.
  - destruct rw; simplify_eq. simpl in Hle.
    apply (inv_quiet i s); [done|only_upd|look E; auto 6|done..|look E|look E|look E; auto|by look E];
      rewrite Ec; simpl; lia.
  - case_bool_decide; [|done]. simpl in *. subst g. simplify_eq.
    apply (inv_quiet i s); [done|only_upd|look E; auto 6|done..|look E|look E|look E; auto|by look E];
      by rewrite Ec.
  - unfold scoped_async_lock.lock_check in Hs. repeat case_match; simplify_eq/=;
      eapply inv_goto_call; eauto; done.
  - unfold scoped_async_lock.try_lock_check in Hs. repeat case_match; simplify_eq/=;
      eapply inv_goto_call; eauto; try done. unfold pc_ok. simpl. by rewrite Ec.
  - unfold scoped_async_lock.unlock_check in Hs.
    destruct (scoped_async_lock.m_owns g) eqn:Eg; simplify_eq/=; [|by eapply inv_goto_call; eauto].
    destruct (scoped_async_lock.m_lock g); eapply inv_goto_call; eauto; try done.
    unfold pc_ok. simpl. by rewrite Ec.
  - simplify_eq.
    apply (inv_quiet i s); [done|only_upd|look E; auto 6|done..|look E|look E|look E; auto|by look E];
      rewrite Ec; unfold scoped_async_lock.owns_lock; simpl;
      destruct (scoped_async_lock.m_owns g), rw; simpl in *; lia.
  - unfold scoped_async_lock.destructor_unlocks in Hs.
    destruct (scoped_async_lock.m_owns g) eqn:Eg, (scoped_async_lock.m_lock g) eqn:El; simplify_eq/=.
    + eapply inv_goto_call; eauto; try done. unfold pc_ok. simpl. by rewrite Ec.
    + simpl in Hgo. rewrite El in Hgo. by destruct (Hgo Eg).
    + apply (inv_quiet i s); [done|only_upd|look E; auto 6|done..|look E|look E|look E; auto|by look E];
        rewrite Ec; simpl; rewrite Eg; done.
    + apply (inv_quiet i s); [done|only_upd|look E; auto 6|done..|look E|look E|look E; auto|by look E];
        rewrite Ec; simpl; rewrite Eg; done.
Qed.

Lemma lock_inv_step l s s' :
  inv s /\ guard_inv s -> step this l s = Some s' -> inv s' /\ guard_inv s'.
Proof.
  intros [Hi Hg] Hs. destruct l as [i c|i|i]; simpl in Hs.
- split; [by eapply lock_inv_call|by eapply guard_call].
  - split; [|by eapply guard_act]. unfold act_step in Hs.
    destruct (co_pc (co s i)) eqn:E; try done; rewrite <-E in Hs;
      first [by eapply inv_lock_impl|by eapply inv_try_lock|by eapply inv_unlock].
  - destruct (co_pc (co s i)) eqn:E; try done. simplify_eq. split; [quiet i s E|by apply guard_goto].
Qed.

Lemma lock_inv_reachable s : reachable (step this) init s -> inv s /\ guard_inv s.
Proof.
apply (reachable_invariant (step this) init (fun s => inv s /\ guard_inv s)); [|apply lock_inv_step].
split; [apply lock_inv_init|]. intros i. done.
Qed.
End invariant.
