(* ===== verification/AsyncLockTheorems.v ===== *)
(** * async_lock: theorems

    What holds for any number of coroutines, any interleaving and any queue
    that keeps the promise of [AwaiterQueue]; the witnesses run the lock with
    the intrusive list of the program. *)

From stdpp Require Import prelude list functions.
From Stdlib Require Import ZArith.
From S2P Require Import Prelude Errors ConsumerContext Slist AsyncLock AsyncLockProps.

Section theorems.
Context {Q : Type} `{AwaiterQueueLaws Q}.
Variable this : addr.
Implicit Types s : state Q.
Notation co := coroutines.
Notation pc_of s i := (co_pc (coroutines s i)).

(** A coroutine that can do nothing by itself. *)
Definition at_rest (p : pc) : bool :=
  match p with A_idle _ | A_lk_suspended _ | A_aborted => true | _ => false end.

Lemma acting_enabled s i :
  at_rest (pc_of s i) = false -> m_awaiter_lock s = None \/ holds (pc_of s i) = true ->
  exists s', step this (L_act i) s = Some s'.
Proof.
  intros Hr Hm. simpl. unfold act_step.
  destruct (pc_of s i) eqn:E; try done; simpl;
    unfold acquire; destruct Hm as [Hm|?]; rewrite ?Hm; try done; repeat case_match; eauto.
Qed.

Lemma someone_enabled s i :
  inv s -> at_rest (pc_of s i) = false -> exists j s', step this (L_act j) s = Some s'.
Proof.
  intros (Hm & _) Hr. destruct (m_awaiter_lock s) as [j|] eqn:E.
  - assert (Hh : holds (pc_of s j) = true) by (by rewrite Hm, E, bool_decide_eq_true_2).
    destruct (acting_enabled s j) as [s' Hs']; [by destruct (pc_of s j)|by right|eauto].
  - destruct (acting_enabled s i) as [s' Hs']; eauto.
Qed.

Lemma role_at_rest p : at_rest p = true -> promotes (role p) = false.
Proof. by destruct p. Qed.

(** C7.  Mutual exclusion: at most one coroutine is in the critical section of
    an [async_lock], whether it owns the lock through a guard or directly; and
    neither an assertion of the lock fails (the debug counter included), nor
    is a coroutine resumed that is not suspended. *)
Theorem lock_mutual_exclusion s :
  reachable (step this) init s ->
  (forall i j, 0 < inside (co s i) -> 0 < inside (co s j) -> i = j) /\
  (forall i, inside (co s i) <= 1 /\ pc_of s i <> A_aborted).
Proof.
  intros [(_ & [o (Ho & _)] & _ & Hp) _]%(lock_inv_reachable this).
  assert (Hin : forall i, inside (co s i) <= if decide (o = Some i) then 1 else 0).
  { intros i. rewrite <-Ho. unfold owns. lia. }
  split.
  - intros i j Hi Hj. pose proof (Hin i). pose proof (Hin j).
    destruct (decide (o = Some i)), (decide (o = Some j)); [congruence|lia..].
  - intros i. split; [pose proof (Hin i); destruct (decide (o = Some i)); lia|].
    intros E. pose proof (Hp i) as Hpi. unfold pc_ok in Hpi. by rewrite E in Hpi.
Qed.

(** C8.  No wake-up is lost and there is no deadlock: as long as a coroutine
    waits for the lock, either some coroutine can go on, or the lock is owned
    by a coroutine that has nothing to do by itself: it is in its critical
    section (or waits for the lock it owns, by its own mistake). *)
Theorem lock_never_stuck s i k :
  reachable (step this) init s -> pc_of s i = A_lk_suspended k ->
  (exists j s', step this (L_act j) s = Some s') \/
  (exists j, at_rest (pc_of s j) = true /\ 0 < inside (co s j)).
Proof.
  intros [Hinv _]%(lock_inv_reachable this) Hi. destruct (m_locked s) eqn:El.
  - pose proof Hinv as (_ & [o (Ho & Hl & _)] & _). rewrite El in Hl.
    destruct o as [j|]; [|done]. pose proof (Ho j) as Hj. rewrite decide_True in Hj by done.
    destruct (at_rest (pc_of s j)) eqn:Er; [right|left; by eapply someone_enabled].
    exists j. split; [done|]. unfold owns in Hj. destruct (pc_of s j); simpl in *; try done; lia.
  - left. pose proof Hinv as (_ & _ & [l (_&Hq2&_&Hq4)] & _).
    assert (exists j, promotes (role (pc_of s j)) = true) as [j Hj].
    { pose proof (Hq2 i) as Hqi. rewrite Hi in Hqi. destruct Hqi as [Hin|[j Ej]].
      - destruct (Hq4 El) as [->|?]; [by apply not_elem_of_nil in Hin|done].
      - exists j. by rewrite Ej. }
    apply (someone_enabled s j Hinv).
    destruct (at_rest (pc_of s j)) eqn:E; [|done]. by rewrite role_at_rest in Hj.
Qed.

(** While nobody holds the mutex, the queue holds suspended coroutines. *)
Lemma queued_suspended s l b :
  inv s -> m_awaiter_lock s = None -> q_repr (m_awaiters s) l -> head l = Some b ->
  exists k, pc_of s b = A_lk_suspended k.
Proof.
  intros (Hm & _ & [l2 (Hq2 & Hr & _)] & _) Hmu Hq Hb.
  assert (E : head l2 = head l).
  { destruct (q_pop_repr _ _ Hq) as (q1 & E1 & _), (q_pop_repr _ _ Hq2) as (q2 & E2 & _). congruence. }
  assert (Hin : b ∈ l2) by (destruct l2; simplify_eq/=; [congruence|]; rewrite Hb in E; simplify_eq; left).
  apply suspended_pc. pose proof (Hr b) as Hrb. pose proof (Hm b) as Hmb. rewrite Hmu in Hmb.
  destruct (role (pc_of s b)) eqn:Er; try done; try naive_solver.
  by destruct (pc_of s b) as [| | | | | | | | | | |[]|[]| | | | | | | | |? []|? []|].
Qed.

(** *** Handing the lock over *)
Ltac look_up :=
  repeat first
    [ rewrite fn_lookup_insert
    | rewrite fn_lookup_insert_ne by done
    | progress simpl ].

Lemma run_cons (x : label) ls s s1 s' :
  step this x s = Some s1 -> run (step this) ls s1 = Some s' -> run (step this) (x :: ls) s = Some s'.
Proof. intros E. simpl. by rewrite E. Qed.

(** The next step of a run from a state that is known. *)
Ltac next :=
  eapply run_cons;
  [ simpl; unfold act_step, call_step, goto, release_mutex, unlock_and_pop, count_step, retry; look_up;
    repeat match goal with E : ?x = _ |- context [?x] => rewrite E; look_up end; reflexivity | ].

(** [unlock] resumes the coroutine that has waited longest, and if nobody
    barges in, that coroutine enters the critical section: four actions of the
    one that unlocks its guard, then six of the one it has resumed. *)
Theorem unlock_hands_over s i a l r k :
  reachable (step this) init s -> m_awaiter_lock s = None -> q_repr (m_awaiters s) (a :: l) ->
  pc_of s i = A_idle r -> scoped_async_lock.m_owns (guard (co s i)) = true ->
  pc_of s a = A_lk_suspended k ->
  exists s', run (step this)
      (L_call i call_scoped_unlock :: replicate 4 (L_act i) ++ replicate 6 (L_act a)) s = Some s' /\
    q_repr (m_awaiters s') l /\ inside (co s' i) = 0 /\ inside (co s' a) = 1 /\
    pc_of s' a = A_idle (returned true).
Proof.
  intros [Hinv Hg]%(lock_inv_reachable this) Hmu Hq Ei Eo Ea.
  pose proof Hinv as (_ & [o Ho] & _ & _).
  destruct (inside_idle _ _ Ei) as [Hin Hown]. rewrite Eo in Hin. simpl in Hin.
  destruct (own_known s o i Ho ltac:(lia)) as (H1 & Hl & Hc).
  assert (Hraw : raw (co s i) = false) by (destruct (raw (co s i)); simpl in *; [lia|done]).
  assert (Hia : i <> a) by (intros ->; congruence).
  destruct (Hg i) as [[lk Hlk] _]; [done|].
  destruct (q_pop_repr _ _ Hq) as (q' & Hpop & Hq' & _). simpl in Hpop, Hq'.
  assert (Hnd : a ∉ l) by (by apply q_nodup, list.NoDup_cons in Hq as [? _]).
  destruct (q_destroy_repr _ l a Hq' Hnd) as [Hq2 _].
  assert (Hoa : raw (co s a) = false /\ scoped_async_lock.m_owns (guard (co s a)) = false).
  { destruct Ho as (Ho & _). pose proof (Ho i) as Hoi. pose proof (Ho a) as Hoa.
    destruct (decide (o = Some i)) as [->|]; [|lia]. rewrite decide_False in Hoa by congruence.
    unfold owns, inside in Hoa. rewrite Ea in Hoa. simpl in Hoa.
    destruct (raw (co s a)), (scoped_async_lock.m_owns (guard (co s a))); simpl in Hoa; first [done|lia]. }
  destruct Hoa as [Hra Hga]. clear Hinv Hg Ho Hown H1.
  rewrite Hin, Hraw in Hc. simpl in Hc.
  clear Hq Hin. destruct s as [mu q lk' n f].
  cbn [m_awaiter_lock m_awaiters m_locked m_thread_count_in_critical_section coroutines] in *.
  subst mu lk' n.
  destruct (f i) as [pi gi ri] eqn:Efi, (f a) as [pa ga ra] eqn:Efa. cbn [co_pc guard raw] in *.
  destruct gi as [gl go]. cbn [scoped_async_lock.m_owns scoped_async_lock.m_lock] in *. subst.
  eexists. split.
  { change (replicate 4 (L_act i) ++ replicate 6 (L_act a)) with
      [L_act i; L_act i; L_act i; L_act i; L_act a; L_act a; L_act a; L_act a; L_act a; L_act a].
    next. next. next. next. next. next. next. next. next. next. next. reflexivity. }
  unfold count_step, lock_return, inside. destruct k; look_up; split_ands; done.
Qed.

(** A coroutine that cannot be resumed by its executor gives the lock
    back: [resume_on] throws, the handler unlocks the lock and resumes the next
    waiter, and the coroutine gets the exception and owns nothing. *)
Theorem interrupted_lock_is_released s a k l :
  reachable (step this) init s -> m_awaiter_lock s = None -> q_repr (m_awaiters s) l ->
  pc_of s a = A_lk_resume_on k ->
  exists s', run (step this) (L_interrupted a :: replicate 4 (L_act a)) s = Some s' /\
    pc_of s' a = A_idle (threw interrupted_error) /\ owns (co s' a) = 0 /\ m_locked s' = false /\
    q_repr (m_awaiters s') (tail l) /\
    (forall b, head l = Some b -> exists kb, pc_of s' b = A_lk_resumed kb).
Proof.
  intros Hreach Hmu Hq Ea. pose proof Hreach as [Hinv _]%(lock_inv_reachable this).
  pose proof Hinv as (_ & [o Ho] & _).
  assert (Hpos : 0 < owns (co s a)) by (unfold owns; rewrite Ea; simpl; lia).
  destruct (own_known s o a Ho Hpos) as (H1 & Hl & _).
  assert (Hin : inside (co s a) = 0) by (revert H1; unfold owns; rewrite Ea; simpl; lia).
  destruct (q_pop_repr _ _ Hq) as (q' & Hpop & Hq' & _).
  pose proof (queued_suspended s l) as Hb.
  assert (Hb' : forall b, head l = Some b -> b <> a /\ exists kb, pc_of s b = A_lk_suspended kb).
  { intros b Eb. destruct (Hb b Hinv Hmu Hq Eb) as [kb Ekb]. split; [congruence|eauto]. }
  clear Hq Hb Hinv Hreach Ho Hpos H1. destruct s as [mu q lk' n f].
  cbn [m_awaiter_lock m_awaiters m_locked m_thread_count_in_critical_section coroutines] in *.
  subst mu lk'. change (replicate 4 (L_act a)) with [L_act a; L_act a; L_act a; L_act a].
  destruct (head l) as [b|] eqn:Eh.
  - destruct (Hb' b eq_refl) as (Hba & kb & Eb). eexists. split.
    { next. next. next. next. next. reflexivity. }
    look_up. unfold owns, inside in *. look_up. split_ands; try done.
    + revert Hin. rewrite Ea. simpl. by rewrite !Nat.add_0_r, andb_true_r.
    + intros c [= <-]. look_up. by exists kb.
  - eexists. split.
    { next. next. next. next. next. reflexivity. }
    look_up. unfold owns, inside in *. look_up. split_ands; try done.
    revert Hin. rewrite Ea. simpl. by rewrite !Nat.add_0_r, andb_true_r.
Qed.

(** A call on the lock or on a guard that throws at once leaves the lock,
    its queue and every guard as they were; it throws [invalid_argument] for a
    null executor, [operation_not_permitted] for a guard without a lock or
    without ownership, [resource_deadlock_would_occur] for a guard that owns
    the lock already. *)
Lemma failed_call_changes_nothing s s' i c e :
  step this (L_call i c) s = Some s' -> pc_of s' i = A_idle (threw e) ->
  m_awaiter_lock s' = m_awaiter_lock s /\ m_awaiters s' = m_awaiters s /\
  m_locked s' = m_locked s /\ (forall j, j <> i -> co s' j = co s j) /\
  guard (co s' i) = guard (co s i) /\ raw (co s' i) = raw (co s i) /\
  (exn_cls e = invalid_argument /\ (c = call_lock true \/ c = call_scoped_lock true) \/
   exn_cls e = operation_not_permitted /\
     (scoped_async_lock.m_lock (guard (co s i)) = None \/ scoped_async_lock.m_owns (guard (co s i)) = false) \/
   exn_cls e = resource_deadlock_would_occur /\ scoped_async_lock.m_owns (guard (co s i)) = true).
Proof.
  intros Hs He. simpl in Hs.
  assert (Ho : forall j, j <> i -> co s' j = co s j).
  { unfold call_step, start in Hs. repeat case_match; simplify_eq; intros j Hj; simpl;
      by rewrite fn_lookup_insert_ne. }
  unfold call_step, start, fault, lock_check, scoped_async_lock.lock_check,
    scoped_async_lock.try_lock_check, scoped_async_lock.unlock_check in Hs.
  repeat (case_match; simplify_eq/=); rewrite fn_lookup_insert in He; simpl in He; simplify_eq;
    rewrite fn_lookup_insert; simpl; split_ands; auto 7.
  by destruct (scoped_async_lock.m_owns (guard (co s i))); auto.
Qed.
End theorems.

(** ** Concrete runs, with the intrusive list *)
Section runs.
Notation act i n := (replicate n (L_act i)).

(** Coroutine 1 locks; 2 waits; 1 unlocks and 2 gets the lock. *)
Definition run_wait_in_queue : list label :=
  L_call 1 (call_lock false) :: act 1 4 ++ L_call 2 (call_lock false) :: act 2 4.

Definition run_interrupted : list label :=
  run_wait_in_queue ++ L_call 1 call_scoped_unlock :: act 1 4 ++ act 2 4.
End runs.

Notation after_run := (after (step 0) (@init slist_queue _)).

(** ** Witnesses *)
Lemma lock_mutual_exclusion_witness :
  inside (coroutines (after_run run_wait_in_queue) 1) = 1 /\
  inside (coroutines (after_run run_wait_in_queue) 2) = 0.
Proof.
  destruct (lock_mutual_exclusion 0 (after_run run_wait_in_queue)) as [H _]; [apply after_reachable|].
  assert (H1 : inside (coroutines (after_run run_wait_in_queue) 1) = 1) by (by vm_compute).
  split; [exact H1|]. destruct (inside (coroutines (after_run run_wait_in_queue) 2)) eqn:E; [done|].
  specialize (H 1 2). rewrite H1, E in H. discriminate (H (Nat.lt_0_succ _) (Nat.lt_0_succ _)).
Defined.

Lemma lock_never_stuck_witness :
  (exists j s', step 0 (L_act j) (after_run run_wait_in_queue) = Some s') \/
  (exists j, at_rest (co_pc (coroutines (after_run run_wait_in_queue) j)) = true /\
     0 < inside (coroutines (after_run run_wait_in_queue) j)).
Proof.
  apply (lock_never_stuck 0 _ 2 by_lock); [apply after_reachable|by vm_compute].
Defined.

Lemma unlock_hands_over_witness :
  exists s' : state slist_queue, run (step 0)
      (L_call 1 call_scoped_unlock :: replicate 4 (L_act 1) ++ replicate 6 (L_act 2))
      (after_run run_wait_in_queue) = Some s' /\
    q_repr (m_awaiters s') [] /\ inside (coroutines s' 1) = 0 /\ inside (coroutines s' 2) = 1 /\
    co_pc (coroutines s' 2) = A_idle (returned true).
Proof.
  apply (unlock_hands_over 0 _ 1 2 [] (returned true) by_lock);
    [apply after_reachable|by vm_compute| |by vm_compute..].
  split; [apply NoDup_singleton|]. split; [|by vm_compute]. split; [by vm_compute|].
    exists None. by vm_compute.
Defined.

Lemma interrupted_lock_is_released_witness :
  exists s' : state slist_queue,
    run (step 0) (L_interrupted 2 :: replicate 4 (L_act 2)) (after_run run_interrupted) = Some s' /\
    co_pc (coroutines s' 2) = A_idle (threw interrupted_error) /\ owns (coroutines s' 2) = 0 /\
    m_locked s' = false /\ q_repr (m_awaiters s') [] /\
    (forall b, head [] = Some b -> exists kb, co_pc (coroutines s' b) = A_lk_resumed kb).
Proof.
  apply (interrupted_lock_is_released 0 _ 2 by_lock []);
    [apply after_reachable|by vm_compute| |by vm_compute].
  split; [constructor|by vm_compute].
Defined.

Lemma failed_call_changes_nothing_witness :
  m_locked (after_run [L_call 3 call_scoped_unlock]) = m_locked (@init slist_queue _).
Proof.
  eapply (failed_call_changes_nothing 0 init _ 3 call_scoped_unlock); by vm_compute.
Defined.
