(* ===== verification/Task.v ===== *)
(** * task: a move-only holder of any callable

    [include/concurrencpp/task.h] and [source/task.cpp].  A task keeps a small
    callable in its buffer and a big one on the heap, and dispatches through a
    hand-made vtable, with shortcuts for the two functors the library itself
    enqueues.

    The memory is explicit: the tasks of the program (their buffers and vtable
    pointers), the heap blocks, and a log of what happened to the callables.
    What a callable owns is a resource, named by a number: a callable that was
    moved from owns nothing. *)

From Stdlib Require Import ZArith.
From stdpp Require Import prelude gmap list functions.
From S2P Require Import Prelude Errors ConsumerContext.

(** [task_constants], on a machine with 8-byte pointers. *)
Definition total_size : Z := 64.
Definition sizeof_pointer : Z := 8.
Definition buffer_size : Z := total_size - sizeof_pointer.

(** The callable types that [task] knows by name, and the others. *)
Inductive callable_kind :=
  | coroutine_handle_functor
  | await_via_functor
  | other_callable (n : nat).

#[export] Instance callable_kind_eq_dec : EqDecision callable_kind.
Proof. solve_decision. Defined.

(** What [task] asks about [callable_type]. *)
Record callable_type := make_type {
  kind : callable_kind;
  size_of : Z;
  nothrow_move_constructible : bool;
  trivially_copy_constructible : bool;
  trivial_destructor : bool
}.

#[export] Instance callable_type_eq_dec : EqDecision callable_type.
Proof. solve_decision. Defined.

(** The functors of the library have destructors of their own. *)
Definition trivially_destructible (c : callable_type) : bool :=
  match kind c with other_callable _ => trivial_destructor c | _ => false end.

Definition resource : Type := nat.

(** A callable in memory. *)
Record object := make_object { o_type : callable_type; o_resource : option resource }.

(** [m_buffer]: raw bytes, a callable, or a pointer to a callable. *)
Inductive buffer :=
  | b_raw
  | b_object (o : object)
  | b_pointer (p : option addr).

(** [m_vtable] is the address of the table of a type: the type. *)
Record task := make_task { m_buffer : buffer; m_vtable : option callable_type }.

Inductive event :=
  | ev_built (c : callable_type) (r : resource)
  | ev_called (r : resource)
  | ev_destroyed (r : resource).

#[export] Instance event_eq_dec : EqDecision event.
Proof. solve_decision. Defined.

Record world := make_world {
  tasks : addr -> task;
  heap : gmap addr object;
  log : list event
}.

Definition empty_task : task := make_task b_raw None.      (* task() *)
Definition init : world := make_world (fun _ => empty_task) ∅ [].

Section task.
(** The exception a callable throws when it is called, if any. *)
Variable throws : resource -> option exn.

Notation M := (M exn world).

Definition emit (e : event) : M unit :=
  modify (fun w => make_world (tasks w) (heap w) (log w ++ [e])).
Definition get_task (i : addr) : M task := gets (fun w => tasks w i).
Definition put_task (i : addr) (t : task) : M unit :=
  modify (fun w => make_world (<[i := t]> (tasks w)) (heap w) (log w)).
Definition set_buffer (i : addr) (b : buffer) : M unit :=
  t ← get_task i; put_task i (make_task b (m_vtable t)).
Definition set_vtable (i : addr) (v : option callable_type) : M unit :=
  t ← get_task i; put_task i (make_task (m_buffer t) v).
Definition set_heap (h : gmap addr object) : M unit :=
  modify (fun w => make_world (tasks w) h (log w)).

(** ** Objects *)
Definition is_inlinable (c : callable_type) : bool :=
  nothrow_move_constructible c && (size_of c <=? buffer_size)%Z.

(** The destructor of a callable. *)
Definition destruct_object (o : object) : M unit :=
  match o_resource o with
  | Some r => if trivially_destructible (o_type o) then mret tt else emit (ev_destroyed r)
  | None => mret tt
  end.

(** The call operator: the functors of the library give their coroutine away
    ([std::exchange(m_coro_handle, {})], [m_interrupted = nullptr]) and are
    [noexcept]; another callable keeps what it owns, and may throw. *)
Definition call_object (o : object) : M object :=
  match o_resource o with
  | None => abort
  | Some r =>
      emit (ev_called r);;
      match kind (o_type o) with
      | other_callable _ =>
          match throws r with Some e => throw e | None => mret o end
      | _ => mret (make_object (o_type o) None)
      end
  end.

(** ** callable_vtable

    [inline_ptr] and [allocated_ptr]: reading a callable that is not there is
    undefined. *)
Definition inline_ptr (i : addr) : M object :=
  t ← get_task i;
  match m_buffer t with b_object o => mret o | _ => abort end.

Definition allocated_ref_ptr (i : addr) : M (option addr) :=
  t ← get_task i;
  match m_buffer t with b_pointer p => mret p | _ => abort end.

Definition deref (p : option addr) : M object :=
  h ← gets heap;
  match p with
  | Some p => match h !! p with Some o => mret o | None => abort end
  | None => abort
  end.

(** [delete callable_ptr]. *)
Definition delete_callable (p : option addr) (o : object) : M unit :=
  destruct_object o;;
  h ← gets heap;
  match p with Some p => set_heap (delete p h) | None => mret tt end.

Definition move_destroy_inline (src dst : addr) : M unit :=
  o ← inline_ptr src;
  set_buffer dst (b_object o);;
  destruct_object (make_object (o_type o) None);;     (* moved from *)
  set_buffer src b_raw.

Definition move_destroy_allocated (src dst : addr) : M unit :=
  p ← allocated_ref_ptr src;
  set_buffer src (b_pointer None);;
  set_buffer dst (b_pointer p).

Definition execute_destroy_inline (i : addr) : M unit :=
  o ← inline_ptr i;
  o ← call_object o;
  destruct_object o;;
  set_buffer i b_raw.

Definition execute_destroy_allocated (i : addr) : M unit :=
  p ← allocated_ref_ptr i;
  o ← deref p;
  o ← call_object o;
  delete_callable p o.

Definition destroy_inline (i : addr) : M unit :=
  o ← inline_ptr i;
  destruct_object o;;
  set_buffer i b_raw.

Definition destroy_allocated (i : addr) : M unit :=
  p ← allocated_ref_ptr i;
  o ← deref p;
  delete_callable p o.

Definition move_destroy (c : callable_type) (src dst : addr) : M unit :=
  if is_inlinable c then move_destroy_inline src dst else move_destroy_allocated src dst.

Definition execute_destroy (c : callable_type) (i : addr) : M unit :=
  if is_inlinable c then execute_destroy_inline i else execute_destroy_allocated i.

Definition destroy (c : callable_type) (i : addr) : M unit :=
  if is_inlinable c then destroy_inline i else destroy_allocated i.

(** [make_vtable]: is [move_destroy_fn], is [destroy_fn] null? *)
Definition null_move_destroy_fn (c : callable_type) : bool :=
  trivially_copy_constructible c && trivially_destructible c && is_inlinable c.
Definition null_destroy_fn (c : callable_type) : bool :=
  trivially_destructible c && is_inlinable c.

(** [build(dst, callable)]; the callable owns [r].  An allocation that fails
    is not modelled. *)
Definition build_callable (c : callable_type) (r : resource) (i : addr) : M unit :=
  emit (ev_built c r);;
  if is_inlinable c then set_buffer i (b_object (make_object c (Some r)))
  else
    h ← gets heap;
    let p := fresh (dom h) in
    set_heap (<[p := make_object c (Some r)]> h);;
    set_buffer i (b_pointer (Some p)).

(** ** task *)
Definition contains (k : callable_kind) (v : option callable_type) : bool :=
  match v with Some c => bool_decide (kind c = k) | None => false end.

(** [task(callable_type&& callable)]. *)
Definition task_from_callable (i : addr) (c : callable_type) (r : resource) : M unit :=
  build_callable c r i;;
  set_vtable i (Some c).

(** [build(task&& rhs)]. *)
Definition task_build_move (i rhs : addr) : M unit :=
  t ← get_task rhs;
  set_vtable rhs None;;
  set_vtable i (m_vtable t);;
  match m_vtable t with
  | None => mret tt
  | Some c =>
      if contains coroutine_handle_functor (Some c) then move_destroy c rhs i
      else if contains await_via_functor (Some c) then move_destroy c rhs i
      else if null_move_destroy_fn c then
        src ← get_task rhs; set_buffer i (m_buffer src)     (* memcpy *)
      else move_destroy c rhs i
  end.

(** [clear()], and the destructor. *)
Definition task_clear (i : addr) : M unit :=
  t ← get_task i;
  match m_vtable t with
  | None => mret tt
  | Some c =>
      set_vtable i None;;
      if contains coroutine_handle_functor (Some c) then destroy c i
      else if contains await_via_functor (Some c) then destroy c i
      else if null_destroy_fn c then mret tt
      else destroy c i
  end.

(** [operator()]. *)
Definition task_call (i : addr) : M unit :=
  t ← get_task i;
  set_vtable i None;;
  match m_vtable t with
  | None => mret tt
  | Some c => execute_destroy c i
  end.

(** [operator=(task&& rhs)]. *)
Definition task_assign (i rhs : addr) : M unit :=
  if decide (i = rhs) then mret tt
  else
    task_clear i;;
    task_build_move i rhs.

Definition task_bool (t : task) : bool := bool_decide (m_vtable t ≠ None).

(** ** A program that uses tasks *)
Inductive task_op :=
  | op_construct (i : addr) (c : callable_type) (r : resource)
  | op_assign (i rhs : addr)
  | op_call (i : addr)
  | op_clear (i : addr).

Definition run_op (o : task_op) : M unit :=
  match o with
  | op_construct i c r => task_clear i;; task_from_callable i c r
  | op_assign i rhs => task_assign i rhs
  | op_call i => task_call i
  | op_clear i => task_clear i
  end.

(** One operation; every callable owns a resource of its own.  An exception
    of a callable leaves the operation, and the program goes on. *)
Definition was_built (r : resource) (w : world) : bool :=
  existsb (fun e => match e with ev_built _ r' => bool_decide (r = r') | _ => false end) (log w).

Definition op_step (o : task_op) (w : world) : option world :=
  match o with
  | op_construct i c r => if was_built r w then None else Some (run_op o w).2
  | _ => Some (run_op o w).2
  end.

(** ** What is true of the memory *)

(** The task at [i] holds a callable of type [c] that owns [r]. *)
Definition holds (w : world) (i : addr) (c : callable_type) (r : resource) : Prop :=
  m_vtable (tasks w i) = Some c /\
  if is_inlinable c then m_buffer (tasks w i) = b_object (make_object c (Some r))
  else exists p, m_buffer (tasks w i) = b_pointer (Some p) /\
         heap w !! p = Some (make_object c (Some r)).

Definition count (e : event) (l : list event) : nat := length (filter (fun e' => e' = e) l).
Definition calls (w : world) (r : resource) : nat := count (ev_called r) (log w).
Definition destroys (w : world) (r : resource) : nat := count (ev_destroyed r) (log w).

(** How the life of a callable may have ended.  The functors of the library
    own a coroutine: it was resumed, or it was destroyed or interrupted, but
    not both.  Any other callable was called at most once; and it was
    destroyed, unless it threw. *)
Definition ended (w : world) (c : callable_type) (r : resource) : Prop :=
  match kind c with
  | other_callable _ =>
      calls w r <= 1 /\
      destroys w r = if trivially_destructible c then 0
                     else if bool_decide (calls w r = 1) && bool_decide (throws r ≠ None) then 0
                     else 1
  | _ => calls w r + destroys w r = 1
  end.

Definition inv (w : world) : Prop :=
  (forall i c, m_vtable (tasks w i) = Some c -> exists r, holds w i c r) /\
  (forall i j c d r, holds w i c r -> holds w j d r -> i = j) /\
  (forall i c r, holds w i c r ->
     ev_built c r ∈ log w /\ calls w r = 0 /\ destroys w r = 0) /\
  (forall c r, ev_built c r ∈ log w ->
     (exists i, holds w i c r) \/ ((forall i d, ~ holds w i d r) /\ ended w c r)) /\
  (forall r, 0 < calls w r + destroys w r -> was_built r w = true).
End task.

(** ** Lemmas *)
Lemma count_app e l1 l2 : count e (l1 ++ l2) = count e l1 + count e l2.
Proof. unfold count. by rewrite list.filter_app, length_app. Qed.

Lemma count_other e e' : e' <> e -> count e [e'] = 0.
Proof. intros H. unfold count. by rewrite list.filter_cons_False. Qed.

Lemma count_same e : count e [e] = 1.
Proof. unfold count. by rewrite list.filter_cons_True. Qed.

Lemma was_built_spec r w : was_built r w = true <-> exists c, ev_built c r ∈ log w.
Proof.
  unfold was_built. rewrite existsb_exists. split.
  - intros ([c r'| |] & Hin & E); try done. apply bool_decide_eq_true in E as ->.
    exists c. by apply list_elem_of_In.
  - intros [c Hin%list_elem_of_In]. eexists. split; [done|]. simpl. by apply bool_decide_eq_true.
Qed.

Section lemmas.
Variable throws : resource -> option exn.
Implicit Types w : world.

(** The only block that a task uses is its own. *)
Lemma holds_pointer w i j c d r r' p :
  inv throws w -> holds w i c r -> holds w j d r' -> is_inlinable c = false -> is_inlinable d = false ->
  m_buffer (tasks w i) = b_pointer (Some p) -> m_buffer (tasks w j) = b_pointer (Some p) -> i = j.
Proof.
  intros (_ & Hu & _) Hi Hj Ec Ed Ei Ej. pose proof Hi as [_ Hi']. pose proof Hj as [_ Hj'].
  rewrite Ec in Hi'. rewrite Ed in Hj'. destruct Hi' as (q & ? & Hq), Hj' as (q' & ? & Hq').
  assert (q = p) as -> by congruence. assert (q' = p) as -> by congruence.
  rewrite Hq in Hq'. injection Hq' as -> ->. by eapply Hu.
Qed.

Lemma holds_det w i c d r r' : holds w i c r -> holds w i d r' -> c = d /\ r = r'.
Proof.
  intros [E1 H1] [E2 H2]. assert (c = d) as <- by congruence. split; [done|].
  destruct (is_inlinable c); [congruence|].
  destruct H1 as (p & ? & ?), H2 as (p' & ? & ?). congruence.
Qed.

(** *** The end of a callable *)

(** [w'] is [w] after the task [i] has lost its callable; [evs] says how. *)
Definition dropped w w' i c evs : Prop :=
  (forall j, j <> i -> tasks w' j = tasks w j) /\ m_vtable (tasks w' i) = None /\
  log w' = log w ++ evs /\
  (heap w' = heap w \/
   exists p, is_inlinable c = false /\ m_buffer (tasks w i) = b_pointer (Some p) /\ heap w' = delete p (heap w)).

Lemma dropped_holds w w' i c r evs :
  inv throws w -> holds w i c r -> dropped w w' i c evs ->
  forall j d r', holds w' j d r' <-> (j <> i /\ holds w j d r').
Proof.
  intros Hinv Hi (Hot & Hv & _ & Hh) j d r'. split.
  - intros [Ej Hj]. assert (Hji : j <> i) by (intros ->; congruence). split; [done|].
    rewrite Hot in Ej, Hj by done. split; [done|]. destruct (is_inlinable d); [done|].
    destruct Hj as (p & ? & Hp). exists p. split; [done|].
    destruct Hh as [E|(q & _ & _ & E)]; rewrite E in Hp; [done|].
    by apply lookup_delete_Some in Hp as [_ ?].
  - intros [Hji Hj]. pose proof Hj as [Ej Hj']. split; [by rewrite Hot|]. rewrite Hot by done.
    destruct (is_inlinable d) eqn:Ed; [done|]. destruct Hj' as (p & Ep & Hp). exists p. split; [done|].
    destruct Hh as [->|(q & Ec & Eq & ->)]; [done|].
    rewrite lookup_delete_ne; [done|]. intros ->. apply Hji. symmetry. by eapply (holds_pointer w i j).
Qed.

Lemma elem_built_app c r l evs :
  (forall d r', ev_built d r' ∉ evs) -> ev_built c r ∈ l ++ evs <-> ev_built c r ∈ l.
Proof. intros H. rewrite elem_of_app. naive_solver. Qed.

(** Events that are about [r] only. *)
Definition about (r : resource) (evs : list event) : Prop :=
  Forall (fun e => e = ev_called r \/ e = ev_destroyed r) evs.

Lemma about_count r r' e evs :
  about r evs -> r' <> r -> e = ev_called r' \/ e = ev_destroyed r' -> count e evs = 0.
Proof.
  intros Ha Hr He. unfold count. induction Ha as [|x evs Hx Ha IH]; [done|].
  rewrite list.filter_cons_False; [done|]. naive_solver.
Qed.

Lemma about_built r evs d r' : about r evs -> ev_built d r' ∉ evs.
Proof. unfold about. rewrite list.Forall_forall. intros Ha Hin. by apply Ha in Hin as [|]. Qed.

Lemma inv_drop w w' i c r evs :
  inv throws w -> holds w i c r -> dropped w w' i c evs -> about r evs ->
  ended throws (make_world (tasks w) (heap w) evs) c r -> inv throws w'.
Proof.
  intros Hinv Hi Hd Ha He. pose proof (dropped_holds w w' i c r evs Hinv Hi Hd) as Hiff.
  pose proof Hinv as (H1 & H2 & H3 & H4 & H5). destruct Hd as (Hot & Hv & Hl & _).
  assert (Hc : forall r', r' <> r -> calls w' r' = calls w r' /\ destroys w' r' = destroys w r').
  { intros r' Hr. unfold calls, destroys. rewrite Hl, !count_app.
    rewrite !(about_count r r' _ evs) by auto. lia. }
  assert (Hcr : calls w' r = count (ev_called r) evs /\ destroys w' r = count (ev_destroyed r) evs).
  { destruct (H3 i c r Hi) as (_ & E1 & E2). unfold calls, destroys in *. rewrite Hl, !count_app. lia. }
  assert (Hb : forall d r', ev_built d r' ∈ log w' <-> ev_built d r' ∈ log w).
  { intros d r'. rewrite Hl. apply elem_built_app. intros. by eapply about_built. }
  unfold inv. split_ands.
  - intros j d E. destruct (decide (j = i)) as [->|Hji]; [congruence|].
    rewrite Hot in E by done. destruct (H1 j d E) as [r' ?]. exists r'. by apply Hiff.
  - intros j k d d' r' [_ ?]%Hiff [_ ?]%Hiff. by eapply H2.
  - intros j d r' [Hji Hj]%Hiff. rewrite Hb. destruct (H3 j d r' Hj) as (?&?&?).
    assert (r' <> r) by (intros ->; apply Hji; by eapply H2).
    destruct (Hc r') as [-> ->]; done.
  - intros d r' Hbu%Hb. destruct (decide (r' = r)) as [->|Hr].
    + right. assert (Hno : forall j d', ~ holds w' j d' r).
      { intros j d' [Hji Hj]%Hiff. apply Hji. by eapply H2. }
      split; [done|]. destruct (H4 d r Hbu) as [[j Hj]|[Hno' _]]; [|by destruct (Hno' i c)].
      assert (j = i) as -> by (by eapply H2). destruct (holds_det w i c d r r Hi Hj) as [<- _].
      unfold ended in *. destruct Hcr as [-> ->]. exact He.
    + destruct (H4 d r' Hbu) as [[j Hj]|[Hno Hen]].
      * left. exists j. apply Hiff. split; [|done]. intros ->.
        by destruct (holds_det w i c d r r' Hi Hj) as [_ ?].
      * right. split; [intros j d' [_ ?]%Hiff; by eapply Hno|].
        unfold ended in *. by destruct (Hc r' Hr) as [-> ->].
  - intros r' Hpos. apply was_built_spec. destruct (decide (r' = r)) as [->|Hr].
    + exists c. apply Hb. by apply (H3 i c r).
    + destruct (Hc r' Hr) as [E1 E2]. rewrite E1, E2 in Hpos.
      apply H5, was_built_spec in Hpos as [d Hd]. exists d. by apply Hb.
Qed.
(** *** A callable changes its task *)
Lemma inv_moved w w' i j c r :
  inv throws w -> i <> j -> holds w j c r -> m_vtable (tasks w i) = None ->
  (forall k, k <> i -> k <> j -> tasks w' k = tasks w k) -> m_vtable (tasks w' j) = None ->
  m_vtable (tasks w' i) = Some c -> m_buffer (tasks w' i) = m_buffer (tasks w j) ->
  heap w' = heap w -> log w' = log w -> inv throws w'.
Proof.
  intros Hinv Hij Hj Hi Hot Ej Ei Eb Hh Hl. pose proof Hinv as (H1 & H2 & H3 & H4 & H5).
  assert (Hiff : forall k d r', holds w' k d r' <->
    (k = i /\ d = c /\ r' = r) \/ (k <> i /\ k <> j /\ holds w k d r')).
  { intros k d r'. destruct (decide (k = i)) as [->|Hki].
    - split.
      + intros Hk. assert (Hk' : holds w j d r').
        { destruct Hk as [E1 E2]. rewrite Eb, Hh in E2. rewrite Ei in E1. split; [|done].
          destruct Hj as [? _]. congruence. }
        destruct (holds_det w j c d r r' Hj Hk') as [-> ->]. by left.
      + intros [(_ & -> & ->)|[? _]]; [|done]. destruct Hj as [_ Hj]. split; [done|].
        by rewrite Eb, Hh.
    - destruct (decide (k = j)) as [->|Hkj].
      + split; [intros [? _]; congruence|naive_solver].
      + unfold holds. rewrite Hot, Hh by done. naive_solver. }
  unfold inv, calls, destroys, was_built, ended in *. unfold calls, destroys in *. rewrite Hl. split_ands.
  - intros k d E. destruct (decide (k = i)) as [->|Hki].
    + assert (d = c) as -> by congruence. exists r. apply Hiff. by left.
    + destruct (decide (k = j)) as [->|Hkj]; [congruence|]. rewrite Hot in E by done.
      destruct (H1 k d E) as [r' ?]. exists r'. apply Hiff. by right.
  - intros k1 k2 d1 d2 r' [(->&->&->)|(?&?&Hk1)]%Hiff [(->&->&?)|(?&?&Hk2)]%Hiff; subst.
    + done.
    + exfalso. assert (j = k2) by (by eapply H2). done.
    + exfalso. assert (j = k1) by (by eapply H2). done.
    + by eapply H2.
  - intros k d r' [(->&->&->)|(?&?&Hk)]%Hiff; [by apply (H3 j)|by apply (H3 k)].
  - intros d r' Hb. destruct (H4 d r' Hb) as [[k Hk]|[Hno ?]].
    + left. destruct (decide (k = j)) as [->|Hkj].
      * destruct (holds_det w j c d r r' Hj Hk) as [-> ->]. exists i. apply Hiff. by left.
      * exists k. apply Hiff. right. split_ands; [|done|done]. intros ->. destruct Hk as [? _]. congruence.
    + right. split; [|done]. intros k d' [(->&->&->)|(?&?&?)]%Hiff; [by eapply Hno|by eapply Hno].
  - done.
Qed.

(** *** A callable is built *)
Lemma inv_built w w' i c r :
  inv throws w -> was_built r w = false -> m_vtable (tasks w i) = None ->
  (forall k, k <> i -> tasks w' k = tasks w k) -> holds w' i c r ->
  (forall p o, heap w !! p = Some o -> heap w' !! p = Some o) ->
  log w' = log w ++ [ev_built c r] -> inv throws w'.
Proof.
  intros Hinv Hnb Hi Hot Hn Hh Hl. pose proof Hinv as (H1 & H2 & H3 & H4 & H5).
  assert (Hold : forall k d r', k <> i -> holds w k d r' -> holds w' k d r').
  { intros k d r' Hk [E Hkd]. split; [by rewrite Hot|]. rewrite Hot by done.
    destruct (is_inlinable d); [done|]. destruct Hkd as (p & ? & ?). eauto. }
  assert (Hback : forall k d r', k <> i -> holds w' k d r' -> holds w k d r').
  { intros k d r' Hk Hkd. pose proof Hkd as [E _]. rewrite Hot in E by done.
    destruct (H1 k d E) as [r2 Hr2]. pose proof (Hold k d r2 Hk Hr2) as Hr2'.
    by destruct (holds_det w' k d d r' r2 Hkd Hr2') as [_ ->]. }
  assert (Hc : forall r', calls w' r' = calls w r' /\ destroys w' r' = destroys w r').
  { intros r'. unfold calls, destroys. rewrite Hl, !count_app.
    rewrite !(count_other _ (ev_built c r)) by done. lia. }
  assert (Hz : calls w r = 0 /\ destroys w r = 0).
  { destruct (decide (0 < calls w r + destroys w r)) as [Hp|]; [|lia]. apply H5 in Hp. congruence. }
  assert (Hnew : forall d, ev_built d r ∉ log w).
  { intros d Hd. assert (was_built r w = true) by (apply was_built_spec; eauto). congruence. }
  unfold inv. split_ands.
  - intros k d E. destruct (decide (k = i)) as [->|Hki].
    + exists r. destruct Hn as [E' ?]. assert (d = c) as -> by congruence. done.
    + rewrite Hot in E by done. destruct (H1 k d E) as [r' ?]. eauto.
  - intros k1 k2 d1 d2 r' Hk1 Hk2.
    destruct (decide (k1 = i)) as [->|Hn1], (decide (k2 = i)) as [->|Hn2]; [done|..].
    + destruct (holds_det w' i c d1 r r' Hn Hk1) as [_ <-]. apply Hback in Hk2; [|done].
      apply H3 in Hk2 as [Hb _]. by apply Hnew in Hb.
    + destruct (holds_det w' i c d2 r r' Hn Hk2) as [_ <-]. apply Hback in Hk1; [|done].
      apply H3 in Hk1 as [Hb _]. by apply Hnew in Hb.
    + apply Hback in Hk1, Hk2; [|done..]. by eapply H2.
  - intros k d r' Hk. destruct (Hc r') as [-> ->]. rewrite Hl.
    destruct (decide (k = i)) as [->|Hki].
    + destruct (holds_det w' i c d r r' Hn Hk) as [<- <-]. split; [|done].
      apply elem_of_app. right. by left.
    + apply Hback in Hk; [|done]. destruct (H3 k d r' Hk) as (?&?&?). split; [|done].
      apply elem_of_app. by left.
  - intros d r' Hb. rewrite Hl, elem_of_app, list_elem_of_singleton in Hb.
    destruct Hb as [Hb|[= -> ->]]; [|left; by exists i].
    destruct (H4 d r' Hb) as [[k Hk]|[Hno He]].
    + left. exists k. apply Hold; [|done]. intros ->. destruct Hk as [? _]. congruence.
    + right. split.
      * intros k d' Hk. destruct (decide (k = i)) as [->|Hki].
        -- destruct (holds_det w' i c d' r r' Hn Hk) as [_ <-]. by apply Hnew in Hb.
        -- apply Hback in Hk; [|done]. by eapply Hno.
      * unfold ended in *. by destruct (Hc r') as [-> ->].
  - intros r' Hp. destruct (Hc r') as [E1 E2]. rewrite E1, E2 in Hp. apply H5 in Hp.
    apply was_built_spec in Hp as [d Hd]. apply was_built_spec. exists d. rewrite Hl.
    apply elem_of_app. by left.
Qed.
(** *** The operations of task *)
Ltac run_m := unfold mbind, M_bind, mret, M_ret, gets, modify, get_state; simpl.

(** The buffer of [i] stores a callable, whatever the vtable says. *)
Definition stores w i c r : Prop :=
  if is_inlinable c then m_buffer (tasks w i) = b_object (make_object c (Some r))
  else exists p, m_buffer (tasks w i) = b_pointer (Some p) /\
         heap w !! p = Some (make_object c (Some r)).

(** [w'] is [w] after the callable in the buffer of [i] has come to its end. *)
Definition finished w w' i c evs : Prop :=
  (forall j, j <> i -> tasks w' j = tasks w j) /\ m_vtable (tasks w' i) = m_vtable (tasks w i) /\
  log w' = log w ++ evs /\
  (heap w' = heap w \/
   exists p, is_inlinable c = false /\ m_buffer (tasks w i) = b_pointer (Some p) /\ heap w' = delete p (heap w)).

Definition destruction c r : list event :=
  if trivially_destructible c then [] else [ev_destroyed r].

Lemma destruct_object_spec o w :
  destruct_object o w =
  (Ok tt, make_world (tasks w) (heap w)
     (log w ++ match o_resource o with Some r => destruction (o_type o) r | None => [] end)).
Proof.
  unfold destruct_object, destruction, emit, modify. destruct w. simpl.
  repeat case_match; unfold mret, M_ret; by rewrite ?app_nil_r.
Qed.

Lemma destroy_spec w i c r :
  stores w i c r ->
  exists w', destroy c i w = (Ok tt, w') /\ finished w w' i c (destruction c r).
Proof.
  unfold stores, destroy, finished. destruct (is_inlinable c) eqn:Ec.
  - intros Hb. unfold destroy_inline, inline_ptr, get_task, set_buffer, put_task. run_m. rewrite Hb. run_m.
    rewrite destruct_object_spec. simpl. eexists. split; [done|]. simpl. rewrite fn_lookup_insert.
    split_ands; [|done|done|by left]. intros j Hj. by rewrite fn_lookup_insert_ne.
  - intros (p & Hb & Hp).
    unfold destroy_allocated, allocated_ref_ptr, deref, delete_callable, get_task, set_heap. run_m.
    rewrite Hb. run_m. rewrite Hp. run_m. rewrite destruct_object_spec. simpl.
    eexists. split; [done|]. simpl. split_ands; [done|done|done|]. right. eauto.
Qed.

(** What a call leaves in the log, and its outcome. *)
Definition call_outcome c r : outcome exn unit :=
  match kind c, throws r with other_callable _, Some e => Throw e | _, _ => Ok tt end.
Definition call_events c r : list event :=
  ev_called r ::
  match kind c, throws r with
  | other_callable _, Some _ => []
  | other_callable _, None => destruction c r
  | _, _ => []
  end.

Lemma call_object_spec c r w :
  let w' := make_world (tasks w) (heap w) (log w ++ [ev_called r]) in
  call_object throws (make_object c (Some r)) w =
  match kind c, throws r with
  | other_callable _, Some e => (Throw e, w')
  | other_callable _, None => (Ok (make_object c (Some r)), w')
  | _, _ => (Ok (make_object c None), w')
  end.
Proof. unfold call_object, emit. run_m. by repeat case_match. Qed.

Lemma execute_spec w i c r :
  stores w i c r ->
  exists w', execute_destroy throws c i w = (call_outcome c r, w') /\
    finished w w' i c (call_events c r).
Proof.
  unfold stores, execute_destroy, finished, call_outcome, call_events. destruct (is_inlinable c) eqn:Ec.
  - intros Hb. unfold execute_destroy_inline, inline_ptr, get_task, set_buffer, put_task.
    run_m. rewrite Hb. run_m. rewrite call_object_spec.
    destruct (kind c), (throws r); simpl; rewrite ?destruct_object_spec; eexists; (split; [done|]); simpl;
      rewrite ?fn_lookup_insert, <-?app_assoc; split_ands; try done; try (by left); intros j Hj;
      by rewrite fn_lookup_insert_ne.
  - intros (p & Hb & Hp).
    unfold execute_destroy_allocated, allocated_ref_ptr, deref, delete_callable, get_task, set_heap.
    run_m. rewrite Hb. run_m. rewrite Hp. run_m. rewrite call_object_spec.
    destruct (kind c), (throws r); simpl; rewrite ?destruct_object_spec; eexists; (split; [done|]); simpl;
      rewrite <-?app_assoc; split_ands; try done; eauto.
Qed.

(** Moving the callable of [j] to [i]. *)
Definition transferred w w' i j : Prop :=
  (forall k, k <> i -> k <> j -> tasks w' k = tasks w k) /\
  m_vtable (tasks w' j) = m_vtable (tasks w j) /\ m_vtable (tasks w' i) = m_vtable (tasks w i) /\
  m_buffer (tasks w' i) = m_buffer (tasks w j) /\ heap w' = heap w /\ log w' = log w.

Lemma move_destroy_spec w i j c r :
  stores w j c r -> i <> j ->
  exists w', move_destroy c j i w = (Ok tt, w') /\ transferred w w' i j.
Proof.
  unfold stores, move_destroy, transferred. intros Hb Hij. destruct (is_inlinable c) eqn:Ec.
  - unfold move_destroy_inline, inline_ptr, get_task, set_buffer, put_task. run_m. rewrite Hb. run_m.
    eexists. split; [done|]. simpl.
    rewrite fn_lookup_insert, !(fn_lookup_insert_ne _ i j), (fn_lookup_insert_ne _ j i), fn_lookup_insert by done.
    split_ands; try done. intros k ? ?. by rewrite !fn_lookup_insert_ne.
  - destruct Hb as (p & Hb & Hp).
    unfold move_destroy_allocated, allocated_ref_ptr, get_task, set_buffer, put_task. run_m. rewrite Hb. run_m.
    eexists. split; [done|]. simpl.
    rewrite fn_lookup_insert, (fn_lookup_insert_ne _ i j), fn_lookup_insert, (fn_lookup_insert_ne _ j i) by done.
    split_ands; try done. intros k ? ?. by rewrite !fn_lookup_insert_ne.
Qed.

(** ** Every operation keeps the invariant, and none aborts *)

Lemma stores_holds w i c r : holds w i c r -> stores w i c r.
Proof. by intros [_ ?]. Qed.

Lemma about_destruction c r : about r (destruction c r).
Proof. unfold destruction. destruct (trivially_destructible c); [constructor|]. constructor; [by right|constructor]. Qed.

Lemma count_destruction c r :
  count (ev_called r) (destruction c r) = 0 /\
  count (ev_destroyed r) (destruction c r) = Nat.b2n (negb (trivially_destructible c)).
Proof.
  unfold destruction. destruct (trivially_destructible c); simpl; [done|].
  by rewrite count_same, count_other.
Qed.

Lemma ended_destruction t h c r : ended throws (make_world t h (destruction c r)) c r.
Proof.
  unfold ended, calls, destroys. simpl. destruct (count_destruction c r) as [-> ->].
  unfold trivially_destructible. destruct (kind c); simpl; try done. split; [lia|].
  by destruct (trivial_destructor c).
Qed.

Lemma ended_call t h c r : ended throws (make_world t h (call_events c r)) c r.
Proof.
  unfold ended, calls, destroys, call_events. simpl.
  assert (E : forall l, ev_called r :: l = [ev_called r] ++ l) by done. rewrite E, !count_app.
  rewrite count_same, (count_other (ev_destroyed r) (ev_called r)) by done.
  destruct (kind c) eqn:Ek; simpl; try done. destruct (throws r) eqn:Et; simpl.
  - split; [done|]. by destruct (trivially_destructible c).
  - destruct (count_destruction c r) as [-> ->]. split; [done|].
    by destruct (trivially_destructible c).
Qed.

Lemma about_call c r : about r (call_events c r).
Proof.
  unfold call_events. constructor; [by left|].
  destruct (kind c), (throws r); try constructor. apply about_destruction.
Qed.

(** What an operation leaves of the other tasks and of the log. *)
Definition keeps i w w' : Prop :=
  (forall j, j <> i -> tasks w' j = tasks w j) /\ forall r, was_built r w' = was_built r w.

Lemma finished_dropped w w' i c v evs :
  m_vtable v = None ->
  m_buffer v = m_buffer (tasks w i) ->
  finished (make_world (<[i := v]> (tasks w)) (heap w) (log w)) w' i c evs -> dropped w w' i c evs.
Proof.
  intros Ev Eb (H1 & H2 & H3 & H4). unfold dropped. simpl in *. rewrite fn_lookup_insert in *. split_ands.
  - intros j Hj. rewrite H1, fn_lookup_insert_ne; done.
  - congruence.
  - done.
  - by rewrite Eb in H4.
Qed.

Lemma dropped_keeps w w' i c r evs : dropped w w' i c evs -> about r evs -> keeps i w w'.
Proof.
  intros (H1 & _ & H3 & _) Ha. split; [done|]. intros r'. apply eq_true_iff_eq.
  rewrite !was_built_spec, H3. split; intros [d Hd]; exists d; revert Hd; rewrite elem_built_app;
    try done; intros; by eapply about_built.
Qed.

(** Nothing that a task holds has changed. *)
Lemma inv_same_holds w w' :
  inv throws w -> (forall k d r, holds w' k d r <-> holds w k d r) -> log w' = log w ->
  (forall k d, m_vtable (tasks w' k) = Some d -> m_vtable (tasks w k) = Some d) -> inv throws w'.
Proof.
  intros (H1&H2&H3&H4&H5) Hiff Hl Hv.
  unfold inv, calls, destroys, was_built, ended in *. unfold calls, destroys in *. rewrite Hl. split_ands.
  - intros k d E%Hv. destruct (H1 k d E) as [r' ?]. exists r'. by apply Hiff.
  - intros k1 k2 d1 d2 r' ?%Hiff ?%Hiff. by eapply H2.
  - intros k d r' ?%Hiff. by eapply H3.
  - intros d r' Hb. destruct (H4 d r' Hb) as [[k ?]|[Hno ?]].
    + left. exists k. by apply Hiff.
    + right. split; [|done]. intros k d' ?%Hiff. by eapply Hno.
  - done.
Qed.

Lemma task_clear_inv w i :
  inv throws w ->
  exists w', task_clear i w = (Ok tt, w') /\ inv throws w' /\ m_vtable (tasks w' i) = None /\ keeps i w w'.
Proof.
  intros Hinv. unfold task_clear, get_task. run_m. destruct (m_vtable (tasks w i)) as [c|] eqn:Ev.
  2: { exists w. unfold keeps. done. }
  pose proof Hinv as (H1 & _). destruct (H1 i c Ev) as [r Hr].
  set (w1 := make_world _ _ _).
  assert (Hs : stores w1 i c r).
  { unfold stores, w1. simpl. rewrite fn_lookup_insert. simpl. by apply stores_holds in Hr. }
  assert (Hgoal : forall w' evs, finished w1 w' i c evs -> about r evs ->
    ended throws (make_world (tasks w) (heap w) evs) c r ->
    inv throws w' /\ m_vtable (tasks w' i) = None /\ keeps i w w').
  { intros w' evs Hf%finished_dropped Ha He; [|done..].
    split_ands; [by eapply inv_drop|by destruct Hf as (_&?&_)|by eapply dropped_keeps]. }
  destruct (destroy_spec w1 i c r Hs) as (w' & E & Hf).
  assert (Hw' : inv throws w' /\ m_vtable (tasks w' i) = None /\ keeps i w w').
  { eapply Hgoal; [done|apply about_destruction|apply ended_destruction]. }
  destruct (bool_decide (kind c = coroutine_handle_functor)); [by exists w'|].
  destruct (bool_decide (kind c = await_via_functor)); [by exists w'|].
  destruct (null_destroy_fn c) eqn:En; [|by exists w'].
  exists w1. split; [done|]. apply andb_true_iff in En as [En _].
  apply (Hgoal w1 []).
  - unfold finished. rewrite app_nil_r. split_ands; try done. by left.
  - constructor.
  - pose proof (ended_destruction (tasks w) (heap w) c r) as He. unfold destruction in He.
    by rewrite En in He.
Qed.

Lemma task_call_inv w i :
  inv throws w ->
  exists o w', task_call throws i w = (o, w') /\ is_Abort o = false /\ inv throws w'.
Proof.
  intros Hinv. unfold task_call, get_task. run_m.
  set (w1 := make_world _ _ _). destruct (m_vtable (tasks w i)) as [c|] eqn:Ev.
  - pose proof Hinv as (H1 & _). destruct (H1 i c Ev) as [r Hr].
    assert (Hs : stores w1 i c r).
    { unfold stores, w1. simpl. rewrite fn_lookup_insert. simpl. by apply stores_holds in Hr. }
    destruct (execute_spec w1 i c r Hs) as (w' & E & Hf%finished_dropped); [|done..].
    eexists _, w'. split; [exact E|]. split; [unfold call_outcome; by destruct (kind c), (throws r)|].
    eapply inv_drop; [done|done|done|apply about_call|apply ended_call].
  - exists (Ok tt), w1. split; [done|]. split; [done|].
    assert (Hiff : forall k d r', holds w1 k d r' <-> holds w k d r').
    { intros k d r'. unfold holds, w1. simpl. destruct (decide (k = i)) as [->|Hk].
      - rewrite fn_lookup_insert. simpl. rewrite Ev. naive_solver.
      - by rewrite fn_lookup_insert_ne. }
    eapply (inv_same_holds w w1); [done|done|done|].
    intros k d E. unfold w1 in E. simpl in E. destruct (decide (k = i)) as [->|Hk].
    + by rewrite fn_lookup_insert in E.
    + by rewrite fn_lookup_insert_ne in E.
Qed.
Lemma task_build_move_inv w i j :
  inv throws w -> i <> j -> m_vtable (tasks w i) = None ->
  exists w', task_build_move i j w = (Ok tt, w') /\ inv throws w' /\
    m_vtable (tasks w' i) = m_vtable (tasks w j) /\ m_vtable (tasks w' j) = None.
Proof.
  intros Hinv Hij Ei. unfold task_build_move, get_task. run_m.
  rewrite fn_lookup_insert_ne by done.
  set (w1 := make_world _ _ _).
  assert (E1 : tasks w1 i = make_task (m_buffer (tasks w i)) (m_vtable (tasks w j))).
  { unfold w1. simpl. by rewrite fn_lookup_insert. }
  assert (E2 : tasks w1 j = make_task (m_buffer (tasks w j)) None).
  { unfold w1. simpl. by rewrite fn_lookup_insert_ne, fn_lookup_insert. }
  assert (E3 : forall k, k <> i -> k <> j -> tasks w1 k = tasks w k).
  { intros k ? ?. unfold w1. simpl. by rewrite !fn_lookup_insert_ne. }
  destruct (m_vtable (tasks w j)) as [c|] eqn:Ej.
  - pose proof Hinv as (H1 & _). destruct (H1 j c Ej) as [r Hr].
    assert (Hs : stores w1 j c r).
    { unfold stores. rewrite E2. simpl. by apply stores_holds in Hr. }
    destruct (move_destroy_spec w1 i j c r Hs Hij) as (w' & E & Ht).
    assert (Hgoal : forall w', transferred w1 w' i j ->
      inv throws w' /\ m_vtable (tasks w' i) = Some c /\ m_vtable (tasks w' j) = None).
    { intros w2 (T1 & T2 & T3 & T4 & T5 & T6). rewrite E1 in T3. rewrite E2 in T2, T4. simpl in *.
      split_ands; [|done|done]. eapply (inv_moved w w2 i j c r); try done.
      intros k ? ?. by rewrite T1, E3. }
    destruct (bool_decide (kind c = coroutine_handle_functor)); [eauto|].
    destruct (bool_decide (kind c = await_via_functor)); [eauto|].
    destruct (null_move_destroy_fn c); [|eauto].
    run_m. eexists. split; [done|]. apply Hgoal. unfold transferred. simpl.
    rewrite !fn_lookup_insert, !(fn_lookup_insert_ne _ i j), fn_lookup_insert by done.
    split_ands; try done. intros k ? ?. by rewrite !fn_lookup_insert_ne.
  - exists w1. split; [done|]. rewrite E1, E2. split; [|done].
    pose proof Hinv as (H1&H2&H3&H4&H5).
    assert (Hiff : forall k d r', holds w1 k d r' <-> holds w k d r').
    { intros k d r'. unfold holds. destruct (decide (k = i)) as [->|Hki].
      - rewrite E1. simpl. rewrite Ei. naive_solver.
      - destruct (decide (k = j)) as [->|Hkj].
        + rewrite E2. simpl. rewrite Ej. naive_solver.
        + rewrite E3 by done. done. }
    eapply (inv_same_holds w w1); [done|done|done|].
    intros k d E. destruct (decide (k = i)) as [->|Hki]; [by rewrite E1 in E|].
    destruct (decide (k = j)) as [->|Hkj]; [by rewrite E2 in E|]. by rewrite E3 in E.
Qed.
Lemma task_from_callable_inv w i c r :
  inv throws w -> m_vtable (tasks w i) = None -> was_built r w = false ->
  exists w', task_from_callable i c r w = (Ok tt, w') /\ inv throws w' /\ holds w' i c r.
Proof.
  intros Hinv Ei Hnb. unfold task_from_callable, build_callable, emit, set_heap, set_buffer, put_task, get_task.
  run_m. destruct (is_inlinable c) eqn:Ec; run_m; eexists; (split; [done|]).
  - assert (Hh : holds (make_world
       (<[i := make_task (b_object (make_object c (Some r))) (Some c)]>
          (<[i := make_task (b_object (make_object c (Some r))) (m_vtable (tasks w i))]> (tasks w)))
       (heap w) (log w ++ [ev_built c r])) i c r).
    { split; simpl; rewrite ?Ec, fn_lookup_insert; done. }
    simpl. rewrite !fn_lookup_insert. simpl. split; [|done]. eapply (inv_built w _ i c r); try done.
    intros k Hk. simpl. by rewrite !fn_lookup_insert_ne.
  - set (p := fresh (dom (heap w))).
    assert (Hp : heap w !! p = None) by (apply not_elem_of_dom, is_fresh).
    simpl. rewrite !fn_lookup_insert. simpl.
    set (w' := make_world _ _ _).
    assert (Hh : holds w' i c r).
    { split; unfold w'; simpl; rewrite ?Ec, fn_lookup_insert; [done|]. exists p. split; [done|].
      apply lookup_insert_eq. }
    split; [|done]. eapply (inv_built w _ i c r); try done.
    + intros k Hk. unfold w'. simpl. by rewrite !fn_lookup_insert_ne.
    + intros q o Hq. unfold w'. simpl. rewrite lookup_insert_ne; [done|]. congruence.
Qed.

Lemma run_op_inv w o :
  inv throws w -> (forall i c r, o = op_construct i c r -> was_built r w = false) ->
  is_Abort (run_op throws o w).1 = false /\ inv throws (run_op throws o w).2.
Proof.
  intros Hinv Hnb. destruct o as [i c r|i rhs|i|i]; simpl.
  - destruct (task_clear_inv w i Hinv) as (w1 & E & Hi & Hv & _ & Hk). run_m. rewrite E.
    destruct (task_from_callable_inv w1 i c r Hi Hv) as (w2 & -> & Hi2 & _); [|done].
    rewrite Hk. by eapply Hnb.
  - unfold task_assign. destruct (decide (i = rhs)) as [->|Hne]; [done|].
    destruct (task_clear_inv w i Hinv) as (w1 & E & Hi & Hv & _). run_m. rewrite E.
    destruct (task_build_move_inv w1 i rhs Hi Hne Hv) as (w2 & -> & Hi2 & _). done.
  - destruct (task_call_inv w i Hinv) as (o & w' & -> & ? & ?). done.
  - destruct (task_clear_inv w i Hinv) as (w' & -> & ? & ?). done.
Qed.

Lemma task_inv_init : inv throws init.
Proof.
  unfold inv, init, holds, calls, destroys, count, was_built. simpl. split_ands.
  - done.
  - by intros i j c d r [? _].
  - by intros i c r [? _].
  - intros c r Hin. by apply not_elem_of_nil in Hin.
  - intros r Hr. lia.
Qed.

Lemma task_inv_reachable w : reachable (op_step throws) init w -> inv throws w.
Proof.
  apply reachable_invariant; [apply task_inv_init|]. intros o s s' Hi Hs. unfold op_step in Hs.
  assert (Hs' : s' = (run_op throws o s).2 /\
    forall i c r, o = op_construct i c r -> was_built r s = false).
  { destruct o; simplify_eq; try done. destruct (was_built r s) eqn:E; simplify_eq.
    split; [done|]. intros ??? [= _ _ <-]. done. }
  destruct Hs' as [-> Hb]. by apply run_op_inv.
Qed.

(** ** Theorems *)

(** C9.  Every callable that was ever stored in a task ends exactly once: it
    is still in one single task, and was neither called nor destroyed; or no
    task holds it, and it was called at most once and destroyed exactly once,
    unless its call threw.  A coroutine (of [task(coroutine_handle)] or of
    [await_via_functor]) is resumed or destroyed, never both and never
    neither. *)
Theorem callable_ends_exactly_once w c r :
  reachable (op_step throws) init w -> ev_built c r ∈ log w ->
  (exists i, holds w i c r /\ (forall j d, holds w j d r -> j = i) /\ calls w r = 0 /\ destroys w r = 0) \/
  ((forall i d, ~ holds w i d r) /\ ended throws w c r).
Proof.
  intros (_&H2&H3&H4&_)%task_inv_reachable Hb. destruct (H4 c r Hb) as [[i Hi]|?]; [left|by right].
  exists i. split; [done|]. split; [intros j d Hj; by eapply H2|by apply (H3 i c r)].
Qed.

(** No operation on tasks reaches undefined behaviour: the callable that
    the vtable names is always in the buffer, or in the block the buffer points
    to; [operator()] and [clear] leave the task empty, and [operator=] moves the
    callable and leaves the other task empty. *)
Theorem task_operations_are_defined w i j :
  reachable (op_step throws) init w ->
  (forall o, is_Abort (run_op throws o w).1 = true -> exists k c r, o = op_construct k c r /\ was_built r w = true) /\
  m_vtable (tasks (run_op throws (op_clear i) w).2 i) = None /\
  (i <> j ->
     let w' := (run_op throws (op_assign i j) w).2 in
     (run_op throws (op_assign i j) w).1 = Ok tt /\
     m_vtable (tasks w' i) = m_vtable (tasks w j) /\ m_vtable (tasks w' j) = None).
Proof.
  intros Hinv%task_inv_reachable. split_ands.
  - intros o Ho. destruct o as [k c r|k l|k|k].
    + destruct (was_built r w) eqn:E; [by exists k, c, r|]. exfalso.
      destruct (run_op_inv w (op_construct k c r) Hinv) as [? _]; [by intros ??? [= _ _ <-]|congruence].
    + destruct (run_op_inv w (op_assign k l) Hinv) as [? _]; [done|congruence].
    + destruct (run_op_inv w (op_call k) Hinv) as [? _]; [done|congruence].
    + destruct (run_op_inv w (op_clear k) Hinv) as [? _]; [done|congruence].
  - simpl. destruct (task_clear_inv w i Hinv) as (w' & -> & _ & ? & _). done.
  - intros Hij. simpl. unfold task_assign. rewrite decide_False by done.
    destruct (task_clear_inv w i Hinv) as (w1 & E & Hi & Hv & [Hk _]). run_m. rewrite E.
    destruct (task_build_move_inv w1 i j Hi Hij Hv) as (w2 & -> & _ & E1 & E2).
    simpl. rewrite E1, E2, Hk by done. done.
Qed.
End lemmas.

(** ** Concrete runs *)
Section runs.
Definition small_callable : callable_type := make_type (other_callable 0) 16 true false false.
Definition big_callable : callable_type := make_type (other_callable 1) 200 true false false.
Definition coroutine_callable : callable_type := make_type coroutine_handle_functor 8 true false false.

(** The callable 2 throws. *)
Definition second_throws (r : resource) : option exn :=
  if decide (r = 2) then Some (make_exn (user_exception 0) k_broken_task_exception_error_msg) else None.

Definition run_move : list task_op :=
  [op_construct 0 small_callable 1; op_assign 1 0; op_call 1; op_clear 1; op_call 0].
Definition run_throw : list task_op := [op_construct 0 big_callable 2; op_call 0; op_clear 0].
End runs.

(** A callable that throws is leaked: [execute_destroy] does not catch, so
    that neither the destructor of the callable nor the [delete] of its block
    runs, and the task has already forgotten it. *)
Lemma throwing_callable_is_leaked :
  let w := after (op_step second_throws) init run_throw in
  reachable (op_step second_throws) init w /\
  log w = [ev_built big_callable 2; ev_called 2] /\ destroys w 2 = 0 /\
  m_vtable (tasks w 0) = None /\ size (heap w) = 1.
Proof. split; [apply after_reachable|]. by vm_compute. Qed.

(** ** Witnesses *)
Lemma callable_ends_exactly_once_witness :
  (exists i, holds (after (op_step second_throws) init run_move) i small_callable 1 /\
     (forall j d, holds (after (op_step second_throws) init run_move) j d 1 -> j = i) /\
     calls (after (op_step second_throws) init run_move) 1 = 0 /\
     destroys (after (op_step second_throws) init run_move) 1 = 0) \/
  ((forall i d, ~ holds (after (op_step second_throws) init run_move) i d 1) /\
   ended second_throws (after (op_step second_throws) init run_move) small_callable 1).
Proof.
  apply (callable_ends_exactly_once second_throws); [apply after_reachable|].
  apply list_elem_of_In. vm_compute. by left.
Defined.

Lemma task_operations_are_defined_witness :
  m_vtable (tasks (run_op second_throws (op_clear 0) init).2 0) = None.
Proof.
  exact (proj1 (proj2 (task_operations_are_defined second_throws init 0 1 (reachable_init _ _)))).
Defined.
