(* ===== verification/ManualExecutor.v ===== *)
(** * manual_executor: tasks that run when the application says so

    [include/concurrencpp/executors/manual_executor.h] and
    [source/executors/manual_executor.cpp].

    A thread that calls a member function is interleaved with an environment:
    the other threads, the code of the tasks that the thread runs, and the
    clock.  The environment is a script: at each point where the thread does
    not hold [m_lock], the next entry of the script happens, any number of
    critical sections of other threads: they may enqueue, shut down, clear, and
    be in loops of their own, in which they take tasks from the queue and call
    them later.  A theorem that holds for every script holds for every
    interleaving. *)

From Stdlib Require Import ZArith.
From stdpp Require Import prelude list.
From S2P Require Import Prelude Errors.

(** A task, by its identity. *)
Definition task_id : Type := nat.

(** ** The executor *)

(** What other threads do, at the granularity of their critical sections:
    [shutdown()] sets [m_atomic_abort] first and takes the lock afterwards. *)
Inductive env_op :=
  | env_enqueue (ts : list task_id)
  | env_shutdown_flag
  | env_shutdown_lock
  | env_clear
  | env_pop              (* a loop takes the front of the queue *)
  | env_call (i : nat)   (* and the [i]-th of the tasks so taken is called *)
  | env_wake.            (* a spurious wake-up, or nothing *)

(** Some operations, and the milliseconds that have passed. *)
Record env_entry := make_entry { ops : list env_op; elapsed : Z }.

Record manual_executor := make_executor {
  m_tasks : list task_id;
  m_abort : bool;
  m_atomic_abort : bool;
  (* the outside *)
  now : Z;                           (* system_clock::now() *)
  script : list env_entry;
  task_code : task_id -> option exn; (* what the call of a task throws *)
  executed : list task_id;           (* the tasks that this thread called, in order *)
  elsewhere : list task_id;          (* the tasks that other threads called, in order *)
  holding : list task_id;            (* [task] of the loop of this thread, before the call *)
  in_hand : list task_id;            (* [task] of the loops of other threads *)
  taken : list task_id;              (* the tasks that left the queue to be called, in order *)
  destroyed : list task_id;          (* the tasks that were destroyed without a call *)
  submitted : list task_id           (* the tasks that enqueue submitted, in order *)
}.

Definition set_tasks v s := make_executor v (m_abort s) (m_atomic_abort s) (now s) (script s)
  (task_code s) (executed s) (elsewhere s) (holding s) (in_hand s) (taken s) (destroyed s)
  (submitted s).
Definition set_abort v s := make_executor (m_tasks s) v (m_atomic_abort s) (now s) (script s)
  (task_code s) (executed s) (elsewhere s) (holding s) (in_hand s) (taken s) (destroyed s)
  (submitted s).
Definition set_atomic_abort v s := make_executor (m_tasks s) (m_abort s) v (now s) (script s)
  (task_code s) (executed s) (elsewhere s) (holding s) (in_hand s) (taken s) (destroyed s)
  (submitted s).
Definition set_now v s := make_executor (m_tasks s) (m_abort s) (m_atomic_abort s) v (script s)
  (task_code s) (executed s) (elsewhere s) (holding s) (in_hand s) (taken s) (destroyed s)
  (submitted s).
Definition set_script v s := make_executor (m_tasks s) (m_abort s) (m_atomic_abort s) (now s) v
  (task_code s) (executed s) (elsewhere s) (holding s) (in_hand s) (taken s) (destroyed s)
  (submitted s).
Definition set_executed v s := make_executor (m_tasks s) (m_abort s) (m_atomic_abort s) (now s)
  (script s) (task_code s) v (elsewhere s) (holding s) (in_hand s) (taken s) (destroyed s)
  (submitted s).
Definition set_elsewhere v s := make_executor (m_tasks s) (m_abort s) (m_atomic_abort s) (now s)
  (script s) (task_code s) (executed s) v (holding s) (in_hand s) (taken s) (destroyed s)
  (submitted s).
Definition set_holding v s := make_executor (m_tasks s) (m_abort s) (m_atomic_abort s) (now s)
  (script s) (task_code s) (executed s) (elsewhere s) v (in_hand s) (taken s) (destroyed s)
  (submitted s).
Definition set_in_hand v s := make_executor (m_tasks s) (m_abort s) (m_atomic_abort s) (now s)
  (script s) (task_code s) (executed s) (elsewhere s) (holding s) v (taken s) (destroyed s)
  (submitted s).
Definition set_taken v s := make_executor (m_tasks s) (m_abort s) (m_atomic_abort s) (now s)
  (script s) (task_code s) (executed s) (elsewhere s) (holding s) (in_hand s) v (destroyed s)
  (submitted s).
Definition set_destroyed v s := make_executor (m_tasks s) (m_abort s) (m_atomic_abort s) (now s)
  (script s) (task_code s) (executed s) (elsewhere s) (holding s) (in_hand s) (taken s) v
  (submitted s).
Definition set_submitted v s := make_executor (m_tasks s) (m_abort s) (m_atomic_abort s) (now s)
  (script s) (task_code s) (executed s) (elsewhere s) (holding s) (in_hand s) (taken s)
  (destroyed s) v.

(** The constructor. *)
Definition new_executor (t : Z) (env : list env_entry) (code : task_id -> option exn) : manual_executor :=
  make_executor [] false false t env code [] [] [] [] [] [] [].

Definition shutdown_error : exn := runtime_shutdown_exception k_manual_executor_name.

#[local] Notation M := (M exn manual_executor).

(** ** The critical sections *)

(** [m_tasks.insert(m_tasks.end(), ...)] or [emplace_back], under the lock. *)
Definition push_tasks (ts : list task_id) (s : manual_executor) : manual_executor :=
  set_submitted (submitted s ++ ts) (set_tasks (m_tasks s ++ ts) s).

(** The critical section of [shutdown], and the [tasks.clear()] after it. *)
Definition shutdown_locked (s : manual_executor) : manual_executor :=
  set_destroyed (destroyed s ++ m_tasks s) (set_tasks [] (set_abort true s)).

(** The critical section of [clear]. *)
Definition clear_locked (s : manual_executor) : manual_executor :=
  set_destroyed (destroyed s ++ m_tasks s) (set_tasks [] s).

(** [task = std::move(m_tasks.front()); m_tasks.pop_front();], under the lock;
    the task is in the hands of the thread that calls it next. *)
Definition pop_front (t : task_id) (rest : list task_id) (s : manual_executor) : manual_executor :=
  set_taken (taken s ++ [t]) (set_tasks rest s).

Definition env_step (o : env_op) (s : manual_executor) : manual_executor :=
  match o with
  | env_enqueue ts =>
      if m_abort s then set_destroyed (destroyed s ++ ts) (set_submitted (submitted s ++ ts) s)
      else push_tasks ts s
  | env_shutdown_flag => set_atomic_abort true s
  | env_shutdown_lock => if m_atomic_abort s then shutdown_locked s else s
  | env_clear => if m_abort s then s else clear_locked s
  | env_pop =>
      if m_abort s then s
      else
        match m_tasks s with
        | [] => s
        | t :: rest => set_in_hand (in_hand s ++ [t]) (pop_front t rest s)
        end
  | env_call i =>
      match in_hand s !! i with
      | Some t => set_elsewhere (elsewhere s ++ [t]) (set_in_hand (delete i (in_hand s)) s)
      | None => s
      end
  | env_wake => s
  end.

(** The lock is free: the environment runs. *)
Definition interleave : M unit :=
  s ← get_state;
  match script s with
  | [] => mret tt
  | e :: rest =>
      put_state (fold_left (fun s o => env_step o s) (ops e)
                   (set_now (now s + Z.max 0 (elapsed e)) (set_script rest s)))
  end.

(** ** enqueue *)

(** [enqueue(task)] and [enqueue(span)]; the tasks of a call that throws are
    destroyed by the caller. *)
Definition enqueue (ts : list task_id) : M unit :=
  interleave;;
  s ← get_state;
  if m_abort s then
    put_state (set_destroyed (destroyed s ++ ts) (set_submitted (submitted s ++ ts) s));;
    throw shutdown_error
  else put_state (push_tasks ts s).

Definition max_concurrency_level : Z := k_manual_executor_max_concurrency_level.

Definition size : M nat := interleave;; gets (fun s => length (m_tasks s)).

Definition empty : M bool := n ← size; mret (n =? 0).

Definition shutdown_requested : M bool := interleave;; gets m_atomic_abort.

(** [if (shutdown_requested()) throw_runtime_shutdown_exception(name)]. *)
Definition throw_if_shutdown {A} (a : A) : M A :=
  b ← shutdown_requested;
  if (b : bool) then throw shutdown_error else mret a.

(** ** loop *)

(** [task = std::move(m_tasks.front()); m_tasks.pop_front(); unlock; task()];
    an exception of the task leaves the loop. *)
Definition run_front (t : task_id) (rest : list task_id) : M unit :=
  modify (fun s => set_holding [t] (pop_front t rest s));;
  interleave;;
  modify (fun s => set_executed (executed s ++ [t]) (set_holding [] s));;
  s ← get_state;
  match task_code s t with
  | Some e => throw e
  | None => mret tt
  end.

(** The [while] of [loop_impl]; [n] is [max_count - executed], the result the
    number of tasks that were executed. *)
Fixpoint loop_tasks (n : nat) : M nat :=
  match n with
  | O => mret 0
  | S n =>
      interleave;;
      s ← get_state;
      if m_abort s then mret 0
      else
        match m_tasks s with
        | [] => mret 0
        | t :: rest =>
            run_front t rest;;
            k ← loop_tasks n;
            mret (S k)
        end
  end.

Definition loop_impl (max_count : nat) : M nat :=
  if max_count =? 0 then mret 0
  else
    k ← loop_tasks max_count;
    throw_if_shutdown k.

(** ** Waiting

    [m_condition.wait_until(lock, deadline, pred)] for a predicate on the
    queue: true when the predicate holds.  The waiting thread is woken up at
    least whenever the script has an entry; when the script has ended, it
    sleeps until the deadline. *)
Fixpoint wait_until (fuel : nat) (pred : manual_executor -> bool) (deadline : Z) : M bool :=
  s ← get_state;
  if pred s then mret true
  else if (deadline <=? now s)%Z then mret false
  else
    match fuel with
    | O => modify (set_now deadline);; gets pred
    | S fuel => interleave;; wait_until fuel pred deadline
    end.

(** [m_condition.wait(lock, pred)]; false: the thread blocks for ever in this
    environment. *)
Fixpoint wait (fuel : nat) (pred : manual_executor -> bool) : M bool :=
  s ← get_state;
  if pred s then mret true
  else
    match fuel with
    | O => mret false
    | S fuel => interleave;; wait fuel pred
    end.

(** One turn per entry of the script is enough. *)
Definition cv_wait_until (pred : manual_executor -> bool) (deadline : Z) : M bool :=
  s ← get_state; wait_until (length (script s)) pred deadline.

Definition cv_wait (pred : manual_executor -> bool) : M bool :=
  s ← get_state; wait (length (script s)) pred.

Definition has_task (s : manual_executor) : bool := bool_decide (m_tasks s ≠ []) || m_abort s.
Definition has_tasks (count : nat) (s : manual_executor) : bool :=
  (count <=? length (m_tasks s)) || m_abort s.

(** The [while] of [loop_until_impl]. *)
Fixpoint loop_until_tasks (n : nat) (deadline : Z) : M nat :=
  match n with
  | O => mret 0
  | S n =>
      t ← gets now;
      if (deadline <=? t)%Z then mret 0
      else
        interleave;;
        found_task ← cv_wait_until has_task deadline;
        s ← get_state;
        if m_abort s then mret 0
        else if negb found_task then mret 0
        else
          match m_tasks s with
          | [] => abort                      (* assert(!m_tasks.empty()) *)
          | t :: rest =>
              run_front t rest;;
              interleave;;
              k ← loop_until_tasks n deadline;
              mret (S k)
          end
  end.

Definition loop_until_impl (max_count : nat) (deadline : Z) : M nat :=
  if max_count =? 0 then mret 0
  else
    k ← loop_until_tasks max_count (deadline + 1);
    throw_if_shutdown k.

(** [wait_for_tasks_impl(count)]; false: it blocks for ever. *)
Definition wait_for_tasks_impl (count : nat) : M bool :=
  if count =? 0 then throw_if_shutdown true
  else
    interleave;;
    found ← cv_wait (has_tasks count);
    s ← get_state;
    if negb found then mret false
    else if m_abort s then throw shutdown_error
    else massert (count <=? length (m_tasks s));; mret true.

(** [wait_for_tasks_impl(count, deadline)]. *)
Definition wait_for_tasks_until_impl (count : nat) (deadline : Z) : M nat :=
  interleave;;
  cv_wait_until (has_tasks count) (deadline + 1);;
  s ← get_state;
  if m_abort s then throw shutdown_error else mret (length (m_tasks s)).

(** ** The public functions *)
Definition time_point_from_now (ms : Z) : M Z := gets (fun s => (now s + ms)%Z).

Definition loop_once : M bool := k ← loop_impl 1; mret (negb (k =? 0)).

Definition loop_once_for (ms : Z) : M bool :=
  if (ms =? 0)%Z then k ← loop_impl 1; mret (negb (k =? 0))
  else d ← time_point_from_now ms; k ← loop_until_impl 1 d; mret (negb (k =? 0)).

(** [to_system_time_point]: the clock of the caller is [system_clock]. *)
Definition loop_once_until (timeout_time : Z) : M bool :=
  k ← loop_until_impl 1 timeout_time; mret (negb (k =? 0)).

Definition loop (max_count : nat) : M nat := loop_impl max_count.

Definition loop_for (max_count : nat) (ms : Z) : M nat :=
  if max_count =? 0 then mret 0
  else if (ms =? 0)%Z then loop_impl max_count
  else d ← time_point_from_now ms; loop_until_impl max_count d.

Definition loop_until (max_count : nat) (timeout_time : Z) : M nat :=
  loop_until_impl max_count timeout_time.

Definition clear : M nat :=
  interleave;;
  s ← get_state;
  if m_abort s then throw shutdown_error
  else
    put_state (clear_locked s);;
    mret (length (m_tasks s)).

Definition wait_for_task : M bool := wait_for_tasks_impl 1.

Definition wait_for_task_for (ms : Z) : M bool :=
  d ← time_point_from_now ms; n ← wait_for_tasks_until_impl 1 d; mret (n =? 1).

Definition wait_for_task_until (timeout_time : Z) : M bool :=
  n ← wait_for_tasks_until_impl 1 timeout_time; mret (n =? 1).

Definition wait_for_tasks (count : nat) : M bool := wait_for_tasks_impl count.

Definition wait_for_tasks_for (count : nat) (ms : Z) : M nat :=
  d ← time_point_from_now ms; wait_for_tasks_until_impl count d.

Definition wait_for_tasks_until (count : nat) (timeout_time : Z) : M nat :=
  wait_for_tasks_until_impl count timeout_time.

Definition shutdown : M unit :=
  interleave;;
  s ← get_state;
  put_state (set_atomic_abort true s);;
  if m_atomic_abort s then mret tt
  else
    interleave;;
    modify shutdown_locked.
