(* ===== verification/ManualExecutorTheorems.v ===== *)
(** * manual_executor: theorems *)

From Stdlib Require Import ZArith.
From stdpp Require Import prelude list sorting.
From S2P Require Import Prelude Errors ManualExecutor.

(** ** The invariant

    Every task that was submitted has exactly one fate: it was taken from the
    queue to be called, it was destroyed, or it is in the queue; a task that was
    taken was called by this thread or by another one, or a loop holds it and is
    about to call it.  Tasks leave the queue in the order of their submission,
    and the loops of one thread call them in that order; a queue that was shut
    down is empty. *)
Definition accounted (s : manual_executor) : Prop :=
  submitted s ≡ₚ taken s ++ destroyed s ++ m_tasks s /\
  taken s ≡ₚ executed s ++ elsewhere s ++ holding s ++ in_hand s /\
  taken s ++ m_tasks s `sublist_of` submitted s /\
  executed s ++ holding s `sublist_of` taken s /\
  (m_abort s = true -> m_tasks s = [] /\ m_atomic_abort s = true).

(** Between two calls. *)
Definition inv (s : manual_executor) : Prop := accounted s /\ holding s = [].

(** What only grows. *)
Definition later (s s' : manual_executor) : Prop :=
  (m_abort s = true -> m_abort s' = true) /\
  (m_atomic_abort s = true -> m_atomic_abort s' = true) /\
  (now s <= now s')%Z /\ length (script s') <= length (script s) /\ task_code s' = task_code s.

#[export] Instance later_preorder : PreOrder later.
Proof.
  split; [intros s; unfold later; split_ands; auto; lia|].
  intros x y z (?&?&?&?&?) (?&?&?&?&?). unfold later. split_ands; auto; try lia; congruence.
Qed.

(** [ext s0 ts s]: an execution that started in [s0] is in [s], and has called
    the tasks [ts]. *)
Definition ext (s0 : manual_executor) (ts : list task_id) (s : manual_executor) : Prop :=
  inv s /\ later s0 s /\ executed s = executed s0 ++ ts.

Definition shut_down (e : exn) (s : manual_executor) : Prop :=
  e = shutdown_error /\ m_atomic_abort s = true.

Lemma ext_refl s : inv s -> ext s [] s.
Proof. intros. unfold ext. rewrite app_nil_r. done. Qed.

Lemma ext_inv s0 ts s : ext s0 ts s -> inv s.
Proof. by intros (?&_). Qed.

Lemma ext_abort s0 ts s : ext s0 ts s -> m_abort s = true -> m_atomic_abort s = true.
Proof. intros (((_&_&_&_&H)&_)&_) E. by apply H. Qed.

(** *** The critical sections *)
Lemma accounted_push ts s : accounted s -> m_abort s = false -> accounted (push_tasks ts s).
Proof.
  intros (H1&H2&H3&H4&H5) Ha. unfold accounted, push_tasks. simpl. split_ands; [|done| |done|congruence].
  - rewrite H1, !app_assoc. done.
  - rewrite app_assoc. by apply sublist_app.
Qed.

Lemma accounted_reject ts s :
  accounted s -> accounted (set_destroyed (destroyed s ++ ts) (set_submitted (submitted s ++ ts) s)).
Proof.
  intros (H1&H2&H3&H4&H5). unfold accounted. simpl. split_ands; [|done| |done|done].
  - rewrite H1, <-!app_assoc. do 2 f_equiv. apply Permutation_app_comm.
  - by apply sublist_inserts_r.
Qed.

Lemma accounted_clear s : accounted s -> accounted (clear_locked s).
Proof.
  intros (H1&H2&H3&H4&H5). unfold accounted, clear_locked. simpl. split_ands; [|done| |done|].
  - by rewrite app_nil_r, H1.
  - rewrite app_nil_r. etrans; [|exact H3]. by apply sublist_inserts_r.
  - intros Ha. by destruct (H5 Ha).
Qed.

Lemma accounted_shutdown_locked s : accounted s -> m_atomic_abort s = true -> accounted (shutdown_locked s).
Proof. intros (H1&H2&H3&H4&H5)%accounted_clear Ha. done. Qed.

Lemma inv_push ts s : inv s -> m_abort s = false -> inv (push_tasks ts s).
Proof. intros [? ?] ?. by split; [apply accounted_push|]. Qed.

Lemma inv_reject ts s :
  inv s -> inv (set_destroyed (destroyed s ++ ts) (set_submitted (submitted s ++ ts) s)).
Proof. intros [? ?]. by split; [apply accounted_reject|]. Qed.

Lemma inv_clear s : inv s -> inv (clear_locked s).
Proof. intros [? ?]. by split; [apply accounted_clear|]. Qed.

(** A task leaves the queue for the hands [hs] of a thread. *)
Lemma accounted_pop t rest s :
  accounted s -> m_tasks s = t :: rest -> m_abort s = false ->
  submitted s ≡ₚ (taken s ++ [t]) ++ destroyed s ++ rest /\
  (taken s ++ [t]) ++ rest `sublist_of` submitted s.
Proof.
  intros (H1&_&H3&_) Et Ha. rewrite Et in *. split; [|by rewrite <-app_assoc].
  rewrite H1, <-app_assoc. f_equiv. simpl. by rewrite Permutation_middle.
Qed.

Lemma accounted_env_pop t rest s :
  accounted s -> m_tasks s = t :: rest -> m_abort s = false ->
  accounted (set_in_hand (in_hand s ++ [t]) (pop_front t rest s)).
Proof.
  intros Hi Et Ha. destruct (accounted_pop t rest s Hi Et Ha) as [Hp Hs]. destruct Hi as (H1&H2&H3&H4&H5).
  unfold accounted, pop_front. simpl. split_ands; [done| |done| |congruence].
  - by rewrite H2, <-!app_assoc.
  - by apply sublist_inserts_r.
Qed.

Lemma accounted_env_call i t s :
  accounted s -> in_hand s !! i = Some t ->
  accounted (set_elsewhere (elsewhere s ++ [t]) (set_in_hand (delete i (in_hand s)) s)).
Proof.
  intros (H1&H2&H3&H4&H5) Hi. unfold accounted. simpl. split_ands; try done.
  rewrite H2. f_equiv. rewrite <-app_assoc. f_equiv. simpl.
  rewrite (Permutation_middle (holding s)). f_equiv. by apply delete_Permutation.
Qed.

Lemma accounted_hold t rest s :
  inv s -> m_tasks s = t :: rest -> m_abort s = false ->
  accounted (set_holding [t] (pop_front t rest s)).
Proof.
  intros [Hi Hh] Et Ha. destruct (accounted_pop t rest s Hi Et Ha) as [Hp Hs]. destruct Hi as (H1&H2&H3&H4&H5).
  rewrite Hh in *. unfold accounted, pop_front. simpl in *. rewrite app_nil_r in H4.
  split_ands; [done| |done| |congruence].
  - rewrite H2. rewrite <-!app_assoc. do 2 f_equiv. by rewrite Permutation_app_comm.
  - by apply sublist_app.
Qed.

(** The task of this thread is called. *)
Lemma inv_called t s :
  accounted s -> holding s = [t] -> inv (set_executed (executed s ++ [t]) (set_holding [] s)).
Proof.
  intros (H1&H2&H3&H4&H5) Hh. rewrite Hh in *. split; [|done]. unfold accounted. simpl.
  split_ands; try done.
  - rewrite H2, <-!app_assoc. f_equiv. simpl. by rewrite Permutation_middle.
  - by rewrite app_nil_r.
Qed.

(** *** The environment *)

(** What the environment keeps while this thread holds the tasks [h]. *)
Definition around (h : list task_id) (s s' : manual_executor) : Prop :=
  accounted s' /\ later s s' /\ executed s' = executed s /\ holding s' = h.

Lemma around_env_step h s o x : around h s x -> around h s (env_step o x).
Proof.
  intros (Hi & Hl & He & Hh). unfold around. destruct o as [l| | | | |i|]; simpl; [..|done].
  - destruct (m_abort x) eqn:Ha; (split; [|done]); [by apply accounted_reject|by apply accounted_push].
  - split; [|split; [|done]].
    + destruct Hi as (?&?&?&?&H3). unfold accounted. simpl. split_ands; try done. intros E. split; [by apply H3|done].
    + destruct Hl as (?&?&?&?&?). unfold later. simpl. auto.
  - destruct (m_atomic_abort x) eqn:Ha; [|done]. split; [by apply accounted_shutdown_locked|split; [|done]].
    destruct Hl as (?&?&?&?&?). unfold later. simpl. auto.
  - destruct (m_abort x); [done|]. split; [by apply accounted_clear|done].
  - destruct (m_abort x) eqn:Ha; [done|]. destruct (m_tasks x) as [|t rest] eqn:Et; [done|].
    split; [by apply accounted_env_pop|done].
  - destruct (in_hand x !! i) as [t|] eqn:E; [|done]. split; [by apply accounted_env_call|done].
Qed.

Lemma around_interleave h s : 
  accounted s -> holding s = h -> exists s', interleave s = (Ok tt, s') /\ around h s s'.
Proof.
  intros Hi Hh. unfold interleave, mbind, M_bind, get_state. destruct (script s) as [|e rest] eqn:E.
  { exists s. by split. }
  simpl. eexists. split; [done|].
  assert (H : around h s (set_now (now s + Z.max 0 (elapsed e)) (set_script rest s))).
  { unfold around, later. simpl. split_ands; auto; try lia. rewrite E. simpl. lia. }
  revert H. generalize (set_now (now s + Z.max 0 (elapsed e)) (set_script rest s)).
  induction (ops e) as [|o l IH]; intros x Hx; simpl; [done|]. by apply IH, around_env_step.
Qed.

Lemma ext_around s0 ts s s' : ext s0 ts s -> around [] s s' -> ext s0 ts s'.
Proof. intros (Hi & Hl & He) (Hi' & Hl' & He' & Hh). unfold ext. rewrite He'. split_ands; [by split|by etrans|done]. Qed.

Lemma ext_env_step s0 ts o s : ext s0 ts s -> ext s0 ts (env_step o s).
Proof.
  intros Hs. eapply ext_around; [done|]. apply around_env_step. destruct Hs as ([]&_). by split_and!.
Qed.

Lemma ext_interleave s0 ts : triple (ext s0 ts) interleave (fun _ => ext s0 ts) (fun _ _ => False).
Proof.
  intros s Hs. destruct (ext_inv _ _ _ Hs) as [Hi Hh].
  destruct (around_interleave [] s Hi Hh) as (s' & -> & Ha). by eapply ext_around.
Qed.

Lemma env_script l s : script (fold_left (fun s o => env_step o s) l s) = script s.
Proof.
  revert s. induction l as [|o l IH]; intros s; simpl; [done|]. rewrite IH.
  destruct o; simpl; by repeat case_match.
Qed.

Lemma interleave_script s : script (interleave s).2 = tail (script s).
Proof.
  unfold interleave, mbind, M_bind, get_state. destruct (script s) eqn:E; simpl; [done|].
  by rewrite env_script.
Qed.

(** The rule for a function that starts by leaving the lock free. *)
Lemma triple_interleave {A} s0 ts (k : manual_executor -> M exn manual_executor A) Q R :
  (forall s1, ext s0 ts s1 -> triple (fun s => s = s1) (k s1) Q R) ->
  triple (ext s0 ts) (interleave;; s ← get_state; k s) Q R.
Proof.
  intros H. eapply triple_seq.
  - eapply triple_conseq; [apply ext_interleave|done|done|by intros].
  - apply triple_read, H.
Qed.

Lemma throw_if_shutdown_spec {A} s0 ts (a : A) :
  triple (ext s0 ts) (throw_if_shutdown a)
    (fun b s => b = a /\ ext s0 ts s /\ m_atomic_abort s = false) (fun e s => ext s0 ts s /\ shut_down e s).
Proof.
  unfold throw_if_shutdown, shutdown_requested.
  eapply (triple_bind _ _ _ (fun b s => ext s0 ts s /\ b = m_atomic_abort s)).
  - eapply triple_seq; [eapply triple_conseq; [apply ext_interleave|done|done|by intros]|].
    by apply triple_gets.
  - intros [].
    + apply triple_throw. intros s [? ?]. split; [done|by split].
    + apply triple_ret. by intros s [? ?].
Qed.

(** *** Running tasks *)
Lemma run_front_spec s0 ts t rest s1 :
  ext s0 ts s1 -> m_tasks s1 = t :: rest -> m_abort s1 = false ->
  triple (fun s => s = s1) (run_front t rest) (fun _ => ext s0 (ts ++ [t]))
    (fun e s => ext s0 (ts ++ [t]) s /\ task_code s t = Some e).
Proof.
  intros (Hi & Hl & He) Et Ha s ->. unfold run_front, modify, mbind, M_bind, get_state.
  set (s2 := set_holding [t] (pop_front t rest s1)).
  destruct (around_interleave [t] s2 (accounted_hold t rest s1 Hi Et Ha) eq_refl) as (s3 & -> & Hi3 & Hl3 & He3 & Hh3).
  set (s4 := set_executed (executed s3 ++ [t]) (set_holding [] s3)).
  assert (Hs4 : ext s0 (ts ++ [t]) s4).
  { unfold ext. split_ands; [by apply inv_called| |].
    - etrans; [exact Hl|]. etrans; [|etrans; [exact Hl3|]]; unfold later; simpl; split_ands; auto; lia.
    - unfold s4. simpl. rewrite He3. simpl. by rewrite He, app_assoc. }
  simpl. destruct (task_code s3 t) as [e|] eqn:Ee; unfold throw, mret, M_ret; [by split|done].
Qed.

(** A call ended with an exception: the executor was shut down, or the last
    task that it called threw. *)
Definition caused (ts : list task_id) (e : exn) (s : manual_executor) : Prop :=
  shut_down e s \/ exists ts' t, ts = ts' ++ [t] /\ task_code s t = Some e.

Definition failed (s0 : manual_executor) : exn -> manual_executor -> Prop :=
  fun e s => exists new, ext s0 new s /\ caused new e s.

Lemma failed_shut_down s0 ts e s : ext s0 ts s -> shut_down e s -> failed s0 e s.
Proof. intros. exists ts. split; [done|by left]. Qed.

Lemma failed_threw s0 ts t e s : ext s0 (ts ++ [t]) s -> task_code s t = Some e -> failed s0 e s.
Proof. intros. exists (ts ++ [t]). split; [done|]. right. eauto. Qed.

Lemma loop_tasks_spec n : forall s0 ts,
  triple (ext s0 ts) (loop_tasks n)
    (fun k s => exists new, ext s0 (ts ++ new) s /\ length new = k /\ k <= n /\
       (k < n -> m_abort s = true \/ m_tasks s = []))
    (failed s0).
Proof.
  induction n as [|n IH]; intros s0 ts.
  - apply triple_ret. intros s Hs. exists []. rewrite app_nil_r. split_ands; [done|done|lia|lia].
  - apply triple_interleave. intros s1 Hs1. destruct (m_abort s1) eqn:Ha.
    { apply triple_ret. intros s ->. exists []. rewrite app_nil_r. split_ands; [done|done|lia|by left]. }
    destruct (m_tasks s1) as [|t rest] eqn:Et.
    { apply triple_ret. intros s ->. exists []. rewrite app_nil_r. split_ands; [done|done|lia|by right]. }
    eapply (triple_seq _ _ _ (ext s0 (ts ++ [t]))).
    + eapply triple_conseq; [by apply run_front_spec|done|done|]. intros e s []. by eapply failed_threw.
    + eapply triple_bind; [apply IH|]. intros k. apply triple_ret.
      intros s (new & Hn & <- & Hle & Hk). exists (t :: new). rewrite <-app_assoc in Hn. simpl in *.
      split_ands; [done|done|lia|]. intros. apply Hk. lia.
Qed.

(** *** Waiting *)
Lemma wait_until_spec fuel pred deadline : forall s0 ts,
  triple (fun s => ext s0 ts s /\ length (script s) <= fuel) (wait_until fuel pred deadline)
    (fun b s => ext s0 ts s /\ (if b then pred s = true else pred s = false /\ (deadline <= now s)%Z))
    (fun _ _ => False).
Proof.
  induction fuel as [|fuel IH]; intros s0 ts; simpl; apply triple_read; intros s1 [Hs1 Hf];
    destruct (pred s1) eqn:Ep; try (by apply triple_ret; intros s ->);
    destruct (Z.leb_spec deadline (now s1)); try (by apply triple_ret; intros s ->).
  - intros s ->. simpl. destruct Hs1 as (Hi & (?&?&?&?&?) & He).
    assert (Hx : ext s0 ts (set_now deadline s1)).
    { unfold ext, later. simpl. split_ands; auto; lia. }
    split; [done|]. destruct (pred (set_now deadline s1)); simpl; [done|]. split; [done|lia].
  - eapply (triple_seq _ _ _ (fun s => ext s0 ts s /\ length (script s) <= fuel)); [|apply IH].
    intros s ->. pose proof (ext_interleave s0 ts s1 Hs1) as Hi. pose proof (interleave_script s1) as Hsc.
    destruct (interleave s1) as [[[]|e'|] s2]; try done. split; [done|]. simpl in Hsc. rewrite Hsc.
    destruct (script s1); simpl in *; lia.
Qed.

Lemma cv_wait_until_spec s0 ts pred deadline :
  triple (ext s0 ts) (cv_wait_until pred deadline)
    (fun b s => ext s0 ts s /\ (if b then pred s = true else pred s = false /\ (deadline <= now s)%Z))
    (fun _ _ => False).
Proof.
  apply triple_read. intros s1 Hs1.
  eapply triple_conseq; [apply (wait_until_spec (length (script s1)) pred deadline s0 ts)|by intros s ->|done|done].
Qed.

Lemma wait_spec fuel pred : forall s0 ts,
  triple (fun s => ext s0 ts s /\ length (script s) <= fuel) (wait fuel pred)
    (fun b s => ext s0 ts s /\ (if b then pred s = true else pred s = false /\ script s = []))
    (fun _ _ => False).
Proof.
  induction fuel as [|fuel IH]; intros s0 ts; simpl; apply triple_read; intros s1 [Hs1 Hf];
    destruct (pred s1) eqn:Ep; try (by apply triple_ret; intros s ->).
  - apply triple_ret. intros s ->. split_ands; [done|done|]. destruct (script s1); simpl in *; [done|lia].
  - eapply (triple_seq _ _ _ (fun s => ext s0 ts s /\ length (script s) <= fuel)); [|apply IH].
    intros s ->. pose proof (ext_interleave s0 ts s1 Hs1) as Hi. pose proof (interleave_script s1) as Hsc.
    destruct (interleave s1) as [[[]|e'|] s2]; try done. split; [done|]. simpl in Hsc. rewrite Hsc.
    destruct (script s1); simpl in *; lia.
Qed.

Lemma cv_wait_spec s0 ts pred :
  triple (ext s0 ts) (cv_wait pred)
    (fun b s => ext s0 ts s /\ (if b then pred s = true else pred s = false /\ script s = []))
    (fun _ _ => False).
Proof.
  apply triple_read. intros s1 Hs1.
  eapply triple_conseq; [apply (wait_spec (length (script s1)) pred s0 ts)|by intros s ->|done|done].
Qed.

Lemma loop_until_tasks_spec n deadline : forall s0 ts,
  triple (ext s0 ts) (loop_until_tasks n deadline)
    (fun k s => exists new, ext s0 (ts ++ new) s /\ length new = k /\ k <= n /\
       (k < n -> m_abort s = true \/ (deadline <= now s)%Z))
    (failed s0).
Proof.
  induction n as [|n IH]; intros s0 ts.
  - apply triple_ret. intros s Hs. exists []. rewrite app_nil_r. split_ands; [done|done|lia|lia].
  - eapply (triple_bind _ _ _ (fun t s => ext s0 ts s /\ t = now s)); [by apply triple_gets|]. intros t.
    destruct (Z.leb_spec deadline t).
    { apply triple_ret. intros s [Hs ->]. exists []. rewrite app_nil_r. split_ands; [done|done|lia|by right]. }
    eapply (triple_seq _ _ _ (ext s0 ts)).
    { eapply triple_conseq; [apply ext_interleave|by intros ? []|done|by intros]. }
    eapply triple_bind; [eapply triple_conseq; [apply cv_wait_until_spec|done|done|by intros]|]. intros found. apply triple_read. intros s1 [Hs1 Hf].
    destruct (m_abort s1) eqn:Ha.
    { apply triple_ret. intros s ->. exists []. rewrite app_nil_r. split_ands; [done|done|lia|by left]. }
    destruct found; simpl.
    + unfold has_task in Hf. rewrite Ha, orb_false_r in Hf. apply bool_decide_eq_true in Hf.
      destruct (m_tasks s1) as [|t' rest] eqn:Et; [done|].
      eapply (triple_seq _ _ _ (ext s0 (ts ++ [t']))); [eapply triple_conseq; [by apply run_front_spec|done|done|intros e s []; by eapply failed_threw]|].
      eapply (triple_seq _ _ _ (ext s0 (ts ++ [t']))).
      { eapply triple_conseq; [apply ext_interleave|done|done|by intros]. }
      eapply triple_bind; [apply IH|]. intros k. apply triple_ret.
      intros s (new & Hn & <- & Hle & Hk). exists (t' :: new). rewrite <-app_assoc in Hn. simpl in *.
      split_ands; [done|done|lia|]. intros. apply Hk. lia.
    + apply triple_ret. intros s ->. exists []. rewrite app_nil_r.
      split_ands; [done|done|lia|]. intros _. right. by destruct Hf.
Qed.

(** ** The public functions *)

(** What a call of a client returns; [Some n] for a number, [None] for a call
    that blocks for ever. *)
Inductive client_call :=
  | c_enqueue (ts : list task_id) | c_size | c_empty | c_clear | c_shutdown | c_shutdown_requested
  | c_loop_once | c_loop_once_for (ms : Z) | c_loop_once_until (t : Z)
  | c_loop (n : nat) | c_loop_for (n : nat) (ms : Z) | c_loop_until (n : nat) (t : Z)
  | c_wait_for_task | c_wait_for_task_for (ms : Z) | c_wait_for_task_until (t : Z)
  | c_wait_for_tasks (n : nat) | c_wait_for_tasks_for (n : nat) (ms : Z)
  | c_wait_for_tasks_until (n : nat) (t : Z).

Definition perform (c : client_call) : M exn manual_executor nat :=
  match c with
  | c_enqueue ts => enqueue ts;; mret 0
  | c_size => size
  | c_empty => b ← empty; mret (Nat.b2n b)
  | c_clear => clear
  | c_shutdown => shutdown;; mret 0
  | c_shutdown_requested => b ← shutdown_requested; mret (Nat.b2n b)
  | c_loop_once => b ← loop_once; mret (Nat.b2n b)
  | c_loop_once_for ms => b ← loop_once_for ms; mret (Nat.b2n b)
  | c_loop_once_until t => b ← loop_once_until t; mret (Nat.b2n b)
  | c_loop n => loop n
  | c_loop_for n ms => loop_for n ms
  | c_loop_until n t => loop_until n t
  | c_wait_for_task => b ← wait_for_task; mret (Nat.b2n b)
  | c_wait_for_task_for ms => b ← wait_for_task_for ms; mret (Nat.b2n b)
  | c_wait_for_task_until t => b ← wait_for_task_until t; mret (Nat.b2n b)
  | c_wait_for_tasks n => b ← wait_for_tasks n; mret (Nat.b2n b)
  | c_wait_for_tasks_for n ms => wait_for_tasks_for n ms
  | c_wait_for_tasks_until n t => wait_for_tasks_until n t
  end.

(** What a call did: it called [new]. *)
Definition done_with (s0 : manual_executor) (P : nat -> list task_id -> manual_executor -> Prop) :
    nat -> manual_executor -> Prop := fun k s => exists new, ext s0 new s /\ P k new s.
Definition ran (n : nat) (k : nat) (new : list task_id) : Prop := length new = k /\ k <= n.

Lemma loop_impl_spec s0 n :
  triple (ext s0 []) (loop_impl n) (done_with s0 (fun k new _ => ran n k new)) (failed s0).
Proof.
  unfold loop_impl. destruct (Nat.eqb_spec n 0) as [->|].
  - apply triple_ret. intros s Hs. exists []. split; [done|by split].
  - eapply triple_bind; [apply loop_tasks_spec|].
    intros k. simpl. apply triple_fix. intros s1 (new & Hn & <- & Hle & _).
    eapply triple_conseq; [apply (throw_if_shutdown_spec s0 new)|by intros s ->| |].
    + intros a s (-> & Hs & _). exists new. split; [done|by split].
    + intros e s [? ?]. by eapply failed_shut_down.
Qed.

Lemma loop_until_impl_spec s0 n d :
  triple (ext s0 []) (loop_until_impl n d)
    (done_with s0 (fun k new s => ran n k new /\ (k < n -> (d < now s)%Z))) (failed s0).
Proof.
  unfold loop_until_impl. destruct (Nat.eqb_spec n 0) as [->|].
  - apply triple_ret. intros s Hs. exists []. split; [done|]. split; [done|lia].
  - eapply triple_bind; [apply loop_until_tasks_spec|].
    intros k. simpl. apply triple_fix. intros s1 (new & Hn & <- & Hle & Hk).
    eapply triple_conseq; [apply (throw_if_shutdown_spec s1 [])| | |].
    + intros s ->. apply ext_refl. by apply ext_inv in Hn.
    + intros a s (-> & (Hi & Hl & He) & Ha). exists new.
      assert (Hx : ext s0 new s).
      { destruct Hn as (_ & Hl0 & He0). unfold ext. split_ands; [done|by etrans|].
        by rewrite He, app_nil_r. }
      split; [done|]. split; [done|]. intros Hlt. destruct Hl as (Ha1 & _ & Hnow & _).
      destruct (Hk Hlt) as [Hab|?]; [|lia].
      assert (m_atomic_abort s = true) by (eapply ext_abort; [done|by apply Ha1]). congruence.
    + intros e s ((Hi & Hl & He) & Hsd). apply (failed_shut_down s0 new); [|done].
      destruct Hn as (_ & Hl0 & He0). unfold ext. split_ands; [done|by etrans|].
      by rewrite He, app_nil_r.
Qed.

(** A call that ends in one of the functions above. *)
Lemma done_conseq s0 (P P' : nat -> list task_id -> manual_executor -> Prop) (m : M exn manual_executor nat) :
  triple (ext s0 []) m (done_with s0 P) (failed s0) ->
  (forall k new s, P k new s -> P' k new s) ->
  triple (ext s0 []) m (done_with s0 P') (failed s0).
Proof.
  intros Hm HP. eapply triple_conseq; [done|done| |done]. intros k s (new & ? & ?). exists new. auto.
Qed.

Definition true_spec : nat -> list task_id -> manual_executor -> Prop := fun _ _ _ => True.

Lemma done_to_bool s0 P (m : M exn manual_executor nat) (f : nat -> bool) :
  triple (ext s0 []) m (done_with s0 P) (failed s0) ->
  triple (ext s0 []) (b ← (k ← m; mret (f k)); mret (Nat.b2n b)) (done_with s0 true_spec) (failed s0).
Proof.
  intros Hm. eapply (triple_bind _ _ _ (fun _ s => exists new, ext s0 new s)).
  - eapply triple_bind; [exact Hm|]. intros k. apply triple_ret. intros s (new & ? & _). by exists new.
  - intros b. apply triple_ret. intros s (new & ?). by exists new.
Qed.

(** A deadline that is computed from the clock. *)
Lemma with_time_point s0 ms P (k : Z -> M exn manual_executor nat) :
  (forall d, triple (ext s0 []) (k d) (done_with s0 P) (failed s0)) ->
  triple (ext s0 []) (d ← time_point_from_now ms; k d) (done_with s0 P) (failed s0).
Proof.
  intros H. eapply (triple_bind _ _ _ (fun _ => ext s0 [])); [by apply triple_gets|]. intros d. apply H.
Qed.

Lemma wait_for_tasks_impl_spec s0 n :
  triple (ext s0 []) (wait_for_tasks_impl n)
    (fun b s => ext s0 [] s /\ if b then n <= length (m_tasks s)
                              else script s = [] /\ length (m_tasks s) < n) (failed s0).
Proof.
  unfold wait_for_tasks_impl. destruct (Nat.eqb_spec n 0) as [->|].
  - eapply triple_conseq; [apply (throw_if_shutdown_spec s0 [])|done| |].
    + intros b s (-> & ? & _). split; [done|lia].
    + intros e s [? ?]. by eapply failed_shut_down.
  - eapply (triple_seq _ _ _ (ext s0 [])); [eapply triple_conseq; [apply ext_interleave|done|done|by intros]|].
    eapply triple_bind; [eapply triple_conseq; [apply cv_wait_spec|done|done|by intros]|]. intros b. apply triple_read.
    intros s1 [Hs1 Hb]. destruct b; simpl.
    + destruct (m_abort s1) eqn:Ha.
      * apply triple_throw. intros s ->. eapply failed_shut_down; [done|]. split; [done|]. by eapply ext_abort.
      * unfold has_tasks in Hb. rewrite Ha, orb_false_r in Hb. apply Nat.leb_le in Hb.
        eapply (triple_seq _ _ _ (fun s => s = s1)).
        -- apply triple_massert. intros s ->. split; [by apply Nat.leb_le|done].
        -- apply triple_ret. by intros s ->.
    + apply triple_ret. intros s ->. destruct Hb as [Hb ->]. split; [done|]. split; [done|].
      unfold has_tasks in Hb. apply orb_false_iff in Hb as [Hb _]. by apply Nat.leb_gt in Hb.
Qed.

Lemma wait_for_tasks_until_impl_spec s0 n d :
  triple (ext s0 []) (wait_for_tasks_until_impl n d)
    (done_with s0 (fun k _ s => k = length (m_tasks s) /\ (k < n -> (d < now s)%Z))) (failed s0).
Proof.
  unfold wait_for_tasks_until_impl.
  eapply (triple_seq _ _ _ (ext s0 [])); [eapply triple_conseq; [apply ext_interleave|done|done|by intros]|].
  eapply triple_bind; [eapply triple_conseq; [apply cv_wait_until_spec|done|done|by intros]|]. intros b.
  apply triple_read. intros s1 [Hs1 Hb]. destruct (m_abort s1) eqn:Ha.
  - apply triple_throw. intros s ->. eapply failed_shut_down; [done|]. split; [done|]. by eapply ext_abort.
  - apply triple_ret. intros s ->. exists []. split; [done|]. split; [done|]. intros Hlt. destruct b.
    + unfold has_tasks in Hb. rewrite Ha, orb_false_r in Hb. apply Nat.leb_le in Hb. lia.
    + destruct Hb as [_ ?]. lia.
Qed.

Lemma ext_same s0 s s' :
  ext s0 [] s -> inv s' -> later s s' -> executed s' = executed s -> ext s0 [] s'.
Proof. intros (_ & Hl & He) Hi Hl' E. unfold ext. rewrite E. split_ands; [done|by etrans|done]. Qed.

Lemma enqueue_spec s0 ts :
  triple (ext s0 []) (enqueue ts)
    (fun _ s => ext s0 [] s /\ m_abort s = false /\ ts `suffix_of` m_tasks s)
    (fun e s => ext s0 [] s /\ shut_down e s /\ ts `suffix_of` destroyed s).
Proof.
  apply triple_interleave. intros s1 Hs1. destruct (m_abort s1) eqn:Ha.
  - set (s2 := set_destroyed _ _). eapply (triple_seq _ _ _ (fun s => s = s2)); [by apply triple_put|].
    apply triple_throw. intros s ->. split_ands.
    + eapply (ext_same s0 s1); [done|by apply inv_reject, (ext_inv s0 [])|unfold later; simpl; split_ands; auto; lia|done].
    + split; [done|]. simpl. by eapply ext_abort.
    + by exists (destroyed s1).
  - apply triple_put. intros s ->. split_ands; [|done|by exists (m_tasks s1)].
    eapply (ext_same s0 s1); [done|by apply inv_push; [apply (ext_inv s0 [])|]|unfold later; simpl; split_ands; auto; lia|done].
Qed.

Lemma clear_spec s0 :
  triple (ext s0 []) clear (fun k s => ext s0 [] s /\ m_tasks s = [] /\ k <= length (destroyed s))
    (fun e s => ext s0 [] s /\ shut_down e s).
Proof.
  apply triple_interleave. intros s1 Hs1. destruct (m_abort s1) eqn:Ha.
  - apply triple_throw. intros s ->. split; [done|]. split; [done|]. by eapply ext_abort.
  - set (s2 := clear_locked _). eapply (triple_seq _ _ _ (fun s => s = s2)); [by apply triple_put|].
    apply triple_ret. intros s ->. split_ands; [|done|simpl; rewrite length_app; lia].
    eapply (ext_same s0 s1); [done| |unfold later; simpl; split_ands; auto; lia|done].
    by apply inv_clear, (ext_inv s0 []).
Qed.

Lemma shutdown_spec s0 :
  triple (ext s0 []) shutdown
    (fun _ s => ext s0 [] s /\ m_atomic_abort s = true) (fun _ _ => False).
Proof.
  apply triple_interleave. intros s1 Hs1.
  assert (Hs2 : ext s0 [] (set_atomic_abort true s1)) by apply (ext_env_step s0 [] env_shutdown_flag s1 Hs1).
  set (s2 := set_atomic_abort true s1) in *.
  eapply (triple_seq _ _ _ (fun s => s = s2)); [by apply triple_put|].
  destruct (m_atomic_abort s1).
  - apply triple_ret. by intros s ->.
  - eapply (triple_seq _ _ _ (fun s => ext s0 [] s /\ m_atomic_abort s = true)).
    + intros s ->. pose proof (ext_interleave s2 [] s2 (ext_refl s2 (ext_inv _ _ _ Hs2))) as Hi.
      destruct (interleave s2) as [[[]|e|] s3]; try done. destruct Hi as (Hi & Hl & He).
      rewrite app_nil_r in He. split; [by eapply ext_same|]. by apply Hl.
    + apply triple_modify. intros s [Hs Ha]. split; [|done].
      pose proof (ext_env_step s0 [] env_shutdown_lock s Hs) as He. simpl in He. by rewrite Ha in He.
Qed.

Lemma perform_spec c s0 :
  triple (ext s0 []) (perform c) (done_with s0 true_spec) (failed s0).
Proof.
  assert (Hi : triple (ext s0 []) interleave (fun _ => ext s0 []) (failed s0)).
  { eapply triple_conseq; [apply ext_interleave|done|done|by intros]. }
  assert (Hd : forall {A} (m : M exn manual_executor A) f P R,
    triple (ext s0 []) m (fun a s => ext s0 [] s /\ P a s) (fun e s => ext s0 [] s /\ shut_down e s /\ R e s) ->
    triple (ext s0 []) (b ← m; mret (f b)) (done_with s0 true_spec) (failed s0)).
  { intros A m f P R Hm. eapply triple_bind.
    - eapply triple_conseq; [exact Hm|done|intros a s Hs; exact Hs|]. intros e s (?&?&_). by eapply failed_shut_down.
    - intros a. apply triple_ret. intros s [? _]. by exists []. }
  assert (Hw : forall n, triple (ext s0 []) (b ← wait_for_tasks_impl n; mret (Nat.b2n b)) (done_with s0 true_spec) (failed s0)).
  { intros n. eapply triple_bind; [apply wait_for_tasks_impl_spec|]. intros b. apply triple_ret.
    intros s [? _]. by exists []. }
  assert (Hsz : triple (ext s0 []) size (done_with s0 true_spec) (failed s0)).
  { eapply triple_seq; [exact Hi|]. apply triple_gets. intros s Hs. by exists []. }
  destruct c; simpl.
  - eapply (triple_bind _ _ _ (fun _ s => ext s0 [] s)).
    + eapply triple_conseq; [apply enqueue_spec|done|by intros ? ? [? _]|]. intros e s (?&?&_). by eapply failed_shut_down.
    + intros []. apply triple_ret. intros s ?. by exists [].
  - exact Hsz.
  - eapply done_to_bool, Hsz.
  - eapply triple_conseq; [apply clear_spec|done| |]; [intros k s (?&_); by exists []|intros e s [? ?]; by eapply failed_shut_down].
  - eapply (triple_bind _ _ _ (fun _ s => ext s0 [] s)).
    + eapply triple_conseq; [apply shutdown_spec|done|by intros ? ? [? _]|done].
    + intros []. apply triple_ret. intros s ?. by exists [].
  - eapply (triple_bind _ _ _ (fun _ s => ext s0 [] s)).
    + eapply triple_seq; [exact Hi|]. by apply triple_gets.
    + intros b. apply triple_ret. intros s ?. by exists [].
  - eapply done_to_bool, loop_impl_spec.
  - unfold loop_once_for. destruct (ms =? 0)%Z; [eapply done_to_bool, loop_impl_spec|].
    eapply (triple_bind _ _ _ (fun _ s => exists new, ext s0 new s)).
    + eapply (triple_bind _ _ _ (fun _ => ext s0 [])); [by apply triple_gets|]. intros d.
      eapply triple_bind; [apply loop_until_impl_spec|]. intros k. apply triple_ret.
      intros s (new & ? & _). by exists new.
    + intros b. apply triple_ret. intros s (new & ?). by exists new.
  - eapply done_to_bool, loop_until_impl_spec.
  - eapply done_conseq; [apply loop_impl_spec|done].
  - unfold loop_for. destruct (n =? 0); [apply triple_ret; intros s ?; by exists []|].
    destruct (ms =? 0)%Z; [eapply done_conseq; [apply loop_impl_spec|done]|].
    apply with_time_point. intros d. eapply done_conseq; [apply loop_until_impl_spec|done].
  - eapply done_conseq; [apply loop_until_impl_spec|done].
  - apply Hw.
  - eapply (triple_bind _ _ _ (fun _ s => exists new, ext s0 new s)).
    + eapply (triple_bind _ _ _ (fun _ => ext s0 [])); [by apply triple_gets|]. intros d.
      eapply triple_bind; [apply wait_for_tasks_until_impl_spec|]. intros k. apply triple_ret.
      intros s (new & ? & _). by exists new.
    + intros b. apply triple_ret. intros s (new & ?). by exists new.
  - eapply done_to_bool, wait_for_tasks_until_impl_spec.
  - apply Hw.
  - apply with_time_point. intros d. eapply done_conseq; [apply wait_for_tasks_until_impl_spec|done].
  - eapply done_conseq; [apply wait_for_tasks_until_impl_spec|done].
Qed.

(** ** Theorems *)

(** One call of a client, in the middle of any environment; an exception
    leaves the state that the call has reached. *)
Definition client_step (c : client_call) (s : manual_executor) : option manual_executor :=
  Some (perform c s).2.

Lemma client_inv t env code s : reachable client_step (new_executor t env code) s -> inv s.
Proof.
  apply reachable_invariant.
  - by repeat split.
  - intros c s1 s2 Hi [= <-]. pose proof (perform_spec c s1 s1 (ext_refl s1 Hi)) as H.
    destruct (perform c s1) as [[k|e|] s']; [..|done]; destruct H as (new & Hn & _); by eapply ext_inv.
Qed.

Lemma sublist_same_length {A} (l k : list A) : l `sublist_of` k -> length k <= length l -> l = k.
Proof.
  induction 1 as [|x l k Hl IH|x l k Hl IH]; simpl; intros Hlen; [done| |].
  - f_equal. apply IH. lia.
  - apply sublist_length in Hl. lia.
Qed.

(** C10.  Every task that was given to [enqueue] has exactly one fate, whatever
    the clients, the other threads and the clock do; the other threads may
    enqueue, clear, shut down and be in loops at the same time, and tasks may
    throw.  A task was called once, by the client or by another thread, or a loop
    of another thread has taken it and is about to call it, or it was destroyed
    without a call, or it waits in the queue.  Tasks leave the queue in the order
    in which they were enqueued, and the client calls those that it takes in that
    order; as long as no other thread loops, tasks are called in the order of
    their submission.  The queue of an executor that was shut down is empty.  No
    call of a client fails an assertion. *)
Theorem manual_task_has_one_fate t env code s :
  reachable client_step (new_executor t env code) s ->
  submitted s ≡ₚ (executed s ++ elsewhere s ++ in_hand s) ++ destroyed s ++ m_tasks s /\
  taken s ≡ₚ executed s ++ elsewhere s ++ in_hand s /\
  taken s ++ m_tasks s `sublist_of` submitted s /\ executed s `sublist_of` taken s /\
  (elsewhere s = [] -> in_hand s = [] -> executed s ++ m_tasks s `sublist_of` submitted s) /\
  (m_abort s = true -> m_tasks s = []) /\
  (forall c, is_Abort (perform c s).1 = false).
Proof.
  intros Hi%client_inv. pose proof Hi as ((H1&H2&H3&H4&H5)&Hh). rewrite Hh in *. simpl in *. rewrite app_nil_r in H4.
  split_ands; [by rewrite H1, H2|done|done|done| |by intros []%H5|].
  - intros E1 E2. rewrite E1, E2, app_nil_r in H2.
    by rewrite (sublist_same_length (executed s) (taken s) H4) by (by rewrite H2).
  - intros c. eapply triple_no_abort; [apply (perform_spec c s)|by apply ext_refl].
Qed.

(** *** A quiet environment *)
Lemma quiet_interleave s : script s = [] -> interleave s = (Ok tt, s).
Proof. intros E. unfold interleave, mbind, M_bind, get_state. by rewrite E. Qed.

Ltac quiet := unfold mbind, M_bind, mret, M_ret, get_state, gets, throw, modify, put_state.

(** [n] tasks at the front of the queue are called. *)
Definition called_front (n : nat) (s : manual_executor) : manual_executor :=
  set_executed (executed s ++ take n (m_tasks s))
    (set_taken (taken s ++ take n (m_tasks s)) (set_tasks (drop n (m_tasks s)) s)).

Lemma quiet_loop n : forall s,
  script s = [] -> m_abort s = false -> holding s = [] -> Forall (fun t => task_code s t = None) (m_tasks s) ->
  loop_tasks n s = (Ok (min n (length (m_tasks s))), called_front n s).
Proof.
  unfold called_front. induction n as [|n IH]; intros s Hs Ha Hh Hc; simpl.
  - quiet. rewrite !app_nil_r. by destruct s.
  - quiet. rewrite quiet_interleave, Ha by done. destruct (m_tasks s) as [|t rest] eqn:Et; simpl.
    + rewrite !app_nil_r. destruct s; simpl in *. by subst.
    + apply Forall_cons in Hc as [Ht Hc]. unfold run_front. quiet. rewrite quiet_interleave by done. simpl.
      rewrite Ht. rewrite IH by done. simpl. rewrite <-!app_assoc. destruct s; simpl in *. by subst.
Qed.

Lemma quiet_throw_if_shutdown {A} (a : A) s :
  script s = [] ->
  throw_if_shutdown a s = (if m_atomic_abort s then Throw shutdown_error else Ok a, s).
Proof.
  intros E. unfold throw_if_shutdown, shutdown_requested. quiet. rewrite quiet_interleave by done.
  by destruct (m_atomic_abort s).
Qed.

Lemma quiet_loop_impl n s :
  inv s -> script s = [] -> Forall (fun t => task_code s t = None) (m_tasks s) ->
  loop_impl n s =
    if n =? 0 then (Ok 0, s)
    else (if m_atomic_abort s then Throw shutdown_error else Ok (min n (length (m_tasks s))), called_front n s).
Proof.
  intros ((_&_&_&_&H3)&Hh) Hs Hc. unfold loop_impl. destruct (Nat.eqb_spec n 0) as [->|Hn]; [done|].
  quiet. destruct (m_abort s) eqn:Ha.
  - destruct (H3 eq_refl) as [Et Eb]. rewrite Et, Eb. destruct n; [done|]. simpl.
    quiet. rewrite quiet_interleave, Ha by done. rewrite quiet_throw_if_shutdown, Eb by done.
    unfold called_front. rewrite Et. simpl. rewrite !app_nil_r. destruct s; simpl in *. by subst.
  - rewrite quiet_loop by done. by rewrite quiet_throw_if_shutdown.
Qed.

(** [loop(max_count)] calls at most [max_count] tasks and returns their
    number; left alone, with tasks that do not throw, it calls the oldest tasks
    of the queue, as many as there are, up to [max_count]. *)
Theorem loop_runs_the_oldest_tasks s n k s' :
  inv s -> loop n s = (Ok k, s') ->
  (exists new, executed s' = executed s ++ new /\ length new = k /\ k <= n) /\
  (script s = [] -> Forall (fun t => task_code s t = None) (m_tasks s) -> k = min n (length (m_tasks s)) /\
     executed s' = executed s ++ take n (m_tasks s) /\ m_tasks s' = drop n (m_tasks s)).
Proof.
  intros Hi Hl. split.
  - destruct (triple_Ok _ _ _ _ s k s' (loop_impl_spec s n) (ext_refl s Hi) Hl) as (new & (_&_&He) & Hr).
    by exists new.
  - intros Hsc Hc. unfold loop in Hl. rewrite (quiet_loop_impl n s Hi Hsc Hc) in Hl.
    destruct (Nat.eqb_spec n 0) as [->|Hn]; simpl in Hl; [|destruct (m_atomic_abort s)]; simplify_eq; [|done].
    by rewrite app_nil_r.
Qed.

(** [loop_until] (and [loop_for], [loop_once_for], [loop_once_until],
    which call it) calls at most [max_count] tasks; it returns with less only
    after the deadline. *)
Lemma loop_until_waits_for_tasks s n t k s' :
  inv s -> loop_until n t s = (Ok k, s') ->
  exists new, executed s' = executed s ++ new /\ length new = k /\ k <= n /\ (k < n -> (t < now s')%Z).
Proof.
  intros Hi Hl.
  destruct (triple_Ok _ _ _ _ s k s' (loop_until_impl_spec s n t) (ext_refl s Hi) Hl)
    as (new & (_&_&He) & [? ?] & Hk). by exists new.
Qed.

(** Waiting: [wait_for_tasks(count)] returns only when there are [count]
    tasks, and blocks for ever only when nobody will ever add them;
    [wait_for_tasks_until] returns the size of the queue, which is less than
    [count] only after the deadline. *)
Theorem waiting_is_correct s n t :
  inv s ->
  (forall s', wait_for_tasks n s = (Ok true, s') -> n <= length (m_tasks s')) /\
  (forall s', wait_for_tasks n s = (Ok false, s') -> script s' = [] /\ length (m_tasks s') < n) /\
  (forall k s', wait_for_tasks_until n t s = (Ok k, s') ->
     k = length (m_tasks s') /\ (k < n -> (t < now s')%Z)).
Proof.
  intros Hi. pose proof (ext_refl s Hi) as Hx. split_ands.
  - intros s' E. by destruct (triple_Ok _ _ _ _ s _ s' (wait_for_tasks_impl_spec s n) Hx E).
  - intros s' E. by destruct (triple_Ok _ _ _ _ s _ s' (wait_for_tasks_impl_spec s n) Hx E).
  - intros k s' E.
    by destruct (triple_Ok _ _ _ _ s _ s' (wait_for_tasks_until_impl_spec s n t) Hx E) as (new & _ & ?).
Qed.

(** Calls that do nothing useful once the executor is shut down. *)
Definition needs_executor (c : client_call) : bool :=
  match c with
  | c_enqueue _ | c_clear | c_loop_once | c_wait_for_task | c_wait_for_task_for _
  | c_wait_for_task_until _ | c_wait_for_tasks _ | c_wait_for_tasks_for _ _
  | c_wait_for_tasks_until _ _ | c_loop_once_for _ | c_loop_once_until _ => true
  | c_loop n | c_loop_for n _ | c_loop_until n _ => negb (n =? 0)
  | _ => false
  end.

(** *** After the shutdown *)
Definition closed (s0 s : manual_executor) : Prop := ext s0 [] s /\ m_abort s = true.
Definition rejected (s0 : manual_executor) (e : exn) (s : manual_executor) : Prop :=
  e = shutdown_error /\ closed s0 s.

(** The call throws, and the executor stays closed. *)
Notation throws_shutdown s0 m := (triple (closed s0) m (fun _ _ => False) (rejected s0)).

Lemma closed_interleave s0 : triple (closed s0) interleave (fun _ => closed s0) (rejected s0).
Proof.
  intros s [Hs Ha]. pose proof (ext_interleave s [] s (ext_refl s (ext_inv _ _ _ Hs))) as H.
  destruct (interleave s) as [[[]|e|] s']; try done. destruct H as (Hi & Hl & He).
  rewrite app_nil_r in He. split; [by eapply ext_same|by apply Hl].
Qed.

Lemma closed_facts s0 s : closed s0 s -> m_tasks s = [] /\ m_atomic_abort s = true /\ m_abort s = true.
Proof. intros [(((_&_&_&_&H3)&_)&_) Ha]. destruct (H3 Ha). done. Qed.

Lemma closed_throws {A} s0 (a : A) : throws_shutdown s0 (throw_if_shutdown a).
Proof.
  unfold throw_if_shutdown, shutdown_requested.
  eapply (triple_bind _ _ _ (fun b s => closed s0 s /\ b = true)).
  - eapply triple_seq; [apply closed_interleave|]. apply triple_gets. intros s Hs.
    destruct (closed_facts s0 s Hs) as (_&->&_). done.
  - intros b. apply triple_fix. intros s1 [Hs ->]. apply triple_throw. by intros s ->.
Qed.

(** What follows the first interleaving sees a closed executor. *)
Lemma closed_first {A} s0 (k : manual_executor -> M exn manual_executor A) Q R :
  (forall s1, closed s0 s1 -> triple (fun s => s = s1) (k s1) Q R) ->
  (forall e s, rejected s0 e s -> R e s) ->
  triple (closed s0) (interleave;; s ← get_state; k s) Q R.
Proof.
  intros H HR. eapply triple_seq.
  - eapply triple_conseq; [apply closed_interleave|done|done|done].
  - apply triple_read, H.
Qed.

Lemma closed_loop_tasks s0 n :
  triple (closed s0) (loop_tasks n) (fun k s => k = 0 /\ closed s0 s) (rejected s0).
Proof.
  destruct n as [|n]; [by apply triple_ret|]. apply closed_first; [|done]. intros s1 Hs1.
  destruct (closed_facts s0 s1 Hs1) as (_&_&->). apply triple_ret. by intros s ->.
Qed.

Lemma closed_wait s0 pred fuel :
  (forall s, m_abort s = true -> pred s = true) ->
  triple (closed s0) (wait fuel pred) (fun b s => b = true /\ closed s0 s) (rejected s0).
Proof.
  intros Hp. destruct fuel; simpl; apply triple_read; intros s1 Hs1;
    destruct (closed_facts s0 s1 Hs1) as (_&_&Ha); rewrite (Hp s1 Ha); apply triple_ret; by intros s ->.
Qed.

Lemma closed_wait_until s0 pred deadline fuel :
  (forall s, m_abort s = true -> pred s = true) ->
  triple (closed s0) (wait_until fuel pred deadline) (fun b s => b = true /\ closed s0 s) (rejected s0).
Proof.
  intros Hp. destruct fuel; simpl; apply triple_read; intros s1 Hs1;
    destruct (closed_facts s0 s1 Hs1) as (_&_&Ha); rewrite (Hp s1 Ha); apply triple_ret; by intros s ->.
Qed.

Lemma closed_cv_wait_until s0 pred deadline :
  (forall s, m_abort s = true -> pred s = true) ->
  triple (closed s0) (cv_wait_until pred deadline) (fun _ s => closed s0 s) (rejected s0).
Proof.
  intros Hp. apply triple_read. intros s1 Hs1.
  eapply triple_conseq; [by apply closed_wait_until|intros s ->; exact Hs1|by intros ? ? [_ ?]|done].
Qed.

Lemma closed_loop_impl s0 n : n <> 0 -> throws_shutdown s0 (loop_impl n).
Proof.
  intros Hn. unfold loop_impl. rewrite (proj2 (Nat.eqb_neq n 0) Hn).
  eapply triple_bind; [apply closed_loop_tasks|]. intros k. apply triple_fix. intros s1 [-> Hs].
  eapply triple_conseq; [apply (closed_throws s0)|by intros s ->|done|done].
Qed.

Lemma closed_loop_until_impl s0 n d : n <> 0 -> throws_shutdown s0 (loop_until_impl n d).
Proof.
  intros Hn. unfold loop_until_impl. rewrite (proj2 (Nat.eqb_neq n 0) Hn).
  eapply (triple_bind _ _ _ (fun _ => closed s0)); [|intros k; apply closed_throws].
  destruct n as [|n]; [done|]. simpl. eapply (triple_bind _ _ _ (fun _ => closed s0)); [by apply triple_gets|].
  intros t. destruct (d + 1 <=? t)%Z; [by apply triple_ret|].
  eapply triple_seq; [apply closed_interleave|].
  eapply triple_bind; [apply closed_cv_wait_until; intros s Ha; unfold has_task; by rewrite Ha, orb_true_r|].
  intros b. apply triple_read. intros s1 Hs1. destruct (closed_facts s0 s1 Hs1) as (_&_&->).
  apply triple_ret. by intros s ->.
Qed.

Lemma closed_wait_for_tasks s0 n : throws_shutdown s0 (wait_for_tasks_impl n).
Proof.
  unfold wait_for_tasks_impl. destruct (n =? 0); [apply closed_throws|].
  eapply triple_seq; [apply closed_interleave|].
  eapply (triple_bind _ _ _ (fun b s => b = true /\ closed s0 s)).
  - apply triple_read. intros s1 Hs1. eapply triple_conseq;
      [apply closed_wait; intros s Ha; unfold has_tasks; by rewrite Ha, orb_true_r|intros s ->; exact Hs1|done|done].
  - intros b. apply triple_read. intros s1 [-> Hs1]. simpl.
    destruct (closed_facts s0 s1 Hs1) as (_&_&->). apply triple_throw. by intros s ->.
Qed.

Lemma closed_wait_for_tasks_until s0 n d : throws_shutdown s0 (wait_for_tasks_until_impl n d).
Proof.
  unfold wait_for_tasks_until_impl. eapply triple_seq; [apply closed_interleave|].
  eapply triple_bind; [apply closed_cv_wait_until; intros s Ha; unfold has_tasks; by rewrite Ha, orb_true_r|].
  intros b. apply triple_read. intros s1 Hs1. destruct (closed_facts s0 s1 Hs1) as (_&_&->).
  apply triple_throw. by intros s ->.
Qed.

Lemma throws_bind {A B} s0 (m : M exn manual_executor A) (k : A -> M exn manual_executor B) :
  throws_shutdown s0 m -> throws_shutdown s0 (m ≫= k).
Proof. intros H. eapply triple_bind; [exact H|]. by intros a s. Qed.

Lemma throws_time {A} s0 ms (k : Z -> M exn manual_executor A) :
  (forall d, throws_shutdown s0 (k d)) -> throws_shutdown s0 (d ← time_point_from_now ms; k d).
Proof. intros H. eapply (triple_bind _ _ _ (fun _ => closed s0)); [by apply triple_gets|]. intros d. apply H. Qed.

Lemma closed_needs s0 c : needs_executor c = true -> throws_shutdown s0 (perform c).
Proof.
  intros Hc. destruct c; try done; simpl in *.
  - apply throws_bind. eapply triple_conseq with (Q' := fun _ _ => False) (R' := rejected s0); [|done..].
    apply closed_first; [|done]. intros s1 Hs1. pose proof (closed_facts s0 s1 Hs1) as (_&_&E). rewrite E.
    set (s2 := set_destroyed _ _). eapply (triple_seq _ _ _ (fun s => s = s2)); [by apply triple_put|].
    apply triple_throw. intros s ->. split; [done|]. destruct Hs1 as [Hs1 Ha]. split; [|done].
    eapply ext_same; [done|by apply inv_reject, (ext_inv s0 [])|unfold later; simpl; split_ands; auto; lia|done].
  - apply closed_first; [|done]. intros s1 Hs1. pose proof (closed_facts s0 s1 Hs1) as (_&_&E). rewrite E.
    apply triple_throw. by intros s ->.
  - by apply throws_bind, throws_bind, closed_loop_impl.
  - apply throws_bind. unfold loop_once_for. destruct (ms =? 0)%Z; [by apply throws_bind, closed_loop_impl|].
    apply throws_time. intros d. by apply throws_bind, closed_loop_until_impl.
  - by apply throws_bind, throws_bind, closed_loop_until_impl.
  - apply closed_loop_impl. by apply Nat.eqb_neq, negb_true_iff.
  - unfold loop_for. apply negb_true_iff in Hc. rewrite Hc. apply Nat.eqb_neq in Hc.
    destruct (ms =? 0)%Z; [by apply closed_loop_impl|]. apply throws_time. intros d.
    by apply closed_loop_until_impl.
  - apply closed_loop_until_impl. by apply Nat.eqb_neq, negb_true_iff.
  - apply throws_bind, closed_wait_for_tasks.
  - apply throws_bind. apply throws_time. intros d. apply throws_bind, closed_wait_for_tasks_until.
  - apply throws_bind, throws_bind, closed_wait_for_tasks_until.
  - apply throws_bind, closed_wait_for_tasks.
  - apply throws_time. intros d. apply closed_wait_for_tasks_until.
  - apply closed_wait_for_tasks_until.
Qed.

Lemma closed_others s0 c :
  needs_executor c = false -> triple (closed s0) (perform c) (fun _ => closed s0) (rejected s0).
Proof.
  intros Hc. assert (Hsz : triple (closed s0) size (fun _ => closed s0) (rejected s0)).
  { eapply triple_seq; [apply closed_interleave|]. by apply triple_gets. }
  destruct c; try done; simpl in *.
  - eapply (triple_bind _ _ _ (fun _ => closed s0)); [|intros b; by apply triple_ret].
    eapply triple_bind; [exact Hsz|]. intros k. by apply triple_ret.
  - eapply (triple_bind _ _ _ (fun _ => closed s0)); [|intros []; by apply triple_ret].
    apply closed_first; [|done]. intros s1 Hs1. pose proof (closed_facts s0 s1 Hs1) as (_&E&_). rewrite E.
    set (s2 := set_atomic_abort true s1). eapply (triple_seq _ _ _ (fun s => s = s2)); [by apply triple_put|].
    apply triple_ret. intros s ->. destruct Hs1 as [Hs1 Ha]. split; [|done].
    apply (ext_env_step s0 [] env_shutdown_flag s1 Hs1).
  - eapply (triple_bind _ _ _ (fun _ => closed s0)); [|intros b; by apply triple_ret].
    eapply triple_seq; [apply closed_interleave|]. by apply triple_gets.
  - apply negb_false_iff in Hc. unfold loop, loop_impl. rewrite Hc. by apply triple_ret.
  - apply negb_false_iff in Hc. unfold loop_for. rewrite Hc. by apply triple_ret.
  - apply negb_false_iff in Hc. unfold loop_until, loop_until_impl. rewrite Hc. by apply triple_ret.
Qed.

(** [shutdown] is final: once it has taken the lock the queue is empty for
    ever, no task is called any more, and every call that needs the executor
    throws [runtime_shutdown]; only loops over zero tasks still return. *)
Theorem shutdown_is_final s c :
  inv s -> m_abort s = true ->
  m_tasks s = [] /\ m_abort (perform c s).2 = true /\ executed (perform c s).2 = executed s /\
  (needs_executor c = true -> (perform c s).1 = Throw shutdown_error).
Proof.
  intros Hi Ha. assert (Hc : closed s s) by (split; [by apply ext_refl|done]).
  split; [by apply (closed_facts s s)|]. destruct (needs_executor c) eqn:Hn.
  - pose proof (closed_needs s c Hn s Hc) as H. destruct (perform c s) as [[k|e|] s']; try done.
    destruct H as (-> & (_&_&He) & Ha'). rewrite app_nil_r in He. done.
  - pose proof (closed_others s c Hn s Hc) as H. destruct (perform c s) as [[k|e|] s']; [| |done].
    + destruct H as ((_&_&He) & Ha'). rewrite app_nil_r in He. done.
    + destruct H as (_ & (_&_&He) & Ha'). rewrite app_nil_r in He. done.
Qed.

(** ** Concrete runs *)

(** No task throws; task 4 throws. *)
Definition quiet_tasks : task_id -> option exn := fun _ => None.
Definition task_4_throws (t : task_id) : option exn :=
  if t =? 4 then Some (make_exn broken_task k_broken_task_exception_error_msg) else None.

(** Two tasks in the queue. *)
Definition two_tasks : manual_executor := (enqueue [1; 2] (new_executor 0 [] quiet_tasks)).2.

(** [wait_for_task_for] answers false although tasks are there: it
    compares the size of the queue with 1, so with two tasks it waits for
    nothing and reports a failure. *)
Lemma wait_for_task_for_misses_tasks :
  (wait_for_task_for 10 two_tasks).1 = Ok false /\ (wait_for_task_until 10 two_tasks).1 = Ok false /\
  (wait_for_tasks_for 1 10 two_tasks).1 = Ok 2.
Proof. by vm_compute. Qed.

(** Another thread loops: it takes a task and calls it while this thread waits;
    tasks are enqueued, and somebody shuts down. *)
Definition busy_script : list env_entry :=
  [make_entry [env_enqueue [3; 6]; env_pop] 5; make_entry [env_call 0] 5; make_entry [env_wake] 5; make_entry [env_enqueue [4; 5]] 100;
   make_entry [env_shutdown_flag] 1; make_entry [env_shutdown_lock] 1].

Definition run_calls (cs : list client_call) : manual_executor :=
  after client_step (new_executor 0 busy_script task_4_throws) cs.

(** ** Witnesses *)
Lemma run_calls_reachable cs :
  reachable client_step (new_executor 0 busy_script task_4_throws) (run_calls cs).
Proof. apply after_reachable. Qed.

Lemma run_calls_inv cs : inv (run_calls cs).
Proof. eapply client_inv, run_calls_reachable. Qed.

Definition run_fates : manual_executor := run_calls [c_enqueue [1; 2]; c_loop 1; c_clear].

Lemma manual_task_has_one_fate_witness :
  submitted run_fates ≡ₚ (executed run_fates ++ elsewhere run_fates ++ in_hand run_fates) ++
    destroyed run_fates ++ m_tasks run_fates /\
  executed run_fates = [6] /\ elsewhere run_fates = [3] /\ destroyed run_fates = [1; 2; 4; 5].
Proof.
  split; [|by vm_compute].
  exact (proj1 (manual_task_has_one_fate 0 busy_script task_4_throws run_fates (run_calls_reachable _))).
Defined.

Lemma loop_runs_the_oldest_tasks_witness :
  exists new, executed (loop 1 (run_calls [c_enqueue [1; 2]])).2 =
    executed (run_calls [c_enqueue [1; 2]]) ++ new /\ length new = 1 /\ 1 <= 1.
Proof.
  apply (loop_runs_the_oldest_tasks _ 1 1 _ (run_calls_inv [c_enqueue [1; 2]])). by vm_compute.
Defined.

Definition short_run : manual_executor := run_calls [c_enqueue [9]; c_size].

Lemma loop_until_waits_for_tasks_witness :
  exists new, executed (loop_until 4 3 short_run).2 = executed short_run ++ new /\
    length new = 0 /\ 0 <= 4 /\ (0 < 4 -> (3 < now (loop_until 4 3 short_run).2)%Z).
Proof.
  apply (loop_until_waits_for_tasks _ 4 3 0 _ (run_calls_inv [c_enqueue [9]; c_size])). by vm_compute.
Defined.

Lemma waiting_is_correct_witness :
  2 <= length (m_tasks (wait_for_tasks 2 (run_calls [])).2).
Proof. eapply (waiting_is_correct _ 2 0 (run_calls_inv [])). by vm_compute. Defined.

Lemma shutdown_is_final_witness :
  (perform (c_loop 3) (run_calls [c_shutdown; c_size; c_size])).1 = Throw shutdown_error.
Proof.
  apply (shutdown_is_final _ (c_loop 3) (run_calls_inv [c_shutdown; c_size; c_size])); by vm_compute.
Defined.
