(* ===== verification/Timer.v ===== *)
(** * timer and timer_state_base

    [include/concurrencpp/timers/timer.h], [source/timers/timer.cpp] and the
    public part of [timer_queue] that creates timers.  The states of timers are
    shared objects (a timer, the queue and posted closures point to them): they
    live in a heap.

    Times: due times and frequencies are [size_t] milliseconds, as in the code;
    the clock and deadlines count its ticks as unbounded integers (overflow of
    a [time_point] is not modelled). *)

From Stdlib Require Import ZArith.
From stdpp Require Import prelude gmap list strings.
From S2P Require Import Prelude Errors.
#[local] Open Scope list_scope.

Definition timer_id : Type := nat.
Definition executor_id : Type := nat.

(** Nanoseconds in a millisecond. *)
Definition ticks_per_ms : Z := 1000000.

(** [milliseconds::rep] is a signed 64-bit integer; from and to [size_t]. *)
Definition to_size_t (ms : Z) : Z := wrap_size ms.
Definition of_size_t (n : Z) : Z := if (n <? 2 ^ 63)%Z then n else (n - size_mod)%Z.

(** ** timer_state_base *)
Record timer_state := make_timer_state {
  m_executor : executor_id;
  m_due_time : Z;
  m_frequency : Z;
  m_deadline : Z;
  m_cancelled : bool;
  m_is_oneshot : bool
}.

#[export] Instance timer_state_eq_dec : EqDecision timer_state.
Proof. solve_decision. Defined.

(** [make_deadline(diff)]; [diff] was a [size_t]. *)
Definition make_deadline (now diff : Z) : Z := now + of_size_t diff * ticks_per_ms.

(** The constructor. *)
Definition new_timer_state (now due_time frequency : Z) (ex : executor_id) (is_oneshot : bool) : timer_state :=
  make_timer_state ex due_time frequency (make_deadline now due_time) false is_oneshot.

Definition expired (now : Z) (t : timer_state) : bool := (m_deadline t <=? now)%Z.
Definition get_deadline (t : timer_state) : Z := m_deadline t.
Definition set_new_frequency (f : Z) (t : timer_state) : timer_state :=
  make_timer_state (m_executor t) (m_due_time t) f (m_deadline t) (m_cancelled t) (m_is_oneshot t).
Definition set_cancelled (t : timer_state) : timer_state :=
  make_timer_state (m_executor t) (m_due_time t) (m_frequency t) (m_deadline t) true (m_is_oneshot t).
Definition set_deadline (d : Z) (t : timer_state) : timer_state :=
  make_timer_state (m_executor t) (m_due_time t) (m_frequency t) d (m_cancelled t) (m_is_oneshot t).

(** The first half of [fire()]: the new deadline, [frequency] from now. *)
Definition rearm (now : Z) (t : timer_state) : timer_state :=
  set_deadline (make_deadline now (m_frequency t)) t.

(** [timer_state::execute()], when the executor runs it: does it call the
    callable? *)
Definition execute_calls (t : timer_state) : bool := negb (m_cancelled t).

(** ** The objects that timers share *)
Inductive timer_request := add | remove.

#[export] Instance timer_request_eq_dec : EqDecision timer_request.
Proof. solve_decision. Defined.

Record timers_world := make_world {
  states : gmap timer_id timer_state;
  clock : Z;
  queue_alive : bool;                           (* timer_queue.lock() succeeds *)
  queue_aborted : bool;                         (* m_abort of the queue *)
  m_request_queue : list (timer_id * timer_request)
}.

Notation TM := (M exn timers_world).

Definition set_states v w := make_world v (clock w) (queue_alive w) (queue_aborted w) (m_request_queue w).
Definition set_requests v w := make_world (states w) (clock w) (queue_alive w) (queue_aborted w) v.

(** [*m_state]; a dangling pointer is undefined behaviour. *)
Definition read_state (t : timer_id) : TM timer_state :=
  h ← gets states;
  match h !! t with Some st => mret st | None => abort end.

Definition write_state (t : timer_id) (st : timer_state) : TM unit :=
  modify (fun w => set_states (<[t := st]> (states w)) w).

(** ** timer *)
Definition timer : Type := option timer_id.     (* m_state *)

Definition throw_if_empty (t : timer) (msg : string) : TM timer_id :=
  match t with
  | Some i => mret i
  | None => throw (make_exn empty_timer msg)
  end.

Definition get_due_time (t : timer) : TM Z :=
  i ← throw_if_empty t k_timer_empty_get_due_time_err_msg;
  st ← read_state i;
  mret (of_size_t (m_due_time st)).

Definition get_frequency (t : timer) : TM Z :=
  i ← throw_if_empty t k_timer_empty_get_frequency_err_msg;
  st ← read_state i;
  mret (of_size_t (m_frequency st)).

Definition get_executor (t : timer) : TM executor_id :=
  i ← throw_if_empty t k_timer_empty_get_executor_err_msg;
  st ← read_state i;
  mret (m_executor st).

(** [get_timer_queue()]: does the weak pointer still lock? *)
Definition get_timer_queue (t : timer) : TM bool :=
  i ← throw_if_empty t k_timer_empty_get_timer_queue_err_msg;
  read_state i;;
  gets queue_alive.

Definition set_frequency (t : timer) (new_frequency : Z) : TM unit :=
  i ← throw_if_empty t k_timer_empty_set_frequency_err_msg;
  st ← read_state i;
  write_state i (set_new_frequency (to_size_t new_frequency) st).

(** [timer_queue::remove_internal_timer]. *)
Definition remove_internal_timer (i : timer_id) : TM unit :=
  modify (fun w => set_requests (m_request_queue w ++ [(i, remove)]) w).

(** [cancel()], and the destructor: the timer that is left is empty. *)
Definition cancel (t : timer) : TM timer :=
  match t with
  | None => mret None
  | Some i =>
      st ← read_state i;
      write_state i (set_cancelled st);;
      alive ← gets queue_alive;
      (if (alive : bool) then remove_internal_timer i else mret tt);;
      mret None
  end.

(** [operator=(timer&& rhs)] for two different timers: the new [*this] and the
    new [rhs]. *)
Definition timer_assign (self rhs : timer) : TM (timer * timer) :=
  (match self with Some _ => cancel self | None => mret None end);;
  mret (rhs, None).

Definition timer_bool (t : timer) : bool := bool_decide (t ≠ None).

(** ** Creation *)

(** [add_timer] under the lock, without the worker thread (see
    [TimerWorker]). *)
Definition add_timer (i : timer_id) : TM unit :=
  w ← get_state;
  if queue_aborted w then throw (make_exn runtime_shutdown k_timer_queue_shutdown_err_msg)
  else put_state (set_requests (m_request_queue w ++ [(i, add)]) w).

(** [make_timer_impl]. *)
Definition make_timer_impl (due_time frequency : Z) (ex : executor_id) (is_oneshot : bool) : TM timer :=
  w ← get_state;
  let i := fresh (dom (states w)) in
  put_state (set_states (<[i := new_timer_state (clock w) due_time frequency ex is_oneshot]> (states w)) w);;
  add_timer i;;
  mret (Some i).

(** A null executor is [None]. *)
Definition make_timer (due_time frequency : Z) (ex : option executor_id) : TM timer :=
  match ex with
  | None => throw (make_exn invalid_argument k_timer_queue_make_timer_executor_null_err_msg)
  | Some ex => make_timer_impl (to_size_t due_time) (to_size_t frequency) ex false
  end.

Definition make_one_shot_timer (due_time : Z) (ex : option executor_id) : TM timer :=
  match ex with
  | None => throw (make_exn invalid_argument k_timer_queue_make_oneshot_timer_executor_null_err_msg)
  | Some ex => make_timer_impl (to_size_t due_time) 0 ex true
  end.

(** ** Theorems *)

(** A value of [milliseconds::rep]. *)
Definition int64 (z : Z) : Prop := (- 2 ^ 63 <= z < 2 ^ 63)%Z.

Lemma size_t_roundtrip z : int64 z -> of_size_t (to_size_t z) = z.
Proof.
  unfold int64, of_size_t, to_size_t, wrap_size, size_mod, size_bits. intros Hz.
  destruct (Z.leb_spec 0 z).
  - rewrite Z.mod_small by lia. destruct (Z.ltb_spec z (2 ^ 63)); lia.
  - assert (E : (z mod 2 ^ 64 = z + 2 ^ 64)%Z).
    { rewrite <-(Z.mod_small (z + 2 ^ 64) (2 ^ 64)) by lia. by rewrite Z.add_mod, Z_mod_same_full, Z.add_0_r, Z.mod_mod by lia. }
    rewrite E. destruct (Z.ltb_spec (z + 2 ^ 64) (2 ^ 63)); lia.
Qed.

Ltac run_t := unfold mbind, M_bind, mret, M_ret, get_state, put_state, gets, modify; simpl.

(** What a timer is told it tells: a timer made with any 64-bit due time
    and frequency (negative ones included, although they are stored as
    [size_t]) reports them, and so it does after [set_frequency]; and its first
    deadline is the due time from now. *)
Theorem timer_round_trip w w' due freq freq' ex t :
  int64 due -> int64 freq -> int64 freq' ->
  make_timer due freq (Some ex) w = (Ok t, w') ->
  (get_due_time t w').1 = Ok due /\ (get_frequency t w').1 = Ok freq /\
  (get_executor t w').1 = Ok ex /\
  (get_frequency t (set_frequency t freq' w').2).1 = Ok freq' /\
  (exists i st, t = Some i /\ states w' !! i = Some st /\ states w !! i = None /\
     m_deadline st = (clock w + due * ticks_per_ms)%Z /\ m_cancelled st = false /\
     m_request_queue w' = m_request_queue w ++ [(i, add)]).
Proof.
  intros Hd Hf Hf'. unfold make_timer, make_timer_impl, add_timer. run_t.
  destruct (queue_aborted w) eqn:Ha; simpl; intros [= <- <-].
  set (i := fresh (dom (states w))).
  assert (Hi : states w !! i = None) by (apply not_elem_of_dom, is_fresh).
  unfold get_due_time, get_frequency, get_executor, set_frequency, read_state, write_state, throw_if_empty.
  run_t. rewrite !lookup_insert_eq. simpl. run_t. rewrite lookup_insert_eq. simpl.
  rewrite !size_t_roundtrip by done. split_ands; try done.
  exists i. eexists. split_ands; [done|apply lookup_insert_eq|done| |done|done].
  simpl. unfold make_deadline. by rewrite size_t_roundtrip.
Qed.

(** [cancel] marks the shared state and asks the queue to remove it; the
    timer is empty afterwards, so that a second [cancel] (the destructor
    included) does nothing; and every query of an empty timer throws
    [empty_timer]. *)
Lemma cancel_once w i st :
  states w !! i = Some st ->
  exists w', cancel (Some i) w = (Ok None, w') /\
    states w' = <[i := set_cancelled st]> (states w) /\
    m_request_queue w' = m_request_queue w ++ (if queue_alive w then [(i, remove)] else []) /\
    cancel None w' = (Ok None, w') /\
    (forall ms, exists m1 m2 m3 m4,
       (get_due_time None w').1 = Throw (make_exn empty_timer m1) /\
       (get_frequency None w').1 = Throw (make_exn empty_timer m2) /\
       (get_executor None w').1 = Throw (make_exn empty_timer m3) /\
       (set_frequency None ms w').1 = Throw (make_exn empty_timer m4)).
Proof.
  intros Hi. unfold cancel, read_state, write_state, remove_internal_timer. run_t. rewrite Hi. run_t.
  destruct (queue_alive w) eqn:Ea; run_t; eexists; split_ands; try done; simpl; rewrite ?app_nil_r; try done;
    intros ms; unfold get_due_time, get_frequency, get_executor, set_frequency, throw_if_empty; run_t;
    unfold throw; do 4 eexists; done.
Qed.

(** ** Witnesses *)
Definition no_timers : timers_world := make_world ∅ 1000 true false [].

Lemma timer_round_trip_witness :
  match make_timer (-5) 30 (Some 2) no_timers with
  | (Ok t, w') => (get_due_time t w').1 = Ok (-5)%Z
  | _ => False
  end.
Proof.
  destruct (make_timer (-5) 30 (Some 2) no_timers) as [[t|e|] w'] eqn:E; [|discriminate E|discriminate E].
  eapply (timer_round_trip no_timers w' (-5) 30 7 2 t); [done..|exact E].
Defined.

Lemma cancel_once_witness :
  exists w', cancel (Some 0) (set_states {[0 := new_timer_state 0 1 2 3 false]} no_timers) = (Ok None, w') /\
    m_request_queue w' = [(0, remove)].
Proof.
  destruct (cancel_once (set_states {[0 := new_timer_state 0 1 2 3 false]} no_timers) 0
    (new_timer_state 0 1 2 3 false)) as (w' & E & _ & Hq & _); [by vm_compute|].
  exists w'. split; [exact E|exact Hq].
Defined.
