(* ===== verification/TimerQueue.v ===== *)
(** * timer_queue_internal

    [source/timers/timer_queue.cpp] up to [process_timers]: the multiset of
    timers ordered by deadline, the map from timers to their nodes, and what
    the worker thread does with a batch of requests.

    Other threads run while [process_timers] does: before each read of shared
    state the model lets the next entry of a [script] happen, a list of what
    users do (make, cancel or change timers, shut down executors or the queue)
    and of ticks of the clock. *)

From Stdlib Require Import ZArith.
From stdpp Require Import prelude gmap list sorting strings.
From S2P Require Import Prelude Errors Timer.
#[local] Open Scope list_scope.

Definition node_id : Type := nat.

(** ** State *)

(** [m_timers] is the multiset in its order, each element with its node;
    [m_iterator_mapper] holds iterators, that is nodes. *)
Record timer_queue_internal := make_internal {
  m_timers : list (node_id * timer_id);
  m_iterator_mapper : gmap timer_id node_id;
  next_node : node_id
}.

Inductive interference :=
  | tick (d : nat)
  | user_make (due_time frequency : Z) (ex : executor_id)
  | user_make_one_shot (due_time : Z) (ex : executor_id)
  | user_cancel (t : timer_id)
  | user_set_frequency (t : timer_id) (f : Z)
  | queue_shutdown
  | executor_shutdown (ex : executor_id) (name : string).

Record queue_world := make_queue_world {
  timers : timers_world;
  internal : timer_queue_internal;
  posted : list timer_id;                 (* the closures [fire] posted *)
  dead_executors : gmap executor_id string;   (* those that were shut down, with their names *)
  script : list (list interference)
}.

Notation QM := (M exn queue_world).

Definition set_timers v w := make_queue_world v (internal w) (posted w) (dead_executors w) (script w).
Definition set_internal v w := make_queue_world (timers w) v (posted w) (dead_executors w) (script w).
Definition set_posted v w := make_queue_world (timers w) (internal w) v (dead_executors w) (script w).
Definition set_dead v w := make_queue_world (timers w) (internal w) (posted w) v (script w).
Definition set_script v w := make_queue_world (timers w) (internal w) (posted w) (dead_executors w) v.

(** ** Interference *)
Definition set_clock v w :=
  make_world (states w) v (queue_alive w) (queue_aborted w) (m_request_queue w).
Definition abort_queue w :=
  make_world (states w) (clock w) (queue_alive w) true [].

Definition interfere_one (i : interference) (w : queue_world) : queue_world :=
  let tw := timers w in
  match i with
  | tick d => set_timers (set_clock (clock tw + Z.of_nat d) tw) w
  | user_make due f ex => set_timers (make_timer due f (Some ex) tw).2 w
  | user_make_one_shot due ex => set_timers (make_one_shot_timer due (Some ex) tw).2 w
  | user_cancel t => set_timers (cancel (Some t) tw).2 w
  | user_set_frequency t f => set_timers (set_frequency (Some t) f tw).2 w
  | queue_shutdown => set_timers (abort_queue tw) w
  | executor_shutdown ex name => set_dead (<[ex := name]> (dead_executors w)) w
  end.

Definition interfere (w : queue_world) : queue_world :=
  match script w with
  | [] => w
  | l :: ls => foldl (fun w i => interfere_one i w) (set_script ls w) l
  end.

(** ** Access to timers *)
Definition on_timers {A} (m : M exn timers_world A) : QM A := fun w =>
  let '(r, tw) := m (timers w) in (r, set_timers tw w).

(** [high_resolution_clock::now()]. *)
Definition clock_now : QM Z := modify interfere;; gets (fun w => clock (timers w)).

Definition deadline_of (h : gmap timer_id timer_state) (t : timer_id) : Z :=
  match h !! t with Some st => get_deadline st | None => 0%Z end.

(** [timer_state_base::fire()]. *)
Definition fire (t : timer_id) : QM unit :=
  modify interfere;;
  st ← on_timers (read_state t);
  let frequency := m_frequency st in
  now ← clock_now;
  st ← on_timers (read_state t);
  on_timers (write_state t (set_deadline (make_deadline now frequency) st));;
  modify interfere;;
  w ← get_state;
  match dead_executors w !! m_executor st with
  | Some name => throw (runtime_shutdown_exception name)
  | None => put_state (set_posted (posted w ++ [t]) w)
  end.

(** ** timer_queue_internal *)

(** [multiset::insert] under [deadline_comparator]: after the elements that
    are not greater. *)
Fixpoint insert_sorted (h : gmap timer_id timer_state) (x : node_id * timer_id)
  (l : list (node_id * timer_id)) : list (node_id * timer_id) :=
  match l with
  | [] => [x]
  | y :: l' => if (deadline_of h x.2 <? deadline_of h y.2)%Z then x :: l else y :: insert_sorted h x l'
  end.

(** [multiset::insert], of a value or of an extracted node: the iterator. *)
Definition set_insert (t : timer_id) : QM node_id :=
  w ← get_state;
  let i := internal w in
  let n := next_node i in
  put_state (set_internal (make_internal
    (insert_sorted (states (timers w)) (n, t) (m_timers i)) (m_iterator_mapper i) (S n)) w);;
  mret n.

(** [m_timers.erase(it)] and [extract(it)]: undefined for an iterator that
    does not belong to the set. *)
Definition set_erase (n : node_id) : QM unit :=
  w ← get_state;
  let i := internal w in
  if bool_decide (n ∈ (m_timers i).*1)
  then put_state (set_internal (make_internal
         (filter (fun p => p.1 <> n) (m_timers i)) (m_iterator_mapper i) (next_node i)) w)
  else abort.

Definition map_find (t : timer_id) : QM (option node_id) :=
  gets (fun w => m_iterator_mapper (internal w) !! t).
Definition map_modify (f : gmap timer_id node_id -> gmap timer_id node_id) : QM unit :=
  modify (fun w => set_internal (make_internal (m_timers (internal w))
    (f (m_iterator_mapper (internal w))) (next_node (internal w))) w).

Definition add_timer_internal (new_timer : timer_id) : QM unit :=
  o ← map_find new_timer;
  massert (bool_decide (o = None));;
  timer_it ← set_insert new_timer;
  map_modify (<[new_timer := timer_it]>).

Definition remove_timer_internal (existing_timer : timer_id) : QM unit :=
  timer_it ← map_find existing_timer;
  match timer_it with
  | None =>
      st ← on_timers (read_state existing_timer);
      massert (m_is_oneshot st || m_cancelled st)
  | Some set_iterator =>
      set_erase set_iterator;;
      map_modify (delete existing_timer)
  end.

Definition process_request (request : timer_id * timer_request) : QM unit :=
  match request.2 with
  | add => add_timer_internal request.1
  | remove => remove_timer_internal request.1
  end.

Definition process_request_queue (queue : list (timer_id * timer_request)) : QM unit :=
  mfor queue process_request.

Definition internal_empty : QM bool :=
  i ← gets internal;
  massert (bool_decide (size (m_iterator_mapper i) = length (m_timers i)));;
  mret (bool_decide (m_timers i = [])).

Definition reset_containers_memory : QM unit :=
  e ← internal_empty;
  massert e;;
  modify (fun w => set_internal (make_internal [] ∅ (next_node (internal w))) w).

(** One turn of the loop of [process_timers]; does it go on? *)
Definition process_first (now : Z) : QM bool :=
  w ← get_state;
  match m_timers (internal w) with
  | [] => mret false
  | (first_timer_it, timer_ptr) :: _ =>
      st ← on_timers (read_state timer_ptr);
      let is_oneshot := m_is_oneshot st in
      if negb (expired now st) then mret false
      else
        set_erase first_timer_it;;
        modify interfere;;
        st ← on_timers (read_state timer_ptr);
        let cancelled := m_cancelled st in
        (if negb cancelled then fire timer_ptr else mret tt);;
        if is_oneshot || cancelled then
          map_modify (delete timer_ptr);;
          mret true
        else
          new_it ← set_insert timer_ptr;
          o ← map_find timer_ptr;
          massert (bool_decide (o <> None));;
          map_modify (<[timer_ptr := new_it]>);;
          mret true
  end.

(** [while (true)], at most [fuel] turns; did it end? *)
Fixpoint process_loop (fuel : nat) (now : Z) : QM bool :=
  match fuel with
  | 0 => mret false
  | S fuel => go ← process_first now; if (go : bool) then process_loop fuel now else mret true
  end.

Definition hours_24 : Z := 24 * 60 * 60 * 1000 * ticks_per_ms.

(** [process_timers]: the next deadline; [None] when [fuel] was not enough. *)
Definition process_timers (fuel : nat) (queue : list (timer_id * timer_request)) : QM (option Z) :=
  process_request_queue queue;;
  now ← clock_now;
  ended ← process_loop fuel now;
  if negb ended then mret None
  else
    w ← get_state;
    match m_timers (internal w) with
    | [] => reset_containers_memory;; mret (Some (now + hours_24)%Z)
    | (_, t) :: _ => st ← on_timers (read_state t); mret (Some (get_deadline st))
    end.
