(* ===== verification/TimerQueueProps.v ===== *)
(** * Lemmas on timer_queue_internal

    How shared timers evolve under interference, the invariant of the two
    containers, and what one turn of [process_timers] does. *)

From Stdlib Require Import ZArith Sorted.
From stdpp Require Import prelude gmap list sorting strings.
From S2P Require Import Prelude Errors Timer TimerQueue.
#[local] Open Scope list_scope.

(** ** What may change while the worker runs

    [L] lists the timers that the worker fired: their deadlines may change. *)
Record evolves (L : list timer_id) (tw tw' : timers_world) : Prop := {
  ev_clock : (clock tw <= clock tw')%Z;
  ev_states : forall t st, states tw !! t = Some st ->
    exists st', states tw' !! t = Some st' /\
      m_executor st' = m_executor st /\ m_due_time st' = m_due_time st /\
      m_is_oneshot st' = m_is_oneshot st /\
      (t ∉ L -> m_deadline st' = m_deadline st) /\
      (m_cancelled st = true -> m_cancelled st' = true)
}.

Lemma evolves_refl L tw : evolves L tw tw.
Proof. split; [lia|]. intros t st H. exists st. by split_ands. Qed.

Lemma evolves_trans L1 L2 tw1 tw2 tw3 :
  evolves L1 tw1 tw2 -> evolves L2 tw2 tw3 -> evolves (L1 ++ L2) tw1 tw3.
Proof.
  intros [C1 S1] [C2 S2]. split; [lia|]. intros t st H.
  destruct (S1 t st H) as (st1 & E1 & ? & ? & ? & D1 & K1).
  destruct (S2 t st1 E1) as (st2 & E2 & ? & ? & ? & D2 & K2).
  exists st2. split_ands; try congruence; [|auto].
  rewrite not_elem_of_app. intros []. rewrite D2, D1; done.
Qed.

Lemma evolves_nil_trans L tw1 tw2 tw3 :
  evolves [] tw1 tw2 -> evolves L tw2 tw3 -> evolves L tw1 tw3.
Proof. intros H1 H2. by apply (evolves_trans [] L _ _ _ H1 H2). Qed.

(** ** Frequencies

    Periodic timers whose frequency, read as milliseconds, is positive. *)
Definition positive_timers (h : gmap timer_id timer_state) : Prop :=
  forall t st, h !! t = Some st -> m_is_oneshot st = false -> (0 < of_size_t (m_frequency st))%Z.

Definition positive_ms (f : Z) : bool := ((0 <? f) && (f <? 2 ^ 63))%Z.

Definition positive_op (i : interference) : bool :=
  match i with
  | user_make _ f _ | user_set_frequency _ f => positive_ms f
  | _ => true
  end.

Definition positive_world (w : queue_world) : Prop :=
  positive_timers (states (timers w)) /\ Forall (Forall (fun i => positive_op i = true)) (script w).

Lemma positive_ms_size f : positive_ms f = true -> (0 < of_size_t (to_size_t f))%Z.
Proof.
  unfold positive_ms. rewrite andb_true_iff, Z.ltb_lt, Z.ltb_lt. intros [].
  rewrite size_t_roundtrip; [done|]. unfold int64. lia.
Qed.

Lemma positive_insert h t st :
  positive_timers h -> (m_is_oneshot st = false -> (0 < of_size_t (m_frequency st))%Z) ->
  positive_timers (<[t := st]> h).
Proof.
  intros Hh Hst t' st'. destruct (decide (t = t')) as [<-|Hne].
  - rewrite lookup_insert_eq. intros [= <-]. done.
  - rewrite lookup_insert_ne by done. apply Hh.
Qed.

(** ** Interference *)

(** A new timer: its state and its request. *)
Definition with_timer (st : timer_state) (tw : timers_world) : timers_world :=
  let i := fresh (dom (states tw)) in
  make_world (<[i := st]> (states tw)) (clock tw) (queue_alive tw) (queue_aborted tw)
    (if queue_aborted tw then m_request_queue tw else m_request_queue tw ++ [(i, add)]).

Lemma make_timer_impl_world due f ex os tw :
  (make_timer_impl due f ex os tw).2 = with_timer (new_timer_state (clock tw) due f ex os) tw.
Proof.
  unfold make_timer_impl, add_timer, with_timer. run_t.
  destruct (queue_aborted tw) eqn:E; run_t; unfold throw; simpl; unfold set_states; simpl; by rewrite ?E.
Qed.

Lemma evolves_with_timer L st tw : evolves L tw (with_timer st tw).
Proof.
  split; [simpl; lia|]. intros t st' Ht. exists st'. split; [|by split_ands].
  simpl. rewrite lookup_insert_ne; [done|]. intros <-.
  apply elem_of_dom_2 in Ht. by apply is_fresh in Ht.
Qed.

(** Cancelling and changing the frequency update one state. *)
Lemma cancel_world t tw :
  (cancel (Some t) tw).2 =
  match states tw !! t with
  | None => tw
  | Some st =>
      make_world (<[t := set_cancelled st]> (states tw)) (clock tw) (queue_alive tw) (queue_aborted tw)
        (if queue_alive tw then m_request_queue tw ++ [(t, remove)] else m_request_queue tw)
  end.
Proof.
  unfold cancel, read_state, write_state, remove_internal_timer. run_t.
  destruct (states tw !! t); run_t; [|done].
  destruct (queue_alive tw) eqn:E; run_t; unfold set_requests, set_states; simpl; by rewrite ?E.
Qed.

Lemma set_frequency_world t f tw :
  (set_frequency (Some t) f tw).2 =
  match states tw !! t with
  | None => tw
  | Some st => set_states (<[t := set_new_frequency (to_size_t f) st]> (states tw)) tw
  end.
Proof.
  unfold set_frequency, throw_if_empty, read_state, write_state. run_t.
  by destruct (states tw !! t).
Qed.

Lemma evolves_insert L tw tw' t st st' :
  states tw !! t = Some st -> states tw' = <[t := st']> (states tw) -> (clock tw <= clock tw')%Z ->
  m_executor st' = m_executor st -> m_due_time st' = m_due_time st ->
  m_is_oneshot st' = m_is_oneshot st -> (t ∉ L -> m_deadline st' = m_deadline st) ->
  (m_cancelled st = true -> m_cancelled st' = true) -> evolves L tw tw'.
Proof.
  intros Ht Hs Hc ? ? ? ? ?. split; [done|]. intros t' s' Ht'. rewrite Hs.
  destruct (decide (t = t')) as [<-|Hne].
  - rewrite lookup_insert_eq. simplify_eq. eexists. split; [done|]. by split_ands.
  - rewrite lookup_insert_ne by done. exists s'. split; [done|]. by split_ands.
Qed.

Lemma interfere_one_evolves i w : evolves [] (timers w) (timers (interfere_one i w)).
Proof.
  destruct i as [d|due f ex|due ex|t|t f| |ex name]; unfold interfere_one; cbn [timers set_timers set_dead].
  - split; [simpl; lia|]. intros t st H. exists st. by split_ands.
  - unfold make_timer. rewrite make_timer_impl_world. apply evolves_with_timer.
  - unfold make_one_shot_timer. rewrite make_timer_impl_world. apply evolves_with_timer.
  - rewrite cancel_world. destruct (states (timers w) !! t) as [st|] eqn:E; [|apply evolves_refl].
    by eapply evolves_insert; [exact E|..].
  - rewrite set_frequency_world. destruct (states (timers w) !! t) as [st|] eqn:E; [|apply evolves_refl].
    by eapply evolves_insert; [exact E|..].
  - split; [simpl; lia|]. intros t st H. exists st. by split_ands.
  - apply evolves_refl.
Qed.

Lemma interfere_one_positive i w :
  positive_op i = true -> positive_timers (states (timers w)) ->
  positive_timers (states (timers (interfere_one i w))).
Proof.
  intros Hi Hw.
  destruct i as [d|due f ex|due ex|t|t f| |ex name]; unfold interfere_one; cbn [timers set_timers set_dead]; try done.
  - unfold make_timer. rewrite make_timer_impl_world. apply positive_insert; [done|].
    intros _. by apply positive_ms_size.
  - unfold make_one_shot_timer. rewrite make_timer_impl_world. by apply positive_insert.
  - rewrite cancel_world. destruct (states (timers w) !! t) as [st|] eqn:E; [|done].
    apply positive_insert; [done|]. apply (Hw t st E).
  - rewrite set_frequency_world. destruct (states (timers w) !! t) as [st|] eqn:E; [|done].
    apply positive_insert; [done|]. intros _. by apply positive_ms_size.
Qed.

Lemma interfere_one_same i w :
  internal (interfere_one i w) = internal w /\ posted (interfere_one i w) = posted w /\
  script (interfere_one i w) = script w.
Proof. by destruct i. Qed.

Lemma interfere_fold_spec l w :
  let w' := foldl (fun w i => interfere_one i w) w l in
  internal w' = internal w /\ posted w' = posted w /\ script w' = script w /\
  evolves [] (timers w) (timers w') /\
  (Forall (fun i => positive_op i = true) l -> positive_timers (states (timers w)) ->
   positive_timers (states (timers w'))).
Proof.
  revert w. induction l as [|i l IH]; intros w; simpl.
  - split_ands; try done. apply evolves_refl.
  - destruct (IH (interfere_one i w)) as (-> & -> & -> & He & Hp).
    destruct (interfere_one_same i w) as (-> & -> & ->). split_ands; try done.
    + eapply evolves_nil_trans; [apply interfere_one_evolves|exact He].
    + intros Hl Hw. inversion_clear Hl. apply Hp; [done|]. by apply interfere_one_positive.
Qed.

Lemma interfere_spec w :
  internal (interfere w) = internal w /\ posted (interfere w) = posted w /\
  evolves [] (timers w) (timers (interfere w)) /\
  (positive_world w -> positive_world (interfere w)).
Proof.
  unfold interfere. destruct (script w) as [|l ls] eqn:E.
  - split_ands; try done. apply evolves_refl.
  - destruct (interfere_fold_spec l (set_script ls w)) as (-> & -> & Hs & He & Hp).
    split_ands; try done. unfold positive_world. rewrite E, Hs. intros [Hw Hl]. inversion_clear Hl.
    split; [by apply Hp|done].
Qed.

(** ** The invariant of the containers *)
Definition members (w : queue_world) : list timer_id := (m_timers (internal w)).*2.
Definition deadline (w : queue_world) (t : timer_id) : Z := deadline_of (states (timers w)) t.
Definition is_oneshot (w : queue_world) (t : timer_id) : bool :=
  match states (timers w) !! t with Some st => m_is_oneshot st | None => false end.
Definition is_cancelled (w : queue_world) (t : timer_id) : bool :=
  match states (timers w) !! t with Some st => m_cancelled st | None => false end.

Definition by_deadline (h : gmap timer_id timer_state) (x y : node_id * timer_id) : Prop :=
  (deadline_of h x.2 <= deadline_of h y.2)%Z.

Record wf_queue (h : gmap timer_id timer_state) (i : timer_queue_internal) : Prop := {
  wf_sorted : StronglySorted (by_deadline h) (m_timers i);
  wf_nodes : NoDup (m_timers i).*1;
  wf_ids : NoDup (m_timers i).*2;
  wf_map : forall t n, m_iterator_mapper i !! t = Some n <-> (n, t) ∈ m_timers i;
  wf_next : forall n t, (n, t) ∈ m_timers i -> n < next_node i;
  wf_live : forall n t, (n, t) ∈ m_timers i -> is_Some (h !! t)
}.

Definition wf (w : queue_world) : Prop := wf_queue (states (timers w)) (internal w).

Lemma StronglySorted_map_iff {A} (R R' : A -> A -> Prop) l :
  (forall x y, x ∈ l -> y ∈ l -> R x y -> R' x y) -> StronglySorted R l -> StronglySorted R' l.
Proof.
  intros H Hs. induction Hs as [|x l Hs IH Hx]; [constructor|]. constructor.
  - apply IH. intros y z Hy Hz. apply H; by right.
  - rewrite list.Forall_forall in *. intros y Hy. apply H; [by left|by right|by apply Hx].
Qed.

Lemma deadline_evolves L tw tw' t :
  evolves L tw tw' -> is_Some (states tw !! t) -> t ∉ L ->
  deadline_of (states tw') t = deadline_of (states tw) t.
Proof.
  intros [_ Hs] [st Ht] Hn. destruct (Hs t st Ht) as (st' & Ht' & _ & _ & _ & Hd & _).
  unfold deadline_of, get_deadline. rewrite Ht, Ht'. auto.
Qed.

Lemma wf_queue_evolves tw tw' i :
  evolves [] tw tw' -> wf_queue (states tw) i -> wf_queue (states tw') i.
Proof.
  intros He [Hs Hn Hi Hm Hx Hl]. split; try done.
  - eapply StronglySorted_map_iff; [|exact Hs]. intros [n1 t1] [n2 t2] H1 H2. unfold by_deadline. simpl.
    rewrite !(deadline_evolves [] tw tw') by (set_solver || eauto). done.
  - intros n t H. destruct (Hl n t H) as [st Hst]. destruct (ev_states _ _ _ He t st Hst) as (st' & -> & _). done.
Qed.

Lemma wf_queue_evolves_out L tw tw' i :
  evolves L tw tw' -> (forall t, t ∈ L -> t ∉ (m_timers i).*2) ->
  wf_queue (states tw) i -> wf_queue (states tw') i.
Proof.
  intros He HL [Hs Hn Hi Hm Hx Hl]. split; try done.
  - eapply StronglySorted_map_iff; [|exact Hs]. intros [n1 t1] [n2 t2] H1 H2. unfold by_deadline. simpl.
    assert (forall n t, (n, t) ∈ m_timers i -> t ∉ L).
    { intros n t Hin Ht. apply (HL t Ht). apply list_elem_of_fmap. by exists (n, t). }
    rewrite !(deadline_evolves L tw tw') by eauto. done.
  - intros n t H. destruct (Hl n t H) as [st Hst]. destruct (ev_states _ _ _ He t st Hst) as (st' & -> & _). done.
Qed.

(** ** The multiset *)
Lemma insert_sorted_perm h x l : insert_sorted h x l ≡ₚ x :: l.
Proof.
  induction l as [|y l IH]; [done|]. simpl. destruct (_ <? _)%Z; [done|]. rewrite IH. constructor.
Qed.

Lemma insert_sorted_sorted h x l :
  StronglySorted (by_deadline h) l -> StronglySorted (by_deadline h) (insert_sorted h x l).
Proof.
  induction 1 as [|y l Hs IH Hy]; [by repeat constructor|]. simpl.
  destruct (Z.ltb_spec (deadline_of h x.2) (deadline_of h y.2)).
  - constructor; [by constructor|]. constructor; [unfold by_deadline; lia|].
    eapply Forall_impl; [exact Hy|]. unfold by_deadline. intros; lia.
  - constructor; [done|]. rewrite insert_sorted_perm. constructor; [unfold by_deadline; lia|done].
Qed.

Lemma wf_queue_insert h l m x t :
  wf_queue h (make_internal l m x) -> m !! t = None -> is_Some (h !! t) ->
  wf_queue h (make_internal (insert_sorted h (x, t) l) (<[t := x]> m) (S x)).
Proof.
  intros [Hs Hn Hi Hm Hx Hl] Ht Hh; simpl in *. split; simpl.
  - by apply insert_sorted_sorted.
  - rewrite insert_sorted_perm. simpl. apply list.NoDup_cons. split; [|done].
    intros ([n t'] & -> & Hin)%list_elem_of_fmap. specialize (Hx _ _ Hin). simpl in Hx. lia.
  - rewrite insert_sorted_perm. simpl. apply list.NoDup_cons. split; [|done].
    intros ([n t'] & -> & Hin)%list_elem_of_fmap. simpl in Ht. apply Hm in Hin. congruence.
  - intros t' n. rewrite insert_sorted_perm, elem_of_cons. destruct (decide (t = t')) as [<-|Hne].
    + rewrite lookup_insert_eq. split; [intros [= ->]; by left|]. intros [[= ->]|Hin]; [done|].
      apply Hm in Hin. congruence.
    + rewrite lookup_insert_ne by done. rewrite Hm. split; [by right|]. intros [[= -> ->]|]; done.
  - intros n t'. rewrite insert_sorted_perm, elem_of_cons. intros [[= -> ->]|Hin]; [lia|].
    specialize (Hx _ _ Hin). lia.
  - intros n t'. rewrite insert_sorted_perm, elem_of_cons. intros [[= -> ->]|Hin]; [done|eauto].
Qed.

Lemma StronglySorted_filter {A} (R : A -> A -> Prop) (P : A -> Prop) `{!forall x, Decision (P x)} l :
  StronglySorted R l -> StronglySorted R (filter P l).
Proof.
  induction 1 as [|x l Hs IH Hx]; [constructor|]. rewrite filter_cons. case_decide; [|done].
  constructor; [done|]. rewrite list.Forall_forall in *. intros y [_ Hy]%list_elem_of_filter. by apply Hx.
Qed.

Lemma elem_of_erased h i n t n' t' :
  wf_queue h i -> (n, t) ∈ m_timers i ->
  (n', t') ∈ filter (fun p => p.1 <> n) (m_timers i) <-> (n', t') ∈ m_timers i /\ t' <> t.
Proof.
  intros Hwf Hin. rewrite list_elem_of_filter. simpl. split.
  - intros [Hne H]. split; [done|]. intros ->.
    apply (wf_map _ _ Hwf) in Hin, H. congruence.
  - intros [H Hne]. split; [|done]. intros ->. apply Hne.
    destruct Hwf as [_ Hn _ _ _ _]. apply list_elem_of_lookup in Hin as [j Hj].
    apply list_elem_of_lookup in H as [k Hk].
    assert (j = k).
    { eapply (NoDup_lookup _ _ _ n Hn); rewrite list_lookup_fmap; [rewrite Hj|rewrite Hk]; done. }
    subst. congruence.
Qed.

Lemma wf_queue_erase h i n t :
  wf_queue h i -> (n, t) ∈ m_timers i ->
  wf_queue h (make_internal (filter (fun p => p.1 <> n) (m_timers i)) (delete t (m_iterator_mapper i)) (next_node i)).
Proof.
  intros Hwf Hin. pose proof Hwf as [Hs Hn Hi Hm Hx Hl]. split; simpl.
  - by apply StronglySorted_filter.
  - eapply sublist_NoDup; [exact Hn|]. apply fmap_sublist, sublist_filter.
  - eapply sublist_NoDup; [exact Hi|]. apply fmap_sublist, sublist_filter.
  - intros t' n'. rewrite (elem_of_erased h i n t) by done. destruct (decide (t = t')) as [<-|Hne].
    + rewrite lookup_delete_eq. naive_solver.
    + rewrite lookup_delete_ne by done. rewrite Hm. naive_solver.
  - intros n' t' H. apply list_elem_of_filter in H as [_ H]. eauto.
  - intros n' t' H. apply list_elem_of_filter in H as [_ H]. eauto.
Qed.

Lemma filter_all {A} (P : A -> Prop) `{!forall x, Decision (P x)} (l : list A) :
  (forall x, x ∈ l -> P x) -> filter P l = l.
Proof.
  induction l as [|x l IH]; intros Hl; [done|]. rewrite filter_cons_True by (apply Hl; by left).
  f_equal. apply IH. intros y Hy. apply Hl. by right.
Qed.

Lemma filter_agree {A} (P Q : A -> Prop) `{!forall x, Decision (P x), !forall x, Decision (Q x)} (l : list A) :
  (forall x, x ∈ l -> P x <-> Q x) -> filter P l = filter Q l.
Proof.
  induction l as [|x l IH]; intros Hl; [done|]. rewrite !filter_cons, IH by (intros y ?; apply Hl; by right).
  destruct (Hl x) as [H1 H2]; [by left|]. do 2 case_decide; tauto.
Qed.

Lemma erase_first h i l n t :
  wf_queue h i -> m_timers i = (n, t) :: l -> filter (fun p => p.1 <> n) (m_timers i) = l.
Proof.
  intros [_ Hn _ _ _ _] E. rewrite E in *. simpl in Hn. apply list.NoDup_cons in Hn as [Hn _].
  rewrite filter_cons_False by (simpl; tauto). apply filter_all. intros [n' t'] Hin Hp. simpl in Hp. subst.
  apply Hn, list_elem_of_fmap. by exists (n, t').
Qed.

(** ** fire *)
Definition fires (t : timer_id) (st : timer_state) (w : queue_world)
  (r : outcome exn unit * queue_world) : Prop :=
  let w' := r.2 in
  internal w' = internal w /\ evolves [t] (timers w) (timers w') /\
  (positive_world w -> m_is_oneshot st = false ->
   positive_world w' /\ (clock (timers w) < deadline w' t)%Z) /\
  (positive_world w -> positive_world w') /\
  ((r.1 = Ok tt /\ posted w' = posted w ++ [t]) \/
   (exists name, r.1 = Throw (runtime_shutdown_exception name) /\ posted w' = posted w /\
      dead_executors w' !! m_executor st = Some name)).

Lemma read_state_eq t st w :
  states (timers w) !! t = Some st -> on_timers (read_state t) w = (Ok st, w).
Proof. intros H. unfold on_timers, read_state. run_t. rewrite H. by destruct w. Qed.

Lemma interfere_lookup w t st :
  states (timers w) !! t = Some st ->
  exists st', states (timers (interfere w)) !! t = Some st' /\
    m_executor st' = m_executor st /\ m_is_oneshot st' = m_is_oneshot st /\
    m_deadline st' = m_deadline st /\ (m_cancelled st = true -> m_cancelled st' = true).
Proof.
  intros H. destruct (interfere_spec w) as (_ & _ & He & _).
  destruct (ev_states _ _ _ He t st H) as (st' & ? & ? & ? & ? & Hd & ?).
  exists st'. split_ands; try done. apply Hd. set_solver.
Qed.

Lemma positive_world_insert w t st :
  positive_world w -> (m_is_oneshot st = false -> (0 < of_size_t (m_frequency st))%Z) ->
  positive_world (set_timers (set_states (<[t := st]> (states (timers w))) (timers w)) w).
Proof. intros [Hp Hs] Hst. split; [|done]. by apply positive_insert. Qed.

Lemma evolves_fired w t st st' :
  states (timers w) !! t = Some st -> m_executor st' = m_executor st -> m_due_time st' = m_due_time st ->
  m_is_oneshot st' = m_is_oneshot st -> (m_cancelled st = true -> m_cancelled st' = true) ->
  evolves [t] (timers w) (set_states (<[t := st']> (states (timers w))) (timers w)).
Proof.
  intros. eapply evolves_insert; try done. intros []. by left.
Qed.

Lemma fire_spec t st w :
  states (timers w) !! t = Some st -> fires t st w (fire t w).
Proof.
  intros Ht. unfold fire.
  set (w1 := interfere w). destruct (interfere_spec w) as (I1 & P1 & E1 & Q1).
  destruct (interfere_lookup w t st Ht) as (st1 & Ht1 & X1 & O1 & D1 & K1). fold w1 in I1, P1, E1, Q1, Ht1.
  rewrite (bind_Ok (modify interfere) _ w tt w1) by done.
  rewrite (bind_Ok _ _ _ _ _ (read_state_eq t st1 w1 Ht1)). cbv zeta.
  set (w2 := interfere w1). destruct (interfere_spec w1) as (I2 & P2 & E2 & Q2).
  destruct (interfere_lookup w1 t st1 Ht1) as (st2 & Ht2 & X2 & O2 & D2 & K2). fold w2 in I2, P2, E2, Q2, Ht2.
  rewrite (bind_Ok clock_now _ w1 (clock (timers w2)) w2) by done.
  rewrite (bind_Ok _ _ _ _ _ (read_state_eq t st2 w2 Ht2)).
  set (nd := make_deadline (clock (timers w2)) (m_frequency st1)).
  set (w3 := set_timers (set_states (<[t := set_deadline nd st2]> (states (timers w2))) (timers w2)) w2).
  rewrite (bind_Ok _ _ w2 tt w3) by done.
  set (w4 := interfere w3). rewrite (bind_Ok (modify interfere) _ w3 tt w4) by done.
  destruct (interfere_spec w3) as (I4 & P4 & E4 & Q4). fold w4 in I4, P4, E4, Q4.
  assert (Ht3 : states (timers w3) !! t = Some (set_deadline nd st2)) by apply lookup_insert_eq.
  destruct (interfere_lookup w3 t _ Ht3) as (st4 & Ht4 & X4 & O4 & D4 & K4). fold w4 in Ht4.
  assert (E3 : evolves [t] (timers w2) (timers w3)) by (by apply (evolves_fired w2 t st2 (set_deadline nd st2))).
  assert (E : evolves [t] (timers w) (timers w4)).
  { eapply evolves_nil_trans; [exact E1|]. eapply evolves_nil_trans; [exact E2|].
    by apply (evolves_trans [t] [] _ _ _ E3). }
  assert (Q3 : positive_world w -> positive_world w4).
  { intros H. apply Q4, positive_world_insert; [by apply Q2, Q1|]. simpl. intros Hos.
    apply (proj1 (Q2 (Q1 H)) t st2 Ht2 Hos). }
  assert (HD : positive_world w -> m_is_oneshot st = false -> (clock (timers w) < deadline w4 t)%Z).
  { intros H Hos. unfold deadline, deadline_of, get_deadline. rewrite Ht4, D4. simpl. unfold nd, make_deadline.
    pose proof (ev_clock _ _ _ E1). pose proof (ev_clock _ _ _ E2).
    assert (0 < of_size_t (m_frequency st1))%Z by (apply (proj1 (Q1 H) t st1 Ht1); congruence).
    unfold ticks_per_ms. lia. }
  rewrite (bind_Ok get_state _ w4 w4 w4) by done.
  assert (Hex : m_executor st2 = m_executor st) by congruence. rewrite Hex.
  assert (HI : internal w4 = internal w) by (rewrite I4; simpl; congruence).
  assert (HP : posted w4 = posted w) by (rewrite P4; simpl; congruence).
  unfold fires. destruct (dead_executors w4 !! m_executor st) as [name|] eqn:Edead.
  - split_ands; simpl; auto. right. by exists name.
  - split_ands; simpl; auto. left. by rewrite HP.
Qed.

(** ** One turn of the loop *)
Record progress (now : Z) (L : list timer_id) (w w' : queue_world) : Prop := {
  pr_posted : posted w' = posted w ++ L;
  pr_wf : wf w';
  pr_evolves : evolves L (timers w) (timers w');
  pr_due : forall t, t ∈ L -> t ∈ members w /\ (deadline w t <= now)%Z;
  pr_members : forall t, t ∈ members w' -> t ∈ members w /\ (t ∈ L -> is_oneshot w t = false);
  pr_kept : forall t, t ∈ members w ->
    t ∈ members w' \/ is_cancelled w' t = true \/ (t ∈ L /\ is_oneshot w t = true);
  pr_future : forall t, t ∈ members w -> (now < deadline w t)%Z -> t ∈ members w';
  pr_positive : positive_world w ->
    positive_world w' /\ NoDup L /\
    forall t, t ∈ L -> is_oneshot w t = false -> t ∈ members w' /\ (now < deadline w' t)%Z
}.

Lemma members_live w t : wf w -> t ∈ members w -> is_Some (states (timers w) !! t).
Proof. intros Hwf ([n t'] & -> & H)%list_elem_of_fmap. by eapply wf_live. Qed.

Lemma is_oneshot_evolves L w w' t :
  evolves L (timers w) (timers w') -> is_Some (states (timers w) !! t) -> is_oneshot w' t = is_oneshot w t.
Proof.
  intros [_ Hs] [st Ht]. destruct (Hs t st Ht) as (st' & Ht' & _ & _ & Ho & _).
  unfold is_oneshot. by rewrite Ht, Ht'.
Qed.

Lemma is_cancelled_evolves L w w' t :
  evolves L (timers w) (timers w') -> is_cancelled w t = true -> is_cancelled w' t = true.
Proof.
  intros [_ Hs]. unfold is_cancelled. destruct (states (timers w) !! t) as [st|] eqn:E; [|done].
  destruct (Hs t st E) as (st' & -> & _ & _ & _ & _ & H). auto.
Qed.

Lemma progress_refl now w : wf w -> progress now [] w w.
Proof.
  intros Hwf. split; try done.
  - by rewrite app_nil_r.
  - apply evolves_refl.
  - intros t H. by apply not_elem_of_nil in H.
  - intros t H. split; [done|]. intros H1. by apply not_elem_of_nil in H1.
  - intros t H. by left.
  - intros H. split_ands; [done|constructor|]. intros t Ht. by apply not_elem_of_nil in Ht.
Qed.

Lemma progress_trans now L1 L2 w w1 w2 :
  wf w -> progress now L1 w w1 -> progress now L2 w1 w2 -> progress now (L1 ++ L2) w w2.
Proof.
  intros Hwf [P1 F1 E1 D1 M1 K1 N1 Z1] [P2 F2 E2 D2 M2 K2 N2 Z2].
  assert (Hd : forall t, t ∈ members w -> t ∉ L1 -> deadline w1 t = deadline w t).
  { intros t Ht Hn. by apply (deadline_evolves _ _ _ _ E1); [apply members_live|]. }
  assert (Ho : forall t, t ∈ members w -> is_oneshot w1 t = is_oneshot w t).
  { intros t Ht. apply (is_oneshot_evolves _ _ _ _ E1). by apply members_live. }
  split; try done.
  - by rewrite P2, P1, app_assoc.
  - by eapply evolves_trans.
  - intros t [H|H]%elem_of_app; [by apply D1|]. destruct (D2 t H) as [Hm1 Hdl].
    destruct (M1 t Hm1) as [Hm _]. split; [done|].
    destruct (decide (t ∈ L1)) as [Hin|Hn]; [by apply D1|]. by rewrite <-Hd.
  - intros t H. destruct (M2 t H) as [Hm1 Ho1]. destruct (M1 t Hm1) as [Hm Ho2]. split; [done|].
    intros [?|?]%elem_of_app; [auto|]. rewrite <-Ho by done. auto.
  - intros t H. destruct (K1 t H) as [Hm1|[Hc|[HL Hos]]].
    + destruct (K2 t Hm1) as [?|[?|[? Hos]]]; [by left|by right; left|].
      right; right. rewrite elem_of_app, <-Ho by done. auto.
    + right; left. by eapply is_cancelled_evolves.
    + right; right. rewrite elem_of_app. auto.
  - intros t H Hlt. assert (t ∉ L1) by (intros HL; destruct (D1 t HL); lia).
    apply N2; [by apply N1|]. by rewrite Hd.
  - intros Hp. destruct (Z1 Hp) as (Hp1 & Hnd1 & Hf1). destruct (Z2 Hp1) as (Hp2 & Hnd2 & Hf2).
    split_ands; [done| |].
    + apply NoDup_app. split_ands; [done| |done]. intros t H1 H2. destruct (D2 t H2) as [Hm1 Hdl].
      destruct (M1 t Hm1) as [_ Hos]. destruct (Hf1 t H1 (Hos H1)). lia.
    + intros t [H|H]%elem_of_app Hos; [|apply Hf2; [done|]; rewrite Ho; [done|]; by apply M1, D2].
      destruct (decide (t ∈ L2)) as [H2|H2].
      { apply Hf2; [done|]. rewrite Ho; [done|]. by apply D1. }
      destruct (Hf1 t H Hos) as [Hin1 Hlt1]. split; [by apply N2|].
      unfold deadline. rewrite (deadline_evolves _ _ _ _ E2); [done| |done]. by apply members_live.
Qed.

(** The timers whose deadline has passed. *)
Definition due (now : Z) (w : queue_world) : nat :=
  length (filter (fun t => deadline w t <= now)%Z (members w)).

Section first_timer.
Context (now : Z) (w : queue_world) (n : node_id) (t : timer_id) (rest : list (node_id * timer_id)).
Context (Hwf : wf w) (Hfirst : m_timers (internal w) = (n, t) :: rest).
Context (Hdue : (deadline w t <= now)%Z).

Lemma first_member : t ∈ members w.
Proof. unfold members. rewrite Hfirst. by left. Qed.

Lemma members_first t' : t' ∈ members w <-> t' = t \/ t' ∈ rest.*2.
Proof. unfold members. rewrite Hfirst. simpl. apply elem_of_cons. Qed.

Lemma first_not_rest : t ∉ rest.*2.
Proof. pose proof (wf_ids _ _ Hwf) as H. rewrite Hfirst in H. by apply list.NoDup_cons in H as [? _]. Qed.

Lemma popped_wf tw' :
  evolves [t] (timers w) tw' ->
  wf_queue (states tw') (make_internal rest (delete t (m_iterator_mapper (internal w))) (next_node (internal w))).
Proof.
  intros He. eapply wf_queue_evolves_out; [exact He| |].
  - intros t' ->%list_elem_of_singleton. apply first_not_rest.
  - assert (Hin : (n, t) ∈ m_timers (internal w)) by (rewrite Hfirst; by left).
    pose proof (wf_queue_erase _ _ n t Hwf Hin) as H. 
    by rewrite (erase_first _ _ rest n t Hwf Hfirst) in H.
Qed.

Lemma rest_deadline w' t' :
  evolves [t] (timers w) (timers w') -> t' ∈ rest.*2 -> deadline w' t' = deadline w t'.
Proof.
  intros He Hin. apply (deadline_evolves _ _ _ _ He).
  - apply members_live; [done|]. apply members_first. by right.
  - intros ->%list_elem_of_singleton. by apply first_not_rest.
Qed.

Lemma due_rest w' :
  evolves [t] (timers w) (timers w') ->
  filter (fun t => deadline w' t <= now)%Z rest.*2 = filter (fun t => deadline w t <= now)%Z rest.*2.
Proof. intros He. apply filter_agree. intros t' Ht'. by rewrite (rest_deadline w'). Qed.

(** The first timer leaves the queue, fired or cancelled. *)
Lemma progress_drop (fired : bool) w' :
  evolves [t] (timers w) (timers w') -> (fired = false -> evolves [] (timers w) (timers w')) ->
  posted w' = posted w ++ (if fired then [t] else []) ->
  internal w' = make_internal rest (delete t (m_iterator_mapper (internal w))) (next_node (internal w)) ->
  (if fired then is_oneshot w t = true else is_cancelled w' t = true) ->
  (positive_world w -> positive_world w') ->
  progress now (if fired then [t] else []) w w' /\ due now w' < due now w.
Proof.
  intros He He' HP HI Hc Hpos. split; [split; try done|].
  - unfold wf. rewrite HI. by apply popped_wf.
  - destruct fired; auto.
  - intros t'. destruct fired; [|set_solver]. intros ->%list_elem_of_singleton. split; [apply first_member|done].
  - intros t' Hin. unfold members in Hin. rewrite HI in Hin. simpl in Hin. rewrite members_first.
    split; [by right|]. destruct fired; [|set_solver]. intros ->%list_elem_of_singleton. by apply first_not_rest in Hin.
  - intros t' [->|H]%members_first.
    + destruct fired; [|by right; left]. right; right. split; [by left|done].
    + left. unfold members. by rewrite HI.
  - intros t' [->|H]%members_first Hlt; [lia|]. unfold members. by rewrite HI.
  - intros H. split; [auto|]. destruct fired; (split; [apply NoDup_singleton || constructor|]).
    + intros t' ->%list_elem_of_singleton. congruence.
    + intros t' Hin. by apply not_elem_of_nil in Hin.
  - unfold due, members. rewrite HI, Hfirst, fmap_cons. cbn [m_timers].
    rewrite filter_cons_True by done. rewrite (due_rest w') by done. cbn [length]. lia.
Qed.

(** The first timer is fired and put back. *)
Lemma progress_again w' x :
  evolves [t] (timers w) (timers w') -> posted w' = posted w ++ [t] ->
  x = next_node (internal w) ->
  internal w' = make_internal (insert_sorted (states (timers w')) (x, t) rest)
                  (<[t := x]> (m_iterator_mapper (internal w))) (S x) ->
  is_oneshot w t = false ->
  (positive_world w -> positive_world w' /\ (now < deadline w' t)%Z) ->
  progress now [t] w w' /\ (positive_world w -> due now w' < due now w).
Proof.
  intros He HP -> HI Ho Hpos.
  assert (Hm : members w' ≡ₚ t :: rest.*2).
  { unfold members. rewrite HI. simpl. by rewrite insert_sorted_perm. }
  split; [split; try done|].
  - unfold wf. rewrite HI, <-insert_delete_eq. apply wf_queue_insert; [by apply popped_wf|apply lookup_delete_eq|].
    destruct (members_live w t Hwf first_member) as [st Hst].
    destruct (ev_states _ _ _ He t st Hst) as (st' & -> & _). done.
  - intros t' ->%list_elem_of_singleton. split; [apply first_member|done].
  - intros t'. rewrite Hm, elem_of_cons, members_first. intros H. split; [done|]. by intros ->%list_elem_of_singleton.
  - intros t' H%members_first. left. by rewrite Hm, elem_of_cons.
  - intros t' H%members_first _. by rewrite Hm, elem_of_cons.
  - intros H. destruct (Hpos H) as [? Hd]. split_ands; [done|apply NoDup_singleton|].
    intros t' ->%list_elem_of_singleton _. split; [|done]. rewrite Hm. by left.
  - intros H. destruct (Hpos H) as [_ Hd]. unfold due. rewrite Hm. unfold members. rewrite Hfirst, fmap_cons.
    rewrite filter_cons_False by lia. rewrite filter_cons_True by done. cbn [length].
    rewrite (due_rest w') by done. lia.
Qed.
End first_timer.

(** [fire] failed: its executor was shut down. *)
Definition crashed (now : Z) (w w' : queue_world) (e : exn) : Prop :=
  exists t st name, e = runtime_shutdown_exception name /\ t ∈ members w /\ (deadline w t <= now)%Z /\
    states (timers w) !! t = Some st /\ m_cancelled st = false /\
    dead_executors w' !! m_executor st = Some name.

Lemma set_erase_first w n t rest :
  m_timers (internal w) = (n, t) :: rest -> wf w ->
  set_erase n w = (Ok tt, set_internal (make_internal rest (m_iterator_mapper (internal w)) (next_node (internal w))) w).
Proof.
  intros Hf Hwf. unfold set_erase. rewrite (bind_Ok get_state _ w w w) by done.
  rewrite bool_decide_eq_true_2 by (rewrite Hf; by left).
  by rewrite (erase_first _ _ rest n t Hwf Hf).
Qed.

Lemma expired_all now w n t rest :
  wf w -> m_timers (internal w) = (n, t) :: rest -> (now < deadline w t)%Z ->
  forall t', t' ∈ members w -> (now < deadline w t')%Z.
Proof.
  intros Hwf Hf Hlt t' ([n' t''] & -> & Hin)%list_elem_of_fmap. rewrite Hf in Hin.
  pose proof (wf_sorted _ _ Hwf) as Hs. rewrite Hf in Hs. inversion_clear Hs as [|? ? _ Hall].
  apply elem_of_cons in Hin as [[= -> ->]|Hin]; [done|].
  rewrite list.Forall_forall in Hall. specialize (Hall _ Hin). unfold by_deadline, deadline in *. simpl in *. lia.
Qed.

Definition turn_post (now : Z) (w : queue_world) (r : outcome exn bool * queue_world) : Prop :=
  match r with
  | (Ok false, w') => w' = w /\ forall t, t ∈ members w -> (now < deadline w t)%Z
  | (Ok true, w') => exists L, progress now L w w' /\ (positive_world w -> due now w' < due now w)
  | (Throw e, w') => crashed now w w' e
  | (Abort, _) => False
  end.

Lemma process_first_spec now w :
  wf w -> (now <= clock (timers w))%Z -> turn_post now w (process_first now w).
Proof.
  intros Hwf Hclk. unfold process_first. rewrite (bind_Ok get_state _ w w w) by done.
  destruct (m_timers (internal w)) as [|[n t] rest] eqn:Hf.
  { split; [done|]. unfold members. rewrite Hf. intros t H. by apply not_elem_of_nil in H. }
  assert (Hm : t ∈ members w) by (unfold members; rewrite Hf; by left).
  destruct (members_live w t Hwf Hm) as [st Hst].
  assert (Hdl : m_deadline st = deadline w t) by (unfold deadline, deadline_of; by rewrite Hst).
  rewrite (bind_Ok _ _ _ _ _ (read_state_eq t st w Hst)). unfold expired. rewrite Hdl.
  destruct (Z.leb_spec (deadline w t) now) as [Hle|Hlt]; cbn [negb].
  2: { split; [done|]. by apply (expired_all now w n t rest). }
  rewrite (bind_Ok _ _ _ _ _ (set_erase_first w n t rest Hf Hwf)).
  set (w1 := set_internal _ w). set (w2 := interfere w1).
  rewrite (bind_Ok (modify interfere) _ w1 tt w2) by done.
  destruct (interfere_spec w1) as (I2 & P2 & E2 & Q2). fold w2 in I2, P2, E2, Q2.
  destruct (interfere_lookup w1 t st Hst) as (st2 & Hst2 & X2 & O2 & D2 & K2). fold w2 in Hst2.
  rewrite (bind_Ok _ _ _ _ _ (read_state_eq t st2 w2 Hst2)).
  assert (Hos : is_oneshot w t = m_is_oneshot st) by (unfold is_oneshot; by rewrite Hst).
  change (timers w1) with (timers w) in E2.
  destruct (m_cancelled st2) eqn:Hcan; cbn [negb].
  - rewrite orb_true_r. rewrite (bind_Ok _ _ w2 tt w2) by done.
    rewrite (bind_Ok (map_modify _) _ w2 tt _ eq_refl). exists [].
    set (w3 := set_internal _ w2).
    destruct (progress_drop now w n t rest Hwf Hf Hle false w3) as [Hp Hd]; try done.
    + by apply (evolves_nil_trans [t] _ _ _ E2), evolves_refl.
    + simpl. by rewrite P2, app_nil_r.
    + simpl. by rewrite I2.
    + unfold is_cancelled. simpl. by rewrite Hst2.
  - pose proof (fire_spec t st2 w2 Hst2) as (I3 & E3 & Q3 & Q3' & HF).
    destruct (fire t w2) as [r w3] eqn:Efire. simpl in *.
    pose proof (evolves_nil_trans _ _ _ _ E2 E3) as E.
    destruct HF as [[-> HP]|(name & -> & HP & Hdead)].
    2: { unfold mbind at 1, M_bind at 1. rewrite Efire. exists t, st, name. rewrite <-X2.
         split_ands; try done. destruct (m_cancelled st) eqn:Ec; [|done]. by specialize (K2 eq_refl). }
    rewrite (bind_Ok _ _ _ _ _ Efire). rewrite orb_false_r.
    destruct (m_is_oneshot st) eqn:Eos.
    + rewrite (bind_Ok (map_modify _) _ w3 tt _ eq_refl). exists [t]. set (w4 := set_internal _ w3).
      destruct (progress_drop now w n t rest Hwf Hf Hle true w4) as [Hp Hd]; try done.
      * simpl. by rewrite HP, P2.
      * simpl. by rewrite I3, I2.
      * intros H. by apply Q3', Q2.
    + assert (Hmap : m_iterator_mapper (internal w3) !! t = Some n).
      { rewrite I3, I2. simpl. apply (wf_map _ _ Hwf). rewrite Hf. by left. }
      rewrite (bind_Ok (set_insert t) _ w3 (next_node (internal w3)) _ eq_refl).
      set (w4 := set_internal _ w3).
      rewrite (bind_Ok (map_find t) _ w4 (Some n) w4) by (unfold map_find, gets; simpl; by rewrite Hmap).
      rewrite (bind_Ok (massert _) _ w4 tt w4) by done.
      rewrite (bind_Ok (map_modify _) _ w4 tt _ eq_refl). exists [t]. set (w5 := set_internal _ w4).
      apply (progress_again now w n t rest Hwf Hf Hle w5 (next_node (internal w))); try done.
      * simpl. by rewrite HP, P2.
      * simpl. by rewrite I3, I2.
      * intros H. destruct Q3 as [Hp Hlt]; [by apply Q2|congruence|]. split; [done|].
        pose proof (ev_clock _ _ _ E2). change (deadline w5 t) with (deadline w3 t). lia.
Qed.

(** ** The loop *)
Definition loop_post (now : Z) (w : queue_world) (r : outcome exn bool * queue_world) : Prop :=
  match r with
  | (Ok ended, w') => exists L, progress now L w w' /\
      (ended = true -> forall t, t ∈ members w' -> (now < deadline w' t)%Z)
  | (Throw e, w') => exists L w1, progress now L w w1 /\ crashed now w1 w' e
  | (Abort, _) => False
  end.

Lemma process_loop_spec fuel now w :
  wf w -> (now <= clock (timers w))%Z -> loop_post now w (process_loop fuel now w).
Proof.
  revert w. induction fuel as [|fuel IH]; intros w Hwf Hclk.
  { exists []. split; [by apply progress_refl|done]. }
  simpl. pose proof (process_first_spec now w Hwf Hclk) as H. unfold mbind, M_bind.
  destruct (process_first now w) as [[[|]|e|] w1] eqn:E; simpl in H.
  - destruct H as (L & Hp & _). pose proof (pr_evolves _ _ _ _ Hp) as He. pose proof (ev_clock _ _ _ He).
    specialize (IH w1 (pr_wf _ _ _ _ Hp) ltac:(lia)). unfold loop_post in *.
    destruct (process_loop fuel now w1) as [[b|e|] w2]; [| |done].
    + destruct IH as (L2 & Hp2 & Hend). exists (L ++ L2). split; [by eapply progress_trans|done].
    + destruct IH as (L2 & w3 & Hp2 & Hc). exists (L ++ L2), w3. split; [by eapply progress_trans|done].
  - destruct H as [-> Hall]. exists []. split; [by apply progress_refl|done].
  - exists [], w. split; [by apply progress_refl|done].
  - done.
Qed.

Lemma process_loop_ends fuel now w :
  wf w -> (now <= clock (timers w))%Z -> positive_world w -> due now w < fuel ->
  match process_loop fuel now w with (Ok ended, _) => ended = true | _ => True end.
Proof.
  revert w. induction fuel as [|fuel IH]; intros w Hwf Hclk Hpos Hfuel; [lia|].
  simpl. pose proof (process_first_spec now w Hwf Hclk) as H. unfold mbind, M_bind.
  destruct (process_first now w) as [[[|]|e|] w1] eqn:E; simpl in H; try done.
  destruct H as (L & Hp & Hd). specialize (Hd Hpos). pose proof (ev_clock _ _ _ (pr_evolves _ _ _ _ Hp)).
  apply IH; [by eapply pr_wf|lia|by apply (pr_positive _ _ _ _ Hp)|lia].
Qed.

(** ** Requests

    What a queue of requests must be: each timer is added once, before it is
    known to the containers; a removed timer exists and was cancelled. *)
Definition added (q : list (timer_id * timer_request)) : list timer_id :=
  (filter (fun r => r.2 = add) q).*1.

Record requests_ok (w : queue_world) (q : list (timer_id * timer_request)) : Prop := {
  rq_live : forall t r, (t, r) ∈ q -> is_Some (states (timers w) !! t);
  rq_once : NoDup (added q);
  rq_new : forall t, t ∈ added q -> m_iterator_mapper (internal w) !! t = None;
  rq_cancelled : forall t, (t, remove) ∈ q -> is_cancelled w t = true
}.

(** The members after a batch of requests. *)
Fixpoint after_requests (q : list (timer_id * timer_request)) (ms : gset timer_id) : gset timer_id :=
  match q with
  | [] => ms
  | (t, add) :: q => after_requests q ({[t]} ∪ ms)
  | (t, remove) :: q => after_requests q (ms ∖ {[t]})
  end.

Definition member_set (w : queue_world) : gset timer_id := list_to_set (members w).

Lemma process_request_add t w :
  wf w -> m_iterator_mapper (internal w) !! t = None -> is_Some (states (timers w) !! t) ->
  exists i', add_timer_internal t w = (Ok tt, set_internal i' w) /\ wf (set_internal i' w) /\
    member_set (set_internal i' w) = {[t]} ∪ member_set w /\
    m_iterator_mapper i' = <[t := next_node (internal w)]> (m_iterator_mapper (internal w)).
Proof.
  intros Hwf Hnone Hlive. unfold add_timer_internal.
  rewrite (bind_Ok (map_find t) _ w None w) by (unfold map_find, gets; by rewrite Hnone).
  rewrite (bind_Ok (massert _) _ w tt w) by done.
  rewrite (bind_Ok (set_insert t) _ w (next_node (internal w)) _ eq_refl). eexists. split_ands; [done| | |done].
  - apply wf_queue_insert; [|done|done]. unfold wf in Hwf. by destruct (internal w).
  - apply set_eq. intros x. unfold member_set, members. simpl.
    rewrite elem_of_union, !elem_of_list_to_set, insert_sorted_perm. simpl. rewrite elem_of_cons.
    by rewrite elem_of_singleton.
Qed.

Lemma process_request_remove t w :
  wf w -> is_Some (states (timers w) !! t) -> is_cancelled w t = true ->
  exists i', remove_timer_internal t w = (Ok tt, set_internal i' w) /\ wf (set_internal i' w) /\
    member_set (set_internal i' w) = member_set w ∖ {[t]} /\
    m_iterator_mapper i' = delete t (m_iterator_mapper (internal w)).
Proof.
  intros Hwf [st Hst] Hc. unfold remove_timer_internal.
  destruct (m_iterator_mapper (internal w) !! t) as [n|] eqn:E.
  - rewrite (bind_Ok (map_find t) _ w (Some n) w) by (unfold map_find, gets; by rewrite E).
    apply (wf_map _ _ Hwf) in E as Hin.
    rewrite (bind_Ok (set_erase n) _ w tt (set_internal (make_internal (filter (fun p => p.1 <> n)
      (m_timers (internal w))) (m_iterator_mapper (internal w)) (next_node (internal w))) w)).
    2: { unfold set_erase. rewrite (bind_Ok get_state _ w w w) by done.
         rewrite bool_decide_eq_true_2; [done|]. apply list_elem_of_fmap. by exists (n, t). }
    exists (make_internal (filter (fun p => p.1 <> n) (m_timers (internal w)))
      (delete t (m_iterator_mapper (internal w))) (next_node (internal w))).
    split_ands; [done|by apply wf_queue_erase| |done].
    apply set_eq. intros x. unfold member_set, members. simpl.
    rewrite elem_of_difference, !elem_of_list_to_set, elem_of_singleton, !list_elem_of_fmap.
    split.
    + intros ([n' t'] & -> & H). apply (elem_of_erased (states (timers w)) _ n t) in H as [H ?]; [|done..].
      split; [by exists (n', t')|done].
    + intros [([n' t'] & -> & H) Hne]. exists (n', t'). split; [done|].
      by apply (elem_of_erased (states (timers w)) _ n t).
  - rewrite (bind_Ok (map_find t) _ w None w) by (unfold map_find, gets; by rewrite E).
    rewrite (bind_Ok _ _ _ _ _ (read_state_eq t st w Hst)).
    exists (internal w). unfold is_cancelled in Hc. rewrite Hst in Hc. rewrite Hc, orb_true_r.
    replace (set_internal (internal w) w) with w by (by destruct w). split_ands; [done|done| |].
    + apply set_eq. intros x. rewrite elem_of_difference, elem_of_singleton. split; [|tauto].
      intros Hx. split; [done|]. intros ->. unfold member_set, members in Hx.
      rewrite elem_of_list_to_set, list_elem_of_fmap in Hx. destruct Hx as ([n t'] & -> & Hin).
      apply (wf_map _ _ Hwf) in Hin. simpl in *. congruence.
    + symmetry. by apply delete_id.
Qed.

Lemma process_requests_spec q w :
  wf w -> requests_ok w q ->
  exists i', process_request_queue q w = (Ok tt, set_internal i' w) /\ wf (set_internal i' w) /\
    member_set (set_internal i' w) = after_requests q (member_set w).
Proof.
  revert w. unfold process_request_queue. induction q as [|[t r] q IH]; intros w Hwf [Hl Ho Hn Hc].
  - exists (internal w). by destruct w.
  - simpl.
    assert (exists i', process_request (t, r) w = (Ok tt, set_internal i' w) /\ wf (set_internal i' w) /\
      after_requests q (member_set (set_internal i' w)) = after_requests ((t, r) :: q) (member_set w) /\
      forall t', t' ∈ added q -> m_iterator_mapper i' !! t' = None) as (i1 & E1 & Hwf1 & Hm1 & Hn1).
    { assert (Hlive : is_Some (states (timers w) !! t)) by (apply (Hl t r); by left).
      unfold process_request. destruct r; simpl.
      - unfold added in *. rewrite filter_cons_True in Ho, Hn by done. simpl in *.
        apply list.NoDup_cons in Ho as [Hnot Ho].
        destruct (process_request_add t w) as (i1 & E1 & ? & Hm & Hmap); [done|apply Hn; by left|done|].
        exists i1. split_ands; [done|done|by rewrite Hm|]. intros t' Ht'. rewrite Hmap.
        rewrite lookup_insert_ne by (by intros ->). apply Hn. by right.
      - destruct (process_request_remove t w) as (i1 & E1 & ? & Hm & Hmap); [done|done|apply Hc; by left|].
        exists i1. split_ands; [done|done|by rewrite Hm|]. intros t' Ht'. rewrite Hmap.
        destruct (decide (t = t')) as [<-|]; [apply lookup_delete_eq|]. rewrite lookup_delete_ne by done.
        apply Hn. unfold added. by rewrite filter_cons_False by done. }
    rewrite (bind_Ok _ _ _ _ _ E1).
    destruct (IH (set_internal i1 w) Hwf1) as (i2 & E2 & Hwf2 & Hm2).
    + split; simpl.
      * intros t' r' H. apply (Hl t' r'). by right.
      * unfold added in *. rewrite filter_cons in Ho. case_decide; [|done].
        rewrite fmap_cons in Ho. by apply list.NoDup_cons in Ho as [_ ?].
      * done.
      * intros t' H. apply (Hc t'). by right.
    + exists i2. split_ands; [done|done|]. etrans; [exact Hm2|exact Hm1].
Qed.
