(* ===== verification/TimerQueueTheorems.v ===== *)
(** * What process_timers guarantees *)

From Stdlib Require Import ZArith Sorted.
From stdpp Require Import prelude gmap list sorting strings.
From S2P Require Import Prelude Errors Timer TimerQueue TimerQueueProps.
#[local] Open Scope list_scope.

(** What the worker does in one batch, in terms of the timers the queue holds
    ([ms]: before, with the requests applied), the time [now] it reads, and the
    timers [L] it fires. *)
Record batch_ok (ms : gset timer_id) (now : Z) (L : list timer_id) (next : Z) (w w' : queue_world) : Prop := {
  b_now : (clock (timers w) <= now <= clock (timers w'))%Z;
  b_posted : posted w' = posted w ++ L;
  b_once : NoDup L;
  b_only_due : forall t, t ∈ L -> t ∈ ms /\ (deadline w t <= now)%Z;
  b_all_due : forall t, t ∈ ms -> (deadline w t <= now)%Z -> t ∈ L \/ is_cancelled w' t = true;
  b_members : forall t, t ∈ member_set w' <->
    t ∈ ms /\ ((now < deadline w t)%Z \/ (t ∈ L /\ is_oneshot w t = false));
  b_next : (now < next)%Z /\ (forall t, t ∈ member_set w' -> (next <= deadline w' t)%Z) /\
    ((member_set w' = ∅ /\ next = now + hours_24)%Z \/ exists t, t ∈ member_set w' /\ next = deadline w' t)
}.

Lemma elem_of_member_set w t : t ∈ member_set w <-> t ∈ members w.
Proof. apply elem_of_list_to_set. Qed.

Lemma wf_queue_empty h n : wf_queue h (make_internal [] ∅ n).
Proof.
  split; simpl; [constructor|apply NoDup_nil_2|apply NoDup_nil_2| | |].
  - intros t m. rewrite lookup_empty. split; [done|]. intros H. by apply not_elem_of_nil in H.
  - intros m t H. by apply not_elem_of_nil in H.
  - intros m t H. by apply not_elem_of_nil in H.
Qed.

(** The worker reads the next deadline from the first element. *)
Lemma next_deadline_spec now w :
  wf w -> (forall t, t ∈ members w -> (now < deadline w t)%Z) ->
  exists next w', (w0 ← get_state;
     match m_timers (internal w0) with
     | [] => reset_containers_memory;; mret (Some (now + hours_24)%Z)
     | (_, t) :: _ => st ← on_timers (read_state t); mret (Some (get_deadline st))
     end) w = (Ok (Some next), w') /\ wf w' /\ timers w' = timers w /\ posted w' = posted w /\ members w' = members w /\ script w' = script w /\
    (now < next)%Z /\ (forall t, t ∈ members w -> (next <= deadline w t)%Z) /\
    ((members w = [] /\ next = now + hours_24)%Z \/ exists t, t ∈ members w /\ next = deadline w t).
Proof.
  intros Hwf Hall. rewrite (bind_Ok get_state _ w w w) by done.
  destruct (m_timers (internal w)) as [|[n t] l] eqn:E.
  - assert (Hm : members w = []) by (unfold members; by rewrite E).
    assert (Hmap : m_iterator_mapper (internal w) = ∅).
    { apply map_empty. intros t. destruct (_ !! t) as [n|] eqn:Et; [|done].
      apply (wf_map _ _ Hwf) in Et. rewrite E in Et. by apply not_elem_of_nil in Et. }
    assert (He : internal_empty w = (Ok true, w)).
    { unfold internal_empty. rewrite (bind_Ok (gets internal) _ w (internal w) w) by done.
      rewrite Hmap, E. rewrite (bind_Ok (massert _) _ w tt w) by done. done. }
    assert (Hr : reset_containers_memory w = (Ok tt, set_internal (make_internal [] ∅ (next_node (internal w))) w)).
    { unfold reset_containers_memory. by rewrite (bind_Ok _ _ _ _ _ He). }
    rewrite (bind_Ok _ _ _ _ _ Hr).
    exists (now + hours_24)%Z. eexists. split_ands; [reflexivity|..]; try done.
    + apply wf_queue_empty.
    + unfold hours_24, ticks_per_ms. lia.
    + rewrite Hm. by intros t ?%not_elem_of_nil.
    + by left.
  - assert (Hm : t ∈ members w) by (unfold members; rewrite E; by left).
    destruct (members_live w t Hwf Hm) as [st Hst].
    rewrite (bind_Ok _ _ _ _ _ (read_state_eq t st w Hst)).
    assert (Hd : get_deadline st = deadline w t) by (unfold deadline, deadline_of; by rewrite Hst).
    exists (get_deadline st), w. rewrite Hd. split_ands; try done; [by apply Hall| |].
    + intros t' Hin. pose proof (wf_sorted _ _ Hwf) as Hs. rewrite E in Hs. inversion_clear Hs as [|? ? _ Hf].
      unfold members in Hin. rewrite E in Hin. simpl in Hin. apply elem_of_cons in Hin as [->|Hin]; [lia|].
      apply list_elem_of_fmap in Hin as ([n' t''] & -> & Hin). rewrite list.Forall_forall in Hf. apply (Hf _ Hin).
    + right. by exists t.
Qed.

(** The batch up to the loop: requests, then the clock. *)
Lemma requests_then_clock queue w :
  wf w -> requests_ok w queue ->
  exists w1, (process_request_queue queue;; clock_now) w = (Ok (clock (timers w1)), w1) /\
    wf w1 /\ evolves [] (timers w) (timers w1) /\ posted w1 = posted w /\
    member_set w1 = after_requests queue (member_set w) /\ (positive_world w -> positive_world w1).
Proof.
  intros Hwf Hq. destruct (process_requests_spec queue w Hwf Hq) as (i' & E & Hwf' & Hm).
  rewrite (bind_Ok _ _ _ _ _ E). set (w0 := set_internal i' w) in *.
  destruct (interfere_spec w0) as (HI & HP & He & Hpos). exists (interfere w0).
  split_ands; [done| |done|done| |by intros; apply Hpos].
  - unfold wf. rewrite HI. by eapply wf_queue_evolves.
  - unfold member_set, members. rewrite HI. exact Hm.
Qed.

Lemma length_member_set w : wf w -> size (member_set w) = length (members w).
Proof. intros Hwf. apply size_list_to_set, (wf_ids _ _ Hwf). Qed.

Lemma due_size now w : wf w -> due now w <= size (member_set w).
Proof. intros Hwf. rewrite length_member_set by done. apply length_filter. Qed.

(** From the loop to the batch. *)
Lemma batch_of_progress w w1 w2 w3 L next ms :
  wf w1 -> evolves [] (timers w) (timers w1) -> (forall t, t ∈ ms -> is_Some (states (timers w) !! t)) ->
  posted w1 = posted w -> member_set w1 = ms -> positive_world w1 ->
  progress (clock (timers w1)) L w1 w2 ->
  (forall t, t ∈ members w2 -> (clock (timers w1) < deadline w2 t)%Z) ->
  timers w3 = timers w2 -> posted w3 = posted w2 -> members w3 = members w2 ->
  (clock (timers w1) < next)%Z -> (forall t, t ∈ members w2 -> (next <= deadline w2 t)%Z) ->
  ((members w2 = [] /\ next = clock (timers w1) + hours_24)%Z \/ exists t, t ∈ members w2 /\ next = deadline w2 t) ->
  batch_ok ms (clock (timers w1)) L next w w3.
Proof.
  intros Hwf He Hlive HP Hms Hpos Hpr Hend HT HP3 HM Hlt Hle Hor.
  assert (Hd : forall t, t ∈ ms -> deadline w1 t = deadline w t).
  { intros t Ht. apply (deadline_evolves _ _ _ _ He); [by apply Hlive|apply not_elem_of_nil]. }
  assert (Ho : forall t, t ∈ ms -> is_oneshot w1 t = is_oneshot w t).
  { intros t Ht. apply (is_oneshot_evolves _ _ _ _ He). by apply Hlive. }
  assert (Hm1 : forall t, t ∈ members w1 <-> t ∈ ms) by (intros t; by rewrite <-Hms, elem_of_member_set).
  assert (Hm3 : forall t, t ∈ member_set w3 <-> t ∈ members w2) by (intros t; by rewrite elem_of_member_set, HM).
  destruct Hpr as [Hp Hwf2 He2 Hdue Hsub Hkept Hfut Hz]. destruct (Hz Hpos) as (_ & Hnd & Hagain).
  assert (Hd2 : forall t, t ∈ ms -> t ∉ L -> deadline w2 t = deadline w t).
  { intros t Ht Hn. rewrite <-Hd by done. apply (deadline_evolves _ _ _ _ He2); [|done].
    apply members_live; [done|]. by apply Hm1. }
  split.
  - rewrite HT. pose proof (ev_clock _ _ _ He). pose proof (ev_clock _ _ _ He2). lia.
  - by rewrite HP3, Hp, HP.
  - done.
  - intros t Ht. destruct (Hdue t Ht) as [Hin Hdl]. apply Hm1 in Hin. by rewrite <-Hd.
  - intros t Ht Hdl. destruct (decide (t ∈ L)) as [|Hn]; [by left|]. right.
    unfold is_cancelled. rewrite HT. destruct (Hkept t) as [Hin|[?|[? _]]]; [by apply Hm1| |done|done].
    specialize (Hend t Hin). rewrite Hd2 in Hend by done. lia.
  - intros t. rewrite Hm3. split.
    + intros Hin. destruct (Hsub t Hin) as [Hin1 Hos]. apply Hm1 in Hin1. split; [done|].
      destruct (decide (t ∈ L)) as [HL|HL]; [right|left]; rewrite <-?Ho by done; [auto|].
      rewrite <-Hd2 by done. auto.
    + intros [Hin [Hlt'|[HL Hos]]].
      * apply Hfut; [by apply Hm1|]. by rewrite Hd.
      * apply Hagain; [done|]. by rewrite Ho.
  - split_ands; [done| |].
    + intros t Ht%Hm3. unfold deadline. rewrite HT. by apply Hle.
    + destruct Hor as [[Hnil ->]|(t & Ht & ->)]; [left|right].
      * split; [|done]. unfold member_set. by rewrite HM, Hnil.
      * exists t. unfold deadline. rewrite Hm3, HT. done.
Qed.

Lemma after_requests_live w q ms t :
  requests_ok w q -> (forall t, t ∈ ms -> is_Some (states (timers w) !! t)) ->
  t ∈ after_requests q ms -> is_Some (states (timers w) !! t).
Proof.
  intros [Hl _ _ _]. revert ms. induction q as [|[t' r] q IH]; intros ms Hms Hin; [by apply Hms|].
  assert (Hl' : forall t r, (t, r) ∈ q -> is_Some (states (timers w) !! t)) by (intros; eapply Hl; by right).
  destruct r; simpl in Hin; (eapply IH; [exact Hl'| |exact Hin]); intros x Hx; simpl in Hx.
  - apply elem_of_union in Hx as [->%elem_of_singleton|Hx]; [eapply Hl; by left|by apply Hms].
  - apply elem_of_difference in Hx as [Hx _]. by apply Hms.
Qed.

Lemma process_timers_batch fuel queue w :
  wf w -> requests_ok w queue -> positive_world w ->
  let ms := after_requests queue (member_set w) in
  size ms < fuel ->
  match process_timers fuel queue w with
  | (Ok None, _) | (Abort, _) => False
  | (Ok (Some next), w') => wf w' /\ positive_world w' /\ exists now L, batch_ok ms now L next w w'
  | (Throw e, w') => exists t st name, e = runtime_shutdown_exception name /\
      t ∈ ms /\ states (timers w) !! t = Some st /\ m_cancelled st = false /\
      dead_executors w' !! m_executor st = Some name
  end.
Proof.
  intros Hwf Hq Hpos ms Hfuel.
  assert (Hlive : forall t, t ∈ ms -> is_Some (states (timers w) !! t)).
  { intros t. apply after_requests_live; [done|]. intros x. rewrite elem_of_member_set. by apply members_live. }
  destruct (requests_then_clock queue w Hwf Hq) as (w1 & E1 & Hwf1 & He1 & HP1 & Hm1 & Hpos1).
  specialize (Hpos1 Hpos). fold ms in Hm1. set (now := clock (timers w1)) in *.
  assert (E : process_timers fuel queue w =
    (ended ← process_loop fuel now;
     if negb ended then mret None else w ← get_state;
      match m_timers (internal w) with
      | [] => reset_containers_memory;; mret (Some (now + hours_24)%Z)
      | (_, t) :: _ => st ← on_timers (read_state t); mret (Some (get_deadline st))
      end) w1).
  { unfold process_timers. unfold mbind, M_bind in *. destruct (process_request_queue queue w) as [[[]| |] w0]; simpl in *; try done.
    injection E1 as _ E2; unfold now; by rewrite <-E2. }
  rewrite E. clear E E1.
  pose proof (process_loop_spec fuel now w1 Hwf1 ltac:(lia)) as Hloop.
  pose proof (process_loop_ends fuel now w1 Hwf1 ltac:(lia) Hpos1) as Hends.
  destruct (process_loop fuel now w1) as [[ended|e|] w2] eqn:Eloop; simpl in Hloop; [| |done].
  - rewrite (bind_Ok _ _ _ _ _ Eloop). destruct Hloop as (L & Hpr & Hall). assert (ended = true) as ->.
    { apply Hends. rewrite <-Hm1 in Hfuel. pose proof (due_size now w1 Hwf1). lia. }
    specialize (Hall eq_refl). cbn [negb].
    destruct (next_deadline_spec now w2 (pr_wf _ _ _ _ Hpr) Hall) as (next & w3 & E3 & Hwf3 & HT & HP & HM & HS & Hlt & Hle & Hor).
    rewrite E3. split; [done|]. split.
    { unfold positive_world. rewrite HT, HS. by apply (pr_positive _ _ _ _ Hpr). }
    exists now, L. by eapply batch_of_progress.
  - rewrite (bind_Throw _ _ _ _ _ Eloop). destruct Hloop as (L & w3 & Hpr & t & st & name & -> & Hm & Hdl & Hst & Hc & Hdead).
    assert (Hin : t ∈ ms) by (rewrite <-Hm1, elem_of_member_set; by apply (pr_members _ _ _ _ Hpr)).
    destruct (Hlive t Hin) as [st0 Hst0].
    pose proof (evolves_nil_trans _ _ _ _ He1 (pr_evolves _ _ _ _ Hpr)) as He.
    destruct (ev_states _ _ _ He t st0 Hst0) as (st' & Hst' & Hex & _ & _ & _ & Hcc). simplify_eq.
    exists t, st0, name. split_ands; try done; [|congruence].
    destruct (m_cancelled st0); [|done]. by rewrite Hcc in Hc.
Qed.


(** ** Timers with a frequency that is not positive *)
Definition ticks (l : list interference) : option Z :=
  foldr (fun i acc => match i, acc with tick d, Some z => Some (Z.of_nat d + z)%Z | _, _ => None end) (Some 0%Z) l.

Definition elapsed (ls : list (list interference)) : option Z :=
  foldr (fun l acc => match ticks l, acc with Some a, Some b => Some (a + b)%Z | _, _ => None end) (Some 0%Z) ls.

(** Nothing but the clock goes on, and it stays below [limit]. *)
Record lonely (t : timer_id) (st : timer_state) (limit : Z) (w : queue_world) : Prop := {
  lo_state : exists d, states (timers w) !! t = Some (set_deadline d st);
  lo_time : exists z, elapsed (script w) = Some z /\ (clock (timers w) + z <= limit)%Z;
  lo_alive : dead_executors w !! m_executor st = None
}.

Lemma ticks_fold l z w :
  ticks l = Some z ->
  foldl (fun w i => interfere_one i w) w l = set_timers (set_clock (clock (timers w) + z) (timers w)) w.
Proof.
  revert z w. induction l as [|i l IH]; intros z w H; simpl in *.
  - injection H as <-. rewrite Z.add_0_r. by destruct w as [[]].
  - destruct i; try done. destruct (ticks l) as [z'|] eqn:E; [|done]. injection H as <-.
    rewrite (IH z') by done. simpl. by rewrite Z.add_assoc.
Qed.

Lemma elapsed_nonneg ls z : elapsed ls = Some z -> (0 <= z)%Z.
Proof.
  assert (Ht : forall l z, ticks l = Some z -> (0 <= z)%Z).
  { induction l as [|[] l IH]; simpl; intros y H; try done; [by injection H as <-|].
    destruct (ticks l) as [z'|]; [|done]. injection H as <-. specialize (IH z' eq_refl). lia. }
  revert z. induction ls as [|l ls IH]; simpl; intros z H; [by injection H as <-|].
  destruct (ticks l) as [a|] eqn:E; [|done]. destruct (elapsed ls) as [b|]; [|done]. injection H as <-.
  specialize (IH b eq_refl). specialize (Ht l a E). lia.
Qed.

Lemma interfere_lonely t st limit w :
  lonely t st limit w -> lonely t st limit (interfere w) /\ posted (interfere w) = posted w /\
  internal (interfere w) = internal w /\ states (timers (interfere w)) = states (timers w).
Proof.
  intros [Hs (z & Hz & Hlim) Ha]. unfold interfere. destruct (script w) as [|l ls] eqn:E.
  - split_ands; try done. split; try done. rewrite E. by exists z.
  - simpl in Hz. destruct (ticks l) as [a|] eqn:El; [|done]. destruct (elapsed ls) as [b|] eqn:Els; [|done].
    injection Hz as <-. rewrite (ticks_fold l a) by done. split_ands; try done. split; try done.
    simpl. exists b. split; [done|lia].
Qed.

Lemma lonely_now t st limit w : lonely t st limit w -> (clock (timers w) <= limit)%Z.
Proof. intros [_ (z & Hz & Hl) _]. apply elapsed_nonneg in Hz. lia. Qed.

Section flood.
Context (t : timer_id) (st : timer_state) (now limit : Z).
Context (Hperiodic : m_is_oneshot st = false) (Hactive : m_cancelled st = false).
Context (Hlimit : (make_deadline limit (m_frequency st) <= now)%Z).

Lemma fire_lonely w :
  lonely t st limit w ->
  exists w', fire t w = (Ok tt, w') /\ lonely t st limit w' /\ posted w' = posted w ++ [t] /\
    internal w' = internal w /\ (deadline w' t <= now)%Z.
Proof.
  intros Hw. unfold fire. destruct (interfere_lonely _ _ _ _ Hw) as (Hw1 & P1 & I1 & S1).
  set (w1 := interfere w) in *. rewrite (bind_Ok (modify interfere) _ w tt w1) by done.
  destruct (lo_state _ _ _ _ Hw1) as [d1 Hst1]. rewrite (bind_Ok _ _ _ _ _ (read_state_eq t _ w1 Hst1)).
  destruct (interfere_lonely _ _ _ _ Hw1) as (Hw2 & P2 & I2 & S2). set (w2 := interfere w1) in *.
  rewrite (bind_Ok clock_now _ w1 (clock (timers w2)) w2) by done.
  destruct (lo_state _ _ _ _ Hw2) as [d2 Hst2]. rewrite (bind_Ok _ _ _ _ _ (read_state_eq t _ w2 Hst2)).
  set (nd := make_deadline (clock (timers w2)) (m_frequency (set_deadline d1 st))).
  set (w3 := set_timers (set_states (<[t := set_deadline nd (set_deadline d2 st)]> (states (timers w2))) (timers w2)) w2).
  rewrite (bind_Ok _ _ w2 tt w3) by done.
  assert (Hw3 : lonely t st limit w3).
  { destruct Hw2 as [? ? ?]. split; try done. exists nd. simpl. by rewrite lookup_insert_eq. }
  destruct (interfere_lonely _ _ _ _ Hw3) as (Hw4 & P4 & I4 & S4). set (w4 := interfere w3) in *.
  rewrite (bind_Ok (modify interfere) _ w3 tt w4) by done. rewrite (bind_Ok get_state _ w4 w4 w4) by done.
  change (m_executor (set_deadline d2 st)) with (m_executor st). rewrite (lo_alive _ _ _ _ Hw4).
  eexists. split; [done|]. split_ands.
  - destruct Hw4. by split.
  - simpl. by rewrite P4, <-P1, <-P2.
  - simpl. by rewrite I4, <-I1, <-I2.
  - unfold deadline, deadline_of. simpl. rewrite S4. simpl. rewrite lookup_insert_eq. simpl.
    pose proof (lonely_now _ _ _ _ Hw2). unfold nd, make_deadline in *. simpl. lia.
Qed.

Definition only_timer (w : queue_world) : Prop :=
  exists n, m_timers (internal w) = [(n, t)] /\ m_iterator_mapper (internal w) !! t = Some n.

Lemma turn_lonely w :
  lonely t st limit w -> only_timer w -> (deadline w t <= now)%Z ->
  exists w', process_first now w = (Ok true, w') /\ lonely t st limit w' /\ only_timer w' /\
    posted w' = posted w ++ [t] /\ (deadline w' t <= now)%Z.
Proof.
  intros Hw (n & Hf & Hmap) Hd. unfold process_first. rewrite (bind_Ok get_state _ w w w) by done.
  rewrite Hf. destruct (lo_state _ _ _ _ Hw) as [d Hst]. rewrite (bind_Ok _ _ _ _ _ (read_state_eq t _ w Hst)).
  unfold expired, deadline, deadline_of, get_deadline in *. rewrite Hst in Hd.
  rewrite (proj2 (Z.leb_le _ _) Hd). cbn [negb].
  set (w1 := set_internal (make_internal [] (m_iterator_mapper (internal w)) (next_node (internal w))) w).
  rewrite (bind_Ok (set_erase n) _ w tt w1).
  2: { unfold set_erase. rewrite (bind_Ok get_state _ w w w) by done. rewrite Hf.
       rewrite bool_decide_eq_true_2 by (by left). by rewrite filter_cons_False by (simpl; tauto). }
  assert (Hw1 : lonely t st limit w1) by (by destruct Hw).
  destruct (interfere_lonely _ _ _ _ Hw1) as (Hw2 & P2 & I2 & S2). set (w2 := interfere w1) in *.
  rewrite (bind_Ok (modify interfere) _ w1 tt w2) by done.
  destruct (lo_state _ _ _ _ Hw2) as [d2 Hst2]. rewrite (bind_Ok _ _ _ _ _ (read_state_eq t _ w2 Hst2)).
  simpl. rewrite Hactive, Hperiodic. cbn [negb orb].
  destruct (fire_lonely w2 Hw2) as (w3 & E3 & Hw3 & P3 & I3 & D3). rewrite (bind_Ok _ _ _ _ _ E3).
  rewrite (bind_Ok (set_insert t) _ w3 (next_node (internal w3)) _ eq_refl). set (w4 := set_internal _ w3).
  assert (Hmap4 : m_iterator_mapper (internal w4) !! t = Some n) by (simpl; by rewrite I3, I2).
  rewrite (bind_Ok (map_find t) _ w4 (Some n) w4) by (unfold map_find, gets; by rewrite Hmap4).
  rewrite (bind_Ok (massert _) _ w4 tt w4) by done.
  rewrite (bind_Ok (map_modify _) _ w4 tt _ eq_refl). eexists. split; [done|]. split_ands.
  - by destruct Hw3.
  - exists (next_node (internal w3)). simpl. rewrite lookup_insert_eq, I3, I2. done.
  - simpl. by rewrite P3, P2.
  - exact D3.
Qed.
End flood.

(** A periodic timer with a negative frequency (nothing rejects one): as
    long as the clock has not advanced by that many milliseconds the loop of
    [process_timers] does not end; every turn posts the callable again.  (With
    frequency 0, as long as the clock shows the same time.) *)
Lemma nonpositive_frequency_floods_the_executor fuel now t st w :
  m_is_oneshot st = false -> m_cancelled st = false ->
  lonely t st (now - of_size_t (m_frequency st) * ticks_per_ms) w -> only_timer t w -> (deadline w t <= now)%Z ->
  exists w', process_loop fuel now w = (Ok false, w') /\ posted w' = posted w ++ replicate fuel t.
Proof.
  intros Hp Ha Hw Ho Hd. revert w Hw Ho Hd. induction fuel as [|fuel IH]; intros w Hw Ho Hd.
  - exists w. by rewrite app_nil_r.
  - destruct (turn_lonely t st now (now - of_size_t (m_frequency st) * ticks_per_ms) Hp Ha) with (w := w) as (w1 & E1 & Hw1 & Ho1 & P1 & D1); try done.
    { unfold make_deadline. lia. }
    destruct (IH w1 Hw1 Ho1 D1) as (w2 & E2 & P2). exists w2. simpl. rewrite (bind_Ok _ _ _ _ _ E1).
    split; [done|]. by rewrite P2, P1, <-app_assoc.
Qed.

(** ** Witnesses *)
Definition some_timers : timers_world :=
  make_world (<[0 := new_timer_state 1000 1 10 5 false]> (<[1 := new_timer_state 1000 2 0 5 true]>
    (<[2 := new_timer_state 1000 90 10 5 false]> (<[3 := set_cancelled (new_timer_state 1000 1 10 5 false)]> ∅))))
    5000000 true false [].

Definition some_world (s : list (list interference)) : queue_world :=
  make_queue_world some_timers (make_internal [] ∅ 0) [] ∅ s.

Definition some_requests : list (timer_id * timer_request) := [(0, add); (1, add); (2, add); (3, add); (3, remove)].

Lemma some_world_ok s : wf (some_world s) /\ requests_ok (some_world s) some_requests.
Proof.
  split; [apply wf_queue_empty|]. split.
  - intros t r H. repeat (apply elem_of_cons in H as [[= -> ->]|H]; [by eexists|]). by apply not_elem_of_nil in H.
  - apply (bool_decide_unpack _). by vm_compute.
  - done.
  - intros t H.
    assert (Hall : Forall (fun r => r.2 = remove -> is_cancelled (some_world s) r.1 = true) some_requests) by (by repeat constructor).
    rewrite list.Forall_forall in Hall. by apply (Hall _ H).
Qed.

Lemma some_timers_positive : positive_timers (states some_timers).
Proof.
  intros t st H. simpl in H.
  repeat (apply lookup_insert_Some in H as [[<- <-]|[_ H]]; [done|]). done.
Qed.

Definition some_script : list (list interference) := [[tick 7]; [user_make 3 4 5]; [tick 2]].


Definition flooding_timer : timer_state := new_timer_state 0 0 (to_size_t (-1)) 5 false.

Definition flooding_world : queue_world :=
  make_queue_world (make_world {[0 := flooding_timer]} 10 true false [])
    (make_internal [(0, 0)] {[0 := 0]} 1) [] ∅ [[tick 3]; []; [tick 4]].

Lemma nonpositive_frequency_floods_the_executor_witness :
  exists w', process_loop 1000 10 flooding_world = (Ok false, w') /\ posted w' = [] ++ replicate 1000 0.
Proof.
  apply (nonpositive_frequency_floods_the_executor 1000 10 0 flooding_timer flooding_world); try done.
  - split; [by exists 0%Z|exists 7%Z; by split|done].
  - by exists 0.
Defined.
