(* ===== verification/TimerService.v ===== *)
(** * The timer queue and its worker thread

    [timer_queue] of [source/timers/timer_queue.cpp]: users that add and
    cancel timers, the worker thread that starts on demand, sleeps on the
    condition variable and ends when it was idle for too long, and [shutdown].

    One label is one critical section (or one call outside of the lock).  A
    batch of the worker, [process_timers], is one step whose label gives the
    script of what other threads do meanwhile.  Time-outs may happen at any
    time; the lock is never held between two steps. *)

From Stdlib Require Import ZArith.
From stdpp Require Import prelude gmap list strings.
From S2P Require Import Prelude Errors Timer TimerQueue TimerQueueProps TimerQueueTheorems.
#[local] Open Scope list_scope.

Notation requests := (list (timer_id * timer_request)).

(** Where the current worker thread is in [work_loop]. *)
Inductive worker_pc :=
  | no_thread                       (* m_worker is not joinable *)
  | at_lock                         (* before it takes m_lock *)
  | asleep                          (* blocked in m_condition *)
  | awake (timed_out : bool)        (* woken; it will take the lock again *)
  | processing (queue : requests)   (* it has moved m_request_queue *)
  | ended                           (* work_loop returned *)
  | terminated (assertion : bool).  (* an exception left the thread; or an assertion failed *)

Inductive shutdown_pc := sd_none | sd_entered | sd_notify | sd_join | sd_done.

Record service := make_service {
  sw : queue_world;
  m_idle : bool;
  m_atomic_abort : bool;
  worker : worker_pc;
  pending_notify : nat;             (* users between lock.unlock() and notify_one() *)
  sd : shutdown_pc
}.

Definition set_sw v s := make_service v (m_idle s) (m_atomic_abort s) (worker s) (pending_notify s) (sd s).
Definition set_idle v s := make_service (sw s) v (m_atomic_abort s) (worker s) (pending_notify s) (sd s).
Definition set_worker v s := make_service (sw s) (m_idle s) (m_atomic_abort s) v (pending_notify s) (sd s).
Definition set_pending v s := make_service (sw s) (m_idle s) (m_atomic_abort s) (worker s) v (sd s).
Definition set_sd v s := make_service (sw s) (m_idle s) (m_atomic_abort s) (worker s) (pending_notify s) v.
Definition set_atomic_abort v s := make_service (sw s) (m_idle s) v (worker s) (pending_notify s) (sd s).

Definition queue_of (s : service) : requests := m_request_queue (timers (sw s)).
Definition aborted (s : service) : bool := queue_aborted (timers (sw s)).

(** A new queue, at some time. *)
Definition new_service (now : Z) : service :=
  make_service (make_queue_world (make_world ∅ now true false []) (make_internal [] ∅ 0) [] ∅ [])
    true false no_thread 0 sd_none.

(** The predicate that the worker waits for. *)
Definition has_work (s : service) : bool := bool_decide (queue_of s <> []) || aborted s.

(** [ensure_worker_thread]: a new thread has a new [timer_queue_internal]; the
    old one has returned from [work_loop], so that joining it ends. *)
Definition ensure_worker_thread (s : service) : service :=
  if negb (m_idle s) then s
  else set_idle false (set_worker at_lock
         (set_sw (set_internal (make_internal [] ∅ 0) (sw s)) s)).

(** [make_timer_impl] and [add_timer]; [None]: it throws. *)
Definition add_timer (i : interference) (s : service) : option service :=
  if aborted s then None
  else
    let s := ensure_worker_thread s in
    Some (set_pending (S (pending_notify s)) (set_sw (interfere_one i (sw s)) s)).

(** [notify_one] and [notify_all]: there is at most one waiter. *)
Definition notify (s : service) : service :=
  match worker s with asleep => set_worker (awake false) s | _ => s end.

(** After the wait: the worker holds the lock. *)
Definition after_wait (s : service) : service :=
  if aborted s then set_worker ended s
  else
    set_worker (processing (queue_of s))
      (set_sw (set_timers (set_requests [] (timers (sw s))) (sw s)) s).

(** The worker takes the lock, at the top of the loop or in the condition
    variable, where it may have timed out. *)
Definition wait (timed_out : bool) (s : service) : service :=
  if has_work s then after_wait s
  else if negb timed_out then set_worker asleep s
  else
    match (internal_empty (sw s)).1 with
    | Ok true => set_worker ended (set_idle true s)     (* the worker was idle for too long *)
    | Ok false => after_wait s                          (* the next deadline has come *)
    | _ => set_worker (terminated true) s
    end.

Definition makes_request (i : interference) : bool :=
  match i with user_make _ _ _ | user_make_one_shot _ _ | user_cancel _ => true | _ => false end.

(** The worker processes its batch; an exception that leaves the thread's
    function terminates the program. *)
Definition process (fuel : nat) (q : requests) (l : list (list interference)) (s : service) : option service :=
  let n := length (filter (fun i => makes_request i = true) (concat l)) in
  match process_timers fuel q (set_script l (sw s)) with
  | (Ok (Some _), w) => Some (set_pending (pending_notify s + n) (set_worker at_lock (set_sw (set_script [] w) s)))
  | (Ok None, _) => None
  | (Throw _, w) => Some (set_worker (terminated false) (set_sw (set_script [] w) s))
  | (Abort, w) => Some (set_worker (terminated true) (set_sw (set_script [] w) s))
  end.

Inductive label :=
  | l_make (due_time frequency : Z) (ex : executor_id)
  | l_make_one_shot (due_time : Z) (ex : executor_id)
  | l_cancel (t : timer_id)
  | l_notify
  | l_world (i : interference)                (* time passes, frequencies change, executors shut down *)
  | l_worker_lock
  | l_worker_wake (timed_out : bool)          (* notified is l_notify; this is spurious or a time-out *)
  | l_worker_process (fuel : nat) (script : list (list interference))
  | l_shutdown | l_shutdown_lock | l_shutdown_notify | l_shutdown_join.

(** What may happen during a batch; [shutdown] is a label of its own. *)
Definition in_batch (i : interference) : bool :=
  match i with queue_shutdown => false | _ => true end.
Definition in_world (i : interference) : bool :=
  match i with tick _ | user_set_frequency _ _ | executor_shutdown _ _ => true | _ => false end.

(** [shutdown()]. *)
Definition shutdown_exchange (s : service) : service :=
  if m_atomic_abort s then s else set_sd sd_entered (set_atomic_abort true s).
Definition shutdown_lock (s : service) : service :=
  let tw := timers (sw s) in
  let abort q := set_sw (set_timers (make_world (states tw) (clock tw) (queue_alive tw) true q) (sw s)) s in
  match worker s with
  | no_thread => set_sd sd_done (abort (m_request_queue tw))
  | _ => set_sd sd_notify (abort [])
  end.

Definition step (l : label) (s : service) : option service :=
  match worker s with
  | terminated _ => None
  | pc =>
      match l with
      | l_make d f ex => add_timer (user_make d f ex) s
      | l_make_one_shot d ex => add_timer (user_make_one_shot d ex) s
      | l_cancel t => Some (set_pending (S (pending_notify s)) (set_sw (interfere_one (user_cancel t) (sw s)) s))
      | l_notify =>
          if decide (pending_notify s = 0) then None
          else Some (notify (set_pending (pending_notify s - 1) s))
      | l_world i => if in_world i then Some (set_sw (interfere_one i (sw s)) s) else None
      | l_worker_lock =>
          match pc with at_lock => Some (wait false s) | awake to => Some (wait to s) | _ => None end
      | l_worker_wake to => match pc with asleep => Some (set_worker (awake to) s) | _ => None end
      | l_worker_process fuel script =>
          match pc with
          | processing q => if forallb (forallb in_batch) script then process fuel q script s else None
          | _ => None
          end
      | l_shutdown => Some (shutdown_exchange s)
      | l_shutdown_lock => if sd s is sd_entered then Some (shutdown_lock s) else None
      | l_shutdown_notify => if sd s is sd_notify then Some (set_sd sd_join (notify s)) else None
      | l_shutdown_join =>
          match sd s, pc with
          | sd_join, ended => Some (set_sd sd_done (set_worker no_thread s))
          | _, _ => None
          end
      end
  end.
