(* ===== verification/TimerServiceProps.v ===== *)
(** * The invariant of the timer queue and its worker *)

From Stdlib Require Import ZArith.
From stdpp Require Import prelude gmap list strings.
From S2P Require Import Prelude Errors Timer TimerQueue TimerQueueProps TimerQueueTheorems TimerService.
#[local] Open Scope list_scope.

Lemma bind_Abort {E S A B} (m : M E S A) (k : A -> M E S B) s s' :
  m s = (Abort, s') -> (m ≫= k) s = (Abort, s').
Proof. intros H. unfold mbind, M_bind. by rewrite H. Qed.

(** ** Computations that keep a property of the world

    [J] says nothing of the containers and of what was posted. *)
Section keeps_ops.
Context (J : queue_world -> Prop).

Definition keeps {A} (m : QM A) : Prop := forall w, J w -> J (m w).2.

Lemma keeps_ret {A} (a : A) : keeps (mret a).
Proof. intros w H. exact H. Qed.

Lemma keeps_bind {A B} (m : QM A) (k : A -> QM B) : keeps m -> (forall a, keeps (k a)) -> keeps (m ≫= k).
Proof.
  intros Hm Hk w Hw. specialize (Hm w Hw). unfold mbind, M_bind.
  destruct (m w) as [[a|e|] w']; [by apply Hk|done|done].
Qed.

Lemma keeps_if {A} (b : bool) (m1 m2 : QM A) : keeps m1 -> keeps m2 -> keeps (if b then m1 else m2).
Proof. by destruct b. Qed.

Context (Hinterfere : forall w, J w -> J (interfere w)).
Context (Hinternal : forall i w, J w -> J (set_internal i w)).
Context (Hposted : forall l w, J w -> J (set_posted l w)).
Context (Hdeadline : forall w t st d, states (timers w) !! t = Some st -> J w ->
  J (set_timers (set_states (<[t := set_deadline d st]> (states (timers w))) (timers w)) w)).

Lemma keeps_get : keeps get_state.
Proof. intros w H. exact H. Qed.

Lemma keeps_gets {A} (f : queue_world -> A) : keeps (gets f).
Proof. intros w H. exact H. Qed.

Lemma keeps_massert b : keeps (massert b).
Proof. by destruct b; intros w H. Qed.

Lemma keeps_read_state t : keeps (on_timers (read_state t)).
Proof. intros w H. unfold on_timers, read_state. run_t. by destruct (states (timers w) !! t), w. Qed.

Lemma keeps_set_insert t : keeps (set_insert t).
Proof. intros w H. by apply Hinternal. Qed.

Lemma keeps_set_erase n : keeps (set_erase n).
Proof.
  intros w H. unfold set_erase. rewrite (bind_Ok get_state _ w w w) by done. case_bool_decide; [by apply Hinternal|done].
Qed.

Lemma keeps_map_modify f : keeps (map_modify f).
Proof. intros w H. by apply Hinternal. Qed.

Lemma keeps_interfere : keeps (modify interfere).
Proof. intros w H. by apply Hinterfere. Qed.

#[local] Hint Resolve keeps_ret keeps_if keeps_get keeps_gets keeps_massert keeps_read_state
  keeps_set_insert keeps_set_erase keeps_map_modify keeps_interfere : keeps.
#[local] Hint Extern 4 (keeps (_ ≫= _)) => apply keeps_bind; [|intros ?] : keeps.

Lemma keeps_clock_now : keeps clock_now.
Proof. unfold clock_now. auto with keeps. Qed.
#[local] Hint Resolve keeps_clock_now : keeps.

Lemma keeps_fire t : keeps (fire t).
Proof.
  unfold fire. apply keeps_bind; [auto with keeps|]. intros _.
  apply keeps_bind; [auto with keeps|]. intros st. cbv zeta.
  apply keeps_bind; [auto with keeps|]. intros now w Hw.
  destruct (states (timers w) !! t) as [st'|] eqn:E.
  - rewrite (bind_Ok _ _ _ _ _ (read_state_eq t st' w E)).
    set (w1 := set_timers (set_states (<[t := set_deadline (make_deadline now (m_frequency st)) st']> (states (timers w))) (timers w)) w).
    rewrite (bind_Ok _ _ w tt w1) by done. assert (Hw1 : J w1) by (by apply Hdeadline).
    rewrite (bind_Ok (modify interfere) _ w1 tt (interfere w1)) by done. apply Hinterfere in Hw1.
    rewrite (bind_Ok get_state _ (interfere w1) (interfere w1) (interfere w1)) by done.
    destruct (dead_executors _ !! _); [done|by apply Hposted].
  - assert (Ha : on_timers (read_state t) w = (Abort, w)) by (unfold on_timers, read_state; run_t; rewrite E; by destruct w).
    by rewrite (bind_Abort _ _ _ _ Ha).
Qed.
#[local] Hint Resolve keeps_fire : keeps.

Lemma keeps_process_first now : keeps (process_first now).
Proof.
  unfold process_first. apply keeps_bind; [auto with keeps|]. intros w.
  destruct (m_timers (internal w)) as [|[n t] l]; [auto with keeps|]. cbv zeta. auto 20 with keeps.
Qed.
#[local] Hint Resolve keeps_process_first : keeps.

Lemma keeps_process_loop fuel now : keeps (process_loop fuel now).
Proof. induction fuel as [|fuel IH]; simpl; auto with keeps. Qed.

Lemma keeps_process_request r : keeps (process_request r).
Proof.
  destruct r as [t []]; unfold process_request; simpl.
  - unfold add_timer_internal, map_find. auto 10 with keeps.
  - unfold remove_timer_internal, map_find. apply keeps_bind; [auto with keeps|]. intros [n|]; auto 10 with keeps.
Qed.

Lemma keeps_process_request_queue q : keeps (process_request_queue q).
Proof.
  unfold process_request_queue. induction q as [|r q IH]; simpl; [auto with keeps|].
  apply keeps_bind; [apply keeps_process_request|done].
Qed.

Lemma keeps_reset : keeps reset_containers_memory.
Proof.
  unfold reset_containers_memory, internal_empty. do 2 (apply keeps_bind; [auto 10 with keeps|]; intros ?).
  intros w H. by apply Hinternal.
Qed.

Lemma keeps_process_timers fuel q : keeps (process_timers fuel q).
Proof.
  unfold process_timers. apply keeps_bind; [apply keeps_process_request_queue|]. intros _.
  apply keeps_bind; [auto with keeps|]. intros now.
  apply keeps_bind; [apply keeps_process_loop|]. intros ended. apply keeps_if; [auto with keeps|].
  apply keeps_bind; [auto with keeps|]. intros w. destruct (m_timers (internal w)) as [|[n t] l].
  - apply keeps_bind; [apply keeps_reset|auto with keeps].
  - auto with keeps.
Qed.
End keeps_ops.

(** ** Requests that nobody has processed yet *)
Record pending_ok (K : gset timer_id) (q : list (timer_id * timer_request)) (tw : timers_world) : Prop := {
  po_live : forall t r, (t, r) ∈ q ++ m_request_queue tw -> is_Some (states tw !! t);
  po_once : NoDup (added (q ++ m_request_queue tw));
  po_new : forall t, t ∈ added (q ++ m_request_queue tw) -> t ∉ K;
  po_known : forall t, t ∈ K -> is_Some (states tw !! t);
  po_cancelled : forall t, (t, remove) ∈ q ++ m_request_queue tw ->
    exists st, states tw !! t = Some st /\ m_cancelled st = true
}.

Lemma added_app q1 q2 : added (q1 ++ q2) = added q1 ++ added q2.
Proof. unfold added. by rewrite list.filter_app, fmap_app. Qed.

Lemma elem_of_added q t : t ∈ added q <-> (t, add) ∈ q.
Proof.
  unfold added. rewrite list_elem_of_fmap. split.
  - intros ([t' r] & -> & H). apply list_elem_of_filter in H as [Hr H]. simpl in *. by subst.
  - intros H. exists (t, add). split; [done|]. by apply list_elem_of_filter.
Qed.

(** The states may change, not disappear; cancelled timers stay cancelled. *)
Lemma pending_ok_evolves L K q tw tw' :
  evolves L tw tw' -> m_request_queue tw' = m_request_queue tw -> pending_ok K q tw -> pending_ok K q tw'.
Proof.
  intros He HQ [Hl Ho Hn Hk Hc]. split; rewrite ?HQ; try done.
  - intros t r H. destruct (Hl t r H) as [st Hst]. destruct (ev_states _ _ _ He t st Hst) as (st' & -> & _). done.
  - intros t H. destruct (Hk t H) as [st Hst]. destruct (ev_states _ _ _ He t st Hst) as (st' & -> & _). done.
  - intros t H. destruct (Hc t H) as (st & Hst & Hcc).
    destruct (ev_states _ _ _ He t st Hst) as (st' & -> & _ & _ & _ & _ & Hi). eauto.
Qed.

Lemma pending_ok_with_timer st K q tw : pending_ok K q tw -> pending_ok K q (with_timer st tw).
Proof.
  intros H. pose proof (pending_ok_evolves [] K q tw
    (set_requests (m_request_queue tw) (with_timer st tw))) as Hev.
  destruct Hev as [Hl Ho Hn Hk Hc]; [|done|done|].
  { destruct (evolves_with_timer [] st tw) as [? Hs]. split; [done|exact Hs]. }
  unfold with_timer in *. simpl in *. destruct (queue_aborted tw) eqn:Ha; [by split|].
  set (i := fresh (dom (states tw))) in *.
  assert (Hi : states tw !! i = None) by (apply not_elem_of_dom, is_fresh).
  split; simpl; rewrite ?app_assoc.
  - intros t r [?|[= -> ->]%list_elem_of_singleton]%elem_of_app; [by eapply Hl|]. by rewrite lookup_insert_eq.
  - rewrite added_app. apply NoDup_app. split_ands; [done| |apply NoDup_singleton].
    intros t Ht ->%list_elem_of_singleton. apply elem_of_added in Ht.
    destruct (po_live _ _ _ H i add Ht) as [st' Hst']. congruence.
  - intros t. rewrite added_app, elem_of_app. intros [?| ->%list_elem_of_singleton]; [by apply Hn|].
    intros Hin. destruct (po_known _ _ _ H i Hin) as [st' Hst']. congruence.
  - done.
  - intros t [?|Heq%list_elem_of_singleton]%elem_of_app; [by apply Hc|done].
Qed.

Lemma pending_ok_abort K q tw : pending_ok K q tw -> pending_ok K q (abort_queue tw).
Proof.
  intros [Hl Ho Hn Hk Hc]. unfold abort_queue. split; simpl; rewrite ?app_nil_r; try done.
  - intros t r H. eapply Hl, elem_of_app. by left.
  - rewrite added_app in Ho. by apply NoDup_app in Ho as [? _].
  - intros t H. apply Hn. rewrite added_app, elem_of_app. by left.
  - intros t H. apply Hc, elem_of_app. by left.
Qed.

Lemma pending_ok_cancel t K q tw : pending_ok K q tw -> pending_ok K q (cancel (Some t) tw).2.
Proof.
  intros H. rewrite cancel_world. destruct (states tw !! t) as [st|] eqn:E; [|done].
  set (tw1 := set_states (<[t := set_cancelled st]> (states tw)) tw).
  assert (H1 : pending_ok K q tw1).
  { apply (pending_ok_evolves [] K q tw); [|done|exact H]. by eapply evolves_insert; [exact E|..]. }
  destruct (queue_alive tw); [|by destruct H1; split]. destruct H1 as [Hl Ho Hn Hk Hc].
  split; simpl in *; rewrite ?app_assoc.
  - intros t' r [?|[= -> ->]%list_elem_of_singleton]%elem_of_app; [by eapply Hl|]. by rewrite lookup_insert_eq.
  - rewrite added_app. by rewrite app_nil_r.
  - intros t'. rewrite added_app, app_nil_r. apply Hn.
  - done.
  - intros t' [?|[= ->]%list_elem_of_singleton]%elem_of_app; [by apply Hc|]. rewrite lookup_insert_eq. eauto.
Qed.

Lemma pending_ok_one K q i w : pending_ok K q (timers w) -> pending_ok K q (timers (interfere_one i w)).
Proof.
  intros H. destruct i as [d|due f ex|due ex|t|t f| |ex name]; unfold interfere_one; cbn [timers set_timers set_dead].
  - apply (pending_ok_evolves [] K q (timers w)); [|done|exact H]. exact (interfere_one_evolves (tick d) w).
  - unfold make_timer. rewrite make_timer_impl_world. by apply pending_ok_with_timer.
  - unfold make_one_shot_timer. rewrite make_timer_impl_world. by apply pending_ok_with_timer.
  - by apply pending_ok_cancel.
  - apply (pending_ok_evolves [] K q (timers w)); [exact (interfere_one_evolves (user_set_frequency t f) w)| |exact H].
    rewrite set_frequency_world. by destruct (states (timers w) !! t).
  - by apply pending_ok_abort.
  - done.
Qed.

Lemma pending_ok_deadline K q tw t st d :
  states tw !! t = Some st -> pending_ok K q tw ->
  pending_ok K q (set_states (<[t := set_deadline d st]> (states tw)) tw).
Proof.
  intros Ht. apply (pending_ok_evolves [t]); [|done]. eapply evolves_insert; try done. set_solver.
Qed.

Lemma process_timers_pending fuel q K q0 w :
  pending_ok K q0 (timers w) -> pending_ok K q0 (timers (process_timers fuel q w).2).
Proof.
  apply (keeps_process_timers (fun w => pending_ok K q0 (timers w))); try done.
  - clear w. intros w Hw. unfold interfere. destruct (script w) as [|l ls]; [done|].
    assert (Hw' : pending_ok K q0 (timers (set_script ls w))) by done. revert Hw'. generalize (set_script ls w).
    induction l as [|i l IH]; intros w' Hw'; simpl; [done|]. by apply IH, pending_ok_one.
  - intros. by apply pending_ok_deadline.
Qed.

(** Undisturbed, a batch leaves the request queue alone. *)
Lemma process_timers_alone fuel q w :
  script w = [] ->
  let tw' := timers (process_timers fuel q w).2 in
  m_request_queue tw' = m_request_queue (timers w) /\ queue_aborted tw' = queue_aborted (timers w).
Proof.
  intros Hs. pose proof (keeps_process_timers (fun w' => script w' = [] /\
    m_request_queue (timers w') = m_request_queue (timers w) /\ queue_aborted (timers w') = queue_aborted (timers w))) as H.
  apply H; clear H; try done.
  intros w' H. unfold interfere. by rewrite (proj1 H).
Qed.

Lemma pending_ok_sub K K' q tw : K' ⊆ K -> pending_ok K q tw -> pending_ok K' q tw.
Proof. intros HK [Hl Ho Hn Hk Hc]. split; [done..| | |done]; intros t H; [intros H'; eapply Hn; eauto|by apply Hk, HK]. Qed.

(** The worker takes the queue. *)
Lemma pending_ok_take K tw :
  pending_ok K [] tw -> pending_ok K (m_request_queue tw) (set_requests [] tw).
Proof. intros [Hl Ho Hn Hk Hc]. split; simpl; by rewrite ?app_nil_r. Qed.

(** When a batch starts, the containers may come to hold what it adds. *)
Lemma pending_ok_batch K q tw :
  pending_ok K q tw -> pending_ok (K ∪ list_to_set (added q)) [] tw.
Proof.
  intros [Hl Ho Hn Hk Hc]. rewrite added_app in Ho. apply NoDup_app in Ho as (Ho1 & Ho2 & Ho3). split; simpl.
  - intros t r H. eapply Hl, elem_of_app. by right.
  - done.
  - intros t H. rewrite elem_of_union, elem_of_list_to_set. intros [?|?]; [|by eapply Ho2].
    eapply Hn; [|done]. rewrite added_app, elem_of_app. by right.
  - intros t. rewrite elem_of_union, elem_of_list_to_set. intros [?|H]; [by apply Hk|].
    apply elem_of_added in H. eapply Hl, elem_of_app. by left.
  - intros t H. apply Hc, elem_of_app. by right.
Qed.

Lemma pending_requests_ok q w :
  wf w -> pending_ok (member_set w) q (timers w) -> requests_ok w q.
Proof.
  intros Hwf [Hl Ho Hn Hk Hc]. rewrite added_app in *. split.
  - intros t r H. eapply Hl, elem_of_app. by left.
  - by apply NoDup_app in Ho as [? _].
  - intros t H. destruct (_ !! t) as [n|] eqn:E; [|done]. apply (wf_map _ _ Hwf) in E.
    exfalso. apply (Hn t); [apply elem_of_app; by left|]. apply elem_of_member_set, list_elem_of_fmap. by exists (n, t).
  - intros t H. destruct (Hc t) as (st & Hst & Hcc); [apply elem_of_app; by left|]. unfold is_cancelled. by rewrite Hst.
Qed.

Lemma after_requests_sub q ms : after_requests q ms ⊆ ms ∪ list_to_set (added q).
Proof.
  revert ms. induction q as [|[t []] q IH]; intros ms; [apply union_subseteq_l|cbn [after_requests]..].
  - etrans; [apply IH|]. intros x. rewrite !elem_of_union, !elem_of_list_to_set, elem_of_singleton, !elem_of_added, elem_of_cons. naive_solver.
  - etrans; [apply IH|]. intros x. rewrite !elem_of_union, !elem_of_list_to_set, elem_of_difference, !elem_of_added, elem_of_cons. naive_solver.
Qed.

(** A batch, whatever the frequencies are. *)
Lemma process_timers_safe fuel q w :
  wf w -> requests_ok w q ->
  match process_timers fuel q w with
  | (Ok (Some _), w') => wf w' /\ member_set w' ⊆ member_set w ∪ list_to_set (added q)
  | (Abort, _) => False
  | _ => True
  end.
Proof.
  intros Hwf Hq. destruct (requests_then_clock q w Hwf Hq) as (w1 & E1 & Hwf1 & He1 & _ & Hm1 & _).
  unfold process_timers. unfold mbind at 1, M_bind at 1.
  unfold mbind, M_bind in E1. destruct (process_request_queue q w) as [[[]|e|] w0]; [|done..].
  rewrite (bind_Ok _ _ _ _ _ E1).
  pose proof (process_loop_spec fuel (clock (timers w1)) w1 Hwf1 ltac:(lia)) as Hl.
  destruct (process_loop fuel _ w1) as [[[|]|e|] w2] eqn:El; simpl in Hl.
  - rewrite (bind_Ok _ _ _ _ _ El). destruct Hl as (L & Hpr & Hall).
    destruct (next_deadline_spec _ w2 (pr_wf _ _ _ _ Hpr) (Hall eq_refl)) as (next & w3 & E3 & Hwf3 & _ & _ & HM & _ & _).
    cbn [negb]. rewrite E3. split; [done|]. etrans; [|apply after_requests_sub]. rewrite <-Hm1.
    intros t. rewrite !elem_of_member_set, HM. by apply (pr_members _ _ _ _ Hpr).
  - by rewrite (bind_Ok _ _ _ _ _ El).
  - by rewrite (bind_Throw _ _ _ _ _ El).
  - done.
Qed.

(** Nobody takes a shutdown back. *)
Lemma process_timers_aborted fuel q w :
  queue_aborted (timers w) = true -> queue_aborted (timers (process_timers fuel q w).2) = true.
Proof.
  apply (keeps_process_timers (fun w => queue_aborted (timers w) = true)); try done.
  clear w. intros w Hw. unfold interfere. destruct (script w) as [|l ls]; [done|].
  assert (Hw' : queue_aborted (timers (set_script ls w)) = true) by done. revert Hw'. generalize (set_script ls w).
  induction l as [|i l IH]; intros w' Hw'; simpl; [done|]. apply IH. clear IH.
  destruct i as [d|due f ex|due ex|t|t f| |ex name]; unfold interfere_one; cbn [timers set_timers set_dead]; try done.
  - unfold make_timer. by rewrite make_timer_impl_world.
  - unfold make_one_shot_timer. by rewrite make_timer_impl_world.
  - rewrite cancel_world. by destruct (states (timers w') !! t).
  - rewrite set_frequency_world. by destruct (states (timers w') !! t).
Qed.

(** Nobody takes a cancellation back. *)
Lemma process_timers_cancelled fuel q t w :
  is_cancelled w t = true -> is_cancelled (process_timers fuel q w).2 t = true.
Proof.
  apply (keeps_process_timers (fun w => is_cancelled w t = true)); try done; clear w.
  - intros w Hw. eapply is_cancelled_evolves; [apply interfere_spec|exact Hw].
  - intros w t' st d Ht Hw. eapply (is_cancelled_evolves [t'] w); [|exact Hw].
    eapply evolves_insert; try done. intros []. by left.
Qed.
