(* ===== verification/TimerServiceTheorems.v ===== *)
(** * What the timer queue and its worker guarantee *)

From Stdlib Require Import ZArith.
From stdpp Require Import prelude gmap list strings.
From S2P Require Import Prelude Errors Timer TimerQueue TimerQueueProps TimerQueueTheorems TimerService TimerServiceProps.
#[local] Open Scope list_scope.

Definition taken (s : service) : requests := match worker s with processing q => q | _ => [] end.

Record service_inv (s : service) : Prop := {
  i_wf : wf (sw s);
  i_pending : pending_ok (member_set (sw s)) (taken s) (timers (sw s));
  i_assert : worker s <> terminated true;
  i_idle : m_idle s = true -> (worker s = no_thread \/ worker s = ended) /\ added (queue_of s) = [];
  i_thread : worker s = no_thread -> m_idle s = true \/ aborted s = true;
  i_ended : worker s = ended -> m_idle s = true \/ aborted s = true;
  i_asleep : worker s = asleep -> queue_of s <> [] -> 0 < pending_notify s;
  i_told : worker s = asleep -> aborted s = true -> sd s = sd_notify;
  i_sd : sd s <> sd_none -> m_atomic_abort s = true;
  i_aborted : sd s = sd_notify \/ sd s = sd_join \/ sd s = sd_done -> aborted s = true
}.

Lemma interfere_one_members i w : member_set (interfere_one i w) = member_set w.
Proof. unfold member_set, members. by rewrite (proj1 (interfere_one_same i w)). Qed.

Lemma interfere_one_wf i w : wf w -> wf (interfere_one i w).
Proof.
  intros H. unfold wf. rewrite (proj1 (interfere_one_same i w)).
  eapply wf_queue_evolves; [apply interfere_one_evolves|exact H].
Qed.

(** What users may do in [l_world] touches neither the requests nor [m_abort]. *)
Lemma in_world_same i w :
  in_world i = true -> m_request_queue (timers (interfere_one i w)) = m_request_queue (timers w) /\
    queue_aborted (timers (interfere_one i w)) = queue_aborted (timers w).
Proof.
  destruct i; simpl; try done. intros _. rewrite set_frequency_world. by destruct (states (timers w) !! t).
Qed.

Lemma cancel_queue t w :
  let w' := interfere_one (user_cancel t) w in
  added (m_request_queue (timers w')) = added (m_request_queue (timers w)) /\
  queue_aborted (timers w') = queue_aborted (timers w).
Proof.
  unfold interfere_one. cbn [timers set_timers]. rewrite cancel_world.
  destruct (states (timers w) !! t); [|done]. destruct (queue_alive (timers w)); simpl; [|done].
  by rewrite added_app, app_nil_r.
Qed.

Lemma make_aborted i w :
  makes_request i = true -> queue_aborted (timers (interfere_one i w)) = queue_aborted (timers w).
Proof.
  destruct i; simpl; try done; intros _.
  - unfold make_timer. by rewrite make_timer_impl_world.
  - unfold make_one_shot_timer. by rewrite make_timer_impl_world.
  - apply (cancel_queue t w).
Qed.

Ltac inv_simple := constructor; simpl; try done; try (by intros; naive_solver).

Lemma new_service_inv now : service_inv (new_service now).
Proof.
  split; try done; simpl.
  - apply wf_queue_empty.
  - split; simpl; try done; [intros t r H; by apply not_elem_of_nil in H|constructor|intros t H; by apply not_elem_of_nil in H].
  - auto.
  - auto.
  - intros [|[]]; done.
Qed.

Lemma ensure_inv s :
  service_inv s -> aborted s = false ->
  let s' := ensure_worker_thread s in
  service_inv s' /\ m_idle s' = false /\ worker s' <> no_thread /\ worker s' <> ended /\ aborted s' = false /\
  timers (sw s') = timers (sw s).
Proof.
  intros [Hwf Hp Ha Hi Ht He Hs Hto Hsd Hab] Hna. unfold ensure_worker_thread.
  destruct (m_idle s) eqn:Ei; simpl.
  - destruct (Hi eq_refl) as [Hw Hq]. split; [|done]. split; simpl; try done.
    + apply wf_queue_empty.
    + unfold taken in *. simpl. eapply pending_ok_sub; [|destruct Hw as [Hw|Hw]; rewrite Hw in Hp; exact Hp]. set_solver.
  - split_ands; try done; [split; try done; by rewrite Ei|..]; intros Hw.
    + destruct (Ht Hw) as [|]; congruence.
    + destruct (He Hw) as [|]; congruence.
Qed.

Lemma add_timer_inv i s s' :
  service_inv s -> makes_request i = true -> add_timer i s = Some s' -> service_inv s'.
Proof.
  intros Hinv Hmk. unfold add_timer. destruct (aborted s) eqn:Ea; [done|]. intros [= <-].
  destruct (ensure_inv s Hinv Ea) as ([Hwf Hp Ha Hi Ht He Hs Hto Hsd Hab] & Hidle & Hnt & Hne & Hna & HT).
  split; simpl; try done.
  - by apply interfere_one_wf.
  - rewrite interfere_one_members. by apply pending_ok_one.
  - by rewrite Hidle.
  - intros. lia.
  - unfold aborted in *. simpl. rewrite make_aborted by done. by rewrite Hna.
  - intros H. specialize (Hab H). unfold aborted in *. simpl. by rewrite make_aborted.
Qed.

Lemma cancel_inv t s :
  service_inv s -> service_inv (set_pending (S (pending_notify s)) (set_sw (interfere_one (user_cancel t) (sw s)) s)).
Proof.
  intros [Hwf Hp Ha Hi Ht He Hs Hto Hsd Hab]. destruct (cancel_queue t (sw s)) as [Hq Hna].
  pose proof (interfere_one_wf (user_cancel t) _ Hwf) as Hwf'.
  pose proof (pending_ok_one _ _ (user_cancel t) _ Hp) as Hp'.
  rewrite <-(interfere_one_members (user_cancel t)) in Hp'. cbv zeta in *.
  revert Hq Hna Hwf' Hp'. generalize (interfere_one (user_cancel t) (sw s)). intros w' Hq Hna Hwf' Hp'.
  split; unfold aborted, queue_of in *; simpl; rewrite ?Hq, ?Hna; try done.
  intros. lia.
Qed.

Lemma world_inv i s :
  service_inv s -> in_world i = true -> service_inv (set_sw (interfere_one i (sw s)) s).
Proof.
  intros [Hwf Hp Ha Hi Ht He Hs Hto Hsd Hab] Hi'. destruct (in_world_same i (sw s) Hi') as [Hq Hna].
  split; unfold aborted, queue_of in *; simpl; rewrite ?Hq, ?Hna; try done.
  - by apply interfere_one_wf.
  - rewrite interfere_one_members. by apply pending_ok_one.
Qed.

(** The worker moves on to a state where it holds nothing. *)
Lemma worker_inv pc s :
  service_inv s -> taken s = [] -> m_idle s = false ->
  match pc with at_lock | awake _ => True | asleep => queue_of s = [] /\ aborted s = false | ended => aborted s = true | _ => False end ->
  service_inv (set_worker pc s).
Proof.
  intros [Hwf Hp Ha Hi Ht He Hs Hto Hsd Hab] Htk Hid Hpc. split; try done; unfold aborted, queue_of, taken in *; simpl.
  - by destruct pc; rewrite Htk in Hp.
  - by destruct pc.
  - intros H. simpl in H. congruence.
  - intros ->. done.
  - intros ->. by right.
  - intros ->. by destruct Hpc as [-> _].
  - intros ->. destruct Hpc as [_ ->]. done.
Qed.

Lemma notify_inv n s :
  service_inv s -> service_inv (notify (set_pending n s)).
Proof.
  intros Hinv. pose proof Hinv as [Hwf Hp Ha Hi Ht He Hs Hto Hsd Hab].
  unfold notify. destruct (worker s) eqn:Ew; simpl; rewrite ?Ew.
  3: { assert (Hid : m_idle s = false) by (destruct (m_idle s); [destruct (Hi eq_refl) as [[|] _]; congruence|done]).
       assert (H : service_inv (set_worker (awake false) s)) by (apply worker_inv; try done; unfold taken; by rewrite Ew).
       by destruct H. }
  all: split; unfold taken, aborted, queue_of in *; simpl in *; rewrite ?Ew in *; try done.
Qed.

Lemma after_wait_inv s :
  service_inv s -> taken s = [] -> m_idle s = false -> service_inv (after_wait s).
Proof.
  intros Hinv Htk Hid. unfold after_wait. destruct (aborted s) eqn:Ea; [by apply worker_inv|].
  pose proof Hinv as [Hwf Hp Ha Hi Ht He Hs Hto Hsd Hab]. split; try done; simpl.
  - unfold taken. simpl. rewrite Htk in Hp. by apply pending_ok_take.
  - intros H. simpl in H. congruence.
Qed.

Lemma internal_empty_ok w :
  wf w -> (internal_empty w).1 = Ok (bool_decide (m_timers (internal w) = [])).
Proof.
  intros Hwf. unfold internal_empty. rewrite (bind_Ok (gets internal) _ w (internal w) w) by done.
  rewrite (bind_Ok (massert _) _ w tt w); [done|].
  unfold massert. rewrite bool_decide_eq_true_2; [done|].
  rewrite <-(size_dom (D := gset timer_id) (m_iterator_mapper (internal w))), <-(length_fmap snd). replace (dom (m_iterator_mapper (internal w))) with (member_set w).
  { apply length_member_set, Hwf. }
  apply set_eq. intros t. rewrite elem_of_member_set, elem_of_dom. unfold members. rewrite list_elem_of_fmap. split.
  - intros ([n t'] & -> & H). exists n. by apply (wf_map _ _ Hwf).
  - intros [n H]. exists (n, t). split; [done|]. by apply (wf_map _ _ Hwf).
Qed.

Lemma wait_inv to s :
  service_inv s -> taken s = [] -> m_idle s = false -> service_inv (wait to s).
Proof.
  intros Hinv Htk Hid. unfold wait, has_work. case_bool_decide as Hq; simpl; [by apply after_wait_inv|].
  destruct (aborted s) eqn:Ea; [by apply after_wait_inv|].
  assert (Hnil : queue_of s = []) by (by destruct (queue_of s)).
  destruct to; simpl; [|by apply worker_inv].
  rewrite internal_empty_ok by apply Hinv. case_bool_decide; [|by apply after_wait_inv].
  pose proof Hinv as [Hwf Hp Ha Hi Ht He Hs Hto Hsd Hab]. split; try done; simpl.
  - unfold taken in *. simpl. by rewrite Htk in Hp.
  - unfold queue_of in *. simpl. rewrite Hnil. auto.
  - auto.
Qed.

Lemma process_inv fuel q l s s' :
  service_inv s -> worker s = processing q -> process fuel q l s = Some s' ->
  worker s' = terminated false \/ service_inv s'.
Proof.
  intros [Hwf Hp Ha Hi Ht He Hs Hto Hsd Hab] Ew. unfold taken in Hp. rewrite Ew in *.
  assert (Hid : m_idle s = false) by (destruct (m_idle s); [destruct (Hi eq_refl) as [[|] _]; congruence|done]).
  unfold process. set (w0 := set_script l (sw s)).
  pose proof (process_timers_safe fuel q w0 Hwf (pending_requests_ok q w0 Hwf Hp)) as Hsafe.
  pose proof (process_timers_pending fuel q _ [] w0 (pending_ok_batch _ _ _ Hp)) as Hpend.
  pose proof (process_timers_aborted fuel q w0) as Habt.
  destruct (process_timers fuel q w0) as [[[n|]|e|] w']; intros [= <-]; [|by left|done].
  right. destruct Hsafe as [Hwf' Hsub]. simpl in Hpend, Habt.
  split; unfold aborted, queue_of, taken in *; simpl; try done.
  - eapply pending_ok_sub; [exact Hsub|exact Hpend].
  - by rewrite Hid.
  - intros H. apply Habt. simpl. auto.
Qed.

Lemma shutdown_lock_inv s :
  service_inv s -> sd s = sd_entered -> service_inv (shutdown_lock s).
Proof.
  intros Hinv Hent. pose proof Hinv as [Hwf Hp Ha Hi Ht He Hs Hto Hsd Hab].
  assert (Hat : m_atomic_abort s = true) by (apply Hsd; by rewrite Hent).
  assert (Hp' : pending_ok (member_set (sw s)) (taken s) (abort_queue (timers (sw s)))) by (by apply pending_ok_abort).
  unfold shutdown_lock, taken in *. destruct (worker s) eqn:Ew.
  1: { split; unfold taken, aborted, queue_of in *; simpl in *; rewrite ?Ew in *; try done; [by destruct Hp|auto]. }
  all: split; unfold taken, aborted, queue_of in *; simpl in *; rewrite ?Ew in *; try done.
  all: try (by intros Hm; destruct (Hi Hm) as [? _]); auto.
Qed.

Lemma shutdown_exchange_inv s : service_inv s -> service_inv (shutdown_exchange s).
Proof.
  intros Hinv. unfold shutdown_exchange. destruct (m_atomic_abort s) eqn:E; [done|].
  pose proof Hinv as [Hwf Hp Ha Hi Ht He Hs Hto Hsd Hab].
  assert (Hn : sd s = sd_none) by (destruct (sd s); [done|..]; exfalso; specialize (Hsd ltac:(done)); congruence).
  split; unfold taken, aborted, queue_of in *; simpl in *; rewrite ?Hn in *; try done.
  - intros Hw Hq. by specialize (Hto Hw Hq).
  - intros [|[]]; done.
Qed.

Lemma shutdown_notify_inv s : service_inv s -> sd s = sd_notify -> service_inv (set_sd sd_join (notify s)).
Proof.
  intros Hinv Hn. pose proof (notify_inv (pending_notify s) s Hinv) as H.
  replace (set_pending (pending_notify s) s) with s in H by (by destruct s).
  assert (Hw : worker (notify s) <> asleep) by (unfold notify; by destruct (worker s) eqn:E; simpl; rewrite ?E).
  assert (Hsd' : sd (notify s) = sd_notify) by (unfold notify; by destruct (worker s)).
  destruct H as [Hwf Hp Ha Hi Ht He Hs Hto Hsd Hab].
  split; unfold taken, aborted, queue_of in *; simpl in *; try done.
  - intros _. apply Hsd. by rewrite Hsd'.
  - intros _. apply Hab. by left.
Qed.

Lemma shutdown_join_inv s :
  service_inv s -> sd s = sd_join -> worker s = ended -> service_inv (set_sd sd_done (set_worker no_thread s)).
Proof.
  intros [Hwf Hp Ha Hi Ht He Hs Hto Hsd Hab] Hj Hw.
  split; unfold taken, aborted, queue_of in *; simpl in *; rewrite ?Hw, ?Hj in *; try done; auto.
  intros Hid. split; [by left|]. by destruct (Hi Hid).
Qed.

Lemma step_inv_service l s s' :
  service_inv s -> step l s = Some s' -> worker s' = terminated false \/ service_inv s'.
Proof.
  intros Hinv Hstep. unfold step in Hstep.
  assert (Hidle : worker s <> no_thread -> worker s <> ended -> m_idle s = false).
  { intros H1 H2. destruct (m_idle s) eqn:E; [|done]. by destruct (i_idle _ Hinv E) as [[|] _]. }
  assert (Hbusy : match worker s with at_lock | awake _ | asleep => taken s = [] /\ m_idle s = false | _ => True end).
  { unfold taken. destruct (worker s); try done; split; try done; by apply Hidle. }
  destruct l; try destruct (worker s) eqn:Ew; try done; step_inv Hstep.
  all: try (by eapply process_inv).
  all: right.
  all: try (by eapply add_timer_inv; [exact Hinv| |exact Hstep]).
  all: try (by apply cancel_inv).
  all: try (by apply world_inv).
  all: try (by apply notify_inv).
  all: try (by apply shutdown_exchange_inv).
  all: try (by apply shutdown_lock_inv).
  all: try (by apply shutdown_notify_inv).
  all: try (by apply shutdown_join_inv).
  all: destruct Hbusy as [Htk Hid].
  all: try (by apply wait_inv).
  all: by apply worker_inv.
Qed.

Lemma reachable_inv now s :
  reachable step (new_service now) s -> worker s = terminated false \/ service_inv s.
Proof.
  apply (reachable_invariant step (new_service now) (fun s => worker s = terminated false \/ service_inv s)); [right; apply new_service_inv|].
  intros l s1 s2 [Ht|Hinv] Hstep; [|by eapply step_inv_service].
  unfold step in Hstep. by rewrite Ht in Hstep.
Qed.

(** ** No timer is forgotten *)

(** The steps that nobody but the worker, and a user about to notify it,
    makes. *)
Definition internal_label (l : label) : bool :=
  match l with l_notify | l_worker_lock | l_worker_process _ _ => true | _ => false end.

(** What has become of a timer that was added. *)
Definition served (t : timer_id) (w : queue_world) : Prop :=
  t ∈ member_set w \/ t ∈ posted w \/ is_cancelled w t = true.

Lemma after_requests_served t q ms :
  t ∈ added q \/ t ∈ ms -> t ∈ after_requests q ms \/ (t, remove) ∈ q.
Proof.
  revert ms. induction q as [|[t' []] q IH]; intros ms H; simpl in *.
  - destruct H as [H|H]; [by apply not_elem_of_nil in H|by left].
  - destruct (IH ({[t']} ∪ ms)) as [?|?]; [|by left|right; by right].
    rewrite elem_of_union, elem_of_singleton. rewrite elem_of_added, elem_of_cons in *.
    naive_solver.
  - destruct (decide (t = t')) as [->|Hne]; [right; by left|].
    destruct (IH (ms ∖ {[t']})) as [?|?]; [|by left|right; by right].
    rewrite elem_of_difference, elem_of_singleton. rewrite elem_of_added, elem_of_cons in *.
    naive_solver.
Qed.

(** With positive frequencies and enough fuel a batch is a step. *)
Lemma process_serves q s :
  service_inv s -> worker s = processing q -> positive_timers (states (timers (sw s))) -> script (sw s) = [] ->
  exists fuel s', step (l_worker_process fuel []) s = Some s' /\
    (worker s' = terminated false \/
     (service_inv s' /\ worker s' = at_lock /\ positive_timers (states (timers (sw s'))) /\ script (sw s') = [] /\
      queue_of s' = queue_of s /\ aborted s' = aborted s /\
      forall t, t ∈ added q -> served t (sw s'))).
Proof.
  intros Hinv Ew Hpos Hscr. pose proof Hinv as [Hwf Hp _ _ _ _ _ _ _ _]. unfold taken in Hp. rewrite Ew in Hp.
  set (fuel := S (size (after_requests q (member_set (sw s))))). set (w0 := set_script [] (sw s)).
  pose proof (pending_requests_ok q w0 Hwf Hp) as Hq.
  assert (Hpos0 : positive_world w0) by (split; [done|constructor]).
  pose proof (process_timers_batch fuel q w0 Hwf Hq Hpos0 ltac:(unfold fuel; apply Nat.lt_succ_diag_r)) as Hb.
  destruct (process_timers_alone fuel q w0 eq_refl) as [HQ HA].
  exists fuel. unfold step. rewrite Ew. simpl. unfold process. fold w0.
  pose proof (process_inv fuel q [] s) as Hpi. unfold process in Hpi. fold w0 in Hpi.
  destruct (process_timers fuel q w0) as [[[n|]|e|] w'] eqn:E; [|done| |done].
  - eexists. split; [reflexivity|]. right.
    destruct (Hpi _ Hinv Ew eq_refl) as [|Hinv']; [done|]. split; [exact Hinv'|].
    destruct Hb as (Hwf' & [Hpos' _] & now & L & Hb). split_ands; try done.
    intros t Ht. unfold served. destruct (after_requests_served t q (member_set w0) (or_introl Ht)) as [Hin|Hin].
    + destruct (Z.le_gt_cases (deadline w0 t) now) as [Hle|Hlt].
      * destruct (b_all_due _ _ _ _ _ _ Hb t Hin Hle); [|by right; right].
        right; left. simpl. rewrite (b_posted _ _ _ _ _ _ Hb), elem_of_app. by right.
      * left. apply (b_members _ _ _ _ _ _ Hb). auto.
    + right; right. pose proof (process_timers_cancelled fuel q t w0 (rq_cancelled _ _ Hq t Hin)) as Hc.
      by rewrite E in Hc.
  - eexists. split; [reflexivity|]. by left.
Qed.

Lemma reachable_script now s : reachable step (new_service now) s -> script (sw s) = [].
Proof.
  assert (Hone : forall i w, script w = [] -> script (interfere_one i w) = []) by (intros i w <-; by destruct i).
  apply (reachable_invariant step (new_service now) (fun s => script (sw s) = [])); [done|].
  clear s. intros l s s' H Hstep. unfold step in Hstep. destruct l; destruct (worker s) eqn:Ew; try done; step_inv Hstep.
  all: unfold add_timer, ensure_worker_thread, notify, wait, after_wait, shutdown_exchange, shutdown_lock, process in *; simpl in *.
  all: repeat (case_match; simplify_eq/=; try done); try (by apply Hone); try (by apply (Hone (user_cancel _))).
  all: done.
Qed.

(** The worker is about to take the lock. *)
Definition ready (s : service) : bool :=
  match worker s with at_lock | awake _ => true | _ => false end.

Lemma lock_takes_all s :
  service_inv s -> ready s = true -> aborted s = false -> queue_of s <> [] ->
  exists s', step l_worker_lock s = Some s' /\ worker s' = processing (queue_of s) /\
    states (timers (sw s')) = states (timers (sw s)) /\ script (sw s') = script (sw s) /\ service_inv s'.
Proof.
  intros Hinv Hw Ha Hq.
  assert (Hwork : has_work s = true) by (unfold has_work; by rewrite bool_decide_eq_true_2).
  assert (E : step l_worker_lock s = Some (after_wait s)).
  { unfold step, ready in *. destruct (worker s); try done; unfold wait; by rewrite Hwork. }
  exists (after_wait s). unfold after_wait in *. rewrite Ha in *. split_ands; try done.
  destruct (step_inv_service _ _ _ Hinv E) as [|]; done.
Qed.

(** From the lock on, everything in the queue is served. *)
Lemma serve_from_lock t s :
  service_inv s -> ready s = true -> aborted s = false ->
  positive_timers (states (timers (sw s))) -> script (sw s) = [] -> t ∈ added (queue_of s) ->
  exists ls s', run step ls s = Some s' /\ Forall (fun l => internal_label l = true) ls /\
    (worker s' = terminated false \/ served t (sw s')).
Proof.
  intros Hinv Hw Ha Hpos Hscr Ht.
  assert (Hq : queue_of s <> []) by (intros E; rewrite E in Ht; by apply not_elem_of_nil in Ht).
  destruct (lock_takes_all s Hinv Hw Ha Hq) as (s1 & E1 & Hw1 & Hs1 & Hsc1 & Hinv1).
  destruct (process_serves _ s1 Hinv1 Hw1) as (fuel & s2 & E2 & H2); [by rewrite Hs1|by rewrite Hsc1|].
  exists [l_worker_lock; l_worker_process fuel []], s2. simpl. rewrite E1, E2. split_ands; [done|by repeat constructor|].
  destruct H2 as [H2|(_ & _ & _ & _ & _ & _ & H2)]; [by left|right; by apply H2].
Qed.

(** C12.  The worker never fails an assertion.  No wake-up is lost: when it
    sleeps although there is a request or a shutdown, somebody is about to
    notify it.  And while the queue is not shut down, a timer that waits to be
    added has a running worker. *)
Theorem timer_service_is_safe now s :
  reachable step (new_service now) s ->
  worker s <> terminated true /\
  (worker s = asleep -> has_work s = true -> 0 < pending_notify s \/ sd s = sd_notify) /\
  (worker s <> terminated false -> aborted s = false -> added (queue_of s) <> [] ->
   m_idle s = false /\ worker s <> no_thread /\ worker s <> ended).
Proof.
  intros [Ht|Hinv]%reachable_inv; [rewrite Ht; naive_solver|].
  destruct Hinv as [Hwf Hp Ha Hi Ht He Hs Hto Hsd Hab]. split_ands; [done| |].
  - intros Hw. unfold has_work. rewrite orb_true_iff, bool_decide_eq_true. naive_solver.
  - intros _ Hna Hq. destruct (m_idle s); [naive_solver|]. split_ands; [done|intros H; naive_solver..].
Qed.

(** C13.  No timer is forgotten: from every state in which the queue is not shut
    down and every periodic timer has a positive frequency, steps of the worker and
    the [notify_one]s that users still owe it lead to a state in which the timer
    that was added is in the containers, was fired or was cancelled, or in which
    the worker has terminated the program: the executor of a timer that it fired
    was shut down. *)
Theorem no_timer_is_forgotten now s t :
  reachable step (new_service now) s -> worker s <> terminated false -> aborted s = false ->
  positive_timers (states (timers (sw s))) -> t ∈ added (queue_of s) ->
  exists ls s', run step ls s = Some s' /\ Forall (fun l => internal_label l = true) ls /\
    (worker s' = terminated false \/ served t (sw s')).
Proof.
  intros Hr Hnt Ha Hpos Ht. pose proof (reachable_script now s Hr) as Hscr.
  apply reachable_inv in Hr as [?|Hinv]; [done|].
  assert (Hq : queue_of s <> []) by (intros E; rewrite E in Ht; by apply not_elem_of_nil in Ht).
  pose proof Hinv as [Hwf Hp Has Hi Hth He Hs Hto Hsd Hab].
  assert (Hidle : m_idle s = false).
  { destruct (m_idle s); [|done]. destruct (Hi eq_refl) as [_ Hn]. rewrite Hn in Ht. by apply not_elem_of_nil in Ht. }
  assert (Hlock : forall ls1 s1, run step ls1 s = Some s1 -> Forall (fun l => internal_label l = true) ls1 ->
    service_inv s1 -> ready s1 = true -> aborted s1 = false ->
    positive_timers (states (timers (sw s1))) -> script (sw s1) = [] -> queue_of s1 = queue_of s ->
    exists ls s', run step ls s = Some s' /\ Forall (fun l => internal_label l = true) ls /\
      (worker s' = terminated false \/ served t (sw s'))).
  { intros ls1 s1 Hr1 Hl1 Hi1 Hw1 Ha1 Hp1 Hs1 Hq1.
    destruct (serve_from_lock t s1) as (ls2 & s2 & Hr2 & Hl2 & H2); try done; [by rewrite Hq1|].
    exists (ls1 ++ ls2), s2. rewrite run_app, Hr1. split_ands; [done|by apply Forall_app|done]. }
  destruct (worker s) as [| | |to|q| |[]] eqn:Ew; try done.
  - by destruct (Hth eq_refl); congruence.
  - apply (Hlock [] s); auto. unfold ready. by rewrite Ew.
  - specialize (Hs eq_refl Hq). set (s1 := notify (set_pending (pending_notify s - 1) s)).
    assert (E1 : step l_notify s = Some s1) by (unfold step; rewrite Ew; destruct (decide (pending_notify s = 0)); [lia|done]).
    assert (Es1 : s1 = set_worker (awake false) (set_pending (pending_notify s - 1) s)) by (unfold s1, notify; simpl; by rewrite Ew).
    apply (Hlock [l_notify] s1); rewrite ?Es1; auto; [cbn [run]; by rewrite E1, Es1|].
    destruct (step_inv_service _ _ _ Hinv E1) as [Hx|Hx]; rewrite Es1 in Hx; done.
  - apply (Hlock [] s); auto. unfold ready. by rewrite Ew.
  - destruct (process_serves q s Hinv Ew Hpos Hscr) as (fuel & s1 & E1 & H1).
    assert (Hr1 : run step [l_worker_process fuel []] s = Some s1) by (cbn [run]; by rewrite E1).
    destruct H1 as [H1|(Hinv1 & Hw1 & Hp1 & Hs1 & Hq1 & Ha1 & _)].
    + exists [l_worker_process fuel []], s1. split_ands; [done|by repeat constructor|by left].
    + apply (Hlock [l_worker_process fuel []] s1); auto; [unfold ready; by rewrite Hw1|congruence].
  - by destruct (He eq_refl); congruence.
Qed.

(** ** Witnesses *)

(** A timer was made and processed, the worker sleeps, a second one was made. *)
Definition busy_service : service :=
  after step (new_service 100)
    [l_make 1 10 5; l_notify; l_worker_lock; l_worker_process 5 [[tick 3]]; l_worker_lock; l_make_one_shot 2 5].

Lemma busy_service_reachable : reachable step (new_service 100) busy_service.
Proof. apply after_reachable. Qed.

Lemma timer_service_is_safe_witness :
  worker busy_service = asleep /\ has_work busy_service = true /\ 0 < pending_notify busy_service.
Proof.
  destruct (timer_service_is_safe 100 busy_service busy_service_reachable) as (_ & H & _).
  assert (Hw : worker busy_service = asleep) by (by vm_compute).
  assert (Hh : has_work busy_service = true) by (by vm_compute).
  split; [exact Hw|]. split; [exact Hh|]. destruct (H Hw Hh) as [|Hsd]; [done|]. vm_compute in Hsd. discriminate Hsd.
Defined.

Lemma busy_service_positive : positive_timers (states (timers (sw busy_service))).
Proof.
  intros t st H.
  assert (Hall : map_Forall (fun _ st => m_is_oneshot st = true \/ (0 < of_size_t (m_frequency st))%Z)
    (states (timers (sw busy_service)))) by (apply (bool_decide_unpack _); by vm_compute).
  intros Hos. destruct (Hall t st H); [congruence|done].
Qed.

Lemma no_timer_is_forgotten_witness :
  exists ls s', run step ls busy_service = Some s' /\ Forall (fun l => internal_label l = true) ls /\
    (worker s' = terminated false \/ served 1 (sw s')).
Proof.
  apply (no_timer_is_forgotten 100 busy_service 1).
  - exact busy_service_reachable.
  - by vm_compute.
  - by vm_compute.
  - exact busy_service_positive.
  - apply (bool_decide_unpack _). by vm_compute.
Defined.
