(* ===== verification/TimerShutdown.v ===== *)
(** * The timer queue: its shutdown

    [shutdown] and [~timer_queue] of [source/timers/timer_queue.cpp]: the
    shutdown of a queue ends, whatever its worker is doing, and leaves nothing
    running. *)

From Stdlib Require Import ZArith.
From stdpp Require Import prelude gmap list strings.
From S2P Require Import Prelude Errors Timer TimerQueue TimerQueueProps TimerQueueTheorems TimerService TimerServiceProps TimerServiceTheorems.
#[local] Open Scope list_scope.

(** [shutdown_requested()]. *)
Definition shutdown_requested (s : service) : bool := m_atomic_abort s.

(** [~timer_queue] after its [shutdown()]: the assertion that the worker is not
    joinable. *)
Definition destruct_queue (s : service) : outcome exn unit :=
  match worker s with no_thread => Ok tt | _ => Abort end.

(** What [shutdown] knows of the worker at each of its steps. *)
Record stop_inv (s : service) : Prop := {
  t_service : service_inv s;
  t_joins : sd s = sd_notify \/ sd s = sd_join -> worker s <> no_thread;
  t_done : sd s = sd_done -> worker s = no_thread
}.

(** The steps of the thread that shuts the queue down. *)
Definition shuts_down (l : label) : bool :=
  match l with l_shutdown | l_shutdown_lock | l_shutdown_notify | l_shutdown_join => true | _ => false end.

Lemma sd_kept l s s' :
  step l s = Some s' -> shuts_down l = false ->
  sd s' = sd s /\ (worker s' = no_thread -> worker s = no_thread) /\ (worker s = no_thread -> aborted s = true -> worker s' = no_thread).
Proof.
  intros H Hl. unfold step in H. destruct (worker s) as [| | |to|q| |b] eqn:Ew; destruct l; try done; step_inv H.
  all: unfold add_timer, ensure_worker_thread, notify, wait, after_wait, process in *; simpl in *.
  all: repeat (case_match; simplify_eq/=; try done); rewrite ?Ew; split_ands; try done; try congruence.
  all: intros; simpl in *; try congruence.
Qed.

Lemma stop_inv_step l s s' : stop_inv s -> step l s = Some s' -> worker s' = terminated false \/ stop_inv s'.
Proof.
  intros [Hs Hj Hd] H. destruct (step_inv_service _ _ _ Hs H) as [Ht|Hs']; [by left|right].
  assert (Hab := i_aborted s Hs).
  destruct (shuts_down l) eqn:Hl.
  - constructor; [done|..]; unfold step in H; destruct (worker s) as [| | |to|q| |b] eqn:Ew; destruct l; try done; step_inv H;
      unfold shutdown_exchange, shutdown_lock, notify in *; simpl in *;
      repeat (case_match; simplify_eq/=; try done); rewrite ?Ew in *; try naive_solver; intros _; congruence.
  - destruct (sd_kept l s s' H) as (E1 & E2 & E3); [done|].
    constructor; [done|rewrite E1; naive_solver|]. rewrite E1. intros Hsd. apply E3; [by apply Hd|]. apply Hab. by right; right.
Qed.

Lemma stop_reachable now s : reachable step (new_service now) s -> worker s = terminated false \/ stop_inv s.
Proof.
  apply (reachable_invariant step (new_service now) (fun s => worker s = terminated false \/ stop_inv s)).
  - right. constructor; [apply new_service_inv|simpl; intros [?|?]; discriminate|done].
  - intros l s1 s2 [Ht|Hs] Hl; [unfold step in Hl; by rewrite Ht in Hl|by eapply stop_inv_step].
Qed.

(** The steps of the worker and of the thread that shuts the queue down. *)
Definition shutdown_label (l : label) : bool :=
  match l with
  | l_worker_lock | l_worker_process _ _ | l_shutdown_lock | l_shutdown_notify | l_shutdown_join => true
  | _ => false
  end.

Definition stopped (s : service) : Prop := worker s = terminated false \/ (sd s = sd_done /\ worker s = no_thread).

Definition stops (s : service) : Prop :=
  exists ls s', run step ls s = Some s' /\ Forall (fun l => shutdown_label l = true) ls /\ stopped s'.

Lemma stops_after ls s s1 :
  run step ls s = Some s1 -> Forall (fun l => shutdown_label l = true) ls -> stops s1 -> stops s.
Proof.
  intros H Hl (ls' & s' & H' & Hl' & Hs). exists (ls ++ ls'), s'. rewrite run_app, H. split_ands; [done|by apply Forall_app|done].
Qed.

Lemma stops_one l s s1 : step l s = Some s1 -> shutdown_label l = true -> stops s1 -> stops s.
Proof. intros H Hl. apply (stops_after [l]); [simpl; by rewrite H|by constructor]. Qed.

(** The worker that is woken, or takes the lock, ends. *)
Lemma join_ended s : sd s = sd_join -> worker s = ended -> stops s.
Proof.
  intros Hsd Hw. exists [l_shutdown_join], (set_sd sd_done (set_worker no_thread s)).
  split_ands; [simpl; unfold step; by rewrite Hw, Hsd|by constructor|by right].
Qed.

Lemma join_ready s : sd s = sd_join -> aborted s = true -> ready s = true -> stops s.
Proof.
  intros Hsd Ha Hr. apply (stops_one l_worker_lock s (set_worker ended s)); [|done|by apply join_ended].
  assert (Hw : has_work s = true) by (unfold has_work; rewrite Ha; by rewrite orb_true_r).
  unfold step, ready in *. destruct (worker s); try done; unfold wait; rewrite Hw; unfold after_wait; by rewrite Ha.
Qed.

Lemma join_stops s :
  stop_inv s -> sd s = sd_join -> positive_timers (states (timers (sw s))) -> script (sw s) = [] -> stops s.
Proof.
  intros [Hs Hj _] Hsd Hpos Hscr. assert (Ha : aborted s = true) by (apply (i_aborted s Hs); auto).
  destruct (worker s) as [| | |to|q| |[]] eqn:Ew.
  - by destruct Hj; auto.
  - apply join_ready; [done..|]. unfold ready. by rewrite Ew.
  - assert (H := i_told s Hs Ew Ha). congruence.
  - apply join_ready; [done..|]. unfold ready. by rewrite Ew.
  - destruct (process_serves q s Hs Ew Hpos Hscr) as (fuel & s1 & E1 & H1).
    apply (stops_one (l_worker_process fuel []) s s1); [done|done|].
    destruct H1 as [H1|(Hs1 & Hw1 & _ & _ & _ & Ha1 & _)].
    + exists [], s1. split_ands; [done|by constructor|by left].
    + apply join_ready; [|congruence|unfold ready; by rewrite Hw1].
      by destruct (sd_kept _ _ _ E1) as [-> _].
  - by apply join_ended.
  - by destruct (i_assert s Hs).
  - exists [], s. split_ands; [done|by constructor|by left].
Qed.

(** A step of the shutting down thread is possible unless the program has ended. *)
Lemma ended_or_running s : stop_inv s -> stops s \/ (worker s <> terminated false /\ worker s <> terminated true).
Proof.
  intros Hs. destruct (worker s) as [| | |to|q| |[]] eqn:Ew; try (by right).
  - by destruct (i_assert s (t_service s Hs)).
  - left. exists [], s. split_ands; [done|by constructor|by left].
Qed.

Lemma step_running s :
  worker s <> terminated false -> worker s <> terminated true ->
  step l_shutdown_lock s = (if sd s is sd_entered then Some (shutdown_lock s) else None) /\
  step l_shutdown_notify s = (if sd s is sd_notify then Some (set_sd sd_join (notify s)) else None).
Proof. intros H1 H2. unfold step. by destruct (worker s) as [| | |to|q| |[]]. Qed.

Lemma notify_stops s :
  stop_inv s -> sd s = sd_notify -> positive_timers (states (timers (sw s))) -> script (sw s) = [] -> stops s.
Proof.
  intros Hs Hsd Hpos Hscr. destruct (ended_or_running s Hs) as [?|[H1 H2]]; [done|].
  destruct (step_running s H1 H2) as [_ E]. rewrite Hsd in E.
  assert (Hsw : sw (set_sd sd_join (notify s)) = sw s) by (unfold notify; by destruct (worker s)).
  apply (stops_one _ _ _ E); [done|].
  destruct (stop_inv_step _ _ _ Hs E) as [Ht|Hs1].
  - exists [], (set_sd sd_join (notify s)). split_ands; [done|by constructor|by left].
  - apply join_stops; [done| |by rewrite Hsw|by rewrite Hsw]. unfold notify. by destruct (worker s).
Qed.

Lemma entered_stops s :
  stop_inv s -> sd s = sd_entered -> positive_timers (states (timers (sw s))) -> script (sw s) = [] -> stops s.
Proof.
  intros Hs Hsd Hpos Hscr. destruct (ended_or_running s Hs) as [?|[H1 H2]]; [done|].
  destruct (step_running s H1 H2) as [E _]. rewrite Hsd in E. apply (stops_one _ _ _ E); [done|].
  destruct (stop_inv_step _ _ _ Hs E) as [Ht|Hs1].
  { exists [], (shutdown_lock s). split_ands; [done|by constructor|by left]. }
  assert (H : states (timers (sw (shutdown_lock s))) = states (timers (sw s)) /\ script (sw (shutdown_lock s)) = [] /\
    ((sd (shutdown_lock s) = sd_done /\ worker (shutdown_lock s) = no_thread) \/ sd (shutdown_lock s) = sd_notify)).
  { unfold shutdown_lock. destruct (worker s) eqn:Ew; simpl; rewrite ?Ew; auto. }
  destruct H as (E1 & E2 & [H|H]).
  - exists [], (shutdown_lock s). split_ands; [done|by constructor|by right].
  - apply notify_stops; [done|done|by rewrite E1|done].
Qed.

Lemma begun_stops now s :
  reachable step (new_service now) s -> sd s <> sd_none -> positive_timers (states (timers (sw s))) -> stops s.
Proof.
  intros Hr Hsd Hpos. assert (Hscr := reachable_script now s Hr). destruct (stop_reachable now s Hr) as [Ht|Hs].
  { exists [], s. split_ands; [done|by constructor|by left]. }
  destruct (sd s) eqn:Esd; [done|by apply entered_stops|by apply notify_stops|by apply join_stops|].
  exists [], s. split_ands; [done|by constructor|]. right. split; [done|by apply Hs].
Qed.

(** C14. The shutdown of the timer queue ends, if every periodic timer has a
    positive frequency (a worker that is flooded by another one is never joined):
    from every state in which [shutdown] has begun, whether the worker slept,
    waited for the lock, processed a batch or had ended, steps of the shutdown and
    of the worker lead to its return, or the worker's thread is left by the
    exception of an executor that was shut down, which terminates the program.
    When [shutdown] has returned there is no worker, the queue accepts no timer
    any more, and it can be destroyed. *)
Theorem timer_queue_shutdown_ends now s :
  reachable step (new_service now) s ->
  (sd s <> sd_none -> positive_timers (states (timers (sw s))) -> stops s) /\
  (sd s = sd_done -> worker s <> terminated false ->
   destruct_queue s = Ok tt /\ shutdown_requested s = true /\ forall i, add_timer i s = None).
Proof.
  intros Hr. split; [by apply (begun_stops now)|].
  destruct (stop_reachable now s Hr) as [Ht|Hs]; [by intros _ []|]. assert (Hsv := t_service s Hs).
  intros Hsd Hnt. assert (Hw := t_done s Hs Hsd). unfold destruct_queue. rewrite Hw. split; [done|].
  split; [apply (i_sd s Hsv); congruence|]. intros i. unfold add_timer. rewrite (i_aborted s Hsv); auto.
Qed.

(** ** Witness: the shutdown begins while a batch is processed. *)
Definition stopping_service : service :=
  after step (new_service 100) [l_make 1 10 5; l_notify; l_worker_lock; l_shutdown; l_shutdown_lock].

Lemma stopping_service_positive : positive_timers (states (timers (sw stopping_service))).
Proof.
  intros t st H.
  assert (Hall : map_Forall (fun _ st => m_is_oneshot st = true \/ (0 < of_size_t (m_frequency st))%Z)
    (states (timers (sw stopping_service)))) by (apply (bool_decide_unpack _); by vm_compute).
  intros Hos. destruct (Hall t st H); [congruence|done].
Qed.

Lemma timer_queue_shutdown_ends_witness : sd stopping_service = sd_notify /\ stops stopping_service.
Proof.
  split; [vm_compute; reflexivity|].
  apply (timer_queue_shutdown_ends 100 stopping_service); [unfold stopping_service; apply after_reachable| |].
  - assert (E : sd stopping_service = sd_notify) by (vm_compute; reflexivity). rewrite E. discriminate.
  - exact stopping_service_positive.
Defined.
