(* ===== verification/DelayObject.v ===== *)
(** * Delay objects

    [timer_queue::make_delay_object] and the awaitable of
    [make_delay_object_impl] ([source/timers/timer_queue.cpp]), with the
    [timer_state] ([include/concurrencpp/timers/timer.h]) that holds its
    [await_via_functor].

    The state is that of one delay object.  The timer state is a heap block
    that many places own: the call of [make_timer_impl], [m_request_queue], the
    batch of the worker, its containers, the node that it extracts to fire, and
    the closure that it posts.  Who lets go of it last destroys it, and with it
    the functor; a functor that was not called resumes the coroutine there and
    then, on the thread that dropped it.  The rest of the queue, the executor
    and the clock are in the labels. *)

From Stdlib Require Import ZArith Lia.
From stdpp Require Import prelude list strings.
From S2P Require Import Prelude Errors ConsumerContext Timer.
#[local] Open Scope list_scope.

Notation functor := await_via_functor.t.

(** ** State *)

(** The shared pointers to the timer state. *)
Inductive owner :=
  | by_call       (* timer_state of make_timer_impl, then its result *)
  | by_request    (* m_request_queue *)
  | by_batch      (* request_queue of work_loop *)
  | by_set        (* m_timers and m_iterator_mapper *)
  | by_node       (* temp_set of process_timers *)
  | by_closure.   (* the closure that fire() posts *)

#[export] Instance owner_eq_dec : EqDecision owner.
Proof. solve_decision. Defined.

(** The coroutine of [make_delay_object_impl]; it ends as [await_resume] does. *)
Inductive coroutine := not_started | suspended | ended (r : outcome exn unit).

(** Which code resumed it. *)
Inductive resumer := in_await_suspend | in_worker | in_shutdown | in_executor.

Record resumption := make_resumption {
  place : resumer;
  under_lock : bool;     (* does its thread own m_lock? *)
  at_time : Z
}.

Record delay := make_delay {
  now : Z;
  m_due_time_ms : Z;
  executor_of : executor_id;
  started : Z;                                (* when it was awaited *)
  co : coroutine;
  interrupted : bool;                         (* m_interrupted of the awaitable *)
  temporary : option functor;                 (* the argument of make_timer_impl *)
  object : option (timer_state * functor);    (* the timer_state and its m_callable *)
  owners : list owner;
  added : bool;                               (* add_timer has returned *)
  called : bool;                              (* the closure called m_callable *)
  m_abort : bool;
  terminated : bool;                          (* fire() let an exception leave the worker thread *)
  resumptions : list resumption;
  fault : bool                                (* an assertion failed or a dead object was used *)
}.

Definition set_now v s := make_delay v (m_due_time_ms s) (executor_of s) (started s) (co s) (interrupted s) (temporary s) (object s) (owners s) (added s) (called s) (m_abort s) (terminated s) (resumptions s) (fault s).
Definition set_started v s := make_delay (now s) (m_due_time_ms s) (executor_of s) v (co s) (interrupted s) (temporary s) (object s) (owners s) (added s) (called s) (m_abort s) (terminated s) (resumptions s) (fault s).
Definition set_co v s := make_delay (now s) (m_due_time_ms s) (executor_of s) (started s) v (interrupted s) (temporary s) (object s) (owners s) (added s) (called s) (m_abort s) (terminated s) (resumptions s) (fault s).
Definition set_interrupted_flag v s := make_delay (now s) (m_due_time_ms s) (executor_of s) (started s) (co s) v (temporary s) (object s) (owners s) (added s) (called s) (m_abort s) (terminated s) (resumptions s) (fault s).
Definition set_temporary v s := make_delay (now s) (m_due_time_ms s) (executor_of s) (started s) (co s) (interrupted s) v (object s) (owners s) (added s) (called s) (m_abort s) (terminated s) (resumptions s) (fault s).
Definition set_object v s := make_delay (now s) (m_due_time_ms s) (executor_of s) (started s) (co s) (interrupted s) (temporary s) v (owners s) (added s) (called s) (m_abort s) (terminated s) (resumptions s) (fault s).
Definition set_owners v s := make_delay (now s) (m_due_time_ms s) (executor_of s) (started s) (co s) (interrupted s) (temporary s) (object s) v (added s) (called s) (m_abort s) (terminated s) (resumptions s) (fault s).
Definition set_added v s := make_delay (now s) (m_due_time_ms s) (executor_of s) (started s) (co s) (interrupted s) (temporary s) (object s) (owners s) v (called s) (m_abort s) (terminated s) (resumptions s) (fault s).
Definition set_called v s := make_delay (now s) (m_due_time_ms s) (executor_of s) (started s) (co s) (interrupted s) (temporary s) (object s) (owners s) (added s) v (m_abort s) (terminated s) (resumptions s) (fault s).
Definition set_abort v s := make_delay (now s) (m_due_time_ms s) (executor_of s) (started s) (co s) (interrupted s) (temporary s) (object s) (owners s) (added s) (called s) v (terminated s) (resumptions s) (fault s).
Definition set_terminated v s := make_delay (now s) (m_due_time_ms s) (executor_of s) (started s) (co s) (interrupted s) (temporary s) (object s) (owners s) (added s) (called s) (m_abort s) v (resumptions s) (fault s).
Definition log_resumption r s := make_delay (now s) (m_due_time_ms s) (executor_of s) (started s) (co s) (interrupted s) (temporary s) (object s) (owners s) (added s) (called s) (m_abort s) (terminated s) (resumptions s ++ [r]) (fault s).
Definition set_fault s := make_delay (now s) (m_due_time_ms s) (executor_of s) (started s) (co s) (interrupted s) (temporary s) (object s) (owners s) (added s) (called s) (m_abort s) (terminated s) (resumptions s) true.

(** [make_delay_object]; the result is a lazy coroutine that has not started. *)
Definition make_delay_object (now due_time : Z) (executor : option executor_id) : outcome exn delay :=
  match executor with
  | None => Throw (make_exn invalid_argument k_timer_queue_make_delay_object_executor_null_err_msg)
  | Some ex => Ok (make_delay now (to_size_t due_time) ex now not_started false None None [] false false false false [] false)
  end.

(** ** The coroutine *)
Definition broken : exn := make_exn broken_task k_broken_task_exception_error_msg.

(** [await_resume]. *)
Definition await_resume (s : delay) : outcome exn unit :=
  if interrupted s then Throw broken else Ok tt.

(** The handle and the address of [m_interrupted]. *)
Definition coro_handle : handle := 1.
Definition interrupted_addr : addr := 2.

(** What the functor does: it writes to the awaitable, which lives in the
    frame of the coroutine, and resumes it.  Both are undefined unless the
    coroutine is suspended. *)
Definition apply_event (p : resumer) (locked : bool) (e : await_via_functor.event) (s : delay) : delay :=
  match co s, e with
  | suspended, await_via_functor.set_interrupted a =>
      if decide (a = interrupted_addr) then set_interrupted_flag true s else set_fault s
  | suspended, await_via_functor.resume h =>
      if decide (h = coro_handle)
      then log_resumption (make_resumption p locked (now s)) (set_co (ended (await_resume s)) s)
      else set_fault s
  | _, _ => set_fault s
  end.

Definition apply_events (p : resumer) (locked : bool) (o : outcome exn (list await_via_functor.event)) (s : delay) : delay :=
  match o with
  | Ok evs => foldl (fun s e => apply_event p locked e s) s evs
  | _ => set_fault s
  end.

(** ** Shared ownership *)
Definition share (o : owner) (s : delay) : delay := set_owners (o :: owners s) s.

(** Moves a shared pointer. *)
Definition hand_over (o o' : owner) (s : delay) : delay :=
  set_owners (o' :: filter (fun x => x <> o) (owners s)) s.

(** Destroys a shared pointer; the last one destroys the [timer_state], whose
    [m_callable] is a functor. *)
Definition drop (p : resumer) (locked : bool) (o : owner) (s : delay) : delay :=
  let s := set_owners (filter (fun x => x <> o) (owners s)) s in
  match owners s, object s with
  | [], Some (_, f) => apply_events p locked (await_via_functor.destruct_functor f) (set_object None s)
  | [], None => set_fault s
  | _, _ => s
  end.

Definition drop_temporary (s : delay) : delay :=
  match temporary s with
  | Some f => apply_events in_await_suspend false (await_via_functor.destruct_functor f) (set_temporary None s)
  | None => s
  end.

(** ** Steps *)
Inductive label :=
  | l_tick (d : N)
  | l_await (out_of_memory : bool)      (* co_await: await_suspend, up to add_timer *)
  | l_add                               (* add_timer, under m_lock *)
  | l_return                            (* make_timer_impl returns; await_suspend drops the timer *)
  | l_take                              (* work_loop moves m_request_queue *)
  | l_insert                            (* process_request_queue *)
  | l_fire (seen : Z) (accepted : bool) (* process_timers read [seen]; does the executor accept the closure? *)
  | l_fired                             (* temp_set dies *)
  | l_run                               (* the executor runs the closure *)
  | l_discard                           (* the executor destroys the closure *)
  | l_shutdown                          (* shutdown, under m_lock *)
  | l_worker_exit.                      (* work_loop returns: its containers die *)

(** The constructor of [timer_state]: [m_callable] is moved from its argument. *)
Definition construct_timer_state (now due_time frequency : Z) (ex : executor_id) (is_oneshot : bool)
  (given_callable : functor) : (timer_state * functor) * functor :=
  let (m_callable, rest) := await_via_functor.move given_callable in
  ((new_timer_state now due_time frequency ex is_oneshot, m_callable), rest).

(** [await_suspend] up to the [add_timer] of [make_timer_impl]: the functor is
    built in the argument and moved into the new [timer_state]; if there is no
    memory for that, it is destroyed where it is. *)
Definition await_suspend (out_of_memory : bool) (s : delay) : delay :=
  let s := set_started (now s) (set_co suspended s) in
  let f := await_via_functor.construct coro_handle interrupted_addr in
  if out_of_memory then drop_temporary (set_temporary (Some f) s)
  else
    let (timer_state, rest) := construct_timer_state (now s) (m_due_time_ms s) 0 (executor_of s) true f in
    share by_call (set_object (Some timer_state) (set_temporary (Some rest) s)).

(** [add_timer]: when it throws, [make_timer_impl] unwinds, after its lock. *)
Definition add_timer (s : delay) : delay :=
  if m_abort s then drop_temporary (drop in_await_suspend false by_call s)
  else set_added true (share by_request s).

Definition return_timer (s : delay) : delay :=
  drop_temporary (drop in_await_suspend false by_call s).

(** [fire()] of a timer that is extracted from the set. *)
Definition fire (accepted : bool) (s : delay) : delay :=
  let s := hand_over by_set by_node s in
  let s := set_object (match object s with Some (t, f) => Some (rearm (now s) t, f) | None => None end) s in
  if accepted then share by_closure s else set_terminated true s.

(** The closure: [self->execute()]. *)
Definition run_closure (s : delay) : delay :=
  let s := set_called true s in
  match object s with
  | Some (t, f) =>
      if execute_calls t then
        match await_via_functor.call f with
        | Ok (f, evs) => apply_events in_executor false (Ok evs) (set_object (Some (t, f)) s)
        | _ => set_fault s
        end
      else s
  | None => set_fault s
  end.

Definition owned (o : owner) (s : delay) : bool := bool_decide (o ∈ owners s).

Definition due (seen : Z) (s : delay) : bool :=
  match object s with Some (t, _) => expired seen t | None => false end.

Definition step (l : label) (s : delay) : option delay :=
  if terminated s then None
  else
    match l with
    | l_tick d => Some (set_now (now s + Z.of_N d)%Z s)
    | l_await m => if co s is not_started then Some (await_suspend m s) else None
    | l_add => if owned by_call s && negb (added s) then Some (add_timer s) else None
    | l_return => if owned by_call s && added s then Some (return_timer s) else None
    | l_take =>
        if owned by_request s && negb (m_abort s) then Some (hand_over by_request by_batch s) else None
    | l_insert => if owned by_batch s then Some (hand_over by_batch by_set s) else None
    | l_fire seen accepted =>
        if owned by_set s && due seen s && (seen <=? now s)%Z then Some (fire accepted s) else None
    | l_fired => if owned by_node s then Some (drop in_worker false by_node s) else None
    | l_run => if owned by_closure s && negb (called s) then Some (run_closure s) else None
    | l_discard => if owned by_closure s then Some (drop in_executor false by_closure s) else None
    | l_shutdown =>
        let s := set_abort true s in
        Some (if owned by_request s then drop in_shutdown true by_request s else s)
    | l_worker_exit =>
        if m_abort s && owned by_set s then Some (drop in_worker false by_set s) else None
    end.
