(* ===== verification/DelayTheorems.v ===== *)
(** * Delay objects: theorems *)

From Stdlib Require Import ZArith Lia.
From stdpp Require Import prelude list strings.
From S2P Require Import Prelude Errors ConsumerContext Timer DelayObject.
#[local] Open Scope list_scope.

(** ** Owners *)
Lemma elem_of_without o x (l : list owner) : x ∈ filter (fun y => y <> o) l <-> x <> o /\ x ∈ l.
Proof. by rewrite list_elem_of_filter. Qed.

Lemma owned_true o s : owned o s = true <-> o ∈ owners s.
Proof. apply bool_decide_eq_true. Qed.

(** Owners that the timer state passes through before it is fired. *)
Definition early (o : owner) : bool :=
  match o with by_request | by_batch | by_set => true | _ => false end.

(** The time that was asked for. *)
Definition wake_time (s : delay) : Z := make_deadline (started s) (m_due_time_ms s).

(** ** Invariant *)

(** How the coroutine ended. *)
Definition ended_well (s : delay) (x : resumption) : Prop :=
  called s = true /\ interrupted s = false /\ place x = in_executor /\ under_lock x = false /\
  (wake_time s <= at_time x)%Z /\
  match object s with
  | Some (_, f) => await_via_functor.m_interrupted f = None /\ owners s <> []
  | None => owners s = []
  end.

Definition ended_broken (s : delay) : Prop :=
  called s = false /\ interrupted s = true /\ object s = None /\ owners s = [].

Definition coroutine_ok (s : delay) : Prop :=
  match co s with
  | not_started => object s = None /\ owners s = [] /\ resumptions s = [] /\ called s = false /\
      interrupted s = false /\ added s = false
  | suspended => (exists t, object s = Some (t, await_via_functor.construct coro_handle interrupted_addr) /\
        m_cancelled t = false) /\ owners s <> [] /\ resumptions s = [] /\ called s = false /\ interrupted s = false
  | ended r => r = await_resume s /\ exists x, resumptions s = [x] /\ (ended_well s x \/ ended_broken s)
  end.

Record dinv (s : delay) : Prop := {
  d_fault : fault s = false;
  d_co : coroutine_ok s;
  d_temporary : match temporary s with Some f => f = await_via_functor.make None None | None => True end;
  d_early : forall o o', early o = true -> early o' = true -> o ∈ owners s -> o' ∈ owners s -> o = o';
  d_new : added s = false -> forall o, o ∈ owners s -> o = by_call;
  d_deadline : forall t f, object s = Some (t, f) -> added s = false \/ (exists o, o ∈ owners s /\ early o = true) ->
    m_deadline t = wake_time s;
  d_closure : by_closure ∈ owners s -> (wake_time s <= now s)%Z;
  d_abort : m_abort s = true -> by_request ∉ owners s
}.

Lemma dinv_init t due ex d : make_delay_object t due ex = Ok d -> dinv d.
Proof.
  destruct ex as [ex|]; [|done]. intros [= <-].
  constructor; simpl; try done; intros; try done; try by (exfalso; set_solver).
Qed.

(** ** The pieces of the steps *)
Lemma drop_temporary_ok s :
  match temporary s with Some f => f = await_via_functor.make None None | None => True end ->
  drop_temporary s = set_temporary None s.
Proof. unfold drop_temporary. destruct s as [????? ? [f|]]; simpl; [by intros ->|done]. Qed.

Lemma filter_all_out o (l : list owner) : filter (fun y => y <> o) l = [] -> forall x, x ∈ l -> x = o.
Proof.
  intros E x Hx. destruct (decide (x = o)); [done|].
  assert (H : x ∈ filter (fun y => y <> o) l) by by apply elem_of_without. rewrite E in H. set_solver.
Qed.

(** Dropping an owner: the last one of a suspended coroutine interrupts it. *)
Lemma drop_cases p b o s :
  dinv s -> o ∈ owners s ->
  let s' := set_owners (filter (fun x => x <> o) (owners s)) s in
  (owners s' <> [] /\ drop p b o s = s') \/
  (owners s' = [] /\ exists t f, object s = Some (t, f) /\
   ((co s = suspended /\ drop p b o s =
       log_resumption (make_resumption p b (now s))
         (set_co (ended (Throw broken)) (set_interrupted_flag true (set_object None s')))) \/
    (called s = true /\ drop p b o s = set_object None s'))).
Proof.
  intros Hs Ho. simpl. unfold drop. simpl. destruct (filter _ (owners s)) as [|x l] eqn:E.
  - right. split; [done|].
    assert (Hco := d_co s Hs). unfold coroutine_ok in Hco.
    destruct (co s) as [| |r] eqn:Hc.
    + destruct Hco as (_ & E1 & _). rewrite E1 in Ho. set_solver.
    + destruct Hco as ((t & E1 & _) & _). rewrite E1. do 2 eexists. split; [done|]. left. split; [done|].
      unfold apply_events. simpl. unfold apply_event at 2. simpl. rewrite Hc. simpl.
      destruct s; simpl in *; subst; by unfold apply_event, log_resumption, set_co.
    + destruct Hco as (_ & x & _ & [Hw|(_ & _ & _ & E1)]); [|rewrite E1 in Ho; set_solver].
      destruct Hw as (Hca & _ & _ & _ & _ & Hob). destruct (object s) as [[t f]|]; [|rewrite Hob in Ho; set_solver].
      do 2 eexists. split; [done|]. right. split; [done|]. destruct Hob as [Hf _].
      unfold await_via_functor.destruct_functor. by rewrite Hf.
  - left. split; [done|]. by destruct (object s) as [[]|].
Qed.

Lemma dinv_drop p b o s : dinv s -> o ∈ owners s -> added s = true \/ o = by_call -> dinv (drop p b o s).
Proof.
  intros Hs Ho Hadd. assert (Hco := d_co s Hs). unfold coroutine_ok in Hco.
  destruct (drop_cases p b o s Hs Ho) as [[Hne ->]|(He & t & f & Hob & [[Hc ->]|[Hca ->]])].
  - constructor; try apply Hs; simpl in *.
    + unfold coroutine_ok. simpl. destruct (co s) as [| |r].
      * destruct Hco as (_ & E & _). rewrite E in Ho. set_solver.
      * destruct Hco as (? & _ & ? & ? & ?). done.
      * destruct Hco as (? & x & Hx & [Hw|(_ & _ & _ & E)]); [|rewrite E in Ho; set_solver].
        split; [done|]. exists x. split; [done|]. left. destruct Hw as (? & ? & ? & ? & ? & Hob).
        unfold ended_well; simpl. split_ands; try done.
        destruct (object s) as [[t f]|]; [by split; [apply Hob|]|]. rewrite Hob in Ho. set_solver.
    + intros o1 o2 H1 H2 [_ H3]%elem_of_without [_ H4]%elem_of_without. by apply (d_early s Hs).
    + intros Ha o1 [Hn H1]%elem_of_without. by apply (d_new s Hs).
    + intros t f Hob [Ha|(o1 & [_ H1]%elem_of_without & H2)]; apply (d_deadline s Hs t f Hob); eauto.
    + intros [_ H1]%elem_of_without. by apply (d_closure s Hs).
    + intros Ha [_ H1]%elem_of_without. by apply (d_abort s Hs).
  - rewrite Hc in Hco. destruct Hco as (_ & _ & Hr & Hca & _).
    constructor; simpl in *; rewrite ?He; try apply Hs; intros; try done; try set_solver.
    unfold coroutine_ok. simpl. split; [done|]. rewrite Hr. eexists. split; [done|]. right. by unfold ended_broken.
  - constructor; simpl in *; rewrite ?He; try apply Hs; intros; try done; try set_solver.
    unfold coroutine_ok. simpl. destruct (co s) as [| |r]; [destruct Hco as (? & _); congruence|destruct Hco as (_ & _ & _ & ? & _); congruence|].
    destruct Hco as (? & x & Hx & [Hw|(? & _)]); [|congruence].
    split; [done|]. exists x. split; [done|]. left. destruct Hw as (? & ? & ? & ? & ? & _). unfold ended_well; simpl. done.
Qed.

Lemma dinv_temporary s : dinv s -> dinv (drop_temporary s).
Proof.
  intros Hs. rewrite drop_temporary_ok by apply Hs. destruct Hs. by constructor.
Qed.

(** Owners other than the early ones do not matter much. *)
Lemma dinv_hand_over o o' s :
  dinv s -> o ∈ owners s -> early o = true -> early o' = true -> o' <> by_request -> dinv (hand_over o o' s).
Proof.
  intros Hs Ho He He' Hr. assert (Hco := d_co s Hs). unfold coroutine_ok in Hco.
  assert (Hall : forall x, x ∈ owners (hand_over o o' s) -> early x = true -> x = o').
  { intros x. simpl. intros [->|[Hx1 Hx2]%elem_of_without]%elem_of_cons Hx; [done|].
    destruct Hx1. by apply (d_early s Hs). }
  assert (Hadd : added s = true).
  { destruct (added s) eqn:E; [done|]. apply (d_new s Hs) in Ho; [|done]. by subst. }
  constructor; try apply Hs.
  - unfold coroutine_ok. simpl. destruct (co s) as [| |r].
    + destruct Hco as (_ & E & _). rewrite E in Ho. set_solver.
    + destruct Hco as (? & _ & ? & ? & ?). done.
    + destruct Hco as (? & x & Hx & [Hw|(_ & _ & _ & E)]); [|rewrite E in Ho; set_solver].
      split; [done|]. exists x. split; [done|]. left. destruct Hw as (? & ? & ? & ? & ? & Hob).
      unfold ended_well; simpl. split_ands; try done.
      destruct (object s) as [[t f]|]; [by split; [apply Hob|]|]. rewrite Hob in Ho. set_solver.
  - intros o1 o2 H1 H2 H3 H4. rewrite (Hall o1), (Hall o2); done.
  - simpl. congruence.
  - intros t f Hob _. apply (d_deadline s Hs t f Hob). eauto.
  - simpl. intros [<-|[_ H1]%elem_of_without]%elem_of_cons; [done|]. by apply (d_closure s Hs).
  - simpl. intros Ha [<-|[_ H1]%elem_of_without]%elem_of_cons; [done|]. by apply (d_abort s Hs).
Qed.

(** ** Every step *)
Lemma wake_share s o : wake_time (share o s) = wake_time s.
Proof. done. Qed.

Lemma dinv_await m s : dinv s -> co s = not_started -> dinv (await_suspend m s).
Proof.
  intros Hs Hc. assert (Hco := d_co s Hs). unfold coroutine_ok in Hco. rewrite Hc in Hco.
  destruct Hco as (Ho & Hw & Hr & Hca & Hi & Ha).
  unfold await_suspend. destruct m.
  - unfold drop_temporary. simpl. unfold apply_event, log_resumption. simpl.
    constructor; simpl; rewrite ?Ho, ?Hw; try apply Hs; intros; try done; try set_solver.
    unfold coroutine_ok. simpl. split; [done|]. rewrite Hr. eexists. split; [done|]. right. by unfold ended_broken.
  - simpl. constructor; simpl; rewrite ?Hw; try apply Hs; intros; try done; try set_solver.
    + unfold coroutine_ok. simpl. split_ands; try done. eexists. split; [done|]. done.
Qed.

Lemma dinv_add s : dinv s -> by_call ∈ owners s -> added s = false -> dinv (add_timer s).
Proof.
  intros Hs Ho Ha. assert (Hco := d_co s Hs). unfold coroutine_ok in Hco. unfold add_timer.
  destruct (m_abort s) eqn:Eab; [apply dinv_temporary, dinv_drop; auto|].
  assert (Hnew := d_new s Hs Ha).
  constructor; simpl; try apply Hs; try done.
  - unfold coroutine_ok. simpl. destruct (co s) as [| |r].
    + destruct Hco as (_ & E & _). rewrite E in Ho. set_solver.
    + destruct Hco as (? & _ & ? & ? & ?). done.
    + destruct Hco as (? & x & Hx & [Hw|(_ & _ & _ & E)]); [|rewrite E in Ho; set_solver].
      split; [done|]. exists x. split; [done|]. left. destruct Hw as (? & ? & ? & ? & ? & Hob).
      unfold ended_well; simpl. split_ands; try done.
      destruct (object s) as [[t f]|]; [by split; [apply Hob|]|]. rewrite Hob in Ho. set_solver.
  - intros o o' H1 H2 [->|H3]%elem_of_cons [->|H4]%elem_of_cons; try done;
      [by rewrite (Hnew _ H4) in H2|by rewrite (Hnew _ H3) in H1|by rewrite (Hnew _ H3) in H1].
  - intros t f Hob _. apply (d_deadline s Hs t f Hob). by left.
  - intros [H|H]%elem_of_cons; [done|]. by apply Hnew in H.
  - congruence.
Qed.

(** The worker fires the timer, whose time has come. *)
Lemma dinv_fire seen accepted s :
  dinv s -> by_set ∈ owners s -> due seen s = true -> (seen <= now s)%Z -> dinv (fire accepted s).
Proof.
  intros Hs Ho Hdue Hseen. assert (Hco := d_co s Hs). unfold coroutine_ok in Hco.
  assert (Hadd : added s = true).
  { destruct (added s) eqn:E; [done|]. by apply (d_new s Hs) in Ho. }
  assert (Hno : forall x, x ∈ by_node :: filter (fun y => y <> by_set) (owners s) -> early x = false).
  { intros x [->|[Hx1 Hx2]%elem_of_without]%elem_of_cons; [done|]. destruct (early x) eqn:E; [|done].
    destruct Hx1. by apply (d_early s Hs). }
  assert (Hwake : (wake_time s <= now s)%Z).
  { unfold due, expired in Hdue. destruct (object s) as [[t f]|] eqn:Hob; [|done].
    apply Z.leb_le in Hdue. rewrite (d_deadline s Hs t f Hob) in Hdue by eauto. lia. }
  assert (Hne : owners s <> []) by (intros E; rewrite E in Ho; set_solver).
  assert (Hd : forall c, (forall x, x ∈ c -> x ∈ by_node :: filter (fun y => y <> by_set) (owners s) \/ x = by_closure) -> c <> [] ->
     dinv (set_owners c (set_object (match object s with Some (t, f) => Some (rearm (now s) t, f) | None => None end) s))).
  { intros c Hc Hcne.
    assert (Hcn : forall x, x ∈ c -> early x = false) by (intros x [H| ->]%Hc; [by apply Hno|done]).
    constructor; simpl; try apply Hs; try done.
    - unfold coroutine_ok. simpl. destruct (co s) as [| |r].
      + destruct Hco as (_ & E & _). done.
      + destruct Hco as ((t & -> & Ht) & _ & ? & ? & ?). split_ands; try done. eexists. split; [done|]. done.
      + destruct Hco as (? & x & Hx & [Hw|(_ & _ & _ & E)]); [|done].
        split; [done|]. exists x. split; [done|]. left. destruct Hw as (? & ? & ? & ? & ? & Hob).
        unfold ended_well; simpl. split_ands; try done.
        destruct (object s) as [[t f]|]; [by split; [apply Hob|]|]. done.
    - intros o o' H1 _ H3. by rewrite (Hcn o H3) in H1.
    - congruence.
    - intros t f _ [H|(o & H1 & H2)]; [congruence|]. by rewrite (Hcn o H1) in H2.
    - intros Hab H. by apply Hcn in H. }
  unfold fire. destruct accepted.
  - unfold share. simpl. apply (Hd (by_closure :: by_node :: filter (fun y => y <> by_set) (owners s))); [set_solver|done].
  - assert (Hd' : dinv (set_owners (by_node :: filter (fun y => y <> by_set) (owners s))
       (set_object (match object s with Some (t, f) => Some (rearm (now s) t, f) | None => None end) s)))
      by (apply Hd; [by left|done]).
    destruct Hd'. constructor; done.
Qed.

Lemma dinv_run s : dinv s -> by_closure ∈ owners s -> called s = false -> dinv (run_closure s).
Proof.
  intros Hs Ho Hc. assert (Hco := d_co s Hs). unfold coroutine_ok in Hco.
  assert (Hne : owners s <> []) by (intros E; rewrite E in Ho; set_solver).
  destruct (co s) as [| |r] eqn:Eco.
  - destruct Hco as (_ & E & _). done.
  - destruct Hco as ((t & Hob & Ht) & _ & Hr & _ & Hi).
    unfold run_closure. simpl. rewrite Hob. unfold execute_calls. rewrite Ht. simpl.
    unfold apply_event. simpl. rewrite Eco. simpl.
    constructor; simpl; try apply Hs; try done.
    + unfold coroutine_ok. simpl. split; [done|]. rewrite Hr. eexists. split; [done|]. left.
      unfold ended_well; simpl. rewrite Hi. split_ands; try done. by apply (d_closure s Hs).
    + intros t' f' [= <- <-]. apply (d_deadline s Hs _ _ Hob).
  - destruct Hco as (_ & x & _ & [(Hw & _)|(_ & _ & _ & E)]); [congruence|done].
Qed.

Lemma dinv_shutdown s : dinv s -> by_request ∉ owners s -> dinv (set_abort true s).
Proof. intros [] H. by constructor. Qed.

(** What a drop leaves alone. *)
Lemma apply_events_owners p b o s : owners (apply_events p b o s) = owners s.
Proof.
  destruct o as [evs|e|]; simpl; [|done..]. revert s. induction evs as [|e evs IH]; intros s; simpl; [done|].
  rewrite IH. unfold apply_event. by destruct (co s), e; try case_decide.
Qed.

Lemma apply_events_abort p b o s : apply_events p b o (set_abort true s) = set_abort true (apply_events p b o s).
Proof.
  destruct o as [evs|e|]; simpl; [|done..]. revert s. induction evs as [|e evs IH]; intros s; simpl; [done|].
  rewrite <-IH. f_equal. unfold apply_event. simpl. by destruct (co s), e; try case_decide.
Qed.

Lemma owners_drop p b o s : owners (drop p b o s) = filter (fun x => x <> o) (owners s).
Proof.
  unfold drop. simpl. destruct (filter _ (owners s)) eqn:E; [|by destruct (object s) as [[]|]].
  destruct (object s) as [[]|]; [|done]. rewrite apply_events_owners. done.
Qed.

Lemma drop_abort p b o s : drop p b o (set_abort true s) = set_abort true (drop p b o s).
Proof.
  unfold drop. simpl. destruct (filter _ (owners s)); [|by destruct (object s) as [[]|]].
  destruct (object s) as [[]|]; [|done]. by rewrite <-apply_events_abort.
Qed.

Lemma added_or o s : dinv s -> o ∈ owners s -> added s = true \/ o = by_call.
Proof. intros Hs Ho. destruct (added s) eqn:E; [by left|]. right. by apply (d_new s Hs). Qed.

Lemma dinv_step l s s' : dinv s -> step l s = Some s' -> dinv s'.
Proof.
  intros Hs. unfold step. destruct (terminated s) eqn:Ht; [done|].
  destruct l; intros Hl; step_inv Hl;
    repeat match goal with H : _ && _ = true |- _ => apply andb_true_iff in H as [? ?] end;
    rewrite ?owned_true, ?negb_true_iff in *.
  - destruct Hs. constructor; try done. intros H. unfold wake_time in *; simpl in *. specialize (d_closure0 H). lia.
  - by apply dinv_await.
  - by apply dinv_add.
  - apply dinv_temporary, dinv_drop; auto.
  - by apply dinv_hand_over.
  - by apply dinv_hand_over.
  - apply (dinv_fire seen); try done. by apply Z.leb_le.
  - apply dinv_drop; [done..|]. by apply added_or.
  - by apply dinv_run.
  - apply dinv_drop; [done..|]. by apply added_or.
  - case_match eqn:E; rewrite ?owned_true in E; simpl in E.
    + rewrite drop_abort. apply dinv_shutdown; [apply dinv_drop; [done..|by apply added_or]|].
      rewrite owners_drop. by intros [? _]%elem_of_without.
    + apply dinv_shutdown; [done|]. rewrite <-owned_true. simpl. unfold owned in *. simpl in *. congruence.
  - apply dinv_drop; [done..|]. by apply added_or.
Qed.

Lemma dinv_reachable t due ex d s :
  make_delay_object t due ex = Ok d -> reachable step d s -> dinv s.
Proof. intros Hd. apply reachable_invariant; [by eapply dinv_init|apply dinv_step]. Qed.

Lemma due_time_kept l s s' : step l s = Some s' -> m_due_time_ms s' = m_due_time_ms s.
Proof.
  assert (Hev : forall p b o s, m_due_time_ms (apply_events p b o s) = m_due_time_ms s).
  { intros p b [evs|e|] s0; simpl; [|done..]. revert s0. induction evs as [|e evs IH]; intros s0; simpl; [done|].
    rewrite IH. unfold apply_event. by destruct (co s0), e; try case_decide. }
  assert (Hdrop : forall p b o s, m_due_time_ms (drop p b o s) = m_due_time_ms s).
  { intros p b o s0. unfold drop. simpl. destruct (filter _ (owners s0)), (object s0) as [[]|]; try done. by rewrite Hev. }
  assert (Htmp : forall s, m_due_time_ms (drop_temporary s) = m_due_time_ms s).
  { intros s0. unfold drop_temporary. destruct (temporary s0); [|done]. by rewrite Hev. }
  unfold step. destruct (terminated s); [done|]. destruct l; intros Hl; step_inv Hl; try done;
    rewrite ?Hdrop; try done.
  - unfold await_suspend. by destruct out_of_memory; rewrite ?Htmp.
  - unfold add_timer. by destruct (m_abort s); rewrite ?Htmp, ?Hdrop.
  - unfold return_timer. by rewrite Htmp, Hdrop.
  - unfold fire. by destruct accepted.
  - unfold run_closure. cbn [set_called object]. destruct (object s) as [[t f]|]; [|done].
    destruct (execute_calls t); [|done]. by destruct (await_via_functor.call f) as [[]| |]; rewrite ?Hev.
  - case_match; by rewrite ?Hdrop.
Qed.

Lemma wake_time_due t due ex d s :
  int64 due -> make_delay_object t due (Some ex) = Ok d -> reachable step d s ->
  wake_time s = (started s + due * ticks_per_ms)%Z.
Proof.
  intros Hi Hd Hr. unfold wake_time, make_deadline.
  assert (E : m_due_time_ms s = to_size_t due).
  { revert s Hr. apply reachable_invariant; [by injection Hd as <-|].
    intros l s s' E Hl. by rewrite (due_time_kept l s s' Hl). }
  by rewrite E, size_t_roundtrip.
Qed.

(** C15. In every interleaving of the awaiting coroutine, the worker of the
    timer queue, the executor and [shutdown], however the ownership of the timer
    state passes between them: nothing dead is touched; the coroutine is resumed
    at most once, and it is not left suspended once nobody owns the timer state
    any more; it goes on normally only from the closure that ran in the executor,
    not under the lock and not before the due time has passed since the
    [co_await]; in every other case it gets [broken_task]. *)
Theorem delay_object_is_resumed_once t due ex d s :
  int64 due -> make_delay_object t due (Some ex) = Ok d -> reachable step d s ->
  fault s = false /\ length (resumptions s) <= 1 /\
  (co s = suspended -> owners s <> []) /\
  (forall r, co s = ended r -> exists x, resumptions s = [x] /\
     ((r = Ok tt /\ called s = true /\ place x = in_executor /\ under_lock x = false /\
       (started s + due * ticks_per_ms <= at_time x)%Z) \/
      (r = Throw broken /\ called s = false /\ object s = None /\ owners s = []))).
Proof.
  intros Hi Hd Hr. assert (Hs := dinv_reachable _ _ _ _ _ Hd Hr).
  rewrite <-(wake_time_due _ _ _ _ _ Hi Hd Hr).
  assert (Hco := d_co s Hs). unfold coroutine_ok in Hco.
  split; [apply Hs|]. destruct (co s) as [| |r].
  - destruct Hco as (_ & _ & -> & _). simpl. split_ands; [lia|done|done].
  - destruct Hco as (_ & ? & -> & _). simpl. split_ands; [lia|done|done].
  - destruct Hco as (Hres & x & -> & Hw). simpl. split_ands; [lia|done|]. intros r' [= <-]. exists x. split; [done|].
    unfold await_resume in Hres.
    destruct Hw as [(? & Hint & ? & ? & ? & _)|(? & Hint & ? & ?)]; rewrite Hint in Hres; [by left|by right].
Qed.

(** ** Every delay ends *)

(** What is left to be done with the timer state. *)
Definition weight (o : owner) : nat :=
  match o with by_call => 1 | by_request => 6 | by_batch => 5 | by_set => 4 | by_node => 1 | by_closure => 2 end.
Definition work_left (s : delay) : nat :=
  sum_list_with weight (owners s) + (if added s then 0 else 10).

Lemma sum_without o l : o ∈ l -> sum_list_with weight (filter (fun y => y <> o) l) + weight o <= sum_list_with weight l.
Proof.
  induction l as [|x l IH]; intros Ho; [set_solver|]. rewrite filter_cons. simpl.
  apply elem_of_cons in Ho. destruct (decide (x <> o)) as [Hx|Hx]; simpl.
  - destruct Ho as [->|Ho]; [done|]. apply IH in Ho. lia.
  - destruct (decide (x = o)) as [->|]; [|done]. clear. induction l as [|y l IH]; simpl; [lia|].
    rewrite filter_cons. destruct (decide (y <> o)); simpl; lia.
Qed.

(** The next step of the program (of its caller, worker or executor). *)
Definition next (s : delay) : list label :=
  if owned by_closure s then [l_run]
  else if negb (added s) then [l_add]
  else if owned by_request s then [l_take]
  else if owned by_batch s then [l_insert]
  else if owned by_set s then
    (if m_abort s then [l_worker_exit]
     else let wait := Z.to_N (match object s with Some (t, _) => get_deadline t | None => 0 end - now s) in
       [l_tick wait; l_fire (now s + Z.of_N wait)%Z true])
  else if owned by_call s then [l_return]
  else [l_fired].

(** Nothing interferes with the delay. *)
Definition orderly (l : label) : bool :=
  match l with
  | l_await out_of_memory => negb out_of_memory
  | l_fire _ accepted => accepted
  | l_discard | l_shutdown | l_worker_exit => false
  | _ => true
  end.

Definition undisturbed (s : delay) : Prop :=
  m_abort s = false /\ terminated s = false /\
  (co s = suspended -> added s = false \/ exists o, o ∈ owners s /\ (early o = true \/ o = by_closure)) /\
  (forall r, co s = ended r -> r = Ok tt).

(** One step of the program, when it does not end the coroutine. *)
Lemma drop_progress p b o s :
  dinv s -> o ∈ owners s -> co s = suspended -> terminated s = false ->
  terminated (drop p b o s) = false /\ added (drop p b o s) = added s /\
  (co (drop p b o s) <> suspended \/
   (co (drop p b o s) = suspended /\ sum_list_with weight (owners (drop p b o s)) + weight o <= sum_list_with weight (owners s))).
Proof.
  intros Hs Ho Hc Ht. destruct (drop_cases p b o s Hs Ho) as [[_ ->]|(_ & t & f & _ & [[_ ->]|[Hca _]])]; simpl.
  - split_ands; try done. right. split; [done|by apply sum_without].
  - split_ands; try done. by left.
  - assert (Hco := d_co s Hs). unfold coroutine_ok in Hco. rewrite Hc in Hco. destruct Hco as (_ & _ & _ & ? & _). congruence.
Qed.

Lemma weight_pos o : 1 <= weight o.
Proof. destruct o; simpl; lia. Qed.

(** The outcome of the next step, on every branch of [next]. *)
Definition advances (s s' : delay) : Prop :=
  terminated s' = false /\ (co s' <> suspended \/ (co s' = suspended /\ work_left s' < work_left s)).

Lemma drop_advances p b o s :
  dinv s -> o ∈ owners s -> co s = suspended -> terminated s = false -> advances s (drop p b o s).
Proof.
  intros Hs Ho Hc Ht. destruct (drop_progress p b o s Hs Ho Hc Ht) as (H1 & H2 & [H3|[H3 H4]]); split; auto.
  right. split; [done|]. unfold work_left. rewrite H2. assert (H := weight_pos o). lia.
Qed.

Lemma temporary_advances s s' : dinv s' -> advances s s' -> advances s (drop_temporary s').
Proof. intros Hs. rewrite drop_temporary_ok by apply Hs. done. Qed.

Lemma hand_over_advances o o' s :
  o ∈ owners s -> weight o' < weight o -> co s = suspended -> terminated s = false -> advances s (hand_over o o' s).
Proof.
  intros Ho Hw Hc Ht. split; [done|]. right. split; [done|]. unfold work_left. simpl.
  assert (H := sum_without o (owners s) Ho). lia.
Qed.

Lemma add_advances s :
  dinv s -> by_call ∈ owners s -> added s = false -> co s = suspended -> terminated s = false -> advances s (add_timer s).
Proof.
  intros Hs Ho Ha Hc Ht. unfold add_timer. destruct (m_abort s).
  - apply temporary_advances; [by apply dinv_drop; [..|right]|by apply drop_advances].
  - split; [done|]. right. split; [done|]. unfold work_left. simpl. rewrite Ha. lia.
Qed.

Lemma run_advances s :
  dinv s -> by_closure ∈ owners s -> co s = suspended -> terminated s = false -> advances s (run_closure s).
Proof.
  intros Hs Ho Hc Ht. assert (Hco := d_co s Hs). unfold coroutine_ok in Hco. rewrite Hc in Hco.
  destruct Hco as ((t & Hob & Htc) & _). unfold run_closure. simpl. rewrite Hob. unfold execute_calls. rewrite Htc. simpl.
  unfold apply_event. simpl. rewrite Hc. simpl. split; [done|]. by left.
Qed.

(** The clock reaches the deadline and the worker fires the timer. *)
Definition deadline (s : delay) : Z := match object s with Some (t, _) => get_deadline t | None => 0 end.

Lemma fire_advances w s :
  dinv s -> by_set ∈ owners s -> co s = suspended -> terminated s = false -> (deadline s <= now s + Z.of_N w)%Z ->
  exists s', run step [l_tick w; l_fire (now s + Z.of_N w)%Z true] s = Some s' /\ advances s s' /\ by_closure ∈ owners s'.
Proof.
  intros Hs Ho Hc Ht Hd. assert (Hco := d_co s Hs). unfold coroutine_ok in Hco. rewrite Hc in Hco.
  destruct Hco as ((t & Hob & Htc) & _). unfold deadline in Hd. rewrite Hob in Hd.
  set (s1 := set_now (now s + Z.of_N w)%Z s).
  exists (fire true s1). split; [|split].
  - simpl. unfold step. rewrite Ht. simpl. rewrite Ht.
    assert (E : owned by_set s1 = true) by by apply owned_true. fold s1. rewrite E.
    unfold due. simpl. rewrite Hob. unfold expired. change (m_deadline t) with (get_deadline t). rewrite (proj2 (Z.leb_le _ _) Hd), Z.leb_refl. done.
  - split; [done|]. right. split; [done|]. unfold work_left. simpl.
    assert (H := sum_without by_set (owners s) Ho). simpl in H. lia.
  - unfold fire. simpl. set_solver.
Qed.

Lemma run_one l s s' : step l s = Some s' -> run step [l] s = Some s'.
Proof. simpl. by intros ->. Qed.

Lemma next_progress s :
  dinv s -> co s = suspended -> terminated s = false ->
  exists s', run step (next s) s = Some s' /\ advances s s'.
Proof.
  intros Hs Hc Ht. assert (Hco := d_co s Hs). unfold coroutine_ok in Hco. rewrite Hc in Hco.
  destruct Hco as (_ & Hne & _ & Hca & _).
  assert (Hstep : forall l s', advances s s' -> (if terminated s then None else step l s) = Some s' ->
    exists s', run step [l] s = Some s' /\ advances s s').
  { intros l s' Ha E. exists s'. split; [|done]. apply run_one. by rewrite Ht in E. }
  unfold next.
  destruct (owned by_closure s) eqn:E1.
  { eapply Hstep; [by apply run_advances; [..|]; rewrite ?owned_true in E1|]. unfold step. by rewrite Ht, E1, Hca. }
  destruct (added s) eqn:Ea; simpl.
  2:{ assert (E2 : by_call ∈ owners s).
      { destruct (owners s) as [|o l] eqn:E; [done|]. rewrite (d_new s Hs Ea o) by (rewrite E; set_solver). set_solver. }
      eapply Hstep; [by apply add_advances|]. unfold step. apply owned_true in E2. by rewrite Ht, E2, Ea. }
  destruct (owned by_request s) eqn:E2.
  { assert (Hab : m_abort s = false).
    { destruct (m_abort s) eqn:E; [|done]. apply owned_true in E2. by destruct (d_abort s Hs E). }
    eapply Hstep; [by apply (hand_over_advances by_request by_batch); [apply owned_true|simpl; lia|..]|].
    unfold step. by rewrite Ht, E2, Hab. }
  destruct (owned by_batch s) eqn:E3.
  { eapply Hstep; [by apply (hand_over_advances by_batch by_set); [apply owned_true|simpl; lia|..]|].
    unfold step. by rewrite Ht, E3. }
  destruct (owned by_set s) eqn:E4.
  { destruct (m_abort s) eqn:Eab.
    - eapply Hstep; [by apply (drop_advances in_worker false by_set); [|apply owned_true|..]|].
      unfold step. by rewrite Ht, E4, Eab.
    - destruct (fire_advances (Z.to_N (deadline s - now s)) s) as (s' & H1 & H2 & _);
        [done|by apply owned_true|done..|lia|]. by exists s'. }
  destruct (owned by_call s) eqn:E5.
  { eapply Hstep; [by apply temporary_advances; [apply dinv_drop|apply drop_advances]; auto; apply owned_true|].
    unfold step. by rewrite Ht, E5, Ea. }
  assert (E6 : by_node ∈ owners s).
  { destruct (owners s) as [|o l] eqn:E; [done|]. unfold owned in *. rewrite E in *.
    repeat match goal with H : bool_decide _ = false |- _ => apply bool_decide_eq_false in H end.
    destruct o; set_solver. }
  eapply Hstep; [by apply (drop_advances in_worker false by_node)|].
  unfold step. apply owned_true in E6. by rewrite Ht, E6.
Qed.

(** ** Delays that nothing disturbs *)
Lemma next_orderly s : dinv s -> undisturbed s -> co s = suspended -> forallb orderly (next s) = true.
Proof.
  intros Hs (Hab & Ht & _) Hc. unfold next. by repeat (case_match; try done; simplify_eq/=).
Qed.

(** An owner that lets go does not interrupt an undisturbed delay. *)
Lemma drop_undisturbed p b o s :
  dinv s -> undisturbed s -> o ∈ owners s -> early o = false -> o <> by_closure -> added s = true ->
  undisturbed (drop p b o s).
Proof.
  intros Hs (Hab & Ht & Hu & Hr) Ho Hearly Hcl Ha.
  destruct (drop_cases p b o s Hs Ho) as [[_ ->]|(He & t & f & _ & [[Hc _]|[Hca ->]])]; simpl in *.
  - unfold undisturbed; simpl; split_ands; try done. intros Hc. right. destruct (Hu Hc) as [?|(o' & H1 & H2)]; [congruence|].
    exists o'. split; [|done]. apply elem_of_without. split; [|done]. intros ->. destruct H2; congruence.
  - destruct (Hu Hc) as [?|(o' & H1 & H2)]; [congruence|].
    assert (o' = o) as -> by by eapply filter_all_out. destruct H2; congruence.
  - unfold undisturbed; simpl; split_ands; try done. intros Hc. assert (Hco := d_co s Hs). unfold coroutine_ok in Hco. rewrite Hc in Hco.
    destruct Hco as (_ & _ & _ & ? & _). congruence.
Qed.

Lemma undisturbed_step l s s' :
  dinv s -> undisturbed s -> orderly l = true -> step l s = Some s' -> undisturbed s'.
Proof.
  intros Hs Hu Hl. assert (Hu' := Hu). destruct Hu' as (Hab & Ht & Hsus & Hr). unfold step. rewrite Ht.
  destruct l; try discriminate Hl; intros H; step_inv H;
    repeat match goal with H : _ && _ = true |- _ => apply andb_true_iff in H as [? ?] end;
    rewrite ?owned_true, ?negb_true_iff in *; try done.
  - destruct out_of_memory; [done|]. unfold await_suspend. simpl. unfold undisturbed; simpl. split_ands; try done.
    assert (Hco := d_co s Hs). unfold coroutine_ok in Hco. destruct (co s); [|done..]. left. apply Hco.
  - unfold add_timer. rewrite Hab. unfold undisturbed; simpl. split_ands; try done.
    intros _. right. exists by_request. split; [set_solver|by left].
  - unfold return_timer. rewrite drop_temporary_ok by (apply dinv_drop; auto).
    by apply (drop_undisturbed in_await_suspend false by_call) in Hu.
  - unfold undisturbed; simpl. split_ands; try done. intros _. right. exists by_batch. split; [set_solver|by left].
  - unfold undisturbed; simpl. split_ands; try done. intros _. right. exists by_set. split; [set_solver|by left].
  - unfold undisturbed, fire; simpl. split_ands; try done. intros _. right. exists by_closure.
    split; [set_solver|by right].
  - apply drop_undisturbed; try done. destruct (added_or by_node s Hs); done.
  - assert (Hco := d_co s Hs). unfold coroutine_ok in Hco. destruct (co s) as [| |r] eqn:Hc.
    + destruct Hco as (_ & E & _). match goal with H : by_closure ∈ _ |- _ => rewrite E in H; set_solver end.
    + destruct Hco as ((t & Hob & Htc) & _ & _ & _ & Hint). unfold run_closure. simpl. rewrite Hob.
      unfold execute_calls. rewrite Htc. simpl. unfold apply_event. simpl. rewrite Hc. simpl.
      unfold undisturbed, await_resume; simpl. rewrite Hint. split_ands; try done. by intros r [= <-].
    + destruct Hco as (_ & x & _ & [(E & _)|(_ & _ & _ & E)]); [congruence|]. match goal with H : by_closure ∈ _ |- _ => rewrite E in H; set_solver end.
Qed.

Lemma undisturbed_run ls : forall s s',
  dinv s -> undisturbed s -> forallb orderly ls = true -> run step ls s = Some s' -> undisturbed s'.
Proof.
  induction ls as [|l ls IH]; intros s s' Hs Hu Ho Hrun; simpl in *; [by simplify_eq|].
  apply andb_true_iff in Ho as [Ho1 Ho2]. destruct (step l s) as [s1|] eqn:E; [|done].
  eapply IH; [by eapply dinv_step|by eapply undisturbed_step|done|done].
Qed.

Lemma delay_ends s :
  dinv s -> co s = suspended -> terminated s = false ->
  exists ls s', run step ls s = Some s' /\ co s' <> suspended /\ terminated s' = false /\
    (undisturbed s -> forallb orderly ls = true).
Proof.
  remember (work_left s) as n eqn:Hn. revert s Hn. induction n as [n IH] using lt_wf_ind. intros s -> Hs Hc Ht.
  destruct (next_progress s Hs Hc Ht) as (s1 & Hrun & Ht1 & [Hc1|[Hc1 Hlt]]).
  { exists (next s), s1. split_ands; try done. intros Hu. by apply next_orderly. }
  assert (Hs1 : dinv s1) by (eapply run_preserves; [apply dinv_step|exact Hs|exact Hrun]).
  destruct (IH _ Hlt s1 eq_refl Hs1 Hc1 Ht1) as (ls & s' & Hrun' & Hc' & Ht' & Ho).
  exists (next s ++ ls), s'. split_ands; [by rewrite run_app, Hrun|done..|].
  intros Hu. rewrite forallb_app, next_orderly by done. apply Ho.
  eapply undisturbed_run; [exact Hs|exact Hu| |exact Hrun]. by apply next_orderly.
Qed.

(** A coroutine that was awaited stays so. *)
Lemma events_started p b o s : co s <> not_started -> co (apply_events p b o s) <> not_started.
Proof.
  destruct o as [evs|e|]; simpl; [|done..]. revert s. induction evs as [|e evs IH]; intros s Hc; simpl; [done|].
  apply IH. unfold apply_event. destruct (co s) eqn:E, e; try case_decide; simpl; congruence.
Qed.

Lemma drop_started p b o s : co s <> not_started -> co (drop p b o s) <> not_started.
Proof.
  intros Hc. unfold drop. simpl. destruct (filter _ (owners s)), (object s) as [[]|]; try done. by apply events_started.
Qed.

Lemma step_started l s s' : dinv s -> co s <> not_started -> step l s = Some s' -> co s' <> not_started.
Proof.
  intros Hs Hc. unfold step. destruct (terminated s); [done|].
  destruct l; intros H; step_inv H; try done; try (by apply drop_started).
  - unfold add_timer. destruct (m_abort s); [|done].
    apply andb_true_iff in Heqb as [Ho%owned_true Ha%negb_true_iff].
    rewrite drop_temporary_ok by (apply dinv_drop; auto). by apply drop_started.
  - unfold return_timer. apply andb_true_iff in Heqb as [Ho%owned_true Ha].
    rewrite drop_temporary_ok by (apply dinv_drop; auto). by apply drop_started.
  - unfold fire. by destruct accepted.
  - unfold run_closure. cbn [set_called object]. destruct (object s) as [[t f]|]; [|done].
    destruct (execute_calls t); [|done]. destruct (await_via_functor.call f) as [[]| |]; try apply events_started; exact Hc.
  - case_match; [|done]. by apply drop_started.
Qed.

(** C16. A delay that was awaited ends: from every state in which its
    coroutine is suspended, the steps of the program lead to its resumption,
    unless an exception of [fire()] has ended the program; and when nothing
    interferes (the queue and the executor are not shut down and there is memory
    for the timer), every such delay ends normally. *)
Theorem delay_object_completes t due ex d ls s :
  make_delay_object t due (Some ex) = Ok d -> run step ls d = Some s ->
  co s = suspended -> terminated s = false ->
  (exists ls' s' r, run step ls' s = Some s' /\ co s' = ended r) /\
  (forallb orderly ls = true ->
   exists ls' s', forallb orderly ls' = true /\ run step ls' s = Some s' /\ co s' = ended (Ok tt)).
Proof.
  intros Hd Hrun Hc Ht. assert (Hd0 := dinv_init _ _ _ _ Hd).
  assert (Hs : dinv s) by (eapply run_preserves; [apply dinv_step|exact Hd0|exact Hrun]).
  destruct (delay_ends s Hs Hc Ht) as (ls' & s' & Hrun' & Hc' & Ht' & Ho).
  assert (Hs' : dinv s' /\ co s' <> not_started).
  { eapply (run_preserves step (fun s => dinv s /\ co s <> not_started)); [|split; [exact Hs|by rewrite Hc]|exact Hrun'].
    intros l s1 s2 [H1 H2] Hl. split; [by eapply dinv_step|by eapply step_started]. }
  destruct Hs' as [Hs' Hns]. destruct (co s') as [| |r] eqn:Hr; [done..|].
  split; [by exists ls', s', r|]. intros Hls.
  assert (Hu0 : undisturbed d) by (injection Hd as <-; done).
  assert (Hu : undisturbed s) by exact (undisturbed_run ls d s Hd0 Hu0 Hls Hrun).
  exists ls', s'. split_ands; [by apply Ho|done|].
  destruct (undisturbed_run ls' s s' Hs Hu (Ho Hu) Hrun') as (_ & _ & _ & Hok). by rewrite (Hok r Hr) in Hr.
Qed.

(** [shutdown] clears [m_request_queue] while it holds [m_lock]: the coroutine
    of a delay that waits there is resumed by the thread that owns the lock, and
    must not use the timer queue. *)
Lemma shutdown_resumes_under_the_lock d :
  make_delay_object 1000 5 (Some 1) = Ok d ->
  exists s, run step [l_await false; l_add; l_return; l_shutdown] d = Some s /\
    co s = ended (Throw broken) /\ resumptions s = [make_resumption in_shutdown true 1000].
Proof. intros [= <-]. eexists. split; [vm_compute; done|done]. Qed.

(** After the shutdown, awaiting a delay throws [broken_task]. *)
Lemma delay_after_shutdown d :
  make_delay_object 1000 5 (Some 1) = Ok d ->
  exists s, run step [l_shutdown; l_await false; l_add] d = Some s /\
    co s = ended (Throw broken) /\ resumptions s = [make_resumption in_await_suspend false 1000].
Proof. intros [= <-]. eexists. split; [vm_compute; done|done]. Qed.

(** ** Witnesses *)

(** A delay of five milliseconds that was resumed by its executor. *)
Definition some_delay : delay :=
  make_delay 1000 5 1 1000 not_started false None None [] false false false false [] false.
Definition a_delay_run : list label :=
  [l_await false; l_add; l_take; l_insert; l_tick 5000000; l_fire 5001000 true; l_run].

Lemma delay_object_is_resumed_once_witness :
  exists s, run step a_delay_run some_delay = Some s /\ length (resumptions s) <= 1 /\ co s = ended (Ok tt).
Proof.
  destruct (run step a_delay_run some_delay) as [s|] eqn:E; [|vm_compute in E; discriminate].
  exists s. split; [reflexivity|]. split.
  - eapply (delay_object_is_resumed_once 1000 5 1 some_delay s); [unfold int64; lia|reflexivity|exact (run_reachable _ _ _ _ E)].
  - vm_compute in E. injection E as <-. reflexivity.
Defined.

Lemma delay_object_completes_witness :
  exists s ls' s', run step [l_await false; l_add; l_take] some_delay = Some s /\
    forallb orderly ls' = true /\ run step ls' s = Some s' /\ co s' = ended (Ok tt).
Proof.
  destruct (run step [l_await false; l_add; l_take] some_delay) as [s|] eqn:E; [|vm_compute in E; discriminate].
  assert (H : co s = suspended /\ terminated s = false) by (vm_compute in E; injection E as <-; split; reflexivity).
  destruct (delay_object_completes 1000 5 1 some_delay [l_await false; l_add; l_take] s) as [_ Hok];
    [reflexivity|exact E|apply H|apply H|].
  destruct Hok as (ls' & s' & Hok); [reflexivity|]. exists s, ls', s'. split; [reflexivity|exact Hok].
Defined.
