(* ===== verification/WorkerThreadExecutor.v ===== *)
(** * worker_thread_executor

    [source/executors/worker_thread_executor.cpp]: one worker thread with a
    private queue, a public queue filled by other threads, and a
    [std::binary_semaphore] between them.

    One label is one critical section or one atomic access.  A task is run in
    one step, whose label says which tasks it enqueues on its own executor and
    whether it throws.  The standard only requires [binary_semaphore] to count
    up to 1: what an implementation supports is the parameter
    [semaphore_max]. *)

From stdpp Require Import prelude list strings.
From S2P Require Import Prelude Errors.
#[local] Open Scope list_scope.

(** A task, and whether the worker itself enqueued it. *)
Record wtask := make_wtask { task_id : nat; is_local : bool }.

#[export] Instance wtask_eq_dec : EqDecision wtask.
Proof. solve_decision. Defined.

(** Why the program ended. *)
Inductive reason := assertion_failed | task_threw | semaphore_overflow.

Inductive worker_thread_pc :=
  | wt_none             (* m_thread is not joinable *)
  | wt_drain            (* before drain_queue takes the lock *)
  | wt_acquire          (* in m_semaphore.acquire() *)
  | wt_relock           (* acquired; before lock.lock() *)
  | wt_loop             (* at the head of the loop of drain_queue_impl *)
  | wt_ended            (* work_loop returned *)
  | wt_terminated (why : reason).

Inductive shutdown_pc := sp_none | sp_lock | sp_private | sp_release | sp_join | sp_take | sp_done.

#[export] Instance reason_eq_dec : EqDecision reason.
Proof. solve_decision. Defined.
#[export] Instance worker_thread_pc_eq_dec : EqDecision worker_thread_pc.
Proof. solve_decision. Defined.
#[export] Instance shutdown_pc_eq_dec : EqDecision shutdown_pc.
Proof. solve_decision. Defined.

Record worker_thread_executor := make_wte {
  m_private_queue : list wtask;
  m_private_atomic_abort : bool;
  m_public_queue : list wtask;
  m_semaphore : nat;
  m_thread : worker_thread_pc;
  m_atomic_abort : bool;
  m_abort : bool;
  releasing : nat;              (* threads between lock.unlock() and m_semaphore.release() *)
  shutting_down : shutdown_pc;
  submitted : list wtask;       (* accepted by enqueue *)
  executed : list wtask;
  destroyed : list wtask        (* destroyed without a call *)
}.

Definition new_executor : worker_thread_executor :=
  make_wte [] false [] 0 wt_none false false 0 sp_none [] [] [].

Definition set_private v s := make_wte v (m_private_atomic_abort s) (m_public_queue s) (m_semaphore s) (m_thread s)
  (m_atomic_abort s) (m_abort s) (releasing s) (shutting_down s) (submitted s) (executed s) (destroyed s).
Definition set_private_abort v s := make_wte (m_private_queue s) v (m_public_queue s) (m_semaphore s) (m_thread s)
  (m_atomic_abort s) (m_abort s) (releasing s) (shutting_down s) (submitted s) (executed s) (destroyed s).
Definition set_public v s := make_wte (m_private_queue s) (m_private_atomic_abort s) v (m_semaphore s) (m_thread s)
  (m_atomic_abort s) (m_abort s) (releasing s) (shutting_down s) (submitted s) (executed s) (destroyed s).
Definition set_semaphore v s := make_wte (m_private_queue s) (m_private_atomic_abort s) (m_public_queue s) v (m_thread s)
  (m_atomic_abort s) (m_abort s) (releasing s) (shutting_down s) (submitted s) (executed s) (destroyed s).
Definition set_thread v s := make_wte (m_private_queue s) (m_private_atomic_abort s) (m_public_queue s) (m_semaphore s) v
  (m_atomic_abort s) (m_abort s) (releasing s) (shutting_down s) (submitted s) (executed s) (destroyed s).
Definition set_atomic_abort v s := make_wte (m_private_queue s) (m_private_atomic_abort s) (m_public_queue s) (m_semaphore s) (m_thread s)
  v (m_abort s) (releasing s) (shutting_down s) (submitted s) (executed s) (destroyed s).
Definition set_abort v s := make_wte (m_private_queue s) (m_private_atomic_abort s) (m_public_queue s) (m_semaphore s) (m_thread s)
  (m_atomic_abort s) v (releasing s) (shutting_down s) (submitted s) (executed s) (destroyed s).
Definition set_releasing v s := make_wte (m_private_queue s) (m_private_atomic_abort s) (m_public_queue s) (m_semaphore s) (m_thread s)
  (m_atomic_abort s) (m_abort s) v (shutting_down s) (submitted s) (executed s) (destroyed s).
Definition set_shutting v s := make_wte (m_private_queue s) (m_private_atomic_abort s) (m_public_queue s) (m_semaphore s) (m_thread s)
  (m_atomic_abort s) (m_abort s) (releasing s) v (submitted s) (executed s) (destroyed s).
Definition set_submitted v s := make_wte (m_private_queue s) (m_private_atomic_abort s) (m_public_queue s) (m_semaphore s) (m_thread s)
  (m_atomic_abort s) (m_abort s) (releasing s) (shutting_down s) v (executed s) (destroyed s).
Definition set_executed v s := make_wte (m_private_queue s) (m_private_atomic_abort s) (m_public_queue s) (m_semaphore s) (m_thread s)
  (m_atomic_abort s) (m_abort s) (releasing s) (shutting_down s) (submitted s) v (destroyed s).
Definition set_destroyed v s := make_wte (m_private_queue s) (m_private_atomic_abort s) (m_public_queue s) (m_semaphore s) (m_thread s)
  (m_atomic_abort s) (m_abort s) (releasing s) (shutting_down s) (submitted s) (executed s) v.

Section worker_thread.
Context (semaphore_max : nat).

(** [m_semaphore.release()]. *)
Definition semaphore_release (s : worker_thread_executor) : worker_thread_executor :=
  if decide (m_semaphore s < semaphore_max) then set_semaphore (S (m_semaphore s)) s
  else set_thread (wt_terminated semaphore_overflow) s.

(** [enqueue_foreign], for one task or a span; [None]: it throws. *)
Definition enqueue_foreign (tasks : list nat) (s : worker_thread_executor) : option worker_thread_executor :=
  if m_abort s then None
  else
    let new := (fun i => make_wtask i false) <$> tasks in
    let is_empty := bool_decide (m_public_queue s = []) in
    let s := set_submitted (submitted s ++ new) (set_public (m_public_queue s ++ new) s) in
    if decide (m_thread s = wt_none) then Some (set_thread wt_drain s)      (* make_os_worker_thread *)
    else if is_empty then Some (set_releasing (S (releasing s)) s)
    else Some s.

(** [enqueue_local]; [None]: it throws. *)
Definition enqueue_local (tasks : list nat) (s : worker_thread_executor) : option worker_thread_executor :=
  if m_private_atomic_abort s then None
  else
    let new := (fun i => make_wtask i true) <$> tasks in
    Some (set_submitted (submitted s ++ new) (set_private (m_private_queue s ++ new) s)).

(** What a task does, seen from its executor. *)
Record behaviour := make_behaviour { enqueues : list (list nat); throws : bool }.

Fixpoint enqueue_all (l : list (list nat)) (s : worker_thread_executor) : worker_thread_executor :=
  match l with
  | [] => s
  | ts :: l => enqueue_all l (match enqueue_local ts s with Some s' => s' | None => s end)
  end.

(** The part of [drain_queue] after [wait_for_task], in the same critical
    section. *)
Definition drain_queue (s : worker_thread_executor) : worker_thread_executor :=
  if negb (negb (bool_decide (m_public_queue s = [])) || m_abort s) then set_thread (wt_terminated assertion_failed) s
  else if m_abort s then set_thread wt_ended s
  else if negb (bool_decide (m_private_queue s = [])) then set_thread (wt_terminated assertion_failed) s
  else set_thread wt_loop (set_public (m_private_queue s) (set_private (m_public_queue s) s)).

(** [wait_for_task] when the lock was taken. *)
Definition wait_for_task (s : worker_thread_executor) : worker_thread_executor :=
  if negb (bool_decide (m_public_queue s = [])) || m_abort s then drain_queue s
  else set_thread wt_acquire s.

(** One turn of the loop of [drain_queue_impl]. *)
Definition drain_queue_impl (b : behaviour) (s : worker_thread_executor) : worker_thread_executor :=
  match m_private_queue s with
  | [] => set_thread wt_drain s
  | task :: rest =>
      let s := set_private rest s in
      if m_private_atomic_abort s then set_thread wt_ended (set_destroyed (destroyed s ++ [task]) s)
      else
        let s := enqueue_all (enqueues b) (set_executed (executed s ++ [task]) s) in
        if throws b then set_thread (wt_terminated task_threw) s else s
  end.

Inductive wlabel :=
  | wl_enqueue (tasks : list nat)
  | wl_release
  | wl_lock
  | wl_acquire
  | wl_loop (b : behaviour)
  | wl_shutdown
  | wl_shutdown_step.

(** [shutdown()], one access after the other. *)
Definition shutdown_step (s : worker_thread_executor) : option worker_thread_executor :=
  match shutting_down s with
  | sp_none | sp_done => None
  | sp_lock => Some (set_shutting sp_private (set_abort true s))
  | sp_private => Some (set_shutting sp_release (set_private_abort true s))
  | sp_release => Some (set_shutting sp_join (semaphore_release s))
  | sp_join =>
      match m_thread s with
      | wt_none => Some (set_shutting sp_take s)
      | wt_ended => Some (set_shutting sp_take (set_thread wt_none s))
      | _ => None
      end
  | sp_take => Some (set_shutting sp_done (set_destroyed (destroyed s ++ m_private_queue s ++ m_public_queue s)
                       (set_private [] (set_public [] s))))
  end.

Definition wstep (l : wlabel) (s : worker_thread_executor) : option worker_thread_executor :=
  match m_thread s with
  | wt_terminated _ => None
  | _ =>
    match l with
    | wl_enqueue tasks => enqueue_foreign tasks s
    | wl_release =>
        if decide (releasing s = 0) then None
        else Some (semaphore_release (set_releasing (releasing s - 1) s))
    | wl_lock =>
        match m_thread s with wt_drain | wt_relock => Some (wait_for_task s) | _ => None end
    | wl_acquire =>
        match m_thread s with
        | wt_acquire =>
            if decide (m_semaphore s = 0) then None
            else Some (set_thread wt_relock (set_semaphore (m_semaphore s - 1) s))
        | _ => None
        end
    | wl_loop b => match m_thread s with wt_loop => Some (drain_queue_impl b s) | _ => None end
    | wl_shutdown =>
        if m_atomic_abort s then Some s
        else Some (set_shutting sp_lock (set_atomic_abort true s))
    | wl_shutdown_step => shutdown_step s
    end
  end.
End worker_thread.

(** [enqueue]: the worker's own thread goes to the private queue. *)
Definition enqueue_is_local (this_worker this : option nat) : bool := bool_decide (this_worker = this).

Definition max_concurrency_level : Z := k_worker_thread_max_concurrency_level.
Definition shutdown_requested (s : worker_thread_executor) : bool := m_atomic_abort s.
