(* ===== verification/WorkerThreadTheorems.v ===== *)
(** * What worker_thread_executor guarantees *)

From stdpp Require Import prelude list strings.
From S2P Require Import Prelude Errors WorkerThreadExecutor.
#[local] Open Scope list_scope.

Definition local_tasks (l : list wtask) : list wtask := filter (fun t => is_local t = true) l.
Definition foreign_tasks (l : list wtask) : list wtask := filter (fun t => is_local t = false) l.

(** Every task that was accepted, in the order in which it leaves. *)
Definition all_tasks (s : worker_thread_executor) : list wtask :=
  executed s ++ destroyed s ++ m_private_queue s ++ m_public_queue s.

Definition new_tasks (local : bool) (ids : list nat) : list wtask := (fun i => make_wtask i local) <$> ids.

Lemma filter_new (b : bool) ids :
  local_tasks (new_tasks b ids) = (if b then new_tasks b ids else []) /\
  foreign_tasks (new_tasks b ids) = (if b then [] else new_tasks b ids).
Proof.
  unfold local_tasks, foreign_tasks, new_tasks. induction ids as [|i ids [IH1 IH2]]; [by destruct b|].
  rewrite fmap_cons, !filter_cons. simpl. destruct b; simpl in *; rewrite IH1, IH2; done.
Qed.

Lemma local_app l1 l2 : local_tasks (l1 ++ l2) = local_tasks l1 ++ local_tasks l2.
Proof. apply list.filter_app. Qed.
Lemma foreign_app l1 l2 : foreign_tasks (l1 ++ l2) = foreign_tasks l1 ++ foreign_tasks l2.
Proof. apply list.filter_app. Qed.

Record winv (s : worker_thread_executor) : Prop := {
  w_local : local_tasks (submitted s) = local_tasks (all_tasks s);
  w_foreign : foreign_tasks (submitted s) = foreign_tasks (all_tasks s);
  w_public : local_tasks (m_public_queue s) = [];
  w_destroyed : destroyed s <> [] -> m_thread s = wt_ended \/ m_abort s = true /\ m_thread s = wt_none;
  w_running : forall why, m_thread s <> wt_terminated why;
  w_private : m_thread s = wt_none /\ m_abort s = false \/ m_thread s = wt_drain \/ m_thread s = wt_acquire \/ m_thread s = wt_relock ->
    m_private_queue s = [];
  w_relock : m_thread s = wt_acquire -> m_public_queue s <> [] -> 0 < m_semaphore s + releasing s;
  w_told : m_thread s = wt_acquire -> m_abort s = true ->
    0 < m_semaphore s + releasing s \/ shutting_down s = sp_private \/ shutting_down s = sp_release;
  w_none : m_thread s = wt_none -> m_abort s = false -> m_public_queue s = [];
  w_ended : m_thread s = wt_ended -> m_abort s = true;
  w_private_abort : m_private_atomic_abort s = true -> m_abort s = true;
  w_shutdown : match shutting_down s with
    | sp_none | sp_lock => m_abort s = false
    | sp_take | sp_done => m_abort s = true /\ m_thread s = wt_none
    | _ => m_abort s = true end;
  w_not_none : shutting_down s <> sp_none -> m_atomic_abort s = true
}.

Ltac wsimpl := unfold all_tasks in *; simpl in *.

Lemma new_executor_inv : winv new_executor.
Proof. split; try done. Qed.

(** The program has ended, not by an assertion. *)
Definition is_terminated (s : worker_thread_executor) : Prop :=
  m_thread s = wt_terminated task_threw \/ m_thread s = wt_terminated semaphore_overflow.

Ltac winv_intro H := destruct H as [Hloc Hfor Hpub Hdes Hrun Hpriv Hre Htold Hnone Hend Hpa Hsd Hnn].

(** The propositional rest of an invariant. *)
Ltac wprop :=
  intros; repeat match goal with
    | H : ?A -> _, H' : ?A |- _ => specialize (H H')
    | H : _ /\ _ |- _ => destruct H
    | H : _ \/ _ |- _ => destruct H
    | H : ?a <> ?b -> _ |- _ => specialize (H ltac:(discriminate))
    end; try congruence; try lia; tauto.

Ltac wsolve :=
  try done; try (by rewrite ?app_nil_r); try (solve [wprop]);
  try (match goal with |- match shutting_down ?s with _ => _ end => destruct (shutting_down s) end; solve [wprop]).

Section proofs.
Context (semaphore_max : nat).

Lemma release_inv s n :
  winv s -> releasing s <= n + 1 ->
  let s' := semaphore_release semaphore_max (set_releasing n s) in is_terminated s' \/ winv s'.
Proof.
  intros H Hn. winv_intro H. unfold semaphore_release. simpl. case_decide; [right|left; by right].
  split; wsimpl; try done.
  - intros Hw Hq. specialize (Hre Hw Hq). lia.
  - intros Hw Ha. destruct (Htold Hw Ha) as [?|?]; [left; lia|by right].
Qed.

Lemma enqueue_foreign_inv ts s s' :
  winv s -> enqueue_foreign ts s = Some s' -> winv s'.
Proof.
  intros H. winv_intro H. unfold enqueue_foreign. destruct (m_abort s) eqn:Ea; [done|].
  destruct (filter_new false ts) as [Fl Ff]. fold (new_tasks false ts).
  assert (Hl : local_tasks (submitted s ++ new_tasks false ts) =
    local_tasks (executed s ++ destroyed s ++ m_private_queue s ++ m_public_queue s ++ new_tasks false ts)).
  { rewrite !local_app, Fl, Hloc. unfold all_tasks. by rewrite !local_app, !app_nil_r. }
  assert (Hf : foreign_tasks (submitted s ++ new_tasks false ts) =
    foreign_tasks (executed s ++ destroyed s ++ m_private_queue s ++ m_public_queue s ++ new_tasks false ts)).
  { rewrite foreign_app, Hfor. unfold all_tasks. by rewrite !foreign_app, <-!app_assoc. }
  assert (Hp : local_tasks (m_public_queue s ++ new_tasks false ts) = []) by (by rewrite local_app, Hpub, Fl).
  case_decide as Ht; [|destruct (bool_decide _) eqn:Eb]; intros [= <-]; split; wsimpl; wsolve.
  apply bool_decide_eq_false in Eb. naive_solver.
Qed.

Lemma enqueue_local_inv ts s s' :
  winv s -> m_thread s = wt_loop -> enqueue_local ts s = Some s' -> winv s' /\ m_thread s' = wt_loop.
Proof.
  intros H Hw. winv_intro H. unfold enqueue_local. destruct (m_private_atomic_abort s) eqn:Ea; [done|].
  destruct (filter_new true ts) as [Fl Ff]. fold (new_tasks true ts). intros [= <-].
  assert (Hl : local_tasks (submitted s ++ new_tasks true ts) =
    local_tasks (executed s ++ destroyed s ++ (m_private_queue s ++ new_tasks true ts) ++ m_public_queue s)).
  { rewrite local_app, Fl, Hloc. unfold all_tasks. by rewrite !local_app, Fl, Hpub, !app_nil_r, <-!app_assoc. }
  assert (Hf : foreign_tasks (submitted s ++ new_tasks true ts) =
    foreign_tasks (executed s ++ destroyed s ++ (m_private_queue s ++ new_tasks true ts) ++ m_public_queue s)).
  { rewrite foreign_app, Ff, Hfor. unfold all_tasks. by rewrite !foreign_app, Ff, !app_nil_r. }
  split; [|done]. split; wsimpl; wsolve.
Qed.

Lemma enqueue_all_inv l s :
  winv s -> m_thread s = wt_loop -> winv (enqueue_all l s) /\ m_thread (enqueue_all l s) = wt_loop.
Proof.
  revert s. induction l as [|ts l IH]; intros s H Hw; simpl; [done|].
  destruct (enqueue_local ts s) as [s'|] eqn:E; [|by apply IH].
  destruct (enqueue_local_inv ts s s' H Hw E). by apply IH.
Qed.

Lemma nothing_destroyed s :
  winv s -> m_thread s <> wt_ended -> m_thread s <> wt_none -> destroyed s = [].
Proof.
  intros H H1 H2. pose proof (w_destroyed s H) as Hd. destruct (destroyed s); [done|].
  destruct (Hd ltac:(done)) as [|[]]; congruence.
Qed.

Lemma drain_queue_inv s :
  winv s -> m_thread s = wt_drain \/ m_thread s = wt_relock ->
  m_public_queue s <> [] \/ m_abort s = true -> winv (drain_queue s).
Proof.
  intros H Hw Hc. assert (Hd : destroyed s = []) by (apply nothing_destroyed; [done|destruct Hw; congruence..]).
  winv_intro H. unfold drain_queue. assert (Hp : m_private_queue s = []) by (apply Hpriv; tauto).
  destruct (m_abort s) eqn:Ea.
  - rewrite orb_true_r. cbn [negb]. split; wsimpl; wsolve.
  - rewrite orb_false_r, bool_decide_eq_false_2 by (destruct Hc; congruence). cbn [negb].
    rewrite bool_decide_eq_true_2 by done. cbn [negb].
    split; wsimpl; rewrite ?Hd, ?Hp, ?app_nil_r in *; wsolve.
Qed.

Lemma wait_for_task_inv s :
  winv s -> m_thread s = wt_drain \/ m_thread s = wt_relock -> winv (wait_for_task s).
Proof.
  intros H Hw. unfold wait_for_task. case_bool_decide as Hq; cbn [negb orb].
  2: { apply drain_queue_inv; auto. }
  destruct (m_abort s) eqn:Ea; [by apply drain_queue_inv; auto|].
  winv_intro H. split; wsimpl; wsolve.
Qed.

Lemma drain_queue_impl_inv b s :
  winv s -> m_thread s = wt_loop -> let s' := drain_queue_impl b s in is_terminated s' \/ winv s'.
Proof.
  intros H Hw. assert (Hd : destroyed s = []) by (apply nothing_destroyed; [done|congruence..]).
  unfold drain_queue_impl. destruct (m_private_queue s) as [|t rest] eqn:Ep.
  { right. winv_intro H. split; wsimpl; rewrite ?Ep in *; wsolve. }
  simpl. destruct (m_private_atomic_abort s) eqn:Ea.
  - right. winv_intro H. split; wsimpl; rewrite ?Hd, ?Ep in *; wsolve.
  - assert (H1 : winv (set_executed (executed s ++ [t]) (set_private rest s)) /\
      m_thread (set_executed (executed s ++ [t]) (set_private rest s)) = wt_loop).
    { split; [|done]. winv_intro H. split; wsimpl; rewrite ?Hd, ?Ep, <-?app_assoc in *; wsolve. }
    destruct H1 as [H1 Hw1]. destruct (enqueue_all_inv (enqueues b) _ H1 Hw1) as [H2 Hw2].
    destruct (throws b); [left; by left|by right].
Qed.

Lemma shutdown_step_inv s s' :
  winv s -> shutdown_step semaphore_max s = Some s' -> is_terminated s' \/ winv s'.
Proof.
  intros H. winv_intro H. unfold shutdown_step. destruct (shutting_down s) eqn:Es; try done.
  - intros [= <-]. right. split; wsimpl; wsolve.
  - intros [= <-]. right. split; wsimpl; wsolve.
  - intros [= <-]. unfold semaphore_release. case_decide; [right|left; by right]. split; wsimpl; wsolve.
  - destruct (m_thread s) eqn:Ew; try done; intros [= <-]; right; split; wsimpl; rewrite ?Ew in *; wsolve.
  - destruct Hsd as [Ha Ht]. intros [= <-]. right.
    split; wsimpl; rewrite ?app_nil_r, <-?app_assoc in *; wsolve.
Qed.

Lemma wstep_inv l s s' :
  winv s -> wstep semaphore_max l s = Some s' -> is_terminated s' \/ winv s'.
Proof.
  intros H Hstep. unfold wstep in Hstep. pose proof (w_running s H) as Hr.
  destruct l; destruct (m_thread s) eqn:Ew; try done; try (by destruct (Hr why)).
  all: try (by right; eapply enqueue_foreign_inv).
  all: try (by eapply shutdown_step_inv).
  all: try (case_decide; [done|]); step_inv Hstep.
  all: try (apply release_inv; [done|lia]).
  all: try (right; apply wait_for_task_inv; auto).
  all: try (by apply drain_queue_impl_inv).
  all: try (by right).
  all: right; winv_intro H.
  all: try (assert (Es : shutting_down s = sp_none)
    by (destruct (shutting_down s); try done; exfalso; specialize (Hnn ltac:(done)); congruence); rewrite Es in *).
  all: split; wsimpl; rewrite ?Ew in *; wsolve.
Qed.

Lemma reachable_winv s :
  reachable (wstep semaphore_max) new_executor s -> is_terminated s \/ winv s.
Proof.
  apply (reachable_invariant (wstep semaphore_max) new_executor (fun s => is_terminated s \/ winv s)); [right; apply new_executor_inv|].
  intros l s1 s2 [Ht|H] Hstep; [|by eapply wstep_inv].
  unfold wstep in Hstep. by destruct Ht as [Ht|Ht]; rewrite Ht in Hstep.
Qed.
End proofs.

(** ** Progress *)
Section progress.
Context (semaphore_max : nat) (Hmax : 1 <= semaphore_max).

(** A task that enqueues nothing and returns. *)
Definition quiet : behaviour := make_behaviour [] false.

(** What the worker does alone, or with a thread that owes it a release. *)
Definition worker_label (l : wlabel) : Prop := l = wl_release \/ l = wl_lock \/ l = wl_acquire \/ l = wl_loop quiet.

Lemma run_private n s :
  n = length (m_private_queue s) -> m_thread s = wt_loop -> m_private_atomic_abort s = false ->
  run (wstep semaphore_max) (replicate n (wl_loop quiet)) s =
    Some (set_private [] (set_executed (executed s ++ m_private_queue s) s)).
Proof.
  revert s. induction n as [|n IH]; intros s Hn Hw Ha; destruct (m_private_queue s) as [|t rest] eqn:Ep; try done.
  - rewrite app_nil_r. destruct s; simpl in *. by subst.
  - simpl. unfold wstep at 1. rewrite Hw. unfold drain_queue_impl. rewrite Ep. simpl. rewrite Ha. simpl.
    rewrite IH; simpl; try done; [by rewrite <-app_assoc|]. simpl in Hn. lia.
Qed.

(** From the loop: everything in both queues is executed. *)
Lemma run_from_loop s :
  winv s -> m_thread s = wt_loop -> m_private_atomic_abort s = false -> m_abort s = false ->
  exists ls s', run (wstep semaphore_max) ls s = Some s' /\ Forall worker_label ls /\
    executed s' = executed s ++ m_private_queue s ++ m_public_queue s.
Proof.
  intros H Hw Hpa Ha.
  pose proof (run_private _ s eq_refl Hw Hpa) as E1. set (ls1 := replicate _ _) in E1. set (s1 := set_private _ _) in E1.
  assert (Hl1 : Forall worker_label ls1) by (apply Forall_replicate; by right; right; right).
  destruct (decide (m_public_queue s = [])) as [Hq|Hq].
  { exists ls1, s1. split_ands; [done|done|]. simpl. by rewrite Hq, app_nil_r. }
  set (s2 := set_thread wt_loop (set_public [] (set_private (m_public_queue s) s1))).
  assert (E2 : run (wstep semaphore_max) [wl_loop quiet; wl_lock] s1 = Some s2).
  { cbn [run]. unfold wstep at 1. simpl. rewrite Hw. simpl. unfold wait_for_task, drain_queue. simpl.
    rewrite (bool_decide_eq_false_2 _ Hq), Ha. done. }
  pose proof (run_private _ s2 eq_refl eq_refl Hpa) as E3. simpl in E3.
  eexists (ls1 ++ [wl_loop quiet; wl_lock] ++ replicate (length (m_public_queue s)) (wl_loop quiet)), _.
  rewrite run_app, E1, run_app, E2, E3. split_ands; [done| |simpl; by rewrite app_assoc].
  apply Forall_app. split; [done|]. apply Forall_app. split; [|apply Forall_replicate; by right; right; right].
  constructor; [by right; right; right|]. constructor; [by right; left|done].
Qed.

Lemma run_to_loop s :
  winv s -> m_abort s = false -> m_thread s <> wt_loop -> m_public_queue s <> [] ->
  exists ls s', run (wstep semaphore_max) ls s = Some s' /\ Forall worker_label ls /\ m_thread s' = wt_loop /\
    executed s' = executed s /\ m_private_queue s' = m_private_queue s ++ m_public_queue s /\ m_public_queue s' = [] /\
    m_abort s' = false /\ m_private_atomic_abort s' = m_private_atomic_abort s.
Proof.
  intros H Ha Hw Hq.
  assert (Hlock : forall s0, m_thread s0 = wt_drain \/ m_thread s0 = wt_relock -> m_abort s0 = false ->
    m_public_queue s0 <> [] -> m_private_queue s0 = [] ->
    wstep semaphore_max wl_lock s0 = Some (set_thread wt_loop (set_public [] (set_private (m_public_queue s0) s0)))).
  { intros s0 Hw0 Ha0 Hq0 Hp0. unfold wstep, wait_for_task, drain_queue.
    rewrite (bool_decide_eq_false_2 _ Hq0), Ha0, Hp0. by destruct Hw0 as [-> | ->]. }
  assert (Hacq : forall s0, m_thread s0 = wt_acquire -> 0 < m_semaphore s0 -> m_abort s0 = false ->
    m_public_queue s0 <> [] -> m_private_queue s0 = [] ->
    run (wstep semaphore_max) [wl_acquire; wl_lock] s0 =
      Some (set_thread wt_loop (set_public [] (set_private (m_public_queue s0) (set_semaphore (m_semaphore s0 - 1) s0))))).
  { intros s0 Hw0 Hs0 Ha0 Hq0 Hp0. cbn [run]. unfold wstep at 1. rewrite Hw0. case_decide; [lia|].
    rewrite Hlock by auto. done. }
  assert (Hlbl : worker_label wl_lock /\ worker_label wl_acquire /\ worker_label wl_release) by (unfold worker_label; tauto).
  destruct Hlbl as (Ll & La & Lr).
  destruct (m_thread s) as [| | | | | |why] eqn:Ew; try done.
  - by rewrite (w_none s H Ew Ha) in Hq.
  - assert (Hp : m_private_queue s = []) by (apply (w_private s H); auto).
    eexists [wl_lock], _. cbn [run]. rewrite Hlock by auto. split_ands; try done; [by repeat constructor|by rewrite Hp].
  - assert (Hp : m_private_queue s = []) by (apply (w_private s H); auto).
    pose proof (w_relock s H Ew Hq) as Hs. destruct (decide (m_semaphore s = 0)) as [Hz|Hz].
    + set (s1 := set_semaphore 1 (set_releasing (releasing s - 1) s)).
      assert (E1 : wstep semaphore_max wl_release s = Some s1).
      { unfold wstep. rewrite Ew. case_decide; [lia|]. unfold semaphore_release. simpl. rewrite Hz. case_decide; [done|lia]. }
      eexists [wl_release; wl_acquire; wl_lock], _. cbn [run]. rewrite E1.
      pose proof (Hacq s1 Ew ltac:(simpl; lia) Ha Hq Hp) as E2. cbn [run] in E2. rewrite E2.
      split_ands; try done; [by repeat constructor|simpl; by rewrite Hp].
    + eexists [wl_acquire; wl_lock], _. rewrite Hacq by (auto; lia). split_ands; try done; [by repeat constructor|simpl; by rewrite Hp].
  - assert (Hp : m_private_queue s = []) by (apply (w_private s H); auto).
    eexists [wl_lock], _. cbn [run]. rewrite Hlock by auto. split_ands; try done; [by repeat constructor|by rewrite Hp].
  - rewrite (w_ended s H Ew) in Ha. done.
  - by destruct (w_running s H why).
Qed.
End progress.

(** Nothing is lost and the order is kept: the tasks that other threads
    enqueued leave the executor in the order in which they were accepted, and
    so do those that the worker enqueued itself, each executed, then (from the
    shutdown on) destroyed, or still in a queue; no assertion fails; tasks are
    destroyed only after the shutdown. *)
Theorem worker_thread_keeps_order semaphore_max s :
  reachable (wstep semaphore_max) new_executor s ->
  m_thread s <> wt_terminated assertion_failed /\
  ((forall why, m_thread s <> wt_terminated why) ->
   local_tasks (submitted s) = local_tasks (executed s ++ destroyed s ++ m_private_queue s ++ m_public_queue s) /\
   foreign_tasks (submitted s) = foreign_tasks (executed s ++ destroyed s ++ m_private_queue s ++ m_public_queue s) /\
   (destroyed s <> [] -> m_abort s = true)).
Proof.
  intros [[Ht|Ht]|H]%reachable_winv; [rewrite Ht; naive_solver..|].
  split; [apply (w_running s H)|]. intros _. split_ands; [apply (w_local s H)|apply (w_foreign s H)|].
  intros Hd. destruct (w_destroyed s H Hd) as [Hw|[? _]]; [by apply (w_ended s H)|done].
Qed.


(** ** The semaphore *)

(** One round: a task comes while the worker is busy with another one. *)
Definition busy_round : list wlabel := [wl_enqueue [0]; wl_release; wl_loop quiet; wl_loop quiet; wl_lock].

Lemma busy_round_releases semaphore_max s n t :
  m_thread s = wt_loop -> m_private_queue s = [t] -> m_public_queue s = [] -> m_abort s = false ->
  m_private_atomic_abort s = false -> releasing s = 0 -> m_semaphore s = n -> n < semaphore_max ->
  exists s', run (wstep semaphore_max) busy_round s = Some s' /\
    m_thread s' = wt_loop /\ m_private_queue s' = [make_wtask 0 false] /\ m_public_queue s' = [] /\ m_abort s' = false /\
    m_private_atomic_abort s' = false /\ releasing s' = 0 /\ m_semaphore s' = S n.
Proof.
  destruct s as [pr pa pu se th aa ab re sd su ex de]. simpl. intros -> -> -> -> -> -> -> Hn.
  eexists. split.
  - unfold busy_round. cbn [run]. unfold wstep, enqueue_foreign. simpl. unfold semaphore_release. simpl.
    case_decide; [|lia]. reflexivity.
  - done.
Qed.

(** Releasing the semaphore is not bounded by acquiring it: when a task
    comes for the empty public queue the semaphore is released, but a worker
    that was busy takes the task without acquiring it.  So for every capacity
    (1 is all that [std::binary_semaphore] promises) the executor can reach a
    call of [release()] that the standard leaves undefined. *)
Theorem worker_thread_semaphore_overflows semaphore_max :
  exists s, reachable (wstep semaphore_max) new_executor s /\ m_thread s = wt_terminated semaphore_overflow.
Proof.
  assert (Hn : forall n, n <= semaphore_max -> exists s t, reachable (wstep semaphore_max) new_executor s /\
    m_thread s = wt_loop /\ m_private_queue s = [t] /\ m_public_queue s = [] /\ m_abort s = false /\
    m_private_atomic_abort s = false /\ releasing s = 0 /\ m_semaphore s = n).
  { induction n as [|n IH]; intros Hle.
    - exists (after (wstep semaphore_max) new_executor [wl_enqueue [0]; wl_lock]), (make_wtask 0 false).
      split; [apply after_reachable|by split_ands].
    - destruct IH as (s & t & Hr & H1 & H2 & H3 & H4 & H5 & H6 & H7); [lia|].
      destruct (busy_round_releases semaphore_max s n t) as (s' & E & H'); try done.
      exists s', (make_wtask 0 false). split; [by eapply run_reachable_from|done]. }
  destruct (Hn semaphore_max) as (s & t & Hr & H1 & H2 & H3 & H4 & H5 & H6 & H7); [done|].
  destruct s as [pr pa pu se th aa ab re sd su ex de]. simpl in *. subst.
  eexists. split.
  - eapply (run_reachable_from _ _ [wl_enqueue [0]; wl_release]); [exact Hr|].
    cbn [run]. unfold wstep, enqueue_foreign. simpl. unfold semaphore_release. simpl. case_decide; [lia|]. reflexivity.
  - done.
Qed.

(** ** Witnesses *)
Definition some_run : list wlabel :=
  [wl_enqueue [1; 2]; wl_lock; wl_loop (make_behaviour [[3]] false); wl_enqueue [4]; wl_release].

Notation after_some_run := (after (wstep 1) new_executor some_run).

Lemma worker_thread_keeps_order_witness :
  foreign_tasks (submitted after_some_run) =
    foreign_tasks (executed after_some_run ++ destroyed after_some_run ++ m_private_queue after_some_run ++ m_public_queue after_some_run).
Proof.
  destruct (worker_thread_keeps_order 1 after_some_run) as [_ H]; [apply after_reachable|].
  apply H. by vm_compute.
Defined.

