(* ===== verification/IdleWorkerSet.v ===== *)
(** * idle_worker_set

    [source/executors/thread_pool_executor.cpp], class [idle_worker_set]: a
    flag per worker and an approximate count of the idle ones.

    The operations are given twice: as sequential functions (what one call does
    when no other thread interferes) and, in [Concurrent], as their atomic
    accesses, which any number of threads may interleave. *)

From Stdlib Require Import ZArith Lia.
From stdpp Require Import prelude list.
From S2P Require Import Prelude.
#[local] Open Scope list_scope.

(** [status]: [true] is idle. *)
Record idle_worker_set := make_idle_set {
  m_approx_size : Z;                  (* atomic_intptr_t *)
  m_idle_flags : list bool
}.

Definition m_size (s : idle_worker_set) : nat := length (m_idle_flags s).

Definition new_idle_set (size : nat) : idle_worker_set := make_idle_set 0 (replicate size false).

Definition flag (s : idle_worker_set) (i : nat) : bool := default false (m_idle_flags s !! i).
Definition store (i : nat) (b : bool) (s : idle_worker_set) : idle_worker_set :=
  make_idle_set (m_approx_size s) (<[i := b]> (m_idle_flags s)).
Definition fetch_add (d : Z) (s : idle_worker_set) : idle_worker_set :=
  make_idle_set (m_approx_size s + d) (m_idle_flags s).

Definition set_idle (i : nat) (s : idle_worker_set) : idle_worker_set :=
  let before := flag s i in
  let s := store i true s in
  if before then s else fetch_add 1 s.

Definition set_active (i : nat) (s : idle_worker_set) : idle_worker_set :=
  let before := flag s i in
  let s := store i false s in
  if negb before then s else fetch_add (-1) s.

Definition try_acquire_flag (i : nat) (s : idle_worker_set) : bool * idle_worker_set :=
  if negb (flag s i) then (false, s)
  else
    let swapped := flag s i in
    let s := store i false s in
    (swapped, if swapped then fetch_add (-1) s else s).

(** The loop of [find_idle_worker], from the [i]th index on. *)
Fixpoint find_from (n : nat) (starting_pos i : nat) (caller : option nat) (s : idle_worker_set) : option nat * idle_worker_set :=
  match n with
  | 0 => (None, s)
  | S n =>
      let index := (starting_pos + i) mod m_size s in
      if decide (Some index = caller) then find_from n starting_pos (S i) caller s
      else
        let '(acquired, s) := try_acquire_flag index s in
        if (acquired : bool) then (Some index, s) else find_from n starting_pos (S i) caller s
  end.

(** [find_idle_worker]; [None] is [static_cast<size_t>(-1)]; [hashed_id] is the
    calling thread's. *)
Definition find_idle_worker (hashed_id : nat) (caller_index : option nat) (s : idle_worker_set) : option nat * idle_worker_set :=
  if (m_approx_size s <=? 0)%Z then (None, s)
  else
    let starting_pos := match caller_index with Some i => i | None => hashed_id mod m_size s end in
    find_from (m_size s) starting_pos 0 caller_index s.

(** The loop of [find_idle_workers]. *)
Fixpoint find_many (n : nat) (caller_index i : nat) (result_buffer : list nat) (max_waiters : nat)
  (s : idle_worker_set) : list nat * idle_worker_set :=
  match n with
  | 0 => (result_buffer, s)
  | S n =>
      if decide (length result_buffer < max_waiters) then
        let index := (caller_index + i) mod m_size s in
        if decide (index = caller_index) then find_many n caller_index (S i) result_buffer max_waiters s
        else
          let '(acquired, s) := try_acquire_flag index s in
          find_many n caller_index (S i) (if (acquired : bool) then result_buffer ++ [index] else result_buffer) max_waiters s
      else (result_buffer, s)
  end.

(** [find_idle_workers] into an empty buffer of the given capacity;
    [this_thread_index] is the calling thread's.  [None]: an assertion fails. *)
Definition find_idle_workers (this_thread_index capacity caller_index max_count : nat) (s : idle_worker_set)
  : option (list nat * idle_worker_set) :=
  if negb (bool_decide (max_count <= capacity)) then None
  else if (m_approx_size s <=? 0)%Z then Some ([], s)
  else if negb (bool_decide (caller_index < m_size s)) then None
  else if negb (bool_decide (caller_index = this_thread_index)) then None
  else Some (find_many (m_size s) caller_index 0 [] (Nat.min (Z.to_nat (m_approx_size s)) max_count) s).

(** ** What the searches find *)
Lemma m_size_store i b s : m_size (store i b s) = m_size s.
Proof. apply length_insert. Qed.

Lemma m_size_acquire i s : m_size (try_acquire_flag i s).2 = m_size s.
Proof. unfold try_acquire_flag. destruct (flag s i); simpl; [apply length_insert|done]. Qed.

Lemma flag_store i b s j : i < m_size s -> flag (store i b s) j = if decide (j = i) then b else flag s j.
Proof.
  intros Hi. unfold flag, store. simpl. case_decide as H; [subst; by rewrite list_lookup_insert_eq|].
  by rewrite list_lookup_insert_ne.
Qed.

Lemma flag_lt s i : flag s i = true -> i < m_size s.
Proof. unfold flag. destruct (m_idle_flags s !! i) eqn:E; [intros; by eapply lookup_lt_Some|done]. Qed.

Lemma try_acquire_spec i s r s' :
  try_acquire_flag i s = (r, s') ->
  r = flag s i /\ m_size s' = m_size s /\ forall j, flag s' j = if decide (j = i) then false else flag s j.
Proof.
  unfold try_acquire_flag. destruct (flag s i) eqn:E; simpl; intros [= <- <-]; split_ands; try done.
  - apply length_insert.
  - intros j. change (flag (fetch_add (-1) (store i false s)) j) with (flag (store i false s) j).
    apply flag_store. by apply flag_lt.
  - intros j. case_decide; congruence.
Qed.

(** What a search has taken. *)
Record found (caller : option nat) (s : idle_worker_set) (r : list nat) (s' : idle_worker_set) : Prop := {
  fo_nodup : NoDup r;
  fo_idle : forall i, i ∈ r -> flag s i = true /\ Some i <> caller;
  fo_flags : forall j, flag s' j = if decide (j ∈ r) then false else flag s j;
  fo_size : m_size s' = m_size s
}.

Lemma found_nil caller s : found caller s [] s.
Proof.
  split; [constructor|intros i H; by apply not_elem_of_nil in H| |done].
  intros j. case_decide as H; [by apply not_elem_of_nil in H|done].
Qed.

Lemma found_acquire caller s r s1 i b s2 :
  found caller s r s1 -> Some i <> caller -> try_acquire_flag i s1 = (b, s2) ->
  found caller s (if b then r ++ [i] else r) s2.
Proof.
  intros [Hn Hi Hf Hs] Hc E. apply try_acquire_spec in E as (-> & Hs2 & Hf2).
  rewrite Hf. case_decide as Hin.
  - split; [done..| |congruence]. intros j. rewrite Hf2, Hf. by repeat case_decide; subst.
  - destruct (flag s i) eqn:E.
    + split; [|..|congruence].
      * apply NoDup_app. split_ands; [done| |apply NoDup_singleton]. by intros j Hj ->%list_elem_of_singleton.
      * intros j [Hj|Hj]%elem_of_app; [by apply Hi|]. apply list_elem_of_singleton in Hj. by subst.
      * intros j. rewrite Hf2, Hf. destruct (decide (j = i)) as [-> |Hne].
        { rewrite decide_True; [done|]. apply elem_of_app. right. by left. }
        destruct (decide (j ∈ r)); [rewrite decide_True; [done|apply elem_of_app; by left]|].
        rewrite decide_False; [done|]. rewrite elem_of_app, list_elem_of_singleton. tauto.
    + split; [done..| |congruence]. intros j. rewrite Hf2, Hf. by repeat case_decide; subst.
Qed.

Lemma find_many_spec n caller i r mx s s0 r' s' :
  found (Some caller) s0 r s -> length r <= mx -> find_many n caller i r mx s = (r', s') ->
  found (Some caller) s0 r' s' /\ length r' <= mx.
Proof.
  revert i r s. induction n as [|n IH]; intros i r s Hf Hl; simpl; [by intros [= <- <-]|].
  case_decide as Hlt; [|by intros [= <- <-]]. case_decide as Hc; [by apply IH|].
  destruct (try_acquire_flag _ s) as [b s1] eqn:E. apply IH.
  - eapply found_acquire; [exact Hf|congruence|exact E].
  - destruct b; [rewrite length_app; simpl; lia|done].
Qed.

(** [find_idle_workers] takes different idle workers, not the caller, at most
    [max_count] of them. *)
Lemma find_idle_workers_spec self capacity caller mx s r s' :
  find_idle_workers self capacity caller mx s = Some (r, s') -> found (Some caller) s r s' /\ length r <= mx.
Proof.
  unfold find_idle_workers. case_bool_decide; [|done]. simpl.
  destruct (_ <=? _)%Z; [intros [= <- <-]; split; [apply found_nil|simpl; lia]|].
  do 2 (case_bool_decide; [|done]; simpl). intros [= Hfind].
  apply (find_many_spec _ _ _ _ _ _ s) in Hfind as [Hf1 Hf2]; [|apply found_nil|simpl; lia].
  split; [done|]. lia.
Qed.

(** Its assertions: the worker calls it about itself, for no more workers than
    the buffer can take. *)
Lemma find_idle_workers_asserts capacity caller mx s :
  mx <= capacity -> caller < m_size s -> is_Some (find_idle_workers caller capacity caller mx s).
Proof.
  intros H1 H2. unfold find_idle_workers. rewrite (bool_decide_eq_true_2 _ H1), (bool_decide_eq_true_2 _ H2).
  rewrite (bool_decide_eq_true_2 _ eq_refl). simpl. destruct (_ <=? _)%Z; eauto.
Qed.

Lemma find_from_spec n start i caller s r s' :
  find_from n start i caller s = (r, s') ->
  match r with Some j => found caller s [j] s' | None => s' = s /\
    forall k, i <= k < i + n -> Some ((start + k) mod m_size s) <> caller -> flag s ((start + k) mod m_size s) = false end.
Proof.
  revert i. induction n as [|n IH]; intros i; simpl.
  { intros [= <- <-]. split; [done|]. intros; lia. }
  case_decide as Hc.
  { intros H%IH. destruct r as [j|]; [done|]. destruct H as [-> H]. split; [done|]. intros k Hk Hne.
    destruct (decide (k = i)) as [-> |]; [done|]. apply H; [lia|done]. }
  destruct (try_acquire_flag _ s) as [b s1] eqn:E. pose proof E as E'. apply try_acquire_spec in E' as (Hb & Hs1 & Hf1). destruct b.
  - intros [= <- <-]. apply (found_acquire caller s [] s _ true s1 (found_nil caller s) Hc E).
  - assert (s1 = s) as ->.
    { unfold try_acquire_flag in E. rewrite <-Hb in E. by injection E. }
    intros H%IH. destruct r as [j|]; [done|]. destruct H as [-> H]. split; [done|]. intros k Hk Hne.
    destruct (decide (k = i)) as [-> |]; [done|]. apply H; [lia|done].
Qed.

(** ** The accesses of concurrent callers *)
Module Concurrent.

(** The set, the calls that are between two accesses, and what happened. *)
Record state := make_state {
  set_of : idle_worker_set;
  adding : nat;                 (* exchanged a flag to idle; before fetch_add(1) *)
  subtracting : nat;            (* exchanged a flag to active; before fetch_sub(1) *)
  loaded : list nat;            (* try_acquire_flag loaded [idle]; before its exchange *)
  became_idle : list nat;       (* the flags that set_idle changed *)
  became_active : list nat;     (* the flags that set_active changed *)
  acquired : list nat           (* the successful try_acquire_flag *)
}.

Inductive access :=
  | a_set_idle (i : nat) | a_set_active (i : nat)
  | a_load (i : nat) | a_exchange (i : nat) | a_fetch_add | a_fetch_sub.

Definition init (size : nat) : state := make_state (new_idle_set size) 0 0 [] [] [] [].

Fixpoint remove_first (i : nat) (l : list nat) : list nat :=
  match l with
  | [] => []
  | j :: l => if decide (i = j) then l else j :: remove_first i l
  end.

Definition step (a : access) (s : state) : option state :=
  let set := set_of s in
  match a with
  | a_set_idle i =>
      if decide (i < m_size set) then
        Some (if flag set i then s
              else make_state (store i true set) (S (adding s)) (subtracting s) (loaded s)
                     (became_idle s ++ [i]) (became_active s) (acquired s))
      else None
  | a_set_active i =>
      if decide (i < m_size set) then
        Some (if flag set i then
                make_state (store i false set) (adding s) (S (subtracting s)) (loaded s)
                  (became_idle s) (became_active s ++ [i]) (acquired s)
              else s)
      else None
  | a_load i =>
      if decide (i < m_size set) then
        Some (if flag set i then
                make_state set (adding s) (subtracting s) (i :: loaded s) (became_idle s) (became_active s) (acquired s)
              else s)
      else None
  | a_exchange i =>
      if decide (i ∈ loaded s) then
        let rest := remove_first i (loaded s) in
        Some (if flag set i then
                make_state (store i false set) (adding s) (S (subtracting s)) rest
                  (became_idle s) (became_active s) (acquired s ++ [i])
              else make_state set (adding s) (subtracting s) rest (became_idle s) (became_active s) (acquired s))
      else None
  | a_fetch_add =>
      match adding s with
      | 0 => None
      | S n => Some (make_state (fetch_add 1 set) n (subtracting s) (loaded s) (became_idle s) (became_active s) (acquired s))
      end
  | a_fetch_sub =>
      match subtracting s with
      | 0 => None
      | S n => Some (make_state (fetch_add (-1) set) (adding s) n (loaded s) (became_idle s) (became_active s) (acquired s))
      end
  end.
End Concurrent.

(** ** Exclusive acquisition *)
Section exclusive.
Import Concurrent.

Definition occurrences (i : nat) (l : list nat) : nat := length (filter (fun j => j = i) l).
Definition idle_count (s : idle_worker_set) : nat := length (filter (fun b => b = true) (m_idle_flags s)).

Lemma occurrences_snoc i l j : occurrences i (l ++ [j]) = occurrences i l + (if decide (j = i) then 1 else 0).
Proof.
  unfold occurrences. rewrite list.filter_app, length_app, filter_cons, filter_nil. by case_decide.
Qed.

Definition to_nat (b : bool) : nat := if b then 1 else 0.

Lemma idle_count_store s i b :
  i < m_size s -> idle_count (store i b s) + to_nat (flag s i) = idle_count s + to_nat b.
Proof.
  intros Hi. unfold idle_count, flag. simpl.
  destruct (lookup_lt_is_Some_2 _ _ Hi) as [c Hc]. rewrite Hc. simpl.
  rewrite insert_take_drop by done. rewrite <-(take_drop_middle _ _ _ Hc) at 3.
  rewrite !list.filter_app, !length_app, !filter_cons. destruct b, c; simpl; lia.
Qed.

Record exact (s : state) : Prop := {
  ex_size : (m_approx_size (set_of s) + Z.of_nat (adding s) - Z.of_nat (subtracting s) = Z.of_nat (idle_count (set_of s)))%Z;
  ex_balance : forall i, occurrences i (became_idle s) =
    occurrences i (became_active s) + occurrences i (acquired s) + to_nat (flag (set_of s) i)
}.

Lemma flag_new n i : flag (new_idle_set n) i = false.
Proof. unfold flag. simpl. destruct (replicate n false !! i) eqn:E; [|done]. by apply lookup_replicate in E as [-> _]. Qed.

Lemma init_exact n : exact (init n).
Proof.
  split; simpl.
  - unfold idle_count. simpl. induction n as [|n IH]; [done|]. simpl. by rewrite filter_cons_False.
  - intros i. by rewrite flag_new.
Qed.

Lemma step_exact a s s' : exact s -> step a s = Some s' -> exact s'.
Proof.
  intros [Hz Hb]. destruct s as [set ad su lo bi ba ac]. destruct a; simpl in *.
  - case_decide as Hi; [|done]. intros [= <-]. destruct (flag set i) eqn:E; [done|]. split; simpl.
    + pose proof (idle_count_store set i true Hi) as H. rewrite E in H. simpl in H. lia.
    + intros j. rewrite occurrences_snoc, Hb, flag_store by done. destruct (decide (i = j)) as [<-|Hne].
      * rewrite decide_True by done. rewrite E. simpl. lia.
      * rewrite decide_False by congruence. lia.
  - case_decide as Hi; [|done]. intros [= <-]. destruct (flag set i) eqn:E; [|done]. split; simpl.
    + pose proof (idle_count_store set i false Hi) as H. rewrite E in H. simpl in H. lia.
    + intros j. rewrite occurrences_snoc, Hb, flag_store by done. destruct (decide (i = j)) as [<-|Hne].
      * rewrite decide_True by done. rewrite E. simpl. lia.
      * rewrite decide_False by congruence. lia.
  - case_decide as Hi; [|done]. intros [= <-]. by destruct (flag set i).
  - case_decide as Hin; [|done]. intros [= <-]. destruct (flag set i) eqn:E; [|done].
    pose proof (flag_lt _ _ E) as Hi. split; simpl.
    + pose proof (idle_count_store set i false Hi) as H. rewrite E in H. simpl in H. lia.
    + intros j. rewrite occurrences_snoc, Hb, flag_store by done. destruct (decide (i = j)) as [<-|Hne].
      * rewrite decide_True by done. rewrite E. simpl. lia.
      * rewrite decide_False by congruence. lia.
  - destruct ad; [done|]. intros [= <-]. split; simpl; [unfold idle_count in *; simpl in *; lia|exact Hb].
  - destruct su; [done|]. intros [= <-]. split; simpl; [unfold idle_count in *; simpl in *; lia|exact Hb].
Qed.

(** However the callers of the idle set interleave: each time a worker
    becomes idle it is acquired by one caller at most (what became idle was
    acquired, was marked active, or is still idle, and never two of these), and
    the approximate size is off only by the calls that are between their two
    accesses. *)
Theorem idle_worker_is_acquired_once size s :
  reachable step (init size) s ->
  (forall i, occurrences i (became_idle s) =
     occurrences i (became_active s) + occurrences i (acquired s) + to_nat (flag (set_of s) i)) /\
  (m_approx_size (set_of s) + Z.of_nat (adding s) - Z.of_nat (subtracting s) = Z.of_nat (idle_count (set_of s)))%Z.
Proof.
  intros H. assert (He : exact s); [|by destruct He].
  revert s H. apply (reachable_invariant step (init size) exact); [apply init_exact|].
  intros a s s'. apply step_exact.
Qed.

Definition two_callers : list access := [a_set_idle 1; a_load 1; a_load 1; a_exchange 1; a_exchange 1; a_fetch_add].

Lemma idle_worker_is_acquired_once_witness :
  occurrences 1 (acquired (after step (init 3) two_callers)) = 1 /\
  m_approx_size (set_of (after step (init 3) two_callers)) = 1%Z.
Proof.
  destruct (idle_worker_is_acquired_once 3 (after step (init 3) two_callers)) as [H1 H2]; [apply after_reachable|].
  split.
  - specialize (H1 1). vm_compute in H1. vm_compute. congruence.
  - assert (Ha : adding (after step (init 3) two_callers) = 0) by (by vm_compute).
    assert (Hs : subtracting (after step (init 3) two_callers) = 1) by (by vm_compute).
    assert (Hc : idle_count (set_of (after step (init 3) two_callers)) = 0) by (by vm_compute).
    rewrite Ha, Hs, Hc in H2. lia.
Defined.
End exclusive.
