(* ===== verification/ThreadPool.v ===== *)
(** * thread_pool_executor: how tasks are shared out

    [source/executors/thread_pool_executor.cpp]: the arithmetic by which a
    worker donates tasks ([balance_work]) and a bulk of tasks is split
    ([enqueue(std::span)]), and which queue [enqueue] chooses.  Sizes are
    natural numbers: none of the computations exceeds the number of tasks. *)

From Stdlib Require Import ZArith Lia.
From stdpp Require Import prelude list.
From S2P Require Import Prelude IdleWorkerSet.
#[local] Open Scope list_scope.

(** ** Ranges *)

(** The loop that both functions share: the next [n] ranges
    [begin, end); [None] when an assertion fails.  It also returns where the
    ranges stop. *)
Fixpoint split_loop (n task_count donation_count extra begin end_ : nat) : option (list (nat * nat) * nat) :=
  match n with
  | 0 => Some ([], begin)
  | S n =>
      if negb (bool_decide (begin < task_count)) then None
      else
        let '(end_, extra) := if decide (extra <> 0) then (S end_, extra - 1) else (end_, extra) in
        if negb (bool_decide (end_ <= task_count)) then None
        else
          match split_loop n task_count donation_count extra end_ (end_ + donation_count) with
          | Some (l, stop) => Some ((begin, end_) :: l, stop)
          | None => None
          end
  end.

(** [balance_work], when [idle_count] workers were found: the ranges it
    donates and the first task it keeps. *)
Definition donation_ranges (task_count idle_count : nat) : option (list (nat * nat) * nat) :=
  if negb (bool_decide (idle_count <= task_count)) then None
  else
    let total_worker_count := idle_count + 1 in
    let donation_count := task_count / total_worker_count in
    let extra := task_count - donation_count * total_worker_count in
    split_loop idle_count task_count donation_count extra 0 donation_count.

(** [enqueue(std::span)] from outside of the pool, for at least as many tasks
    as workers. *)
Definition bulk_ranges (task_count total_worker_count : nat) : option (list (nat * nat) * nat) :=
  let donation_count := task_count / total_worker_count in
  let extra := task_count - donation_count * total_worker_count in
  split_loop total_worker_count task_count donation_count extra 0 donation_count.

Definition range {A} (r : nat * nat) (l : list A) : list A := take (r.2 - r.1) (drop r.1 l).

(** The first part of [balance_work], up to the end of its loop: the batches
    for the idle workers that the set hands out, the tasks that stay, and the
    idle set; [None] when an assertion fails.  The index of a worker is what its
    thread knows itself by, and its list of idle workers has room for the whole
    pool. *)
Definition plan_donations {A} (index pool_size : nat) (private_queue : list A) (idle : idle_worker_set)
  : option (list (nat * list A) * list A * idle_worker_set) :=
  let task_count := length private_queue in
  if decide (task_count < 2) then Some ([], private_queue, idle)
  else
    let max_idle_worker_count := Nat.min (pool_size - 1) (task_count - 1) in
    if decide (max_idle_worker_count = 0) then Some ([], private_queue, idle)
    else
      match find_idle_workers index pool_size index max_idle_worker_count idle with
      | None => None
      | Some (idle_workers, idle) =>
          if decide (length idle_workers = 0) then Some ([], private_queue, idle)
          else if negb (forallb (fun i => negb (i =? index) && (i <? pool_size)) idle_workers) then None
          else
            match donation_ranges task_count (length idle_workers) with
            | None => None
            | Some (ranges, begin) =>
                Some (zip_with (fun w r => (w, range r private_queue)) idle_workers ranges,
                  drop begin private_queue, idle)
            end
      end.

(** What follows the loop.  A task is [None] when it is empty; the first
    [begin] tasks have been moved to other workers.  The queue that is left;
    [None]: an assertion fails. *)
Definition finish_donations {A} (task_count begin : nat) (private_queue : list (option A)) : option (list (option A)) :=
  let private_queue := replicate begin None ++ drop begin private_queue in
  if negb (bool_decide (length private_queue = task_count)) then None
  else if negb (forallb (fun task => bool_decide (task = None)) (take begin private_queue)) then None
  else if negb (forallb (fun task => bool_decide (task <> None)) (drop begin private_queue)) then None
  else
    let private_queue := drop begin private_queue in
    if bool_decide (private_queue = []) then None else Some private_queue.

(** [balance_work] when no receiver refuses its batch. *)
Definition balance_work {A} (index pool_size : nat) (private_queue : list (option A)) (idle : idle_worker_set)
  : option (list (nat * list (option A)) * list (option A) * idle_worker_set) :=
  match plan_donations index pool_size private_queue idle with
  | None => None
  | Some ([], _, idle) => Some ([], private_queue, idle)
  | Some (batches, rest, idle) =>
      match finish_donations (length private_queue) (length private_queue - length rest) private_queue with
      | None => None
      | Some private_queue => Some (batches, private_queue, idle)
      end
  end.

(** ** Which queue a task goes to *)

(** What a thread knows of itself ([s_tl_thread_pool_data]): the pool and the
    index of the worker it is, if it is one. *)
Record per_thread_data := make_per_thread {
  this_worker : option (nat * nat);       (* pool, index *)
  this_thread_hashed_id : nat
}.

(** The worker's queue that a task was put into. *)
Inductive destination :=
  | local_queue (pool index : nat)        (* enqueue_local of this_worker *)
  | foreign_queue (pool index : nat).     (* enqueue_foreign of a worker of the pool *)

Record pool := make_pool {
  pool_id : nat;
  pool_size : nat;
  m_round_robin_cursor : Z;               (* a size_t that wraps around *)
  m_idle_workers : idle_worker_set
}.

Definition set_idle_workers v p := make_pool (pool_id p) (pool_size p) (m_round_robin_cursor p) v.
Definition set_cursor v p := make_pool (pool_id p) (pool_size p) v (m_idle_workers p).

(** [enqueue(task)]; [appears_empty] is the answer of this thread's worker. *)
Definition enqueue (tls : per_thread_data) (appears_empty : bool) (p : pool) : destination * pool :=
  match this_worker tls, appears_empty with
  | Some (q, i), true => (local_queue q i, p)
  | _, _ =>
      let this_worker_index := snd <$> this_worker tls in
      let '(idle_worker_pos, set) := find_idle_worker (this_thread_hashed_id tls) this_worker_index (m_idle_workers p) in
      let p := set_idle_workers set p in
      match idle_worker_pos with
      | Some pos => (foreign_queue (pool_id p) pos, p)
      | None =>
          match this_worker tls with
          | Some (q, i) => (local_queue q i, p)
          | None =>
              let next_worker := Z.to_nat (m_round_robin_cursor p mod Z.of_nat (pool_size p)) in
              (foreign_queue (pool_id p) next_worker, set_cursor (wrap_size (m_round_robin_cursor p + 1)) p)
          end
      end
  end.

(** The loop of [enqueue(std::span)] for few tasks. *)
Fixpoint enqueue_each (n : nat) (tls : per_thread_data) (p : pool) : list destination * pool :=
  match n with
  | 0 => ([], p)
  | S n =>
      let '(d, p) := enqueue tls false p in
      let '(ds, p) := enqueue_each n tls p in
      (d :: ds, p)
  end.

(** [enqueue(std::span)]: where each of [n] tasks goes; [None] when an
    assertion fails. *)
Definition enqueue_span (n : nat) (tls : per_thread_data) (p : pool) : option (list destination * pool) :=
  match this_worker tls with
  | Some (q, i) => Some (replicate n (local_queue q i), p)
  | None =>
      if decide (n < pool_size p) then Some (enqueue_each n tls p)
      else
        match bulk_ranges n (pool_size p) with
        | None => None
        | Some (ranges, _) =>
            Some (concat (imap (fun i r => replicate (r.2 - r.1) (foreign_queue (pool_id p) i)) ranges), p)
        end
  end.

(** The constructor: every worker is idle. *)
Definition new_pool (id size : nat) : pool :=
  make_pool id size 0 (foldl (fun s i => set_idle i s) (new_idle_set size) (seq 0 size)).

(** [static_cast<int>]. *)
Definition max_concurrency_level (p : pool) : Z :=
  ((Z.of_nat (pool_size p) + 2 ^ 31) mod 2 ^ 32 - 2 ^ 31)%Z.

(** [shutdown], given [m_abort]: the workers that are shut down, one after the
    other, and [m_abort]. *)
Definition shutdown (m_abort : bool) (p : pool) : list nat * bool :=
  if m_abort then ([], true) else (seq 0 (pool_size p), true).

(** ** Theorems *)

(** Consecutive ranges that start at [begin]. *)
Fixpoint consecutive (begin : nat) (l : list (nat * nat)) (stop : nat) : Prop :=
  match l with
  | [] => begin = stop
  | (b, e) :: l => b = begin /\ b < e /\ consecutive e l stop
  end.

(** The shares differ by one at most: the first [extra] get one more. *)
Lemma split_loop_spec n tc d x b :
  1 <= d -> b + n * d + Nat.min n x <= tc ->
  exists l stop, split_loop n tc d x b (b + d) = Some (l, stop) /\ length l = n /\
    stop = b + n * d + Nat.min n x /\ consecutive b l stop /\
    (forall i r, l !! i = Some r -> r.2 - r.1 = d + (if decide (i < x) then 1 else 0)).
Proof.
  revert x b. induction n as [|n IH]; intros x b Hd Hle; cbn [split_loop].
  { exists [], b. split_ands; try done; lia. }
  rewrite bool_decide_eq_true_2 by lia. cbn [negb]. destruct (decide (x <> 0)) as [Hx|Hx]; cbn [negb].
  - rewrite bool_decide_eq_true_2 by lia. cbn [negb].
    destruct (IH (x - 1) (S (b + d)) Hd) as (l & stop & E & Hlen & Hstop & Hc & Hs); [lia|].
    rewrite E. eexists _, stop. split; [done|]. cbn [length consecutive]. split_ands; try done; try lia.
    intros [|i] r; simpl; [intros [= <-]; rewrite decide_True by lia; simpl; lia|].
    intros H. rewrite (Hs i r H). do 2 case_decide; lia.
  - assert (x = 0) as -> by lia. rewrite bool_decide_eq_true_2 by lia. cbn [negb].
    destruct (IH 0 (b + d) Hd) as (l & stop & E & Hlen & Hstop & Hc & Hs); [lia|].
    rewrite E. eexists _, stop. split; [done|]. cbn [length consecutive]. split_ands; try done; try lia.
    intros [|i] r; simpl; [intros [= <-]; simpl; lia|]. intros H. rewrite (Hs i r H). simpl. lia.
Qed.

Lemma share_arith tc k :
  0 < k -> k <= tc -> let d := tc / k in let x := tc - d * k in
  1 <= d /\ x < k /\ tc = d * k + x.
Proof.
  intros Hk Hle d x. pose proof (Nat.div_mod_eq tc k) as E. pose proof (Nat.mod_upper_bound tc k ltac:(lia)).
  assert (1 <= d) by (apply Nat.div_le_lower_bound; lia). subst x. unfold d in *. nia.
Qed.

Lemma bulk_ranges_spec tc k :
  0 < k -> k <= tc ->
  exists l, bulk_ranges tc k = Some (l, tc) /\ length l = k /\ consecutive 0 l tc /\
    forall r, r ∈ l -> tc / k <= r.2 - r.1 <= tc / k + 1.
Proof.
  intros Hk Hle. destruct (share_arith tc k Hk Hle) as (Hd & Hx & E). unfold bulk_ranges.
  destruct (split_loop_spec k tc (tc / k) (tc - tc / k * k) 0 Hd) as (l & stop & El & Hlen & Hstop & Hc & Hs); [lia|].
  assert (stop = tc) as -> by lia. exists l. split_ands; try done.
  intros r [i Hi]%list_elem_of_lookup. rewrite (Hs i r Hi). case_decide; lia.
Qed.

Lemma donation_ranges_spec tc k :
  k < tc ->
  exists l stop, donation_ranges tc k = Some (l, stop) /\ length l = k /\ consecutive 0 l stop /\
    tc / (k + 1) <= tc - stop <= tc / (k + 1) + 1 /\ stop < tc /\
    forall r, r ∈ l -> tc / (k + 1) <= r.2 - r.1 <= tc / (k + 1) + 1.
Proof.
  intros Hk. destruct (share_arith tc (k + 1)) as (Hd & Hx & E); [lia..|]. unfold donation_ranges.
  rewrite bool_decide_eq_true_2 by lia. cbn [negb].
  destruct (split_loop_spec k tc (tc / (k + 1)) (tc - tc / (k + 1) * (k + 1)) 0 Hd) as (l & stop & El & Hlen & Hstop & Hc & Hs); [lia|].
  exists l, stop. split_ands; try done; try lia.
  intros r [i Hi]%list_elem_of_lookup. rewrite (Hs i r Hi). case_decide; lia.
Qed.

Lemma consecutive_concat {A} (l : list A) b rs stop :
  consecutive b rs stop -> stop <= length l -> concat ((fun r => range r l) <$> rs) = take (stop - b) (drop b l).
Proof.
  revert b. induction rs as [|[b' e] rs IH]; intros b; cbn [consecutive]; [intros ->; by rewrite Nat.sub_diag|].
  intros (-> & Hlt & Hc) Hs. rewrite fmap_cons. cbn [concat]. rewrite (IH e Hc Hs).
  assert (He : e <= stop).
  { clear -Hc. revert e Hc. induction rs as [|[x y] rs IH]; intros e; simpl; [lia|]. intros (-> & ? & H). specialize (IH _ H). lia. }
  unfold range. simpl. rewrite <-(take_drop (e - b) (drop b l)) at 2. rewrite drop_drop, take_app, take_take, length_take, length_drop.
  f_equal; [f_equal; lia|]. f_equal; [lia|]. f_equal. lia.
Qed.

Lemma fst_zip_with {A B} (f : nat -> A -> nat * B) l k :
  (forall w r, (f w r).1 = w) -> length l <= length k -> (zip_with f l k).*1 = l.
Proof.
  intros Hf. revert k. induction l as [|x l IH]; intros [|y k]; simpl; intros H; try done; [lia|].
  f_equal; [apply Hf|]. apply IH. lia.
Qed.

Lemma snd_zip_with {A B} (f : A -> B) (l : list nat) (k : list A) :
  length k <= length l -> (zip_with (fun w r => (w, f r)) l k).*2 = f <$> k.
Proof.
  revert k. induction l as [|x l IH]; intros [|y k]; simpl; intros H; try done; [lia|].
  f_equal. apply IH. lia.
Qed.

Lemma consecutive_bounds b rs stop r : consecutive b rs stop -> r ∈ rs -> r.1 < r.2 <= stop.
Proof.
  assert (Hle : forall b rs, consecutive b rs stop -> b <= stop).
  { clear. intros b rs. revert b. induction rs as [|[x y] rs IH]; intros b; simpl; [lia|]. intros (-> & ? & H). specialize (IH _ H). lia. }
  revert b. induction rs as [|[x y] rs IH]; intros b; cbn [consecutive]; [by intros _ H%not_elem_of_nil|].
  intros (-> & Hlt & Hc) [-> |Hin]%elem_of_cons; [|by eapply IH]. specialize (Hle _ _ Hc). simpl. lia.
Qed.

Lemma length_range {A} (l : list A) r : r.2 <= length l -> length (range r l) = r.2 - r.1.
Proof. intros H. unfold range. rewrite length_take, length_drop. lia. Qed.

(** What the plan of a worker is. *)
Record planned {A} (index : nat) (q : list A) (idle : idle_worker_set)
    (batches : list (nat * list A)) (rest : list A) (idle' : idle_worker_set) : Prop := {
  pl_tasks : concat batches.*2 ++ rest = q;
  pl_nodup : NoDup batches.*1;
  pl_batch w ts : (w, ts) ∈ batches ->
    flag idle w = true /\ flag idle' w = false /\ w <> index /\ w < m_size idle /\ 1 <= length ts /\
    length q / (length batches + 1) <= length ts <= length q / (length batches + 1) + 1;
  pl_rest : length q / (length batches + 1) <= length rest <= length q / (length batches + 1) + 1;
  pl_some : batches <> [] -> rest <> []
}.

Lemma planned_nothing {A} index (q : list A) idle idle' : planned index q idle [] q idle'.
Proof.
  split; cbn [length Nat.add]; rewrite ?Nat.div_1_r; [done|apply NoDup_nil_2| |lia|done].
  intros w ts H. by apply not_elem_of_nil in H.
Qed.

Lemma plan_donations_spec {A} index (q : list A) idle :
  index < m_size idle ->
  exists batches rest idle', plan_donations index (m_size idle) q idle = Some (batches, rest, idle') /\
    planned index q idle batches rest idle'.
Proof.
  intros Hindex. unfold plan_donations.
  case_decide as Htc; [do 3 eexists; split; [done|apply planned_nothing]|].
  case_decide as Hmx; [do 3 eexists; split; [done|apply planned_nothing]|].
  destruct (find_idle_workers_asserts (m_size idle) index (Nat.min (m_size idle - 1) (length q - 1)) idle)
    as [[ws idle'] Ef]; [lia|done|].
  rewrite Ef. apply find_idle_workers_spec in Ef as [[Hnd Hidle Hflags Hsize] Hlen].
  case_decide as Hz; [do 3 eexists; split; [done|apply planned_nothing]|].
  assert (Hall : forallb (fun i => negb (i =? index) && (i <? m_size idle)) ws = true).
  { apply List.forallb_forall. intros i Hi%list_elem_of_In. destruct (Hidle i Hi) as [Hfl Hne].
    rewrite andb_true_iff, negb_true_iff, Nat.eqb_neq, Nat.ltb_lt.
    split; [congruence|by apply flag_lt]. }
  rewrite Hall. cbn [negb].
  destruct (donation_ranges_spec (length q) (length ws)) as (rs & stop & E & Hl & Hc & Hrest & Hstop & Hshare); [lia|].
  rewrite E. do 3 eexists. split; [done|].
  assert (Hlz : length (zip_with (fun w r => (w, range r q)) ws rs) = length ws) by (rewrite length_zip_with; lia).
  split; rewrite ?Hlz.
  - rewrite snd_zip_with by lia. rewrite (consecutive_concat q 0 rs stop Hc) by lia.
    rewrite drop_0, Nat.sub_0_r. apply take_drop.
  - rewrite fst_zip_with; [done|done|lia].
  - intros w ts Hin. apply elem_of_lookup_zip_with in Hin as (i & w' & r & [= -> ->] & Hw & Hr).
    apply list_elem_of_lookup_2 in Hw, Hr. destruct (Hidle _ Hw) as [Hfl Hni].
    destruct (consecutive_bounds _ _ _ _ Hc Hr) as [Hlt Hle]. rewrite length_range by lia. specialize (Hshare r Hr).
    split_ands; try lia; [done| |congruence|by apply flag_lt]. rewrite Hflags. by rewrite decide_True.
  - rewrite length_drop. lia.
  - intros _ H. apply (f_equal length) in H. rewrite length_drop in H. simpl in H. lia.
Qed.

Lemma finish_donations_spec {A} (donated rest : list (option A)) :
  rest <> [] ->
  finish_donations (length (donated ++ rest)) (length donated) (donated ++ rest) =
    if forallb (fun task => bool_decide (task <> None)) rest then Some rest else None.
Proof.
  intros Hne. unfold finish_donations. rewrite drop_app_length.
  rewrite bool_decide_eq_true_2 by (by rewrite !length_app, length_replicate). simpl.
  rewrite take_app_length', drop_app_length' by (by rewrite length_replicate).
  assert (H : forallb (fun task : option A => bool_decide (task = None)) (replicate (length donated) None) = true).
  { apply List.forallb_forall. intros x Hx%list_elem_of_In%elem_of_replicate_inv. by apply bool_decide_eq_true. }
  rewrite H. simpl. destruct (forallb _ rest); [|done]. simpl. by rewrite bool_decide_eq_false_2.
Qed.

Lemma empty_task {A} (l : list (option A)) :
  forallb (fun task => bool_decide (task <> None)) l = false -> None ∈ l.
Proof.
  induction l as [|[x|] l IH]; simpl; [done| |by left]. intros H. right. by apply IH.
Qed.


(** ** Where [enqueue] sends a task *)
Definition pool_ok (p : pool) : Prop :=
  m_size (m_idle_workers p) = pool_size p /\ 0 < pool_size p /\ (0 <= m_round_robin_cursor p)%Z.

Definition in_pool (p : pool) (d : destination) : Prop :=
  match d with local_queue q i | foreign_queue q i => q = pool_id p /\ i < pool_size p end.

Lemma enqueue_ok tls e p :
  pool_ok p -> pool_ok (enqueue tls e p).2 /\ pool_size (enqueue tls e p).2 = pool_size p /\ pool_id (enqueue tls e p).2 = pool_id p.
Proof.
  intros (Hs & Hp & Hc).
  assert (H : forall o s', find_idle_worker (this_thread_hashed_id tls) (snd <$> this_worker tls) (m_idle_workers p) = (o, s') -> m_size s' = pool_size p).
  { intros o s'. unfold find_idle_worker. destruct (_ <=? _)%Z; [by intros [= _ <-]|].
    intros E%find_from_spec. destruct o; [destruct E as [_ _ _ ->]; done|destruct E as [-> _]; done]. }
  unfold enqueue, pool_ok. destruct (find_idle_worker _ _ _) as [o s'] eqn:E. specialize (H _ _ eq_refl).
  destruct (this_worker tls) as [[q i]|]; [destruct e; [done|]|]; destruct o; simpl; split_ands; try done.
  apply wrap_size_bounds.
Qed.

Lemma enqueue_dest tls e p :
  pool_ok p -> (forall q i, this_worker tls = Some (q, i) -> q = pool_id p /\ i < pool_size p) ->
  in_pool p (enqueue tls e p).1.
Proof.
  intros (Hs & Hp & Hc) Htls. unfold enqueue.
  destruct (find_idle_worker _ _ _) as [o s'] eqn:E.
  assert (Ho : match o with Some k => k < pool_size p | None => True end).
  { unfold find_idle_worker in E. destruct (_ <=? _)%Z; [by injection E as <- _|]. apply find_from_spec in E.
    destruct o; [|done]. rewrite <-Hs. apply flag_lt. apply (fo_idle _ _ _ _ E). by left. }
  destruct (this_worker tls) as [[q i]|] eqn:Et; [destruct e; [by apply Htls|]|]; destruct o; simpl; try done; try (by apply Htls).
  split; [done|]. pose proof (Z.mod_pos_bound (m_round_robin_cursor p) (Z.of_nat (pool_size p)) ltac:(lia)). lia.
Qed.

#[export] Instance destination_eq_dec : EqDecision destination.
Proof. solve_decision. Defined.

(** How many of the tasks go to the [i]th worker. *)
Definition count_to (d : destination) (ds : list destination) : nat := length (filter (fun x => x = d) ds).

Lemma count_to_app d ds1 ds2 : count_to d (ds1 ++ ds2) = count_to d ds1 + count_to d ds2.
Proof. unfold count_to. by rewrite list.filter_app, length_app. Qed.

Lemma count_replicate d m e : count_to d (replicate m e) = if decide (e = d) then m else 0.
Proof.
  unfold count_to. induction m as [|m IH]; [by case_decide|]. simpl. rewrite filter_cons. case_decide; simpl; lia.
Qed.

(** The shares of the workers from [off] on. *)
Definition shares (id off : nat) (rs : list (nat * nat)) : list destination :=
  concat (imap (fun j r => replicate (r.2 - r.1) (foreign_queue id (off + j))) rs).

Lemma shares_cons id off r rs :
  shares id off (r :: rs) = replicate (r.2 - r.1) (foreign_queue id off) ++ shares id (S off) rs.
Proof.
  unfold shares. rewrite imap_cons. cbn [concat]. rewrite Nat.add_0_r. f_equal. f_equal. apply imap_ext.
  intros j x _. simpl. by rewrite Nat.add_succ_r.
Qed.

Lemma count_shares_below id k off rs : k < off -> count_to (foreign_queue id k) (shares id off rs) = 0.
Proof.
  revert off. induction rs as [|r rs IH]; intros off Hk; [done|].
  rewrite shares_cons, count_to_app, count_replicate, IH by lia. rewrite decide_False; [done|]. intros [=]. lia.
Qed.

Lemma count_shares id i off rs :
  count_to (foreign_queue id (off + i)) (shares id off rs) = match rs !! i with Some r => r.2 - r.1 | None => 0 end.
Proof.
  revert i off. induction rs as [|r rs IH]; intros i off; [done|]. rewrite shares_cons, count_to_app, count_replicate.
  destruct i as [|i]; cbn [lookup list_lookup].
  - rewrite Nat.add_0_r, decide_True, count_shares_below by (done || lia). lia.
  - rewrite decide_False by (intros [=]; lia). rewrite Nat.add_succ_r. apply (IH i (S off)).
Qed.

Lemma shares_in_pool id off rs d : d ∈ shares id off rs -> exists i, d = foreign_queue id i /\ i < off + length rs.
Proof.
  revert off. induction rs as [|r rs IH]; intros off; [by intros ?%not_elem_of_nil|].
  rewrite shares_cons, elem_of_app. intros [H|H].
  - apply elem_of_replicate in H as [-> _]. exists off. split; [done|]. simpl. lia.
  - destruct (IH (S off) H) as (i & -> & Hi). exists i. split; [done|]. simpl. lia.
Qed.

Lemma length_shares id off rs b stop : consecutive b rs stop -> length (shares id off rs) = stop - b.
Proof.
  revert off b. induction rs as [|[x y] rs IH]; intros off b; [intros <-; simpl; lia|]. cbn [consecutive].
  intros (-> & Hlt & Hc). rewrite shares_cons, length_app, length_replicate, (IH _ y Hc). simpl.
  assert (y <= stop); [|lia]. clear -Hc. revert y Hc.
  induction rs as [|[x z] rs IH]; intros y; cbn [consecutive]; [lia|]. intros (-> & ? & H). specialize (IH _ H). lia.
Qed.

Lemma enqueue_each_spec n tls p :
  pool_ok p -> this_worker tls = None ->
  length (enqueue_each n tls p).1 = n /\ Forall (in_pool p) (enqueue_each n tls p).1.
Proof.
  intros Hp Ht. revert p Hp. induction n as [|n IH]; intros p Hp; simpl; [by split|].
  destruct (enqueue_ok tls false p Hp) as (Hp1 & Hs1 & Hi1). pose proof (enqueue_dest tls false p Hp) as Hd.
  destruct (enqueue tls false p) as [d p1]. specialize (IH p1 Hp1).
  destruct (enqueue_each n tls p1) as [ds p2]. simpl in *. destruct IH as [Hlen Hall]. split; [congruence|].
  constructor; [apply Hd; by rewrite Ht|]. eapply Forall_impl; [exact Hall|].
  intros [q i|q i]; simpl; rewrite Hs1, Hi1; done.
Qed.

(** A thread that is no worker, or is a worker of this pool, has its tasks
    put into queues of workers of this pool, one task or many, all of them and
    no assertion fails; and [n] tasks that come from outside, no fewer than the
    workers, are shared out so that each worker gets [n / size] of them or one
    more. *)
Theorem enqueue_stays_in_the_pool tls appears_empty p n :
  pool_ok p -> (forall q i, this_worker tls = Some (q, i) -> q = pool_id p /\ i < pool_size p) ->
  in_pool p (enqueue tls appears_empty p).1 /\
  match enqueue_span n tls p with
  | None => False
  | Some (ds, _) => length ds = n /\ Forall (in_pool p) ds /\
      (this_worker tls = None -> pool_size p <= n -> forall i, i < pool_size p ->
       n / pool_size p <= count_to (foreign_queue (pool_id p) i) ds <= n / pool_size p + 1)
  end.
Proof.
  intros Hp Htls. split; [by apply enqueue_dest|]. unfold enqueue_span.
  destruct (this_worker tls) as [[q i]|] eqn:Et.
  { split_ands; [apply length_replicate| |done]. apply Forall_replicate. by apply Htls. }
  case_decide as Hn.
  { pose proof (enqueue_each_spec n tls p Hp Et) as H. destruct (enqueue_each n tls p) as [ds p']. simpl in H.
    split_ands; [by apply H..|]. lia. }
  destruct Hp as (Hs & Hpos & Hc).
  destruct (bulk_ranges_spec n (pool_size p)) as (rs & E & Hlen & Hcons & Hshare); [lia..|].
  rewrite E. change (concat (imap _ rs)) with (shares (pool_id p) 0 rs). split_ands.
  - rewrite (length_shares _ _ _ _ _ Hcons). lia.
  - apply list.Forall_forall. intros d (i & -> & Hi)%shares_in_pool. split; [done|]. lia.
  - intros _ _ i Hi. pose proof (count_shares (pool_id p) i 0 rs) as H. simpl in H. rewrite H.
    destruct (lookup_lt_is_Some_2 rs i) as [r Hr]; [lia|]. rewrite Hr. by apply Hshare, list_elem_of_lookup_2 with i.
Qed.

(** A new pool is one of the pools above, and all its workers are idle. *)
Lemma set_idle_all l s :
  let s' := foldl (fun s i => set_idle i s) s l in
  m_size s' = m_size s /\ (Forall (fun i => i < m_size s) l -> forall i, flag s' i = bool_decide (i ∈ l) || flag s i).
Proof.
  revert s. induction l as [|j l IH]; intros s; cbn [foldl]; [done|].
  assert (Hs : m_size (set_idle j s) = m_size s).
  { unfold set_idle. destruct (flag s j); apply length_insert. }
  destruct (IH (set_idle j s)) as [IH1 IH2]. rewrite Hs in IH1. split; [done|].
  intros [Hj Hl]%Forall_cons i. rewrite IH2 by (by rewrite Hs).
  assert (Hf : flag (set_idle j s) i = if decide (i = j) then true else flag s i).
  { rewrite <-(flag_store j true s i Hj). unfold set_idle. by destruct (flag s j). }
  rewrite Hf. destruct (decide (i = j)) as [->|Hn].
  - rewrite orb_true_r. rewrite (bool_decide_eq_true_2 (j ∈ j :: l)); [done|left].
  - f_equal. apply bool_decide_ext. rewrite elem_of_cons. naive_solver.
Qed.

Lemma new_pool_ok id n : 0 < n -> pool_ok (new_pool id n) /\ forall i, i < n -> flag (m_idle_workers (new_pool id n)) i = true.
Proof.
  intros Hn. destruct (set_idle_all (seq 0 n) (new_idle_set n)) as [H1 H2].
  assert (Hsz : m_size (new_idle_set n) = n) by apply length_replicate. rewrite Hsz in *. split.
  - by split_ands.
  - intros i Hi. simpl. rewrite H2.
    + rewrite bool_decide_eq_true_2; [done|]. apply elem_of_seq. lia.
    + apply list.Forall_forall. intros j Hj%elem_of_seq. lia.
Qed.

(** But a worker of another pool keeps the task: [this_worker] is not compared
    with the pool.  A worker of pool [q] that enqueues tasks on pool [p] puts
    them into its own queue, where pool [q] runs them. *)
Lemma enqueue_from_another_pool q i h n p :
  (enqueue (make_per_thread (Some (q, i)) h) true p).1 = local_queue q i /\
  enqueue_span n (make_per_thread (Some (q, i)) h) p = Some (replicate n (local_queue q i), p).
Proof. done. Qed.

(** ** Witnesses *)
Definition four_workers : idle_worker_set := make_idle_set 2 [false; true; false; true].


Lemma enqueue_stays_in_the_pool_witness :
  match enqueue_span 10 (make_per_thread None 7) (make_pool 5 4 0 four_workers) with
  | Some (ds, _) => length ds = 10 /\ 2 <= count_to (foreign_queue 5 1) ds <= 3
  | None => False
  end.
Proof.
  destruct (enqueue_stays_in_the_pool (make_per_thread None 7) true (make_pool 5 4 0 four_workers) 10) as [_ H].
  - split; [done|]. split; [simpl; lia|done].
  - done.
  - destruct (enqueue_span 10 _ _) as [[ds p']|]; [|exact H].
    destruct H as (Hl & _ & Hc). split; [exact Hl|]. apply (Hc eq_refl); simpl; lia.
Defined.
