(* ===== verification/PoolWorker.v ===== *)
(** * thread_pool_worker

    [source/executors/thread_pool_executor.cpp]: one worker of a pool with its
    private and public queue, its semaphore and its thread, which starts on
    demand and ends when it was idle for too long.

    One label is one critical section, one atomic access or one turn of the loop
    that runs tasks.  The label of a turn says what the model of one worker
    leaves open: how many idle workers [find_idle_workers] returned (see
    [ThreadPool.balance_work]), whether a donation fails because its receiver
    was shut down, and what the task does.  Time-outs may happen at any time.
    [semaphore_max] is what the [std::binary_semaphore] can count to. *)

From stdpp Require Import prelude list strings.
From S2P Require Import Prelude Errors ThreadPool.
#[local] Open Scope list_scope.

(** Why the program ended. *)
Inductive end_reason := assertion_failure | task_exception | semaphore_undefined.

(** Where the worker's thread is. *)
Inductive pool_worker_pc :=
  | pw_none           (* m_thread is not joinable *)
  | pw_drain          (* before drain_queue takes the lock *)
  | pw_wait           (* in m_semaphore.try_acquire_until(deadline) *)
  | pw_acquired       (* before it loads m_task_found_or_abort *)
  | pw_recheck        (* before lock.lock() in the loop of wait_for_task *)
  | pw_timed_out      (* the deadline has passed; before lock.lock() *)
  | pw_loop           (* at the head of the loop of drain_queue_impl *)
  | pw_aborted        (* it saw m_atomic_abort; before it takes the lock *)
  | pw_catch          (* it caught runtime_shutdown; before it takes the lock *)
  | pw_ended          (* work_loop returned *)
  | pw_terminated (why : end_reason).

Inductive stop_pc := st_none | st_lock | st_found | st_release | st_join | st_take | st_done.

#[export] Instance end_reason_eq_dec : EqDecision end_reason.
Proof. solve_decision. Defined.
#[export] Instance pool_worker_pc_eq_dec : EqDecision pool_worker_pc.
Proof. solve_decision. Defined.
#[export] Instance stop_pc_eq_dec : EqDecision stop_pc.
Proof. solve_decision. Defined.

(** A task that was moved out of the private queue is [None]. *)
Record thread_pool_worker := make_pool_worker {
  m_private_queue : list (option nat);
  m_public_queue : list nat;
  m_atomic_abort : bool;
  m_abort : bool;
  m_idle : bool;
  m_task_found_or_abort : bool;
  m_semaphore : nat;
  m_thread : pool_worker_pc;
  releasing : nat;              (* threads between lock.unlock() and m_semaphore.release() *)
  shutting_down : stop_pc;
  submitted : list nat;         (* accepted by enqueue_foreign and enqueue_local *)
  executed : list nat;
  donated : list nat;           (* given to other workers *)
  destroyed : list nat          (* destroyed without a call *)
}.

Definition new_worker : thread_pool_worker :=
  make_pool_worker [] [] false false true false 0 pw_none 0 st_none [] [] [] [].

Definition set_private v s := make_pool_worker v (m_public_queue s) (m_atomic_abort s) (m_abort s) (m_idle s)
  (m_task_found_or_abort s) (m_semaphore s) (m_thread s) (releasing s) (shutting_down s) (submitted s) (executed
  s) (donated s) (destroyed s).
Definition set_public v s := make_pool_worker (m_private_queue s) v (m_atomic_abort s) (m_abort s) (m_idle s)
  (m_task_found_or_abort s) (m_semaphore s) (m_thread s) (releasing s) (shutting_down s) (submitted s) (executed
  s) (donated s) (destroyed s).
Definition set_atomic_abort v s := make_pool_worker (m_private_queue s) (m_public_queue s) v (m_abort s)
  (m_idle s) (m_task_found_or_abort s) (m_semaphore s) (m_thread s) (releasing s) (shutting_down s) (submitted
  s) (executed s) (donated s) (destroyed s).
Definition set_abort v s := make_pool_worker (m_private_queue s) (m_public_queue s) (m_atomic_abort s) v
  (m_idle s) (m_task_found_or_abort s) (m_semaphore s) (m_thread s) (releasing s) (shutting_down s) (submitted
  s) (executed s) (donated s) (destroyed s).
Definition set_idle v s := make_pool_worker (m_private_queue s) (m_public_queue s) (m_atomic_abort s) (m_abort
  s) v (m_task_found_or_abort s) (m_semaphore s) (m_thread s) (releasing s) (shutting_down s) (submitted s)
  (executed s) (donated s) (destroyed s).
Definition set_found v s := make_pool_worker (m_private_queue s) (m_public_queue s) (m_atomic_abort s)
  (m_abort s) (m_idle s) v (m_semaphore s) (m_thread s) (releasing s) (shutting_down s) (submitted s) (executed
  s) (donated s) (destroyed s).
Definition set_semaphore v s := make_pool_worker (m_private_queue s) (m_public_queue s) (m_atomic_abort s)
  (m_abort s) (m_idle s) (m_task_found_or_abort s) v (m_thread s) (releasing s) (shutting_down s) (submitted s)
  (executed s) (donated s) (destroyed s).
Definition set_thread v s := make_pool_worker (m_private_queue s) (m_public_queue s) (m_atomic_abort s)
  (m_abort s) (m_idle s) (m_task_found_or_abort s) (m_semaphore s) v (releasing s) (shutting_down s) (submitted
  s) (executed s) (donated s) (destroyed s).
Definition set_releasing v s := make_pool_worker (m_private_queue s) (m_public_queue s) (m_atomic_abort s)
  (m_abort s) (m_idle s) (m_task_found_or_abort s) (m_semaphore s) (m_thread s) v (shutting_down s) (submitted
  s) (executed s) (donated s) (destroyed s).
Definition set_shutting v s := make_pool_worker (m_private_queue s) (m_public_queue s) (m_atomic_abort s)
  (m_abort s) (m_idle s) (m_task_found_or_abort s) (m_semaphore s) (m_thread s) (releasing s) v (submitted s)
  (executed s) (donated s) (destroyed s).
Definition set_submitted v s := make_pool_worker (m_private_queue s) (m_public_queue s) (m_atomic_abort s)
  (m_abort s) (m_idle s) (m_task_found_or_abort s) (m_semaphore s) (m_thread s) (releasing s) (shutting_down s)
  v (executed s) (donated s) (destroyed s).
Definition set_executed v s := make_pool_worker (m_private_queue s) (m_public_queue s) (m_atomic_abort s)
  (m_abort s) (m_idle s) (m_task_found_or_abort s) (m_semaphore s) (m_thread s) (releasing s) (shutting_down s)
  (submitted s) v (donated s) (destroyed s).
Definition set_donated v s := make_pool_worker (m_private_queue s) (m_public_queue s) (m_atomic_abort s)
  (m_abort s) (m_idle s) (m_task_found_or_abort s) (m_semaphore s) (m_thread s) (releasing s) (shutting_down s)
  (submitted s) (executed s) v (destroyed s).
Definition set_destroyed v s := make_pool_worker (m_private_queue s) (m_public_queue s) (m_atomic_abort s)
  (m_abort s) (m_idle s) (m_task_found_or_abort s) (m_semaphore s) (m_thread s) (releasing s) (shutting_down s)
  (submitted s) (executed s) (donated s) v.

Section pool_worker.
Context (semaphore_max pool_size : nat).

Definition semaphore_release (s : thread_pool_worker) : thread_pool_worker :=
  if decide (m_semaphore s < semaphore_max) then set_semaphore (S (m_semaphore s)) s
  else set_thread (pw_terminated semaphore_undefined) s.

(** [ensure_worker_active], in the critical section of [enqueue_foreign].  A
    stale thread has returned from [work_loop], so that joining it ends. *)
Definition ensure_worker_active (first_enqueuer : bool) (s : thread_pool_worker) : thread_pool_worker :=
  if negb (m_idle s) then
    if first_enqueuer then set_releasing (S (releasing s)) s else s
  else set_idle false (set_thread pw_drain s).

(** [enqueue_foreign], for one task or a range of them; [None]: it throws. *)
Definition enqueue_foreign (tasks : list nat) (s : thread_pool_worker) : option thread_pool_worker :=
  if m_abort s then None
  else
    let s := set_found true s in
    let is_empty := bool_decide (m_public_queue s = []) in
    let s := set_submitted (submitted s ++ tasks) (set_public (m_public_queue s ++ tasks) s) in
    Some (ensure_worker_active is_empty s).

(** [enqueue_local]; [None]: it throws. *)
Definition enqueue_local (tasks : list nat) (s : thread_pool_worker) : option thread_pool_worker :=
  if m_atomic_abort s then None
  else Some (set_submitted (submitted s ++ tasks) (set_private (m_private_queue s ++ (Some <$> tasks)) s)).

Definition appears_empty (s : thread_pool_worker) : bool :=
  bool_decide (m_private_queue s = []) && negb (m_task_found_or_abort s).

(** What a task does, seen from its worker: batches it enqueues there, and how
    it ends. *)
Inductive task_end := te_return | te_throw_shutdown | te_throw_other.
Record task_behaviour := make_task_behaviour { local_batches : list (list nat); ends : task_end }.

Fixpoint enqueue_batches (l : list (list nat)) (s : thread_pool_worker) : thread_pool_worker :=
  match l with
  | [] => s
  | ts :: l => enqueue_batches l (match enqueue_local ts s with Some s' => s' | None => s end)
  end.

(** What is left of [drain_queue] after [wait_for_task] returned true, in the
    same critical section. *)
Definition drain_queue (s : thread_pool_worker) : thread_pool_worker :=
  if negb (negb (bool_decide (m_public_queue s = [])) || m_abort s) then set_thread (pw_terminated assertion_failure) s
  else
    let s := set_found false s in
    if m_abort s then set_thread pw_ended (set_idle true s)
    else if negb (bool_decide (m_private_queue s = [])) then set_thread (pw_terminated assertion_failure) s
    else set_thread pw_loop (set_public (omap id (m_private_queue s)) (set_private (Some <$> m_public_queue s) s)).

(** [drain_queue] and [wait_for_task] from the start. *)
Definition wait_for_task (s : thread_pool_worker) : thread_pool_worker :=
  if negb (bool_decide (m_public_queue s = [])) || m_abort s then drain_queue s
  else set_thread pw_wait s.

(** The locked part of the loop of [wait_for_task]. *)
Definition recheck (s : thread_pool_worker) : thread_pool_worker :=
  if bool_decide (m_public_queue s = []) && negb (m_abort s) then set_thread pw_wait s
  else if m_abort s then set_thread pw_ended (set_idle true s)
  else if bool_decide (m_public_queue s = []) then set_thread (pw_terminated assertion_failure) s
  else drain_queue s.

(** The end of [wait_for_task] after the deadline: the queue is not looked at
    again. *)
Definition timed_out (s : thread_pool_worker) : thread_pool_worker :=
  set_thread pw_ended (set_idle true s).

Definition taken {A} (l : list (option A)) : list A := omap id l.

(** [balance_work] with [k] idle workers; the donation to the [fails]th throws. *)
Definition balance (k : nat) (fails : option nat) (s : thread_pool_worker) : option thread_pool_worker :=
  let tc := length (m_private_queue s) in
  if decide (k = 0) then Some s
  else if decide (Nat.min (pool_size - 1) (tc - 1) < k) then None
  else
    match donation_ranges tc k with
    | None => Some (set_thread (pw_terminated assertion_failure) s)
    | Some (ranges, begin) =>
        match fails ≫= (fun j => ranges !! j) with
        | Some (b, _) =>
            Some (set_thread pw_catch (set_donated (donated s ++ taken (take b (m_private_queue s)))
              (set_private (replicate b None ++ drop b (m_private_queue s)) s)))
        | None =>
            let rest := drop begin (m_private_queue s) in
            if negb (forallb (fun o => bool_decide (o <> None)) rest) || bool_decide (rest = [])
            then Some (set_thread (pw_terminated assertion_failure) s)
            else Some (set_donated (donated s ++ taken (take begin (m_private_queue s))) (set_private rest s))
        end
    end.

(** A turn of the loop after [balance_work]. *)
Definition run_back (b : task_behaviour) (s : thread_pool_worker) : thread_pool_worker :=
  if m_atomic_abort s then set_thread pw_aborted s
  else
    match last (m_private_queue s) with
    | None => set_thread (pw_terminated assertion_failure) s
    | Some o =>
        let s := set_private (removelast (m_private_queue s)) s in
        match o with
        | None => s                                       (* an empty task *)
        | Some t =>
            let s := enqueue_batches (local_batches b) (set_executed (executed s ++ [t]) s) in
            match ends b with
            | te_return => s
            | te_throw_shutdown => set_thread pw_catch s
            | te_throw_other => set_thread (pw_terminated task_exception) s
            end
        end
    end.

Definition drain_queue_impl (k : nat) (fails : option nat) (b : task_behaviour) (s : thread_pool_worker)
  : option thread_pool_worker :=
  if bool_decide (m_private_queue s = []) then Some (set_thread pw_drain s)
  else
    match balance k fails s with
    | None => None
    | Some s => match m_thread s with pw_loop => Some (run_back b s) | _ => Some s end
    end.

Inductive plabel :=
  | pl_enqueue (tasks : list nat)
  | pl_release
  | pl_lock                     (* pw_drain, pw_recheck, pw_timed_out, pw_aborted and pw_catch take the lock *)
  | pl_acquire | pl_timeout
  | pl_load                     (* m_task_found_or_abort *)
  | pl_turn (k : nat) (fails : option nat) (b : task_behaviour)
  | pl_shutdown                 (* called by the pool once *)
  | pl_shutdown_step.

(** [shutdown()], one access after the other. *)
Definition shutdown_step (s : thread_pool_worker) : option thread_pool_worker :=
  match shutting_down s with
  | st_none | st_done => None
  | st_lock => Some (set_shutting st_found (set_abort true s))
  | st_found => Some (set_shutting st_release (set_found true s))
  | st_release => Some (set_shutting st_join (semaphore_release s))
  | st_join =>
      match m_thread s with
      | pw_none => Some (set_shutting st_take s)
      | pw_ended => Some (set_shutting st_take (set_thread pw_none s))
      | _ => None
      end
  | st_take => Some (set_shutting st_done (set_destroyed (destroyed s ++ m_public_queue s ++ taken (m_private_queue s))
                       (set_private [] (set_public [] s))))
  end.

Definition pstep (l : plabel) (s : thread_pool_worker) : option thread_pool_worker :=
  match m_thread s with
  | pw_terminated _ => None
  | pc =>
    match l with
    | pl_enqueue tasks => enqueue_foreign tasks s
    | pl_release =>
        if decide (releasing s = 0) then None
        else Some (semaphore_release (set_releasing (releasing s - 1) s))
    | pl_lock =>
        match pc with
        | pw_drain => Some (wait_for_task s)
        | pw_recheck => Some (recheck s)
        | pw_timed_out => Some (timed_out s)
        | pw_aborted | pw_catch => Some (set_thread pw_ended (set_idle true s))
        | _ => None
        end
    | pl_acquire =>
        match pc with
        | pw_wait =>
            if decide (m_semaphore s = 0) then None
            else Some (set_thread pw_acquired (set_semaphore (m_semaphore s - 1) s))
        | _ => None
        end
    | pl_timeout => match pc with pw_wait => Some (set_thread pw_timed_out s) | _ => None end
    | pl_load =>
        match pc with
        | pw_acquired => Some (set_thread (if m_task_found_or_abort s then pw_recheck else pw_wait) s)
        | _ => None
        end
    | pl_turn k fails b => match pc with pw_loop => drain_queue_impl k fails b s | _ => None end
    | pl_shutdown =>
        if m_atomic_abort s then None
        else Some (set_shutting st_lock (set_atomic_abort true s))
    | pl_shutdown_step => shutdown_step s
    end
  end.
End pool_worker.
