(* ===== verification/PoolWorkerTheorems.v ===== *)
(** * What a worker of the thread pool guarantees, and what it does not *)

From Stdlib Require Import Lia.
From stdpp Require Import prelude list strings.
From S2P Require Import Prelude Errors ThreadPool PoolWorker.
#[local] Open Scope list_scope.

Definition terminated (s : thread_pool_worker) : Prop := exists why, m_thread s = pw_terminated why.

(** Everything that was accepted, wherever it is now. *)
Definition accounted (s : thread_pool_worker) : list nat :=
  executed s ++ donated s ++ destroyed s ++ taken (m_private_queue s) ++ m_public_queue s.

(** [pw_terminated] apart, what holds of every worker. *)
Record pinv (s : thread_pool_worker) : Prop := {
  p_tasks : submitted s ≡ₚ accounted s;
  p_running : forall why, m_thread s <> pw_terminated why;
  p_idle : m_idle s = true <-> m_thread s = pw_none \/ m_thread s = pw_ended;
  p_found : m_public_queue s <> [] -> m_abort s = false -> m_task_found_or_abort s = true;
  p_wait : m_thread s = pw_wait -> m_public_queue s <> [] -> m_abort s = false -> 0 < m_semaphore s + releasing s;
  p_told : m_thread s = pw_wait -> m_abort s = true ->
    shutting_down s = st_found \/ shutting_down s = st_release \/ (m_task_found_or_abort s = true /\ 0 < m_semaphore s + releasing s);
  p_told' : m_thread s = pw_acquired -> m_abort s = true ->
    shutting_down s = st_found \/ m_task_found_or_abort s = true;
  p_release : shutting_down s = st_release -> m_thread s = pw_wait -> m_task_found_or_abort s = true;
  p_shutdown : match shutting_down s with
    | st_none | st_lock => m_abort s = false
    | st_take | st_done => m_abort s = true /\ m_thread s = pw_none
    | _ => m_abort s = true end;
  p_abort : m_abort s = true -> m_atomic_abort s = true;
  p_stop : shutting_down s <> st_none -> m_atomic_abort s = true
}.

(** What holds besides as long as no task throws, no donation fails, and nobody
    enqueues in the middle of [shutdown]. *)
Record calm (s : thread_pool_worker) : Prop := {
  c_private : m_thread s = pw_none \/ m_thread s = pw_ended -> m_atomic_abort s = false -> m_private_queue s = [];
  c_aborted : m_thread s = pw_aborted -> m_atomic_abort s = true;
  c_full : Forall (fun o => o <> None) (m_private_queue s);
  c_catch : m_thread s <> pw_catch;
  c_drain : m_thread s = pw_drain \/ m_thread s = pw_wait \/ m_thread s = pw_acquired \/ m_thread s = pw_recheck \/
    m_thread s = pw_timed_out -> m_private_queue s = []
}.

Ltac pleaf := first [congruence | lia | split; [congruence|lia]].

Ltac pprop :=
  intros; repeat match goal with
    | H : ?A -> _, H' : ?A |- _ => specialize (H H')
    | H : _ /\ _ |- _ => destruct H
    | H : _ \/ _ |- _ => destruct H
    | H : ?a <> ?b -> _ |- _ => specialize (H ltac:(discriminate))
    | |- _ <-> _ => split; intros
    end; try congruence; try lia; try tauto;
  try solve [left; pleaf | right; left; pleaf | right; right; pleaf | right; pleaf].

Ltac psolve :=
  try done; try (solve [pprop]);
  try (match goal with |- match shutting_down ?s with _ => _ end => destruct (shutting_down s) end; solve [pprop]);
  try (let E := fresh in intros E; rewrite E in *; solve [pprop]).

Ltac pinv_intro H := destruct H as [Ht Hr Hi Hf Hw Htold Htold' Hrel Hsd Habt Hsh].

Lemma taken_app {A} (l1 l2 : list (option A)) : taken (l1 ++ l2) = taken l1 ++ taken l2.
Proof. apply omap_app. Qed.

Lemma taken_some {A} (l : list A) : taken (Some <$> l) = l.
Proof. unfold taken. induction l as [|x l IH]; [done|]. simpl. f_equal. apply IH. Qed.

Lemma taken_replicate {A} n : taken (replicate n (None : option A)) = [].
Proof. by induction n. Qed.

Lemma new_worker_inv : pinv new_worker /\ calm new_worker.
Proof. split; split; psolve. Qed.

Section proofs.
Context (semaphore_max pool_size : nat).

Lemma release_pinv n s :
  pinv s -> releasing s <= n + 1 ->
  let s' := semaphore_release semaphore_max (set_releasing n s) in terminated s' \/ (pinv s' /\ (calm s -> calm s')).
Proof.
  intros H Hn. pinv_intro H. unfold semaphore_release. simpl. case_decide; [right|left; by eexists].
  split; [split; simpl; psolve|]. by intros [? ? ? ? ?].
Qed.

Lemma enqueue_foreign_pinv ts s s' :
  pinv s -> enqueue_foreign ts s = Some s' -> pinv s' /\ (calm s -> m_atomic_abort s = m_abort s -> calm s').
Proof.
  intros H. pinv_intro H. unfold enqueue_foreign. destruct (m_abort s) eqn:Ea; [done|]. intros [= <-].
  assert (Hp : submitted s ++ ts ≡ₚ executed s ++ donated s ++ destroyed s ++ taken (m_private_queue s) ++ m_public_queue s ++ ts).
  { rewrite Ht. unfold accounted. by rewrite <-!app_assoc. }
  unfold ensure_worker_active. simpl. destruct (m_idle s) eqn:Ei; simpl; [|destruct (bool_decide _) eqn:Eb].
  3: apply bool_decide_eq_false in Eb.
  all: split; [split; unfold accounted; simpl; rewrite ?Ei; psolve|].
  all: intros [Hc Hab Hfull Hcatch Hd] Heq; split; simpl; psolve.
Qed.

Lemma enqueue_local_pinv ts s s' :
  pinv s -> m_thread s = pw_loop -> enqueue_local ts s = Some s' ->
  pinv s' /\ (calm s -> calm s') /\ m_thread s' = pw_loop.
Proof.
  intros H Hpc. pinv_intro H. unfold enqueue_local. destruct (m_atomic_abort s); [done|]. intros [= <-].
  assert (Hp : submitted s ++ ts ≡ₚ executed s ++ donated s ++ destroyed s ++ taken (m_private_queue s ++ (Some <$> ts)) ++ m_public_queue s).
  { rewrite Ht, taken_app, taken_some. unfold accounted. by rewrite <-!app_assoc, (Permutation_app_comm ts). }
  split; [split; unfold accounted; simpl; psolve|]. split; [|done]. intros [Hc Hab Hfull Hcatch Hd]. split; simpl; psolve.
  apply Forall_app. split; [done|]. apply Forall_fmap, list.Forall_forall. done.
Qed.

Lemma enqueue_batches_pinv l s :
  pinv s -> m_thread s = pw_loop ->
  let s' := enqueue_batches l s in pinv s' /\ (calm s -> calm s') /\ m_thread s' = pw_loop.
Proof.
  revert s. induction l as [|ts l IH]; intros s H Hpc; simpl; [done|].
  destruct (enqueue_local ts s) as [s'|] eqn:E; [|by apply IH].
  destruct (enqueue_local_pinv ts s s' H Hpc E) as (H1 & H2 & H3). destruct (IH s' H1 H3) as (? & ? & ?). auto.
Qed.

(** The outcome of a step: the program ends (not by an assertion, if [g]), or
    the invariants hold again (the second one if [g]). *)
Definition fine (g : Prop) (s : thread_pool_worker) : Prop :=
  (exists why, m_thread s = pw_terminated why /\ (g -> why <> assertion_failure)) \/ (pinv s /\ (g -> calm s)).

Ltac calm_intro H := destruct H as [Hc Hab Hfull Hcatch Hd].

Lemma busy_idle s : pinv s -> m_thread s <> pw_none -> m_thread s <> pw_ended -> m_idle s = false.
Proof. intros H H1 H2. pose proof (p_idle s H) as Hi. destruct (m_idle s); [|done]. by destruct (proj1 Hi eq_refl). Qed.

Lemma drain_queue_fine s :
  pinv s -> m_thread s = pw_drain \/ m_thread s = pw_recheck -> m_public_queue s <> [] \/ m_abort s = true ->
  fine (calm s) (drain_queue s).
Proof.
  intros H Hpc Hq. assert (Hid : m_idle s = false) by (apply busy_idle; [done|destruct Hpc; congruence..]).
  pinv_intro H. unfold drain_queue.
  assert (E : negb (bool_decide (m_public_queue s = [])) || m_abort s = true).
  { apply orb_true_iff. destruct Hq as [Hq|Hq]; [left; by rewrite bool_decide_eq_false_2|by right]. }
  rewrite E. clear E. cbn [negb]. cbv zeta. change (m_abort (set_found false s)) with (m_abort s).
  change (m_private_queue (set_found false s)) with (m_private_queue s). destruct (m_abort s) eqn:Ea.
  - right. split; [split; unfold accounted; simpl; rewrite ?Ea; psolve|].
    intros Hcalm. calm_intro Hcalm. split; simpl; psolve.
  - case_bool_decide as Hp; cbn [negb].
    + right. assert (Hperm : submitted s ≡ₚ executed s ++ donated s ++ destroyed s ++ taken (Some <$> m_public_queue s) ++ omap id (m_private_queue s)).
      { rewrite Ht, taken_some. unfold accounted. rewrite Hp. simpl. by rewrite app_nil_r. }
      simpl in Hp. split; [split; unfold accounted; simpl; rewrite ?Hp, ?Hid; psolve|].
      intros Hcalm. calm_intro Hcalm. split; simpl; psolve. apply Forall_fmap, list.Forall_forall. done.
    + left. eexists. split; [done|]. intros Hcalm. calm_intro Hcalm. exfalso. apply Hp, Hd. simpl. tauto.
Qed.

(** Back to a place where the thread holds nothing. *)
Lemma goto_fine pc s :
  pinv s -> m_idle s = false ->
  match pc with
  | pw_wait => m_public_queue s = [] /\ m_abort s = false /\ (m_thread s = pw_drain \/ m_thread s = pw_recheck) \/ m_thread s = pw_acquired /\ m_task_found_or_abort s = false
  | pw_recheck => m_thread s = pw_acquired
  | pw_timed_out => m_thread s = pw_wait
  | pw_drain => m_thread s = pw_loop /\ m_private_queue s = []
  | _ => False
  end ->
  fine (calm s) (set_thread pc s).
Proof.
  intros H Hid Hpc. pinv_intro H. right. destruct pc; try done.
  all: split; [split; unfold accounted; simpl; rewrite ?Hid; psolve|].
  all: intros Hcalm; calm_intro Hcalm; split; simpl; psolve.
Qed.

(** The thread leaves [work_loop]. *)
Lemma end_fine s :
  pinv s -> m_idle s = false ->
  fine (calm s /\ (m_atomic_abort s = true \/ m_private_queue s = [])) (set_thread pw_ended (set_idle true s)).
Proof.
  intros H Hid. pinv_intro H. right. split.
  - split; unfold accounted; simpl; psolve. destruct (shutting_down s); psolve.
    all: destruct Hsd as [_ Hn]; rewrite (proj2 Hi (or_introl Hn)) in Hid; done.
  - intros [Hcalm Hor]. calm_intro Hcalm. split; simpl; psolve.
Qed.

Lemma wait_for_task_fine s : pinv s -> m_thread s = pw_drain -> fine (calm s) (wait_for_task s).
Proof.
  intros H Hpc. assert (Hid : m_idle s = false) by (apply busy_idle; congruence || done). unfold wait_for_task.
  case_bool_decide as Hq; [|apply drain_queue_fine; auto]. cbn [negb orb].
  destruct (m_abort s) eqn:Ea; [apply drain_queue_fine; auto|]. apply goto_fine; auto.
Qed.

Lemma recheck_fine s : pinv s -> m_thread s = pw_recheck -> fine (calm s) (recheck s).
Proof.
  intros H Hpc. assert (Hid : m_idle s = false) by (apply busy_idle; congruence || done). unfold recheck.
  destruct (m_abort s) eqn:Ea.
  - rewrite andb_false_r. destruct (end_fine s H Hid) as [(why & Hw & _)|[Hp Hc]]; [done|]. right. split; [done|].
    intros Hcalm. apply Hc. split; [done|]. left. by apply (p_abort s H).
  - rewrite andb_true_r. case_bool_decide as Hq; [by apply goto_fine; auto|]. apply drain_queue_fine; auto.
Qed.

(** [balance_work] moves tasks; the thread stays in the loop, or catches. *)
Lemma balance_fine k fails s s' :
  pinv s -> m_thread s = pw_loop -> balance pool_size k fails s = Some s' ->
  let g := calm s /\ fails = None in
  fine g s' /\ (m_thread s' = pw_loop \/ (m_thread s' = pw_catch /\ ~ g) \/ terminated s') /\
  (m_private_queue s <> [] -> m_thread s' = pw_loop -> m_private_queue s' <> []).
Proof.
  intros H Hpc. pose proof (busy_idle s H ltac:(congruence) ltac:(congruence)) as Hid. unfold balance.
  case_decide as Hk; [intros [= <-]; split_ands; [right; split; [done|tauto]|by left|done]|].
  case_decide as Hle; [done|].
  destruct (donation_ranges_spec (length (m_private_queue s)) k) as (rs & stop & -> & _ & _ & _ & Hstop & _); [lia|].
  assert (Hperm : forall n, submitted s ≡ₚ executed s ++ (donated s ++ taken (take n (m_private_queue s))) ++ destroyed s ++
    taken (drop n (m_private_queue s)) ++ m_public_queue s).
  { intros n. rewrite (p_tasks s H). unfold accounted. rewrite <-(take_drop n (m_private_queue s)) at 1.
    rewrite taken_app. rewrite <-!app_assoc. do 2 f_equiv. rewrite !app_assoc. do 2 f_equiv.
    apply Permutation_app_comm. }
  destruct (fails ≫= _) as [[b e]|] eqn:Ef.
  - intros [= <-]. assert (Hg : ~ (calm s /\ fails = None)) by (intros [_ ->]; done).
    pose proof (Hperm b) as Hb. split_ands; [|by right; left|done]. right. split; [|tauto].
    pinv_intro H. assert (Hb' : submitted s ≡ₚ executed s ++ (donated s ++ taken (take b (m_private_queue s))) ++ destroyed s ++
      taken (replicate b None ++ drop b (m_private_queue s)) ++ m_public_queue s) by (rewrite taken_app, taken_replicate; exact Hb).
    split; unfold accounted; simpl; rewrite ?Hid; psolve.
  - pose proof (Hperm stop) as Hb.
    assert (Hne : drop stop (m_private_queue s) <> []).
    { intros E. apply (f_equal length) in E. rewrite length_drop in E. simpl in E. lia. }
    rewrite (bool_decide_eq_false_2 _ Hne), orb_false_r. destruct (forallb _ _) eqn:Eall; cbn [negb]; intros [= <-].
    + split_ands; [|by left|done]. right. pinv_intro H. split; [split; unfold accounted; simpl; rewrite ?Hid; psolve|].
      intros [Hcalm _]. calm_intro Hcalm. split; simpl; psolve. by apply Forall_drop.
    + split_ands; [|right; right; by eexists|done]. left. eexists. split; [done|]. intros [Hcalm _]. exfalso.
      apply not_true_iff_false in Eall. apply Eall, List.forallb_forall. intros o Ho%list_elem_of_In.
      apply bool_decide_eq_true_2. assert (Ho' : o ∈ m_private_queue s).
      { rewrite <-(take_drop stop (m_private_queue s)), elem_of_app. by right. }
      pose proof (c_full s Hcalm) as Hf. rewrite list.Forall_forall in Hf. by apply Hf.
Qed.

Lemma last_split {A} (l : list A) x : last l = Some x -> l = removelast l ++ [x].
Proof.
  intros H. apply last_Some in H as [l' ->]. by rewrite removelast_last.
Qed.

Lemma run_back_fine b s :
  pinv s -> m_thread s = pw_loop -> m_private_queue s <> [] ->
  fine (calm s /\ ends b <> te_throw_shutdown) (run_back b s).
Proof.
  intros H Hpc Hne. pose proof (busy_idle s H ltac:(congruence) ltac:(congruence)) as Hid. unfold run_back.
  destruct (m_atomic_abort s) eqn:Ea.
  { right. pinv_intro H. split; [split; unfold accounted; simpl; rewrite ?Hid; psolve|].
    intros [Hcalm _]. calm_intro Hcalm. split; simpl; psolve. }
  destruct (last (m_private_queue s)) as [o|] eqn:El.
  2: { apply last_None in El. done. }
  apply last_split in El. cbv zeta. set (s1 := set_private _ s).
  destruct o as [t|].
  - assert (H1 : pinv (set_executed (executed s1 ++ [t]) s1) /\ (calm s -> calm (set_executed (executed s1 ++ [t]) s1))).
    { pinv_intro H. assert (Hperm : submitted s ≡ₚ (executed s ++ [t]) ++ donated s ++ destroyed s ++ taken (removelast (m_private_queue s)) ++ m_public_queue s).
      { rewrite Ht. unfold accounted. rewrite El at 1. rewrite taken_app. simpl. rewrite <-!app_assoc. f_equiv.
        rewrite !app_assoc. rewrite <-(app_assoc _ [t]). simpl. by rewrite <-!Permutation_middle. }
      split; [split; unfold accounted; simpl; rewrite ?Hid; psolve|]. intros Hcalm. calm_intro Hcalm. split; simpl; psolve.
      rewrite El in Hfull. by apply Forall_app in Hfull as [? _]. }
    destruct H1 as [H1 C1].
    destruct (enqueue_batches_pinv (local_batches b) _ H1 Hpc) as (H2 & C2 & Hpc2).
    set (s2 := enqueue_batches _ _) in *. destruct (ends b) eqn:Eb.
    + right. split; [done|]. intros [? _]. auto.
    + right. split; [|intros [_ []]; done]. pose proof (busy_idle s2 H2 ltac:(congruence) ltac:(congruence)) as Hid2.
      clear -H2 Hpc2 Hid2. pinv_intro H2. split; unfold accounted; simpl; rewrite ?Hid2; psolve.
    + left. eexists. split; [done|done].
  - right. pinv_intro H. assert (Hperm : submitted s ≡ₚ executed s ++ donated s ++ destroyed s ++ taken (removelast (m_private_queue s)) ++ m_public_queue s).
    { rewrite Ht. unfold accounted. rewrite El at 1. rewrite taken_app. simpl. by rewrite app_nil_r. }
    split; [split; unfold accounted; simpl; rewrite ?Hid; psolve|]. intros [Hcalm _]. calm_intro Hcalm. split; simpl; psolve.
    rewrite El in Hfull. by apply Forall_app in Hfull as [? _].
Qed.

Lemma fine_weaken (g g' : Prop) s : (g' -> g) -> fine g s -> fine g' s.
Proof. intros Hg [(why & Hw & H)|[Hp Hc]]; [left; exists why; auto|right; auto]. Qed.

Lemma drain_queue_impl_fine k fails b s s' :
  pinv s -> m_thread s = pw_loop -> drain_queue_impl pool_size k fails b s = Some s' ->
  fine (calm s /\ fails = None /\ ends b <> te_throw_shutdown) s'.
Proof.
  intros H Hpc. unfold drain_queue_impl. case_bool_decide as Hq.
  { intros [= <-]. apply (fine_weaken (calm s)); [tauto|]. apply goto_fine; [done| |done].
    apply busy_idle; congruence || done. }
  destruct (balance pool_size k fails s) as [s1|] eqn:Eb; [|done].
  destruct (balance_fine k fails s s1 H Hpc Eb) as (Hfine & Hpc1 & Hne).
  destruct Hpc1 as [Hpc1|[[Hpc1 Hng]|[why Hw]]].
  - rewrite Hpc1. intros [= <-]. destruct Hfine as [(why & Hw & _)|[Hp1 Hc1]]; [congruence|].
    apply (fine_weaken (calm s1 /\ ends b <> te_throw_shutdown)); [tauto|]. apply run_back_fine; auto.
  - rewrite Hpc1. intros [= <-]. by apply (fine_weaken (calm s /\ fails = None)); [tauto|].
  - rewrite Hw. intros [= <-]. by apply (fine_weaken (calm s /\ fails = None)); [tauto|].
Qed.

Lemma shutdown_step_fine s s' :
  pinv s -> shutdown_step semaphore_max s = Some s' -> fine (calm s) s'.
Proof.
  intros H. pinv_intro H. unfold shutdown_step. destruct (shutting_down s) eqn:Es; try done.
  - intros [= <-]. right. split; [split; unfold accounted; simpl; psolve|].
    intros Hcalm. calm_intro Hcalm. split; simpl; psolve.
  - intros [= <-]. right. split; [split; unfold accounted; simpl; psolve|].
    intros Hcalm. calm_intro Hcalm. split; simpl; psolve.
  - intros [= <-]. unfold semaphore_release. case_decide; [right|left; by eexists].
    split; [split; unfold accounted; simpl; psolve|].
    intros Hcalm. calm_intro Hcalm. split; simpl; psolve.
  - destruct (m_thread s) eqn:Ew; try done; intros [= <-]; right; split.
    1,3: split; unfold accounted; simpl; rewrite ?Ew; psolve.
    all: intros Hcalm; calm_intro Hcalm; split; simpl; psolve.
  - destruct Hsd as [Ha Hn]. intros [= <-]. right.
    assert (Hperm : submitted s ≡ₚ executed s ++ donated s ++ (destroyed s ++ m_public_queue s ++ taken (m_private_queue s)) ++ taken [] ++ []).
    { rewrite Ht. unfold accounted. simpl. rewrite app_nil_r. do 3 f_equiv. apply Permutation_app_comm. }
    split; [split; unfold accounted; simpl; psolve|]. intros Hcalm. calm_intro Hcalm. split; simpl; psolve.
Qed.

(** Labels for which every assertion of the worker holds. *)
Definition good (l : plabel) (s : thread_pool_worker) : Prop :=
  match l with
  | pl_enqueue _ => m_atomic_abort s = m_abort s
  | pl_turn _ fails b => fails = None /\ ends b <> te_throw_shutdown
  | _ => True
  end.

Lemma pstep_fine l s s' :
  pinv s -> pstep semaphore_max pool_size l s = Some s' -> fine (calm s /\ good l s) s'.
Proof.
  intros H Hstep. unfold pstep in Hstep. pose proof (p_running s H) as Hrun.
  assert (Hbusy : m_thread s <> pw_none -> m_thread s <> pw_ended -> m_idle s = false) by (by apply busy_idle).
  destruct l as [ts| | | | | |k fails b| |].
  - assert (E : enqueue_foreign ts s = Some s') by (destruct (m_thread s); try done; by destruct (Hrun why)).
    destruct (enqueue_foreign_pinv ts s s' H E) as [H1 H2]. right. split; [done|]. intros [Hc Hg]. auto.
  - destruct (m_thread s) eqn:Ew; try done; (case_decide; [done|]); injection Hstep as <-;
      (destruct (release_pinv (releasing s - 1) s H ltac:(lia)) as [[why Hw]|[H1 H2]];
       [left; exists why; split; [done|]; intros _ ->; unfold semaphore_release in Hw; case_decide; simpl in Hw; congruence
       |right; split; [done|tauto]]).
  - destruct (m_thread s) eqn:Ew; try done; injection Hstep as <-.
    + apply (fine_weaken (calm s)); [tauto|]. by apply wait_for_task_fine.
    + apply (fine_weaken (calm s)); [tauto|]. by apply recheck_fine.
    + eapply fine_weaken; [|apply end_fine; auto]. intros [Hc _]. split; [done|]. right. apply (c_drain s Hc). tauto.
    + eapply fine_weaken; [|apply end_fine; auto]. intros [Hc _]. split; [done|]. left. by apply (c_aborted s Hc).
    + eapply fine_weaken; [|apply end_fine; auto]. intros [Hc _]. by destruct (c_catch s Hc).
  - destruct (m_thread s) eqn:Ew; try done. case_decide; [done|]. injection Hstep as <-. right.
    assert (Hidle : m_idle s = false) by auto. pinv_intro H.
    split; [split; unfold accounted; simpl; rewrite ?Hidle; psolve|]. intros [Hcalm _]. calm_intro Hcalm. split; simpl; psolve.
  - destruct (m_thread s) eqn:Ew; try done. injection Hstep as <-. apply (fine_weaken (calm s)); [tauto|]. apply goto_fine; auto.
  - destruct (m_thread s) eqn:Ew; try done. injection Hstep as <-. apply (fine_weaken (calm s)); [tauto|].
    destruct (m_task_found_or_abort s) eqn:Ef; apply goto_fine; auto.
  - destruct (m_thread s) eqn:Ew; try done. by eapply fine_weaken; [|by eapply drain_queue_impl_fine].
  - assert (E : (if m_atomic_abort s then None else Some (set_shutting st_lock (set_atomic_abort true s))) = Some s')
      by (destruct (m_thread s); try done; by destruct (Hrun why)).
    destruct (m_atomic_abort s) eqn:Ea; [done|]. injection E as <-. right. pinv_intro H.
    assert (Hn : m_abort s = false) by (destruct (m_abort s); [specialize (Habt eq_refl); congruence|done]).
    split; [split; unfold accounted; simpl; rewrite ?Hn; psolve|]. intros [Hcalm _]. calm_intro Hcalm. split; simpl; psolve.
  - assert (E : shutdown_step semaphore_max s = Some s') by (destruct (m_thread s); try done; by destruct (Hrun why)).
    apply (fine_weaken (calm s)); [tauto|]. by apply shutdown_step_fine.
Qed.
End proofs.

(** ** How the worker is meant to be used *)
Section usage.
Context (semaphore_max pool_size : nat).

(** The states of a worker none of whose tasks throws [runtime_shutdown], none
    of whose donations fails, and on which nobody enqueues while [shutdown] is
    between its two flags. *)
Inductive well_used : thread_pool_worker -> Prop :=
  | wu_new : well_used new_worker
  | wu_step l s s' : well_used s -> good l s -> pstep semaphore_max pool_size l s = Some s' -> well_used s'.

Lemma well_used_inv s :
  well_used s -> (exists why, m_thread s = pw_terminated why /\ why <> assertion_failure) \/ (pinv s /\ calm s).
Proof.
  induction 1 as [|l s s' Hs IH Hg Hstep]; [right; apply new_worker_inv|].
  destruct IH as [(why & Hw & _)|[Hp Hc]]; [unfold pstep in Hstep; by rewrite Hw in Hstep|].
  destruct (pstep_fine _ _ _ _ _ Hp Hstep) as [(why & Hw & Hn)|[Hp' Hc']]; [left; exists why; auto|right; auto].
Qed.

Lemma well_used_run ls s s' :
  well_used s -> run (pstep semaphore_max pool_size) ls s = Some s' ->
  Forall (fun l => forall s, good l s) ls -> well_used s'.
Proof.
  revert s. induction ls as [|l ls IH]; intros s Hs; simpl; [by intros [= <-]|].
  destruct (pstep semaphore_max pool_size l s) as [s1|] eqn:E; [|done]. intros Hr Hl. inversion_clear Hl.
  eapply IH; [|exact Hr|done]. by eapply wu_step.
Qed.

Fixpoint good_run (ls : list plabel) (s : thread_pool_worker) : Prop :=
  match ls with
  | [] => True
  | l :: ls => good l s /\ match pstep semaphore_max pool_size l s with Some s' => good_run ls s' | None => True end
  end.

Lemma well_used_good_run ls s s' :
  well_used s -> run (pstep semaphore_max pool_size) ls s = Some s' -> good_run ls s -> well_used s'.
Proof.
  revert s. induction ls as [|l ls IH]; intros s Hs; simpl; [by intros [= <-]|].
  destruct (pstep semaphore_max pool_size l s) as [s1|] eqn:E; [|done]. intros Hr [Hg Hl].
  eapply IH; [|exact Hr|done]. by eapply wu_step.
Qed.

Definition quiet_task : task_behaviour := make_task_behaviour [] te_return.
Definition quiet_turn : plabel := pl_turn 0 None quiet_task.

(** What the worker does alone, without a time-out, or with a thread that owes
    it a release. *)
Definition own_label (l : plabel) : bool :=
  match l with pl_release | pl_lock | pl_acquire | pl_load => true | pl_turn 0 None (make_task_behaviour [] te_return) => true | _ => false end.

Lemma own_quiet n : forallb own_label (replicate n quiet_turn) = true.
Proof. by induction n. Qed.

Lemma run_all n s :
  n = length (m_private_queue s) -> m_thread s = pw_loop -> m_atomic_abort s = false ->
  Forall (fun o => o <> None) (m_private_queue s) ->
  exists s', run (pstep semaphore_max pool_size) (replicate n quiet_turn) s = Some s' /\
    executed s' ≡ₚ executed s ++ taken (m_private_queue s) /\
    s' = set_private [] (set_executed (executed s') s).
Proof.
  revert s. induction n as [|n IH]; intros s Hn Hpc Ha Hfull.
  - assert (Hp : m_private_queue s = []) by (by destruct (m_private_queue s)).
    exists s. rewrite Hp, app_nil_r. split_ands; [done|done|]. destruct s; simpl in *. by subst.
  - destruct (last (m_private_queue s)) as [o|] eqn:El.
    2: { apply last_None in El. by rewrite El in Hn. }
    pose proof (last_split _ _ El) as Es.
    destruct o as [t|]; [|rewrite Es in Hfull; apply Forall_app in Hfull as [_ Hx]; by inversion Hx].
    set (s1 := set_executed (executed s ++ [t]) (set_private (removelast (m_private_queue s)) s)).
    assert (E1 : pstep semaphore_max pool_size quiet_turn s = Some s1).
    { unfold pstep. rewrite Hpc. unfold quiet_turn, drain_queue_impl. rewrite bool_decide_eq_false_2.
      2: { intros E. by rewrite E in Hn. }
      unfold balance. simpl. rewrite Hpc. unfold run_back. by rewrite Ha, El. }
    destruct (IH s1) as (s' & Er & Hex & Heq); try done.
    + simpl. rewrite Es, length_app in Hn. simpl in Hn. lia.
    + simpl. rewrite Es in Hfull. by apply Forall_app in Hfull as [? _].
    + exists s'. cbn [replicate run]. rewrite E1. split_ands; [done| |done].
      rewrite Hex. unfold s1. cbn [executed set_executed m_private_queue set_private].
      rewrite Es at 2. rewrite taken_app, <-app_assoc. f_equiv. simpl. apply Permutation_cons_append.
Qed.

Lemma to_loop s :
  1 <= semaphore_max -> pinv s -> calm s -> m_abort s = false -> m_idle s = false -> m_thread s <> pw_timed_out ->
  m_thread s <> pw_loop -> m_thread s <> pw_aborted -> m_public_queue s <> [] ->
  exists ls s', run (pstep semaphore_max pool_size) ls s = Some s' /\ forallb own_label ls = true /\ m_thread s' = pw_loop /\
    executed s' = executed s /\ m_private_queue s' = Some <$> m_public_queue s /\ m_public_queue s' = [] /\
    m_abort s' = false /\ m_atomic_abort s' = m_atomic_abort s.
Proof.
  intros Hmax H Hc Ha Hid Hto Hlp Hab Hq.
  pose proof (p_found s H Hq Ha) as Hf.
  assert (Hlock : forall s0, m_thread s0 = pw_drain \/ m_thread s0 = pw_recheck -> m_abort s0 = false ->
    m_public_queue s0 <> [] -> m_private_queue s0 = [] ->
    pstep semaphore_max pool_size pl_lock s0 =
      Some (set_thread pw_loop (set_public [] (set_private (Some <$> m_public_queue s0) (set_found false s0))))).
  { intros s0 Hw0 Ha0 Hq0 Hp0. unfold pstep, wait_for_task, recheck, drain_queue.
    rewrite (bool_decide_eq_false_2 _ Hq0), Ha0. simpl. rewrite Hp0. simpl. destruct Hw0 as [-> | ->]; by rewrite Ha0. }
  assert (Hload : forall s0, m_thread s0 = pw_acquired -> m_task_found_or_abort s0 = true -> m_abort s0 = false ->
    m_public_queue s0 <> [] -> m_private_queue s0 = [] ->
    run (pstep semaphore_max pool_size) [pl_load; pl_lock] s0 =
      Some (set_thread pw_loop (set_public [] (set_private (Some <$> m_public_queue s0) (set_found false s0))))).
  { intros s0 Hw0 Hf0 Ha0 Hq0 Hp0. cbn [run]. unfold pstep at 1. rewrite Hw0, Hf0.
    rewrite Hlock by auto. done. }
  assert (Hacq : forall s0, m_thread s0 = pw_wait -> 0 < m_semaphore s0 -> m_task_found_or_abort s0 = true -> m_abort s0 = false ->
    m_public_queue s0 <> [] -> m_private_queue s0 = [] ->
    run (pstep semaphore_max pool_size) [pl_acquire; pl_load; pl_lock] s0 =
      Some (set_thread pw_loop (set_public [] (set_private (Some <$> m_public_queue s0)
        (set_found false (set_semaphore (m_semaphore s0 - 1) s0)))))).
  { intros s0 Hw0 Hs0 Hf0 Ha0 Hq0 Hp0. cbn [run]. unfold pstep at 1. rewrite Hw0. case_decide; [lia|].
    exact (Hload (set_thread pw_acquired (set_semaphore (m_semaphore s0 - 1) s0)) eq_refl Hf0 Ha0 Hq0 Hp0). }
  destruct (m_thread s) eqn:Ew; try done.
  - by rewrite (proj2 (p_idle s H)) in Hid by auto.
  - assert (Hp : m_private_queue s = []) by (apply (c_drain s Hc); auto).
    eexists [pl_lock], _. cbn [run]. rewrite Hlock by auto. by split_ands.
  - assert (Hp : m_private_queue s = []) by (apply (c_drain s Hc); auto).
    pose proof (p_wait s H Ew Hq Ha) as Hs. destruct (decide (m_semaphore s = 0)) as [Hz|Hz].
    + set (s1 := set_semaphore 1 (set_releasing (releasing s - 1) s)).
      assert (E1 : pstep semaphore_max pool_size pl_release s = Some s1).
      { unfold pstep. rewrite Ew. case_decide; [lia|]. unfold semaphore_release. simpl. rewrite Hz. case_decide; [done|lia]. }
      eexists [pl_release; pl_acquire; pl_load; pl_lock], _. cbn [run]. rewrite E1.
      pose proof (Hacq s1 Ew ltac:(simpl; lia) Hf Ha Hq Hp) as E2. cbn [run] in E2. rewrite E2. by split_ands.
    + eexists [pl_acquire; pl_load; pl_lock], _. rewrite Hacq by (auto; lia). by split_ands.
  - assert (Hp : m_private_queue s = []) by (apply (c_drain s Hc); auto).
    eexists [pl_load; pl_lock], _. rewrite Hload by auto. by split_ands.
  - assert (Hp : m_private_queue s = []) by (apply (c_drain s Hc); auto 10).
    eexists [pl_lock], _. cbn [run]. rewrite Hlock by auto. by split_ands.
  - by destruct (c_catch s Hc).
  - by rewrite (proj2 (p_idle s H)) in Hid by auto.
  - by destruct (p_running s H why).
Qed.
End usage.

(** ** The theorems *)

(** C19.  Nothing that a worker accepted is lost: as long as the program runs,
    each task was executed, was given to another worker, was destroyed, or is in
    one of its two queues.  No assertion fails in a worker that is well used (no
    task throws [runtime_shutdown], no donation fails, nobody enqueues between
    the two flags of [shutdown]).  A worker that waits while there are tasks has
    been, or is about to be, told. *)
Theorem pool_worker_keeps_every_task semaphore_max pool_size s :
  well_used semaphore_max pool_size s ->
  m_thread s <> pw_terminated assertion_failure /\
  ((forall why, m_thread s <> pw_terminated why) ->
   submitted s ≡ₚ executed s ++ donated s ++ destroyed s ++ taken (m_private_queue s) ++ m_public_queue s /\
   (m_thread s = pw_wait -> m_public_queue s <> [] -> m_abort s = false ->
    0 < m_semaphore s + releasing s /\ m_task_found_or_abort s = true)).
Proof.
  intros [(why & Hw & Hn)|[H Hc]]%well_used_inv.
  - split; [congruence|]. intros Hr. by destruct (Hr why).
  - split; [apply (p_running s H)|]. intros _. split; [apply (p_tasks s H)|].
    intros Hw Hq Ha. split; [by apply (p_wait s H)|by apply (p_found s H)].
Qed.

Lemma pool_run_from_loop semaphore_max pool_size s :
  pinv s -> calm s -> m_thread s = pw_loop -> m_atomic_abort s = false ->
  exists ls s', run (pstep semaphore_max pool_size) ls s = Some s' /\ forallb own_label ls = true /\
    Forall (fun l => forall s, good l s) ls /\ m_thread s' = pw_drain /\ m_idle s' = m_idle s /\ m_abort s' = m_abort s /\
    m_atomic_abort s' = false /\ m_public_queue s' = m_public_queue s /\
    executed s' ≡ₚ executed s ++ taken (m_private_queue s).
Proof.
  intros H Hc Hpc Ha.
  destruct (run_all semaphore_max pool_size _ s eq_refl Hpc Ha (c_full s Hc)) as (s' & E & Hex & Hs).
  exists (replicate (length (m_private_queue s)) quiet_turn ++ [quiet_turn]), (set_thread pw_drain s').
  rewrite run_app, E. split_ands.
  - cbn [run]. unfold pstep. rewrite Hs. simpl. by rewrite Hpc.
  - rewrite forallb_app. by rewrite own_quiet.
  - assert (G : forall s, good quiet_turn s) by done. apply Forall_app. split; [by apply Forall_replicate|by apply Forall_singleton].
  - done.
  - by rewrite Hs.
  - by rewrite Hs.
  - by rewrite Hs.
  - by rewrite Hs.
  - exact Hex.
Qed.

(** A worker that is awake executes all it has: from every state of a
    well-used worker that is neither idle, nor about to become idle after a
    time-out, nor shut down, steps of its own lead to one in which every task
    of its two queues has been executed. *)
Theorem running_worker_runs_everything semaphore_max pool_size s :
  1 <= semaphore_max -> well_used semaphore_max pool_size s -> (forall why, m_thread s <> pw_terminated why) ->
  m_idle s = false -> m_thread s <> pw_timed_out -> m_atomic_abort s = false ->
  exists ls s', run (pstep semaphore_max pool_size) ls s = Some s' /\ forallb own_label ls = true /\
    executed s' ≡ₚ executed s ++ taken (m_private_queue s) ++ m_public_queue s.
Proof.
  intros Hmax Hs Ht Hid Hto Hat.
  assert (Hinv : forall s, well_used semaphore_max pool_size s -> (forall why, m_thread s <> pw_terminated why) -> pinv s /\ calm s).
  { intros s0 [(why & Hw & _)|?]%well_used_inv H0; [by destruct (H0 why)|done]. }
  assert (Hno : forall s, pinv s -> m_atomic_abort s = false -> m_abort s = false).
  { intros s0 H0 Ha0. pose proof (p_abort s0 H0) as E. destruct (m_abort s0); [|done]. by rewrite E in Ha0. }
  assert (Hrest : forall s, well_used semaphore_max pool_size s -> (forall why, m_thread s <> pw_terminated why) ->
    m_idle s = false -> m_thread s <> pw_timed_out -> m_atomic_abort s = false -> m_thread s <> pw_loop ->
    exists ls s', run (pstep semaphore_max pool_size) ls s = Some s' /\ forallb own_label ls = true /\
      executed s' ≡ₚ executed s ++ taken (m_private_queue s) ++ m_public_queue s).
  { clear s Hs Ht Hid Hto Hat. intros s Hs Ht Hid Hto Hat Hlp. destruct (Hinv s Hs Ht) as [H Hc].
    assert (Hp : m_private_queue s = []).
    { pose proof (c_aborted s Hc). pose proof (c_catch s Hc). pose proof (p_idle s H) as Hi.
      destruct (m_thread s) eqn:Ew; try congruence; try (apply (c_drain s Hc); rewrite Ew; tauto).
      - rewrite Hid in Hi. destruct Hi as [_ Hi]. discriminate (Hi ltac:(auto)).
      - exfalso. intuition congruence.
      - rewrite Hid in Hi. destruct Hi as [_ Hi]. discriminate (Hi ltac:(auto)). }
    destruct (decide (m_public_queue s = [])) as [Hq|Hq].
    { exists [], s. rewrite Hp, Hq. simpl. by rewrite app_nil_r. }
    destruct (to_loop semaphore_max pool_size s) as (ls1 & s1 & E1 & L1 & Hw1 & He1 & Hp1 & Hq1 & Ha1 & Hat1); auto.
    { intros E. pose proof (c_aborted s Hc E). congruence. }
    destruct (run_all semaphore_max pool_size _ s1 eq_refl Hw1) as (s2 & E2 & He2 & _); [congruence| |].
    { rewrite Hp1. apply Forall_fmap, list.Forall_forall. done. }
    eexists (ls1 ++ _), s2. rewrite run_app, E1, E2. split_ands; [done| |].
    - by rewrite forallb_app, L1, own_quiet.
    - rewrite He2, He1, Hp1, Hp, taken_some. done. }
  destruct (decide (m_thread s = pw_loop)) as [Hlp|Hlp]; [|by apply Hrest].
  destruct (Hinv s Hs Ht) as [H Hc].
  destruct (pool_run_from_loop semaphore_max pool_size s H Hc Hlp Hat) as (ls1 & s1 & E1 & L1 & G1 & Hw1 & Hid1 & Ha1 & Hat1 & Hq1 & He1).
  assert (Hs1 : well_used semaphore_max pool_size s1) by (by eapply well_used_run).
  destruct (Hrest s1) as (ls2 & s2 & E2 & L2 & He2); try congruence; try done.
  assert (Hp1 : m_private_queue s1 = []).
  { destruct (Hinv s1 Hs1) as [_ Hc1]; [congruence|]. apply (c_drain s1 Hc1). auto. }
  exists (ls1 ++ ls2), s2. rewrite run_app, E1, forallb_app, L1. split_ands; [done|done|].
  by rewrite He2, He1, Hp1, Hq1, <-app_assoc.
Qed.

(** ** Executions that go wrong *)

(** A worker executes task 1, waits in vain, and task 2 comes after the
    deadline, before the worker has the lock. *)
Definition late_task : list plabel :=
  [pl_enqueue [1]; pl_lock; quiet_turn; quiet_turn; pl_lock; pl_timeout; pl_enqueue [2]; pl_lock; pl_release].

(** A worker whose wait timed out does not look at its queue again, and
    nobody starts it again: a task that comes between the time-out and the lock
    stays in the queue of a worker without a thread.  Only another enqueue or the
    shutdown can happen then, and the shutdown destroys the task. *)
Theorem task_is_stranded_after_time_out n pool_size :
  let step := pstep (2 + n) pool_size in
  exists s, well_used (2 + n) pool_size s /\ m_abort s = false /\ executed s = [1] /\ m_public_queue s = [2] /\
    m_idle s = true /\ m_thread s = pw_ended /\
    (forall l s', step l s = Some s' -> (exists ts, l = pl_enqueue ts) \/ l = pl_shutdown) /\
    exists s', run step (pl_shutdown :: replicate 5 pl_shutdown_step) s = Some s' /\
      shutting_down s' = st_done /\ executed s' = [1] /\ destroyed s' = [2].
Proof.
  intros step.
  set (s := make_pool_worker [] [2] false false true true 1 pw_ended 0 st_none [1; 2] [1] [] []).
  exists s. split; [|do 5 (split; [reflexivity|]); split].
  - apply (well_used_good_run _ _ late_task new_worker); [apply wu_new|vm_compute; reflexivity|]. vm_compute. by repeat split.
  - intros l s' Hs'. destruct l; try discriminate Hs'; [left; eexists; reflexivity|right; reflexivity].
  - exists (make_pool_worker [] [] true true true true 2 pw_none 0 st_done [1; 2] [1] [] [2]).
    split; [vm_compute; reflexivity|by split_ands].
Qed.

(** The shutdown sets [m_atomic_abort] before [m_abort].  A worker that sees the
    first flag leaves its private queue as it is; a task that comes before the
    second starts a new thread, whose assertion [m_private_queue.empty()] fails. *)
Definition shutdown_race : list plabel :=
  [pl_enqueue [1; 2]; pl_lock; pl_shutdown; quiet_turn; pl_lock; pl_enqueue [3]; pl_lock].

Lemma shutdown_race_breaks_assertion n pool_size :
  exists s, run (pstep n pool_size) shutdown_race new_worker = Some s /\ m_thread s = pw_terminated assertion_failure.
Proof. exists (after (pstep n pool_size) new_worker shutdown_race). split; vm_compute; reflexivity. Qed.

(** The same assertion fails after a task has thrown [runtime_shutdown] (as a
    call of an executor that was shut down does). *)
Definition shutdown_exception_escapes : list plabel :=
  [pl_enqueue [1; 2]; pl_lock; pl_turn 0 None (make_task_behaviour [] te_throw_shutdown); pl_lock; pl_enqueue [3]; pl_lock].

Lemma shutdown_exception_breaks_assertion n pool_size :
  exists s, run (pstep n pool_size) shutdown_exception_escapes new_worker = Some s /\ m_thread s = pw_terminated assertion_failure.
Proof. exists (after (pstep n pool_size) new_worker shutdown_exception_escapes). split; vm_compute; reflexivity. Qed.

(** As in [worker_thread_executor], releasing the semaphore is not bounded by
    acquiring it. *)
Definition busy_round : list plabel := [pl_enqueue [0]; pl_release; quiet_turn; quiet_turn; pl_lock].

Lemma pool_busy_round_releases semaphore_max pool_size s n t :
  m_thread s = pw_loop -> m_private_queue s = [Some t] -> m_public_queue s = [] -> m_abort s = false ->
  m_atomic_abort s = false -> m_idle s = false -> releasing s = 0 -> m_semaphore s = n -> n < semaphore_max ->
  exists s', run (pstep semaphore_max pool_size) busy_round s = Some s' /\
    m_thread s' = pw_loop /\ m_private_queue s' = [Some 0] /\ m_public_queue s' = [] /\ m_abort s' = false /\
    m_atomic_abort s' = false /\ m_idle s' = false /\ releasing s' = 0 /\ m_semaphore s' = S n.
Proof.
  destruct s as [pr pu aa ab id tf se th re sd su ex do de]. intros H1 H2 H3 H4 H5 H6 H7 H8 Hn.
  simpl in H1, H2, H3, H4, H5, H6, H7, H8. subst pr pu aa ab id th re se.
  pose (s2 := make_pool_worker [Some t] [0] false false false true (S n) pw_loop 0 sd (su ++ [0]) ex do de).
  assert (E : run (pstep semaphore_max pool_size) [pl_enqueue [0]; pl_release]
    (make_pool_worker [Some t] [] false false false tf n pw_loop 0 sd su ex do de) = Some s2).
  { cbn [run]. unfold pstep, enqueue_foreign, semaphore_release. simpl. case_decide; [done|lia]. }
  exists (make_pool_worker [Some 0] [] false false false false (S n) pw_loop 0 sd (su ++ [0]) (ex ++ [t]) do de).
  change busy_round with ([pl_enqueue [0]; pl_release] ++ [quiet_turn; quiet_turn; pl_lock]).
  rewrite run_app, E. split; [vm_compute; reflexivity|by split_ands].
Qed.

Lemma first_task_starts_worker semaphore_max pool_size :
  let s := make_pool_worker [Some 0] [] false false false false 0 pw_loop 0 st_none [0] [] [] [] in
  run (pstep semaphore_max pool_size) [pl_enqueue [0]; pl_lock] new_worker = Some s.
Proof. vm_compute. reflexivity. Qed.

Lemma full_semaphore_overflows semaphore_max pool_size t tf sd su ex do de :
  run (pstep semaphore_max pool_size) [pl_enqueue [0]; pl_release]
    (make_pool_worker [Some t] [] false false false tf semaphore_max pw_loop 0 sd su ex do de) =
  Some (make_pool_worker [Some t] [0] false false false true semaphore_max (pw_terminated semaphore_undefined) 0
    sd (su ++ [0]) ex do de).
Proof.
  cbn [run]. unfold pstep, enqueue_foreign, semaphore_release. simpl. case_decide; [lia|done].
Qed.

(** The worker is busy, and its semaphore has been released [n] times in vain. *)
Definition released_in_vain (semaphore_max pool_size n : nat) : Prop :=
  exists s t, reachable (pstep semaphore_max pool_size) new_worker s /\
    m_thread s = pw_loop /\ m_private_queue s = [Some t] /\ m_public_queue s = [] /\ m_abort s = false /\
    m_atomic_abort s = false /\ m_idle s = false /\ releasing s = 0 /\ m_semaphore s = n.

Lemma released_in_vain_0 semaphore_max pool_size : released_in_vain semaphore_max pool_size 0.
Proof.
  eexists _, 0. split; [|].
  { eapply run_reachable. exact (first_task_starts_worker semaphore_max pool_size). }
  by split_ands.
Qed.

Lemma released_in_vain_n semaphore_max pool_size n : n <= semaphore_max -> released_in_vain semaphore_max pool_size n.
Proof.
  induction n as [|n IH]; intros Hle; [apply released_in_vain_0|].
  destruct IH as (s & t & Hr & H1 & H2 & H3 & H4 & H5 & H6 & H7 & H8); [lia|].
  destruct (pool_busy_round_releases semaphore_max pool_size s n t) as (s' & E & H'); try done.
  exists s', 0. split; [by eapply run_reachable_from|done].
Qed.

Lemma pool_worker_semaphore_overflows semaphore_max pool_size :
  exists s, reachable (pstep semaphore_max pool_size) new_worker s /\ m_thread s = pw_terminated semaphore_undefined.
Proof.
  destruct (released_in_vain_n semaphore_max pool_size semaphore_max) as (s & t & Hr & H1 & H2 & H3 & H4 & H5 & H6 & H7 & H8); [done|].
  destruct s as [pr pu aa ab id tf se th re sd su ex do de].
  cbn in H1, H2, H3, H4, H5, H6, H7, H8. subst pr pu aa ab id th re se.
  pose proof (run_reachable_from _ _ _ _ _ Hr (full_semaphore_overflows semaphore_max pool_size t tf sd su ex do de)) as Hr'.
  clear Hr. eexists. split; [exact Hr'|reflexivity].
Qed.

(** ** Witnesses *)
Definition some_run : list plabel :=
  [pl_enqueue [1; 2; 3]; pl_lock; pl_turn 1 None (make_task_behaviour [[4]] te_return); pl_enqueue [5]; pl_release].

Notation after_some_run := (after (pstep 1 4) new_worker some_run).

Lemma some_run_well_used : well_used 1 4 after_some_run.
Proof.
  apply (well_used_good_run 1 4 some_run new_worker after_some_run); [apply wu_new|by vm_compute|]. vm_compute. by repeat split.
Qed.

Lemma pool_worker_keeps_every_task_witness :
  submitted after_some_run ≡ₚ executed after_some_run ++ donated after_some_run ++ destroyed after_some_run ++
    taken (m_private_queue after_some_run) ++ m_public_queue after_some_run.
Proof. apply (pool_worker_keeps_every_task 1 4 after_some_run some_run_well_used). by vm_compute. Defined.

Lemma running_worker_runs_everything_witness :
  exists ls s', run (pstep 1 4) ls after_some_run = Some s' /\ forallb own_label ls = true /\
    executed s' ≡ₚ executed after_some_run ++ taken (m_private_queue after_some_run) ++ m_public_queue after_some_run.
Proof.
  apply (running_worker_runs_everything 1 4 after_some_run); [done|apply some_run_well_used|by vm_compute..].
Defined.
