(* ===== verification/Pool.v ===== *)
(** * The thread pool as a whole

    [thread_pool_executor] of [source/executors/thread_pool_executor.cpp]: the
    workers of [PoolWorker], the idle set and the choices of [ThreadPool], put
    together.  What one worker donates, another one accepts; what the pool
    accepts goes to the queue of one worker; [shutdown] shuts the workers down
    one after the other.

    A step of a worker is a step of [PoolWorker.pstep]; the labels of that
    system that spoke of the other workers (how many are idle, whether a donation
    is refused) are computed here.  The donations of one turn are one step, and
    so is the dispatch of a bulk of tasks.  (A pool of no workers divides by zero
    in [enqueue]; here it refuses the task.) *)

From Stdlib Require Import ZArith Lia.
From stdpp Require Import prelude list strings.
From S2P Require Import Prelude Errors IdleWorkerSet ThreadPool PoolWorker.
#[local] Open Scope list_scope.

Notation worker := thread_pool_worker.

Record pool_state := make_pool_state {
  m_workers : list worker;
  shared : pool;                 (* the identity, the size, the cursor and m_idle_workers *)
  pool_abort : bool;             (* m_abort of the pool *)
  closing : option nat;          (* the loop of shutdown: the worker it is at *)
  accepted : list nat            (* every task that an enqueue accepted *)
}.

Definition set_workers v s := make_pool_state v (shared s) (pool_abort s) (closing s) (accepted s).
Definition set_shared v s := make_pool_state (m_workers s) v (pool_abort s) (closing s) (accepted s).
Definition set_pool_abort v s := make_pool_state (m_workers s) (shared s) v (closing s) (accepted s).
Definition set_closing v s := make_pool_state (m_workers s) (shared s) (pool_abort s) v (accepted s).
Definition set_accepted v s := make_pool_state (m_workers s) (shared s) (pool_abort s) (closing s) v.

(** The constructor. *)
Definition new_thread_pool (id size : nat) : pool_state :=
  make_pool_state (replicate size new_worker) (new_pool id size) false None [].

(** ** Accessors *)

(** [worker_at]: its assertion lets the size itself pass. *)
Definition worker_at (index : nat) (s : pool_state) : outcome exn worker :=
  if bool_decide (index <= length (m_workers s)) then
    match m_workers s !! index with Some w => Ok w | None => Abort end
  else Abort.

Definition mark_worker_idle (index : nat) (s : pool_state) : pool_state :=
  set_shared (set_idle_workers (IdleWorkerSet.set_idle index (m_idle_workers (shared s))) (shared s)) s.
Definition mark_worker_active (index : nat) (s : pool_state) : pool_state :=
  set_shared (set_idle_workers (IdleWorkerSet.set_active index (m_idle_workers (shared s))) (shared s)) s.
Definition shutdown_requested (s : pool_state) : bool := pool_abort s.

(** [~thread_pool_worker]: its assertions. *)
Definition destruct_worker (w : worker) : outcome exn unit :=
  if m_idle w && match m_thread w with pw_none => true | _ => false end then Ok tt else Abort.

(** ** Enqueue *)

(** [enqueue_foreign] of the [i]th worker; [None]: it throws. *)
Definition receive (i : nat) (tasks : list nat) (ws : list worker) : option (list worker) :=
  match ws !! i with
  | Some w => match enqueue_foreign tasks w with Some w' => Some (<[i := w']> ws) | None => None end
  | None => None
  end.

(** [enqueue_local], by a task that runs in the [i]th worker. *)
Definition receive_local (i : nat) (tasks : list nat) (ws : list worker) : option (list worker) :=
  match ws !! i with
  | Some w =>
      match m_thread w, enqueue_local tasks w with
      | pw_loop, Some w' => Some (<[i := w']> ws)
      | _, _ => None
      end
  | None => None
  end.

Definition deliver (d : destination) (tasks : list nat) (s : pool_state) : option pool_state :=
  let log ws := set_accepted (accepted s ++ tasks) (set_workers ws s) in
  match d with
  | foreign_queue _ i => log <$> receive i tasks (m_workers s)
  | local_queue q i =>
      if decide (q = pool_id (shared s)) then log <$> receive_local i tasks (m_workers s)
      else Some s                                  (* a worker of another pool took them *)
  end.

(** What [appears_empty()] of the calling worker answers. *)
Definition caller_appears_empty (tls : per_thread_data) (s : pool_state) : bool :=
  match this_worker tls with
  | Some (q, i) =>
      if decide (q = pool_id (shared s)) then
        match m_workers s !! i with Some w => appears_empty w | None => false end
      else true
  | None => false
  end.

(** [enqueue(task)]: the state and whether it returned (did not throw). *)
Definition pool_enqueue (tls : per_thread_data) (task : nat) (s : pool_state) : pool_state * bool :=
  let '(d, p) := ThreadPool.enqueue tls (caller_appears_empty tls s) (shared s) in
  let s := set_shared p s in
  match deliver d [task] s with
  | Some s' => (s', true)
  | None => (s, false)
  end.

(** The loop for few tasks; an exception ends it. *)
Fixpoint enqueue_few (tls : per_thread_data) (tasks : list nat) (s : pool_state) : pool_state :=
  match tasks with
  | [] => s
  | t :: tasks =>
      match pool_enqueue tls t s with
      | (s', true) => enqueue_few tls tasks s'
      | (s', false) => s'
      end
  end.

(** The loop over the workers. *)
Fixpoint enqueue_ranges (i : nat) (ranges : list (nat * nat)) (tasks : list nat) (s : pool_state) : pool_state :=
  match ranges with
  | [] => s
  | r :: ranges =>
      match deliver (foreign_queue (pool_id (shared s)) i) (range r tasks) s with
      | Some s' => enqueue_ranges (S i) ranges tasks s'
      | None => s
      end
  end.

(** [enqueue(std::span)]; [None]: an assertion fails. *)
Definition pool_enqueue_span (tls : per_thread_data) (tasks : list nat) (s : pool_state) : option pool_state :=
  match this_worker tls with
  | Some (q, i) => Some (default s (deliver (local_queue q i) tasks s))
  | None =>
      if decide (length tasks < length (m_workers s)) then Some (enqueue_few tls tasks s)
      else
        match bulk_ranges (length tasks) (length (m_workers s)) with
        | Some (ranges, _) => Some (enqueue_ranges 0 ranges tasks s)
        | None => None
        end
  end.

(** ** Workers *)
Section pool.
Context (semaphore_max : nat).

(** The donations of one turn, in their order: the workers, and which donation
    was refused. *)
Fixpoint donate (j : nat) (batches : list (nat * list (option nat))) (ws : list worker) : list worker * option nat :=
  match batches with
  | [] => (ws, None)
  | (i, b) :: batches =>
      match receive i (taken b) ws with
      | Some ws' => donate (S j) batches ws'
      | None => (ws, Some j)
      end
  end.

Definition fail_assertion (i : nat) (w : worker) (s : pool_state) : pool_state :=
  set_workers (<[i := set_thread (pw_terminated assertion_failure) w]> (m_workers s)) s.

(** A turn of [drain_queue_impl] of the [i]th worker, whose task does [b]. *)
Definition worker_turn (i : nat) (b : task_behaviour) (s : pool_state) : option pool_state :=
  match m_workers s !! i with
  | Some w =>
      match m_thread w with
      | pw_loop =>
          match ThreadPool.plan_donations i (pool_size (shared s)) (m_private_queue w) (m_idle_workers (shared s)) with
          | None => Some (fail_assertion i w s)
          | Some (batches, _, idle) =>
              let '(ws, refused) := donate 0 batches (m_workers s) in
              match pstep semaphore_max (pool_size (shared s)) (pl_turn (length batches) refused b) w with
              | None => None
              | Some w' =>
                  Some (set_accepted (accepted s ++ list.drop (length (submitted w)) (submitted w'))
                    (set_shared (set_idle_workers idle (shared s)) (set_workers (<[i := w']> ws) s)))
              end
          end
      | _ => None
      end
  | None => None
  end.

(** The labels of a worker that do not need the others. *)
Definition own_step (l : plabel) : bool :=
  match l with pl_release | pl_lock | pl_acquire | pl_timeout | pl_load => true | _ => false end.

(** [wait_for_task] tells the idle set when it starts to wait and when it found
    a task. *)
Definition mark (i : nat) (before after : pool_worker_pc) (s : pool_state) : pool_state :=
  match before, after with
  | pw_drain, pw_wait => mark_worker_idle i s
  | pw_recheck, pw_loop => mark_worker_active i s
  | _, _ => s
  end.

Definition worker_step (i : nat) (l : plabel) (s : pool_state) : option pool_state :=
  match m_workers s !! i with
  | Some w =>
      if own_step l then
        match pstep semaphore_max (pool_size (shared s)) l w with
        | Some w' => Some (mark i (m_thread w) (m_thread w') (set_workers (<[i := w']> (m_workers s)) s))
        | None => None
        end
      else None
  | None => None
  end.

(** [shutdown()]: the exchange, and the loop over the workers. *)
Definition pool_shutdown (s : pool_state) : pool_state :=
  if pool_abort s then s else set_closing (Some 0) (set_pool_abort true s).

Definition pool_shutdown_step (s : pool_state) : option pool_state :=
  match closing s with
  | Some i =>
      match m_workers s !! i with
      | Some w =>
          match shutting_down w with
          | st_done => Some (set_closing (Some (S i)) s)
          | st => 
              let l := match st with st_none => pl_shutdown | _ => pl_shutdown_step end in
              match pstep semaphore_max (pool_size (shared s)) l w with
              | Some w' => Some (set_workers (<[i := w']> (m_workers s)) s)
              | None => None
              end
          end
      | None => None
      end
  | None => None
  end.

Inductive pool_label :=
  | tp_enqueue (tls : per_thread_data) (task : nat)
  | tp_enqueue_span (tls : per_thread_data) (tasks : list nat)
  | tp_worker (i : nat) (l : plabel)
  | tp_turn (i : nat) (b : task_behaviour)
  | tp_shutdown
  | tp_shutdown_step.

(** The program has ended in one of the threads. *)
Definition program_ended (s : pool_state) : bool :=
  existsb (fun w => match m_thread w with pw_terminated _ => true | _ => false end) (m_workers s).

Definition pool_step (l : pool_label) (s : pool_state) : option pool_state :=
  if program_ended s then None
  else
  match l with
  | tp_enqueue tls task => Some (pool_enqueue tls task s).1
  | tp_enqueue_span tls tasks => pool_enqueue_span tls tasks s
  | tp_worker i l => worker_step i l s
  | tp_turn i b => worker_turn i b s
  | tp_shutdown => Some (pool_shutdown s)
  | tp_shutdown_step => pool_shutdown_step s
  end.
End pool.
