(* ===== verification/PoolTheorems.v ===== *)
(** * The thread pool as a whole: theorems *)

From Stdlib Require Import ZArith Lia.
From stdpp Require Import prelude list strings.
From S2P Require Import Prelude Errors IdleWorkerSet ThreadPool PoolWorker PoolWorkerTheorems Pool.
#[local] Open Scope list_scope.

(** ** What a step of one worker changes of its books *)
Lemma foreign_books ts w w' :
  enqueue_foreign ts w = Some w' -> submitted w' = submitted w ++ ts /\ donated w' = donated w.
Proof.
  unfold enqueue_foreign. destruct (m_abort w); [done|]. intros [= <-]. unfold ensure_worker_active. simpl.
  destruct (m_idle w); simpl; [done|]. by case_bool_decide.
Qed.

Lemma local_books ts w w' :
  enqueue_local ts w = Some w' -> submitted w' = submitted w ++ ts /\ donated w' = donated w.
Proof. unfold enqueue_local. destruct (m_atomic_abort w); [done|]. by intros [= <-]. Qed.

Lemma batches_books l w : exists new, submitted (enqueue_batches l w) = submitted w ++ new /\
  donated (enqueue_batches l w) = donated w.
Proof.
  revert w. induction l as [|ts l IH]; intros w; simpl; [exists []; by rewrite app_nil_r|].
  destruct (enqueue_local ts w) as [w'|] eqn:E; [|by apply IH].
  apply local_books in E as [E1 E2]. destruct (IH w') as (new & H1 & H2).
  exists (ts ++ new). rewrite H1, H2, E1, E2. by rewrite app_assoc.
Qed.

Section books.
Context (semaphore_max pool_size : nat).

Lemma release_books w : submitted (semaphore_release semaphore_max w) = submitted w /\
  donated (semaphore_release semaphore_max w) = donated w.
Proof. unfold semaphore_release. by case_decide. Qed.

Lemma drain_books w : submitted (drain_queue w) = submitted w /\ donated (drain_queue w) = donated w.
Proof. unfold drain_queue. by repeat case_match. Qed.

Lemma own_books l w w' :
  own_step l = true -> pstep semaphore_max pool_size l w = Some w' ->
  submitted w' = submitted w /\ donated w' = donated w.
Proof.
  destruct l; try done; intros _; unfold pstep; intros H.
  - step_inv H; exact (release_books (set_releasing (releasing w - 1) w)).
  - step_inv H; unfold wait_for_task, recheck; repeat case_match; try done; apply drain_books.
  - by step_inv H.
  - by step_inv H.
  - by step_inv H.
Qed.

Lemma shutdown_books l w w' :
  l = pl_shutdown \/ l = pl_shutdown_step -> pstep semaphore_max pool_size l w = Some w' ->
  submitted w' = submitted w /\ donated w' = donated w.
Proof.
  intros [-> | ->]; unfold pstep; intros H.
  - by step_inv H.
  - assert (E : shutdown_step semaphore_max w = Some w') by (by destruct (m_thread w)).
    unfold shutdown_step in E. step_inv E; try done. apply release_books.
Qed.

(** What a turn donates. *)
Definition donation_of (k : nat) (fails : option nat) (q : list (option nat)) : list nat :=
  if decide (k = 0) then []
  else
    match donation_ranges (length q) k with
    | None => []
    | Some (ranges, begin) =>
        match fails ≫= (fun j => ranges !! j) with
        | Some (b, _) => taken (take b q)
        | None => taken (take begin q)
        end
    end.

Lemma run_back_books b w : exists new, submitted (run_back b w) = submitted w ++ new /\ donated (run_back b w) = donated w.
Proof.
  assert (H0 : forall w1 : worker, submitted w1 = submitted w -> donated w1 = donated w ->
    exists new, submitted w1 = submitted w ++ new /\ donated w1 = donated w).
  { intros w1 -> ->. exists []. by rewrite app_nil_r. }
  unfold run_back. destruct (m_atomic_abort w); [by apply H0|]. destruct (last _) as [[t|]|]; [|by apply H0..].
  destruct (batches_books (local_batches b) (set_executed (executed w ++ [t]) (set_private (removelast (m_private_queue w)) w)))
    as (new & H1 & H2).
  exists new. by destruct (ends b).
Qed.

Lemma turn_books k fails b w w' :
  pstep semaphore_max pool_size (pl_turn k fails b) w = Some w' ->
  terminated w' \/
  exists new, submitted w' = submitted w ++ new /\ donated w' = donated w ++ donation_of k fails (m_private_queue w).
Proof.
  intros H. assert (E : drain_queue_impl pool_size k fails b w = Some w') by (unfold pstep in H; by destruct (m_thread w)).
  assert (Hl : m_thread w = pw_loop) by (unfold pstep in H; by destruct (m_thread w)).
  clear H. unfold drain_queue_impl in E. case_bool_decide as Hq.
  { injection E as <-. right. exists []. simpl. rewrite app_nil_r. split; [done|].
    unfold donation_of. rewrite Hq. case_decide; [by rewrite app_nil_r|].
    destruct (donation_ranges _ _) as [[rs bg]|]; [|by rewrite app_nil_r].
    destruct (fails ≫= _) as [[]|]; by rewrite take_nil, app_nil_r. }
  destruct (balance pool_size k fails w) as [w1|] eqn:Eb; [|done].
  assert (Hb : terminated w1 \/ (submitted w1 = submitted w /\ donated w1 = donated w ++ donation_of k fails (m_private_queue w))).
  { unfold balance in Eb. unfold donation_of. case_decide; [injection Eb as <-; right; by rewrite app_nil_r|].
    case_decide; [done|]. destruct (donation_ranges _ _) as [[rs bg]|]; [|injection Eb as <-; left; by eexists].
    destruct (fails ≫= _) as [[]|]; [injection Eb as <-; by right|].
    destruct (_ || _); injection Eb as <-; [left; by eexists|by right]. }
  destruct Hb as [Ht|[Hs Hd]].
  - left. destruct Ht as [why Ht]. rewrite Ht in E. injection E as <-. by exists why.
  - destruct (m_thread w1); injection E as <-; try (right; exists []; rewrite app_nil_r; by split).
    destruct (run_back_books b w1) as (new & H1 & H2). right. exists new. by rewrite H1, H2, Hs.
Qed.
End books.

(** ** Sums over the workers *)
Definition total (f : worker -> list nat) (ws : list worker) : list nat := concat (f <$> ws).

Lemma total_insert f ws i w w' d :
  ws !! i = Some w -> f w' ≡ₚ f w ++ d -> total f (<[i := w']> ws) ≡ₚ total f ws ++ d.
Proof.
  intros Hi Hf. rewrite <-(take_drop_middle ws i w Hi) at 2.
  rewrite (insert_take_drop ws i w') by by eapply lookup_lt_Some.
  unfold total. rewrite !fmap_app, !concat_app, !fmap_cons. simpl. rewrite Hf, <-!app_assoc. f_equiv. f_equiv.
  apply Permutation_app_comm.
Qed.

Lemma total_same f ws i w w' : ws !! i = Some w -> f w' = f w -> total f (<[i := w']> ws) ≡ₚ total f ws.
Proof. intros Hi Hf. rewrite (total_insert f ws i w w' [] Hi); [by rewrite app_nil_r|]. by rewrite Hf, app_nil_r. Qed.

Lemma total_eq f g ws : (forall w, w ∈ ws -> f w ≡ₚ g w) -> total f ws ≡ₚ total g ws.
Proof.
  unfold total. induction ws as [|w ws IH]; intros H; [done|]. rewrite !fmap_cons. simpl.
  rewrite (H w) by left. rewrite IH; [done|]. intros w' Hw. apply H. by right.
Qed.

Lemma total_app f g ws : total (fun w => f w ++ g w) ws ≡ₚ total f ws ++ total g ws.
Proof.
  unfold total. induction ws as [|w ws IH]; [done|]. rewrite !fmap_cons. simpl. rewrite IH, <-!app_assoc. f_equiv.
  rewrite !app_assoc. f_equiv. apply Permutation_app_comm.
Qed.

(** ** The invariant *)

(** Where a task that was not donated is. *)
Definition held (w : worker) : list nat := executed w ++ destroyed w ++ taken (m_private_queue w) ++ m_public_queue w.

Record pool_inv (s : pool_state) : Prop := {
  pi_workers : forall w, w ∈ m_workers s -> pinv w;
  pi_done : forall w, w ∈ m_workers s -> shutting_down w = st_done -> m_private_queue w = [] /\ m_public_queue w = [];
  pi_books : total submitted (m_workers s) ≡ₚ accepted s ++ total donated (m_workers s)
}.

Definition ended_or_inv (s : pool_state) : Prop := program_ended s = true \/ pool_inv s.

Lemma ended_insert ws i w w' : ws !! i = Some w -> terminated w' ->
  existsb (fun w => match m_thread w with pw_terminated _ => true | _ => false end) (<[i := w']> ws) = true.
Proof.
  intros Hi [why Hw]. apply existsb_exists. exists w'. split; [|by rewrite Hw].
  apply list_elem_of_In, list_elem_of_lookup. exists i. apply list_lookup_insert_eq. by eapply lookup_lt_Some.
Qed.

Lemma elem_of_insert (ws : list worker) i w' x : x ∈ <[i := w']> ws -> x = w' \/ x ∈ ws.
Proof.
  intros [j Hj]%list_elem_of_lookup. apply list_lookup_insert_Some in Hj as [(_ & -> & _)|[_ Hj]]; [by left|].
  right. apply list_elem_of_lookup. by exists j.
Qed.

(** A worker whose queues were taken does not get new tasks. *)
Definition emptied (w : worker) : Prop := shutting_down w = st_done -> m_private_queue w = [] /\ m_public_queue w = [].

Lemma shutting_down_foreign ts w w' :
  enqueue_foreign ts w = Some w' -> shutting_down w' = shutting_down w /\ m_private_queue w' = m_private_queue w.
Proof.
  unfold enqueue_foreign. destruct (m_abort w); [done|]. intros [= <-]. unfold ensure_worker_active. simpl.
  destruct (m_idle w); simpl; [done|]. by case_bool_decide.
Qed.

Lemma emptied_foreign ts w w' : pinv w -> enqueue_foreign ts w = Some w' -> emptied w'.
Proof.
  intros Hp E Hd. destruct (shutting_down_foreign _ _ _ E) as [E1 _]. rewrite E1 in Hd.
  assert (Hs := p_shutdown w Hp). rewrite Hd in Hs. unfold enqueue_foreign in E. destruct Hs as [Ha _]. by rewrite Ha in E.
Qed.

Lemma running_not_done w : pinv w -> m_thread w <> pw_none -> shutting_down w <> st_done.
Proof. intros Hp Hn Hd. assert (Hs := p_shutdown w Hp). rewrite Hd in Hs. by destruct Hs. Qed.

Section emptied.
Context (semaphore_max pool_size : nat).

Lemma batches_shutting l w : shutting_down (enqueue_batches l w) = shutting_down w.
Proof.
  revert w. induction l as [|ts l IH]; intros w; simpl; [done|]. rewrite IH.
  unfold enqueue_local. by destruct (m_atomic_abort w).
Qed.

Lemma run_back_shutting b w : shutting_down (run_back b w) = shutting_down w.
Proof.
  unfold run_back. destruct (m_atomic_abort w); [done|]. destruct (last _) as [[t|]|]; [|done..].
  destruct (ends b); simpl; by rewrite batches_shutting.
Qed.

Lemma turn_shutting k fails b w w' :
  pstep semaphore_max pool_size (pl_turn k fails b) w = Some w' -> shutting_down w' = shutting_down w.
Proof.
  intros H. assert (E : drain_queue_impl pool_size k fails b w = Some w') by (unfold pstep in H; by destruct (m_thread w)).
  clear H. unfold drain_queue_impl in E. case_bool_decide; [by injection E as <-|].
  destruct (balance pool_size k fails w) as [w1|] eqn:Eb; [|done].
  assert (Hb : shutting_down w1 = shutting_down w).
  { unfold balance in Eb. case_decide; [by injection Eb as <-|]. case_decide; [done|].
    destruct (donation_ranges _ _) as [[rs bg]|]; [|by injection Eb as <-].
    destruct (fails ≫= _) as [[]|]; [by injection Eb as <-|]. by destruct (_ || _); injection Eb as <-. }
  rewrite <-Hb. destruct (m_thread w1); injection E as <-; try done. apply run_back_shutting.
Qed.

Lemma drain_shutting w : shutting_down (drain_queue w) = shutting_down w.
Proof. unfold drain_queue. by repeat case_match. Qed.

Lemma emptied_pstep l w w' :
  pinv w -> emptied w -> (forall ts, l <> pl_enqueue ts) -> pstep semaphore_max pool_size l w = Some w' -> emptied w'.
Proof.
  intros Hp He Hl Hs Hd.
  assert (Hrun : m_thread w <> pw_none -> shutting_down w' = shutting_down w -> False).
  { intros Hn E. rewrite E in Hd. by apply (running_not_done w Hp). }
  destruct l as [ts| | | | | |k fails b| |]; [by destruct (Hl ts)| | | | | | | |]; unfold pstep in Hs.
  - assert (E : w' = semaphore_release semaphore_max (set_releasing (releasing w - 1) w)) by (destruct (m_thread w); try done; by step_inv Hs).
    subst w'. clear Hs. unfold semaphore_release in Hd |- *. by destruct (decide (m_semaphore _ < _)); apply He.
  - destruct (m_thread w) eqn:Ew; try done; injection Hs as <-; exfalso; (apply Hrun; [done|]);
      unfold wait_for_task, recheck, timed_out; repeat case_match; try done; apply drain_shutting.
  - destruct (m_thread w) eqn:Ew; try done. exfalso. apply Hrun; [done|]. by step_inv Hs.
  - destruct (m_thread w) eqn:Ew; try done. exfalso. apply Hrun; [done|]. by step_inv Hs.
  - destruct (m_thread w) eqn:Ew; try done. exfalso. apply Hrun; [done|]. by step_inv Hs.
  - destruct (m_thread w) eqn:Ew; try done. exfalso. apply Hrun; [done|].
    apply (turn_shutting k fails b). unfold pstep. by rewrite Ew.
  - assert (E : w' = set_shutting st_lock (set_atomic_abort true w)) by (destruct (m_thread w); try done; by step_inv Hs).
    by subst w'.
  - assert (E : shutdown_step semaphore_max w = Some w') by (by destruct (m_thread w)).
    unfold shutdown_step in E. by destruct (shutting_down w) eqn:Esd; step_inv E.
Qed.
End emptied.

(** ** Steps of the pool *)
Section steps.
Context (semaphore_max : nat).

(** One worker is replaced. *)
Lemma inv_insert s i w w' new shared' abort' closing' :
  pool_inv s -> m_workers s !! i = Some w -> pinv w' -> emptied w' ->
  submitted w' = submitted w ++ new -> donated w' = donated w ->
  pool_inv (make_pool_state (<[i := w']> (m_workers s)) shared' abort' closing' (accepted s ++ new)).
Proof.
  intros [Hw Hd Hb] Hi Hp He Hs Hdon. constructor; simpl.
  - intros x [-> |Hx]%elem_of_insert; auto.
  - intros x [-> |Hx]%elem_of_insert; [done|by apply Hd].
  - rewrite (total_insert submitted _ _ _ _ new Hi) by by rewrite Hs.
    rewrite (total_same donated _ _ _ _ Hi Hdon), Hb, <-!app_assoc. f_equiv. apply Permutation_app_comm.
Qed.

Lemma inv_relabel s shared' abort' closing' :
  pool_inv s -> pool_inv (make_pool_state (m_workers s) shared' abort' closing' (accepted s)).
Proof. by intros []. Qed.

Lemma inv_deliver d ts s s' : pool_inv s -> deliver d ts s = Some s' -> pool_inv s'.
Proof.
  intros Hs. destruct d as [q i|q i]; simpl.
  - case_decide; [|by intros [= <-]]. unfold receive_local.
    destruct (m_workers s !! i) as [w|] eqn:Ei; [|done]. destruct (m_thread w) eqn:Ew; try done.
    destruct (enqueue_local ts w) as [w'|] eqn:El; [|done]. intros [= <-].
    assert (Hp : pinv w) by (apply (pi_workers s Hs); by eapply list_elem_of_lookup_2).
    destruct (enqueue_local_pinv ts w w' Hp Ew El) as (Hp' & _ & Hl). destruct (local_books _ _ _ El).
    apply (inv_insert s i w w' ts); try done. intros Hd. destruct (running_not_done w' Hp'); [congruence|done].
  - unfold receive. destruct (m_workers s !! i) as [w|] eqn:Ei; [|done].
    destruct (enqueue_foreign ts w) as [w'|] eqn:El; [|done]. intros [= <-].
    assert (Hp : pinv w) by (apply (pi_workers s Hs); by eapply list_elem_of_lookup_2).
    destruct (enqueue_foreign_pinv ts w w' Hp El) as [Hp' _]. destruct (foreign_books _ _ _ El).
    apply (inv_insert s i w w' ts); try done. exact (emptied_foreign ts w w' Hp El).
Qed.

Lemma inv_enqueue tls t s : pool_inv s -> pool_inv (pool_enqueue tls t s).1.
Proof.
  intros Hs. unfold pool_enqueue. destruct (ThreadPool.enqueue _ _ _) as [d p].
  assert (Hs' : pool_inv (set_shared p s)) by exact (inv_relabel s p _ _ Hs).
  destruct (deliver d [t] (set_shared p s)) eqn:E; [|done]. by eapply inv_deliver.
Qed.

Lemma inv_few tls ts s : pool_inv s -> pool_inv (enqueue_few tls ts s).
Proof.
  revert s. induction ts as [|t ts IH]; intros s Hs; simpl; [done|].
  assert (H := inv_enqueue tls t s Hs). destruct (pool_enqueue tls t s) as [s' []]; [by apply IH|done].
Qed.

Lemma inv_ranges rs ts s i : pool_inv s -> pool_inv (enqueue_ranges i rs ts s).
Proof.
  revert s i. induction rs as [|r rs IH]; intros s i Hs; cbn [enqueue_ranges]; [done|].
  destruct (deliver _ (range r ts) s) eqn:E; [|done]. apply IH. by eapply inv_deliver.
Qed.

Lemma inv_span tls ts s s' : pool_inv s -> pool_enqueue_span tls ts s = Some s' -> pool_inv s'.
Proof.
  intros Hs. unfold pool_enqueue_span. destruct (this_worker tls) as [[q i]|].
  - intros H. apply (inj Some) in H as <-. destruct (deliver (local_queue q i) ts s) as [s1|] eqn:E; [exact (inv_deliver _ _ _ _ Hs E)|exact Hs].
  - case_decide; [intros [= <-]; by apply inv_few|].
    destruct (bulk_ranges _ _) as [[rs ?]|]; [|done]. intros [= <-]. by apply inv_ranges.
Qed.
End steps.

(** ** What a turn donates is what the others receive *)
Lemma taken_concat {A} (l : list (list (option A))) : taken (concat l) = concat (taken <$> l).
Proof. induction l as [|x l IH]; [done|]. rewrite fmap_cons. simpl. by rewrite taken_app, IH. Qed.

Lemma consecutive_take b rs stop j r :
  consecutive b rs stop -> rs !! j = Some r -> consecutive b (take j rs) r.1.
Proof.
  revert b j. induction rs as [|[x y] rs IH]; intros b [|j]; simpl; try done.
  - intros (-> & _) [= <-]. done.
  - intros (-> & Hlt & Hc) Hj. split_ands; try done. by apply IH.
Qed.

Lemma balance_shape index size (q : list (option nat)) idle batches rest idle' :
  plan_donations index size q idle = Some (batches, rest, idle') ->
  NoDup batches.*1 /\ (forall i, i ∈ batches.*1 -> i <> index) /\
  forall fails, match fails with Some j => j < length batches | None => True end ->
    donation_of (length batches) fails q =
    concat (taken <$> (match fails with Some j => take j batches | None => batches end).*2).
Proof.
  assert (Hnone : NoDup ([] : list (nat * list (option nat))).*1 /\ (forall i, i ∈ ([] : list (nat * list (option nat))).*1 -> i <> index) /\
    forall fails, match fails with Some j => j < length ([] : list (nat * list (option nat))) | None => True end ->
      donation_of (length ([] : list (nat * list (option nat)))) fails q =
      concat (taken <$> (match fails with Some j => take j [] | None => [] end : list (nat * list (option nat))).*2)).
  { split_ands; [apply NoDup_nil_2|by intros i ?%not_elem_of_nil|]. intros [j|] Hj; [simpl in Hj; lia|done]. }
  unfold plan_donations. case_decide as Htc; [by intros [= <- _ _]|]. case_decide as Hmx; [by intros [= <- _ _]|].
  destruct (find_idle_workers _ _ _ _ _) as [[ws idle1]|] eqn:Ef; [|done]. apply find_idle_workers_spec in Ef as [[Hnd Hidle _ _] Hlen].
  case_decide as Hz; [by intros [= <- _ _]|]. destruct (negb _); [done|].
  destruct (donation_ranges_spec (length q) (length ws)) as (rs & stop & E & Hl & Hc & Hrest & Hstop & _); [lia|].
  rewrite E. intros [= <- _ _].
  assert (Hlz : length (zip_with (fun w r => (w, range r q)) ws rs) = length ws) by (rewrite length_zip_with; lia).
  split_ands.
  - rewrite fst_zip_with; [done|done|lia].
  - intros i. rewrite fst_zip_with by (done || lia). intros Hi. destruct (Hidle i Hi). congruence.
  - rewrite Hlz. intros fails Hj. unfold donation_of. rewrite decide_False, E by done. destruct fails as [j|]; simpl.
    + destruct (lookup_lt_is_Some_2 rs j) as [[b e] Hr]; [lia|]. rewrite Hr.
      assert (Hb := consecutive_bounds _ _ _ _ Hc (list_elem_of_lookup_2 _ _ _ Hr)). simpl in Hb.
      rewrite zip_with_take, (snd_zip_with (fun r => range r q)) by (rewrite !length_take; lia).
      rewrite <-taken_concat, (consecutive_concat q 0 (take j rs) b); [by rewrite drop_0, Nat.sub_0_r| |lia].
      exact (consecutive_take _ _ _ _ _ Hc Hr).
    + rewrite (snd_zip_with (fun r => range r q)) by lia.
      rewrite <-taken_concat, (consecutive_concat q 0 rs stop Hc) by lia. by rewrite drop_0, Nat.sub_0_r.
Qed.

(** The donations of a turn, in the books of their receivers. *)
Record donated_to (batches : list (nat * list (option nat))) (ws ws' : list worker) (refused : option nat) (j : nat) : Prop := {
  dt_submitted : total submitted ws' ≡ₚ total submitted ws ++
    concat (taken <$> (match refused with Some k => take (k - j) batches | None => batches end).*2);
  dt_donated : total donated ws' ≡ₚ total donated ws;
  dt_refused : match refused with Some k => j <= k < j + length batches | None => True end;
  dt_others : forall i, i ∉ batches.*1 -> ws' !! i = ws !! i;
  dt_fine : (forall w, w ∈ ws -> pinv w /\ emptied w) -> forall w, w ∈ ws' -> pinv w /\ emptied w
}.

Lemma donate_books batches : forall j ws ws' refused, donate j batches ws = (ws', refused) -> donated_to batches ws ws' refused j.
Proof.
  induction batches as [|[i b] batches IH]; intros j ws ws' refused; cbn [donate].
  { intros [= <- <-]. split; try done. by rewrite app_nil_r. }
  destruct (receive i (taken b) ws) as [ws1|] eqn:E.
  - intros H. destruct (IH _ _ _ _ H) as [H1 H2 H3 H4 H5]. unfold receive in E.
    destruct (ws !! i) as [w|] eqn:Ei; [|done]. destruct (enqueue_foreign (taken b) w) as [w'|] eqn:Ew; [|done].
    injection E as <-. destruct (foreign_books _ _ _ Ew) as [Hs Hd]. split.
    + rewrite H1, (total_insert submitted _ _ _ _ (taken b) Ei) by by rewrite Hs.
      rewrite <-app_assoc. f_equiv. destruct refused as [k|]; [|done].
      destruct (k - j) as [|n] eqn:En; [lia|]. replace (k - S j) with n by lia. done.
    + rewrite H2. by apply total_same with w.
    + destruct refused as [k|]; simpl; lia.
    + intros x [Hx1 Hx2]%not_elem_of_cons. rewrite H4 by done. by apply list_lookup_insert_ne.
    + intros Hall. apply H5. intros x [-> |Hx]%elem_of_insert; [|by apply Hall].
      assert (Hp : pinv w) by (apply Hall; by eapply list_elem_of_lookup_2).
      split; [by apply (enqueue_foreign_pinv (taken b) w w' Hp Ew)|]. exact (emptied_foreign _ _ _ Hp Ew).
  - intros [= <- <-]. split; try done; [by rewrite Nat.sub_diag, app_nil_r|simpl; lia].
Qed.

Section turns.
Context (semaphore_max : nat).

Lemma inv_turn i b s s' : pool_inv s -> worker_turn semaphore_max i b s = Some s' -> ended_or_inv s'.
Proof.
  intros Hs. unfold worker_turn. destruct (m_workers s !! i) as [w|] eqn:Ei; [|done].
  destruct (m_thread w) eqn:Ew; try done. destruct (plan_donations _ _ _ _) as [[[batches rest] idle]|] eqn:Eb.
  2:{ intros [= <-]. left. eapply ended_insert; [exact Ei|]. by eexists. }
  destruct (donate 0 batches (m_workers s)) as [ws refused] eqn:Ed.
  destruct (pstep _ _ (pl_turn _ _ _) w) as [w'|] eqn:Ep; [|done]. intros [= <-].
  destruct (balance_shape _ _ _ _ _ _ _ Eb) as (_ & Hne & Hdon).
  destruct (donate_books _ _ _ _ _ Ed) as [H1 H2 H3 H4 H5].
  assert (Hi : ws !! i = Some w) by (rewrite H4; [done|]; intros Hin; by destruct (Hne i Hin)).
  assert (Hp : pinv w) by (apply (pi_workers s Hs); by eapply list_elem_of_lookup_2).
  destruct (pstep_fine _ _ _ _ _ Hp Ep) as [(why & Ht & _)|[Hp' _]].
  { left. eapply ended_insert; [exact Hi|by eexists]. }
  destruct (turn_books _ _ _ _ _ _ _ Ep) as [Ht|(new & Hnew & Hd)]; [left; by eapply ended_insert|right].
  assert (Hfine : forall w, w ∈ ws -> pinv w /\ emptied w).
  { apply H5. intros x Hx. split; [by apply (pi_workers s Hs)|]. intros Hx'. by apply (pi_done s Hs). }
  assert (He : emptied w').
  { refine (emptied_pstep _ _ _ w w' Hp _ _ Ep); [|done]. apply Hfine. by eapply list_elem_of_lookup_2. }
  rewrite (Hdon refused) in Hd by (destruct refused; [lia|done]).
  set (given := concat _) in Hd. constructor; simpl.
  - intros x [-> |Hx]%elem_of_insert; [done|by apply Hfine].
  - intros x [-> |Hx]%elem_of_insert; [done|by apply Hfine].
  - rewrite Hnew, drop_app_length.
    rewrite (total_insert submitted _ _ _ _ new Hi) by by rewrite Hnew.
    rewrite (total_insert donated _ _ _ _ given Hi) by by rewrite Hd.
    rewrite H1, H2, (pi_books s Hs).
    replace (concat (taken <$> (match refused with Some k => take (k - 0) batches | None => batches end).*2)) with given
      by (unfold given; destruct refused; rewrite ?Nat.sub_0_r; done).
    rewrite <-!app_assoc. f_equiv. rewrite !app_assoc. rewrite Permutation_app_comm. by rewrite <-app_assoc.
Qed.

Lemma inv_one i l s w w' :
  pool_inv s -> m_workers s !! i = Some w -> (forall ts, l <> pl_enqueue ts) ->
  pstep semaphore_max (pool_size (shared s)) l w = Some w' ->
  submitted w' = submitted w /\ donated w' = donated w ->
  forall sh ab cl, ended_or_inv (make_pool_state (<[i := w']> (m_workers s)) sh ab cl (accepted s)).
Proof.
  intros Hs Hi Hl Hp [Hsub Hdon] sh ab cl.
  assert (Hw : pinv w) by (apply (pi_workers s Hs); by eapply list_elem_of_lookup_2).
  assert (He : emptied w) by (intros Hd; apply (pi_done s Hs); [by eapply list_elem_of_lookup_2|done]).
  destruct (pstep_fine _ _ _ _ _ Hw Hp) as [(why & Ht & _)|[Hp' _]].
  { left. eapply ended_insert; [exact Hi|by eexists]. }
  right. rewrite <-(app_nil_r (accepted s)). apply (inv_insert s i w w' []); try done; [|by rewrite app_nil_r].
  exact (emptied_pstep _ _ l w w' Hw He Hl Hp).
Qed.

Lemma inv_mark i pc pc' s : ended_or_inv s -> ended_or_inv (mark i pc pc' s).
Proof.
  assert (E : m_workers (mark i pc pc' s) = m_workers s /\ accepted (mark i pc pc' s) = accepted s) by (by destruct pc, pc').
  destruct E as [E1 E2]. intros [H|[H1 H2 H3]]; [left; unfold program_ended; by rewrite E1|].
  right. constructor; by rewrite ?E1, ?E2.
Qed.

Lemma pool_inv_step l s s' : pool_inv s -> pool_step semaphore_max l s = Some s' -> ended_or_inv s'.
Proof.
  intros Hs. unfold pool_step. destruct (program_ended s); [done|]. destruct l as [tls t|tls ts|i l|i b| |].
  - intros [= <-]. right. by apply inv_enqueue.
  - intros H. right. by eapply inv_span.
  - unfold worker_step. destruct (m_workers s !! i) as [w|] eqn:Ei; [|done]. destruct (own_step l) eqn:El; [|done].
    destruct (pstep _ _ l w) as [w'|] eqn:Ep; [|done]. intros [= <-]. apply inv_mark.
    refine (inv_one i l s w w' Hs Ei _ Ep _ _ _ _); [by intros ts ->|exact (own_books _ _ _ _ _ El Ep)].
  - by apply inv_turn.
  - intros [= <-]. right. unfold pool_shutdown. destruct (pool_abort s); [done|]. exact (inv_relabel s _ _ _ Hs).
  - unfold pool_shutdown_step. destruct (closing s) as [i|]; [|done]. destruct (m_workers s !! i) as [w|] eqn:Ei; [|done].
    assert (Hgo : forall l w', l = pl_shutdown \/ l = pl_shutdown_step -> pstep semaphore_max (pool_size (shared s)) l w = Some w' ->
      ended_or_inv (set_workers (<[i := w']> (m_workers s)) s)).
    { intros l w' Hl Ep. refine (inv_one i l s w w' Hs Ei _ Ep _ _ _ _); [by destruct Hl as [-> | ->]|exact (shutdown_books _ _ _ _ _ Hl Ep)]. }
    destruct (shutting_down w); try (destruct (pstep _ _ _ w) as [w'|] eqn:Ep; [|done]; intros [= <-]; eapply Hgo; [|exact Ep]; auto; fail).
    intros [= <-]. right. exact (inv_relabel s _ _ _ Hs).
Qed.

Lemma pool_inv_init id size : pool_inv (new_thread_pool id size).
Proof.
  constructor; simpl.
  - intros w [-> _]%elem_of_replicate. apply new_worker_inv.
  - intros w [-> _]%elem_of_replicate. done.
  - unfold total. rewrite !fmap_replicate. by induction size.
Qed.

Lemma pool_inv_reachable id size s :
  reachable (pool_step semaphore_max) (new_thread_pool id size) s -> ended_or_inv s.
Proof.
  apply (reachable_invariant (pool_step semaphore_max)); [right; apply pool_inv_init|].
  intros l s1 s2 [He|Hs] Hl; [unfold pool_step in Hl; by rewrite He in Hl|by eapply pool_inv_step].
Qed.
End turns.

(** ** The theorems *)

(** Everything that the workers still have, or had. *)
Definition executed_by_pool (s : pool_state) : list nat := total executed (m_workers s).
Definition destroyed_by_pool (s : pool_state) : list nat := total destroyed (m_workers s).
Definition queued_in_pool (s : pool_state) : list nat :=
  total (fun w => taken (m_private_queue w) ++ m_public_queue w) (m_workers s).

Lemma pool_accounts s : pool_inv s ->
  accepted s ≡ₚ executed_by_pool s ++ destroyed_by_pool s ++ queued_in_pool s.
Proof.
  intros Hs. assert (H1 : total submitted (m_workers s) ≡ₚ total donated (m_workers s) ++ total held (m_workers s)).
  { rewrite <-total_app. apply total_eq. intros w Hw. rewrite (p_tasks w (pi_workers s Hs w Hw)).
    unfold accounted, held. rewrite !app_assoc. do 3 f_equiv. apply Permutation_app_comm. }
  rewrite (pi_books s Hs), (Permutation_app_comm (accepted s)) in H1. apply Permutation_app_inv_l in H1. rewrite H1.
  unfold held, executed_by_pool, destroyed_by_pool, queued_in_pool. rewrite !total_app. done.
Qed.

(** C20. The pool neither loses nor duplicates work.  Whatever its threads and
    its users do, as long as the program runs: the tasks that the enqueues
    accepted, singly, in bulk or from a running task, are those that a worker
    executed, those that were destroyed, and those in the queues of the workers,
    each of them in one place only, however often it was passed on from worker to
    worker; and when [shutdown] has returned, no task is left in a queue and the
    workers can be destroyed. *)
Theorem pool_keeps_every_task semaphore_max id size s :
  reachable (pool_step semaphore_max) (new_thread_pool id size) s -> program_ended s = false ->
  accepted s ≡ₚ executed_by_pool s ++ destroyed_by_pool s ++ queued_in_pool s /\
  (NoDup (accepted s) -> NoDup (executed_by_pool s) /\ forall t, t ∈ executed_by_pool s -> t ∉ queued_in_pool s) /\
  ((forall w, w ∈ m_workers s -> shutting_down w = st_done) ->
   queued_in_pool s = [] /\ forall w, w ∈ m_workers s -> destruct_worker w = Ok tt).
Proof.
  intros Hr He. destruct (pool_inv_reachable _ _ _ _ Hr) as [?|Hs]; [congruence|].
  assert (H := pool_accounts s Hs). split; [done|]. split.
  - rewrite H. intros (H1 & H2 & _)%list.NoDup_app. split; [done|]. intros t Ht Hq. apply (H2 t Ht). apply elem_of_app. by right.
  - intros Hd. split.
    2:{ intros w Hw. assert (Hp := pi_workers s Hs w Hw). assert (Hsd := p_shutdown w Hp). rewrite (Hd w Hw) in Hsd.
      destruct Hsd as [_ Ht]. unfold destruct_worker. rewrite Ht, (proj2 (p_idle w Hp)); [done|by left]. }
    unfold queued_in_pool, total. assert (Hall := pi_done s Hs). revert Hd Hall.
    induction (m_workers s) as [|w ws IH]; intros Hd Hall; [done|]. rewrite fmap_cons. simpl.
    destruct (Hall w) as [-> ->]; [by left|apply Hd; by left|]. simpl.
    apply IH; [intros w' Hw'; apply Hd; by right|intros w' Hw'; apply Hall; by right].
Qed.

(** The labels that [PoolWorker] leaves open are always answered: a worker in
    its loop can take its turn, whatever the others do. *)
Lemma turn_is_possible semaphore_max i b s w :
  m_workers s !! i = Some w -> m_thread w = pw_loop -> is_Some (worker_turn semaphore_max i b s).
Proof.
  intros Hi Hl. unfold worker_turn. rewrite Hi, Hl.
  destruct (plan_donations _ _ _ _) as [[[batches rest] idle]|] eqn:Eb; [|by eexists].
  assert (Hk : length batches <= Nat.min (pool_size (shared s) - 1) (length (m_private_queue w) - 1)).
  { unfold plan_donations in Eb. case_decide; [injection Eb as <- _ _; simpl; lia|].
    case_decide; [injection Eb as <- _ _; simpl; lia|].
    destruct (find_idle_workers _ _ _ _ _) as [[ws idle1]|] eqn:Ef; [|done]. apply find_idle_workers_spec in Ef as [_ Hlen].
    case_decide; [injection Eb as <- _ _; simpl; lia|]. destruct (negb _); [done|].
    destruct (donation_ranges _ _) as [[rs bg]|]; [|done]. injection Eb as <- _ _.
    rewrite length_zip_with. lia. }
  destruct (donate 0 batches (m_workers s)) as [ws refused].
  assert (Hp : is_Some (pstep semaphore_max (pool_size (shared s)) (pl_turn (length batches) refused b) w)).
  { unfold pstep. rewrite Hl. unfold drain_queue_impl. case_bool_decide; [by eexists|]. unfold balance.
    case_decide; [rewrite Hl; by eexists|]. rewrite decide_False by lia.
    destruct (donation_ranges _ _) as [[rs bg]|]; [|by eexists].
    destruct (refused ≫= _) as [[]|]; [by eexists|]. destruct (_ || _); simpl; rewrite ?Hl; by eexists. }
  destruct Hp as [w' ->]. by eexists.
Qed.

(** The assertion of [worker_at] lets an index through that is no worker's. *)
Lemma worker_at_end s : bool_decide (length (m_workers s) <= length (m_workers s)) = true /\
  worker_at (length (m_workers s)) s = Abort.
Proof.
  split; [by apply bool_decide_eq_true|]. unfold worker_at. case_bool_decide; [|done].
  by rewrite lookup_ge_None_2.
Qed.

(** ** Witness

    Two workers: the second one has become idle again when the first one gives
    two of its three tasks to it and runs the third, which enqueues two more. *)
Definition outside : per_thread_data := make_per_thread None 0.
Definition a_pool_run : list pool_label :=
  [tp_enqueue_span outside [1; 2]; tp_enqueue outside 3; tp_enqueue outside 4; tp_enqueue outside 5;
   tp_worker 1 pl_lock; tp_turn 1 quiet_task; tp_turn 1 quiet_task; tp_turn 1 quiet_task; tp_worker 1 pl_lock;
   tp_worker 0 pl_lock; tp_turn 0 (make_task_behaviour [[6; 7]] te_return)].

Lemma pool_keeps_every_task_witness :
  exists s, run (pool_step 1) a_pool_run (new_thread_pool 5 2) = Some s /\ accepted s = [1; 2; 3; 4; 5; 6; 7] /\
    donated <$> m_workers s = [[1; 3]; []] /\
    accepted s ≡ₚ executed_by_pool s ++ destroyed_by_pool s ++ queued_in_pool s.
Proof.
  destruct (run (pool_step 1) a_pool_run (new_thread_pool 5 2)) as [s|] eqn:E; [|vm_compute in E; discriminate].
  exists s. split; [reflexivity|].
  assert (H : accepted s = [1; 2; 3; 4; 5; 6; 7] /\ donated <$> m_workers s = [[1; 3]; []] /\ program_ended s = false)
    by (vm_compute in E; injection E as <-; repeat split; reflexivity).
  destruct H as (H1 & H2 & H3). split; [exact H1|]. split; [exact H2|].
  apply (pool_keeps_every_task 1 5 2 s); [exact (run_reachable _ _ _ _ E)|exact H3].
Defined.
