(* ===== verification/ThreadExecutor.v ===== *)
(** * thread_executor

    [include/concurrencpp/executors/thread_executor.h] and
    [source/executors/thread_executor.cpp]: a thread per task.  A thread that
    has run its task moves itself from [m_workers] to [m_last_retired] and joins
    the thread that was there before; [shutdown] waits until there are no
    workers and joins the last one.

    One label is one critical section of [m_lock] or one step outside of it.
    Threads are numbered in the order of their creation; the iterator [self_it]
    of a thread is its number.  A task that shuts down its own executor is not
    modelled. *)

From stdpp Require Import prelude list strings.
From S2P Require Import Prelude Errors.
#[local] Open Scope list_scope.

(** Where a thread is. *)
Inductive thread_pc :=
  | tp_never                          (* a node of m_workers whose thread could not be created *)
  | tp_task                           (* in task() *)
  | tp_retire                         (* before retire_worker takes the lock *)
  | tp_notify (last_retired : list nat)     (* before m_condition.notify_one() *)
  | tp_join (last_retired : list nat)       (* after it *)
  | tp_exited.

(** Where the thread is whose call of [shutdown] was the first one. *)
Inductive shutdown_pc :=
  | sd_none
  | sd_lock                           (* before it takes the lock *)
  | sd_blocked                        (* in m_condition.wait *)
  | sd_woken                          (* woken up, before it has the lock again *)
  | sd_join                           (* it holds the lock and joins m_last_retired *)
  | sd_done.

Inductive failure := assertion_failed | joined_twice | task_threw.

#[export] Instance thread_pc_eq_dec : EqDecision thread_pc.
Proof. solve_decision. Defined.
#[export] Instance shutdown_pc_eq_dec : EqDecision shutdown_pc.
Proof. solve_decision. Defined.

Record thread_executor := make_thread_executor {
  m_workers : list nat;
  m_last_retired : list nat;
  m_abort : bool;
  m_atomic_abort : bool;
  threads : list thread_pc;
  shutting_down : shutdown_pc;
  retired : list nat;                 (* in the order of retire_worker *)
  joined : list nat;
  failed : option failure
}.

Definition new_executor : thread_executor := make_thread_executor [] [] false false [] sd_none [] [] None.

Definition set_workers v s := make_thread_executor v (m_last_retired s) (m_abort s) (m_atomic_abort s) (threads s)
  (shutting_down s) (retired s) (joined s) (failed s).
Definition set_last_retired v s := make_thread_executor (m_workers s) v (m_abort s) (m_atomic_abort s) (threads s)
  (shutting_down s) (retired s) (joined s) (failed s).
Definition set_abort v s := make_thread_executor (m_workers s) (m_last_retired s) v (m_atomic_abort s) (threads s)
  (shutting_down s) (retired s) (joined s) (failed s).
Definition set_atomic_abort v s := make_thread_executor (m_workers s) (m_last_retired s) (m_abort s) v (threads s)
  (shutting_down s) (retired s) (joined s) (failed s).
Definition set_threads v s := make_thread_executor (m_workers s) (m_last_retired s) (m_abort s) (m_atomic_abort s) v
  (shutting_down s) (retired s) (joined s) (failed s).
Definition set_shutting v s := make_thread_executor (m_workers s) (m_last_retired s) (m_abort s) (m_atomic_abort s)
  (threads s) v (retired s) (joined s) (failed s).
Definition set_retired v s := make_thread_executor (m_workers s) (m_last_retired s) (m_abort s) (m_atomic_abort s)
  (threads s) (shutting_down s) v (joined s) (failed s).
Definition set_joined v s := make_thread_executor (m_workers s) (m_last_retired s) (m_abort s) (m_atomic_abort s)
  (threads s) (shutting_down s) (retired s) v (failed s).
Definition set_failed v s := make_thread_executor (m_workers s) (m_last_retired s) (m_abort s) (m_atomic_abort s)
  (threads s) (shutting_down s) (retired s) (joined s) v.

Definition goto (i : nat) (pc : thread_pc) (s : thread_executor) : thread_executor :=
  set_threads (<[i := pc]> (threads s)) s.

(** Nobody holds [m_lock] for more than one step but [shutdown]. *)
Definition lock_free (s : thread_executor) : bool := bool_decide (shutting_down s <> sd_join).

(** [enqueue_impl]: a node at the front of [m_workers], and its thread, unless
    the constructor of [std::thread] throws. *)
Definition enqueue_impl (created : bool) (s : thread_executor) : thread_executor :=
  let i := length (threads s) in
  let s := set_workers (i :: m_workers s) s in
  set_threads (threads s ++ [if created then tp_task else tp_never]) s.

Fixpoint enqueue_loop (n : nat) (s : thread_executor) : thread_executor :=
  match n with 0 => s | S n => enqueue_loop n (enqueue_impl true s) end.

(** What a call of [enqueue] comes to. *)
Inductive enqueue_result := er_return | er_shutdown (e : exn) | er_no_thread.

(** [enqueue] of one task or a span of [n]; [fails]: the thread after those [n]
    cannot be created, and [enqueue] throws [std::system_error]. *)
Definition enqueue (n : nat) (fails : bool) (s : thread_executor) : enqueue_result * thread_executor :=
  if m_abort s then (er_shutdown (runtime_shutdown_exception k_thread_executor_name), s)
  else
    let s := enqueue_loop n s in
    if fails then (er_no_thread, enqueue_impl false s) else (er_return, s).

Definition max_concurrency_level : Z := k_thread_executor_max_concurrency_level.
Definition shutdown_requested (s : thread_executor) : bool := m_atomic_abort s.

(** The critical section of [retire_worker]. *)
Definition retire_worker (i : nat) (s : thread_executor) : thread_executor :=
  let last_retired := m_last_retired s in
  let s := set_last_retired [i] s in
  let s := set_workers (filter (fun j => j <> i) (m_workers s)) s in
  goto i (tp_notify last_retired) (set_retired (retired s ++ [i]) s).

Definition notify_one (s : thread_executor) : thread_executor :=
  if decide (shutting_down s = sd_blocked) then set_shutting sd_woken s else s.

(** [assert(size() == 1); front().join()] of a list of threads, then [k];
    [None]: the thread that is joined runs. *)
Definition join_front (l : list nat) (k : thread_executor -> thread_executor) (s : thread_executor) : option thread_executor :=
  match l with
  | [j] =>
      if decide (j ∈ joined s) then Some (set_failed (Some joined_twice) s)
      else if decide (threads s !! j = Some tp_exited) then Some (k (set_joined (joined s ++ [j]) s))
      else None
  | _ => Some (set_failed (Some assertion_failed) s)
  end.

(** [shutdown] with the lock, once [m_workers.empty()]. *)
Definition join_last_retired (s : thread_executor) : thread_executor :=
  if bool_decide (m_last_retired s = []) then set_shutting sd_done s else set_shutting sd_join s.

(** The predicate of [m_condition.wait]. *)
Definition wait (s : thread_executor) : thread_executor :=
  if bool_decide (m_workers s = []) then join_last_retired s else set_shutting sd_blocked s.

Definition shutdown_step (s : thread_executor) : option thread_executor :=
  match shutting_down s with
  | sd_lock => Some (wait (set_abort true s))
  | sd_woken => Some (wait s)
  | sd_join => join_front (m_last_retired s) (fun s => set_shutting sd_done (set_last_retired [] s)) s
  | _ => None
  end.

Definition thread_step (i : nat) (s : thread_executor) : option thread_executor :=
  match threads s !! i with
  | Some tp_task => Some (goto i tp_retire s)
  | Some tp_retire => if lock_free s then Some (retire_worker i s) else None
  | Some (tp_notify last_retired) => Some (goto i (tp_join last_retired) (notify_one s))
  | Some (tp_join last_retired) =>
      if decide (last_retired = []) then Some (goto i tp_exited s)
      else join_front last_retired (goto i tp_exited) s
  | _ => None
  end.

Inductive label :=
  | te_enqueue (n : nat) (fails : bool)
  | te_thread (i : nat)
  | te_throw (i : nat)                (* the task of thread i throws *)
  | te_shutdown                       (* a call of shutdown *)
  | te_shutdown_step
  | te_spurious.                      (* m_condition.wait wakes up spuriously *)

Definition step (l : label) (s : thread_executor) : option thread_executor :=
  match failed s with
  | Some _ => None
  | None =>
      match l with
      | te_enqueue n fails => if lock_free s then Some (enqueue n fails s).2 else None
      | te_thread i => thread_step i s
      | te_throw i =>
          if decide (threads s !! i = Some tp_task) then Some (set_failed (Some task_threw) s) else None
      | te_shutdown =>
          if m_atomic_abort s then Some s    (* it returns at once *)
          else Some (set_shutting sd_lock (set_atomic_abort true s))
      | te_shutdown_step => shutdown_step s
      | te_spurious =>
          if decide (shutting_down s = sd_blocked) then Some (set_shutting sd_woken s) else None
      end
  end.
