(* ===== verification/ThreadExecutorTheorems.v ===== *)
(** * What thread_executor guarantees *)

From Stdlib Require Import Lia.
From stdpp Require Import prelude list strings.
From S2P Require Import Prelude Errors ThreadExecutor.
#[local] Open Scope list_scope.

Definition pred_of (l : list nat) (k : nat) : list nat :=
  match k with 0 => [] | S k => option_list (l !! k) end.

Definition is_worker (pc : thread_pc) : bool :=
  match pc with tp_never | tp_task | tp_retire => true | _ => false end.

(** The thread [i] was joined: by the one that retired after it, or by [shutdown]. *)
Definition was_joined (s : thread_executor) (j : nat) : Prop :=
  (exists k i, retired s !! k = Some j /\ retired s !! S k = Some i /\ threads s !! i = Some tp_exited) \/
  (shutting_down s = sd_done /\ last (retired s) = Some j).

Record tinv (s : thread_executor) : Prop := {
  t_nodup : NoDup (retired s);
  t_workers : forall i, i ∈ m_workers s <-> exists pc, threads s !! i = Some pc /\ is_worker pc = true;
  t_retired : forall i, i ∈ retired s <-> exists pc, threads s !! i = Some pc /\ is_worker pc = false;
  t_holds : forall k i l, retired s !! k = Some i ->
    threads s !! i = Some (tp_notify l) \/ threads s !! i = Some (tp_join l) -> l = pred_of (retired s) k;
  t_last : m_last_retired s = if decide (shutting_down s = sd_done) then [] else option_list (last (retired s));
  t_joined : NoDup (joined s) /\ forall j, j ∈ joined s <-> was_joined s j;
  t_exited : forall j, j ∈ joined s -> threads s !! j = Some tp_exited;
  t_blocked : shutting_down s = sd_blocked -> m_workers s = [] -> exists i l, threads s !! i = Some (tp_notify l);
  t_shutdown : match shutting_down s with
    | sd_none => m_abort s = false
    | sd_lock => True
    | sd_blocked | sd_woken => m_abort s = true
    | sd_join => m_abort s = true /\ m_workers s = [] /\ retired s <> []
    | sd_done => m_abort s = true /\ forall i pc, threads s !! i = Some pc -> pc = tp_exited
    end
}.

Definition crashed (s : thread_executor) : Prop := failed s = Some task_threw.

Lemma new_executor_tinv : tinv new_executor.
Proof.
  split; simpl; try done; try (by constructor).
  - intros i. split; [by intros ?%not_elem_of_nil|by intros (? & ? & _)].
  - intros i. split; [by intros ?%not_elem_of_nil|by intros (? & ? & _)].
  - split; [by constructor|]. intros j. split; [by intros ?%not_elem_of_nil|].
    intros [(k & i & H & _)|[? _]]; done.
  - by intros j ?%not_elem_of_nil.
Qed.

(** ** Each step *)

(** A thread that is created does not disturb the others. *)
Lemma enqueue_impl_tinv created s :
  tinv s -> m_abort s = false -> tinv (enqueue_impl created s) /\ m_abort (enqueue_impl created s) = false.
Proof.
  intros H Ha. split; [|done]. set (pc := if created then tp_task else tp_never).
  assert (Hpc : is_worker pc = true) by (by destruct created).
  assert (Hlk : forall i pc', (threads s ++ [pc]) !! i = Some pc' <-> threads s !! i = Some pc' \/ i = length (threads s) /\ pc' = pc).
  { intros i pc'. rewrite lookup_app_Some, list_lookup_singleton_Some. split.
    - intros [?|(? & ? & <-)]; [by left|right; split; [lia|done]].
    - intros [?|[-> ->]]; [by left|right; split_ands; [lia|lia|done]]. }
  assert (Hnew : forall i, i = length (threads s) -> i ∉ retired s).
  { intros i -> (pc' & E & _)%(t_retired s H). apply lookup_lt_Some in E. lia. }
  destruct H as [Hnd Hw Hr Hh Hl [Hjn Hj] Hje Hb Hsd].
  assert (Hnd' : shutting_down s <> sd_done /\ shutting_down s <> sd_join).
  { destruct (shutting_down s); split; try done; destruct Hsd; congruence. }
  split; simpl; fold pc; try done.
  - intros i. rewrite elem_of_cons, Hw. setoid_rewrite Hlk. split.
    + intros [->|(pc' & ? & ?)]; [exists pc|exists pc']; auto.
    + intros (pc' & [?|[-> ->]] & ?); [right; by exists pc'|by left].
  - intros i. rewrite Hr. setoid_rewrite Hlk. split.
    + intros (pc' & ? & ?); exists pc'; auto.
    + intros (pc' & [?|[-> ->]] & E); [by exists pc'|congruence].
  - intros k i l Hi. rewrite !Hlk. intros [[?|[E ?]]|[?|[E ?]]]; try (by eapply Hh; eauto).
    all: by destruct (Hnew i E); apply list_elem_of_lookup_2 with k.
  - split; [done|]. intros j. rewrite Hj. unfold was_joined. simpl. fold pc. setoid_rewrite Hlk. split.
    + intros [(k & i & ? & ? & ?)|[? ?]]; [left; exists k, i; auto|by right].
    + intros [(k & i & ? & Hi & [?|[E _]])|[? ?]]; [left; by exists k, i| |by right].
      destruct (Hnew i E). by apply list_elem_of_lookup_2 with (S k).
  - intros j Hj'. rewrite Hlk. left. by apply Hje.
  - destruct (shutting_down s); naive_solver.
Qed.

Lemma enqueue_loop_tinv n s :
  tinv s -> m_abort s = false -> tinv (enqueue_loop n s) /\ m_abort (enqueue_loop n s) = false.
Proof.
  revert s. induction n as [|n IH]; intros s H Ha; [done|]. simpl.
  destruct (enqueue_impl_tinv true s H Ha). by apply IH.
Qed.

Lemma enqueue_tinv n fails s : tinv s -> tinv (enqueue n fails s).2.
Proof.
  intros H. unfold enqueue. destruct (m_abort s) eqn:Ea; [done|].
  destruct (enqueue_loop_tinv n s H Ea) as [H1 Ha1]. destruct fails; [|done].
  by apply enqueue_impl_tinv.
Qed.

Lemma goto_lookup i pc s j q :
  threads (goto i pc s) !! j = Some q <->
  (i = j /\ pc = q /\ j < length (threads s)) \/ (i <> j /\ threads s !! j = Some q).
Proof. apply list_lookup_insert_Some. Qed.

(** A thread moves on, without becoming another kind of thread. *)
Lemma goto_tinv i pc pc' s :
  tinv s -> threads s !! i = Some pc -> is_worker pc' = is_worker pc -> pc <> tp_exited -> pc' <> tp_exited ->
  (forall l, pc' = tp_notify l \/ pc' = tp_join l -> pc = tp_notify l \/ pc = tp_join l) ->
  shutting_down s <> sd_blocked \/ (forall l, pc <> tp_notify l) -> tinv (goto i pc' s).
Proof.
  intros [Hnd Hw Hr Hh Hl [Hjn Hj] Hje Hb Hsd] Hi Hcls Hx Hx' Hhold Hblk.
  pose proof (lookup_lt_Some _ _ _ Hi) as Hlt.
  assert (Hcl : forall b j, (exists q, threads (goto i pc' s) !! j = Some q /\ is_worker q = b) <->
    exists q, threads s !! j = Some q /\ is_worker q = b).
  { intros b j. setoid_rewrite goto_lookup. split.
    - intros (q & [(<- & <- & _)|[_ ?]] & ?); [exists pc; split; [done|congruence]|by exists q].
    - intros (q & Hq & Hb'). destruct (decide (i = j)) as [<-|]; [|exists q; auto].
      exists pc'. split; [by left|]. rewrite Hcls. congruence. }
  assert (Hex : forall j, threads (goto i pc' s) !! j = Some tp_exited <-> threads s !! j = Some tp_exited).
  { intros j. rewrite goto_lookup. split; [intros [(_ & ? & _)|[_ ?]]; [congruence|done]|].
    intros E. right. split; [|done]. intros <-. congruence. }
  split; try done.
  - intros j. rewrite Hcl. apply Hw.
  - intros j. rewrite Hcl. apply Hr.
  - intros k j l Hk. rewrite !goto_lookup. intros [[(<- & -> & _)|[_ ?]]|[(<- & -> & _)|[_ ?]]]; try (by eapply Hh; eauto).
    all: eapply Hh; [exact Hk|]; rewrite Hi; destruct (Hhold l) as [-> | ->]; auto.
  - split; [done|]. intros j. rewrite Hj. unfold was_joined. change (retired (goto i pc' s)) with (retired s).
    change (shutting_down (goto i pc' s)) with (shutting_down s). by setoid_rewrite Hex.
  - intros j Hj'. apply Hex. auto.
  - intros Hbl He. destruct (Hb Hbl He) as (j & l & E). exists j, l. apply goto_lookup. right. split; [|done].
    intros <-. destruct Hblk as [?|Hno]; [done|]. apply (Hno l). congruence.
  - change (shutting_down (goto i pc' s)) with (shutting_down s). destruct (shutting_down s); try done.
    destruct Hsd as [? Hall]. split; [done|]. intros j q [(<- & <- & _)|[_ ?]]%goto_lookup; [|by apply (Hall j)].
    by destruct (Hx (Hall i pc Hi)).
Qed.

Lemma NoDup_same {A} (l : list A) j k x : NoDup l -> l !! j = Some x -> l !! k = Some x -> j = k.
Proof. intros. by eapply NoDup_lookup. Qed.

Lemma retire_worker_tinv i s :
  tinv s -> threads s !! i = Some tp_retire -> lock_free s = true -> tinv (retire_worker i s).
Proof.
  intros [Hnd Hw Hr Hh Hl [Hjn Hj] Hje Hb Hsd] Hi Hlf.
  pose proof (lookup_lt_Some _ _ _ Hi) as Hlt.
  assert (Hni : i ∉ retired s) by (intros (q & ? & ?)%Hr; naive_solver).
  assert (Hsdn : shutting_down s <> sd_done /\ shutting_down s <> sd_join).
  { split; [|by apply bool_decide_eq_true in Hlf]. intros E. rewrite E in Hsd. destruct Hsd as [_ Hall].
    discriminate (Hall i _ Hi). }
  destruct Hsdn as [Hnd1 Hnj]. rewrite decide_False in Hl by done.
  assert (Hlen : forall k j, (retired s ++ [i]) !! k = Some j <-> retired s !! k = Some j \/ k = length (retired s) /\ j = i).
  { intros k j. rewrite lookup_app_Some, list_lookup_singleton_Some. split.
    - intros [?|(? & ? & <-)]; [by left|right; split; [lia|done]].
    - intros [?|[-> ->]]; [by left|right; split_ands; [lia|lia|done]]. }
  split; try done.
  - simpl. apply NoDup_app. split_ands; [done| |apply NoDup_singleton].
    by intros j Hj' ->%list_elem_of_singleton.
  - intros j. simpl. rewrite list_elem_of_filter, Hw. setoid_rewrite list_lookup_insert_Some. split.
    + intros [Hn (q & ? & ?)]. exists q. auto.
    + intros (q & [(<- & <- & _)|[? ?]] & ?); [done|]. split; [done|by exists q].
  - intros j. simpl. rewrite elem_of_app, list_elem_of_singleton, Hr. setoid_rewrite list_lookup_insert_Some. split.
    + intros [(q & E & ?)| ->]; [|by eexists; split; [left|]]. exists q. split; [|done]. right. split; [|done].
      intros <-. apply Hni, Hr. by exists q.
    + intros (q & [(<- & <- & _)|[? ?]] & ?); [by right|left; by exists q].
  - intros k j l. simpl. rewrite Hlen. rewrite !list_lookup_insert_Some.
    assert (Hpre : forall k', k' <= length (retired s) -> pred_of (retired s ++ [i]) k' = pred_of (retired s) k').
    { intros [|k'] Hk'; [done|]. simpl. by rewrite lookup_app_l by lia. }
    intros [Hk|[-> ->]] Hq.
    + assert (Hn : i <> j) by (intros <-; apply Hni; by apply list_elem_of_lookup_2 with k).
      rewrite Hpre by (apply lookup_lt_Some in Hk; lia). eapply Hh; [exact Hk|]. naive_solver.
    + rewrite Hpre by done. assert (l = m_last_retired s) as -> by naive_solver. rewrite Hl.
      destruct (retired s) as [|x r] eqn:Er using rev_ind; [done|]. rewrite last_snoc, length_app. simpl.
      rewrite Nat.add_1_r. simpl. by rewrite lookup_app_r, Nat.sub_diag by lia.
  - simpl. rewrite decide_False by done. by rewrite last_snoc.
  - split; [done|]. intros j. simpl. rewrite Hj. unfold was_joined. simpl. setoid_rewrite Hlen.
    setoid_rewrite list_lookup_insert_Some. split.
    + intros [(k & m & ? & Hm & ?)|[? ?]]; [|done]. left. exists k, m. split_ands; [by left|by left|]. right.
      split; [|done]. intros <-. apply Hni. by apply list_elem_of_lookup_2 with (S k).
    + intros [(k & m & [Hk|[-> ->]] & [Hm|[Ek ->]] & Hx)|[? ?]]; try done.
      * destruct Hx as [(-> & ? & _)|[? ?]]; [done|]. left. by exists k, m.
      * destruct Hx as [(_ & ? & _)|[? ?]]; done.
      * apply lookup_lt_Some in Hm. lia.
      * destruct Hx as [(_ & ? & _)|[? ?]]; done.
  - intros j Hj'. simpl. apply list_lookup_insert_Some. right. split; [|by apply Hje].
    intros <-. specialize (Hje i Hj'). congruence.
  - intros _ _. exists i, (m_last_retired s). simpl. apply list_lookup_insert_Some. by left.
  - simpl. destruct (shutting_down s); naive_solver.
Qed.

Lemma notify_one_tinv s :
  tinv s -> tinv (notify_one s) /\ shutting_down (notify_one s) <> sd_blocked /\ threads (notify_one s) = threads s.
Proof.
  intros H. unfold notify_one. case_decide as E; [|done]. destruct H as [Hnd Hw Hr Hh Hl [Hjn Hj] Hje Hb Hsd].
  rewrite E in *. simpl in Hl. split_ands; [|done|done]. split; simpl; try done.
  split; [done|]. intros j. rewrite Hj. unfold was_joined. simpl. rewrite E.
  split; (intros [Hx|[Hx _]]; [by left|discriminate Hx]).
Qed.

(** What a thread waits for is there to be joined, and nobody else joins it. *)
Lemma join_available s i l :
  tinv s -> threads s !! i = Some (tp_join l) ->
  exists k, retired s !! k = Some i /\
    (k = 0 /\ l = [] \/ exists j k', k = S k' /\ l = [j] /\ retired s !! k' = Some j /\ j ∉ joined s).
Proof.
  intros H Hi. assert (Hin : i ∈ retired s) by (apply (t_retired s H); by eexists).
  apply list_elem_of_lookup_1 in Hin as [k Hk]. exists k. split; [done|].
  pose proof (t_holds s H k i l Hk (or_intror Hi)) as ->. destruct k as [|k]; [by left|]. right.
  destruct (lookup_lt_is_Some_2 (retired s) k) as [j Ej]; [apply lookup_lt_Some in Hk; lia|].
  exists j, k. simpl. rewrite Ej. split_ands; try done. intros Hjoined.
  apply (proj2 (t_joined s H)) in Hjoined as [(k2 & i2 & E2 & E3 & Hx)|[Hd _]].
  - pose proof (NoDup_same _ _ _ _ (t_nodup s H) Ej E2) as <-. congruence.
  - pose proof (t_shutdown s H) as Hsd. rewrite Hd in Hsd. destruct Hsd as [_ Hall]. discriminate (Hall i _ Hi).
Qed.

Lemma exit_tinv s i l js :
  tinv s -> threads s !! i = Some (tp_join l) ->
  (l = [] /\ js = joined s \/ exists j, l = [j] /\ threads s !! j = Some tp_exited /\ js = joined s ++ [j]) ->
  tinv (goto i tp_exited (set_joined js s)).
Proof.
  intros H Hi Hjs. destruct (join_available s i l H Hi) as (k0 & Hk0 & Hav).
  destruct H as [Hnd Hw Hr Hh Hl [Hjn Hj] Hje Hb Hsd].
  pose proof (lookup_lt_Some _ _ _ Hi) as Hlt.
  assert (Hgo : forall j q, threads (goto i tp_exited (set_joined js s)) !! j = Some q <->
    i = j /\ tp_exited = q \/ i <> j /\ threads s !! j = Some q).
  { intros j q. rewrite goto_lookup. simpl. naive_solver. }
  assert (Hcl : forall b j, (exists q, threads (goto i tp_exited (set_joined js s)) !! j = Some q /\ is_worker q = b) <->
    exists q, threads s !! j = Some q /\ is_worker q = b).
  { intros b j. setoid_rewrite Hgo. split.
    - intros (q & [[<- <-]|[_ ?]] & <-); [by exists (tp_join l)|by exists q].
    - intros (q & Hq & <-). destruct (decide (i = j)) as [<-|]; [|exists q; auto].
      exists tp_exited. split; [by left|]. by replace q with (tp_join l) by congruence. }
  assert (Hnd0 : shutting_down s <> sd_done).
  { intros E. rewrite E in Hsd. destruct Hsd as [_ Hall]. discriminate (Hall i _ Hi). }
  assert (Hij : i ∉ joined s) by (intros E%Hje; congruence).
  split; try done.
  - intros j. rewrite Hcl. apply Hw.
  - intros j. rewrite Hcl. apply Hr.
  - intros k j l' Hk. rewrite !Hgo. intros [[[_ ?]|[_ ?]]|[[_ ?]|[_ ?]]]; try done; eapply Hh; eauto.
  - simpl. split.
    + destruct Hjs as [[_ ->]|(j & -> & _ & ->)]; [done|]. destruct Hav as [[_ ?]|(j' & k' & _ & [= <-] & _ & Hn)]; [done|].
      apply NoDup_app. split_ands; [done| |apply NoDup_singleton]. by intros x Hx ->%list_elem_of_singleton.
    + intros x. unfold was_joined. change (retired (goto i tp_exited (set_joined js s))) with (retired s).
      change (shutting_down (goto i tp_exited (set_joined js s))) with (shutting_down s). setoid_rewrite Hgo.
      assert (Hold : x ∈ joined s <-> exists k m, retired s !! k = Some x /\ retired s !! S k = Some m /\ threads s !! m = Some tp_exited).
      { rewrite Hj. unfold was_joined. split; [by intros [?|[? _]]|by left]. }
      split.
      * intros Hx. assert (Hx' : x ∈ joined s \/ exists k', k0 = S k' /\ retired s !! k' = Some x).
        { destruct Hjs as [[_ ->]|(j & -> & _ & ->)]; [by left|]. apply elem_of_app in Hx as [?| ->%list_elem_of_singleton]; [by left|right].
          destruct Hav as [[_ ?]|(j' & k' & -> & [= <-] & ? & _)]; [done|]. by exists k'. }
        left. destruct Hx' as [(k & m & ? & ? & ?)%Hold|(k' & -> & ?)]; [|exists k', i; auto].
        exists k, m. split_ands; try done. destruct (decide (i = m)); [by left|by right].
      * intros [(k & m & Hk & Hm & Hmx)|[? _]]; [|done]. destruct Hmx as [[<- _]|[_ ?]].
        -- assert (k0 = S k) as -> by exact (NoDup_same _ _ _ _ Hnd Hk0 Hm). destruct Hav as [[? _]|(j' & k' & [= <-] & -> & Ej & _)]; [done|].
           destruct Hjs as [[? _]|(j & [= <-] & _ & ->)]; [done|]. apply elem_of_app. right.
           apply list_elem_of_singleton. congruence.
        -- assert (x ∈ joined s) by (apply Hold; by exists k, m). destruct Hjs as [[_ ->]|(j & _ & _ & ->)]; [done|].
           apply elem_of_app. by left.
  - intros j Hjx. apply Hgo. destruct (decide (i = j)); [by left|right]. split; [done|].
    destruct Hjs as [[_ E]|(j' & _ & ? & E)]; simpl in Hjx; rewrite E in Hjx; [by apply Hje|].
    apply elem_of_app in Hjx as [?| ->%list_elem_of_singleton]; [by apply Hje|done].
  - intros Hbl He. destruct (Hb Hbl He) as (j & l' & E). exists j, l'. apply Hgo. right. split; [congruence|done].
  - change (shutting_down (goto i tp_exited (set_joined js s))) with (shutting_down s). by destruct (shutting_down s).
Qed.

(** When the last retired thread has ended, so has every thread. *)
Lemma last_exited s j :
  tinv s -> m_workers s = [] -> last (retired s) = Some j -> threads s !! j = Some tp_exited ->
  forall i pc, threads s !! i = Some pc -> pc = tp_exited.
Proof.
  intros H Hw Hl Hj.
  assert (Hall : forall n k i, k + n = length (retired s) - 1 -> retired s !! k = Some i -> threads s !! i = Some tp_exited).
  { induction n as [|n IH]; intros k i Hk Hi.
    - rewrite last_lookup in Hl. replace (pred (length (retired s))) with k in Hl by lia. congruence.
    - destruct (lookup_lt_is_Some_2 (retired s) (S k)) as [m Hm]; [lia|].
      apply (t_exited s H), (proj2 (t_joined s H)). left. exists k, m. split_ands; [done|done|]. apply (IH (S k)); [lia|done]. }
  intros i pc Hi. destruct (is_worker pc) eqn:Ew.
  - assert (Hin : i ∈ m_workers s) by (apply (t_workers s H); by exists pc). rewrite Hw in Hin. by apply not_elem_of_nil in Hin.
  - assert (Hin : i ∈ retired s) by (apply (t_retired s H); by exists pc).
    apply list_elem_of_lookup_1 in Hin as [k Hk]. pose proof (lookup_lt_Some _ _ _ Hk).
    pose proof (Hall (length (retired s) - 1 - k) k i ltac:(lia) Hk). congruence.
Qed.

Lemma wait_tinv s :
  tinv s -> m_abort s = true -> shutting_down s = sd_lock \/ shutting_down s = sd_woken -> tinv (wait s).
Proof.
  intros [Hnd Hw Hr Hh Hl [Hjn Hj] Hje Hb Hsd] Ha Hpc.
  assert (Hnd1 : shutting_down s <> sd_done) by (destruct Hpc; congruence).
  assert (Hold : forall x, x ∈ joined s <-> exists k m, retired s !! k = Some x /\ retired s !! S k = Some m /\ threads s !! m = Some tp_exited).
  { intros x. rewrite Hj. unfold was_joined. split; [by intros [?|[? _]]|by left]. }
  rewrite decide_False in Hl by done. unfold wait, join_last_retired.
  case_bool_decide as He; [case_bool_decide as Hlr|].
  - rewrite Hlr in Hl. assert (Hn : retired s = []).
    { destruct (last (retired s)) eqn:E; [done|]. by apply last_None. }
    split; simpl; try done.
    + split; [done|]. intros x. rewrite Hold. unfold was_joined. simpl. rewrite Hn. naive_solver.
    + split; [done|]. intros i pc Hi. destruct (is_worker pc) eqn:Ew.
      * assert (Hin : i ∈ m_workers s) by (apply Hw; by exists pc). rewrite He in Hin. by apply not_elem_of_nil in Hin.
      * assert (Hin : i ∈ retired s) by (apply Hr; by exists pc). rewrite Hn in Hin. by apply not_elem_of_nil in Hin.
  - split; simpl; try done.
    + split; [done|]. intros x. rewrite Hold. unfold was_joined. simpl. split; [by left|by intros [?|[? _]]].
    + split_ands; try done. intros Hn. rewrite Hn in Hl. done.
  - split; simpl; try done. split; [done|]. intros x. rewrite Hold. unfold was_joined. simpl. split; [by left|by intros [?|[? _]]].
Qed.

Lemma shutdown_join_tinv s j :
  tinv s -> shutting_down s = sd_join -> m_last_retired s = [j] -> j ∉ joined s -> threads s !! j = Some tp_exited ->
  tinv (set_shutting sd_done (set_last_retired [] (set_joined (joined s ++ [j]) s))).
Proof.
  intros H Hpc Hlr Hn Hx. pose proof (t_shutdown s H) as Hsd. rewrite Hpc in Hsd. destruct Hsd as (Ha & He & _).
  pose proof (t_last s H) as Hl. rewrite Hpc, Hlr in Hl. simpl in Hl.
  assert (Hlast : last (retired s) = Some j) by (destruct (last (retired s)); [by injection Hl as ->|done]).
  pose proof (last_exited s j H He Hlast Hx) as Hall.
  destruct H as [Hnd Hw Hr Hh _ [Hjn Hj] Hje Hb _].
  split; simpl; try done.
  - split.
    + apply NoDup_app. split_ands; [done| |apply NoDup_singleton]. by intros x Hx' ->%list_elem_of_singleton.
    + intros x. rewrite elem_of_app, list_elem_of_singleton, Hj. unfold was_joined. rewrite Hpc. simpl. split.
      * intros [[?|[? _]]| ->]; [by left|done|by right].
      * intros [?|[_ E]]; [by left; left|right; congruence].
  - intros x [?| ->%list_elem_of_singleton]%elem_of_app; [by apply Hje|done].
Qed.

Lemma shutdown_step_tinv s s' : tinv s -> failed s = None -> shutdown_step s = Some s' -> tinv s' /\ failed s' = None.
Proof.
  intros H Hf. pose proof (t_shutdown s H) as Hsd. unfold shutdown_step. destruct (shutting_down s) eqn:Hpc; try done.
  - intros [= <-]. split; [|unfold wait, join_last_retired; by repeat case_bool_decide].
    apply wait_tinv; [|done|by left]. clear Hf. destruct H as [Hnd Hw Hr Hh Hl [Hjn Hj] Hje Hb _].
    split; simpl; try done. by rewrite Hpc.
  - intros [= <-]. split; [|unfold wait, join_last_retired; by repeat case_bool_decide]. apply wait_tinv; auto.
  - destruct Hsd as (Ha & He & Hne). pose proof (t_last s H) as Hl. rewrite Hpc in Hl. simpl in Hl.
    destruct (last (retired s)) as [j|] eqn:Elast; [|by apply last_None in Elast]. simpl in Hl. rewrite Hl. unfold join_front.
    assert (Hn : j ∉ joined s).
    { intros Hin. apply (proj2 (t_joined s H)) in Hin as [(k & i & Ek & Ei & _)|[? _]]; [|congruence].
      rewrite last_lookup in Elast. pose proof (NoDup_same _ _ _ _ (t_nodup s H) Ek Elast) as E.
      apply lookup_lt_Some in Ei. lia. }
    rewrite decide_False by done. case_decide as Hx; [|done]. intros [= <-]. split; [by apply shutdown_join_tinv|done].
Qed.

Lemma thread_step_tinv i s s' : tinv s -> failed s = None -> thread_step i s = Some s' -> tinv s' /\ failed s' = None.
Proof.
  intros H Hf. unfold thread_step. destruct (threads s !! i) as [pc|] eqn:Hi; [|done]. destruct pc; try done.
  - intros [= <-]. split; [|done]. eapply goto_tinv; [done|exact Hi|done|done|done| |right; done].
    by intros l [?|?].
  - destruct (lock_free s) eqn:E; [|done]. intros [= <-]. split; [by apply retire_worker_tinv|done].
  - intros [= <-]. destruct (notify_one_tinv s H) as (H1 & H2 & H3). split.
    + eapply goto_tinv; [done|rewrite H3; exact Hi|done|done|done| |by left]. intros l [?|?]; [done|left; congruence].
    + unfold notify_one. by case_decide.
  - case_decide as El.
    + intros [= <-]. split; [|done]. pose proof (exit_tinv s i last_retired (joined s) H Hi) as Hx.
      destruct s. apply Hx. by left.
    + destruct (join_available s i _ H Hi) as (k & _ & [[_ ?]|(j & k' & _ & -> & _ & Hn)]); [done|].
      unfold join_front. rewrite decide_False by done. case_decide as Hx; [|done]. intros [= <-]. split; [|done].
      eapply exit_tinv; [done|exact Hi|]. right. by exists j.
Qed.

Definition begun (s : thread_executor) : Prop := m_atomic_abort s = false -> shutting_down s = sd_none.

Lemma enqueue_loop_same n s :
  failed (enqueue_loop n s) = failed s /\ m_atomic_abort (enqueue_loop n s) = m_atomic_abort s /\
  shutting_down (enqueue_loop n s) = shutting_down s.
Proof. revert s. induction n as [|n IH]; intros s; [done|]. simpl. destruct (IH (enqueue_impl true s)) as (-> & -> & ->). done. Qed.

Lemma step_begun l s s' : begun s -> step l s = Some s' -> begun s'.
Proof.
  unfold begun. intros H. unfold step. destruct (failed s); [done|]. destruct l as [n fails|i|i| | |].
  - destruct (lock_free s); [|done]. intros [= <-]. destruct (enqueue_loop_same n s) as (_ & E1 & E2).
    unfold enqueue. destruct (m_abort s); [done|]. destruct fails; simpl; by rewrite E1, E2.
  - unfold thread_step, join_front. intros Hs Ha. destruct (threads s !! i) as [[]|]; try done.
    + by injection Hs as <-; auto.
    + destruct (lock_free s); [|done]. by injection Hs as <-; auto.
    + injection Hs as <-. revert Ha. unfold notify_one. case_decide as E; simpl; [|done]. intros Ha. rewrite (H Ha) in E. done.
    + revert Hs. case_decide; [intros [= <-]; auto|]. destruct last_retired as [|j [|]]; [intros [= <-]; auto| |intros [= <-]; auto].
      case_decide; [intros [= <-]; auto|]. case_decide; [intros [= <-]; auto|done].
  - case_decide; [|done]. by intros [= <-].
  - destruct (m_atomic_abort s) eqn:Ea; intros [= <-]; [by rewrite Ea|done].
  - unfold shutdown_step, join_front. intros Hs. destruct (shutting_down s) eqn:E; try done.
    all: assert (Ha0 : m_atomic_abort s = true) by (destruct (m_atomic_abort s); [done|by specialize (H eq_refl)]).
    all: intros Ha; exfalso; revert Ha; revert Hs; unfold wait, join_last_retired.
    + repeat case_bool_decide; intros [= <-]; simpl; congruence.
    + repeat case_bool_decide; intros [= <-]; simpl; congruence.
    + destruct (m_last_retired s) as [|j [|]]; [intros [= <-]; simpl; congruence| |intros [= <-]; simpl; congruence].
      case_decide; [intros [= <-]; simpl; congruence|]. case_decide; [intros [= <-]; simpl; congruence|done].
  - case_decide as E; [|done]. intros [= <-]. simpl. intros Ha. rewrite (H Ha) in E. done.
Qed.

Lemma step_tinv l s s' :
  tinv s -> begun s -> failed s = None -> step l s = Some s' -> crashed s' \/ (tinv s' /\ failed s' = None).
Proof.
  intros H Hbeg Hf. unfold step. rewrite Hf. destruct l as [n fails|i|i| | |].
  - destruct (lock_free s); [|done]. intros [= <-]. right. split; [by apply enqueue_tinv|].
    destruct (enqueue_loop_same n s) as (E & _ & _). unfold enqueue. destruct (m_abort s); [done|].
    destruct fails; simpl; by rewrite E.
  - intros E. right. by eapply thread_step_tinv.
  - case_decide; [|done]. intros [= <-]. by left.
  - destruct (m_atomic_abort s) eqn:Ea; intros [= <-]; right; [done|]. split; [|done].
    specialize (Hbeg Ea). destruct H as [Hnd Hw Hr Hh Hl [Hjn Hj] Hje Hb Hsd]. rewrite Hbeg in *. simpl in Hl.
    split; simpl; try done. split; [done|]. intros x. rewrite Hj. unfold was_joined. simpl. rewrite Hbeg.
    split; (intros [Hx|[Hx _]]; [by left|discriminate Hx]).
  - intros E. right. by eapply shutdown_step_tinv.
  - case_decide as E; [|done]. intros [= <-]. right. split; [|done].
    pose proof (notify_one_tinv s H) as [H1 _]. unfold notify_one in H1. by rewrite decide_True in H1.
Qed.

Lemma reachable_tinv s : reachable step new_executor s -> crashed s \/ (tinv s /\ failed s = None).
Proof.
  intros Hr. enough (H : (crashed s \/ (tinv s /\ failed s = None)) /\ begun s) by apply H. revert s Hr.
  apply (reachable_invariant step new_executor (fun s => (crashed s \/ (tinv s /\ failed s = None)) /\ begun s)).
  - split; [right; split; [apply new_executor_tinv|done]|done].
  - intros l s s' [[Hc|[H Hf]] Hb] E; [unfold step in E; by rewrite Hc in E|].
    split; [by eapply step_tinv|by eapply step_begun].
Qed.

(** ** Termination *)

(** What the threads and the shutdown do when their tasks return. *)
Definition own (l : label) : bool := match l with te_thread _ | te_shutdown_step => true | _ => false end.

Definition thread_weight (pc : thread_pc) : nat :=
  match pc with tp_task => 6 | tp_retire => 5 | tp_notify _ => 4 | tp_join _ => 1 | tp_never | tp_exited => 0 end.
Definition shutdown_weight (pc : shutdown_pc) : nat :=
  match pc with sd_lock => 4 | sd_woken => 3 | sd_blocked => 2 | sd_join => 1 | sd_none | sd_done => 0 end.

(** How many steps are left at most. *)
Definition steps_left (s : thread_executor) : nat :=
  sum_list_with thread_weight (threads s) + shutdown_weight (shutting_down s).

Lemma sum_list_insert {A} (f : A -> nat) (l : list A) i x y :
  l !! i = Some x -> sum_list_with f (<[i := y]> l) + f x = sum_list_with f l + f y.
Proof.
  revert i. induction l as [|z l IH]; intros [|i]; simpl; try done.
  - intros [= ->]. lia.
  - intros H. specialize (IH i H). lia.
Qed.

Lemma sum_list_bound {A} (f : A -> nat) (l : list A) b : (forall x, f x <= b) -> sum_list_with f l <= b * length l.
Proof. intros H. induction l as [|x l IH]; simpl; [lia|]. specialize (H x). lia. Qed.

Lemma goto_left i pc pc' s :
  threads s !! i = Some pc -> steps_left (goto i pc' s) + thread_weight pc = steps_left s + thread_weight pc'.
Proof. intros H. pose proof (sum_list_insert thread_weight _ i pc pc' H). unfold steps_left. simpl. lia. Qed.

Lemma own_decreases l s s' :
  tinv s -> failed s = None -> own l = true -> step l s = Some s' -> steps_left s' < steps_left s.
Proof.
  intros H Hf Hl. unfold step. rewrite Hf. destruct l as [| i | | | |]; try done.
  - unfold thread_step. destruct (threads s !! i) as [pc|] eqn:Hi; [|done]. destruct pc; try done.
    + intros [= <-]. pose proof (goto_left i _ tp_retire s Hi) as E. simpl in E. lia.
    + destruct (lock_free s); [|done]. intros [= <-].
      pose proof (goto_left i _ (tp_notify (m_last_retired s)) s Hi) as E. unfold steps_left in *. simpl in *. lia.
    + intros [= <-]. destruct (notify_one_tinv s H) as (_ & _ & H3).
      pose proof (goto_left i (tp_notify last_retired) (tp_join last_retired) (notify_one s)) as E. rewrite H3 in E. specialize (E Hi). simpl in E.
      assert (steps_left (notify_one s) <= steps_left s + 1); [|lia].
      unfold notify_one. case_decide as Eb; [|lia]. unfold steps_left. simpl. rewrite Eb. simpl. lia.
    + case_decide as El.
      * intros [= <-]. pose proof (goto_left i _ tp_exited s Hi) as E. simpl in E. lia.
      * destruct (join_available s i _ H Hi) as (k & _ & [[_ ?]|(j & k' & _ & -> & _ & Hn)]); [done|].
        unfold join_front. rewrite decide_False by done. case_decide as Hx; [|done]. intros [= <-].
        pose proof (goto_left i _ tp_exited (set_joined (joined s ++ [j]) s) Hi) as E. unfold steps_left in *. simpl in *. lia.
  - pose proof (t_last s H) as Hlr. pose proof (t_shutdown s H) as Hsd.
    unfold shutdown_step. destruct (shutting_down s) eqn:Hpc; try done.
    + intros [= <-]. unfold wait, join_last_retired, steps_left. repeat case_bool_decide; simpl; rewrite Hpc; simpl; lia.
    + intros [= <-]. unfold wait, join_last_retired, steps_left. repeat case_bool_decide; simpl; rewrite Hpc; simpl; lia.
    + simpl in Hlr. destruct Hsd as (_ & _ & Hne). destruct (last (retired s)) as [j|] eqn:El; [|by apply last_None in El].
      simpl in Hlr. rewrite Hlr. unfold join_front.
      case_decide as Hj; [|case_decide; [|done]; intros [= <-]; unfold steps_left; simpl; rewrite Hpc; simpl; lia].
      exfalso. apply (proj2 (t_joined s H)) in Hj as [(k & i & Ek & Ei & _)|[? _]]; [|congruence].
      rewrite last_lookup in El. pose proof (NoDup_same _ _ _ _ (t_nodup s H) Ek El) as E.
      apply lookup_lt_Some in Ei. lia.
Qed.

(** Own steps start no thread, and take no shutdown back. *)
Definition same_threads (s s' : thread_executor) : Prop :=
  length (threads s') = length (threads s) /\ (shutting_down s <> sd_none -> shutting_down s' <> sd_none) /\
  (forall i, threads s' !! i = Some tp_never -> threads s !! i = Some tp_never).

Lemma goto_same i pc s s' :
  same_threads s s' -> pc <> tp_never -> same_threads s (goto i pc s').
Proof.
  intros (H1 & H2 & H3) Hpc. split; [|split; [exact H2|]].
  - simpl. by rewrite length_insert.
  - intros j [(_ & ? & _)|[_ ?]]%goto_lookup; [done|auto].
Qed.

Lemma same_threads_refl s : same_threads s s.
Proof. by split_ands. Qed.

Lemma own_step_same l s s' : failed s = None -> own l = true -> step l s = Some s' -> same_threads s s'.
Proof.
  intros Hf Hl. unfold step. rewrite Hf. destruct l as [| i | | | |]; try done.
  - unfold thread_step, join_front. destruct (threads s !! i) as [pc|] eqn:Hi; [|done]. destruct pc; try done.
    + intros [= <-]. apply goto_same; [apply same_threads_refl|done].
    + destruct (lock_free s); [|done]. intros [= <-]. apply goto_same; [by split_ands|done].
    + intros [= <-]. apply goto_same; [|done]. unfold notify_one. case_decide; by split_ands.
    + case_decide; [intros [= <-]; apply goto_same; [apply same_threads_refl|done]|].
      destruct last_retired as [|j [|]]; [by intros [= <-]| |by intros [= <-]].
      case_decide; [by intros [= <-]|]. case_decide; [|done]. intros [= <-]. apply goto_same; [by split_ands|done].
  - unfold shutdown_step, join_front. destruct (shutting_down s) eqn:E; try done.
    + intros [= <-]. unfold wait, join_last_retired. repeat case_bool_decide; by split_ands.
    + intros [= <-]. unfold wait, join_last_retired. repeat case_bool_decide; by split_ands.
    + assert (Hfail : forall f, same_threads s (set_failed f s)) by (by split_ands).
      destruct (m_last_retired s) as [|j [|]]; [by intros [= <-]| |by intros [= <-]].
      case_decide; [by intros [= <-]|]. case_decide; [|done]. intros [= <-]. by split_ands.
Qed.

Lemma own_run ls s s' :
  tinv s -> begun s -> failed s = None -> forallb own ls = true -> run step ls s = Some s' ->
  tinv s' /\ failed s' = None /\ length ls + steps_left s' <= steps_left s /\ same_threads s s'.
Proof.
  revert s. induction ls as [|l ls IH]; intros s H Hb Hf Hl; simpl.
  { intros [= <-]. split_ands; try done. }
  simpl in Hl. apply andb_true_iff in Hl as [Hl Hls]. destruct (step l s) as [s1|] eqn:E; [|done]. intros Hr.
  pose proof (own_decreases l s s1 H Hf Hl E) as Hlt. pose proof (own_step_same l s s1 Hf Hl E) as (S1 & S2 & S3).
  destruct (step_tinv l s s1 H Hb Hf E) as [Hc|[H1 Hf1]].
  { exfalso. unfold step in E. rewrite Hf in E. destruct l; try done.
    - destruct (thread_step_tinv _ _ _ H Hf E). unfold crashed in Hc. congruence.
    - destruct (shutdown_step_tinv _ _ H Hf E). unfold crashed in Hc. congruence. }
  destruct (IH s1 H1 (step_begun l s s1 Hb E) Hf1 Hls Hr) as (H2 & Hf2 & Hlen & T1 & T2 & T3).
  split; [done|]. split; [done|]. split; [simpl; lia|]. split; [lia|]. split; auto.
Qed.

(** No step is left: everything has ended. *)
Lemma stuck_is_done s :
  tinv s -> failed s = None -> (forall i, threads s !! i <> Some tp_never) -> (forall l, own l = true -> step l s = None) ->
  (forall i pc, threads s !! i = Some pc -> pc = tp_exited) /\ (shutting_down s = sd_none \/ shutting_down s = sd_done).
Proof.
  intros H Hf Hnv Hstuck.
  assert (Hth : forall i, thread_step i s = None).
  { intros i. specialize (Hstuck (te_thread i) eq_refl). unfold step in Hstuck. by rewrite Hf in Hstuck. }
  pose proof (Hstuck te_shutdown_step eq_refl) as Hsh. unfold step in Hsh. rewrite Hf in Hsh.
  assert (Hnw : m_workers s = []).
  { destruct (m_workers s) as [|i w] eqn:Ew; [done|]. exfalso.
    assert (Hi : i ∈ m_workers s) by (rewrite Ew; left). apply (t_workers s H) in Hi as (pc & Hi & Hpc).
    specialize (Hth i). unfold thread_step in Hth. rewrite Hi in Hth. destruct pc; try done; [by apply (Hnv i)|].
    unfold lock_free in Hth. case_bool_decide as Hlf; [done|].
    pose proof (t_shutdown s H) as Hsd. rewrite Hlf in Hsd. destruct Hsd as (_ & ? & _). congruence. }
  assert (Hpcs : forall i pc, threads s !! i = Some pc -> pc = tp_exited \/ exists l, pc = tp_join l).
  { intros i pc Hi. pose proof (Hth i) as Hs. unfold thread_step in Hs. rewrite Hi in Hs. destruct pc; try done; auto; [by destruct (Hnv i)| |by right; eexists].
    assert (Hin : i ∈ m_workers s) by (apply (t_workers s H); by eexists). rewrite Hnw in Hin. by apply not_elem_of_nil in Hin. }
  assert (Hall : forall k i, retired s !! k = Some i -> threads s !! i = Some tp_exited).
  { induction k as [k IH] using lt_wf_ind. intros i Hk.
    assert (Hin : i ∈ retired s) by (by apply list_elem_of_lookup_2 with k).
    apply (t_retired s H) in Hin as (pc & Hi & _). destruct (Hpcs i pc Hi) as [->|[l ->]]; [done|]. exfalso.
    pose proof (Hth i) as Hs. unfold thread_step in Hs. rewrite Hi in Hs. case_decide; [done|].
    destruct (join_available s i l H Hi) as (k' & Hk' & [[_ ?]|(j & k2 & -> & -> & Ej & Hn)]); [done|].
    pose proof (NoDup_same _ _ _ _ (t_nodup s H) Hk Hk') as ->.
    unfold join_front in Hs. rewrite decide_False, decide_True in Hs; [done| |done]. apply (IH k2); [lia|done]. }
  assert (Hex : forall i pc, threads s !! i = Some pc -> pc = tp_exited).
  { intros i pc Hi. destruct (Hpcs i pc Hi) as [?|[l ->]]; [done|].
    assert (Hin : i ∈ retired s) by (apply (t_retired s H); by eexists). apply list_elem_of_lookup_1 in Hin as [k Hk].
    specialize (Hall k i Hk). congruence. }
  split; [done|]. unfold shutdown_step in Hsh. pose proof (t_shutdown s H) as Hsd. pose proof (t_last s H) as Hlr.
  destruct (shutting_down s) eqn:Hpc; auto; try done.
  - destruct (t_blocked s H Hpc Hnw) as (i & l & E). discriminate (Hex i _ E).
  - simpl in Hlr. destruct Hsd as (_ & _ & Hne). destruct (last (retired s)) as [j|] eqn:El; [|by apply last_None in El].
    simpl in Hlr. rewrite Hlr in Hsh. unfold join_front in Hsh. revert Hsh. case_decide; [done|]. rewrite decide_True; [done|].
    rewrite last_lookup in El. by eapply Hall.
Qed.

(** ** The theorems *)

(** C21.  As long as no task throws, every assertion of thread_executor holds,
    no thread is joined twice, and a thread is joined only when it has ended.
    When [shutdown] has returned, every thread that was ever created has ended
    and was joined, so that the destructor finds both lists empty. *)
Theorem shutdown_joins_every_thread s :
  reachable step new_executor s ->
  failed s <> Some assertion_failed /\ failed s <> Some joined_twice /\
  (failed s = None ->
   NoDup (joined s) /\ (forall j, j ∈ joined s -> threads s !! j = Some tp_exited) /\
   (shutting_down s = sd_done ->
    joined s ≡ₚ seq 0 (length (threads s)) /\ Forall (fun pc => pc = tp_exited) (threads s) /\
    m_workers s = [] /\ m_last_retired s = [])).
Proof.
  intros [Hc|[H Hf]]%reachable_tinv; [unfold crashed in Hc; rewrite Hc; by split_ands|].
  rewrite Hf. split_ands; try done. intros _. destruct (t_joined s H) as [Hn Hj].
  split_ands; [done|apply (t_exited s H)|]. intros Hd. pose proof (t_shutdown s H) as Hsd. rewrite Hd in Hsd.
  destruct Hsd as [Ha Hall].
  assert (Hr : forall i, i ∈ retired s <-> i < length (threads s)).
  { intros i. rewrite (t_retired s H). split; [intros (pc & E & _); by eapply lookup_lt_Some|].
    intros Hi. apply lookup_lt_is_Some_2 in Hi as [pc E]. exists pc. split; [done|]. by rewrite (Hall i pc E). }
  split_ands.
  - apply NoDup_Permutation; [done|apply NoDup_seq|]. intros i. rewrite elem_of_seq. split.
    + intros Hi%(t_exited s H). apply lookup_lt_Some in Hi. lia.
    + intros Hi. assert (Hin : i ∈ retired s) by (apply Hr; lia). apply Hj.
      apply list_elem_of_lookup_1 in Hin as [k Hk]. destruct (retired s !! S k) as [m|] eqn:Em.
      * left. exists k, m. split_ands; try done. assert (Hm : m ∈ retired s) by (by apply list_elem_of_lookup_2 with (S k)).
        apply Hr in Hm. apply lookup_lt_is_Some_2 in Hm as [pc E]. by rewrite E, (Hall m pc E).
      * right. split; [done|]. rewrite last_lookup. apply lookup_ge_None in Em. apply lookup_lt_Some in Hk as Hlt.
        by replace (pred (length (retired s))) with k by lia.
  - apply Forall_lookup. exact Hall.
  - destruct (m_workers s) as [|i w] eqn:Ew; [done|]. exfalso.
    assert (Hi : i ∈ m_workers s) by (rewrite Ew; left). apply (t_workers s H) in Hi as (pc & Hi & Hpc).
    by rewrite (Hall i pc Hi) in Hpc.
  - rewrite (t_last s H). by rewrite decide_True.
Qed.

(** The shutdown ends: once it was called, and provided that the tasks that
    run return and that every thread could be created, the threads and the
    shutdown make at most six steps per thread and four more, in any order; and
    when none of them can make a step, [shutdown] has returned: there is no
    deadlock and no lost wake-up. *)
Theorem shutdown_terminates s :
  reachable step new_executor s -> failed s = None -> shutting_down s <> sd_none ->
  (forall i, threads s !! i <> Some tp_never) ->
  forall ls s', forallb own ls = true -> run step ls s = Some s' ->
    length ls <= 6 * length (threads s) + 4 /\
    ((forall l, own l = true -> step l s' = None) -> shutting_down s' = sd_done).
Proof.
  intros Hr Hf Hsd Hnv ls s' Hl E.
  assert (Hi : tinv s /\ begun s).
  { destruct (reachable_tinv s Hr) as [Hc|[H _]]; [unfold crashed in Hc; congruence|]. split; [done|].
    clear -Hr. revert s Hr. apply (reachable_invariant step new_executor begun); [done|]. intros; by eapply step_begun. }
  destruct Hi as [H Hb]. destruct (own_run ls s s' H Hb Hf Hl E) as (H' & Hf' & Hlen & _ & Hs' & Hn'). split.
  - assert (steps_left s <= 6 * length (threads s) + 4); [|lia]. unfold steps_left.
    pose proof (sum_list_bound thread_weight (threads s) 6) as Hb1.
    specialize (Hb1 ltac:(intros []; simpl; lia)). destruct (shutting_down s); simpl; lia.
  - intros Hstuck. destruct (stuck_is_done s' H' Hf') as [_ [?|?]]; [|done| |done].
    + intros i Hi. by apply (Hnv i), Hn'.
    + by destruct (Hs' Hsd).
Qed.

(** But if the constructor of [std::thread] throws in [enqueue_impl], the node
    of the thread stays in [m_workers] for ever and [shutdown] never returns. *)
Lemma shutdown_waits_for_failed_thread s i :
  reachable step new_executor s -> failed s = None -> threads s !! i = Some tp_never -> shutting_down s <> sd_done.
Proof.
  intros [Hc|[H _]]%reachable_tinv Hf Hi Hd; [unfold crashed in Hc; congruence|].
  pose proof (t_shutdown s H) as Hsd. rewrite Hd in Hsd. destruct Hsd as [_ Hall]. discriminate (Hall i _ Hi).
Qed.

(** ** Witnesses *)
Definition some_run : list label :=
  [te_enqueue 2 false; te_thread 1; te_shutdown; te_thread 1; te_shutdown_step; te_enqueue 1 false].
Definition shutdown_run : list label :=
  [te_thread 1; te_thread 0; te_thread 0; te_thread 0; te_shutdown_step; te_thread 1; te_thread 0; te_shutdown_step].

Notation after_some_run := (after step new_executor some_run).

Lemma shutdown_joins_every_thread_witness :
  joined (after step new_executor (some_run ++ shutdown_run)) ≡ₚ [0; 1].
Proof.
  destruct (shutdown_joins_every_thread (after step new_executor (some_run ++ shutdown_run))) as (_ & _ & H); [apply after_reachable|].
  destruct H as (_ & _ & H); [by vm_compute|]. destruct H as [H _]; [by vm_compute|]. exact H.
Defined.

Lemma shutdown_terminates_witness :
  exists s, run step shutdown_run after_some_run = Some s /\ length shutdown_run <= 6 * 2 + 4 /\
    ((forall l, own l = true -> step l s = None) -> shutting_down s = sd_done).
Proof.
  exists (after step after_some_run shutdown_run). split; [by vm_compute|].
  apply (shutdown_terminates after_some_run); [apply after_reachable|by vm_compute|by vm_compute| |by vm_compute|by vm_compute].
  intros i. vm_compute. destruct i as [|[|i]]; [discriminate|discriminate|destruct i; discriminate].
Defined.
