(* ===== verification/Coroutines.v ===== *)
(** * Executors, coroutines and what travels between them

    [include/concurrencpp/utils/bind.h], [executors/executor.h],
    [executors/derivable_executor.h], [executors/inline_executor.h],
    [results/promises.h], [results/resume_on.h]: how [post], [submit] and their
    bulk versions make tasks of callables and coroutines, how a coroutine that
    starts or resumes on an executor is suspended and resumed, and what happens
    when the executor refuses or destroys the task.

    A coroutine is the tree of what it does between two suspensions: it goes to
    an executor, or it awaits something else (a result, a lock, a timer), from
    which it is resumed when the rest of the program sees to it.  Every path of
    the tree ends: a coroutine that is answered at each suspension ends.  The
    executors are given by what [enqueue] does: [inline_executor] runs a task
    inside of [enqueue] and is modelled as it is; the others put it into a queue
    from which tasks are run or destroyed in any order (their own files show
    that each is, once).  The calls of the library by different threads are
    sequences of operations here; each operation runs to its end. *)

From stdpp Require Import prelude list strings.
From S2P Require Import Prelude Errors ConsumerContext.
#[local] Open Scope list_scope.

(** ** Callables: [bind.h] *)

(** A callable without arguments: whether it is [noexcept], and what a call
    returns or throws. *)
Record callable (A : Type) := make_callable { callable_id : nat; is_noexcept : bool; invoke : unit -> A + exn }.
Arguments make_callable {A} callable_id is_noexcept invoke.
Arguments callable_id {A} c : rename.
Arguments is_noexcept {A} c : rename.
Arguments invoke {A} c _ : rename.

(** [bind(callable, arguments...)]: [f] applied to the tuple of arguments. *)
Definition bind {Args A : Type} (id : nat) (noexc : bool) (f : Args -> A + exn) (arguments : Args) : callable A :=
  make_callable id noexc (fun _ => f arguments).

(** [bind_with_try_catch]: a [noexcept] callable as it is (its value is
    dropped by the task), another one inside of [try ... catch (...)]. *)
Definition bind_with_try_catch {A : Type} (c : callable A) : callable unit :=
  if is_noexcept c then
    make_callable (callable_id c) true (fun u => match invoke c u with inl _ => inl tt | inr e => inr e end)
  else make_callable (callable_id c) true (fun u => match invoke c u with inl _ | inr _ => inl tt end).

(** ** Coroutines *)
Section coroutines.
Context {T : Type}.

(** What a coroutine does next: [co_return], an exception that leaves it,
    [co_await resume_on(executor)], or the [co_await] of anything else that is
    not ready (when it is ready, the coroutine just goes on).  The continuation
    gets what [await_resume] throws, if it throws.  [None] is a null
    [shared_ptr]. *)
Inductive body :=
  | b_return (v : T)
  | b_throw (e : exn)
  | b_resume_on (executor : option nat) (k : option exn -> body)
  | b_await (k : option exn -> body).

(** The promise: [null_result] drops value and exception. *)
Inductive promise_kind := pk_null_result | pk_result.

Inductive coroutine_state :=
  | co_running
  | co_suspended (message : string) (k : option exn -> body)   (* in an executor *)
  | co_awaiting (k : option exn -> body)                       (* anywhere else *)
  | co_done (result : option (T + exn)).

(** The frame of a coroutine.  [m_interrupted] is the member of the awaiter it
    is suspended in, which throws [broken_task(message)] if it is set; [co_body]
    and [co_path] record how it began and what the awaiters answered. *)
Record coroutine := make_coroutine {
  kind : promise_kind;
  status : coroutine_state;
  m_interrupted : bool;
  co_body : body;
  co_path : list (option exn)
}.

Inductive task :=
  | t_callable (c : callable unit)
  | t_functor (f : await_via_functor.t).

Inductive executor_kind := inline_executor | queueing_executor.

Record executor := make_executor {
  name : string;
  ex_kind : executor_kind;
  m_abort : bool;
  ex_queue : list task
}.

(** [called]: the callables that were called; [resumed_by]: which executor
    resumed which coroutine. *)
Record world := make_world {
  executors : list executor;
  coros : list coroutine;
  called : list nat;
  resumed_by : list (handle * nat)
}.

Definition set_executors v w := make_world v (coros w) (called w) (resumed_by w).
Definition set_coros v w := make_world (executors w) v (called w) (resumed_by w).
Definition set_called v w := make_world (executors w) (coros w) v (resumed_by w).
Definition set_resumed_by v w := make_world (executors w) (coros w) (called w) v.

Definition set_status (v : coroutine_state) (c : coroutine) : coroutine :=
  make_coroutine (kind c) v (m_interrupted c) (co_body c) (co_path c).
Definition set_interrupted (v : bool) (c : coroutine) : coroutine :=
  make_coroutine (kind c) (status c) v (co_body c) (co_path c).
Definition set_path (v : list (option exn)) (c : coroutine) : coroutine :=
  make_coroutine (kind c) (status c) (m_interrupted c) (co_body c) v.

Definition at_coro (h : handle) (f : coroutine -> coroutine) (w : world) : world := set_coros (alter f h (coros w)) w.
Definition at_executor (ex : nat) (f : executor -> executor) (w : world) : world := set_executors (alter f ex (executors w)) w.
Definition set_queue (q : list task) (e : executor) : executor := make_executor (name e) (ex_kind e) (m_abort e) q.

Notation monad := (M exn world).

(** [return_value], [return_void] and [unhandled_exception], then
    [final_suspend]. *)
Definition finish (h : handle) (result : T + exn) : monad unit :=
  modify (at_coro h (fun c =>
    set_status (co_done (match kind c with pk_null_result => None | pk_result => Some result end)) c)).

(** The code of a functor: [*m_interrupted = true] and [m_caller_handle()],
    which needs a suspended coroutine. *)
Definition run_event (resume : handle -> monad unit) (ev : await_via_functor.event) : monad unit :=
  match ev with
  | await_via_functor.set_interrupted flag => modify (at_coro flag (set_interrupted true))
  | await_via_functor.resume h => resume h
  end.

Definition run_events (resume : handle -> monad unit) (evs : outcome exn (list await_via_functor.event)) : monad unit :=
  match evs with
  | Ok evs => mfor evs (run_event resume)
  | Throw e => throw e
  | Abort => abort
  end.

(** [task::operator()] on executor [ex]; the task is empty afterwards. *)
Definition call_task (resume : handle -> monad unit) (ex : nat) (t : task) : monad unit :=
  match t with
  | t_callable c =>
      modify (fun w => set_called (called w ++ [callable_id c]) w);;
      match invoke c tt with
      | inl _ => mret tt
      | inr e => if is_noexcept c then abort else throw e
      end
  | t_functor f =>
      match await_via_functor.m_caller_handle f with
      | Some h => modify (fun w => set_resumed_by (resumed_by w ++ [(h, ex)]) w)
      | None => mret tt
      end;;
      run_events resume (outcome_map snd (await_via_functor.call f))
  end.

(** [~task] of a task that was not called. *)
Definition destroy_task (resume : handle -> monad unit) (t : task) : monad unit :=
  match t with
  | t_callable _ => mret tt
  | t_functor f => run_events resume (await_via_functor.destruct_functor f)
  end.

(** [enqueue(task)]: an executor that was shut down throws, and the parameter
    is destroyed. *)
Definition enqueue (resume : handle -> monad unit) (ex : nat) (t : task) : monad unit :=
  w ← get_state;
  match executors w !! ex with
  | None => abort                      (* no such executor *)
  | Some e =>
      if m_abort e then destroy_task resume t;; throw (runtime_shutdown_exception (name e))
      else
        match ex_kind e with
        | inline_executor => call_task resume ex t
        | queueing_executor => modify (at_executor ex (fun e => set_queue (ex_queue e ++ [t]) e))
        end
  end.

(** What [post] is called with. *)
Inductive posted :=
  | post_callable {A : Type} (c : callable A)
  | post_functor (f : await_via_functor.t).

(** [do_post]: the functor is [noexcept]. *)
Definition bound (p : posted) : task :=
  match p with
  | post_callable c => t_callable (bind_with_try_catch c)
  | post_functor f => t_functor f
  end.
Definition do_post (resume : handle -> monad unit) (ex : nat) (p : posted) : monad unit :=
  enqueue resume ex (bound p).

(** [initial_scheduling_awaiter::await_suspend] and
    [resume_on_awaitable::await_suspend]. *)
Definition await_suspend (resume : handle -> monad unit) (ex : nat) (h : handle) : monad unit :=
  try_catch (do_post resume ex (post_functor (await_via_functor.construct h h))) (fun _ => mret tt).

(** [await_resume] of both awaiters: what it throws. *)
Definition await_resume (msg : string) (h : handle) : monad (option exn) :=
  w ← get_state;
  match coros w !! h with
  | Some c => mret (if m_interrupted c then Some (make_exn broken_task msg) else None)
  | None => abort
  end.

(** The coroutine is suspended: its awaiter is new. *)
Definition suspend (h : handle) (message : string) (k : option exn -> body) : monad unit :=
  modify (at_coro h (fun c => set_interrupted false (set_status (co_suspended message k) c))).

(** It goes on. *)
Definition awake (h : handle) (answer : option exn) : monad unit :=
  modify (at_coro h (fun c => set_path (co_path c ++ [answer]) (set_status co_running c))).

(** The code of coroutine [h] from [b] on, until it is suspended in an executor
    or done.  When the task is run or destroyed inside of [enqueue], the rest of
    the coroutine runs there. *)
Fixpoint run_body (h : handle) (b : body) : monad unit :=
  match b with
  | b_return v => finish h (inl v)
  | b_throw e => finish h (inr e)
  | b_resume_on None k =>
      let e := make_exn invalid_argument k_resume_on_null_exception_err_msg in
      awake h (Some e);; run_body h (k (Some e))
  | b_resume_on (Some ex) k =>
      suspend h k_broken_task_exception_error_msg k;;
      await_suspend (fun h' =>
        if decide (h' = h) then
          answer ← await_resume k_broken_task_exception_error_msg h;
          awake h answer;;
          run_body h (k answer)
        else abort) ex h
  | b_await k => modify (at_coro h (set_status (co_awaiting k)))
  end.

(** [coroutine_handle::resume]: a coroutine that is not suspended must not be
    resumed. *)
Definition resume (h : handle) : monad unit :=
  w ← get_state;
  match status <$> coros w !! h with
  | Some (co_suspended message k) =>
      answer ← await_resume message h;
      awake h answer;;
      run_body h (k answer)
  | _ => abort
  end.

(** What coroutine [h] awaits resumes it: once, as their own files show. *)
Definition wake (h : handle) (answer : option exn) : monad unit :=
  w ← get_state;
  match status <$> coros w !! h with
  | Some (co_awaiting k) => awake h answer;; run_body h (k answer)
  | _ => abort
  end.

(** ** Starting coroutines: [promises.h] *)

(** A new frame; the caller gets its handle in place of the result object. *)
Definition new_frame (pk : promise_kind) (b : body) : monad handle :=
  w ← get_state;
  put_state (set_coros (coros w ++ [make_coroutine pk co_running false b []]) w);;
  mret (length (coros w)).

(** [initialy_resumed_promise]: [suspend_never]. *)
Definition start_resumed (pk : promise_kind) (b : body) : monad handle :=
  h ← new_frame pk b;
  run_body h b;;
  mret h.

(** How a parallel coroutine names its executor: the overloads of the
    constructor of [initialy_rescheduled_promise]. *)
Inductive executor_argument :=
  | by_pointer (p : option nat)
  | by_reference (ex : nat)
  | by_shared_ptr (p : option nat)
  | by_shared_ptr_of_member (p : option nat).  (* the coroutine is a member function *)

Definition to_ref (p : option nat) : monad nat :=
  match p with
  | None => throw (make_exn invalid_argument k_parallel_coroutine_null_exception_err_msg)
  | Some ex => mret ex
  end.

Definition initialy_rescheduled_promise (a : executor_argument) : monad nat :=
  match a with
  | by_pointer p => to_ref p
  | by_reference ex => mret ex
  | by_shared_ptr p => to_ref p
  | by_shared_ptr_of_member p => match p with Some ex => mret ex | None => abort end
  end.

(** A coroutine that is first suspended in [initial_scheduling_awaiter]; what
    its [await_resume] throws goes to [unhandled_exception]. *)
Definition rescheduled (ex : nat) (b : body) : body :=
  b_resume_on (Some ex) (fun answer => match answer with None => b | Some e => b_throw e end).

Definition start_rescheduled (pk : promise_kind) (a : executor_argument) (b : body) : monad handle :=
  ex ← initialy_rescheduled_promise a;
  start_resumed pk (rescheduled ex b).

(** ** The interface of the executors *)

Definition post {A : Type} (ex : nat) (c : callable A) : monad unit := do_post resume ex (post_callable c).

(** [submit_bridge]: [co_return callable(arguments...)]. *)
Definition submit_bridge (c : callable T) : body :=
  match invoke c tt with inl v => b_return v | inr e => b_throw e end.

Definition submit (ex : nat) (c : callable T) : monad handle :=
  start_rescheduled pk_result (by_reference ex) (submit_bridge c).

(** The loop of [inline_executor::enqueue(std::span)], or the insertion of the
    others.  The tasks that stay with the caller come back with the outcome. *)
Fixpoint call_tasks (ex : nat) (ts : list task) : M exn world (list task * option exn) := fun w =>
  match ts with
  | [] => (Ok ([], None), w)
  | t :: ts =>
      match call_task resume ex t w with
      | (Ok _, w) => call_tasks ex ts w
      | (Throw e, w) => (Ok (ts, Some e), w)
      | (Abort, w) => (Abort, w)
      end
  end.

Definition enqueue_span (ex : nat) (ts : list task) : M exn world (list task * option exn) :=
  w ← get_state;
  match executors w !! ex with
  | None => abort
  | Some e =>
      if m_abort e then mret (ts, Some (runtime_shutdown_exception (name e)))
      else
        match ex_kind e with
        | inline_executor => call_tasks ex ts
        | queueing_executor =>
            modify (at_executor ex (fun e => set_queue (ex_queue e ++ ts) e));; mret ([], None)
        end
  end.

(** The local vector of tasks goes out of scope. *)
Definition with_tasks {A : Type} (ex : nat) (ts : list task) (a : A) : monad A :=
  '(rest, e) ← enqueue_span ex ts;
  mfor rest (destroy_task resume);;
  match e with None => mret a | Some e => throw e end.

Definition bulk_post {A : Type} (ex : nat) (cs : list (callable A)) : monad unit :=
  massert (negb (bool_decide (length cs = 0)));;
  with_tasks ex (map (fun c => bound (post_callable c)) cs) tt.

(** [bulk_submit_bridge]: a coroutine that is suspended in
    [accumulating_awaitable], whose message is empty, before its functor is given
    to executor [ex]. *)
Definition bulk_submit_bridge (ex : nat) (c : callable T) : monad handle :=
  h ← new_frame pk_result (rescheduled ex (submit_bridge c));
  suspend h EmptyString (fun answer => match answer with None => submit_bridge c | Some e => b_throw e end);;
  mret h.

Fixpoint bulk_bridges (ex : nat) (cs : list (callable T)) : monad (list handle) :=
  match cs with
  | [] => mret []
  | c :: cs => h ← bulk_submit_bridge ex c; hs ← bulk_bridges ex cs; mret (h :: hs)
  end.

Definition bulk_submit (ex : nat) (cs : list (callable T)) : monad (list handle) :=
  hs ← bulk_bridges ex cs;
  massert (negb (bool_decide (length hs = 0)));;
  with_tasks ex (map (fun h => t_functor (await_via_functor.construct h h)) hs) hs.

(** ** What a program does *)

Definition set_abort (e : executor) : executor := make_executor (name e) (ex_kind e) true (ex_queue e).

(** [inline_executor::shutdown]: a store. *)
Definition shutdown_inline (ex : nat) : monad unit := modify (at_executor ex set_abort).

(** [shutdown] of an executor with a queue, as [manual_executor] does it: the
    queue is moved out in the critical section that sets [m_abort], then its tasks
    are destroyed, one after the other. *)
Definition shutdown_queue (ex : nat) (q : list task) : monad unit :=
  modify (at_executor ex (fun e => set_queue [] (set_abort e)));;
  mfor q (destroy_task resume).

(** The virtual [executor::shutdown]. *)
Definition shutdown (ex : nat) : monad unit :=
  w ← get_state;
  match executors w !! ex with
  | None => abort
  | Some e =>
      match ex_kind e with
      | inline_executor => shutdown_inline ex
      | queueing_executor => shutdown_queue ex (ex_queue e)
      end
  end.

(** Executor [ex] takes its [i]th task out of the queue and calls it, or
    destroys it (as [manual_executor::clear] does). *)
Definition take_task (ex i : nat) : monad (option task) :=
  w ← get_state;
  match executors w !! ex ≫= (fun e => ex_queue e !! i) with
  | None => mret None
  | Some t => modify (at_executor ex (fun e => set_queue (delete i (ex_queue e)) e));; mret (Some t)
  end.

Definition run_task (ex i : nat) : monad unit :=
  t ← take_task ex i;
  match t with None => mret tt | Some t => call_task resume ex t end.

Definition drop_task (ex i : nat) : monad unit :=
  t ← take_task ex i;
  match t with None => mret tt | Some t => destroy_task resume t end.

(** The executors of a program are made by [make_executor] and the like. *)
Definition make_new_executor (n : string) (k : executor_kind) : monad unit :=
  modify (fun w => set_executors (executors w ++ [make_executor n k false []]) w).

Inductive operation :=
  | op_make_executor (n : string) (k : executor_kind)
  | op_post (ex : nat) (c : callable T)
  | op_bulk_post (ex : nat) (cs : list (callable T))
  | op_submit (ex : nat) (c : callable T)
  | op_bulk_submit (ex : nat) (cs : list (callable T))
  | op_start (pk : promise_kind) (b : body)
  | op_start_on (pk : promise_kind) (a : executor_argument) (b : body)
  | op_run (ex i : nat)
  | op_drop (ex i : nat)
  | op_shutdown (ex : nat)
  | op_wake (h : handle) (answer : option exn).

Definition perform (o : operation) : monad unit :=
  match o with
  | op_make_executor n k => make_new_executor n k
  | op_post ex c => post ex c
  | op_bulk_post ex cs => bulk_post ex cs
  | op_submit ex c => submit ex c;; mret tt
  | op_bulk_submit ex cs => bulk_submit ex cs;; mret tt
  | op_start pk b => start_resumed pk b;; mret tt
  | op_start_on pk a b => start_rescheduled pk a b;; mret tt
  | op_run ex i => run_task ex i
  | op_drop ex i => drop_task ex i
  | op_shutdown ex => shutdown ex
  | op_wake h answer => wake h answer
  end.

Definition new_world : world := make_world [] [] [] [].
End coroutines.
