(* ===== verification/CoroutinesProps.v ===== *)
(** * Where the coroutines are: the invariant of [Coroutines] *)

From Stdlib Require Import Lia.
From stdpp Require Import prelude list strings.
From S2P Require Import Prelude Errors ConsumerContext Coroutines.
#[local] Open Scope list_scope.

Section invariant.
Context {T : Type}.
Implicit Types w : world (T := T).
Implicit Types c : coroutine (T := T).
Implicit Types b : body (T := T).

(** Where a coroutine that began with [b] is after the given answers. *)
Fixpoint follow b (path : list (option exn)) {struct path} : option (body (T := T)) :=
  match path with
  | [] => Some b
  | answer :: path => match b with b_resume_on _ k | b_await k => follow (k answer) path | _ => None end
  end.

Definition current c : option (body (T := T)) := follow (co_body c) (co_path c).

(** The executors that resumed it on the way. *)
Fixpoint visited b (path : list (option exn)) {struct path} : list nat :=
  match path with
  | [] => []
  | answer :: path =>
      match b with
      | b_resume_on (Some ex) k => (match answer with None => [ex] | Some _ => [] end) ++ visited (k answer) path
      | b_resume_on None k | b_await k => visited (k answer) path
      | _ => []
      end
  end.

(** What an awaiter may answer: nothing or [broken_task], and
    [invalid_argument] for a null executor. *)
Definition legal_answer (ex : option nat) (answer : option exn) : Prop :=
  match ex, answer with
  | Some _, None => True
  | Some _, Some e => exn_cls e = broken_task
  | None, Some e => exn_cls e = invalid_argument
  | None, None => False
  end.

Fixpoint legal b (path : list (option exn)) {struct path} : Prop :=
  match path with
  | [] => True
  | answer :: path =>
      match b with
      | b_resume_on ex k => legal_answer ex answer /\ legal (k answer) path
      | b_await k => legal (k answer) path
      | _ => False
      end
  end.

Lemma legal_snoc b path ex k a :
  follow b path = Some (b_resume_on ex k) -> legal b path -> legal_answer ex a -> legal b (path ++ [a]).
Proof.
  revert b. induction path as [|x path IH]; intros b; cbn; [by intros [= ->]|].
  destruct b; try done; [|by intros; apply IH]. intros Hf [? ?] Ha. split; [done|]. by apply IH.
Qed.

Lemma legal_await b path k a : follow b path = Some (b_await k) -> legal b path -> legal b (path ++ [a]).
Proof.
  revert b. induction path as [|x path IH]; intros b; cbn; [by intros [= ->]|].
  destruct b; try done; [|by intros; apply IH]. intros Hf [? ?]. split; [done|]. by apply IH.
Qed.

Lemma follow_await b path k a : follow b path = Some (b_await k) -> follow b (path ++ [a]) = Some (k a).
Proof.
  revert b. induction path as [|x path IH]; intros b; cbn; [by intros [= ->]|].
  destruct b; try done; apply IH.
Qed.

Lemma visited_await b path k a : follow b path = Some (b_await k) -> visited b (path ++ [a]) = visited b path.
Proof.
  revert b. induction path as [|x path IH]; intros b; cbn; [by intros [= ->]|].
  destruct b as [| |[ex'|] k'|k']; try done; intros H; by rewrite (IH _ H).
Qed.

Lemma follow_snoc b path ex k a :
  follow b path = Some (b_resume_on ex k) -> follow b (path ++ [a]) = Some (k a).
Proof.
  revert b. induction path as [|x path IH]; intros b; cbn; [by intros [= ->]|].
  destruct b; try done; apply IH.
Qed.

Lemma visited_snoc b path ex k a :
  follow b path = Some (b_resume_on (Some ex) k) ->
  visited b (path ++ [a]) = visited b path ++ (match a with None => [ex] | Some _ => [] end).
Proof.
  revert b. induction path as [|x path IH]; intros b; cbn; [intros [= ->]; cbn; by rewrite app_nil_r|].
  destruct b as [| |[ex'|] k'|k']; try done; intros H.
  - rewrite (IH _ H). by rewrite app_assoc.
  - by rewrite (IH _ H).
  - by rewrite (IH _ H).
Qed.

Lemma visited_null b path k a :
  follow b path = Some (b_resume_on None k) -> visited b (path ++ [a]) = visited b path.
Proof.
  revert b. induction path as [|x path IH]; intros b; cbn; [by intros [= ->]|].
  destruct b as [| |[ex'|] k'|k']; try done; intros H; by rewrite (IH _ H).
Qed.

(** The functors of coroutine [h] among the tasks, and among the functors
    [held] that an operation is about to give to an executor. *)
Definition is_functor (h : handle) (t : task) : Prop := t = t_functor (await_via_functor.construct h h).
#[global] Instance is_functor_dec h t : Decision (is_functor h t).
Proof.
  destruct t as [c|[ch mi]]; [right; done|].
  destruct (decide (ch = Some h /\ mi = Some h)) as [[-> ->]|Hn]; [by left|right].
  intros [= -> ->]. by apply Hn.
Defined.
Definition occurrences (h : handle) (ts : list task) : nat := length (filter (is_functor h) ts).
Definition held_for (ex : nat) (h : handle) (held : list (nat * handle)) : nat :=
  length (filter (fun p => p = (ex, h)) held).

Definition queue_of (w : world (T := T)) (ex : nat) : list task := default [] (ex_queue <$> executors w !! ex).

Definition waits_for (ex : nat) c : bool :=
  match status c, current c with
  | co_suspended _ _, Some (b_resume_on (Some ex') _) => bool_decide (ex = ex')
  | _, _ => false
  end.

Definition quiet_callable (c : callable unit) : Prop := invoke c tt = inl tt.

(** The tasks a queue may hold. *)
Definition good_task (n : nat) (t : task) : Prop :=
  match t with t_callable c => quiet_callable c | t_functor f => exists h, h < n /\ f = await_via_functor.construct h h end.

(** The executors that a coroutine names exist. *)
Fixpoint wf_body (n : nat) b : Prop :=
  match b with
  | b_resume_on ex k => (match ex with Some ex => ex < n | None => True end) /\ forall a, wf_body n (k a)
  | b_await k => forall a, wf_body n (k a)
  | _ => True
  end.

Definition coroutine_ok (w : world (T := T)) (h : handle) c : Prop :=
  wf_body (length (executors w)) (co_body c) /\
  (snd <$> filter (fun p => p.1 = h) (resumed_by w)) = visited (co_body c) (co_path c) /\
  legal (co_body c) (co_path c) /\
  match status c with
  | co_running => True
  | co_suspended _ k => (exists ex, current c = Some (b_resume_on (Some ex) k)) /\ m_interrupted c = false
  | co_awaiting k => current c = Some (b_await k)
  | co_done r =>
      match current c with
      | Some (b_return v) => r = (if kind c then None else Some (inl v))
      | Some (b_throw e) => r = (if kind c then None else Some (inr e))
      | _ => False
      end
  end.

Record cinv (held : list (nat * handle)) (w : world (T := T)) : Prop := {
  i_executor : forall ex e, executors w !! ex = Some e ->
    (m_abort e = true \/ ex_kind e = inline_executor -> ex_queue e = []) /\
    Forall (good_task (length (coros w))) (ex_queue e);
  i_where : forall ex h c, coros w !! h = Some c ->
    occurrences h (queue_of w ex) + held_for ex h held = if waits_for ex c then 1 else 0;
  i_held : forall ex h, (ex, h) ∈ held -> h < length (coros w);
  i_resumed : forall h ex, (h, ex) ∈ resumed_by w -> h < length (coros w);
  i_coro : forall h c, coros w !! h = Some c -> coroutine_ok w h c
}.

Lemma held_for_cons ex h p held : held_for ex h (p :: held) = held_for ex h held + (if decide (p = (ex, h)) then 1 else 0).
Proof. unfold held_for. rewrite filter_cons. case_decide; simpl; lia. Qed.

Lemma held_for_app ex h l1 l2 : held_for ex h (l1 ++ l2) = held_for ex h l1 + held_for ex h l2.
Proof. unfold held_for. by rewrite list.filter_app, length_app. Qed.

Lemma occurrences_app h l1 l2 : occurrences h (l1 ++ l2) = occurrences h l1 + occurrences h l2.
Proof. unfold occurrences. by rewrite list.filter_app, length_app. Qed.

Lemma occurrences_functor h h' :
  occurrences h [t_functor (await_via_functor.construct h' h')] = if decide (h' = h) then 1 else 0.
Proof.
  unfold occurrences. rewrite filter_cons, filter_nil. unfold is_functor, await_via_functor.construct.
  case_decide as E1; case_decide as E2; try done; congruence.
Qed.

Lemma occurrences_callable h (f : callable unit) : occurrences h [t_callable f] = 0.
Proof. unfold occurrences. rewrite filter_cons, filter_nil. by rewrite decide_False. Qed.

Lemma alter_lookup {A} (f : A -> A) (l : list A) (i : nat) x : l !! i = Some x -> alter f i l = <[i := f x]> l.
Proof.
  intros H. apply list_eq. intros j. destruct (decide (i = j)) as [<-|Hn].
  - rewrite list_lookup_alter_eq, H, list_lookup_insert_eq; [done|]. by eapply lookup_lt_Some.
  - by rewrite list_lookup_alter_ne, list_lookup_insert_ne.
Qed.

Lemma at_coro_eq h f w c : coros w !! h = Some c -> at_coro h f w = set_coros (<[h := f c]> (coros w)) w.
Proof. intros H. unfold at_coro. by rewrite (alter_lookup _ _ _ c). Qed.

Lemma at_executor_eq ex f w e :
  executors w !! ex = Some e -> at_executor ex f w = set_executors (<[ex := f e]> (executors w)) w.
Proof. intros H. unfold at_executor. by rewrite (alter_lookup _ _ _ e). Qed.

Lemma coroutine_ok_same w w' h c :
  length (executors w') = length (executors w) ->
  filter (fun p => p.1 = h) (resumed_by w') = filter (fun p => p.1 = h) (resumed_by w) ->
  coroutine_ok w h c -> coroutine_ok w' h c.
Proof. intros H1 H2 (? & ? & ? & ?). unfold coroutine_ok. by rewrite H1, H2. Qed.

Lemma resumed_other h h' (exs : list nat) (l : list (handle * nat)) :
  h <> h' -> filter (fun p => p.1 = h') (l ++ ((h,.) <$> exs)) = filter (fun p => p.1 = h') l.
Proof.
  intros Hn. rewrite list.filter_app.
  assert (E : filter (fun p => p.1 = h') ((h,.) <$> exs) = []) by (induction exs as [|x exs IH]; [done|]; by rewrite fmap_cons, filter_cons, decide_False).
  by rewrite E, app_nil_r.
Qed.

Lemma resumed_same h (exs : list nat) (l : list (handle * nat)) :
  snd <$> filter (fun p => p.1 = h) (l ++ ((h,.) <$> exs)) = (snd <$> filter (fun p => p.1 = h) l) ++ exs.
Proof.
  rewrite list.filter_app, fmap_app. f_equal. induction exs as [|x exs IH]; [done|].
  rewrite fmap_cons, filter_cons, decide_True, fmap_cons by done. f_equal. exact IH.
Qed.

(** The coroutine [h] changes, and the functors that are held. *)
Lemma cinv_coro held held' w h c c' exs cl :
  cinv held w -> coros w !! h = Some c ->
  let w' := make_world (executors w) (<[h := c']> (coros w)) cl (resumed_by w ++ ((h,.) <$> exs)) in
  (forall ex, held_for ex h held' + (if waits_for ex c then 1 else 0) = held_for ex h held + (if waits_for ex c' then 1 else 0)) ->
  (forall ex h', h' <> h -> held_for ex h' held' = held_for ex h' held) ->
  (forall p, p ∈ held' -> p ∈ held \/ p.2 = h) ->
  coroutine_ok w' h c' -> cinv held' w'.
Proof.
  intros [He Hw Hh Hr Hc] Hlk w' H1 H2 H3 Hok. pose proof (lookup_lt_Some _ _ _ Hlk) as Hlt. split.
  - intros ex e Hex. simpl. rewrite length_insert. by apply He with ex.
  - intros ex h2 c2 H. change (queue_of w' ex) with (queue_of w ex). simpl in H.
    destruct (decide (h = h2)) as [<-|Hn].
    + rewrite list_lookup_insert_eq in H by done. injection H as <-. specialize (H1 ex). specialize (Hw ex h c Hlk). lia.
    + rewrite list_lookup_insert_ne in H by done. rewrite H2 by done. by apply Hw.
  - intros ex h2 [Hin| Hin]%H3; simpl; rewrite length_insert; [by eapply Hh|]. simpl in Hin. by subst.
  - intros h2 ex. simpl. rewrite length_insert, elem_of_app. intros [Hin|(x & [= -> _] & _)%list_elem_of_fmap]; [by eapply Hr|done].
  - intros h2 c2 H. simpl in H. destruct (decide (h = h2)) as [<-|Hn].
    + rewrite list_lookup_insert_eq in H by done. by injection H as <-.
    + rewrite list_lookup_insert_ne in H by done. eapply coroutine_ok_same; [| |by apply Hc]; [done|]. by apply resumed_other.
Qed.

(** The queue of executor [ex] changes, and the functors that are held. *)
Lemma cinv_queue held held' w ex e e' :
  cinv held w -> executors w !! ex = Some e ->
  (m_abort e' = true \/ ex_kind e' = inline_executor -> ex_queue e' = []) ->
  Forall (good_task (length (coros w))) (ex_queue e') ->
  (forall h, occurrences h (ex_queue e') + held_for ex h held' = occurrences h (ex_queue e) + held_for ex h held) ->
  (forall ex' h, ex' <> ex -> held_for ex' h held' = held_for ex' h held) ->
  (forall p, p ∈ held' -> p.2 < length (coros w)) ->
  cinv held' (set_executors (<[ex := e']> (executors w)) w).
Proof.
  intros [He Hw Hh Hr Hc] Hlk Hq Hg H1 H2 H3. pose proof (lookup_lt_Some _ _ _ Hlk) as Hlt. split.
  - intros ex2 e2 H. simpl in H. destruct (decide (ex = ex2)) as [<-|Hn].
    + rewrite list_lookup_insert_eq in H by done. by injection H as <-.
    + rewrite list_lookup_insert_ne in H by done. by apply He with ex2.
  - intros ex2 h c Hc2. simpl in Hc2. rewrite <-(Hw ex2 h c Hc2). unfold queue_of. simpl.
    destruct (decide (ex = ex2)) as [<-|Hn].
    + rewrite list_lookup_insert_eq by done. rewrite Hlk. apply H1.
    + rewrite list_lookup_insert_ne by done. by rewrite H2.
  - intros ex2 h Hin. by apply (H3 (ex2, h)).
  - exact Hr.
  - intros h c Hc2. eapply coroutine_ok_same; [| |by apply Hc]; [|done]. simpl. by rewrite length_insert.
Qed.

Lemma good_functor n h : h < n -> good_task n (t_functor (await_via_functor.construct h h)).
Proof. intros H. by exists h. Qed.

Lemma cinv_perm held held' w : cinv held w -> held ≡ₚ held' -> cinv held' w.
Proof.
  intros [He Hw Hh Hr Hc] Hp. split; try done.
  - intros ex h c H. rewrite <-(Hw ex h c H). unfold held_for. by rewrite Hp.
  - intros ex h Hin. apply (Hh ex). by rewrite Hp.
Qed.

(** The tasks of a queue, seen as held functors. *)
Definition functors_of (ex : nat) (ts : list task) : list (nat * handle) :=
  omap (fun t => match t with
    | t_functor f => (fun h => (ex, h)) <$> await_via_functor.m_caller_handle f
    | t_callable _ => None end) ts.

Lemma held_functors n ex h ts :
  Forall (good_task n) ts -> held_for ex h (functors_of ex ts) = occurrences h ts.
Proof.
  induction 1 as [|t ts Ht _ IH]; [done|]. change (t :: ts) with ([t] ++ ts) at 2. rewrite occurrences_app, <-IH.
  destruct t as [c|f]; simpl in Ht.
  - rewrite occurrences_callable. done.
  - destruct Ht as (h' & _ & ->). rewrite occurrences_functor.
    change (functors_of ex (t_functor (await_via_functor.construct h' h') :: ts)) with ((ex, h') :: functors_of ex ts).
    rewrite held_for_cons. destruct (decide (h' = h)) as [->|Hn]; [rewrite !decide_True by done|rewrite !decide_False by (first [done|by intros [= ->]])]; lia.
Qed.

Lemma held_functors_other ex ex' h ts : ex <> ex' -> held_for ex h (functors_of ex' ts) = 0.
Proof.
  intros Hn. induction ts as [|t ts IH]; [done|]. destruct t as [c|[[h'|] mi]]; [done| |done].
  change (functors_of ex' (t_functor (await_via_functor.make (Some h') mi) :: ts)) with ((ex', h') :: functors_of ex' ts).
  rewrite held_for_cons, IH, decide_False; [done|by intros [= -> _]].
Qed.

Lemma functors_bound n ex ts p : Forall (good_task n) ts -> p ∈ functors_of ex ts -> p.2 < n /\ p.1 = ex.
Proof.
  intros Hg (t & Ht & E)%list_elem_of_omap. rewrite list.Forall_forall in Hg. specialize (Hg t Ht).
  destruct t as [c|f]; [done|]. destruct Hg as (h & ? & ->). by injection E as <-.
Qed.

(** ** Running a coroutine *)

(** Coroutine [h] runs and does [b] next. *)
Definition runs (h : handle) b w : Prop :=
  exists c, coros w !! h = Some c /\ status c = co_running /\ current c = Some b.

Definition at_rest (h : handle) w : Prop := exists c, coros w !! h = Some c /\ status c <> co_running.

Definition attributes (w : world (T := T)) : list (string * executor_kind * bool) :=
  (fun e => (name e, ex_kind e, m_abort e)) <$> executors w.

(** From [w] to [w'] only coroutine [h] has moved. *)
Record only (h : handle) (w w' : world (T := T)) : Prop := {
  o_length : length (coros w') = length (coros w);
  o_other : forall h', h' <> h -> coros w' !! h' = coros w !! h';
  o_executors : attributes w' = attributes w;
  o_called : called w' = called w;
  o_frame : forall c, coros w !! h = Some c -> exists c', coros w' !! h = Some c' /\
    co_body c' = co_body c /\ kind c' = kind c /\ co_path c `prefix_of` co_path c'
}.

Lemma only_refl h w : only h w w.
Proof. split; try done. intros c H. by exists c. Qed.

Lemma only_trans h w1 w2 w3 : only h w1 w2 -> only h w2 w3 -> only h w1 w3.
Proof.
  intros [A1 A2 A3 A4 A5] [B1 B2 B3 B4 B5]. split; [congruence| |congruence|congruence|].
  - intros h' Hn. by rewrite B2, A2.
  - intros c (c2 & H2 & ? & ? & ?)%A5. destruct (B5 c2 H2) as (c3 & ? & ? & ? & ?). exists c3.
    split_ands; [congruence..|by etrans].
Qed.

Lemma only_coro h w c c' cl rs :
  coros w !! h = Some c -> co_body c' = co_body c -> kind c' = kind c -> co_path c `prefix_of` co_path c' -> cl = called w ->
  only h w (make_world (executors w) (<[h := c']> (coros w)) cl rs).
Proof.
  intros H Hb Hk Hp ->. split; simpl; try done.
  - apply length_insert.
  - intros h' Hn. by rewrite list_lookup_insert_ne.
  - intros c0 H0. exists c'. rewrite list_lookup_insert_eq by (by eapply lookup_lt_Some).
    rewrite H in H0. injection H0 as <-. by split_ands.
Qed.

Ltac moved_on := eapply only_coro; try done; first [done | by apply prefix_app_r].

Lemma attributes_length w w' : attributes w' = attributes w -> length (executors w') = length (executors w).
Proof. unfold attributes. intros H. apply (f_equal length) in H. by rewrite !length_fmap in H. Qed.

Lemma follow_app b path b' path' : follow b path = Some b' -> follow b (path ++ path') = follow b' path'.
Proof.
  revert b. induction path as [|a path IH]; intros b; [by intros [= <-]|].
  destruct b as [| |ex k|k]; try done; apply IH.
Qed.

Lemma wf_follow n b path b' : wf_body n b -> follow b path = Some b' -> wf_body n b'.
Proof.
  revert b. induction path as [|a path IH]; intros b Hb; [by intros [= <-]|].
  destruct b as [| |ex k|k]; try done; simpl; apply IH, Hb.
Qed.

(** A functor that is held belongs to a coroutine that waits for it. *)
Lemma waiting held w ex h :
  cinv ((ex, h) :: held) w ->
  exists c message k, coros w !! h = Some c /\ status c = co_suspended message k /\
    current c = Some (b_resume_on (Some ex) k) /\ m_interrupted c = false.
Proof.
  intros H. assert (Hlt : h < length (coros w)) by (apply (i_held _ _ H ex); left).
  apply lookup_lt_is_Some_2 in Hlt as [c Hc]. pose proof (i_where _ _ H ex h c Hc) as Hw.
  rewrite held_for_cons, decide_True in Hw by done. destruct (i_coro _ _ H h c Hc) as (_ & _ & _ & Hok).
  unfold waits_for in Hw. destruct (status c) as [|message k|k|] eqn:Es; [simpl in Hw; lia| |simpl in Hw; lia..].
  destruct Hok as [[ex0 Hcur] Hint]. rewrite Hcur in Hw. case_bool_decide as E; [|lia]. subst ex0.
  by exists c, message, k.
Qed.

(** What is recorded when a coroutine is answered. *)
Definition recorded (ex : nat) (answer : option exn) : list nat := match answer with None => [ex] | Some _ => [] end.

Definition answered (answer : option exn) (i : bool) c : coroutine :=
  make_coroutine (kind c) co_running i (co_body c) (co_path c ++ [answer]).

Lemma answer_inv held w ex h c message k answer i :
  cinv ((ex, h) :: held) w -> coros w !! h = Some c -> status c = co_suspended message k ->
  current c = Some (b_resume_on (Some ex) k) -> legal_answer (Some ex) answer ->
  let w' := make_world (executors w) (<[h := answered answer i c]> (coros w)) (called w)
              (resumed_by w ++ ((h,.) <$> recorded ex answer)) in
  cinv held w' /\ runs h (k answer) w' /\ only h w w'.
Proof.
  intros H Hc Hs Hcur Hans w'. pose proof (lookup_lt_Some _ _ _ Hc) as Hlt.
  assert (Hwait : forall ex', waits_for ex' c = bool_decide (ex' = ex)) by (intros ex'; unfold waits_for; by rewrite Hs, Hcur).
  split_ands.
  - eapply cinv_coro; [exact H|exact Hc| | | |].
    + intros ex'. rewrite Hwait. simpl. rewrite held_for_cons. unfold waits_for. simpl.
      destruct (decide (ex' = ex)) as [->|Hn].
      * rewrite bool_decide_eq_true_2, decide_True by done. lia.
      * rewrite bool_decide_eq_false_2, decide_False by (first [done|by intros [= ->]]). lia.
    + intros ex' h' Hn. rewrite held_for_cons, decide_False by (by intros [= _ ->]). lia.
    + intros p Hp. left. by right.
    + destruct (i_coro _ _ H h c Hc) as (Hwf & Hres & Hleg & _). unfold coroutine_ok. split_ands; [done| |by eapply legal_snoc|done].
      simpl. rewrite resumed_same, Hres. by rewrite (visited_snoc _ _ ex k).
  - exists (answered answer i c). simpl. rewrite list_lookup_insert_eq by done. split_ands; [done|done|].
    unfold current. simpl. by eapply follow_snoc.
  - by moved_on.
Qed.

(** The computation [m] moves coroutine [h] until it rests. *)
Definition moves (held : list (nat * handle)) (h : handle) (w : world (T := T)) (m : M exn (world (T := T)) unit) w0 : Prop :=
  exists w', m w0 = (Ok tt, w') /\ cinv held w' /\ only h w w' /\ at_rest h w'.

Definition body_spec (h : handle) b : Prop := forall held w,
  cinv held w -> runs h b w -> wf_body (length (executors w)) b -> moves held h w (run_body h b) w.

(** What a resumption does once the coroutine is known to be suspended. *)
Definition go_on (h : handle) (message : string) (k : option exn -> body) : M exn (world (T := T)) unit :=
  answer ← await_resume message h;
  awake h answer;;
  run_body h (k answer).

Lemma go_on_eq h message k w c :
  coros w !! h = Some c ->
  let answer := if m_interrupted c then Some (make_exn broken_task message) else None in
  go_on h message k w =
    run_body h (k answer) (set_coros (<[h := answered answer (m_interrupted c) c]> (coros w)) w).
Proof.
  intros Hc answer. unfold go_on, await_resume, awake, mbind, M_bind, get_state, modify, mret, M_ret. rewrite Hc.
  by rewrite (at_coro_eq _ _ _ c Hc).
Qed.

Lemma resume_eq h w c message k :
  coros w !! h = Some c -> status c = co_suspended message k -> resume h w = go_on h message k w.
Proof. intros Hc Hs. unfold resume, mbind, M_bind, get_state. by rewrite Hc, fmap_Some_2 with (x := c), Hs by done. Qed.

(** The two ways in which a suspended coroutine is resumed. *)
Definition when_called (ex : nat) (h : handle) w : world := set_resumed_by (resumed_by w ++ [(h, ex)]) w.
Definition when_destroyed (h : handle) w : world := at_coro h (set_interrupted true) w.

Lemma go_on_spec held w ex h c message k :
  cinv ((ex, h) :: held) w -> coros w !! h = Some c -> status c = co_suspended message k ->
  current c = Some (b_resume_on (Some ex) k) -> m_interrupted c = false -> (forall a, body_spec h (k a)) ->
  moves held h w (go_on h message k) (when_called ex h w) /\
  moves held h w (go_on h message k) (when_destroyed h w).
Proof.
  intros H Hc Hs Hcur Hi Hk. pose proof (lookup_lt_Some _ _ _ Hc) as Hlt.
  assert (Hwf : forall a, wf_body (length (executors w)) (k a)).
  { destruct (i_coro _ _ H h c Hc) as (Hwf & _). exact (proj2 (wf_follow _ _ _ _ Hwf Hcur)). }
  assert (Hmove : forall answer i w0, legal_answer (Some ex) answer -> go_on h message k w0 = run_body h (k answer)
      (make_world (executors w) (<[h := answered answer i c]> (coros w)) (called w) (resumed_by w ++ ((h,.) <$> recorded ex answer))) ->
      moves held h w (go_on h message k) w0).
  { intros answer i w0 Ha E. destruct (answer_inv held w ex h c message k answer i H Hc Hs Hcur Ha) as (H1 & H2 & H3).
    destruct (Hk answer held _ H1 H2 (Hwf answer)) as (w' & E' & H4 & H5 & H6). exists w'. rewrite E, E'.
    split_ands; try done. by eapply only_trans. }
  split.
  - apply (Hmove None false); [done|]. rewrite (go_on_eq _ _ _ _ c) by done. rewrite Hi. done.
  - apply (Hmove (Some (make_exn broken_task message)) true); [done|]. unfold when_destroyed. rewrite (at_coro_eq _ _ _ c Hc).
    rewrite (go_on_eq _ _ _ _ (set_interrupted true c)) by (by apply list_lookup_insert_eq).
    simpl. rewrite list_insert_insert_eq, app_nil_r. by destruct w.
Qed.

(** A function that resumes [h] can be given to an executor. *)
Definition wakes (r : handle -> M exn (world (T := T)) unit) (held : list (nat * handle)) (ex : nat) (h : handle) w : Prop :=
  moves held h w (r h) (when_called ex h w) /\ moves held h w (r h) (when_destroyed h w).

Lemma call_functor r ex h w :
  call_task r ex (t_functor (await_via_functor.construct h h)) w =
  match r h (when_called ex h w) with (Ok _, w') => (Ok tt, w') | x => x end.
Proof.
  unfold call_task, run_events, mfor, mbind, M_bind, mret, M_ret, modify. simpl. fold (when_called ex h w).
  by destruct (r h _) as [[[]| |] ?].
Qed.

Lemma destroy_functor r h w :
  destroy_task r (t_functor (await_via_functor.construct h h)) w =
  match r h (when_destroyed h w) with (Ok _, w') => (Ok tt, w') | x => x end.
Proof.
  unfold destroy_task, run_events, mfor, mbind, M_bind, mret, M_ret, modify. simpl. fold (when_destroyed h w).
  by destruct (r h _) as [[[]| |] ?].
Qed.

Lemma push_spec held w ex h e :
  cinv ((ex, h) :: held) w -> executors w !! ex = Some e -> m_abort e = false -> ex_kind e = queueing_executor ->
  let t := t_functor (await_via_functor.construct h h) in
  let w' := at_executor ex (fun e => set_queue (ex_queue e ++ [t]) e) w in
  cinv held w' /\ only h w w' /\ at_rest h w'.
Proof.
  intros H He Ha Hk t w'. destruct (waiting _ _ _ _ H) as (c & message & k & Hc & Hs & _).
  pose proof (lookup_lt_Some _ _ _ He) as Hlt. unfold w'. rewrite (at_executor_eq _ _ _ e He). split_ands.
  - eapply cinv_queue; [exact H|exact He| | | | |].
    + simpl. intros [?|?]; congruence.
    + simpl. apply Forall_app. split; [apply (i_executor _ _ H ex e He)|]. apply Forall_singleton, good_functor.
      apply (i_held _ _ H ex). left.
    + intros h'. simpl. rewrite occurrences_app. unfold t. rewrite occurrences_functor, held_for_cons.
      destruct (decide (h = h')) as [->|Hn]; [rewrite !decide_True by done|rewrite !decide_False by (first [done|by intros [= ->]])]; lia.
    + intros ex' h' Hn. rewrite held_for_cons, decide_False by (by intros [= -> _]). lia.
    + intros [ex' h'] Hin. apply (i_held _ _ H ex'). by right.
  - split; simpl; try done; [|intros c0 H0; by exists c0].
    unfold attributes. simpl. rewrite list_fmap_insert. apply list_insert_id. rewrite list_lookup_fmap, He. done.
  - exists c. split; [done|]. congruence.
Qed.

Lemma await_suspend_spec r held w ex h :
  cinv ((ex, h) :: held) w -> ex < length (executors w) -> wakes r held ex h w -> moves held h w (await_suspend r ex h) w.
Proof.
  intros H Hlt [(wc & Ec & Hc) (wd & Ed & Hd)]. apply lookup_lt_is_Some_2 in Hlt as [e He].
  unfold moves, await_suspend, do_post, bound, enqueue, try_catch, mbind, M_bind, get_state. rewrite He.
  destruct (m_abort e) eqn:Ea.
  - exists wd. rewrite destroy_functor, Ed. simpl. by split.
  - destruct (ex_kind e) eqn:Ek.
    + exists wc. rewrite call_functor, Ec. by split.
    + destruct (push_spec held w ex h e H He Ea Ek) as (H1 & H2 & H3). eexists. split; [reflexivity|]. by split_ands.
Qed.

(** The coroutine is suspended, and its functor is about to be made. *)
Lemma suspend_inv held w ex h message k :
  cinv held w -> runs h (b_resume_on (Some ex) k) w ->
  exists w' c, suspend h message k w = (Ok tt, w') /\ cinv ((ex, h) :: held) w' /\ only h w w' /\ executors w' = executors w /\
    coros w' !! h = Some c /\ status c = co_suspended message k /\ current c = Some (b_resume_on (Some ex) k) /\ m_interrupted c = false.
Proof.
  intros H (c & Hc & Hs & Hcur). pose proof (lookup_lt_Some _ _ _ Hc) as Hlt.
  set (c' := set_interrupted false (set_status (co_suspended message k) c)).
  set (w' := make_world (executors w) (<[h := c']> (coros w)) (called w) (resumed_by w ++ ((h,.) <$> []))).
  exists w', c'. split_ands; try done.
  - unfold suspend, modify. rewrite (at_coro_eq _ _ _ c Hc). unfold w'. simpl. by rewrite app_nil_r.
  - eapply cinv_coro; [exact H|exact Hc| | | |].
    + intros ex'. rewrite held_for_cons. unfold waits_for. rewrite Hs. change (current c') with (current c). rewrite Hcur. simpl.
      destruct (decide (ex' = ex)) as [->|Hn].
      * rewrite bool_decide_eq_true_2, decide_True by done. lia.
      * rewrite bool_decide_eq_false_2, decide_False by (first [done|by intros [= ->]]). lia.
    + intros ex' h' Hn. rewrite held_for_cons, decide_False by (by intros [= _ ->]). lia.
    + intros p [->|?]%elem_of_cons; [by right|by left].
    + destruct (i_coro _ _ H h c Hc) as (Hwf & Hres & Hleg & _). unfold coroutine_ok. split_ands; try done.
      * simpl. by rewrite app_nil_r.
      * change (status c') with (co_suspended message k). split; [exists ex; exact Hcur|done].
  - by moved_on.
  - simpl. by rewrite list_lookup_insert_eq.
Qed.

Lemma finish_spec held h o w b :
  cinv held w -> runs h b w -> b = (match o with inl v => b_return v | inr e => b_throw e end) ->
  moves held h w (finish h o) w.
Proof.
  intros H (c & Hc & Hs & Hcur) Hb. pose proof (lookup_lt_Some _ _ _ Hc) as Hlt.
  set (c' := set_status (co_done (match kind c with pk_null_result => None | pk_result => Some o end)) c).
  exists (make_world (executors w) (<[h := c']> (coros w)) (called w) (resumed_by w ++ ((h,.) <$> []))). split_ands.
  - unfold finish, modify. rewrite (at_coro_eq _ _ _ c Hc). simpl. by rewrite app_nil_r.
  - eapply cinv_coro; [exact H|exact Hc| |done|by left|].
    + intros ex. unfold waits_for. rewrite Hs. simpl. lia.
    + destruct (i_coro _ _ H h c Hc) as (Hwf & Hres & Hleg & _). unfold coroutine_ok. split_ands; try done.
      * simpl. by rewrite app_nil_r.
      * change (status c') with (co_done (match kind c with pk_null_result => None | pk_result => Some o end)).
        change (current c') with (current c). change (kind c') with (kind c). rewrite Hcur, Hb. by destruct o, (kind c).
  - by moved_on.
  - exists c'. simpl. rewrite list_lookup_insert_eq by done. split; [done|]. simpl. done.
Qed.

(** A coroutine that names a null executor is answered at once. *)
Lemma null_inv held h k a w :
  cinv held w -> runs h (b_resume_on None k) w -> exn_cls a = invalid_argument ->
  exists w', awake h (Some a) w = (Ok tt, w') /\ cinv held w' /\ runs h (k (Some a)) w' /\ only h w w' /\ executors w' = executors w.
Proof.
  intros H (c & Hc & Hs & Hcur) Ha. pose proof (lookup_lt_Some _ _ _ Hc) as Hlt.
  set (c' := set_path (co_path c ++ [Some a]) (set_status co_running c)).
  exists (make_world (executors w) (<[h := c']> (coros w)) (called w) (resumed_by w ++ ((h,.) <$> []))). split_ands.
  - unfold awake, modify. rewrite (at_coro_eq _ _ _ c Hc). simpl. by rewrite app_nil_r.
  - eapply cinv_coro; [exact H|exact Hc| |done|by left|].
    + intros ex. unfold waits_for. rewrite Hs. simpl. lia.
    + destruct (i_coro _ _ H h c Hc) as (Hwf & Hres & Hleg & _). unfold coroutine_ok. split_ands; try done.
      * simpl. rewrite app_nil_r, Hres. by rewrite (visited_null _ _ k).
      * by eapply legal_snoc.
  - exists c'. simpl. rewrite list_lookup_insert_eq by done. split_ands; [done|done|].
    unfold current. simpl. by eapply follow_snoc.
  - by moved_on.
  - done.
Qed.

(** A coroutine that awaits something else than an executor rests. *)
Lemma pause_spec held h k w :
  cinv held w -> runs h (b_await k) w -> moves held h w (modify (at_coro h (set_status (co_awaiting k)))) w.
Proof.
  intros H (c & Hc & Hs & Hcur). pose proof (lookup_lt_Some _ _ _ Hc) as Hlt.
  set (c' := set_status (co_awaiting k) c).
  exists (make_world (executors w) (<[h := c']> (coros w)) (called w) (resumed_by w ++ ((h,.) <$> []))). split_ands.
  - unfold modify. rewrite (at_coro_eq _ _ _ c Hc). simpl. by rewrite app_nil_r.
  - eapply cinv_coro; [exact H|exact Hc| |done|by left|].
    + intros ex. unfold waits_for. rewrite Hs. simpl. lia.
    + destruct (i_coro _ _ H h c Hc) as (Hwf & Hres & Hleg & _). unfold coroutine_ok. split_ands; try done.
      simpl. by rewrite app_nil_r.
  - by moved_on.
  - exists c'. simpl. rewrite list_lookup_insert_eq by done. by split.
Qed.

(** It is answered, and goes on. *)
Lemma wake_inv held h k a w c :
  cinv held w -> coros w !! h = Some c -> status c = co_awaiting k ->
  exists w', awake h a w = (Ok tt, w') /\ cinv held w' /\ runs h (k a) w' /\ only h w w' /\ executors w' = executors w.
Proof.
  intros H Hc Hs. pose proof (lookup_lt_Some _ _ _ Hc) as Hlt.
  destruct (i_coro _ _ H h c Hc) as (Hwf & Hres & Hleg & Hcur). rewrite Hs in Hcur.
  set (c' := set_path (co_path c ++ [a]) (set_status co_running c)).
  exists (make_world (executors w) (<[h := c']> (coros w)) (called w) (resumed_by w ++ ((h,.) <$> []))). split_ands.
  - unfold awake, modify. rewrite (at_coro_eq _ _ _ c Hc). simpl. by rewrite app_nil_r.
  - eapply cinv_coro; [exact H|exact Hc| |done|by left|].
    + intros ex. unfold waits_for. rewrite Hs. simpl. lia.
    + unfold coroutine_ok. split_ands; try done.
      * simpl. rewrite app_nil_r, Hres. by rewrite (visited_await _ _ k).
      * by eapply legal_await.
  - exists c'. simpl. rewrite list_lookup_insert_eq by done. split_ands; [done|done|].
    unfold current. simpl. by eapply follow_await.
  - by moved_on.
  - done.
Qed.

Lemma moves_only held h w1 w2 m w0 : only h w1 w2 -> moves held h w2 m w0 -> moves held h w1 m w0.
Proof. intros Ho (w' & ? & ? & ? & ?). exists w'. split_ands; try done. by eapply only_trans. Qed.

Lemma moves_step held h w (m : M exn (world (T := T)) unit) (m' : M exn (world (T := T)) unit) w0 w1 :
  m w0 = (Ok tt, w1) -> moves held h w m' w1 -> moves held h w (m;; m') w0.
Proof. intros E (w' & E' & H). exists w'. split; [|done]. unfold mbind, M_bind. by rewrite E. Qed.

(** A coroutine runs until it is suspended in the queue of an executor or done;
    nothing else changes. *)
Lemma run_body_spec h b : body_spec h b.
Proof.
  induction b as [v|e|[ex|] k IH|k IH]; intros held w H Hr Hwf; cbn [run_body].
  - by eapply finish_spec.
  - by eapply finish_spec.
  - destruct (suspend_inv held w ex h k_broken_task_exception_error_msg k H Hr) as (w1 & c & E1 & H1 & O1 & X1 & Hc & Hs & Hcur & Hi).
    eapply moves_step; [exact E1|]. eapply moves_only; [exact O1|].
    apply await_suspend_spec; [done|rewrite X1; apply Hwf|].
    unfold wakes. rewrite decide_True by done. by apply (go_on_spec held w1 ex h c _ k).
  - destruct (null_inv held h k (make_exn invalid_argument k_resume_on_null_exception_err_msg) w H Hr eq_refl) as (w1 & E1 & H1 & R1 & O1 & X1).
    eapply moves_step; [exact E1|]. eapply moves_only; [exact O1|]. apply IH; [done|done|]. rewrite X1. apply Hwf.
  - by apply pause_spec.
Qed.

(** Wherever it goes on to, it gets there from what it was answered. *)
Lemma wake_spec held h a k w c :
  cinv held w -> coros w !! h = Some c -> status c = co_awaiting k ->
  moves held h w (wake h a) w /\
  forall o w' c', wake h a w = (o, w') -> coros w' !! h = Some c' -> exists path, current c' = follow (k a) path.
Proof.
  intros H Hc Hs. destruct (wake_inv held h k a w c H Hc Hs) as (w1 & E1 & H1 & R1 & O1 & X1).
  destruct (i_coro _ _ H h c Hc) as (Hwf & _ & _ & Hcur). rewrite Hs in Hcur.
  assert (Hk : wf_body (length (executors w)) (b_await k)) by (by eapply wf_follow).
  destruct (run_body_spec h (k a) held w1 H1 R1) as (w2 & E2 & H2 & O2 & Hr); [rewrite X1; apply Hk|].
  assert (E : wake h a w = (Ok tt, w2)).
  { unfold wake, mbind at 1, M_bind at 1, get_state at 1. rewrite Hc. cbn [fmap option_fmap option_map]. rewrite Hs.
    unfold mbind, M_bind. rewrite E1. exact E2. }
  split; [exists w2; split_ands; [done|done|by eapply only_trans|done]|].
  intros o w' c' E' Hc'. rewrite E in E'. injection E' as <- <-. destruct R1 as (c1 & Hc1 & _ & Hcur1).
  destruct (o_frame _ _ _ O2 c1 Hc1) as (c2 & Hc2 & Hb & _ & [path Hp]). assert (c2 = c') as -> by congruence.
  exists path. unfold current in *. rewrite Hb, Hp. by apply follow_app.
Qed.

Lemma resume_wakes held w ex h : cinv ((ex, h) :: held) w -> wakes resume held ex h w.
Proof.
  intros H. destruct (waiting _ _ _ _ H) as (c & message & k & Hc & Hs & Hcur & Hi).
  pose proof (lookup_lt_Some _ _ _ Hc) as Hlt.
  destruct (go_on_spec held w ex h c message k H Hc Hs Hcur Hi (fun a => run_body_spec h (k a))) as [(w1 & E1 & R1) (w2 & E2 & R2)].
  split.
  - exists w1. split; [|done]. rewrite <-E1. by apply (resume_eq h _ c message k).
  - exists w2. split; [|done]. rewrite <-E2. apply (resume_eq h _ (set_interrupted true c) message k); [|done].
    unfold when_destroyed. rewrite (at_coro_eq _ _ _ c Hc). simpl. by apply list_lookup_insert_eq.
Qed.
End invariant.
