(* ===== verification/CoroutinesTheorems.v ===== *)
(** * What executors and coroutines guarantee together *)

From Stdlib Require Import Lia.
From stdpp Require Import prelude list strings.
From S2P Require Import Prelude Errors ConsumerContext Coroutines CoroutinesProps.
#[local] Open Scope list_scope.

Section operations.
Context {T : Type}.
Implicit Types w : world (T := T).
Implicit Types c : coroutine (T := T).
Implicit Types b : body (T := T).

(** From [w] to [w'] coroutines are added, and those at rest are at rest. *)
Record later (w w' : world (T := T)) : Prop := {
  l_length : length (coros w) <= length (coros w');
  l_frame : forall h c, coros w !! h = Some c -> exists c', coros w' !! h = Some c' /\
    co_body c' = co_body c /\ kind c' = kind c /\ (status c <> co_running -> status c' <> co_running);
  l_new : forall h c, length (coros w) <= h -> coros w' !! h = Some c -> status c <> co_running
}.

(** Besides, the executors are the same, and none is taken into service again. *)
Record steps (w w' : world (T := T)) : Prop := {
  s_executors : forall ex e, executors w !! ex = Some e -> exists e', executors w' !! ex = Some e' /\
    name e' = name e /\ ex_kind e' = ex_kind e /\ (m_abort e = true -> m_abort e' = true);
  s_count : length (executors w') = length (executors w);
  s_later : later w w'
}.

Lemma no_new (h : nat) (l : list (coroutine (T := T))) c : length l <= h -> l !! h = Some c -> status c <> co_running.
Proof. intros Hle H%lookup_lt_Some. lia. Qed.

Lemma same_coros_later w w' : coros w' = coros w -> later w w'.
Proof. intros E. split; rewrite E; [done| |intros h c; apply no_new]. intros h c H. by exists c. Qed.

Lemma steps_refl w : steps w w.
Proof. split; [|done|by apply same_coros_later]. intros ex e H. by exists e. Qed.

Lemma later_trans w1 w2 w3 : later w1 w2 -> later w2 w3 -> later w1 w3.
Proof.
  intros [A2 A3 A4] [B2 B3 B4]. split; [lia| |].
  - intros h c (c2 & H2 & ? & ? & ?)%A3. destruct (B3 h c2 H2) as (c3 & ? & ? & ? & ?). exists c3. split_ands; try congruence; auto.
  - intros h c Hle Hc. destruct (coros w2 !! h) as [c2|] eqn:H2.
    + destruct (B3 h c2 H2) as (c3 & H3 & _ & _ & Hr). assert (c3 = c) as -> by congruence. apply Hr. by apply (A4 h c2).
    + apply lookup_ge_None in H2. by apply (B4 h c).
Qed.

Lemma steps_trans w1 w2 w3 : steps w1 w2 -> steps w2 w3 -> steps w1 w3.
Proof.
  intros [A1 A2 A3] [B1 B2 B3]. split; [|congruence|by eapply later_trans].
  intros ex e (e2 & H2 & ? & ? & ?)%A1. destruct (B1 ex e2 H2) as (e3 & ? & ? & ? & ?). exists e3. split_ands; try congruence; auto.
Qed.

Lemma same_attributes w w' ex e :
  attributes w' = attributes w -> executors w !! ex = Some e -> exists e', executors w' !! ex = Some e' /\
    name e' = name e /\ ex_kind e' = ex_kind e /\ m_abort e' = m_abort e.
Proof.
  intros H He. assert (E : attributes w' !! ex = attributes w !! ex) by (by rewrite H). unfold attributes in E.
  rewrite !list_lookup_fmap, He in E. destruct (executors w' !! ex) as [e'|]; [|done]. injection E as E1 E2 E3. by exists e'.
Qed.

Lemma attributes_steps w w' : attributes w' = attributes w -> later w w' -> steps w w'.
Proof.
  intros H Hl. split; [|by apply attributes_length|done].
  intros ex e He. destruct (same_attributes w w' ex e H He) as (e' & ? & ? & ? & E). exists e'. split_ands; try done. by rewrite E.
Qed.

Lemma only_steps h w w' : only h w w' -> at_rest h w' -> steps w w'.
Proof.
  intros [A1 A2 A3 A4 A5] (c0 & H0 & Hr). apply attributes_steps; [done|]. split; [lia| |intros h' c Hle; apply no_new; by rewrite A1].
  intros h' c H. destruct (decide (h' = h)) as [->|Hn].
  - destruct (A5 c H) as (c' & ? & ? & ? & _). exists c'. split_ands; try done. intros _. congruence.
  - exists c. by rewrite A2.
Qed.

Lemma same_coros_steps w w' : attributes w' = attributes w -> coros w' = coros w -> steps w w'.
Proof. intros H1 H2. apply attributes_steps; [done|by apply same_coros_later]. Qed.

(** A computation that ends in a state with the invariant. *)
Definition does {A : Type} (held : list (nat * handle)) w (m : M exn (world (T := T)) A) (a : A) w0 : Prop :=
  exists w', m w0 = (Ok a, w') /\ cinv held w' /\ steps w w'.

Lemma does_bind {A B : Type} held held' w (m : M exn (world (T := T)) A) (k : A -> M exn (world (T := T)) B) (a : A) (y : B) :
  does held' w m a w -> (forall w', cinv held' w' -> steps w w' -> does held w' (k a) y w') -> does held w (m ≫= k) y w.
Proof.
  intros (w1 & E1 & H1 & S1) Hk. destruct (Hk w1 H1 S1) as (w2 & E2 & H2 & S2). exists w2.
  split_ands; [|done|by eapply steps_trans]. unfold mbind, M_bind. by rewrite E1.
Qed.

Definition held_tasks (ex : nat) (ts : list task) (held : list (nat * handle)) : list (nat * handle) := functors_of ex ts ++ held.

(** A callable in a task has been made safe. *)
Lemma bound_quiet {A : Type} (f : callable A) n :
  (is_noexcept f = true -> exists a, invoke f tt = inl a) -> good_task n (bound (post_callable f)).
Proof.
  intros H. simpl. unfold quiet_callable, bind_with_try_catch. destruct (is_noexcept f); simpl.
  - destruct (H eq_refl) as [a ->]. done.
  - by destruct (invoke f tt).
Qed.

Lemma moves_does held h w m w0 : moves held h w m w0 -> does held w m tt w0.
Proof. intros (w' & ? & ? & ? & ?). exists w'. split_ands; try done. by eapply only_steps. Qed.

Lemma called_inv held w cl : cinv held w -> cinv held (set_called cl w).
Proof. intros [H1 H2 H3 H4 H5]. by split. Qed.

Lemma call_task_spec held w ex t :
  cinv (held_tasks ex [t] held) w -> good_task (length (coros w)) t -> does held w (call_task resume ex t) tt w.
Proof.
  intros H Ht. destruct t as [f|f].
  - unfold does, call_task, mbind, M_bind, modify. simpl in Ht. rewrite Ht. eexists. split; [reflexivity|].
    split; [by apply called_inv|]. by apply same_coros_steps.
  - destruct Ht as (h & Hh & ->). destruct (resume_wakes held w ex h H) as [Hc _]. apply moves_does in Hc as (w' & E & ? & ?).
    exists w'. split; [|done]. by rewrite call_functor, E.
Qed.

Lemma destroy_task_spec held w ex t :
  cinv (held_tasks ex [t] held) w -> good_task (length (coros w)) t -> does held w (destroy_task resume t) tt w.
Proof.
  intros H Ht. destruct t as [f|f].
  - exists w. split_ands; [done|done|apply steps_refl].
  - destruct Ht as (h & Hh & ->). destruct (resume_wakes held w ex h H) as [_ Hc]. apply moves_does in Hc as (w' & E & ? & ?).
    exists w'. split; [|done]. by rewrite destroy_functor, E.
Qed.

Lemma good_more n n' t : n <= n' -> good_task n t -> good_task n' t.
Proof. intros Hn. destruct t as [f|f]; [done|]. intros (h & ? & ->). exists h. split; [lia|done]. Qed.

Lemma held_tasks_cons ex t ts held : held_tasks ex (t :: ts) held = held_tasks ex [t] (held_tasks ex ts held).
Proof. unfold held_tasks, functors_of. change (t :: ts) with ([t] ++ ts). by rewrite omap_app, <-app_assoc. Qed.

Lemma destroy_all_spec held w ex ts :
  cinv (held_tasks ex ts held) w -> Forall (good_task (length (coros w))) ts -> does held w (mfor ts (destroy_task resume)) tt w.
Proof.
  revert w. induction ts as [|t ts IH]; intros w H Hg; cbn [mfor].
  - exists w. split_ands; [done|done|apply steps_refl].
  - inversion_clear Hg as [|? ? Ht Hts]. rewrite held_tasks_cons in H.
    eapply does_bind; [by eapply destroy_task_spec|]. intros w' H' S'. apply IH; [done|].
    eapply Forall_impl; [exact Hts|]. intros t'. apply good_more, (s_later _ _ S').
Qed.

Lemma call_all_spec held w ex ts :
  cinv (held_tasks ex ts held) w -> Forall (good_task (length (coros w))) ts -> does held w (call_tasks ex ts) ([], None) w.
Proof.
  revert w. induction ts as [|t ts IH]; intros w H Hg.
  - exists w. split_ands; [done|done|apply steps_refl].
  - inversion_clear Hg as [|? ? Ht Hts]. rewrite held_tasks_cons in H.
    destruct (call_task_spec _ _ _ _ H Ht) as (w1 & E1 & H1 & S1).
    destruct (IH w1 H1) as (w2 & E2 & H2 & S2).
    { eapply Forall_impl; [exact Hts|]. intros t'. apply good_more, (s_later _ _ S1). }
    exists w2. split_ands; [|done|by eapply steps_trans]. cbn [call_tasks]. by rewrite E1.
Qed.

Lemma held_for_tasks n ex ex' h ts held :
  Forall (good_task n) ts -> held_for ex' h (held_tasks ex ts held) = (if decide (ex' = ex) then occurrences h ts else 0) + held_for ex' h held.
Proof.
  intros Hg. unfold held_tasks. rewrite held_for_app. case_decide as E; [subst; by erewrite held_functors|].
  by rewrite held_functors_other.
Qed.

Lemma push_all_spec held w ex e ts :
  cinv (held_tasks ex ts held) w -> executors w !! ex = Some e -> m_abort e = false -> ex_kind e = queueing_executor ->
  Forall (good_task (length (coros w))) ts ->
  does held w (modify (at_executor ex (fun e => set_queue (ex_queue e ++ ts) e))) tt w.
Proof.
  intros H He Ha Hk Hg. eexists. split; [reflexivity|]. rewrite (at_executor_eq _ _ _ e He). split.
  - eapply cinv_queue; [exact H|exact He| | | | |].
    + simpl. intros [?|?]; congruence.
    + simpl. apply Forall_app. split; [apply (i_executor _ _ H ex e He)|done].
    + intros h. simpl. rewrite occurrences_app. erewrite held_for_tasks by done. rewrite decide_True by done. lia.
    + intros ex' h Hn. erewrite held_for_tasks by done. by rewrite decide_False.
    + intros [ex' h] Hin. apply (i_held _ _ H ex'). apply elem_of_app. by right.
  - apply same_coros_steps; [|done]. unfold attributes. simpl. rewrite list_fmap_insert. apply list_insert_id.
    rewrite list_lookup_fmap, He. done.
Qed.

(** [m] returns, or throws in a way that [P] allows; it does not abort. *)
Definition ends {A : Type} w (m : M exn (world (T := T)) A) (P : exn -> Prop) (Q : A -> world (T := T) -> Prop) w0 : Prop :=
  exists o w', m w0 = (o, w') /\ cinv [] w' /\ steps w w' /\
    match o with Ok a => Q a w' | Throw e => P e | Abort => False end.

Lemma ends_bind {A B : Type} w (m : M exn (world (T := T)) A) (k : A -> M exn (world (T := T)) B) P Q (Q' : B -> world (T := T) -> Prop) w0 :
  ends w m P Q w0 -> (forall a w', cinv [] w' -> steps w w' -> Q a w' -> ends w' (k a) P Q' w') -> ends w (m ≫= k) P Q' w0.
Proof.
  intros (o & w1 & E1 & H1 & S1 & HQ) Hk. unfold ends, mbind, M_bind. rewrite E1. destruct o as [a|e|]; [|by exists (Throw e), w1|done].
  destruct (Hk a w1 H1 S1 HQ) as (o & w2 & E2 & H2 & S2 & HQ2). exists o, w2. split_ands; try done. by eapply steps_trans.
Qed.

Lemma does_ends {A : Type} w (m : M exn (world (T := T)) A) a P (Q : A -> world (T := T) -> Prop) w0 :
  does [] w m a w0 -> (forall w', steps w w' -> Q a w') -> ends w m P Q w0.
Proof. intros (w' & E & H & S) HQ. exists (Ok a), w'. split_ands; try done. by apply HQ. Qed.

Definition was_shut_down (w : world (T := T)) (ex : nat) (e : exn) : Prop :=
  exists x, executors w !! ex = Some x /\ m_abort x = true /\ e = runtime_shutdown_exception (name x).

(** [enqueue] of a callable. *)
Lemma enqueue_callable_spec w ex f :
  cinv [] w -> ex < length (executors w) -> quiet_callable f ->
  ends w (enqueue resume ex (t_callable f)) (was_shut_down w ex) (fun _ _ => True) w.
Proof.
  intros H Hlt Hf. pose proof Hlt as [e He]%lookup_lt_is_Some_2.
  unfold enqueue. unfold ends, mbind, M_bind, get_state. rewrite He. destruct (m_abort e) eqn:Ea.
  - eexists _, w. split; [reflexivity|]. split_ands; [done|apply steps_refl|]. by exists e.
  - destruct (ex_kind e) eqn:Ek.
    + destruct (call_task_spec [] w ex (t_callable f) H Hf) as (w' & E & H' & S'). exists (Ok tt), w'. by rewrite E.
    + destruct (push_all_spec [] w ex e [t_callable f]) as (w' & E & H' & S'); [exact H|done..|by apply Forall_singleton|].
      exists (Ok tt), w'. by rewrite E.
Qed.

(** A vector of tasks that is given to an executor. *)
Lemma with_tasks_spec {A : Type} w0 w ex ts (a : A) (Q : A -> world (T := T) -> Prop) :
  cinv (held_tasks ex ts []) w -> ex < length (executors w) -> Forall (good_task (length (coros w))) ts -> steps w0 w ->
  (forall w', steps w0 w' -> Q a w') -> ends w0 (with_tasks ex ts a) (was_shut_down w ex) Q w.
Proof.
  intros H Hlt Hg S0 HQ. pose proof Hlt as [e He]%lookup_lt_is_Some_2.
  unfold ends, with_tasks, enqueue_span. unfold mbind, M_bind, get_state, mret, M_ret. rewrite He. destruct (m_abort e) eqn:Ea.
  - destruct (destroy_all_spec [] w ex ts H Hg) as (w' & E & H' & S'). rewrite E.
    eexists _, w'. split; [reflexivity|]. split_ands; [done|by eapply steps_trans|]. by exists e.
  - destruct (ex_kind e) eqn:Ek.
    + destruct (call_all_spec [] w ex ts H Hg) as (w' & E & H' & S'). rewrite E. simpl.
      eexists _, w'. split; [reflexivity|]. assert (steps w0 w') by (by eapply steps_trans). split_ands; auto.
    + destruct (push_all_spec [] w ex e ts H He Ea Ek Hg) as (w' & E & H' & S'). rewrite E. simpl.
      eexists _, w'. split; [reflexivity|]. assert (steps w0 w') by (by eapply steps_trans). split_ands; auto.
Qed.

Lemma filter_none {A} (P : A -> Prop) {HP : forall x, Decision (P x)} (l : list A) :
  (forall x, x ∈ l -> ~ P x) -> filter P l = [].
Proof.
  induction l as [|x l IH]; intros H; [done|]. rewrite filter_cons, decide_False by (apply H; left).
  apply IH. intros y Hy. apply H. by right.
Qed.

(** A new coroutine. *)
Lemma new_frame_spec held w pk b :
  cinv held w -> wf_body (length (executors w)) b ->
  let c := make_coroutine pk co_running false b [] in
  exists w', new_frame pk b w = (Ok (length (coros w)), w') /\ cinv held w' /\ runs (length (coros w)) b w' /\
    executors w' = executors w /\ coros w' = coros w ++ [c].
Proof.
  intros H Hwf. set (c0 := make_coroutine pk co_running false b []).
  assert (Hlk : forall h c, (coros w ++ [c0]) !! h = Some c <-> coros w !! h = Some c \/ h = length (coros w) /\ c = c0).
  { intros h c. rewrite lookup_app_Some, list_lookup_singleton_Some. split.
    - intros [?|(? & ? & <-)]; [by left|right; split; [lia|done]].
    - intros [?|[-> ->]]; [by left|right; split_ands; [lia|lia|done]]. }
  exists (set_coros (coros w ++ [c0]) w). split_ands; try done.
  - destruct H as [He Hw Hh Hr Hc]. split; simpl.
    + intros ex e Hex. destruct (He ex e Hex) as [? Hg]. split; [done|]. eapply Forall_impl; [exact Hg|].
      intros t. apply good_more. rewrite length_app. lia.
    + intros ex h c [Hold|[-> ->]]%Hlk; [by apply Hw|].
      assert (E1 : held_for ex (length (coros w)) held = 0).
      { unfold held_for. rewrite filter_none; [done|]. intros p Hin ->. apply Hh in Hin. lia. }
      assert (E2 : occurrences (length (coros w)) (queue_of w ex) = 0).
      { unfold occurrences. rewrite filter_none; [done|]. intros t Hin ->. unfold queue_of in Hin.
        destruct (executors w !! ex) as [e|] eqn:Ex; [|by apply not_elem_of_nil in Hin].
        destruct (He ex e Ex) as [_ Hg]. rewrite list.Forall_forall in Hg. destruct (Hg _ Hin) as (h & Hlt & Eh). injection Eh as Eh. rewrite <-Eh in Hlt. by apply Nat.lt_irrefl in Hlt. }
      change (queue_of (set_coros (coros w ++ [c0]) w) ex) with (queue_of w ex). rewrite E1, E2. done.
    + intros ex h Hin. rewrite length_app. apply Hh in Hin. lia.
    + intros h ex Hin. rewrite length_app. apply Hr in Hin. lia.
    + intros h c [Hold|[-> ->]]%Hlk; [by apply Hc|]. unfold coroutine_ok. split_ands; try done. simpl.
      rewrite filter_none; [done|]. intros [h' ex] Hin Eh. simpl in Eh. apply Hr in Hin. lia.
  - exists c0. simpl. rewrite Hlk. split_ands; auto.
Qed.

(** It is created and moves until it rests. *)
Lemma new_steps w w1 w2 c0 :
  executors w1 = executors w -> coros w1 = coros w ++ [c0] -> only (length (coros w)) w1 w2 -> at_rest (length (coros w)) w2 -> steps w w2.
Proof.
  intros Hx Hc O [c2 [Hc2 Hr2]]. assert (Hn : length (coros w2) = S (length (coros w))).
  { rewrite (o_length _ _ _ O), Hc, length_app. simpl. lia. }
  apply attributes_steps; [rewrite (o_executors _ _ _ O); unfold attributes; by rewrite Hx|]. split; [lia| |].
  - intros h c H. exists c. split; [|done]. pose proof (lookup_lt_Some _ _ _ H).
    rewrite (o_other _ _ _ O) by lia. rewrite Hc. by apply lookup_app_l_Some.
  - intros h c Hle H. pose proof (lookup_lt_Some _ _ _ H). assert (h = length (coros w)) as -> by lia.
    pose proof (eq_trans (eq_sym Hc2) H) as [= ->]. done.
Qed.

(** A coroutine that starts with [b]: its frame afterwards. *)
Definition started (h : handle) (pk : promise_kind) b (w : world (T := T)) : Prop :=
  exists c, coros w !! h = Some c /\ co_body c = b /\ kind c = pk /\ status c <> co_running.

Lemma start_resumed_spec w pk b :
  cinv [] w -> wf_body (length (executors w)) b ->
  ends w (start_resumed pk b) (fun _ => False) (fun h w' => h = length (coros w) /\ started h pk b w') w.
Proof.
  intros H Hwf. destruct (new_frame_spec [] w pk b H Hwf) as (w1 & E1 & H1 & R1 & X1 & C1).
  destruct (run_body_spec _ b [] w1 H1 R1) as (w2 & E2 & H2 & O2 & Hrest); [by rewrite X1|].
  exists (Ok (length (coros w))), w2. split_ands.
  - unfold start_resumed, mbind, M_bind, mret, M_ret. by rewrite E1, E2.
  - done.
  - by eapply new_steps.
  - done.
  - destruct Hrest as (c2 & Hc2 & Hr2). destruct (o_frame _ _ _ O2 (make_coroutine pk co_running false b [])) as (c3 & Hc3 & ? & ? & _).
    { rewrite C1. by apply list_lookup_middle. }
    pose proof (eq_trans (eq_sym Hc2) Hc3) as [= ->]. by exists c3.
Qed.

Lemma wf_rescheduled n ex b : ex < n -> wf_body n b -> wf_body n (rescheduled ex b).
Proof. intros Hex Hb. split; [done|]. by intros [e|]. Qed.

Lemma wf_submit_bridge n (f : callable T) : wf_body n (submit_bridge f).
Proof. unfold submit_bridge. by destruct (invoke f tt). Qed.

Lemma started_later w w' h pk b : later w w' -> started h pk b w -> started h pk b w'.
Proof.
  intros S (c & Hc & Hb & Hk & Hr). destruct (l_frame _ _ S h c Hc) as (c' & ? & ? & ? & ?). exists c'. split_ands; [done|congruence..|auto].
Qed.

(** [bulk_submit_bridge], for each callable. *)
Lemma bulk_bridges_spec held w ex fs :
  cinv held w -> ex < length (executors w) ->
  exists hs w', bulk_bridges ex fs w = (Ok hs, w') /\ cinv (((ex,.) <$> hs) ++ held) w' /\ steps w w' /\
    executors w' = executors w /\ length hs = length fs /\ Forall (fun h => h < length (coros w')) hs /\
    Forall2 (fun h f => started h pk_result (rescheduled ex (submit_bridge f)) w') hs fs.
Proof.
  revert held w. induction fs as [|f fs IH]; intros held w H Hex.
  { exists [], w. split_ands; try done. apply steps_refl. }
  destruct (new_frame_spec held w pk_result (rescheduled ex (submit_bridge f)) H) as (w1 & E1 & H1 & R1 & X1 & C1).
  { apply wf_rescheduled; [done|apply wf_submit_bridge]. }
  destruct (suspend_inv held w1 ex (length (coros w)) EmptyString _ H1 R1) as (w2 & c2 & E2 & H2 & O2 & X2 & Hc2 & Hs2 & _ & _).
  destruct (IH _ w2 H2) as (hs & w3 & E3 & H3 & S3 & X3 & L3 & B3 & F3); [by rewrite X2, X1|].
  assert (S2 : steps w w2) by (eapply new_steps; [exact X1|exact C1|exact O2|]; exists c2; split; [done|congruence]).
  exists (length (coros w) :: hs), w3. split_ands.
  - cbn [bulk_bridges]. unfold bulk_submit_bridge, mbind, M_bind, mret, M_ret. rewrite E1.
    unfold rescheduled in E2. rewrite E2. by rewrite E3.
  - rewrite fmap_cons. eapply cinv_perm; [exact H3|]. by rewrite <-Permutation_middle.
  - by eapply steps_trans.
  - by rewrite X3, X2.
  - simpl. by rewrite L3.
  - constructor; [|done]. pose proof (l_length _ _ (s_later _ _ S3)) as Hle. rewrite (o_length _ _ _ O2), C1, length_app in Hle. simpl in Hle. lia.
  - constructor; [|done]. destruct (o_frame _ _ _ O2 (make_coroutine pk_result co_running false (rescheduled ex (submit_bridge f)) [])) as (c3 & Hc3 & Hb3 & Hk3 & _).
    { rewrite C1. by apply list_lookup_middle. }
    pose proof (eq_trans (eq_sym Hc2) Hc3) as [= ->].
    apply (started_later w2 w3); [apply S3|]. exists c3. split_ands; [exact Hc3|by rewrite Hb3|by rewrite Hk3|by rewrite Hs2].
Qed.

(** Taking a task out of a queue. *)
Lemma take_task_spec w ex i :
  cinv [] w ->
  exists o w', take_task ex i w = (Ok o, w') /\ steps w w' /\
    match o with
    | None => cinv [] w'
    | Some t => cinv (held_tasks ex [t] []) w' /\ good_task (length (coros w')) t
    end.
Proof.
  intros H. unfold take_task, mbind, M_bind, get_state, mret, M_ret, modify.
  destruct (executors w !! ex) as [e|] eqn:He; simpl; [|exists None, w; split_ands; [done|apply steps_refl|done]].
  destruct (ex_queue e !! i) as [t|] eqn:Ht; [|exists None, w; split_ands; [done|apply steps_refl|done]].
  destruct (i_executor _ _ H ex e He) as [Hq Hg].
  assert (Hgt : good_task (length (coros w)) t) by (rewrite list.Forall_forall in Hg; apply Hg; by eapply list_elem_of_lookup_2).
  assert (Hperm : ex_queue e ≡ₚ t :: delete i (ex_queue e)) by (by apply delete_Permutation).
  exists (Some t), (at_executor ex (fun e => set_queue (delete i (ex_queue e)) e) w). rewrite (at_executor_eq _ _ _ e He).
  split_ands; [done| | |done].
  - apply same_coros_steps; [|done]. unfold attributes. simpl. rewrite list_fmap_insert. apply list_insert_id.
    rewrite list_lookup_fmap, He. done.
  - eapply cinv_queue; [exact H|exact He| | | | |].
    + simpl. intros Ha. rewrite (Hq Ha) in Ht. done.
    + simpl. rewrite Hperm in Hg. by inversion Hg.
    + intros h. erewrite held_for_tasks by (by apply Forall_singleton). rewrite decide_True by done. simpl.
      unfold occurrences. rewrite Hperm at 2. rewrite !filter_cons, filter_nil. case_decide; simpl; lia.
    + intros ex' h Hn. erewrite held_for_tasks by (by apply Forall_singleton). by rewrite decide_False.
    + intros p Hp. apply elem_of_app in Hp as [Hp|Hp]; [|by apply not_elem_of_nil in Hp].
      eapply (functors_bound _ ex [t]); [by apply Forall_singleton|done].
Qed.

(** An executor is put out of service and its queue is emptied. *)
Lemma put_out_of_service w ex e (f : executor -> executor) held :
  cinv [] w -> executors w !! ex = Some e -> f e = make_executor (name e) (ex_kind e) true [] ->
  held = held_tasks ex (ex_queue e) [] ->
  exists w1, (modify (at_executor ex f) : M exn (world (T := T)) unit) w = (Ok tt, w1) /\ cinv held w1 /\ steps w w1 /\ coros w1 = coros w /\
    executors w1 !! ex = Some (f e).
Proof.
  intros H He Hf ->. pose proof (lookup_lt_Some _ _ _ He) as Hex. destruct (i_executor _ _ H ex e He) as [_ Hg].
  eexists. split; [reflexivity|]. rewrite (at_executor_eq _ _ _ e He), Hf. split_ands; [| |done|by apply list_lookup_insert_eq].
  - eapply cinv_queue; [exact H|exact He|done|done| | |].
    + intros h. erewrite held_for_tasks by done. rewrite decide_True by done. simpl. lia.
    + intros ex' h Hn. erewrite held_for_tasks by done. by rewrite decide_False.
    + intros p Hp. apply elem_of_app in Hp as [Hp|Hp]; [|by apply not_elem_of_nil in Hp]. by eapply functors_bound.
  - split; [|simpl; by rewrite length_insert|by apply same_coros_later]. intros ex' e' He'. simpl. destruct (decide (ex = ex')) as [<-|Hn].
    + exists (make_executor (name e) (ex_kind e) true []). rewrite list_lookup_insert_eq by done. assert (e' = e) as -> by congruence. done.
    + exists e'. by rewrite list_lookup_insert_ne.
Qed.

Lemma executor_shutdown_spec w ex :
  cinv [] w -> ex < length (executors w) ->
  exists w', shutdown ex w = (Ok tt, w') /\ cinv [] w' /\ steps w w' /\ exists e', executors w' !! ex = Some e' /\ m_abort e' = true.
Proof.
  intros H Hex. pose proof Hex as [e He]%lookup_lt_is_Some_2. destruct (i_executor _ _ H ex e He) as [Hq Hg].
  unfold shutdown, mbind at 1, M_bind at 1, get_state. rewrite He. destruct (ex_kind e) eqn:Ek.
  - assert (Eq : ex_queue e = []) by (by apply Hq; right).
    destruct (put_out_of_service w ex e set_abort [] H He) as (w1 & E1 & H1 & S1 & _ & He1).
    { unfold set_abort. by rewrite Eq. }
    { by rewrite Eq. }
    exists w1. split_ands; [done..|]. by exists (set_abort e).
  - destruct (put_out_of_service w ex e (fun e => set_queue [] (set_abort e)) _ H He eq_refl eq_refl) as (w1 & E1 & H1 & S1 & C1 & He1).
    destruct (destroy_all_spec [] w1 ex (ex_queue e) H1) as (w2 & E2 & H2 & S2); [by rewrite C1|]. exists w2.
    split_ands; [|done|by eapply steps_trans|].
    + unfold shutdown_queue, mbind, M_bind. rewrite E1. exact E2.
    + destruct (s_executors _ _ S2 ex _ He1) as (e2 & He2 & _ & _ & Ha). exists e2. auto.
Qed.

Lemma wf_body_more n n' b : n <= n' -> wf_body n b -> wf_body n' b.
Proof.
  intros Hn. induction b as [v|e|ex k IH|k IH]; simpl; try done; [|intros Hk a; by apply IH].
  intros [Hex Hk]. split; [destruct ex; [lia|done]|]. intros a. apply IH, Hk.
Qed.

Lemma make_executor_spec w n k :
  cinv [] w -> exists w', make_new_executor n k w = (Ok tt, w') /\ cinv [] w' /\ later w w'.
Proof.
  intros [He Hw Hh Hr Hc]. set (e0 := make_executor n k false []).
  assert (Hlk : forall ex e, (executors w ++ [e0]) !! ex = Some e -> executors w !! ex = Some e \/ e = e0).
  { intros ex e [?|[_ [_ <-]%list_lookup_singleton_Some]]%lookup_app_Some; auto. }
  exists (set_executors (executors w ++ [e0]) w). split_ands; [done| |].
  - split; simpl; try done.
    + intros ex e [?| ->]%Hlk; [by apply He with ex|]. split; [done|by constructor].
    + intros ex h c Hlc. rewrite <-(Hw ex h c Hlc). f_equal. f_equal. unfold queue_of. simpl.
      destruct (decide (ex < length (executors w))) as [Hlt|Hge]; [by rewrite lookup_app_l|].
      rewrite lookup_app_r by lia. rewrite (proj2 (lookup_ge_None (executors w) ex)) by lia.
      by destruct (ex - length (executors w)) as [|[|]].
    + intros h c (Hwf & Hres & Hleg & Hst)%Hc. unfold coroutine_ok. split_ands; [|done|done|done].
      eapply wf_body_more; [|exact Hwf]. simpl. rewrite length_app. lia.
  - by apply same_coros_later.
Qed.

(** ** Operations *)

(** A callable that is declared [noexcept] does not throw. *)
Definition honest {A : Type} (f : callable A) : Prop := is_noexcept f = true -> exists a, invoke f tt = inl a.

Definition executor_of (a : executor_argument) : option nat :=
  match a with by_pointer p | by_shared_ptr p | by_shared_ptr_of_member p => p | by_reference ex => Some ex end.

(** Coroutine [h] is suspended in something that is no executor. *)
Definition awaits (w : world (T := T)) (h : handle) : Prop :=
  exists c k, coros w !! h = Some c /\ status c = co_awaiting k.

(** The operations the interface allows: the executors exist, a bulk is not
    empty, the executor of a member coroutine is not null, and what a coroutine
    awaits resumes it while it is suspended there. *)
Definition op_ok (w : world (T := T)) (o : operation (T := T)) : Prop :=
  let n := length (executors w) in
  match o with
  | op_make_executor _ _ | op_run _ _ | op_drop _ _ => True
  | op_post ex f => ex < n /\ honest f
  | op_bulk_post ex fs => ex < n /\ fs <> [] /\ Forall honest fs
  | op_submit ex _ | op_shutdown ex => ex < n
  | op_bulk_submit ex fs => ex < n /\ fs <> []
  | op_start _ b => wf_body n b
  | op_start_on _ a b => wf_body n b /\ (match executor_of a with Some ex => ex < n | None => True end) /\ a <> by_shared_ptr_of_member None
  | op_wake h _ => awaits w h
  end.

(** What an operation may throw. *)
Definition may_throw (w : world (T := T)) (o : operation (T := T)) (e : exn) : Prop :=
  match o with
  | op_post ex _ | op_bulk_post ex _ | op_bulk_submit ex _ => was_shut_down w ex e
  | op_start_on _ a _ => executor_of a = None /\ e = make_exn invalid_argument k_parallel_coroutine_null_exception_err_msg
  | _ => False
  end.

Definition ends_well w (o : operation (T := T)) : Prop :=
  exists r w', perform o w = (r, w') /\ cinv [] w' /\ later w w' /\
    match r with Ok _ => True | Throw e => may_throw w o e | Abort => False end.

Lemma ends_ends_well w o : ends w (perform o) (may_throw w o) (fun _ _ => True) w -> ends_well w o.
Proof. intros (r & w' & E & H & S & HQ). exists r, w'. split_ands; [done|done|apply S|by destruct r]. Qed.

(** The operations that make no executor. *)
Definition makes_executor (o : operation (T := T)) : bool := match o with op_make_executor _ _ => true | _ => false end.

Lemma ends_then {A : Type} w (m : M exn (world (T := T)) A) P Q :
  ends w m P Q w -> ends w (m ≫= fun _ => mret tt) P (fun _ _ => True) w.
Proof.
  intros (o & w' & E & H & S & HQ). unfold ends, mbind, M_bind. rewrite E. destruct o as [a|e|]; [|by exists (Throw e), w'|done].
  by exists (Ok tt), w'.
Qed.

Lemma ends_weaken {A : Type} w (m : M exn (world (T := T)) A) (P P' : exn -> Prop) Q w0 :
  (forall e, P e -> P' e) -> ends w m P Q w0 -> ends w m P' Q w0.
Proof. intros HP (o & w' & E & H & S & HQ). exists o, w'. split_ands; try done. destruct o; auto. Qed.

Lemma start_rescheduled_spec w pk a b :
  cinv [] w -> wf_body (length (executors w)) b -> a <> by_shared_ptr_of_member None ->
  (match executor_of a with Some ex => ex < length (executors w) | None => True end) ->
  ends w (start_rescheduled pk a b)
    (fun e => executor_of a = None /\ e = make_exn invalid_argument k_parallel_coroutine_null_exception_err_msg)
    (fun h w' => h = length (coros w) /\ exists ex, executor_of a = Some ex /\ started h pk (rescheduled ex b) w') w.
Proof.
  intros H Hb Ha Hex.
  assert (Hsome : forall ex, executor_of a = Some ex -> initialy_rescheduled_promise a w = (Ok ex, w)).
  { destruct a as [[ex|]|ex|[ex|]|[ex|]]; intros ex' [= <-]; done. }
  destruct (executor_of a) as [ex|] eqn:E.
  - destruct (start_resumed_spec w pk (rescheduled ex b) H) as (o & w' & E' & H' & S' & HQ); [by apply wf_rescheduled|].
    destruct o as [h| |]; [|done|done]. exists (Ok h), w'. split_ands; try done; [|apply HQ|exists ex; by split; [|apply HQ]].
    unfold start_rescheduled, mbind, M_bind. by rewrite (Hsome ex eq_refl).
  - exists (Throw (make_exn invalid_argument k_parallel_coroutine_null_exception_err_msg)), w. split_ands; try done; [|apply steps_refl].
    unfold start_rescheduled, mbind, M_bind. destruct a as [[ex|]|ex|[ex|]|[ex|]]; done.
Qed.

Lemma submit_spec w ex f :
  cinv [] w -> ex < length (executors w) ->
  exists w', submit ex f w = (Ok (length (coros w)), w') /\ cinv [] w' /\ steps w w' /\
    started (length (coros w)) pk_result (rescheduled ex (submit_bridge f)) w'.
Proof.
  intros H Hex. destruct (start_rescheduled_spec w pk_result (by_reference ex) (submit_bridge f) H) as (o & w' & E & H' & S' & HQ);
    [apply wf_submit_bridge|done|done|].
  destruct o as [h|e|]; [|destruct HQ; done|done]. destruct HQ as [-> (ex' & [= <-] & Hst)]. by exists w'.
Qed.

Lemma bulk_post_spec {A : Type} w ex (fs : list (callable A)) :
  cinv [] w -> ex < length (executors w) -> fs <> [] -> Forall honest fs ->
  ends w (bulk_post ex fs) (was_shut_down w ex) (fun _ _ => True) w.
Proof.
  intros H Hex Hne Hh. unfold bulk_post. unfold ends, mbind at 1, M_bind at 1, massert.
  rewrite bool_decide_eq_false_2 by (by destruct fs). cbn [negb].
  assert (Hf : functors_of ex (map (fun f => bound (post_callable f)) fs) = []) by (induction fs as [|f fs IH]; [done|]; by destruct fs; [|apply IH; [|inversion_clear Hh]]).
  apply with_tasks_spec; [by unfold held_tasks; rewrite Hf|done| |apply steps_refl|done].
  apply list.Forall_forall. intros t (f & -> & Hin)%list_elem_of_fmap. rewrite list.Forall_forall in Hh. apply bound_quiet. by apply Hh.
Qed.

Lemma functors_of_handles ex hs :
  functors_of ex (map (fun h => t_functor (await_via_functor.construct h h)) hs) = (ex,.) <$> hs.
Proof.
  induction hs as [|h hs IH]; [done|]. cbn [map]. rewrite fmap_cons.
  change (functors_of ex (t_functor (await_via_functor.construct h h) :: map (fun h => t_functor (await_via_functor.construct h h)) hs))
    with ((ex, h) :: functors_of ex (map (fun h => t_functor (await_via_functor.construct h h)) hs)). by f_equal.
Qed.

Lemma bulk_submit_spec w ex fs :
  cinv [] w -> ex < length (executors w) -> fs <> [] ->
  ends w (bulk_submit ex fs) (was_shut_down w ex)
    (fun hs w' => Forall2 (fun h f => started h pk_result (rescheduled ex (submit_bridge f)) w') hs fs) w.
Proof.
  intros H Hex Hne. destruct (bulk_bridges_spec [] w ex fs H Hex) as (hs & w1 & E1 & H1 & S1 & X1 & L1 & B1 & F1).
  assert (Hnn : length hs <> 0) by (rewrite L1; by destruct fs).
  destruct (with_tasks_spec w1 w1 ex (map (fun h => t_functor (await_via_functor.construct h h)) hs) hs
    (fun hs' w' => Forall2 (fun h f => started h pk_result (rescheduled ex (submit_bridge f)) w') hs' fs)) as (o & w2 & E2 & H2 & S2 & HQ).
  - unfold held_tasks. by rewrite functors_of_handles.
  - by rewrite X1.
  - apply list.Forall_forall. intros t (h & -> & Hin)%list_elem_of_fmap. rewrite list.Forall_forall in B1. apply good_functor. by apply B1.
  - apply steps_refl.
  - intros w' S'. eapply Forall2_impl; [exact F1|]. intros h f. apply started_later, S'.
  - exists o, w2. split_ands; [|done|by eapply steps_trans|].
    + unfold bulk_submit. unfold mbind at 1, M_bind at 1. rewrite E1. unfold mbind, M_bind, massert.
      rewrite bool_decide_eq_false_2 by done. cbn [negb]. exact E2.
    + destruct o; try done. destruct HQ as (x & ? & ? & ?). exists x. by rewrite <-X1.
Qed.

Lemma perform_ends w o :
  cinv [] w -> op_ok w o -> makes_executor o = false -> ends w (perform o) (may_throw w o) (fun _ _ => True) w.
Proof.
  intros H Hok Hm. destruct o as [n k|ex f|ex fs|ex f|ex fs|pk b|pk a b|ex i|ex i|ex|h a]; cbn [perform].
  - done.
  - destruct Hok as [Hex Hf]. apply enqueue_callable_spec; [done|done|]. apply (bound_quiet f 0 Hf).
  - destruct Hok as (Hex & Hne & Hf). by apply bulk_post_spec.
  - destruct (submit_spec w ex f H Hok) as (w' & E & H' & S' & _). exists (Ok tt), w'. split_ands; try done.
    unfold mbind, M_bind. by rewrite E.
  - destruct Hok as [Hex Hne]. eapply ends_then. by apply bulk_submit_spec.
  - eapply ends_then. by apply start_resumed_spec.
  - destruct Hok as (Hb & Hex & Ha). eapply ends_then. by apply start_rescheduled_spec.
  - destruct (take_task_spec w ex i H) as (o & w1 & E1 & S1 & H1). unfold run_task, ends, mbind, M_bind. rewrite E1.
    destruct o as [t|]; [|by exists (Ok tt), w1]. destruct H1 as [H1 Hg]. destruct (call_task_spec _ _ _ _ H1 Hg) as (w2 & E2 & H2 & S2).
    exists (Ok tt), w2. split_ands; [by rewrite E2|done|by eapply steps_trans|done].
  - destruct (take_task_spec w ex i H) as (o & w1 & E1 & S1 & H1). unfold drop_task, ends, mbind, M_bind. rewrite E1.
    destruct o as [t|]; [|by exists (Ok tt), w1]. destruct H1 as [H1 Hg]. destruct (destroy_task_spec _ _ _ _ H1 Hg) as (w2 & E2 & H2 & S2).
    exists (Ok tt), w2. split_ands; [by rewrite E2|done|by eapply steps_trans|done].
  - destruct (executor_shutdown_spec w ex H Hok) as (w' & E & ? & ? & _). by exists (Ok tt), w'.
  - destruct Hok as (c & k & Hc & Hs). destruct (wake_spec [] h a k w c H Hc Hs) as [Hm' _].
    eapply does_ends; [eapply moves_does; exact Hm'|done].
Qed.

Lemma operation_spec w o : cinv [] w -> op_ok w o -> ends_well w o.
Proof.
  intros H Hok. destruct (makes_executor o) eqn:Em; [|by apply ends_ends_well, perform_ends].
  destruct o; try done. destruct (make_executor_spec w n k H) as (w' & E & ? & ?). by exists (Ok tt), w'.
Qed.

(** The worlds a program can reach. *)
Inductive leads_to (w : world (T := T)) : world (T := T) -> Prop :=
  | lt_refl : leads_to w w
  | lt_step o r w1 w2 : leads_to w w1 -> op_ok w1 o -> perform o w1 = (r, w2) -> leads_to w w2.

Lemma leads_to_trans w1 w2 w3 : leads_to w1 w2 -> leads_to w2 w3 -> leads_to w1 w3.
Proof. intros H. induction 1; [done|by eapply lt_step]. Qed.

Lemma leads_to_steps w w' : cinv [] w -> leads_to w w' -> cinv [] w' /\ later w w'.
Proof.
  intros H. induction 1 as [|o r w1 w2 _ [IH1 IH2] Hok E]; [split; [done|by apply same_coros_later]|].
  destruct (operation_spec w1 o IH1 Hok) as (r' & w2' & E' & H2 & S2 & _). rewrite E in E'. injection E' as <- <-.
  split; [done|by eapply later_trans].
Qed.

Lemma new_world_inv : cinv [] (new_world (T := T)).
Proof.
  split; simpl; try done; try (by intros ? ? ?%not_elem_of_nil).
Qed.

Lemma reached w : leads_to new_world w -> cinv [] w /\ forall h c, coros w !! h = Some c -> status c <> co_running.
Proof.
  intros H. destruct (leads_to_steps _ _ new_world_inv H) as [H1 S1]. split; [done|].
  intros h c. apply (l_new _ _ S1). simpl. lia.
Qed.

(** The functors of coroutine [h] in the queue of executor [ex]. *)
Definition enqueued (w : world (T := T)) (h : handle) (ex : nat) : nat := occurrences h (queue_of w ex).
End operations.

(** ** The theorems *)

(** The operations of executors and coroutines are defined: whatever a
    program did before, an operation that the interface allows fails no
    assertion, resumes no coroutine that is not suspended and terminates no
    thread.  It throws only [runtime_shutdown] (when tasks are given to an
    executor that was shut down) or [invalid_argument] (when a parallel
    coroutine names a null executor); running or destroying a task never
    throws. *)
Theorem executor_operations_are_defined {T : Type} (w : world (T := T)) o :
  leads_to new_world w -> op_ok w o ->
  match perform o w with
  | (Ok _, _) => True
  | (Throw e, _) => may_throw w o e
  | (Abort, _) => False
  end.
Proof.
  intros H Hok. destruct (reached w H) as [H1 _]. destruct (operation_spec w o H1 Hok) as (r & w' & E & _ & _ & HQ). rewrite E.
  by destruct r.
Qed.

(** A coroutine is resumed exactly once per suspension: between two
    operations each coroutine is suspended, with exactly one functor, in the
    queue of the executor it asked for, suspended in something else that it awaits,
    or done.  It has gone through its
    body with the answers that its awaiters gave, each executor that resumed it
    is the one it asked for, and its result is what the body returned or
    threw. *)
Theorem coroutine_waits_or_is_done {T : Type} (w : world (T := T)) h c :
  leads_to new_world w -> coros w !! h = Some c ->
  (snd <$> filter (fun p => p.1 = h) (resumed_by w)) = visited (co_body c) (co_path c) /\
  legal (co_body c) (co_path c) /\
  ((exists message k ex, status c = co_suspended message k /\ current c = Some (b_resume_on (Some ex) k) /\
      forall ex', enqueued w h ex' = if decide (ex' = ex) then 1 else 0) \/
   (exists b, current c = Some b /\ (forall ex, enqueued w h ex = 0) /\
      match b with
      | b_return v => status c = co_done (if kind c then None else Some (inl v))
      | b_throw e => status c = co_done (if kind c then None else Some (inr e))
      | b_await k => status c = co_awaiting k
      | b_resume_on _ _ => False
      end)).
Proof.
  intros [H Hrest]%reached Hc. destruct (i_coro _ _ H h c Hc) as (_ & Hres & Hleg & Hst). split_ands; [done|done|].
  pose proof (fun ex => i_where _ _ H ex h c Hc) as Hw. unfold held_for in Hw. simpl in Hw. unfold enqueued.
  unfold waits_for in Hw. destruct (status c) as [|message k|k|r] eqn:Es; [by destruct (Hrest h c Hc)| | |].
  - left. destruct Hst as [[ex Hcur] _]. exists message, k, ex. split_ands; try done. intros ex'. specialize (Hw ex').
    rewrite Hcur in Hw. unfold occurrences in *. rewrite Nat.add_0_r in Hw. rewrite Hw. by case_bool_decide; case_decide.
  - right. exists (b_await k). split_ands; [done| |done]. intros ex. specialize (Hw ex). unfold occurrences in *. lia.
  - right. destruct (current c) as [b|]; [|done]. exists b. split_ands; [done| |destruct b; [by rewrite Hst|by rewrite Hst|done|done]].
    intros ex. specialize (Hw ex). unfold occurrences in *. lia.
Qed.

(** C23.  [submit] returns a result that comes true in one of two ways: while the
    task waits in the queue of the executor nothing has happened; then either the
    executor called the callable, once, and the result is what it returned or
    threw, or the executor refused or destroyed the task, the callable was never
    called, and the result is [broken_task]. *)
Theorem submitted_callable_is_called_once {T : Type} (w : world (T := T)) ex f :
  leads_to new_world w -> ex < length (executors w) ->
  exists h w1, submit ex f w = (Ok h, w1) /\ forall w2, leads_to w1 w2 ->
    exists c, coros w2 !! h = Some c /\ kind c = pk_result /\
      let resumed := snd <$> filter (fun p => p.1 = h) (resumed_by w2) in
      ((exists message k, status c = co_suspended message k) /\ resumed = [] /\ enqueued w2 h ex = 1 \/
       status c = co_done (Some (invoke f tt)) /\ resumed = [ex] \/
       (exists e, exn_cls e = broken_task /\ status c = co_done (Some (inr e))) /\ resumed = []).
Proof.
  intros Hw Hex. destruct (reached w Hw) as [H _]. destruct (submit_spec w ex f H Hex) as (w1 & E & H1 & S1 & Hst).
  exists (length (coros w)), w1. split; [done|]. intros w2 H2.
  assert (Hw2 : leads_to new_world w2).
  { assert (Hw1 : leads_to new_world w1).
    { apply (lt_step _ (op_submit ex f) (Ok tt) w); [done|done|]. simpl. unfold mbind, M_bind. by rewrite E. }
    by eapply leads_to_trans. }
  destruct (leads_to_steps w1 w2 H1 H2) as [_ S2]. pose proof (started_later w1 w2 _ _ _ S2 Hst) as (c & Hc & Hb & Hk & _).
  exists c. split_ands; [done|done|].
  destruct (reached w2 Hw2) as [Hi Hrest].
  destruct (i_coro _ _ Hi _ c Hc) as (_ & Hres & Hleg & Hst2). cbv zeta. rewrite Hres. unfold current in Hst2. clear Hst. rewrite Hb in *.
  rewrite Hk in Hst2. destruct (co_path c) as [|a [|a' path]] eqn:Ep; simpl in *.
  - left. destruct (status c) as [|message k|k|r] eqn:Es; [by destruct (Hrest _ c Hc)| |done|done].
    split_ands; [by eexists _, _|done|]. pose proof (i_where _ _ Hi ex _ c Hc) as Hq. unfold held_for in Hq. simpl in Hq.
    unfold waits_for, current in Hq. rewrite Es, Hb, Ep in Hq. simpl in Hq. rewrite bool_decide_eq_true_2 in Hq by done.
    unfold enqueued. lia.
  - right. destruct (status c) as [|message k|k|r] eqn:Es; [by destruct (Hrest _ c Hc)| | |].
    { destruct Hst2 as [[ex' E'] _]. destruct a as [e|]; [done|]. unfold submit_bridge in E'. by destruct (invoke f tt). }
    { destruct a as [e|]; [done|]. unfold submit_bridge in Hst2. by destruct (invoke f tt). }
    destruct a as [e|].
    + right. split; [|done]. exists e. rewrite Hst2. split; [apply Hleg|done].
    + left. split; [|done]. unfold submit_bridge in Hst2. destruct (invoke f tt); by rewrite Hst2.
  - destruct a as [e|]; [by destruct Hleg|]. destruct Hleg as [_ Hleg]. unfold submit_bridge in Hleg. by destruct (invoke f tt).
Qed.

(** Which executors are shut down. *)
Definition all_shut_down {T : Type} (w : world (T := T)) : Prop := forall ex e, executors w !! ex = Some e -> m_abort e = true.

(** When every executor is shut down, no coroutine waits for one. *)
Lemma at_rest_when_shut_down {T : Type} (w : world (T := T)) h c :
  leads_to new_world w -> all_shut_down w -> coros w !! h = Some c ->
  (exists r, status c = co_done r) \/ exists k, status c = co_awaiting k /\ current c = Some (b_await k).
Proof.
  intros Hw Ha Hc. destruct (reached w Hw) as [H Hrest]. destruct (i_coro _ _ H h c Hc) as (_ & _ & _ & Hst).
  destruct (status c) as [|message k|k|r] eqn:Es; [by destruct (Hrest h c Hc)| |by right; exists k|by left; exists r].
  exfalso. destruct Hst as [[ex Hcur] _]. pose proof (i_where _ _ H ex h c Hc) as Hq. unfold held_for, waits_for in Hq.
  rewrite Es, Hcur, bool_decide_eq_true_2 in Hq by done. simpl in Hq. unfold queue_of in Hq.
  destruct (executors w !! ex) as [e|] eqn:He; [|done].
  destruct (i_executor _ _ H ex e He) as [Hempty _]. simpl in Hq. rewrite Hempty in Hq; [done|]. left. by eapply Ha.
Qed.

Lemma attributes_shut_down {T : Type} (w w' : world (T := T)) : steps w w' -> all_shut_down w -> all_shut_down w'.
Proof.
  intros S Ha ex e' He'. assert (Hlt : ex < length (executors w)) by (rewrite <-(s_count _ _ S); by eapply lookup_lt_Some).
  apply lookup_lt_is_Some_2 in Hlt as [e He]. destruct (s_executors _ _ S ex e He) as (e2 & He2 & _ & _ & Hm).
  assert (e2 = e') as -> by congruence. by eapply Hm, Ha.
Qed.

(** What a coroutine awaits answers it, again and again. *)
Definition answered_by {T : Type} (h : handle) (answers : nat -> option exn) (n : nat) : M exn (world (T := T)) unit :=
  mfor (answers <$> seq 0 n) (wake h).

Definition ends_when_answered {T : Type} (h : handle) (w : world (T := T)) : Prop :=
  forall answers, exists n w' c r, answered_by h answers n w = (Ok tt, w') /\ coros w' !! h = Some c /\ status c = co_done r.

Lemma answered_ends {T : Type} (w : world (T := T)) h c :
  leads_to new_world w -> all_shut_down w -> coros w !! h = Some c -> ends_when_answered h w.
Proof.
  intros Hw Ha Hc. unfold ends_when_answered.
  cut (forall (b : body (T := T)) path w (c : coroutine (T := T)), leads_to new_world w -> all_shut_down w -> coros w !! h = Some c -> current c = follow b path ->
    forall answers, exists n w' (c : coroutine (T := T)) r, answered_by h answers n w = (Ok tt, w') /\ coros w' !! h = Some c /\ status c = co_done r).
  { intros Hb. by apply (Hb (co_body c) (co_path c) w c). }
  clear w c Hw Ha Hc. intros b. induction b as [v|e|ex k IH|k IH]; intros [|a path] w c Hw Ha Hc Hcur answers;
    (destruct (at_rest_when_shut_down w h c Hw Ha Hc) as [[r Hr]|(k' & Hs & Hk)]; [by exists 0, w, c, r|]);
    rewrite Hk in Hcur; try done;
    [eapply IH; [done..|by rewrite Hk, Hcur]| |eapply IH; [done..|by rewrite Hk, Hcur]].
  injection Hcur as ->. destruct (reached w Hw) as [H _]. set (a := answers 0).
  destruct (wake_spec [] h a k w c H Hc Hs) as [(w1 & E1 & H1 & O1 & c1 & Hc1 & Hr1) Hfol].
  destruct (Hfol _ _ c1 E1 Hc1) as [path Hpath].
  assert (Hw1 : leads_to new_world w1) by (apply (lt_step _ (op_wake h a) (Ok tt) w); [done|by exists c, k|done]).
  assert (Ha1 : all_shut_down w1) by (eapply attributes_shut_down; [eapply only_steps; [exact O1|by exists c1]|done]).
  destruct (IH a path w1 c1 Hw1 Ha1 Hc1 Hpath (fun i => answers (S i))) as (n & w2 & c2 & r & E2 & Hc2 & Hr2).
  exists (S n), w2, c2, r. split_ands; [|done..]. unfold answered_by. cbn [seq]. rewrite fmap_cons. cbn [mfor].
  unfold mbind, M_bind. fold a. rewrite E1. unfold answered_by in E2. by rewrite <-fmap_S_seq, <-list_fmap_compose.
Qed.

(** C24.  No coroutine is left behind in an executor: when every executor has
    been shut down, every coroutine that was ever started, in whichever queue it
    was and wherever it tried to resume afterwards, is done or awaits something
    that is not an executor (a result, a lock, a timer).  A coroutine of the
    second kind is done after finitely many answers of what it awaits, whatever
    they are: it is not suspended in an executor again.  (The code of each
    coroutine is a tree without infinite paths, [body].) *)
Theorem shutdown_finishes_every_coroutine {T : Type} (w : world (T := T)) h c :
  leads_to new_world w -> all_shut_down w -> coros w !! h = Some c ->
  ((exists r, status c = co_done r) \/ exists k, status c = co_awaiting k) /\ ends_when_answered h w.
Proof.
  intros Hw Ha Hc. split; [|by eapply answered_ends].
  destruct (at_rest_when_shut_down w h c Hw Ha Hc) as [[r Hr]|(k & Hk & _)]; [left; by exists r|right; by exists k].
Qed.

(** The constructor that the coroutines which are member functions get
    dereferences a null [shared_ptr] where the other one throws. *)
Lemma member_coroutine_dereferences_null {T : Type} (w : world (T := T)) :
  initialy_rescheduled_promise (by_shared_ptr_of_member None) w = (Abort, w) /\
  initialy_rescheduled_promise (by_shared_ptr None) w =
    (Throw (make_exn invalid_argument k_parallel_coroutine_null_exception_err_msg), w).
Proof. done. Qed.

(** ** Witnesses *)
Definition forty_two : callable nat := make_callable 7 false (fun _ => inl 42).
Definition raises : callable nat := make_callable 8 false (fun _ => inr (make_exn (user_exception 1) "boom")).

(** It moves from executor 1 to executor 0 and back. *)
Definition traveller : body (T := nat) :=
  b_resume_on (Some 0) (fun _ => b_resume_on (Some 1) (fun a => match a with None => b_return 5 | Some e => b_throw e end)).

(** It awaits a result before it goes to executor 1. *)
Definition patient : body (T := nat) :=
  b_await (fun _ => b_resume_on (Some 1) (fun a => match a with None => b_return 6 | Some e => b_throw e end)).

Definition some_operations : list (operation (T := nat)) :=
  [op_make_executor k_inline_executor_name inline_executor; op_make_executor k_manual_executor_name queueing_executor;
   op_bulk_submit 1 [forty_two; raises]; op_start pk_result traveller; op_run 1 0; op_submit 1 raises; op_shutdown 1;
   op_start pk_result patient; op_shutdown 0].

Definition world_after (l : list (operation (T := nat))) : world := foldl (fun w o => (perform o w).2) new_world l.

Lemma leads_to_snoc l o :
  leads_to new_world (world_after l) -> op_ok (world_after l) o -> leads_to new_world (world_after (l ++ [o])).
Proof.
  intros H Hok. unfold world_after. rewrite foldl_app. simpl. eapply (lt_step _ o _ (world_after l)); [done|done|].
  apply surjective_pairing.
Qed.

Lemma traveller_wf : wf_body 2 traveller.
Proof. split; [lia|]. intros _. split; [lia|]. by intros [|]. Qed.

Lemma some_operations_reachable n : leads_to new_world (world_after (take n some_operations)).
Proof.
  assert (H0 : leads_to new_world (world_after [])) by apply lt_refl.
  apply (leads_to_snoc [] (op_make_executor k_inline_executor_name inline_executor)) in H0 as H1; [|done].
  apply (leads_to_snoc _ (op_make_executor k_manual_executor_name queueing_executor)) in H1 as H2; [|done].
  apply (leads_to_snoc _ (op_bulk_submit 1 [forty_two; raises])) in H2 as H3; [|split; [vm_compute; lia|done]].
  apply (leads_to_snoc _ (op_start pk_result traveller)) in H3 as H4; [|apply traveller_wf].
  apply (leads_to_snoc _ (op_run 1 0)) in H4 as H5; [|done].
  apply (leads_to_snoc _ (op_submit 1 raises)) in H5 as H6; [|vm_compute; lia].
  apply (leads_to_snoc _ (op_shutdown 1)) in H6 as H7; [|vm_compute; lia].
  apply (leads_to_snoc _ (op_start pk_result patient)) in H7 as H8; [|intros a; split; [vm_compute; lia|by intros [|]]].
  apply (leads_to_snoc _ (op_shutdown 0)) in H8 as H9; [|vm_compute; lia].
  destruct n as [|[|[|[|[|[|[|[|[|n]]]]]]]]]; try assumption. rewrite take_ge by (simpl; lia). assumption.
Qed.

Lemma executor_operations_are_defined_witness :
  is_Abort (perform (op_bulk_submit 1 [forty_two; raises]) (world_after some_operations)).1 = false.
Proof.
  pose proof (executor_operations_are_defined (world_after some_operations) (op_bulk_submit 1 [forty_two; raises])
    (some_operations_reachable 9)) as H.
  destruct (perform _ _) as [[|e|] w]; [reflexivity|reflexivity|]. exfalso. apply H. split; [vm_compute; lia|done].
Defined.

Lemma coroutine_waits_or_is_done_witness :
  exists c, coros (world_after (take 4 some_operations)) !! 2 = Some c /\
    (snd <$> filter (fun p => p.1 = 2) (resumed_by (world_after (take 4 some_operations)))) = visited (co_body c) (co_path c).
Proof.
  destruct (coros (world_after (take 4 some_operations)) !! 2) as [c|] eqn:E; [|vm_compute in E; discriminate E].
  exists c. split; [reflexivity|]. apply (coroutine_waits_or_is_done _ 2 c (some_operations_reachable 4) E).
Defined.

Lemma submitted_callable_is_called_once_witness :
  exists h w1, submit 1 raises (world_after (take 5 some_operations)) = (Ok h, w1) /\
    exists c, coros w1 !! h = Some c /\ kind c = pk_result.
Proof.
  destruct (submitted_callable_is_called_once (world_after (take 5 some_operations)) 1 raises (some_operations_reachable 5)) as (h & w1 & E & H).
  - vm_compute. lia.
  - exists h, w1. split; [exact E|]. destruct (H w1 (lt_refl w1)) as (c & Hc & Hk & _). exists c. split; [exact Hc|exact Hk].
Defined.

Lemma shutdown_finishes_every_coroutine_witness :
  (exists c k, coros (world_after some_operations) !! 4 = Some c /\ status c = co_awaiting k) /\
  ends_when_answered 4 (world_after some_operations).
Proof.
  destruct (coros (world_after some_operations) !! 4) as [c|] eqn:E; [|vm_compute in E; discriminate E].
  destruct (shutdown_finishes_every_coroutine (world_after some_operations) 4 c (some_operations_reachable 9)) as [_ H]; [|exact E|].
  - intros [|[|ex]] e; vm_compute; [intros [= <-]; reflexivity..|discriminate].
  - split; [|exact H]. exists c. vm_compute in E. injection E as <-. eexists. split; reflexivity.
Defined.
