(* ===== verification/Promises.v ===== *)
(** * Which promise a coroutine gets

    The specialisations of [coroutine_traits] at the end of
    [include/concurrencpp/results/promises.h]: from its return type and the types
    of its first two parameters a coroutine gets a promise that starts it at once,
    one that moves it to an executor first, or a lazy one.  For a coroutine that
    is a member function (or a lambda) the object comes first in the list of
    parameters. *)

From stdpp Require Import prelude list strings.
From S2P Require Import Prelude Errors ConsumerContext Coroutines.
#[local] Open Scope list_scope.

(** A parameter, by its type; an executor with the value that is passed. *)
Inductive parameter :=
  | p_executor_tag
  | p_shared_ptr (e : option nat)
  | p_pointer (e : option nat)
  | p_reference (e : nat)
  | p_other.

Inductive return_type := returns_null_result | returns_result | returns_lazy_result.

Inductive promise_type :=
  | initialy_resumed (pk : promise_kind)
  | initialy_rescheduled (pk : promise_kind)
  | lazy_promise.

(** The most specialised [coroutine_traits] that matches. *)
Definition coroutine_traits (r : return_type) (arguments : list parameter) : promise_type :=
  match r with
  | returns_lazy_result => lazy_promise
  | returns_null_result | returns_result =>
      let pk := match r with returns_null_result => pk_null_result | _ => pk_result end in
      match arguments with
      | p_executor_tag :: (p_shared_ptr _ | p_pointer _ | p_reference _) :: _ => initialy_rescheduled pk
      | _ => initialy_resumed pk
      end
  end.

(** The constructor of the promise that the parameters select: [None] if there
    is none. *)
Definition promise_constructor (arguments : list parameter) : option executor_argument :=
  match arguments with
  | p_executor_tag :: p_shared_ptr e :: _ => Some (by_shared_ptr e)
  | p_executor_tag :: p_pointer e :: _ => Some (by_pointer e)
  | p_executor_tag :: p_reference e :: _ => Some (by_reference e)
  | _ :: p_executor_tag :: p_shared_ptr e :: _ => Some (by_shared_ptr_of_member e)
  | _ => None
  end.

Section start.
Context {T : Type}.

(** The call of a coroutine; lazy ones are in [LazyResult]. *)
Definition call_coroutine (r : return_type) (arguments : list parameter) (b : body) : option (M exn world handle) :=
  match coroutine_traits r arguments with
  | initialy_resumed pk => Some (start_resumed (T := T) pk b)
  | initialy_rescheduled pk =>
      match promise_constructor arguments with
      | Some a => Some (start_rescheduled (T := T) pk a b)
      | None => None
      end
  | lazy_promise => None
  end.

(** The executor that the parameters name. *)
Definition named_executor (p : parameter) : option (option nat) :=
  match p with p_shared_ptr e | p_pointer e => Some e | p_reference e => Some (Some e) | _ => None end.

(** A rescheduled coroutine is suspended and its functor waits in the queue. *)
Lemma start_rescheduled_queued pk a ex e (b : body) (w : world (T := T)) :
  initialy_rescheduled_promise a w = (Ok ex, w) ->
  executors w !! ex = Some e -> m_abort e = false -> ex_kind e = queueing_executor ->
  exists w', start_rescheduled pk a b w = (Ok (length (coros w)), w') /\
    called w' = called w /\ resumed_by w' = resumed_by w /\
    executors w' = alter (fun e => set_queue (ex_queue e ++
      [t_functor (await_via_functor.construct (length (coros w)) (length (coros w)))]) e) ex (executors w) /\
    exists c, coros w' = coros w ++ [c] /\ co_path c = [] /\ m_interrupted c = false /\
      exists msg k, status c = co_suspended msg k.
Proof.
  intros Ha He Hab Hk. unfold start_rescheduled. rewrite (bind_Ok _ _ _ _ _ Ha).
  unfold start_resumed, new_frame, get_state, put_state, mbind, M_bind, mret, M_ret. simpl.
  unfold mbind, M_bind, suspend, modify, at_coro, await_suspend, try_catch, do_post, bound, enqueue, get_state. simpl.
  unfold mbind, M_bind. cbn [executors set_coros]. rewrite He, Hab, Hk. unfold modify, at_executor, set_executors. simpl.
  eexists. split; [reflexivity|]. simpl. split_ands; try done.
  rewrite alter_app_r_alt by lia. rewrite Nat.sub_diag. simpl. eexists. split; [reflexivity|]. simpl. split_ands; try done.
  by do 2 eexists.
Qed.

(** The call of a parallel coroutine (its first parameters are the tag and an
    executor) runs nothing of it in the caller: it is suspended and waits in the
    queue of that executor, or the call throws when the executor is null.  A
    coroutine whose tag comes second, as that of a member function or a lambda, is
    not parallel: it is started in the caller as if there were no tag. *)
Theorem parallel_coroutines_wait_for_their_executor r p args (b : body) (w : world (T := T)) :
  r <> returns_lazy_result ->
  (forall ex e, named_executor p = Some (Some ex) -> executors w !! ex = Some e -> m_abort e = false ->
     ex_kind e = queueing_executor ->
     exists m w', call_coroutine r (p_executor_tag :: p :: args) b = Some m /\ m w = (Ok (length (coros w)), w') /\
       called w' = called w /\ resumed_by w' = resumed_by w /\
       exists c, coros w' = coros w ++ [c] /\ co_path c = [] /\ exists msg k, status c = co_suspended msg k) /\
  (named_executor p = Some None ->
     exists m, call_coroutine r (p_executor_tag :: p :: args) b = Some m /\
       m w = (Throw (make_exn invalid_argument k_parallel_coroutine_null_exception_err_msg), w)) /\
  (forall object, object <> p_executor_tag ->
     call_coroutine r (object :: p_executor_tag :: p :: args) b =
     Some (start_resumed (match r with returns_null_result => pk_null_result | _ => pk_result end) b)).
Proof.
  intros Hr. split; [|split].
  - intros ex e Hp He Hab Hk.
    assert (H : exists pk a, call_coroutine r (p_executor_tag :: p :: args) b = Some (start_rescheduled (T := T) pk a b) /\
      initialy_rescheduled_promise a w = (Ok ex, w)).
    { by destruct r, p as [|[]|[]| |]; simplify_eq/=; do 2 eexists; (split; [reflexivity|]). }
    destruct H as (pk & a & Hc & Ha).
    destruct (start_rescheduled_queued pk a ex e b w Ha He Hab Hk) as (w' & E & H1 & H2 & _ & c & H3 & H4 & _ & H5).
    exists (start_rescheduled pk a b), w'. split_ands; try done. by exists c.
  - intros Hp. by destruct r, p as [|[]|[]| |]; simplify_eq/=; eexists; (split; [reflexivity|]).
  - intros object Ho. by destruct r, object.
Qed.
End start.
