(* ===== verification/Runtime.v ===== *)
(** * The runtime

    [include/concurrencpp/runtime/runtime.h], [source/runtime/runtime.cpp] and
    [threads/thread.h]: the executors that a runtime makes and registers, and
    its destructor, which shuts the timer queue down and joins its worker, then
    shuts every executor down under the lock of the collection, while other
    threads go on.  The executors are those of [Coroutines], whose [shutdown] is
    one step (the joins of the executors with threads are in their own files);
    the timer queue is the one of [TimerService], whose timers fire on executors
    of their own there: what they post to the executors of the runtime is an
    operation of another thread. *)

From Stdlib Require Import ZArith Lia.
From stdpp Require Import prelude list strings relations.
From S2P Require Import Prelude Errors ConsumerContext Timer TimerQueue TimerQueueProps TimerService TimerServiceProps TimerServiceTheorems TimerShutdown Coroutines CoroutinesProps CoroutinesTheorems.
#[local] Open Scope list_scope.

(** ** Threads *)

(** [thread::hardware_concurrency], given [std::thread::hardware_concurrency()]. *)
Definition hardware_concurrency (hc : Z) : Z := if (hc =? 0)%Z then k_default_number_of_cores else hc.

Definition default_max_cpu_workers (hc : Z) : Z := wrap_size (hardware_concurrency hc * k_cpu_threadpool_worker_count_factor).
Definition default_max_background_workers (hc : Z) : Z :=
  wrap_size (hardware_concurrency hc * k_background_threadpool_worker_count_factor).

(** [runtime_options()]; times in milliseconds. *)
Record runtime_options := make_runtime_options {
  max_cpu_threads : Z;
  max_thread_pool_executor_waiting_time : Z;
  max_background_threads : Z;
  max_background_executor_waiting_time : Z;
  max_timer_queue_waiting_time : Z
}.

Definition default_options (hc : Z) : runtime_options :=
  make_runtime_options (default_max_cpu_workers hc) (k_max_threadpool_worker_waiting_time_sec * 1000)
    (default_max_background_workers hc) (k_max_threadpool_worker_waiting_time_sec * 1000)
    (k_max_timer_queue_worker_waiting_time_sec * 1000).

Definition version : Z * Z * Z :=
  (k_concurrencpp_version_major, k_concurrencpp_version_minor, k_concurrencpp_version_revision).

(** ** The runtime *)
Section runtime.
Context {T : Type}.

(** [m_executors] and [m_lock] (whether it is locked) are the members of
    [m_registered_executors]; an executor is named by its position in the world. *)
Record runtime := make_runtime {
  m_inline_executor : option nat;
  m_thread_pool_executor : option nat;
  m_background_executor : option nat;
  m_thread_executor : option nat;
  m_executors : list nat;
  m_lock : bool;
  m_timer_queue : option TimerService.service;
  the_world : world (T := T)
}.

Definition set_world w r := make_runtime (m_inline_executor r) (m_thread_pool_executor r) (m_background_executor r)
  (m_thread_executor r) (m_executors r) (m_lock r) (m_timer_queue r) w.
Definition set_registered l r := make_runtime (m_inline_executor r) (m_thread_pool_executor r) (m_background_executor r)
  (m_thread_executor r) l (m_lock r) (m_timer_queue r) (the_world r).
Definition set_lock b r := make_runtime (m_inline_executor r) (m_thread_pool_executor r) (m_background_executor r)
  (m_thread_executor r) (m_executors r) b (m_timer_queue r) (the_world r).
Definition set_timer_queue q r := make_runtime (m_inline_executor r) (m_thread_pool_executor r) (m_background_executor r)
  (m_thread_executor r) (m_executors r) (m_lock r) (Some q) (the_world r).
Definition set_members i p b t r := make_runtime i p b t (m_executors r) (m_lock r) (m_timer_queue r) (the_world r).

Notation monad := (M exn runtime).

(** An operation of the world. *)
Definition in_world {A : Type} (m : M exn (world (T := T)) A) : monad A := fun r =>
  let '(o, w) := m (the_world r) in (o, set_world w r).

(** [executor_collection::register_executor].  The mutex must not be locked
    again by the thread that holds it; other threads come when it is free. *)
Definition register_executor (ex : nat) : monad unit :=
  locked ← gets m_lock;
  if (locked : bool) then abort
  else
    l ← gets m_executors;
    massert (bool_decide (ex ∉ l));;
    modify (set_registered (l ++ [ex])).

(** [std::make_shared] of an executor, which is registered. *)
Definition make_registered_executor (n : string) (k : executor_kind) : monad nat :=
  ex ← gets (fun r => length (executors (the_world r)));
  in_world (make_new_executor n k);;
  register_executor ex;;
  mret ex.

Definition make_worker_thread_executor : monad nat := make_registered_executor k_worker_thread_executor_name queueing_executor.
Definition make_manual_executor : monad nat := make_registered_executor k_manual_executor_name queueing_executor.
(** [make_executor], of an executor of the application. *)
Definition make_executor_of (n : string) (k : executor_kind) : monad nat := make_registered_executor n k.

(** The constructor, at time [now]: the timer queue comes first. *)
Definition construct_runtime (now : Z) : monad unit :=
  modify (set_timer_queue (new_service now));;
  i ← make_registered_executor k_inline_executor_name inline_executor;
  p ← make_registered_executor k_thread_pool_executor_name queueing_executor;
  b ← make_registered_executor k_background_executor_name queueing_executor;
  t ← make_registered_executor k_thread_executor_name queueing_executor;
  modify (set_members (Some i) (Some p) (Some b) (Some t)).

Definition empty_runtime : runtime := make_runtime None None None None [] false None new_world.

(** What an application does with a runtime. *)
Inductive runtime_operation :=
  | ro_make_worker_thread_executor
  | ro_make_manual_executor
  | ro_make_executor (n : string) (k : executor_kind)
  | ro_timers (l : TimerService.label)         (* the timer queue, its users and its worker *)
  | ro_use (o : operation (T := T)).

(** A step of the timer queue that is not possible does nothing. *)
Definition step_timers (l : TimerService.label) (r : runtime) : runtime :=
  match m_timer_queue r ≫= TimerService.step l with Some q => set_timer_queue q r | None => r end.

Definition perform_runtime (o : runtime_operation) : monad unit :=
  match o with
  | ro_make_worker_thread_executor => make_worker_thread_executor;; mret tt
  | ro_make_manual_executor => make_manual_executor;; mret tt
  | ro_make_executor n k => make_executor_of n k;; mret tt
  | ro_timers l => modify (step_timers l)
  | ro_use o => in_world (perform o)
  end.

(** An application makes its executors by the runtime. *)
Definition runtime_op_ok (r : runtime) (o : runtime_operation) : Prop :=
  match o with
  | ro_use o => op_ok (the_world r) o /\ makes_executor o = false
  | _ => True
  end.

Inductive used_runtime : runtime -> Prop :=
  | ur_construct now r : construct_runtime now empty_runtime = (Ok tt, r) -> used_runtime r
  | ur_step o x r r' : used_runtime r -> runtime_op_ok r o -> perform_runtime o r = (x, r') -> used_runtime r'.

(** ** The destructor *)

(** Where the thread that runs [~runtime] is. *)
Inductive dpc :=
  | d_begin
  | d_timers                       (* inside of m_timer_queue->shutdown() *)
  | d_lock                         (* before it locks the collection *)
  | d_executors (rest : list nat)  (* in the loop of shutdown_all *)
  | d_returned
  | d_aborted.                     (* std::abort *)

(** [timer_queue::shutdown]: [true] when it returns; [None] when it has to wait
    (for the worker, which it joins), or the program has been terminated. *)
Definition timer_shutdown (first : bool) (q : TimerService.service) : option (TimerService.service * bool) :=
  if first then (fun q' => (q', m_atomic_abort q)) <$> TimerService.step l_shutdown q
  else
    match sd q with
    | sd_none => None
    | sd_entered => (., false) <$> TimerService.step l_shutdown_lock q
    | sd_notify => (., false) <$> TimerService.step l_shutdown_notify q
    | sd_join => (., false) <$> TimerService.step l_shutdown_join q
    | sd_done => Some (q, true)
    end.

(** [executor_collection::shutdown_all]: it takes the lock and keeps it during
    the loop; what the shutdown of an executor throws leaves it, and the destructor
    calls [std::abort]. *)
Definition shutdown_all (rest : list nat) (r : runtime) : dpc * runtime :=
  match rest with
  | ex :: rest =>
      match in_world (shutdown ex) r with
      | (Ok _, r') => (d_executors rest, r')
      | (_, r') => (d_aborted, r')
      end
  | [] => (d_returned, set_lock false (set_registered [] r))
  end.

(** The next step of the thread that runs [~runtime]; [None]: it has to wait. *)
Definition destroy_runtime (pc : dpc) (r : runtime) : option (dpc * runtime) :=
  match pc with
  | d_begin | d_timers =>
      q ← m_timer_queue r;
      '(q', returns) ← timer_shutdown (if pc is d_begin then true else false) q;
      Some (if (returns : bool) then d_lock else d_timers, set_timer_queue q' r)
  | d_lock => if m_lock r then None else Some (d_executors (m_executors r), set_lock true r)
  | d_executors rest => Some (shutdown_all rest r)
  | d_returned | d_aborted => None
  end.

(** Meanwhile other threads use the timer queue and the executors; they make no
    executor.  (Inside of its [shutdown] the timer queue is not shut down by
    another thread: the flag is taken.) *)
Inductive others (pc : dpc) (r : runtime) : runtime -> Prop :=
  | o_timers l q q' : m_timer_queue r = Some q -> TimerService.step l q = Some q' -> shuts_down l = false \/ pc <> d_timers ->
      others pc r (set_timer_queue q' r)
  | o_use o x w' : op_ok (the_world r) o -> makes_executor o = false -> perform o (the_world r) = (x, w') ->
      others pc r (set_world w' r).

Inductive dstep : dpc * runtime -> dpc * runtime -> Prop :=
  | ds_self pc r s : destroy_runtime pc r = Some s -> dstep (pc, r) s
  | ds_other pc r r' : others pc r r' -> dstep (pc, r) (pc, r').

(** ** Every executor is registered *)
Implicit Types w : world (T := T).

Definition queue_ok (q : TimerService.service) : Prop := exists now, reachable TimerService.step (new_service now) q.

Lemma queue_ok_step l q q' : queue_ok q -> TimerService.step l q = Some q' -> queue_ok q'.
Proof. intros [now H] E. exists now. by eapply reachable_step. Qed.

Record rinv (r : runtime) : Prop := {
  r_world : leads_to new_world (the_world r);
  r_registered : m_executors r = seq 0 (length (executors (the_world r)));
  r_unlocked : m_lock r = false;
  r_timers : exists q, m_timer_queue r = Some q /\ queue_ok q
}.

Lemma make_registered_spec n k r :
  rinv r -> exists r', make_registered_executor n k r = (Ok (length (executors (the_world r))), r') /\ rinv r' /\
    length (executors (the_world r')) = S (length (executors (the_world r))).
Proof.
  intros [Hw Hr Hl Hq]. destruct (reached _ Hw) as [Hi _].
  unfold make_registered_executor, register_executor, in_world, mbind, M_bind, gets, mret, M_ret, modify.
  set (w' := set_executors (executors (the_world r) ++ [make_executor n k false []]) (the_world r)).
  assert (Hnot : length (executors (the_world r)) ∉ m_executors r) by (rewrite Hr, elem_of_seq; lia).
  exists (set_registered (m_executors r ++ [length (executors (the_world r))]) (set_world w' r)). split_ands.
  - simpl. rewrite Hl. unfold massert. by rewrite bool_decide_eq_true_2.
  - split; simpl; [|by rewrite Hr, length_app, Nat.add_1_r, seq_S|done|done].
    by apply (lt_step _ (op_make_executor n k) (Ok tt) (the_world r)).
  - simpl. rewrite length_app. simpl. lia.
Qed.

Lemma in_world_eq {A : Type} (m : M exn (world (T := T)) A) r o w : m (the_world r) = (o, w) -> in_world m r = (o, set_world w r).
Proof. intros E. unfold in_world. by rewrite E. Qed.

(** The lock is not recursive: a coroutine that is resumed on the thread that
    shuts the executors down cannot make an executor. *)
Lemma no_executor_is_made_under_the_lock n k r : m_lock r = true -> (make_registered_executor n k r).1 = Abort.
Proof.
  intros H. unfold make_registered_executor, register_executor, in_world, mbind, M_bind, gets, modify. simpl. by rewrite H.
Qed.

Lemma construct_spec now : exists r, construct_runtime now empty_runtime = (Ok tt, r) /\ rinv r.
Proof.
  unfold construct_runtime. unfold mbind at 1, M_bind at 1, modify at 1.
  assert (H0 : rinv (set_timer_queue (new_service now) empty_runtime)).
  { split; [apply lt_refl|done|done|]. exists (new_service now). split; [done|]. exists now. apply reachable_init. }
  unfold mbind, M_bind.
  edestruct (make_registered_spec k_inline_executor_name inline_executor) as (r1 & E1 & H1 & _); [exact H0|]. rewrite E1.
  edestruct (make_registered_spec k_thread_pool_executor_name queueing_executor) as (r2 & E2 & H2 & _); [exact H1|]. rewrite E2.
  edestruct (make_registered_spec k_background_executor_name queueing_executor) as (r3 & E3 & H3 & _); [exact H2|]. rewrite E3.
  edestruct (make_registered_spec k_thread_executor_name queueing_executor) as (r4 & E4 & H4 & _); [exact H3|]. rewrite E4.
  eexists. split; [reflexivity|]. destruct H4. by split.
Qed.

(** An operation of the world that makes no executor. *)
Lemma world_op w o x w' :
  leads_to new_world w -> op_ok w o -> makes_executor o = false -> perform o w = (x, w') ->
  leads_to new_world w' /\ steps w w'.
Proof.
  intros Hw Ho Hm E. destruct (reached w Hw) as [Hi _]. destruct (perform_ends w o Hi Ho Hm) as (x' & w2 & E' & _ & S & _).
  rewrite E in E'. injection E' as <- <-. split; [by eapply lt_step|done].
Qed.

Lemma perform_runtime_inv o x r r' : rinv r -> runtime_op_ok r o -> perform_runtime o r = (x, r') -> rinv r'.
Proof.
  intros H Hok E.
  assert (Hmake : forall n k, (make_registered_executor n k;; mret tt) r = (x, r') -> rinv r').
  { intros n k. destruct (make_registered_spec n k r H) as (r1 & E1 & H1 & _). unfold mbind, M_bind. rewrite E1. by intros [= _ <-]. }
  destruct o as [| |n k|l|o]; [by eapply Hmake..| |]; destruct H as [Hw Hr Hl (q & Hq & Hqok)]; cbn [perform_runtime] in E.
  - unfold modify in E. injection E as _ <-. unfold step_timers. rewrite Hq. simpl.
    destruct (TimerService.step l q) as [q'|] eqn:El; split; try done; [|by exists q]. exists q'. split; [done|by eapply queue_ok_step].
  - destruct Hok as [Ho Hm]. unfold in_world in E. destruct (perform o (the_world r)) as [x1 w1] eqn:E1. injection E as _ <-.
    destruct (world_op _ _ _ _ Hw Ho Hm E1) as [Hw1 S1]. split; [done| |done|by exists q]. simpl. by rewrite (s_count _ _ S1).
Qed.

Lemma used_rinv r : used_runtime r -> rinv r.
Proof.
  induction 1 as [now r E|o x r r' _ IH Hok E]; [|by eapply perform_runtime_inv].
  destruct (construct_spec now) as (r' & E' & H). rewrite E in E'. by injection E' as <-.
Qed.

(** ** What holds while the runtime is destroyed *)

Definition shut_down_at w (ex : nat) : Prop := exists e, executors w !! ex = Some e /\ m_abort e = true.

Lemma shut_down_kept w w' ex : steps w w' -> shut_down_at w ex -> shut_down_at w' ex.
Proof. intros S (e & He & Ha). destruct (s_executors _ _ S ex e He) as (e' & ? & _ & _ & Hm). exists e'. auto. Qed.

(** [n] executors were made before. *)
Record dinv (n : nat) (pc : dpc) (r : runtime) : Prop := {
  v_world : leads_to new_world (the_world r);
  v_count : length (executors (the_world r)) = n;
  v_timers : exists q, m_timer_queue r = Some q /\ queue_ok q /\
    (pc <> d_begin -> m_atomic_abort q = true) /\ (pc = d_timers -> sd q <> sd_none);
  v_pc : match pc with
    | d_begin | d_timers | d_lock => m_executors r = seq 0 n /\ m_lock r = false
    | d_executors rest => m_executors r = seq 0 n /\ m_lock r = true /\
        Forall (fun ex => ex < n) rest /\ forall ex, ex < n -> ex ∈ rest \/ shut_down_at (the_world r) ex
    | d_returned => m_executors r = [] /\ m_lock r = false /\ forall ex, ex < n -> shut_down_at (the_world r) ex
    | d_aborted => False
    end
}.

Lemma rinv_begin r : rinv r -> dinv (length (executors (the_world r))) d_begin r.
Proof. intros [Hw Hr Hl (q & Hq & Hok)]. split; [done|done|by exists q|done]. Qed.

(** The flag of the timer queue stays set. *)
Lemma atomic_abort_kept l q q' : TimerService.step l q = Some q' -> m_atomic_abort q = true -> m_atomic_abort q' = true.
Proof.
  intros H Ha. unfold TimerService.step in H. destruct (worker q) as [| | |to|q0| |b] eqn:Ew; destruct l; try done; step_inv H.
  all: unfold add_timer, ensure_worker_thread, notify, wait, after_wait, process, shutdown_exchange, shutdown_lock in *; simpl in *.
  all: repeat (case_match; simplify_eq/=; try done).
  all: done.
Qed.

Lemma dinv_others n pc r r' : dinv n pc r -> others pc r r' -> dinv n pc r'.
Proof.
  intros [Hw Hn (q & Hq & Hok & Hab & Hsd) Hpc] [l q1 q' Hq1 El Hl|o x w' Ho Hm E].
  - assert (q1 = q) as -> by congruence. split; [done|done| |by destruct pc]. exists q'.
    split_ands; [done|by eapply queue_ok_step| |].
    + intros Hne. by eapply atomic_abort_kept, Hab.
    + intros Hd. destruct Hl as [Hl|]; [|done]. destruct (sd_kept _ _ _ El Hl) as (-> & _). by apply Hsd.
  - destruct (world_op _ _ _ _ Hw Ho Hm E) as [Hw1 S1]. split; simpl; [done|by rewrite (s_count _ _ S1)|by exists q|].
    destruct pc as [| | |rest| |]; try done.
    + destruct Hpc as (? & ? & ? & Hx). split_ands; try done. intros ex Hex. destruct (Hx ex Hex) as [|]; [by left|right].
      by eapply shut_down_kept.
    + destruct Hpc as (? & ? & Hx). split_ands; try done. intros ex Hex. eapply shut_down_kept; [done|]. by apply Hx.
Qed.

(** The shutdown of the timer queue, seen from the destructor. *)
Lemma timer_shutdown_spec first q q' returns :
  queue_ok q -> (first = false -> m_atomic_abort q = true) -> timer_shutdown first q = Some (q', returns) ->
  queue_ok q' /\ m_atomic_abort q' = true /\ (returns = false -> sd q' <> sd_none).
Proof.
  intros Hok Hab E. destruct first; simpl in E.
  - destruct (TimerService.step l_shutdown q) as [q1|] eqn:El; [|done]. injection E as <- <-.
    split; [by eapply queue_ok_step|]. unfold TimerService.step, shutdown_exchange in El.
    destruct (m_atomic_abort q) eqn:Ea; destruct (worker q); try done; by injection El as <-.
  - specialize (Hab eq_refl).
    assert (Hone : forall l q1, TimerService.step l q = Some q1 -> q1 = q' -> queue_ok q' /\ m_atomic_abort q' = true).
    { intros l q1 El <-. split; [by eapply queue_ok_step|by eapply atomic_abort_kept]. }
    destruct (sd q) eqn:Es; [done| | | |by injection E as <- <-].
    all: match type of E with _ <$> TimerService.step ?l ?x = _ => destruct (TimerService.step l x) as [q1|] eqn:El; [|done] end.
    all: injection E as E1 <-; destruct (Hone _ _ El E1) as [? ?]; split_ands; try done; intros _.
    all: subst q'; unfold TimerService.step in El; rewrite Es in El; unfold shutdown_lock, notify in El;
      destruct (worker q) eqn:Ew; rewrite ?Ew in El; simplify_eq/=; rewrite ?Ew; done.
Qed.

Lemma dinv_self n pc r pc' r' : dinv n pc r -> destroy_runtime pc r = Some (pc', r') -> dinv n pc' r'.
Proof.
  intros [Hw Hn (q & Hq & Hok & Hab & Hsd) Hpc] E.
  assert (Htimers : forall first, (first = false -> m_atomic_abort q = true) -> m_executors r = seq 0 n /\ m_lock r = false ->
    (q ← m_timer_queue r; '(q', returns) ← timer_shutdown first q; Some (if (returns : bool) then d_lock else d_timers, set_timer_queue q' r)) =
      Some (pc', r') -> dinv n pc' r').
  { intros first Hf Hr E'. rewrite Hq in E'. simpl in E'. destruct (timer_shutdown first q) as [[q' returns]|] eqn:Et; [|done].
    destruct (timer_shutdown_spec _ _ _ _ Hok Hf Et) as (H1 & H2 & H3). simpl in E'. injection E' as <- <-.
    split; [done|done| |by destruct returns]. exists q'. split_ands; try done. destruct returns; [done|]. intros _. by apply H3. }
  destruct pc as [| | |rest| |]; cbn [destroy_runtime] in E; try done.
  - by eapply (Htimers true).
  - eapply (Htimers false); [|done|exact E]. intros _. by apply Hab.
  - destruct Hpc as [Hr Hl]. rewrite Hl in E. injection E as <- <-. split; [done|done|exists q; split_ands; try done; intros _; by apply Hab|].
    simpl. split_ands; try done; rewrite Hr.
    + apply list.Forall_forall. intros ex. rewrite elem_of_seq. lia.
    + intros ex Hex. left. rewrite elem_of_seq. lia.
  - destruct Hpc as (Hr & Hl & Hf & Hx).
    assert (Ht : forall pc'', pc'' <> d_timers -> exists q, m_timer_queue r = Some q /\ queue_ok q /\
      (pc'' <> d_begin -> m_atomic_abort q = true) /\ (pc'' = d_timers -> sd q <> sd_none)).
    { intros pc'' ?. exists q. split_ands; try done. intros _. by apply Hab. }
    destruct rest as [|ex rest]; simpl in E.
    + injection E as <- <-. split; [done|done|by apply Ht|]. simpl. split_ands; [done|done|].
      intros ex Hex. destruct (Hx ex Hex) as [Hin|]; [by apply not_elem_of_nil in Hin|done].
    + inversion_clear Hf as [|? ? Hex Hf']. destruct (reached _ Hw) as [Hi _].
      destruct (executor_shutdown_spec _ ex Hi) as (w1 & E1 & _ & S1 & e1 & He1 & Ha1); [by rewrite Hn|].
      unfold in_world in E. rewrite E1 in E. injection E as <- <-.
      split; simpl; [by apply (lt_step _ (op_shutdown ex) (Ok tt) (the_world r)); [|simpl; by rewrite Hn|]|by rewrite (s_count _ _ S1)|by apply Ht|].
      split_ands; try done. intros ex' Hex'. destruct (Hx ex' Hex') as [[->|]%elem_of_cons|].
      * right. by exists e1.
      * by left.
      * right. by eapply shut_down_kept.
Qed.

Lemma destructor_keeps n s s' : rtc dstep s s' -> dinv n s.1 s.2 -> dinv n s'.1 s'.2.
Proof.
  induction 1 as [|s1 s2 s3 [pc r [pc' r'] E|pc r r' E] _ IH]; [done|..]; intros H; apply IH; simpl.
  - by eapply dinv_self.
  - by eapply dinv_others.
Qed.

(** ** The destructor goes on *)
Definition finishes (s : dpc * runtime) : Prop :=
  exists s', rtc dstep s s' /\
    (s'.1 = d_returned \/ exists q, m_timer_queue s'.2 = Some q /\ worker q = terminated false).

Lemma finishes_step s s' : dstep s s' -> finishes s' -> finishes s.
Proof. intros H (s2 & H2 & ?). exists s2. split; [by eapply rtc_l|done]. Qed.

Lemma finishes_self n pc r :
  dinv n pc r -> match pc with d_lock | d_executors _ | d_returned => True | _ => False end -> finishes (pc, r).
Proof.
  intros H Hpc.
  assert (Hloop : forall rest r, dinv n (d_executors rest) r -> finishes (d_executors rest, r)).
  { induction rest as [|ex rest IH]; intros r1 H1.
    - eapply finishes_step; [apply ds_self; reflexivity|]. eexists. split; [apply rtc_refl|by left].
    - destruct (shutdown_all (ex :: rest) r1) as [pc' r'] eqn:E.
      assert (Hs : destroy_runtime (d_executors (ex :: rest)) r1 = Some (pc', r')) by (simpl; by rewrite <-E).
      pose proof (dinv_self _ _ _ _ _ H1 Hs) as H2. eapply finishes_step; [by apply ds_self|].
      assert (pc' = d_executors rest) as ->; [|by apply IH]. unfold shutdown_all in E.
      destruct (in_world (shutdown ex) r1) as [[| |] r2]; injection E as <- <-; [done|by destruct (v_pc _ _ _ H2)..]. }
  destruct pc as [| | |rest| |]; try done; [|by apply Hloop|].
  - destruct (v_pc _ _ _ H) as [_ Hl].
    assert (Hs : destroy_runtime d_lock r = Some (d_executors (m_executors r), set_lock true r)) by (simpl; by rewrite Hl).
    eapply finishes_step; [by apply ds_self|]. apply Hloop. by eapply dinv_self.
  - eexists. split; [apply rtc_refl|by left].
Qed.

Lemma terminated_finishes pc r q : m_timer_queue r = Some q -> worker q = terminated false -> finishes (pc, r).
Proof. intros Hq Hw. exists (pc, r). split; [done|]. right. by exists q. Qed.

(** The steps of the timer queue are steps of the destructor or of its worker. *)
Lemma run_timers n ls q q' r :
  dinv n d_timers r -> m_timer_queue r = Some q -> run TimerService.step ls q = Some q' ->
  Forall (fun l => shutdown_label l = true) ls -> stopped q' -> finishes (d_timers, r).
Proof.
  intros H Hq E Hl Hs. revert q r H Hq E. induction Hl as [|l ls Hl _ IH]; intros q r H Hq E; simpl in E.
  - injection E as <-. destruct Hs as [Hs|[Hs Hw]]; [by eapply terminated_finishes|].
    assert (Hd : destroy_runtime d_timers r = Some (d_lock, set_timer_queue q r)).
    { simpl. rewrite Hq. simpl. by rewrite Hs. }
    eapply finishes_step; [by apply ds_self|]. eapply finishes_self; [by eapply dinv_self|done].
  - destruct (TimerService.step l q) as [q1|] eqn:El; [|done].
    cut (dstep (d_timers, r) (d_timers, set_timer_queue q1 r)).
    { intros Hd. eapply finishes_step; [exact Hd|]. apply (IH q1); [|done|done].
      by apply (destructor_keeps n _ _ (rtc_once _ _ Hd)). }
    destruct (shuts_down l) eqn:Esd; [|by apply ds_other; eapply o_timers; [|exact El|left]].
    apply ds_self. cbn [destroy_runtime]. rewrite Hq. simpl. unfold timer_shutdown.
    destruct l; try done; unfold TimerService.step in El; destruct (worker q) eqn:Ew, (sd q) eqn:Es; try done; simpl;
      unfold TimerService.step; rewrite Ew, ?Es; by injection El as <-.
Qed.

Lemma ended_worker q : stop_inv q -> worker q = terminated false \/ TimerService.step l_shutdown q = Some (shutdown_exchange q).
Proof.
  intros Hs. destruct (worker q) as [| | |to|q0| |[]] eqn:Ew; try (by left);
    [..|by destruct (i_assert q (t_service q Hs))]; right; unfold TimerService.step; by rewrite Ew.
Qed.

Lemma destructor_finishes n pc r q :
  dinv n pc r -> m_timer_queue r = Some q -> positive_timers (states (timers (sw q))) -> finishes (pc, r).
Proof.
  intros H Hq Hpos. destruct (v_timers _ _ _ H) as (q0 & Hq0 & [now Hr] & Hab & Hsd). assert (q0 = q) as -> by congruence.
  assert (Htimers : forall q r, dinv n d_timers r -> m_timer_queue r = Some q -> stops q -> finishes (d_timers, r)).
  { intros q1 r1 H1 Hq1 (ls & q2 & E & Hl & Hs). by eapply run_timers. }
  destruct pc as [| | |rest| |]; [| |by eapply finishes_self..|by destruct (v_pc _ _ _ H)].
  - destruct (stop_reachable now q Hr) as [Ht|Hs]; [by eapply terminated_finishes|].
    destruct (ended_worker q Hs) as [Ht|El]; [by eapply terminated_finishes|].
    assert (Hd : destroy_runtime d_begin r = Some (if m_atomic_abort q then d_lock else d_timers, set_timer_queue (shutdown_exchange q) r)).
    { cbn [destroy_runtime]. rewrite Hq. simpl. by rewrite El. }
    pose proof (dinv_self _ _ _ _ _ H Hd) as H1. eapply finishes_step; [by apply ds_self|].
    unfold shutdown_exchange in *. destruct (m_atomic_abort q) eqn:Ea; [by eapply finishes_self|].
    eapply Htimers; [done|done|]. eapply (begun_stops now); [by eapply reachable_step|done|exact Hpos].
  - apply (Htimers q); [done|done|]. apply (begun_stops now); auto.
Qed.
End runtime.


(** ** Witnesses *)
Definition some_callable : callable nat := make_callable 7 false (fun _ => inl 42).
Definition stubborn_body : body (T := nat) :=
  b_resume_on (Some 1) (fun _ => b_resume_on (Some 2) (fun a => match a with None => b_return 5 | Some e => b_throw e end)).

Definition some_operations : list (runtime_operation (T := nat)) :=
  [ro_use (op_submit 1 some_callable); ro_make_manual_executor; ro_use (op_start pk_result stubborn_body);
   ro_timers (l_make 1 10 5); ro_timers l_notify; ro_timers l_worker_lock].

Definition after_operations (l : list runtime_operation) : runtime (T := nat) :=
  foldl (fun r o => (perform_runtime o r).2) (construct_runtime 100 empty_runtime).2 l.

Lemma used_snoc l o :
  used_runtime (after_operations l) -> runtime_op_ok (after_operations l) o -> used_runtime (after_operations (l ++ [o])).
Proof.
  intros H Hok. unfold after_operations. rewrite foldl_app. simpl. eapply (ur_step o _ (after_operations l)); [done|done|].
  apply surjective_pairing.
Qed.

Lemma some_runtime_used : used_runtime (after_operations some_operations).
Proof.
  assert (H0 : used_runtime (after_operations [])) by (apply (ur_construct 100); by vm_compute).
  apply (used_snoc [] (ro_use (op_submit 1 some_callable))) in H0 as H1; [|split; [vm_compute; lia|done]].
  apply (used_snoc _ ro_make_manual_executor) in H1 as H2; [|done].
  apply (used_snoc _ (ro_use (op_start pk_result stubborn_body))) in H2 as H3;
    [|split; [|done]; split; [vm_compute; lia|]; intros a; split; [vm_compute; lia|]; by intros [|]].
  apply (used_snoc _ (ro_timers (l_make 1 10 5))) in H3 as H4; [|done].
  apply (used_snoc _ (ro_timers l_notify)) in H4 as H5; [|done].
  by apply (used_snoc _ (ro_timers l_worker_lock)) in H5 as H6.
Qed.

(** The steps of the destructor alone, up to [n]. *)
Fixpoint destructor (n : nat) (s : dpc * runtime (T := nat)) : dpc * runtime :=
  match n with
  | 0 => s
  | S n => match destroy_runtime s.1 s.2 with Some s' => destructor n s' | None => s end
  end.

Lemma destructor_steps n s : rtc dstep s (destructor n s).
Proof.
  revert s. induction n as [|n IH]; intros [pc r]; simpl; [done|].
  destruct (destroy_runtime pc r) as [s'|] eqn:E; [|done]. eapply rtc_l; [by apply ds_self|apply IH].
Qed.

(** The destructor waits for the worker of the timer queue, which processes a
    batch; then it goes on and returns. *)
Definition joining : dpc * runtime := destructor 3 (d_begin, after_operations some_operations).
Definition worker_runs (r : runtime (T := nat)) : runtime :=
  step_timers l_worker_lock (step_timers (l_worker_process 5 []) r).
Definition destroyed : dpc * runtime := destructor 20 (d_timers, worker_runs joining.2).

Lemma timers_other l pc (r : runtime (T := nat)) : shuts_down l = false -> rtc dstep (pc, r) (pc, step_timers l r).
Proof.
  intros Hl. unfold step_timers. destruct (m_timer_queue r) as [q|] eqn:Hq; simpl; [|done].
  destruct (TimerService.step l q) as [q'|] eqn:E; [|done]. apply rtc_once, ds_other. eapply o_timers; [done|done|by left].
Qed.

Lemma joining_reached : rtc dstep (d_begin, after_operations some_operations) (d_timers, joining.2).
Proof.
  assert (E : joining = (d_timers, joining.2)) by (rewrite (surjective_pairing joining) at 1; f_equal; by vm_compute).
  rewrite <-E. apply destructor_steps.
Qed.

Lemma worker_then_destructor n r : rtc dstep (d_timers, r) (destructor n (d_timers, worker_runs r)).
Proof.
  etrans; [|apply destructor_steps]. unfold worker_runs. etrans; [by apply (timers_other (l_worker_process 5 []))|].
  by apply timers_other.
Qed.

Lemma destroyed_reached : rtc dstep (d_begin, after_operations some_operations) (d_returned, destroyed.2).
Proof.
  assert (E : destroyed = (d_returned, destroyed.2)) by (rewrite (surjective_pairing destroyed) at 1; f_equal; by vm_compute).
  rewrite <-E. unfold destroyed. eapply rtc_trans; [apply joining_reached|apply worker_then_destructor].
Qed.

Lemma positive_checked (h : gmap.gmap Timer.timer_id Timer.timer_state) :
  bool_decide (fin_maps.map_Forall (fun _ st => Timer.m_is_oneshot st = true \/ (0 < Timer.of_size_t (Timer.m_frequency st))%Z) h) = true ->
  positive_timers h.
Proof.
  intros Hall%bool_decide_eq_true t st H Hos. destruct (Hall t st H); [congruence|done].
Qed.

