(* ===== verification/SharedResult.v ===== *)
(** * shared_result: one result, many consumers

    [include/concurrencpp/results/impl/shared_result_state.h],
    [source/results/impl/shared_result_state.cpp],
    [include/concurrencpp/results/shared_result.h] and
    [include/concurrencpp/results/shared_result_awaitable.h].

    A [shared_result_state] is the consumer of a [result_state] and has any
    number of consumers of its own.  The model is the composition of the
    transition system of [ResultState] with: one agent for each thread or
    coroutine that uses the shared result, each with one [shared_result] object;
    the lock-free list of awaiters, whose nodes live in the frames of the
    agents; the reference count of the [shared_ptr]s; and the thread that runs
    [on_result_finished], which is the producer or the constructor of the shared
    result.  One transition is one atomic action. *)

From stdpp Require Import prelude gmap list strings.
From Stdlib Require Import ZArith.
From S2P Require Import Prelude Errors ProducerContext ConsumerContext Slist ResultState.

(** [std::atomic<shared_await_context*> m_awaiters]: a pointer, or the constant
    that says that the result is ready. *)
Inductive awaiters_ptr :=
  | ptr (p : option addr)
  | result_ready_constant.

#[export] Instance awaiters_ptr_eq_dec : EqDecision awaiters_ptr.
Proof. solve_decision. Defined.

(** [m_semaphore.max()] of a [std::counting_semaphore<>]: the greatest
    [ptrdiff_t]. *)
Definition semaphore_max : Z := 2 ^ 63 - 1.

(** [co_await] of the result itself, or of [resolve()]. *)
Inductive await_kind := by_co_await | by_resolve.
(** What follows [wait()]. *)
Inductive after_wait := wait_then_return | wait_then_get.
(** Who called [status()]. *)
Inductive after_status :=
  | st_return
  | st_wait (k : after_wait)     (* wait() *)
  | st_loop (t : Z)              (* the condition of the loop of wait_until(t) *)
  | st_final (t : Z).            (* return status(), of wait_until(t) *)

(** [on_result_finished]. *)
Inductive finisher_pc :=
  | F_none                       (* not called yet *)
  | F_store | F_notify | F_release | F_exchange
  | F_reverse (current prev : option addr)
  | F_loop (awaiters : option addr)
  | F_call (caller_handle : handle) (awaiters : option addr)
  | F_unlock                     (* the locked weak_ptr goes out of scope *)
  | F_done.

(** [on_result_finished] has been called and has not returned. *)
Definition running (f : finisher_pc) : bool :=
  match f with F_none | F_done => false | _ => true end.

Section shared_result.
Context {T : Type}.

(** What the last call of an agent returned. *)
Inductive ret :=
  | v_none | v_void
  | v_status (s : result_status)
  | v_got (o : outcome exn T)
  | v_threw (e : exn).

Inductive agent_pc :=
  | S_idle (r : ret)
  | S_constructing                                  (* shared_result(result) *)
  | S_await_load (k : await_kind)                   (* await(): the load *)
  | S_await_cas (k : await_kind) (before : option addr)  (* the compare_exchange *)
  | S_suspended (k : await_kind)
  | S_resumed (k : await_kind)                      (* before await_resume() *)
  | S_status (k : after_status)                     (* the load of status() *)
  | S_wait (k : after_wait)                         (* m_status.wait, comparing *)
  | S_parked (k : after_wait)                       (* m_status.wait, blocked *)
  | S_get                                           (* m_state->get() *)
  | S_clock (t : Z)                                 (* clock::now() < timeout_time *)
  | S_acquire (t : Z).                              (* try_acquire_until *)

(** An agent and its [shared_result]: [held] says that [m_state] is not null. *)
Record agent := make_agent { a_pc : agent_pc; held : bool }.

Record state := make_state {
  rs : ResultState.state T;          (* the state m_result_state points to *)
  m_status : result_status;
  m_awaiters : awaiters_ptr;
  m_semaphore : Z;
  nexts : node_heap;                 (* next of the live shared_await_contexts *)
  handles : gmap addr handle;        (* and their caller_handle *)
  use_count : nat;                   (* of the shared_ptrs to the shared state *)
  born : bool;                       (* the result was moved into a shared result *)
  finisher : finisher_pc;
  locked : bool;                     (* the finisher holds a shared_ptr: it is the producer *)
  agents : list agent;
  clock : Z;
  registered : list addr;            (* the awaiters in the order of their CAS *)
  resumed : list addr;               (* in the order of their resumption *)
  failed : bool                      (* an assertion failed, or a dead object was used *)
}.

Definition set_rs v s := make_state v (m_status s) (m_awaiters s) (m_semaphore s) (nexts s) (handles s)
  (use_count s) (born s) (finisher s) (locked s) (agents s) (clock s) (registered s) (resumed s) (failed s).
Definition set_status v s := make_state (rs s) v (m_awaiters s) (m_semaphore s) (nexts s) (handles s)
  (use_count s) (born s) (finisher s) (locked s) (agents s) (clock s) (registered s) (resumed s) (failed s).
Definition set_awaiters v s := make_state (rs s) (m_status s) v (m_semaphore s) (nexts s) (handles s)
  (use_count s) (born s) (finisher s) (locked s) (agents s) (clock s) (registered s) (resumed s) (failed s).
Definition set_semaphore v s := make_state (rs s) (m_status s) (m_awaiters s) v (nexts s) (handles s)
  (use_count s) (born s) (finisher s) (locked s) (agents s) (clock s) (registered s) (resumed s) (failed s).
Definition set_contexts v w s := make_state (rs s) (m_status s) (m_awaiters s) (m_semaphore s) v w
  (use_count s) (born s) (finisher s) (locked s) (agents s) (clock s) (registered s) (resumed s) (failed s).
Definition set_use_count v s := make_state (rs s) (m_status s) (m_awaiters s) (m_semaphore s) (nexts s) (handles s)
  v (born s) (finisher s) (locked s) (agents s) (clock s) (registered s) (resumed s) (failed s).
Definition set_born v s := make_state (rs s) (m_status s) (m_awaiters s) (m_semaphore s) (nexts s) (handles s)
  (use_count s) v (finisher s) (locked s) (agents s) (clock s) (registered s) (resumed s) (failed s).
Definition set_finisher v s := make_state (rs s) (m_status s) (m_awaiters s) (m_semaphore s) (nexts s) (handles s)
  (use_count s) (born s) v (locked s) (agents s) (clock s) (registered s) (resumed s) (failed s).
Definition set_locked v s := make_state (rs s) (m_status s) (m_awaiters s) (m_semaphore s) (nexts s) (handles s)
  (use_count s) (born s) (finisher s) v (agents s) (clock s) (registered s) (resumed s) (failed s).
Definition set_agents v s := make_state (rs s) (m_status s) (m_awaiters s) (m_semaphore s) (nexts s) (handles s)
  (use_count s) (born s) (finisher s) (locked s) v (clock s) (registered s) (resumed s) (failed s).
Definition set_clock v s := make_state (rs s) (m_status s) (m_awaiters s) (m_semaphore s) (nexts s) (handles s)
  (use_count s) (born s) (finisher s) (locked s) (agents s) v (registered s) (resumed s) (failed s).
Definition set_registered v s := make_state (rs s) (m_status s) (m_awaiters s) (m_semaphore s) (nexts s) (handles s)
  (use_count s) (born s) (finisher s) (locked s) (agents s) (clock s) v (resumed s) (failed s).
Definition set_resumed v s := make_state (rs s) (m_status s) (m_awaiters s) (m_semaphore s) (nexts s) (handles s)
  (use_count s) (born s) (finisher s) (locked s) (agents s) (clock s) (registered s) v (failed s).
Definition fault s := make_state (rs s) (m_status s) (m_awaiters s) (m_semaphore s) (nexts s) (handles s)
  (use_count s) (born s) (finisher s) (locked s) (agents s) (clock s) (registered s) (resumed s) true.

Definition set_agent (i : addr) (a : agent) (s : state) : state := set_agents (<[i := a]> (agents s)) s.
Definition set_next (a : addr) (n : option addr) (s : state) : state :=
  set_contexts (<[a := n]> (nexts s)) (handles s) s.

(** Before the result is shared: [n] agents with empty [shared_result]s. *)
Definition init (n : nat) : state :=
  make_state ResultState.init idle (ptr None) 0 ∅ ∅ 0 false F_none false
    (replicate n (make_agent (S_idle v_none) false)) 0 [] [] false.

(** ** The result_state, as the shared state uses it *)

(** [m_result_state->status()]. *)
Definition result_status_of (r : ResultState.state T) : outcome exn result_status :=
  match m_pc_state r with
  | consumer_set => Abort
  | pc_idle => Ok idle
  | _ => Ok (ProducerContext.status (m_producer r))
  end.

(** [m_result_state->get_ref()]. *)
Definition get_ref (r : ResultState.state T) : outcome exn T :=
  if decide (m_pc_state r = producer_done) then (ProducerContext.get_ref (m_producer r)).1 else Abort.

(** A [shared_ptr] is dropped.  The last one runs [~shared_result_state], which
    begins with [try_rewind_consumer()]. *)
Definition drop_ref (s : state) : state :=
  match use_count s with
  | 0 => fault s
  | 1 =>
      match ResultState.step (L_call call_rewind) (rs s) with
      | Some r => set_rs r (set_use_count 0 s)
      | None => fault s
      end
  | S n => set_use_count n s
  end.

Definition add_ref (s : state) : state := set_use_count (S (use_count s)) s.

(** ** on_result_finished *)

(** [m_status.notify_all()]. *)
Definition wake_up (a : agent) : agent :=
  match a_pc a with S_parked k => make_agent (S_wait k) (held a) | _ => a end.

Definition finisher_step (s : state) : option state :=
  match finisher s with
  | F_none | F_done => None
  | F_store =>
      Some match result_status_of (rs s) with
           | Ok st => set_finisher F_notify (set_status st s)
           | _ => fault s
           end
  | F_notify => Some (set_finisher F_release (set_agents (wake_up <$> agents s) s))
  | F_release =>
      Some (if (m_semaphore s + semaphore_max / 2 <=? semaphore_max)%Z
            then set_finisher F_exchange (set_semaphore (m_semaphore s + semaphore_max / 2)%Z s)
            else fault s)
  | F_exchange =>
      Some match m_awaiters s with
           | ptr p => set_finisher (F_reverse p None) (set_awaiters result_ready_constant s)
           | result_ready_constant => fault s
           end
  | F_reverse (Some a) prev =>
      Some match nexts s !! a with
           | Some next => set_finisher (F_reverse next (Some a)) (set_next a prev s)
           | None => fault s
           end
  | F_reverse None prev => Some (set_finisher (F_loop prev) s)
  | F_loop (Some a) =>
      Some match handles s !! a, nexts s !! a with
           | Some h, Some next => set_finisher (F_call h next) s
           | _, _ => fault s
           end
  | F_loop None => Some (set_finisher F_unlock s)
  | F_call h next =>
      Some match agents s !! h with
           | Some (make_agent (S_suspended k) b) =>
               set_finisher (F_loop next)
                 (set_resumed (resumed s ++ [h]) (set_agent h (make_agent (S_resumed k) b) s))
           | _ => fault s
           end
  | F_unlock =>
      let s := set_finisher F_done s in
      Some (if locked s then drop_ref s else s)
  end.

(** A step of the [result_state].  When it calls [on_result_finished], the
    producer has locked its [weak_ptr]; the constructor has its own
    [shared_ptr]. *)
Definition result_step (by_producer : bool) (l : ResultState.label T) (s : state) : option state :=
  match ResultState.step l (rs s) with
  | None => None
  | Some r =>
      let s' := set_rs r s in
      Some (if decide (notified r = notified (rs s)) then s' else
              match finisher s with
              | F_none =>
                  set_finisher F_store (set_locked by_producer (if by_producer then add_ref s' else s'))
              | _ => fault s'
              end)
  end.

(** ** The agents *)
Definition go (i : addr) (a : agent) (p : agent_pc) (s : state) : state :=
  set_agent i (make_agent p (held a)) s.

Definition return_ (i : addr) (a : agent) (r : ret) (s : state) : state := go i a (S_idle r) s.

(** The condition of a branch on the loaded status, or its [return]. *)
Definition status_step (i : addr) (a : agent) (k : after_status) (s : state) : state :=
  let st := m_status s in
  match k with
  | st_return | st_final _ => return_ i a (v_status st) s
  | st_wait k =>
      if decide (st = idle) then go i a (S_wait k) s
      else match k with wait_then_return => return_ i a v_void s | wait_then_get => go i a S_get s end
  | st_loop t => if decide (st = idle) then go i a (S_clock t) s else go i a (S_status (st_final t)) s
  end.

(** [m_status.wait(idle)]. *)
Definition wait_step (i : addr) (a : agent) (k : after_wait) (s : state) : state :=
  if decide (m_status s = idle) then go i a (S_parked k) s
  else match k with wait_then_return => return_ i a v_void s | wait_then_get => go i a S_get s end.

(** The rest of [wait_until(t)]. *)
Definition clock_step (i : addr) (a : agent) (t : Z) (s : state) : state :=
  if (clock s <? t)%Z then go i a (S_acquire t) s else go i a (S_status (st_final t)) s.

Definition acquire_step (i : addr) (a : agent) (t : Z) (s : state) : option state :=
  if (0 <? m_semaphore s)%Z
  then Some (go i a (S_status (st_loop t)) (set_semaphore (m_semaphore s - 1)%Z s))
  else None.

(** [shared_result_state_base::await]. *)
Definition await_load_step (i : addr) (a : agent) (k : await_kind) (s : state) : state :=
  match m_awaiters s with
  | result_ready_constant => go i a (S_resumed k) s
  | ptr before => go i a (S_await_cas k before) (set_next i before s)
  end.

Definition await_cas_step (i : addr) (a : agent) (k : await_kind) (before : option addr) (s : state) : state :=
  if decide (m_awaiters s = ptr before) then
    go i a (S_suspended k) (set_registered (registered s ++ [i]) (set_awaiters (ptr (Some i)) s))
  else go i a (S_await_load k) s.

Definition get_step (i : addr) (a : agent) (s : state) : state :=
  match get_ref (rs s) with
  | Abort => fault s
  | o => return_ i a (v_got o) s
  end.

(** The awaitable, a temporary in the frame of the agent, is destroyed. *)
Definition destroy_awaitable (i : addr) (s : state) : state :=
  drop_ref (set_contexts (delete i (nexts s)) (delete i (handles s)) s).

(** [await_resume], and the end of the awaitable: [shared_resolve_awaitable]
    returns its pointer in a [shared_result]. *)
Definition await_resume_step (i : addr) (a : agent) (k : await_kind) (s : state) : state :=
  match k with
  | by_co_await =>
      match get_ref (rs s) with
      | Abort => fault s
      | o => destroy_awaitable i (return_ i a (v_got o) s)
      end
  | by_resolve => destroy_awaitable i (return_ i a v_void s)
  end.

(** The constructor returns after [share]. *)
Definition constructing_step (i : addr) (s : state) : option state :=
  match cons (rs s) with
  | C_registered _ =>
      if running (finisher s) && negb (locked s) then None
      else Some (set_agent i (make_agent (S_idle v_void) true) s)
  | _ => None
  end.

Definition act_step (i : addr) (a : agent) (s : state) : option state :=
  match a_pc a with
  | S_constructing => constructing_step i s
  | S_await_load k => Some (await_load_step i a k s)
  | S_await_cas k before => Some (await_cas_step i a k before s)
  | S_resumed k => Some (await_resume_step i a k s)
  | S_status k => Some (status_step i a k s)
  | S_wait k => Some (wait_step i a k s)
  | S_get => Some (get_step i a s)
  | S_clock t => Some (clock_step i a t s)
  | S_acquire t => acquire_step i a t s
  | S_idle _ | S_suspended _ | S_parked _ => None
  end.

(** ** Calls *)
Inductive call :=
  | call_construct                 (* shared_result(result) *)
  | call_status | call_wait
  | call_wait_until (t : Z) | call_wait_for (duration : Z)
  | call_get
  | call_co_await | call_resolve
  | call_assign_copy (src : addr)  (* g = the shared_result of agent src *)
  | call_assign_move (src : addr)  (* g = std::move(the shared_result of agent src) *)
  | call_destroy.                  (* ~shared_result *)

(** [throw_if_empty(message)], or the call goes on. *)
Definition throw_if_empty (message : string) (i : addr) (a : agent) (k : state -> state) (s : state) : state :=
  if held a then k s else return_ i a (v_threw (make_exn empty_result message)) s.

(** [co_await]: the awaitable gets a [shared_ptr] and [await_suspend] sets its
    handle. *)
Definition start_await (i : addr) (a : agent) (k : await_kind) (s : state) : state :=
  go i a (S_await_load k) (add_ref (set_contexts (<[i := None]> (nexts s)) (<[i := i]> (handles s)) s)).

(** [shared_result(result<type> rhs)]: [rhs] is the result, or empty when the
    result was shared before. *)
Definition construct (i : addr) (s : state) : option state :=
  if born s then Some (set_agent i (make_agent (S_idle v_void) false) s)
  else
    match ResultState.step (L_call (call_share 0)) (rs s) with
    | Some r =>
        Some (set_agent i (make_agent S_constructing false)
                (set_rs r (set_use_count 1 (set_born true s))))
    | None => None
    end.

(** [operator=(const shared_result& rhs)]; all states are the same one. *)
Definition assign_copy (i src : addr) (a b : agent) (s : state) : state :=
  if decide (i ≠ src /\ held a ≠ held b) then
    let s' := set_agent i (make_agent (S_idle v_void) (held b)) s in
    if held b then add_ref s' else drop_ref s'
  else return_ i a v_void s.

(** [operator=(shared_result&& rhs)]: [rhs] keeps its pointer when it points to
    the same state. *)
Definition assign_move (i src : addr) (a b : agent) (s : state) : state :=
  if decide (i ≠ src /\ held a ≠ held b) then
    let s' := set_agent i (make_agent (S_idle v_void) (held b))
                (set_agent src (make_agent (a_pc b) false) s) in
    if held b then s' else drop_ref s'
  else return_ i a v_void s.

Definition call_step (i : addr) (c : call) (s : state) : option state :=
  match agents s !! i with
  | Some a =>
      match a_pc a with
      | S_idle _ =>
          match c with
          | call_construct => if held a then None else construct i s
          | call_status =>
              Some (throw_if_empty k_shared_result_status_error_msg i a (go i a (S_status st_return)) s)
          | call_wait =>
              Some (throw_if_empty k_shared_result_wait_error_msg i a
                      (go i a (S_status (st_wait wait_then_return))) s)
          | call_wait_until t =>
              Some (throw_if_empty k_shared_result_wait_until_error_msg i a (go i a (S_status (st_loop t))) s)
          | call_wait_for d =>
              Some (throw_if_empty k_shared_result_wait_for_error_msg i a
                      (go i a (S_status (st_loop (clock s + d)%Z))) s)
          | call_get =>
              Some (throw_if_empty k_shared_result_get_error_msg i a (go i a (S_status (st_wait wait_then_get))) s)
          | call_co_await =>
              Some (throw_if_empty k_shared_result_operator_co_await_error_msg i a (start_await i a by_co_await) s)
          | call_resolve =>
              Some (throw_if_empty k_shared_result_resolve_error_msg i a (start_await i a by_resolve) s)
          | call_assign_copy src =>
              match agents s !! src with Some b => Some (assign_copy i src a b s) | None => None end
          | call_assign_move src =>
              match agents s !! src with
              | Some (make_agent (S_idle r) hb as b) => Some (assign_move i src a b s)
              | _ => None
              end
          | call_destroy =>
              let s' := set_agent i (make_agent (S_idle v_void) false) s in
              Some (if held a then drop_ref s' else s')
          end
      | _ => None
      end
  | None => None
  end.

(** ** The transition system *)
Inductive label :=
  | L_call (i : addr) (c : call)
  | L_act (i : addr)
  | L_timeout (i : addr)                  (* try_acquire_until gives up *)
  | L_spurious (i : addr)                 (* wait() wakes up, or the weak CAS fails, by itself *)
  | L_finish                              (* the next action of on_result_finished *)
  | L_producer (l : ResultState.label T)  (* the producer of the result *)
  | L_share                               (* share(), and the rest of ~shared_result_state *)
  | L_reset                               (* m_result_state.reset() in ~shared_result_state *)
  | L_tick (d : nat).

(** The labels of the producer. *)
Definition of_producer (l : ResultState.label T) : bool :=
  match l with
  | ResultState.L_set_result _ | ResultState.L_set_exception _
  | ResultState.L_complete _ | ResultState.L_producer => true
  | _ => false
  end.

(** Every action on the shared state needs it to be alive. *)
Definition alive (o : option state) (s : state) : option state :=
  if decide (use_count s = 0) then match o with Some _ => Some (fault s) | None => None end else o.

Definition step (l : label) (s : state) : option state :=
  match l with
  | L_call i c => call_step i c s
  | L_act i => match agents s !! i with Some a => alive (act_step i a s) s | None => None end
  | L_timeout i =>
      match agents s !! i with
      | Some (make_agent (S_acquire t) b) => Some (set_agent i (make_agent (S_status (st_loop t)) b) s)
      | _ => None
      end
  | L_spurious i =>
      match agents s !! i with
      | Some (make_agent (S_parked k) b) => Some (set_agent i (make_agent (S_wait k) b) s)
      | Some (make_agent (S_await_cas k _) b) => Some (set_agent i (make_agent (S_await_load k) b) s)
      | _ => None
      end
  | L_finish => alive (finisher_step s) s
  | L_producer l => if of_producer l then result_step true l s else None
  | L_share => result_step false ResultState.L_consumer s
  | L_reset =>
      match cons (rs s) with
      | C_own r_unshared => result_step false (ResultState.L_call call_complete) s
      | _ => None
      end
  | L_tick d => Some (set_clock (clock s + Z.of_nat d)%Z s)
  end.
End shared_result.
Arguments state : clear implicits.
Arguments label : clear implicits.
Arguments agent : clear implicits.
Arguments agent_pc : clear implicits.
Arguments ret : clear implicits.
