(* ===== verification/SharedResultProps.v ===== *)
(** * shared_result: the invariant

    What every reachable state of [SharedResult] satisfies: the reference count
    counts, the nodes between [m_awaiters] (or the local variables of
    [on_result_finished]) and null are the awaiters that were registered and not
    resumed, and every agent is where it should be. *)

From stdpp Require Import prelude gmap list strings.
From Stdlib Require Import ZArith Lia.
From S2P Require Import Prelude Errors ProducerContext ConsumerContext Slist ResultState ResultStateProps ResultStateFacts ResultStateTheorems SharedResult.

Local Open Scope list_scope.

(** ** Lemmas on lists *)
Lemma chain_ext h h' p l : (forall a, a ∈ l -> h' !! a = h !! a) -> chain h p l -> chain h' p l.
Proof.
  revert p. induction l as [|a l IH]; intros p He; simpl; [done|].
  intros [-> (n & Hn & Hc)]. split; [done|]. exists n. rewrite He by left.
  split; [done|]. apply IH; [|done]. intros b Hb. apply He. by right.
Qed.

Lemma sum_insert_nat {A} (f : A -> nat) (l : list A) (i : nat) x y :
  l !! i = Some x -> sum_list_with f (<[i := y]> l) + f x = sum_list_with f l + f y.
Proof.
  revert i. induction l as [|z l IH]; intros [|i] H; simplify_eq/=; [lia|].
  specialize (IH i H). lia.
Qed.

Lemma sum_insert {A} (f : A -> nat) (l : list A) (i : addr) x y :
  l !! i = Some x -> sum_list_with f (<[i := y]> l) + f x = sum_list_with f l + f y.
Proof. apply sum_insert_nat. Qed.

Lemma sum_lookup {A} (f : A -> nat) (l : list A) (i : addr) x : l !! i = Some x -> f x <= sum_list_with f l.
Proof. intros H. by apply sum_list_with_in, (list_elem_of_lookup_2 _ i). Qed.

Lemma sum_map {A} (f : A -> nat) (g : A -> A) (l : list A) :
  (forall x, f (g x) = f x) -> sum_list_with f (g <$> l) = sum_list_with f l.
Proof. intros H. induction l as [|x l IH]; csimpl; [done|]. by rewrite H, IH. Qed.

(** ** The result_state *)
Section result.
Context {T : Type}.
Implicit Types r : ResultState.state T.
Notation rstep := (@ResultState.step T).

(** [share()] has begun and has not returned. *)
Definition share_running (c : consumer_pc T) : bool :=
  match c with
  | C_share_load _ | C_share_set _ | C_share_cas _ | C_share_notify _ | C_assert_done (then_notify _) => true
  | _ => false
  end.

Definition is_shared (c : consumer_pc T) : bool :=
  match c with C_registered (r_shared _) => true | _ => share_running c end.

(** [~shared_result_state]. *)
Definition is_destroying (c : consumer_pc T) : bool :=
  match c with
  | C_rewind_load r_unshared | C_rewind_cas r_unshared | C_rewind_clear r_unshared
  | C_assert_done (then_return r_unshared) | C_own r_unshared
  | C_cc_load | C_cc_exchange | C_cc_delete | C_gone None => true
  | _ => false
  end.

(** Who calls [on_result_finished]. *)
Lemma notified_changes l r r' :
  rstep l r = Some r' ->
  notified r' = notified r \/
  (notified r' = S (notified r) /\
   ((l = ResultState.L_producer /\ (exists ctx, cons r = C_registered (r_shared ctx)) /\
     exists ctx, prod r = P_act (consumer_context.notify_shared ctx)) \/
    (l = ResultState.L_consumer /\ exists ctx, cons r = C_share_notify ctx))).
Proof.
  destruct l; simpl; intros H.
  - left. unfold set_result_step in H. by repeat case_match; simplify_eq/=.
  - left. unfold set_exception_step in H. by repeat case_match; simplify_eq/=.
  - left. by repeat case_match; simplify_eq/=.
  - destruct r as [pcs con dh pr sems fr nt c p]. unfold ResultState.producer_step, complete_producer_exchange, ResultState.act_step, delete_self in H.
    simpl in *. destruct p as [| | | |[]| | | |]; simplify_eq/=; try (by left);
      try destruct pcs; try destruct c; simpl; try (by left); repeat case_match; eauto 12.
  - left. unfold ResultState.call_step in H. by repeat case_match; simplify_eq/=.
  - destruct r as [pcs con dh pr sems fr nt c p]. unfold ResultState.consumer_step in H. simpl in *.
    destruct c; simplify_eq/=; unfold assert_done_step, write_consumer, ResultState.cas, ResultState.get_step, delete_self in *;
      simpl in *; repeat first [progress simplify_eq/= | case_match]; eauto 8.
  - left. by repeat case_match; simplify_eq/=.
  - left. by repeat case_match; simplify_eq/=.
Qed.

Lemma producer_keeps_cons l r r' :
  of_producer l = true -> rstep l r = Some r' -> is_shared (cons r') = is_shared (cons r) /\
  share_running (cons r') = share_running (cons r) /\ is_destroying (cons r') = is_destroying (cons r) /\
  (cons r = C_own r_start -> cons r' = C_own r_start).
Proof.
  destruct l; try done; intros _; simpl; intros H.
  - unfold set_result_step in H. by repeat case_match; simplify_eq/=.
  - unfold set_exception_step in H. by repeat case_match; simplify_eq/=.
  - by repeat case_match; simplify_eq/=.
  - destruct r as [pcs con dh pr sems fr nt c p].
    unfold ResultState.producer_step, complete_producer_exchange, ResultState.act_step, delete_self in H. simpl in *.
    destruct p as [| | | |[]| | | |]; simplify_eq/=; try done;
      try destruct pcs; try destruct c; simpl; repeat case_match; simplify_eq/=; done.
Qed.

Lemma not_aborted r : reachable rstep ResultState.init r -> cons r <> C_aborted.
Proof.
  intros Hi%inv_reachable E. unfold inv, pending_inv, published_inv in Hi. rewrite E in Hi.
  destruct (prod r); naive_solver.
Qed.

Lemma share_step_phase r r' :
  reachable rstep ResultState.init r -> rstep ResultState.L_consumer r = Some r' ->
  (is_shared (cons r) = true -> is_shared (cons r') = true) /\
  (share_running (cons r') = true -> share_running (cons r) = true) /\
  (is_destroying (cons r) = true -> is_destroying (cons r') = true) /\
  (cons r = C_own r_start -> False).
Proof.
  intros Hr H.
  assert (Ha : cons r' <> C_aborted) by (apply not_aborted; by eapply reachable_step).
  simpl in H. destruct r as [pcs con dh pr sems fr nt c p]. unfold ResultState.consumer_step in H. simpl in *.
  destruct c; simplify_eq/=; unfold assert_done_step, write_consumer, ResultState.cas, ResultState.get_step, delete_self in *;
    simpl in *; repeat first [progress simplify_eq/= | case_match]; split_ands; intros; simplify_eq/=; try done;
    repeat case_match; simplify_eq/=; done.
Qed.

Lemma shared_registered r :
  reachable rstep ResultState.init r -> is_shared (cons r) = true -> notified r <> 0 ->
  exists ctx, cons r = C_registered (r_shared ctx).
Proof.
  intros Hsh%share_inv_reachable Hs Hn. unfold share_inv in Hsh.
  destruct (cons r) eqn:E; simplify_eq/=; try (destruct_and?; done).
  - destruct r0; try done. eauto.
  - destruct k; try done. destruct_and?; done.
Qed.

(** When [on_result_finished] was called, the result is there. *)
Lemma finished_published r :
  reachable rstep ResultState.init r -> is_shared (cons r) = true -> notified r <> 0 ->
  published (prod r) = true /\ m_pc_state r = producer_done.
Proof.
  intros Hr Hs Hn. pose proof (inv_reachable r Hr) as Hi. pose proof (share_inv_reachable r Hr) as Hsh.
  unfold share_inv in Hsh. destruct (cons r) eqn:E; simplify_eq/=; try (destruct_and?; done).
  - destruct r0; try done. destruct (published (prod r)) eqn:Ep; [|done]. split; [done|].
    unfold inv, published_inv in Hi. rewrite E in Hi. destruct (prod r); simpl in *; naive_solver.
  - destruct k; try done. destruct_and?; done.
Qed.

Lemma about_to_notify r :
  reachable rstep ResultState.init r ->
  (exists ctx, cons r = C_registered (r_shared ctx)) /\ (exists ctx, prod r = P_act (consumer_context.notify_shared ctx)) \/
  (exists ctx, cons r = C_share_notify ctx) ->
  notified r = 0 /\ published (prod r) = true.
Proof.
  intros Hr H. pose proof (inv_reachable r Hr) as Hi. pose proof (share_inv_reachable r Hr) as Hsh.
  unfold share_inv in Hsh. destruct H as [[[c Hc] [c' Hp]]|[c Hc]]; rewrite Hc in Hsh.
  - rewrite Hp in *. simpl in *. split; [|done]. destruct Hsh as [[_ H]|[H _]]; [done|]. destruct H. by exists c'.
  - simpl in Hsh. destruct Hsh as [Hn _]. split; [done|].
    unfold inv, pending_inv in Hi. rewrite Hc in Hi. destruct (prod r); naive_solver.
Qed.

Lemma result_status_of_ready r p :
  m_pc_state r = producer_done -> content (m_producer r) = Some p ->
  result_status_of r = Ok (status_of_payload p).
Proof.
  intros Hd Hc. unfold result_status_of, ProducerContext.status. rewrite Hd. f_equal.
  rewrite (content_status _ _ Hc). by destruct p.
Qed.

Lemma get_ref_ready r p :
  m_pc_state r = producer_done -> content (m_producer r) = Some p -> get_ref r = payload_outcome p.
Proof.
  intros Hd Hc. unfold get_ref. rewrite Hd, decide_True by done. by rewrite (get_ref_content _ _ Hc).
Qed.
End result.

(** ** The invariant *)
Section invariant.
Context {T : Type}.
Implicit Types s : SharedResult.state T.
Implicit Types a b : agent T.
Notation rstep := (@ResultState.step T).

(** The [shared_ptr]s of an agent: its [shared_result], and the awaitable (or
    the constructor) in its frame. *)
Definition pc_refs (p : agent_pc T) : nat :=
  match p with
  | S_constructing | S_await_load _ | S_await_cas _ _ | S_suspended _ | S_resumed _ => 1
  | _ => 0
  end.
Definition refs a : nat := (if held a then 1 else 0) + pc_refs (a_pc a).

(** It is in a call that uses its [shared_result]. *)
Definition uses (p : agent_pc T) : bool :=
  match p with S_status _ | S_wait _ | S_parked _ | S_get | S_clock _ | S_acquire _ => true | _ => false end.

Definition in_list (p : agent_pc T) : bool :=
  match p with S_await_load _ | S_await_cas _ _ | S_suspended _ => true | _ => false end.
Definition is_suspended (p : agent_pc T) : bool := match p with S_suspended _ => true | _ => false end.
Definition is_resumed (p : agent_pc T) : bool := match p with S_resumed _ => true | _ => false end.
Definition is_parked (p : agent_pc T) : bool := match p with S_parked _ => true | _ => false end.
Definition is_constructing (p : agent_pc T) : bool := match p with S_constructing => true | _ => false end.

Definition fin_refs s : nat := if running (finisher s) && locked s then 1 else 0.

(** Before [m_status.store], [notify_all] and [m_semaphore.release]. *)
Definition unstored (f : finisher_pc) : bool := match f with F_none | F_store => true | _ => false end.
Definition unnotified (f : finisher_pc) : bool :=
  match f with F_none | F_store | F_notify => true | _ => false end.
Definition unreleased (f : finisher_pc) : bool :=
  match f with F_none | F_store | F_notify | F_release => true | _ => false end.

(** The nodes that can be reached are the awaiters that were registered and not
    resumed: newest first in [m_awaiters], oldest first when they are resumed. *)
Definition linked s : Prop :=
  match finisher s with
  | F_none | F_store | F_notify | F_release | F_exchange =>
      (exists p, m_awaiters s = ptr p /\ chain (nexts s) p (reverse (registered s))) /\ resumed s = []
  | F_reverse current prev =>
      m_awaiters s = result_ready_constant /\ resumed s = [] /\
      exists l1 l2, chain (nexts s) prev l1 /\ chain (nexts s) current l2 /\ registered s = reverse l2 ++ l1
  | F_loop p =>
      m_awaiters s = result_ready_constant /\
      exists l, chain (nexts s) p l /\ registered s = resumed s ++ l
  | F_call h p =>
      m_awaiters s = result_ready_constant /\
      exists l, chain (nexts s) p l /\ registered s = resumed s ++ h :: l
  | F_unlock | F_done => m_awaiters s = result_ready_constant /\ registered s = resumed s
  end.

Record list_inv s : Prop := {
  li_nodup : NoDup (registered s);
  li_agents : forall i : addr, i ∈ registered s -> i < length (agents s);
  li_linked : linked s
}.

Record agent_inv s (i : addr) a : Prop := {
  ai_held : uses (a_pc a) = true -> held a = true;
  ai_constructing : is_constructing (a_pc a) = true -> held a = false;
  ai_context : in_list (a_pc a) = true -> handles s !! i = Some i /\ is_Some (nexts s !! i);
  ai_before : forall k before, a_pc a = S_await_cas k before -> nexts s !! i = Some before;
  ai_suspended : is_suspended (a_pc a) = true <-> i ∈ registered s /\ i ∉ resumed s;
  ai_resumed : is_resumed (a_pc a) = true -> m_awaiters s = result_ready_constant;
  ai_get : a_pc a = S_get -> m_status s <> idle;
  ai_final : forall t, a_pc a = S_status (st_final t) -> (t <= clock s)%Z \/ m_status s <> idle;
  ai_got : forall o, a_pc a = S_idle (v_got o) -> finisher s <> F_none /\
    exists r, content (m_producer (rs s)) = Some r /\ o = payload_outcome r;
  ai_parked : is_parked (a_pc a) = true -> unnotified (finisher s) = true
}.

Definition someone_constructs s : Prop :=
  exists (i : addr) a, agents s !! i = Some a /\ is_constructing (a_pc a) = true.

(** [k] is the number of [shared_ptr]s in the middle of a transition. *)
Record inv (k : nat) s : Prop := {
  inv_ok : failed s = false;
  inv_rs : reachable rstep ResultState.init (rs s);
  inv_count : use_count s = sum_list_with refs (agents s) + fin_refs s + k;
  inv_phase :
    if born s then
      (0 < use_count s -> is_shared (cons (rs s)) = true) /\
      (use_count s = 0 -> is_destroying (cons (rs s)) = true)
    else use_count s = 0 /\ cons (rs s) = C_own r_start;
  inv_sharing : share_running (cons (rs s)) = true -> someone_constructs s;
  inv_by_share : running (finisher s) = true -> locked s = false -> someone_constructs s;
  inv_fin : finisher s = F_none <-> notified (rs s) = 0;
  inv_pub : finisher s <> F_none -> published (prod (rs s)) = true;
  inv_status :
    if unstored (finisher s) then m_status s = idle
    else exists r, content (m_producer (rs s)) = Some r /\ m_status s = status_of_payload r;
  inv_semaphore : (0 <= m_semaphore s)%Z /\ (unreleased (finisher s) = true -> m_semaphore s = 0%Z);
  inv_list : list_inv s;
  inv_agents : forall i a, agents s !! i = Some a -> agent_inv s i a
}.

Lemma shared_inv_init n : inv 0 (init n).
Proof.
  assert (Ha : forall i a, agents (@init T n) !! i = Some a -> a = make_agent (S_idle v_none) false).
  { intros i a. simpl. by intros [-> _]%lookup_replicate. }
  constructor; simpl; try done.
  - constructor.
  - unfold fin_refs. simpl. rewrite !Nat.add_0_r. clear Ha; induction n as [|n IH]; simpl; [done|]. done.
  - constructor; simpl; [constructor|set_solver|]. unfold linked. simpl. split; [|done]. by exists None.
  - intros i a H. rewrite (Ha i a H). constructor; simpl; try done. set_solver.
Qed.

(** ** Consequences *)
Lemma refs_counted k s i a : inv k s -> agents s !! i = Some a -> refs a <= use_count s.
Proof. intros Hi Ha. rewrite (inv_count _ _ Hi). pose proof (sum_lookup refs _ _ _ Ha). lia. Qed.

Lemma constructing_counted k s : inv k s -> someone_constructs s -> 0 < use_count s.
Proof.
  intros Hi (i & a & Ha & Hc). pose proof (refs_counted _ _ _ _ Hi Ha) as Hr.
  destruct a as [[] b]; try done. unfold refs in Hr. simpl in Hr. lia.
Qed.

Lemma acting_counted k s i a : inv k s -> agents s !! i = Some a ->
  (forall r, a_pc a <> S_idle r) -> 0 < use_count s.
Proof.
  intros Hi Ha Hn. pose proof (refs_counted _ _ _ _ Hi Ha) as Hr. destruct (inv_agents _ _ Hi _ _ Ha).
  destruct a as [p b]. unfold refs in Hr. simpl in *. destruct p; simpl in *; try lia; try (by edestruct Hn);
    rewrite ai_held0 in Hr by done; lia.
Qed.

Lemma held_counted k s i a : inv k s -> agents s !! i = Some a -> held a = true -> 0 < use_count s.
Proof.
  intros Hi Ha Hh. pose proof (refs_counted _ _ _ _ Hi Ha) as Hr. unfold refs in Hr. rewrite Hh in Hr. lia.
Qed.

Lemma running_counted k s : inv k s -> running (finisher s) = true -> 0 < use_count s.
Proof.
  intros Hi Hr. destruct (locked s) eqn:E.
  - rewrite (inv_count _ _ Hi). unfold fin_refs. rewrite Hr, E. simpl. lia.
  - by apply (constructing_counted k), (inv_by_share _ _ Hi).
Qed.

Lemma counted_born k s : inv k s -> 0 < use_count s -> born s = true /\ is_shared (cons (rs s)) = true.
Proof.
  intros Hi Hc. pose proof (inv_phase _ _ Hi) as Hp. destruct (born s); [naive_solver|lia].
Qed.

(** The result is there. *)
Lemma ready_result k s :
  inv k s -> 0 < use_count s -> finisher s <> F_none ->
  m_pc_state (rs s) = producer_done /\ exists r, content (m_producer (rs s)) = Some r.
Proof.
  intros Hi Hc Hf. destruct (counted_born _ _ Hi Hc) as [_ Hs].
  destruct (finished_published _ (inv_rs _ _ Hi) Hs) as [Hp Hd].
  { intros E. by apply Hf, (inv_fin _ _ Hi). }
  split; [done|]. apply published_content; [|done]. by apply inv_reachable, (inv_rs _ _ Hi).
Qed.

Lemma stored_not_idle k s : inv k s -> unstored (finisher s) = false <-> m_status s <> idle.
Proof.
  intros Hi. pose proof (inv_status _ _ Hi) as H. destruct (unstored (finisher s)); [by rewrite H|].
  destruct H as (r & _ & ->). by destruct r.
Qed.

Lemma ready_stored k s : inv k s -> m_awaiters s = result_ready_constant -> unstored (finisher s) = false.
Proof.
  intros Hi Ha. pose proof (li_linked _ (inv_list _ _ Hi)) as H. unfold linked in H.
  destruct (finisher s); try done; destruct H as [(p & Hp & _) _]; congruence.
Qed.

Lemma pending_suspended k s i : inv k s -> i ∈ registered s -> i ∉ resumed s ->
  exists a, agents s !! i = Some a /\ is_suspended (a_pc a) = true.
Proof.
  intros Hi H1 H2. destruct (lookup_lt_is_Some_2 (agents s) i) as [a Ha].
  { by apply (li_agents _ (inv_list _ _ Hi)). }
  exists a. split; [done|]. by apply (ai_suspended _ _ _ (inv_agents _ _ Hi _ _ Ha)).
Qed.

Lemma linked_pending s l p : list_inv s ->
  match finisher s with
  | F_none | F_store | F_notify | F_release | F_exchange => l = registered s
  | F_reverse _ _ => l ⊆ registered s
  | F_loop _ => registered s = resumed s ++ l
  | F_call h _ => registered s = resumed s ++ h :: l
  | _ => l = []
  end -> p ∈ l -> p ∈ registered s /\ p ∉ resumed s.
Proof.
  intros [Hn _ Hl] H Hp. unfold linked in Hl.
  destruct (finisher s); destruct_and?; subst; try (by apply not_elem_of_nil in Hp);
    repeat match goal with H : resumed s = [] |- _ => rewrite H end; try (split; [set_solver|set_solver]).
  all: rewrite H in Hn |- *; apply NoDup_app in Hn as (_ & Hd & _); split; [set_solver|];
    intros Hr; apply (Hd _ Hr); set_solver.
Qed.
End invariant.
