(* ===== verification/SharedResultSteps.v ===== *)
(** * shared_result: every step keeps the invariant *)

From stdpp Require Import prelude gmap list strings.
From Stdlib Require Import ZArith Lia.
From S2P Require Import Prelude Errors ProducerContext ConsumerContext Slist ResultState ResultStateProps ResultStateFacts ResultStateTheorems SharedResult SharedResultProps.

Local Open Scope list_scope.

(** Two lookups of one agent. *)
Ltac same_agent H1 H2 :=
  let H := fresh in pose proof (eq_trans (eq_sym H1) H2) as H; injection H as ->; clear H1.

Section pieces.
Context {T : Type}.
Implicit Types s : SharedResult.state T.
Implicit Types a b : agent T.
Notation rstep := (@ResultState.step T).

(** A fact about all agents, after one of them was replaced. *)
Lemma agents_insert (P : addr -> agent T -> Prop) s i a' :
  P i a' -> (forall (j : addr) b, j <> i -> agents s !! j = Some b -> P j b) ->
  forall (j : addr) b, agents (set_agent i a' s) !! j = Some b -> P j b.
Proof.
  intros Hi Ho j b. simpl. destruct (decide (j = i)) as [->|Hne].
  - destruct (decide (i < length (agents s))) as [Hl|Hl].
    + rewrite list_lookup_insert_eq by done. by intros [= <-].
    + rewrite lookup_ge_None_2 by (rewrite length_insert; lia). done.
  - rewrite list_lookup_insert_ne by done. eauto.
Qed.

(** The other constructing agents still construct. *)
Lemma someone_insert s i a a' :
  agents s !! i = Some a -> (is_constructing (a_pc a) = true -> is_constructing (a_pc a') = true) ->
  someone_constructs s -> someone_constructs (set_agent i a' s).
Proof.
  intros Ha Hc (j & b & Hb & Hj). destruct (decide (j = i)) as [->|Hne].
  - exists i, a'. simpl. rewrite list_lookup_insert_eq by (by eapply lookup_lt_Some).
    split; [done|]. apply Hc. same_agent Hb Ha. done.
  - exists j, b. simpl. by rewrite list_lookup_insert_ne.
Qed.

(** One agent moves; [k'] is what becomes of its [shared_ptr]s. *)
Lemma inv_set_agent k k' s i a a' :
  inv k s -> agents s !! i = Some a -> agent_inv s i a' ->
  (is_constructing (a_pc a) = true -> is_constructing (a_pc a') = true) ->
  refs a' + k' = refs a + k -> inv k' (set_agent i a' s).
Proof.
  intros [] Ha Ha' Hc Hr. constructor; try done; simpl.
  - pose proof (sum_insert refs _ _ _ a' Ha). unfold fin_refs in *. simpl. lia.
  - intros. eapply someone_insert; eauto.
  - intros. eapply someone_insert; eauto.
  - destruct inv_list as [Hn Hl Hk]. constructor; [done| |done].
    simpl. intros j Hj. rewrite length_insert. auto.
  - apply (agents_insert (agent_inv (set_agent i a' s))).
    + by destruct Ha'; constructor.
    + intros j b _ Hb. by destruct (inv_agents _ _ Hb); constructor.
Qed.

Lemma go_inv k k' s i a p :
  inv k s -> agents s !! i = Some a -> agent_inv s i (make_agent p (held a)) ->
  is_constructing (a_pc a) = false ->
  pc_refs p + k' = pc_refs (a_pc a) + k -> inv k' (go i a p s).
Proof.
  intros Hi Ha Hp Hc Hr. eapply inv_set_agent; [done..| |].
  - by rewrite Hc.
  - unfold refs. simpl. lia.
Qed.

Lemma inv_add_ref k s : inv k s -> 0 < use_count s -> inv (S k) (add_ref s).
Proof.
  intros [] Hp. constructor; try done; simpl.
  - unfold fin_refs in *. simpl. lia.
  - destruct (born s); [|lia]. destruct inv_phase as [H _]. split; [by intros; apply H|lia].
  - destruct inv_list. by constructor.
  - intros i a Ha. by destruct (inv_agents i a Ha); constructor.
Qed.

(** Contexts that are in no list change. *)
Lemma inv_set_contexts k s n h :
  inv k s ->
  (forall (j : addr) b, agents s !! j = Some b -> in_list (a_pc b) = true -> h !! j = Some j /\ is_Some (n !! j)) ->
  (forall (j : addr) b k before, agents s !! j = Some b -> a_pc b = S_await_cas k before -> n !! j = nexts s !! j) ->
  (forall j, j ∈ registered s -> j ∉ resumed s -> n !! j = nexts s !! j) ->
  inv k (set_contexts n h s).
Proof.
  intros [] Hc Hb Hl. constructor; try done; simpl.
  - destruct inv_list as [Hn Ha Hk]. constructor; [done..|]. unfold linked in *. simpl.
    assert (Hpend : forall l l' : list addr, registered s = resumed s ++ l -> l' ⊆ l ->
              forall a : addr, a ∈ l' -> n !! a = nexts s !! a).
    { intros l l' Hr Hsub a Hin. apply Hl; rewrite Hr in *.
      - apply elem_of_app. right. by apply Hsub.
      - apply NoDup_app in Hn as (_ & Hd & _). intros Hx. by apply (Hd _ Hx), Hsub. }
    destruct (finisher s); try done.
    1-5: destruct Hk as [(p & Hp & Hch) Hres]; rewrite Hres in *; split; [|done]; exists p; split; [done|];
      eapply chain_ext; [|done]; apply (Hpend (registered s)); [done|];
      intros a Hin; by rewrite elem_of_reverse in Hin.
    + destruct Hk as (Hrdy & Hres & l1 & l2 & H1 & H2 & Hr). rewrite Hres in *. split; [done|]. split; [done|].
      exists l1, l2. split; [|split; [|done]]; (eapply chain_ext; [|eassumption]); apply (Hpend (registered s)); try done;
        rewrite Hr; intros a Hin; rewrite elem_of_app, elem_of_reverse; auto.
    + destruct Hk as (Hrdy & l & Hch & Hr). split; [done|]. exists l. split; [|done].
      eapply chain_ext; [|done]. by apply (Hpend l).
    + destruct Hk as (Hrdy & l & Hch & Hr). split; [done|]. exists l. split; [|done].
      eapply chain_ext; [|done]. apply (Hpend _ _ Hr). intros a Hin. by right.
  - intros i a Ha. destruct (inv_agents i a Ha). constructor; simpl; try done; [by eauto|].
    intros k' before E. by rewrite (Hb i a k' before), (ai_before k' before).
Qed.

Lemma inv_set_semaphore k s v :
  inv k s -> (0 <= v)%Z -> unreleased (finisher s) = false -> inv k (set_semaphore v s).
Proof.
  intros [] Hv Hu. constructor; try done; simpl.
  - split; [done|]. by rewrite Hu.
  - destruct inv_list. by constructor.
  - intros i a Ha. by destruct (inv_agents i a Ha); constructor.
Qed.

Lemma inv_tick k s d : inv k s -> inv k (set_clock (clock s + Z.of_nat d)%Z s).
Proof.
  intros []. constructor; try done; simpl.
  - destruct inv_list. by constructor.
  - intros i a Ha. destruct (inv_agents i a Ha). constructor; try done; simpl.
    intros t Ht. destruct (ai_final t Ht); [left; lia|by right].
Qed.

(** Dropping the last [shared_ptr] begins the destructor, and nothing else is
    going on. *)
Lemma inv_drop_ref k s : inv (S k) s -> inv k (drop_ref s).
Proof.
  intros Hi. pose proof (inv_count _ _ Hi) as Hc. unfold drop_ref.
  destruct (use_count s) as [|[|n]] eqn:E; [lia| |].
  - assert (Hns : ~ someone_constructs s).
    { intros (i & a & Ha & Hp). pose proof (sum_lookup refs _ _ _ Ha) as H.
      destruct a as [[] ?]; try done. unfold refs in H at 1. simpl in H. lia. }
    assert (Hnr : running (finisher s) = false).
    { destruct (running (finisher s)) eqn:Hr; [|done]. destruct (locked s) eqn:Hl.
      - unfold fin_refs in Hc. rewrite Hr, Hl in Hc. simpl in Hc. lia.
      - destruct Hns. by apply (inv_by_share _ _ Hi). }
    assert (Hs : is_shared (cons (rs s)) = true) by (apply (counted_born _ _ Hi); lia).
    assert (Hreg : exists ctx, cons (rs s) = C_registered (r_shared ctx)).
    { destruct (share_running (cons (rs s))) eqn:Hsh.
      - destruct Hns. by apply (inv_sharing _ _ Hi).
      - unfold is_shared in Hs. destruct (cons (rs s)); try (by rewrite Hsh in Hs); try done.
        destruct r; try done. eauto. }
    destruct Hreg as [ctx Hctx]. simpl. unfold ResultState.call_step. rewrite Hctx. simpl.
    destruct Hi. constructor; try done; simpl.
    + eapply reachable_step; [exact inv_rs|]. instantiate (1 := ResultState.L_call call_rewind).
      simpl. unfold ResultState.call_step. by rewrite Hctx.
    + unfold fin_refs in *. simpl in *. rewrite Hnr in *. simpl in *. lia.
    + destruct (born s); [|lia]. split; [lia|done].
    + destruct inv_list. by constructor.
    + intros i a Ha. by destruct (inv_agents i a Ha); constructor.
  - destruct Hi. constructor; try done; simpl.
    + unfold fin_refs in *. simpl in *. lia.
    + destruct (born s); [|lia]. rewrite E in *. split; [intros; apply inv_phase; lia|lia].
    + destruct inv_list. by constructor.
    + intros i a Ha. by destruct (inv_agents i a Ha); constructor.
Qed.
End pieces.

(** ** The agents *)
Section acting.
Context {T : Type}.
Implicit Types s : SharedResult.state T.
Implicit Types a b : agent T.
Notation rstep := (@ResultState.step T).

(** What an agent owes for its next program counter. *)
Definition may_go s (i : addr) a (p : agent_pc T) : Prop :=
  is_suspended p = is_suspended (a_pc a) /\ is_constructing p = false /\
  (in_list p = true -> in_list (a_pc a) = true) /\
  match p with
  | S_await_cas _ before => nexts s !! i = Some before
  | S_resumed _ => m_awaiters s = result_ready_constant
  | S_get => m_status s <> idle /\ held a = true
  | S_status (st_final t) => ((t <= clock s)%Z \/ m_status s <> idle) /\ held a = true
  | S_parked _ => unnotified (finisher s) = true /\ held a = true
  | S_idle (v_got o) => finisher s <> F_none /\
      exists r, content (m_producer (rs s)) = Some r /\ o = payload_outcome r
  | S_status _ | S_wait _ | S_clock _ | S_acquire _ => held a = true
  | _ => True
  end.

Lemma may_go_agent s i a p : agent_inv s i a -> may_go s i a p -> agent_inv s i (make_agent p (held a)).
Proof.
  intros [] (Hs & Hc & Hl & Hp). constructor; simpl.
  - intros Hu. destruct p as [| | | | | |[]| | | | |]; simpl in *; destruct_and?; done.
  - by rewrite Hc.
  - intros H. by apply ai_context, Hl.
  - by intros k before ->.
  - by rewrite Hs.
  - by destruct p.
  - intros ->. by destruct Hp.
  - intros t ->. by destruct Hp.
  - by intros o ->.
  - destruct p; try done. by destruct Hp.
Qed.

Lemma may_go_inv k k' s i a p :
  inv k s -> agents s !! i = Some a -> may_go s i a p -> is_constructing (a_pc a) = false ->
  pc_refs p + k' = pc_refs (a_pc a) + k -> inv k' (go i a p s).
Proof.
  intros Hi Ha Hp Hc Hr. eapply go_inv; try done.
  by apply may_go_agent, Hp; apply (inv_agents _ _ Hi).
Qed.

Lemma wait_again_inv s i a k :
  inv 0 s -> agents s !! i = Some a -> uses (a_pc a) = true ->
  inv 0 (wait_step i a k s) /\ inv 0 (status_step i a (st_wait k) s).
Proof.
  intros Hi Ha Hu. pose proof (ai_held _ _ _ (inv_agents _ _ Hi _ _ Ha) Hu) as Hh.
  destruct a as [p h]. simpl in *. subst h.
  assert (Hmove : forall q, may_go s i (make_agent p true) q -> pc_refs q = 0 ->
            inv 0 (go i (make_agent p true) q s)).
  { intros q Hq Hr. eapply may_go_inv; [done..| |]; destruct p; try done; simpl; lia. }
  unfold wait_step, status_step. simpl. split; case_decide as E.
  - apply Hmove; [|done]. unfold may_go. split_ands; try done; [by destruct p|].
    destruct (unstored (finisher s)) eqn:Ef; [by destruct (finisher s)|].
    apply (stored_not_idle _ _ Hi) in Ef. done.
  - destruct k; apply Hmove; try done; unfold may_go; split_ands; try done; by destruct p.
  - apply Hmove; [|done]. unfold may_go. split_ands; try done; by destruct p.
  - destruct k; apply Hmove; try done; unfold may_go; split_ands; try done; by destruct p.
Qed.

(** The result can be read. *)
Lemma get_ref_got s :
  inv 0 s -> 0 < use_count s -> m_status s <> idle ->
  exists r, content (m_producer (rs s)) = Some r /\ get_ref (rs s) = payload_outcome r /\ finisher s <> F_none.
Proof.
  intros Hi Hc Hs. assert (Hf : finisher s <> F_none).
  { intros E. apply (stored_not_idle _ _ Hi) in Hs. by rewrite E in Hs. }
  destruct (ready_result _ _ Hi Hc Hf) as [Hd [r Hr]]. exists r.
  by rewrite (get_ref_ready _ _ Hd Hr).
Qed.

Lemma get_step_inv s i a :
  inv 0 s -> agents s !! i = Some a -> a_pc a = S_get -> inv 0 (get_step i a s).
Proof.
  intros Hi Ha Ep. assert (Hag := inv_agents _ _ Hi _ _ Ha).
  destruct (get_ref_got s Hi) as (r & Hr & Hg & Hf).
  { eapply acting_counted; [done..|]. by rewrite Ep. }
  { by apply (ai_get _ _ _ Hag). }
  unfold get_step, return_. rewrite Hg. assert (Hm : inv 0 (go i a (S_idle (v_got (payload_outcome r))) s)).
  { eapply may_go_inv; [done|done| |by rewrite Ep|by rewrite Ep]. unfold may_go. rewrite Ep. simpl. eauto 10. }
  by destruct r.
Qed.

Lemma destroy_awaitable_inv s i a :
  inv 1 s -> agents s !! i = Some a -> in_list (a_pc a) = false -> inv 0 (destroy_awaitable i s).
Proof.
  intros Hi Ha Hp. apply inv_drop_ref, inv_set_contexts; [done| | |].
  - intros j b Hb Hl. destruct (decide (j = i)) as [->|Hne].
    + same_agent Hb Ha. by rewrite Hp in Hl.
    + rewrite !lookup_delete_ne by done. by apply (ai_context _ _ _ (inv_agents _ _ Hi _ _ Hb)).
  - intros j b k before Hb Hl. apply lookup_delete_ne. intros ->. same_agent Hb Ha. by rewrite Hl in Hp.
  - intros j H1 H2. apply lookup_delete_ne. intros ->.
    destruct (pending_suspended _ _ _ Hi H1 H2) as (b & Hb & Hs). same_agent Hb Ha.
    destruct (a_pc a); done.
Qed.

Lemma await_resume_inv s i a k :
  inv 0 s -> agents s !! i = Some a -> a_pc a = S_resumed k -> inv 0 (await_resume_step i a k s).
Proof.
  intros Hi Ha Ep. assert (Hag := inv_agents _ _ Hi _ _ Ha).
  assert (Hrdy : m_awaiters s = result_ready_constant) by (apply (ai_resumed _ _ _ Hag); by rewrite Ep).
  assert (Hl : i < length (agents s)) by (by eapply lookup_lt_Some).
  assert (Hend : forall r, may_go s i a (S_idle r) -> inv 0 (destroy_awaitable i (return_ i a r s))).
  { intros r Hr. eapply destroy_awaitable_inv;
      [eapply may_go_inv; [done|done|done|by rewrite Ep|by rewrite Ep]| |].
    - simpl. by apply list_lookup_insert_eq.
    - done. }
  unfold await_resume_step. destruct k; [|apply Hend; unfold may_go; rewrite Ep; done].
  destruct (get_ref_got s Hi) as (r & Hr & Hg & Hf).
  { eapply acting_counted; [done..|]. by rewrite Ep. }
  { by apply (stored_not_idle _ _ Hi), (ready_stored _ _ Hi). }
  rewrite Hg. assert (Hd := Hend (v_got (payload_outcome r))).
  destruct r; apply Hd; unfold may_go; rewrite Ep; simpl; split_ands; eauto.
Qed.

Lemma await_load_inv s i a k :
  inv 0 s -> agents s !! i = Some a -> a_pc a = S_await_load k -> inv 0 (await_load_step i a k s).
Proof.
  intros Hi Ha Ep. assert (Hag := inv_agents _ _ Hi _ _ Ha). unfold await_load_step.
  destruct (m_awaiters s) eqn:Em.
  - eapply (may_go_inv 0 0); [|exact Ha| |by rewrite Ep|by rewrite Ep].
    + apply inv_set_contexts; [done| | |].
      * intros j b Hb Hl. destruct (ai_context _ _ _ (inv_agents _ _ Hi _ _ Hb) Hl) as [Hh Hn].
        split; [done|]. destruct (decide (j = i)) as [->|Hne]; [rewrite lookup_insert_eq|rewrite lookup_insert_ne by done]; eauto.
      * intros j b k' before Hb Hl. apply lookup_insert_ne. intros ->. same_agent Hb Ha. by rewrite Ep in Hl.
      * intros j H1 H2. apply lookup_insert_ne. intros ->.
        destruct (pending_suspended _ _ _ Hi H1 H2) as (b & Hb & Hs). same_agent Hb Ha. by rewrite Ep in Hs.
    + unfold may_go. rewrite Ep. simpl. by rewrite lookup_insert_eq.
  - eapply may_go_inv; [done|done| |by rewrite Ep|by rewrite Ep]. unfold may_go. by rewrite Ep.
Qed.

(** The awaiter is linked. *)
Lemma register_inv s i a k before :
  inv 0 s -> agents s !! i = Some a -> a_pc a = S_await_cas k before -> nexts s !! i = Some before ->
  m_awaiters s = ptr before ->
  inv 0 (go i a (S_suspended k) (set_registered (registered s ++ [i]) (set_awaiters (ptr (Some i)) s))).
Proof.
  intros Hi Ha Ep Hn Em. assert (Hag := inv_agents _ _ Hi _ _ Ha).
  assert (Hlt : i < length (agents s)) by (by eapply lookup_lt_Some).
  assert (Hf : running (finisher s) = true -> unreleased (finisher s) = true \/ finisher s = F_exchange).
  { pose proof (li_linked _ (inv_list _ _ Hi)) as H. unfold linked in H. rewrite Em in H.
    destruct (finisher s); naive_solver. }
  assert (Hres : resumed s = [] /\ chain (nexts s) before (reverse (registered s))).
  { pose proof (li_linked _ (inv_list _ _ Hi)) as H. unfold linked in H. rewrite Em in H.
    destruct (finisher s); naive_solver. }
  destruct Hres as [Hres Hch].
  assert (Hni : i ∉ registered s).
  { intros Hx. assert (Hs : is_suspended (a_pc a) = true).
    { apply (ai_suspended _ _ _ Hag). rewrite Hres. split; [done|]. apply not_elem_of_nil. }
    by rewrite Ep in Hs. }
  destruct Hi. constructor; try done; simpl.
  - pose proof (sum_insert refs _ _ _ (make_agent (S_suspended k) (held a)) Ha) as Hs.
    unfold refs in Hs at 2 4. rewrite Ep in Hs. unfold fin_refs in *. simpl in *. lia.
  - intros H. eapply someone_insert; [exact Ha|by rewrite Ep|by apply inv_sharing].
  - intros H1 H2. eapply someone_insert; [exact Ha|by rewrite Ep|by apply inv_by_share].
  - destruct inv_list as [Hnd Hla Hlk]. constructor; simpl.
    + apply NoDup_app. split; [done|]. split; [|apply NoDup_singleton].
      intros x Hx ->%list_elem_of_singleton. done.
    + intros j. rewrite length_insert, elem_of_app, list_elem_of_singleton. intros [Hj| ->]; eauto.
    + assert (Hex : exists p, ptr (Some i) = ptr p /\ chain (nexts s) p (reverse (registered s ++ [i]))).
      { exists (Some i). split; [done|]. rewrite reverse_snoc. simpl. eauto. }
      unfold linked in *. simpl. rewrite Em in Hlk. destruct (finisher s); naive_solver.
  - apply (agents_insert (agent_inv _)).
    + destruct Hag. rewrite Ep in *. constructor; simpl; try done.
      split; [|done]. intros _. rewrite Hres, elem_of_app, list_elem_of_singleton. split; [by right|apply not_elem_of_nil].
    + intros j b Hne Hb. destruct (inv_agents j b Hb). constructor; simpl; try done.
      * rewrite ai_suspended, elem_of_app, list_elem_of_singleton. naive_solver.
      * intros Hr. by rewrite Em in ai_resumed; apply ai_resumed in Hr.
Qed.

Lemma await_cas_inv s i a k before :
  inv 0 s -> agents s !! i = Some a -> a_pc a = S_await_cas k before ->
  inv 0 (await_cas_step i a k before s).
Proof.
  intros Hi Ha Ep. unfold await_cas_step. case_decide.
  - eapply register_inv; try done. by eapply (ai_before _ _ _ (inv_agents _ _ Hi _ _ Ha)).
  - eapply may_go_inv; [done|done| |by rewrite Ep|by rewrite Ep]. unfold may_go. by rewrite Ep.
Qed.

Lemma constructing_inv s s' i a :
  inv 0 s -> agents s !! i = Some a -> a_pc a = S_constructing -> constructing_step i s = Some s' -> inv 0 s'.
Proof.
  unfold constructing_step. intros Hi Ha Ep Hs.
  destruct (cons (rs s)) eqn:Ec; try done. destruct (running (finisher s) && negb (locked s)) eqn:Er; try done.
  simplify_eq. assert (Hag := inv_agents _ _ Hi _ _ Ha). pose proof (ai_constructing _ _ _ Hag) as Hh.
  rewrite Ep in Hh. specialize (Hh eq_refl). destruct Hi. constructor; try done; simpl.
  - pose proof (sum_insert refs _ _ _ (make_agent (S_idle v_void) true) Ha) as Hs.
    unfold refs in Hs at 2 4. rewrite Ep, Hh in Hs. unfold fin_refs in *. simpl in *. lia.
  - by rewrite Ec.
  - intros H1 H2. by rewrite H1, H2 in Er.
  - destruct inv_list as [Hnd Hla Hlk]. constructor; [done| |done]. simpl. intros j. rewrite length_insert. eauto.
  - apply (agents_insert (agent_inv _)).
    + destruct Hag. rewrite Ep in *. constructor; simpl; try done.
    + intros j b Hne Hb. by destruct (inv_agents j b Hb); constructor.
Qed.
End acting.

Section steps.
Context {T : Type}.
Implicit Types s : SharedResult.state T.
Implicit Types a b : agent T.
Notation rstep := (@ResultState.step T).

Lemma act_step_inv s s' i a :
  inv 0 s -> agents s !! i = Some a -> act_step i a s = Some s' -> inv 0 s'.
Proof.
  intros Hi Ha Hs. assert (Hag := inv_agents _ _ Hi _ _ Ha). unfold act_step in Hs.
  destruct (a_pc a) eqn:Ep; simplify_eq/=.
  - by eapply constructing_inv.
  - by apply await_load_inv.
  - by apply await_cas_inv.
  - by apply await_resume_inv.
  - assert (Hh : held a = true) by (apply (ai_held _ _ _ Hag); by rewrite Ep).
    destruct k; [| |unfold status_step; case_decide|].
    + eapply may_go_inv; [done|done| |by rewrite Ep|by rewrite Ep]. unfold may_go. by rewrite Ep.
    + apply wait_again_inv; [done..|]. by rewrite Ep.
    + eapply may_go_inv; [done|done| |by rewrite Ep|by rewrite Ep]. unfold may_go. by rewrite Ep.
    + eapply may_go_inv; [done|done| |by rewrite Ep|by rewrite Ep]. unfold may_go. rewrite Ep. simpl. auto 7.
    + eapply may_go_inv; [done|done| |by rewrite Ep|by rewrite Ep]. unfold may_go. by rewrite Ep.
  - apply wait_again_inv; [done..|]. by rewrite Ep.
  - by apply get_step_inv.
  - assert (Hh : held a = true) by (apply (ai_held _ _ _ Hag); by rewrite Ep).
    unfold clock_step. destruct (clock s <? t)%Z eqn:Et;
      (eapply may_go_inv; [done|done| |by rewrite Ep|by rewrite Ep]); unfold may_go; rewrite Ep; simpl; [done|].
    apply Z.ltb_ge in Et. auto 7.
  - assert (Hh : held a = true) by (apply (ai_held _ _ _ Hag); by rewrite Ep).
    unfold acquire_step in Hs. destruct (0 <? m_semaphore s)%Z eqn:Es; simplify_eq. apply Z.ltb_lt in Es.
    eapply (may_go_inv 0 0); [|exact Ha| |by rewrite Ep|by rewrite Ep].
    + apply inv_set_semaphore; [done|lia|]. destruct (unreleased (finisher s)) eqn:E; [|done].
      apply (inv_semaphore _ _ Hi) in E. lia.
    + unfold may_go. by rewrite Ep.
Qed.

(** *** Calls *)
Lemma idle_may_go s i a r p :
  a_pc a = S_idle r -> may_go s i (make_agent (S_idle r) (held a)) p -> may_go s i a p.
Proof. intros E H. unfold may_go in *. rewrite E. exact H. Qed.

Lemma return_inv s i a r r' :
  inv 0 s -> agents s !! i = Some a -> a_pc a = S_idle r -> (forall o, r' <> v_got o) -> inv 0 (return_ i a r' s).
Proof.
  intros Hi Ha Ep Hr. eapply may_go_inv; [done|done| |by rewrite Ep|by rewrite Ep]. unfold may_go. rewrite Ep.
  split_ands; try done. destruct r'; try done. by edestruct Hr.
Qed.

(** A call that needs a result that is not empty. *)
Lemma guarded_inv s i a r msg k :
  inv 0 s -> agents s !! i = Some a -> a_pc a = S_idle r ->
  (held a = true -> inv 0 (k s)) -> inv 0 (throw_if_empty msg i a k s).
Proof.
  intros Hi Ha Ep Hk. unfold throw_if_empty. destruct (held a) eqn:Eh; [by apply Hk|by eapply return_inv].
Qed.

Lemma start_await_inv s i a r k :
  inv 0 s -> agents s !! i = Some a -> a_pc a = S_idle r -> held a = true -> inv 0 (start_await i a k s).
Proof.
  intros Hi Ha Ep Hh. unfold start_await.
  set (s1 := set_contexts _ _ s). assert (H1 : inv 0 s1).
  { apply inv_set_contexts; [done| | |].
    - intros j b Hb Hl. destruct (decide (j = i)) as [->|Hne].
      + same_agent Hb Ha. by rewrite Ep in Hl.
      + rewrite !lookup_insert_ne by done. by apply (ai_context _ _ _ (inv_agents _ _ Hi _ _ Hb)).
    - intros j b k' before Hb Hl. apply lookup_insert_ne. intros ->. same_agent Hb Ha. by rewrite Ep in Hl.
    - intros j Hj1 Hj2. apply lookup_insert_ne. intros ->.
      destruct (pending_suspended _ _ _ Hi Hj1 Hj2) as (b & Hb & Hs). same_agent Hb Ha. by rewrite Ep in Hs. }
  assert (H2 : inv 1 (add_ref s1)) by (apply inv_add_ref; [done|by apply (held_counted 0 _ i a)]).
  eapply inv_set_agent; [exact H2|exact Ha| | |].
  - assert (Hag := inv_agents _ _ H2 _ _ Ha). destruct Hag. constructor; simpl; try done.
    + by rewrite !lookup_insert_eq.
    + rewrite Ep in ai_suspended. simpl in ai_suspended. done.
  - by rewrite Ep.
  - unfold refs. rewrite Ep. simpl. lia.
Qed.

(** What an idle agent does with its [shared_result]. *)
Lemma set_held_inv k k' s i a r (h : bool) :
  inv k s -> agents s !! i = Some a -> a_pc a = S_idle r ->
  (if h then 1 else 0) + k' = (if held a then 1 else 0) + k ->
  inv k' (set_agent i (make_agent (S_idle v_void) h) s).
Proof.
  intros Hi Ha Ep Hk. eapply inv_set_agent; [exact Hi|exact Ha| | |].
  - assert (Hag := inv_agents _ _ Hi _ _ Ha). destruct Hag. rewrite Ep in ai_suspended. constructor; simpl; done.
  - by rewrite Ep.
  - unfold refs. rewrite Ep. simpl. lia.
Qed.

Lemma clear_held_inv k k' s i b r :
  inv k s -> agents s !! i = Some b -> a_pc b = S_idle r -> k' = (if held b then 1 else 0) + k ->
  inv k' (set_agent i (make_agent (a_pc b) false) s).
Proof.
  intros Hi Hb Ep Hk. eapply inv_set_agent; [exact Hi|exact Hb| | |].
  - assert (Hag := inv_agents _ _ Hi _ _ Hb). destruct Hag. rewrite Ep in *. by constructor.
  - by rewrite Ep.
  - unfold refs. simpl. lia.
Qed.

Lemma assign_copy_inv s i src a b r :
  inv 0 s -> agents s !! i = Some a -> agents s !! src = Some b -> a_pc a = S_idle r ->
  inv 0 (assign_copy i src a b s).
Proof.
  intros Hi Ha Hb Ep. unfold assign_copy. case_decide as E; [|by eapply return_inv].
  destruct E as [Hne Hh]. destruct (held b) eqn:Eb.
  - destruct (held a) eqn:Eh; [done|]. assert (H1 : inv 1 (add_ref s)).
    { apply inv_add_ref; [done|by apply (held_counted 0 _ src b)]. }
    exact (set_held_inv 1 0 _ i a r true H1 Ha Ep ltac:(by rewrite Eh)).
  - destruct (held a) eqn:Eh; [|done]. apply inv_drop_ref. eapply set_held_inv; try done. by rewrite Eh.
Qed.

Lemma assign_move_inv s i src a b r r' :
  inv 0 s -> agents s !! i = Some a -> agents s !! src = Some b -> a_pc a = S_idle r -> a_pc b = S_idle r' ->
  inv 0 (assign_move i src a b s).
Proof.
  intros Hi Ha Hb Ep Eb. unfold assign_move. case_decide as E; [|by eapply return_inv].
  destruct E as [Hne Hh].
  pose proof (clear_held_inv 0 _ s src b r' Hi Hb Eb eq_refl) as H1.
  assert (Ha' : agents (set_agent src (make_agent (a_pc b) false) s) !! i = Some a) by (simpl; by rewrite list_lookup_insert_ne).
  destruct (held b) eqn:Ehb; destruct (held a) eqn:Eha; try done.
  - eapply set_held_inv; [exact H1|exact Ha'|exact Ep|]. by rewrite Eha.
  - apply inv_drop_ref. eapply set_held_inv; [exact H1|exact Ha'|exact Ep|]. by rewrite Eha.
Qed.

Lemma construct_inv s s' i a r :
  inv 0 s -> agents s !! i = Some a -> a_pc a = S_idle r -> held a = false -> construct i s = Some s' -> inv 0 s'.
Proof.
  intros Hi Ha Ep Hh. unfold construct. destruct (born s) eqn:Eb.
  - intros [= <-]. eapply set_held_inv; try done. by rewrite Hh.
  - pose proof (inv_phase _ _ Hi) as Hp. rewrite Eb in Hp. destruct Hp as [Hu Hc].
    simpl. unfold ResultState.call_step. rewrite Hc. simpl. intros [= <-].
    assert (Hag := inv_agents _ _ Hi _ _ Ha). pose proof (inv_count _ _ Hi) as Hcnt.
    assert (Hlt : i < length (agents s)) by (by eapply lookup_lt_Some).
    assert (Hsc : forall s0, agents s0 = <[i := make_agent S_constructing false]> (agents s) -> someone_constructs s0).
    { intros s0 E. exists i, (make_agent S_constructing false). rewrite E. split; [by apply list_lookup_insert_eq|done]. }
    destruct Hi. constructor; try done; simpl.
    + eapply reachable_step; [exact inv_rs|]. instantiate (1 := ResultState.L_call (call_share 0)).
      simpl. unfold ResultState.call_step. by rewrite Hc.
    + pose proof (sum_insert refs _ _ _ (make_agent S_constructing false) Ha) as Hs.
      unfold refs in Hs at 2 4. rewrite Ep, Hh in Hs. unfold fin_refs in *. simpl in *. lia.
    + intros _. by apply Hsc.
    + intros _ _. by apply Hsc.
    + destruct inv_list as [Hnd Hla Hlk]. constructor; [done| |done]. simpl. intros j. rewrite length_insert. eauto.
    + apply (agents_insert (agent_inv _)).
      * destruct Hag. rewrite Ep in ai_suspended. by constructor.
      * intros j b Hne Hb. by destruct (inv_agents j b Hb); constructor.
Qed.

Lemma call_step_inv s s' i c : inv 0 s -> call_step i c s = Some s' -> inv 0 s'.
Proof.
  intros Hi. unfold call_step. destruct (agents s !! i) as [a|] eqn:Ha; [|done].
  destruct (a_pc a) eqn:Ep; try done.
  assert (Hgo : forall p, held a = true -> may_go s i (make_agent (S_idle r) (held a)) p -> pc_refs p = 0 ->
            inv 0 (go i a p s)).
  { intros p _ Hp Hr. eapply may_go_inv; [done|done| |by rewrite Ep|by rewrite Ep, Hr].
    by eapply idle_may_go. }
  destruct c; intros Hs; simplify_eq.
  - destruct (held a) eqn:Eh; [done|]. by eapply construct_inv.
  - eapply guarded_inv; try done. by intros Hh; apply Hgo.
  - eapply guarded_inv; try done. by intros Hh; apply Hgo.
  - eapply guarded_inv; try done. by intros Hh; apply Hgo.
  - eapply guarded_inv; try done. by intros Hh; apply Hgo.
  - eapply guarded_inv; try done. by intros Hh; apply Hgo.
  - eapply guarded_inv; try done. intros Hh. by eapply start_await_inv.
  - eapply guarded_inv; try done. intros Hh. by eapply start_await_inv.
  - destruct (agents s !! src) as [b|] eqn:Hb; simplify_eq. by eapply assign_copy_inv.
  - destruct (agents s !! src) as [[[] hb]|] eqn:Hb; simplify_eq. by eapply assign_move_inv.
  - destruct (held a) eqn:Eh; [apply inv_drop_ref|]; (eapply set_held_inv; [done..|]); by rewrite Eh.
Qed.
End steps.
