(* ===== verification/SharedResultFinish.v ===== *)
(** * shared_result: [on_result_finished] keeps the invariant, and every
    reachable state satisfies it *)

From stdpp Require Import prelude gmap list strings.
From Stdlib Require Import ZArith Lia.
From S2P Require Import Prelude Errors ProducerContext ConsumerContext Slist ResultState ResultStateProps ResultStateFacts ResultStateTheorems SharedResult SharedResultProps SharedResultSteps.

Local Open Scope list_scope.

Section finishing.
Context {T : Type}.
Implicit Types s : SharedResult.state T.
Implicit Types a b : agent T.
Notation rstep := (@ResultState.step T).

(** [on_result_finished] goes on. *)
Lemma inv_set_finisher k s f :
  inv k s -> running (finisher s) = true -> running f = true ->
  unstored f = unstored (finisher s) -> (unreleased f = true -> unreleased (finisher s) = true) ->
  (unnotified (finisher s) = true -> unnotified f = false -> forall i a, agents s !! i = Some a -> is_parked (a_pc a) = false) ->
  (unnotified (finisher s) = false -> unnotified f = false) ->
  linked (set_finisher f s) -> inv k (set_finisher f s).
Proof.
  intros [] Hr Hf Hs Hu Hn Hn' Hl. constructor; try done; simpl.
  - unfold fin_refs in *. simpl. by rewrite Hf, <-Hr.
  - intros _. by apply inv_by_share.
  - rewrite <-inv_fin. split; intros E; by rewrite E in *.
  - intros _. apply inv_pub. intros E. by rewrite E in Hr.
  - by rewrite Hs.
  - split; [apply inv_semaphore|]. intros H. by apply inv_semaphore, Hu.
  - destruct inv_list. by constructor.
  - intros i a Ha. destruct (inv_agents i a Ha). constructor; simpl; try done.
    + intros o Ho. destruct (ai_got o Ho) as [_ He]. split; [|done]. intros ->. done.
    + intros Hp. specialize (ai_parked Hp). destruct (unnotified f) eqn:E; [done|].
      by rewrite (Hn ai_parked eq_refl i a Ha) in Hp.
Qed.

Lemma finish_store s :
  inv 0 s -> finisher s = F_store ->
  exists st, result_status_of (rs s) = Ok st /\ inv 0 (set_finisher F_notify (set_status st s)).
Proof.
  intros Hi Ef. destruct (ready_result _ _ Hi) as [Hd [r Hr]].
  { apply (running_counted 0); [done|by rewrite Ef]. }
  { by rewrite Ef. }
  exists (status_of_payload r). split; [by apply result_status_of_ready|].
  assert (Hne : status_of_payload r <> idle) by (by destruct r).
  destruct Hi. rewrite Ef in *. constructor; try done; simpl; try (intros _; by apply inv_pub).
  - unfold fin_refs in *. rewrite Ef in *. done.
  - rewrite <-inv_fin. done.
  - eauto.
  - destruct inv_list as [H1 H2 Hl]. constructor; [done..|]. unfold linked in *. rewrite Ef in Hl. done.
  - intros i a Ha. destruct (inv_agents i a Ha). constructor; simpl; try done; auto.
    intros o E. by destruct (ai_got o E).
Qed.

Lemma lookup_woken s (i : addr) : (wake_up <$> agents s) !! i = wake_up <$> agents s !! i.
Proof. apply list_lookup_fmap. Qed.

Lemma finish_notify s :
  inv 0 s -> finisher s = F_notify -> inv 0 (set_finisher F_release (set_agents (wake_up <$> agents s) s)).
Proof.
  intros Hi Ef.
  assert (Hw : forall a, a_pc (wake_up a) = match a_pc a with S_parked k => S_wait k | p => p end /\ held (wake_up a) = held a).
  { intros [p h]. unfold wake_up. simpl. by destruct p. }
  assert (Hw2 : forall a, refs (wake_up a) = refs a /\ is_constructing (a_pc (wake_up a)) = is_constructing (a_pc a)).
  { intros [p h]. unfold refs, wake_up. simpl. by destruct p. }
  assert (Hsc : forall s', agents s' = wake_up <$> agents s -> someone_constructs s -> someone_constructs s').
  { intros s' E (i & a & Ha & Hc). exists i, (wake_up a). rewrite E. split; [by rewrite lookup_woken, Ha|].
    by rewrite (proj2 (Hw2 a)). }
  destruct Hi. rewrite Ef in *. constructor; try done; simpl; try (intros _; by apply inv_pub).
  - unfold fin_refs in *. rewrite Ef in *. rewrite sum_map; [done|]. intros a. apply Hw2.
  - intros H. by apply Hsc, inv_sharing.
  - intros H1 H2. by apply Hsc, inv_by_share.
  - rewrite <-inv_fin. done.
  - destruct inv_list as [H1 H2 Hl]. constructor; [done| |].
    + simpl. intros j Hj. rewrite length_fmap. auto.
    + unfold linked in *. rewrite Ef in Hl. done.
  - intros i b Hb. rewrite lookup_woken in Hb. destruct (agents s !! i) as [a|] eqn:Ha; [|done].
    simpl in Hb. injection Hb as <-. destruct (inv_agents i a Ha). destruct (Hw a) as [Ep Eh].
    constructor; rewrite ?Ep, ?Eh; destruct (a_pc a); simpl in *; try done; eauto.
    + intros o E. destruct (ai_got o E). done.
Qed.

Lemma release_fits : (0 + semaphore_max / 2 <=? semaphore_max)%Z = true.
Proof. done. Qed.

Lemma finish_release s :
  inv 0 s -> finisher s = F_release ->
  m_semaphore s = 0%Z /\ inv 0 (set_finisher F_exchange (set_semaphore (0 + semaphore_max / 2)%Z s)).
Proof.
  intros Hi Ef. assert (Hz : m_semaphore s = 0%Z) by (apply (inv_semaphore _ _ Hi); by rewrite Ef).
  split; [done|]. destruct Hi. rewrite Ef in *. constructor; try done; simpl; try (intros _; by apply inv_pub).
  - unfold fin_refs in *. by rewrite Ef in *.
  - rewrite <-inv_fin. done.
  - destruct inv_list as [H1 H2 Hl]. constructor; [done..|]. unfold linked in *. by rewrite Ef in Hl.
  - intros i a Ha. destruct (inv_agents i a Ha). rewrite Ef in *. constructor; simpl; try done.
    intros o E. destruct (ai_got o E). done.
Qed.

Lemma finish_exchange s :
  inv 0 s -> finisher s = F_exchange ->
  exists p, m_awaiters s = ptr p /\
    inv 0 (set_finisher (F_reverse p None) (set_awaiters result_ready_constant s)).
Proof.
  intros Hi Ef. pose proof (li_linked _ (inv_list _ _ Hi)) as Hl. unfold linked in Hl. rewrite Ef in Hl.
  destruct Hl as [(p & Hp & Hc) Hr]. exists p. split; [done|].
  destruct Hi. rewrite Ef in *. constructor; try done; simpl; try (intros _; by apply inv_pub).
  - unfold fin_refs in *. by rewrite Ef in *.
  - rewrite <-inv_fin. done.
  - destruct inv_list as [H1 H2 _]. constructor; [done..|]. unfold linked. simpl. split_ands; try done.
    exists [], (reverse (registered s)). split; [done|]. split; [done|]. by rewrite reverse_involutive, app_nil_r.
  - intros i a Ha. destruct (inv_agents i a Ha). rewrite Ef in *. constructor; simpl; try done.
    intros o E. destruct (ai_got o E). done.
Qed.

Lemma finish_reverse s (a : addr) prev :
  inv 0 s -> finisher s = F_reverse (Some a) prev ->
  exists next, nexts s !! a = Some next /\ inv 0 (set_finisher (F_reverse next (Some a)) (set_next a prev s)).
Proof.
  intros Hi Ef. pose proof (li_linked _ (inv_list _ _ Hi)) as Hl. unfold linked in Hl. rewrite Ef in Hl.
  destruct Hl as (Hrdy & Hres & l1 & [|x l2] & H1 & H2 & Hr); simpl in H2; [done|].
  destruct H2 as [[= ->] (next & Hn & H2)]. exists next. split; [done|].
  rewrite reverse_cons, <-app_assoc in Hr. simpl in Hr.
  assert (Hnd := li_nodup _ (inv_list _ _ Hi)). rewrite Hr in Hnd.
  apply NoDup_app in Hnd as (_ & Hd1 & [Hx _]%NoDup_cons).
  assert (Hx2 : x ∉ l2) by (intros Hin; apply (Hd1 x); [by rewrite elem_of_reverse|left]).
  destruct (pending_suspended 0 s x Hi) as (b & Hb & Hs).
  { rewrite Hr, elem_of_app. right. left. }
  { rewrite Hres. apply not_elem_of_nil. }
  destruct Hi. rewrite Ef in *. constructor; try done; simpl; try (intros _; by apply inv_pub).
  - unfold fin_refs in *. by rewrite Ef in *.
  - rewrite <-inv_fin. done.
  - destruct inv_list as [Hnd Hla _]. constructor; [done..|]. unfold linked. simpl. split; [done|]. split; [done|].
    exists (x :: l1), l2. split; [|split; [|done]].
    + split; [done|]. exists prev. rewrite lookup_insert_eq. split; [done|]. by apply chain_insert.
    + by apply chain_insert.
  - intros i c Hc. destruct (inv_agents i c Hc). rewrite Ef in *. constructor; simpl; try done.
    + intros Hin. destruct (ai_context Hin) as [Hh He]. split; [done|]. destruct (decide (i = x)) as [->|Hne].
      * rewrite lookup_insert_eq. eauto.
      * by rewrite lookup_insert_ne.
    + intros k before E. destruct (decide (i = x)) as [->|Hne].
      * same_agent Hb Hc. by rewrite E in Hs.
      * rewrite lookup_insert_ne by done. by eapply ai_before.
    + intros o E. destruct (ai_got o E). done.
Qed.

Lemma finish_reversed s prev :
  inv 0 s -> finisher s = F_reverse None prev -> inv 0 (set_finisher (F_loop prev) s).
Proof.
  intros Hi Ef. apply inv_set_finisher; rewrite ?Ef; try done.
  pose proof (li_linked _ (inv_list _ _ Hi)) as Hl. unfold linked in *. rewrite Ef in Hl. simpl.
  destruct Hl as (Hrdy & Hres & l1 & [|x l2] & H1 & H2 & Hr); simpl in H2; [|naive_solver].
  split; [done|]. exists l1. by rewrite Hres.
Qed.

Lemma finish_loop s (a : addr) :
  inv 0 s -> finisher s = F_loop (Some a) ->
  exists next, handles s !! a = Some a /\ nexts s !! a = Some next /\ inv 0 (set_finisher (F_call a next) s).
Proof.
  intros Hi Ef. pose proof (li_linked _ (inv_list _ _ Hi)) as Hl. unfold linked in Hl. rewrite Ef in Hl.
  destruct Hl as (Hrdy & [|x l] & H1 & Hr); simpl in H1; [done|]. destruct H1 as [[= ->] (next & Hn & H1)].
  exists next. assert (Hnd := li_nodup _ (inv_list _ _ Hi)). rewrite Hr in Hnd.
  apply NoDup_app in Hnd as (_ & Hd & _).
  destruct (pending_suspended 0 s x Hi) as (b & Hb & Hs).
  { rewrite Hr, elem_of_app. right. left. }
  { intros Hin. apply (Hd x Hin). left. }
  destruct (ai_context _ _ _ (inv_agents _ _ Hi _ _ Hb)) as [Hh _]; [by destruct (a_pc b)|].
  split; [done|]. split; [done|]. apply inv_set_finisher; rewrite ?Ef; try done.
  unfold linked. simpl. split; [done|]. by exists l.
Qed.

Lemma finish_looped s : inv 0 s -> finisher s = F_loop None -> inv 0 (set_finisher F_unlock s).
Proof.
  intros Hi Ef. apply inv_set_finisher; rewrite ?Ef; try done.
  pose proof (li_linked _ (inv_list _ _ Hi)) as Hl. unfold linked in *. rewrite Ef in Hl. simpl.
  destruct Hl as (Hrdy & [|x l] & H1 & Hr); simpl in H1; [|naive_solver].
  split; [done|]. by rewrite app_nil_r in Hr.
Qed.

Lemma finish_call s h next :
  inv 0 s -> finisher s = F_call h next ->
  exists k (b : bool), agents s !! h = Some (make_agent (S_suspended k) b) /\
    inv 0 (set_finisher (F_loop next)
             (set_resumed (resumed s ++ [h]) (set_agent h (make_agent (S_resumed k) b) s))).
Proof.
  intros Hi Ef. pose proof (li_linked _ (inv_list _ _ Hi)) as Hl. unfold linked in Hl. rewrite Ef in Hl.
  destruct Hl as (Hrdy & l & H1 & Hr). assert (Hnd := li_nodup _ (inv_list _ _ Hi)). rewrite Hr in Hnd.
  apply NoDup_app in Hnd as (_ & Hd & _).
  destruct (pending_suspended 0 s h Hi) as (b & Hb & Hs).
  { rewrite Hr, elem_of_app. right. left. }
  { intros Hin. apply (Hd h Hin). left. }
  destruct b as [p b]. destruct p as [| | | |k| | | | | | |]; try done. exists k, b. split; [done|].
  assert (Hlt : h < length (agents s)) by (by eapply lookup_lt_Some).
  destruct Hi. rewrite Ef in *. constructor; try done; simpl; try (intros _; by apply inv_pub).
  - pose proof (sum_insert refs _ _ _ (make_agent (S_resumed k) b) Hb) as Hsum.
    unfold refs in Hsum at 2 4. unfold fin_refs in *. rewrite Ef in *. simpl in *. lia.
  - intros H. eapply someone_insert; [exact Hb|done|by apply inv_sharing].
  - intros H2 H3. eapply someone_insert; [exact Hb|done|by apply inv_by_share].
  - rewrite <-inv_fin. done.
  - destruct inv_list as [Hn Hla _]. constructor; simpl; [done| |].
    + intros j Hj. rewrite length_insert. auto.
    + unfold linked. simpl. split; [done|]. exists l. by rewrite <-app_assoc.
  - apply (agents_insert (agent_inv _)).
    + destruct (inv_agents h _ Hb). constructor; simpl in *; try done.
      rewrite elem_of_app, list_elem_of_singleton. naive_solver.
    + intros j c Hne Hc. destruct (inv_agents j c Hc). rewrite Ef in *. constructor; simpl; try done.
      * rewrite ai_suspended, elem_of_app, list_elem_of_singleton. naive_solver.
      * intros o E. destruct (ai_got o E). done.
Qed.

Lemma finish_unlock s :
  inv 0 s -> finisher s = F_unlock ->
  inv 0 (if locked s then drop_ref (set_finisher F_done s) else set_finisher F_done s).
Proof.
  intros Hi Ef. assert (H : inv (if locked s then 1 else 0) (set_finisher F_done s)).
  { destruct Hi. rewrite Ef in *. constructor; try done; simpl; try (intros _; by apply inv_pub).
    - unfold fin_refs in *. rewrite Ef in *. simpl in *. destruct (locked s); lia.
    - rewrite <-inv_fin. done.
    - destruct inv_list as [Hn Hla Hl]. constructor; [done..|]. unfold linked in *. by rewrite Ef in Hl.
    - intros i c Hc. destruct (inv_agents i c Hc). rewrite Ef in *. constructor; simpl; try done.
      intros o E. destruct (ai_got o E). done. }
  destruct (locked s); [by apply inv_drop_ref|done].
Qed.

Lemma finisher_step_inv s s' : inv 0 s -> finisher_step s = Some s' -> inv 0 s'.
Proof.
  intros Hi. unfold finisher_step. destruct (finisher s) as [| | | | |[a|] prev|[a|]|h next| |] eqn:Ef; try done;
    intros [= <-].
  - destruct (finish_store s Hi Ef) as (st & -> & H). done.
  - by apply finish_notify.
  - destruct (finish_release s Hi Ef) as [-> H]. by rewrite release_fits.
  - destruct (finish_exchange s Hi Ef) as (p & -> & H). done.
  - destruct (finish_reverse s a prev Hi Ef) as (n & -> & H). done.
  - by apply finish_reversed.
  - destruct (finish_loop s a Hi Ef) as (n & Hh & -> & H).
    by replace (handles s !! a) with (Some (a : handle)).
  - by apply finish_looped.
  - destruct (finish_call s h next Hi Ef) as (k & b & -> & H). done.
  - by apply finish_unlock.
Qed.
End finishing.

(** ** The result_state moves *)
Section result.
Context {T : Type}.
Implicit Types s : SharedResult.state T.
Implicit Types r : ResultState.state T.
Notation rstep := (@ResultState.step T).

(** What a step of the [result_state] does to the phase of the shared state. *)
Definition phase_kept r r' : Prop :=
  (is_shared (cons r) = true -> is_shared (cons r') = true) /\
  (is_destroying (cons r) = true -> is_destroying (cons r') = true) /\
  (share_running (cons r') = true -> share_running (cons r) = true) /\
  (cons r = C_own r_start -> cons r' = C_own r_start).

Lemma shared_not_destroyed (c : consumer_pc T) : is_shared c = true -> is_destroying c = false.
Proof. destruct c; simpl; try done; by repeat case_match. Qed.

Lemma published_step l r r' :
  reachable rstep ResultState.init r -> rstep l r = Some r' -> published (prod r) = true ->
  published (prod r') = true /\ m_producer r' = m_producer r.
Proof.
  intros Hr Hs Hp. eapply published_stays; [|exact Hs|done].
  apply inv_reachable. by eapply reachable_step.
Qed.

Lemma inv_set_rs k s l r :
  inv k s -> rstep l (rs s) = Some r -> phase_kept (rs s) r -> notified r = notified (rs s) ->
  inv k (set_rs r s).
Proof.
  intros Hi Hs (P1 & P2 & P3 & P4) Hn.
  assert (Hpub : finisher s <> F_none -> published (prod r) = true /\ m_producer r = m_producer (rs s)).
  { intros Hf. by eapply published_step; [apply (inv_rs _ _ Hi)|exact Hs|apply (inv_pub _ _ Hi)]. }
  destruct Hi. constructor; try done; simpl.
  - by eapply reachable_step.
  - destruct (born s); naive_solver.
  - intros H. by apply inv_sharing, P3.
  - by rewrite Hn.
  - intros Hf. by apply Hpub.
  - destruct (unstored (finisher s)) eqn:E; [done|].
    destruct Hpub as [_ ->]; [by intros Ef; rewrite Ef in E|done].
  - destruct inv_list. by constructor.
  - intros i a Ha. destruct (inv_agents i a Ha). constructor; simpl; try done.
    intros o Ho. destruct (ai_got o Ho) as [Hf He]. split; [done|]. by destruct (Hpub Hf) as [_ ->].
Qed.

(** [on_result_finished] is called. *)
Lemma inv_start_finish s l r bp :
  inv 0 s -> rstep l (rs s) = Some r -> phase_kept (rs s) r ->
  notified r = S (notified (rs s)) -> published (prod (rs s)) = true -> notified (rs s) = 0 ->
  is_shared (cons (rs s)) = true -> (bp = false -> share_running (cons (rs s)) = true) ->
  finisher s = F_none /\
  inv 0 (set_finisher F_store (set_locked bp (if bp then add_ref (set_rs r s) else set_rs r s))).
Proof.
  intros Hi Hs (P1 & P2 & P3 & P4) Hn Hp Hz Hsh Hbp.
  assert (Hf : finisher s = F_none) by (by apply (inv_fin _ _ Hi)). split; [done|].
  assert (Hu : born s = true /\ 0 < use_count s).
  { pose proof (inv_phase _ _ Hi) as H. destruct (born s).
    - split; [done|]. destruct (use_count s) eqn:E; [|lia]. destruct H as [_ H]. specialize (H eq_refl).
      by rewrite (shared_not_destroyed _ Hsh) in H.
    - destruct H as [_ H]. by rewrite H in Hsh. }
  destruct Hu as [Hb Hu].
  assert (Hpub := published_step _ _ _ (inv_rs _ _ Hi) Hs Hp). destruct Hpub as [Hpub Hprod].
  pose proof (inv_phase _ _ Hi) as Hphase. rewrite Hb in Hphase.
  destruct Hi. rewrite Hf in *.
  assert (Hend : forall v, v = sum_list_with refs (agents s) + (if bp then 1 else 0) -> 0 < v ->
    inv 0 (set_finisher F_store (set_locked bp (set_use_count v (set_rs r s))))).
  { intros v Hv Hv0. constructor; try done; simpl.
    - by eapply reachable_step.
    - unfold fin_refs. simpl. lia.
    - rewrite Hb. split; [intros _; by apply P1, Hphase|lia].
    - intros H. by apply inv_sharing, P3.
    - intros _ H. by apply inv_sharing, Hbp.
    - rewrite Hn. done.
    - destruct inv_list as [H1 H2 Hl]. constructor; [done..|]. unfold linked in *. by rewrite Hf in Hl.
    - intros i a Ha. destruct (inv_agents i a Ha). rewrite Hf in *. constructor; simpl; try done.
      intros o Ho. by destruct (ai_got o Ho). }
  unfold fin_refs in inv_count. rewrite Hf in inv_count. simpl in inv_count.
  destruct bp; [apply (Hend (S (use_count s))); lia|apply (Hend (use_count s)); lia].
Qed.

Lemma result_step_inv s s' bp l :
  inv 0 s -> (bp = true /\ of_producer l = true) \/ (bp = false /\ l = ResultState.L_consumer) \/
    (bp = false /\ l = ResultState.L_call call_complete /\ cons (rs s) = C_own r_unshared) ->
  result_step bp l s = Some s' -> inv 0 s'.
Proof.
  intros Hi Hl. unfold result_step. destruct (rstep l (rs s)) as [r|] eqn:Hs; [|done].
  assert (Hk : phase_kept (rs s) r).
  { unfold phase_kept. destruct Hl as [[-> Hl]|[[-> ->]|(-> & -> & Hc)]].
    - destruct (producer_keeps_cons _ _ _ Hl Hs) as (-> & -> & -> & H). done.
    - destruct (share_step_phase _ _ (inv_rs _ _ Hi) Hs) as (H1 & H2 & H3 & H4). naive_solver.
    - simpl in Hs. unfold ResultState.call_step in Hs. rewrite Hc in *. simpl in Hs. by injection Hs as <-. }
  intros [= <-]. case_decide as E; [by eapply inv_set_rs|].
  destruct (notified_changes _ _ _ Hs) as [Hn|[Hn Hw]]; [done|].
  assert (Hab : notified (rs s) = 0 /\ published (prod (rs s)) = true).
  { apply about_to_notify; [apply (inv_rs _ _ Hi)|]. naive_solver. }
  destruct Hab as [Hz Hp]. destruct (inv_start_finish s l r bp) as [-> H]; try done.
  - destruct Hw as [(_ & [ctx ->] & _)|(_ & ctx & ->)]; done.
  - intros ->. destruct Hw as [(-> & _)|(_ & ctx & ->)]; [|done]. naive_solver.
Qed.
End result.

(** ** Every reachable state *)
Section reachable.
Context {T : Type}.
Implicit Types s : SharedResult.state T.

Lemma alive_inv s s' o : inv 0 s -> 0 < use_count s -> alive o s = Some s' -> (o = Some s' -> inv 0 s') -> inv 0 s'.
Proof. intros Hi Hu. unfold alive. case_decide; [lia|]. auto. Qed.

Lemma shared_inv_step l s s' : inv 0 s -> step l s = Some s' -> inv 0 s'.
Proof.
  intros Hi Hs. destruct l as [i c|i|i|i| |l| | |d]; simpl in Hs.
  - by eapply call_step_inv.
  - destruct (agents s !! i) as [a|] eqn:Ha; [|done].
    destruct (act_step i a s) as [s1|] eqn:E; [|by unfold alive in Hs; case_decide].
    assert (Hu : 0 < use_count s).
    { eapply acting_counted; [done..|]. intros r Ep. unfold act_step in E. by rewrite Ep in E. }
    eapply alive_inv; [done..|]. intros [= ->]. by eapply act_step_inv.
  - destruct (agents s !! i) as [a|] eqn:Ha; [|done]. destruct a as [[] b]; simplify_eq.
    eapply (may_go_inv 0 0 s i (make_agent (S_acquire t) b)); try done. unfold may_go. simpl. split_ands; try done.
    by apply (ai_held _ _ _ (inv_agents _ _ Hi _ _ Ha)).
  - destruct (agents s !! i) as [a|] eqn:Ha; [|done]. destruct a as [[] b]; simplify_eq.
    + eapply (may_go_inv 0 0 s i (make_agent (S_await_cas k before) b)); try done.
    + eapply (may_go_inv 0 0 s i (make_agent (S_parked k) b)); try done. unfold may_go. simpl. split_ands; try done.
      by apply (ai_held _ _ _ (inv_agents _ _ Hi _ _ Ha)).
  - destruct (finisher_step s) as [s1|] eqn:E; [|by unfold alive in Hs; case_decide].
    assert (Hu : 0 < use_count s).
    { apply (running_counted 0); [done|]. unfold finisher_step in E. by destruct (finisher s). }
    eapply alive_inv; [done..|]. intros [= ->]. by eapply finisher_step_inv.
  - destruct (of_producer l) eqn:E; [|done]. eapply result_step_inv; [done| |done]. auto.
  - eapply result_step_inv; [done| |done]. auto.
  - destruct (cons (rs s)) eqn:E; try done. destruct r; try done.
    eapply result_step_inv; [done| |done]. auto.
  - simplify_eq. by apply inv_tick.
Qed.

Lemma shared_inv_reachable n s : reachable step (init n) s -> inv 0 s.
Proof. apply reachable_invariant; [apply shared_inv_init|apply shared_inv_step]. Qed.
End reachable.
