(* ===== verification/SharedResultTheorems.v ===== *)
(** * shared_result: theorems *)

From stdpp Require Import prelude gmap list strings.
From Stdlib Require Import ZArith Lia.
From S2P Require Import Prelude Errors ProducerContext ConsumerContext Slist ResultState ResultStateProps ResultStateFacts SharedResult SharedResultProps SharedResultSteps SharedResultFinish.

Local Open Scope list_scope.

(** ** Progress *)
Section progress.
Context {T : Type}.
Implicit Types s : SharedResult.state T.
Implicit Types a b : agent T.

Lemma chain_unique h p l l' : chain h p l -> chain h p l' -> l = l'.
Proof.
  revert p l'. induction l as [|x l IH]; intros p [|y l']; simpl; [done|naive_solver|naive_solver|].
  intros [-> (n & Hn & Hc)] [[= ->] (n' & Hn' & Hc')]. f_equal.
  assert (n = n') as <- by congruence. by eapply IH.
Qed.

(** How many actions [on_result_finished] still takes. *)
Definition finish_rank s (n : nat) : Prop :=
  let len := length (registered s) in
  match finisher s with
  | F_none => False
  | F_store => n = 3 * len + 7
  | F_notify => n = 3 * len + 6
  | F_release => n = 3 * len + 5
  | F_exchange => n = 3 * len + 4
  | F_reverse current _ => exists l, chain (nexts s) current l /\ n = length l + 2 * len + 3
  | F_loop _ => n = 2 * (len - length (resumed s)) + 2
  | F_call _ _ => n = 2 * (len - length (resumed s)) + 1
  | F_unlock => n = 1
  | F_done => n = 0
  end.

Lemma finish_rank_exists s : inv 0 s -> finisher s <> F_none ->
  exists n, finish_rank s n /\ n <= 3 * length (registered s) + 7.
Proof.
  intros Hi Hf. pose proof (li_linked _ (inv_list _ _ Hi)) as Hl. unfold finish_rank, linked in *.
  destruct (finisher s); try done; eauto with lia.
  - destruct Hl as (_ & _ & l1 & l2 & _ & H2 & Hr). eexists. split; [by eexists|].
    rewrite Hr, length_app, length_reverse. lia.
Qed.

Lemma drop_ref_finisher s : finisher (drop_ref s) = finisher s.
Proof. unfold drop_ref. by destruct (use_count s) as [|[|]]; [|case_match|]. Qed.

Lemma finish_step s n :
  inv 0 s -> finish_rank s (S n) ->
  exists s', step L_finish s = Some s' /\ inv 0 s' /\ finish_rank s' n.
Proof.
  intros Hi Hr. assert (Hrun : running (finisher s) = true).
  { unfold finish_rank in Hr. by destruct (finisher s). }
  assert (Hst : step L_finish s = finisher_step s).
  { simpl. unfold alive. rewrite decide_False; [done|]. pose proof (running_counted 0 s Hi Hrun). lia. }
  rewrite Hst. clear Hst. pose proof (li_linked _ (inv_list _ _ Hi)) as Hl.
  assert (Hnd := li_nodup _ (inv_list _ _ Hi)).
  unfold finish_rank, linked, finisher_step in *.
  destruct (finisher s) as [| | | | |[a|] prev|[a|]|h next| |] eqn:Ef; try done.
  - destruct (finish_store s Hi Ef) as (st & -> & H). eexists. split; [done|]. split; [done|]. simpl. lia.
  - eexists. split; [done|]. split; [by apply finish_notify|]. simpl. lia.
  - destruct (finish_release s Hi Ef) as [-> H]. rewrite release_fits. eexists. split; [done|]. split; [done|]. simpl. lia.
  - destruct (finish_exchange s Hi Ef) as (p & Hp & H). rewrite Hp. eexists. split; [done|]. split; [done|]. simpl.
    destruct Hl as [(p' & Hp' & Hc) _]. assert (p' = p) as -> by congruence.
    eexists. split; [done|]. rewrite length_reverse. lia.
  - destruct (finish_reverse s a prev Hi Ef) as (n' & Hn & H). rewrite Hn. eexists. split; [done|]. split; [done|]. simpl.
    destruct Hl as (_ & _ & l1 & l2 & _ & H2 & Hreg), Hr as (l & Hc & Hlen).
    rewrite (chain_unique _ _ _ _ Hc H2) in *. destruct l2 as [|x l2]; [done|]. simpl in *.
    destruct H2 as [[= ->] (n2 & Hn2 & H2)]. assert (n2 = n') as -> by congruence.
    exists l2. split; [|lia]. apply chain_insert; [|done]. rewrite Hreg, reverse_cons in Hnd.
    intros Hin. apply NoDup_app in Hnd as [(_ & Hd & _)%NoDup_app _].
    apply (Hd x); [by rewrite elem_of_reverse|left].
  - eexists. split; [done|]. split; [by apply finish_reversed|]. simpl.
    destruct Hr as (l & Hc & Hlen), Hl as (_ & Hres & _). destruct l as [|x l]; simpl in *; [|naive_solver].
    rewrite Hres. simpl. lia.
  - destruct (finish_loop s a Hi Ef) as (n' & Hh & Hn & H). rewrite Hn.
    replace (handles s !! a) with (Some (a : handle)) by done. eexists. split; [done|]. split; [done|]. simpl.
    destruct Hl as (_ & [|x l] & Hc & Hreg); simpl in Hc; [done|]. rewrite Hreg, length_app in *. simpl in *. lia.
  - eexists. split; [done|]. split; [by apply finish_looped|]. simpl.
    destruct Hl as (_ & [|x l] & Hc & Hreg); simpl in Hc; [|naive_solver]. rewrite Hreg, length_app in *. simpl in *. lia.
  - destruct (finish_call s h next Hi Ef) as (k & b & -> & H). eexists. split; [done|]. split; [done|]. simpl.
    destruct Hl as (_ & l & Hc & Hreg). rewrite Hreg, !length_app in *. simpl in *. lia.
  - eexists. split; [done|]. split; [exact (finish_unlock s Hi Ef)|]. simpl in *.
    destruct (locked s); [rewrite drop_ref_finisher|]; simpl; lia.
Qed.

Lemma finish_runs n s :
  inv 0 s -> finish_rank s n ->
  exists s', run step (replicate n L_finish) s = Some s' /\ inv 0 s' /\ finisher s' = F_done.
Proof.
  revert s. induction n as [|n IH]; intros s Hi Hr.
  - exists s. split; [done|]. split; [done|]. unfold finish_rank in Hr. destruct (finisher s); try done; try lia.
    destruct Hr as (l & _ & Hl). lia.
  - destruct (finish_step s n Hi Hr) as (s1 & Hs & Hi1 & Hr1). cbn [replicate run]. rewrite Hs. by apply IH.
Qed.

(** How many actions the call of an agent still takes when
    [on_result_finished] has returned. *)
Definition agent_rank (p : agent_pc T) : nat :=
  match p with
  | S_constructing | S_resumed _ | S_get | S_status st_return | S_status (st_final _) => 1
  | S_status (st_wait _) | S_wait _ | S_status (st_loop _) | S_await_load _ => 2
  | S_await_cas _ _ | S_acquire _ => 3
  | S_clock _ => 4
  | S_idle _ | S_suspended _ | S_parked _ => 0
  end.

(** [i] itself acts, or gives up in [try_acquire_until]. *)
Definition acts_alone (i : addr) (l : label T) : Prop := l = L_act i \/ l = L_timeout i.

Definition agent_done (i : addr) s : Prop := exists r h, agents s !! i = Some (make_agent (S_idle r) h).

Lemma act_alive s i a s' :
  inv 0 s -> agents s !! i = Some a -> act_step i a s = Some s' -> step (L_act i) s = Some s'.
Proof.
  intros Hi Ha Hs. simpl. rewrite Ha. unfold alive. rewrite decide_False; [done|].
  assert (0 < use_count s); [|lia]. eapply acting_counted; [done..|].
  intros r Ep. unfold act_step in Hs. by rewrite Ep in Hs.
Qed.

Lemma drop_ref_agents s : agents (drop_ref s) = agents s.
Proof. unfold drop_ref. by destruct (use_count s) as [|[|]]; [|case_match|]. Qed.

Lemma agent_moves s i a :
  inv 0 s -> finisher s = F_done -> agents s !! i = Some a -> (forall r, a_pc a <> S_idle r) ->
  exists l s' a', acts_alone i l /\ step l s = Some s' /\ finisher s' = F_done /\
    agents s' !! i = Some a' /\ agent_rank (a_pc a') < agent_rank (a_pc a).
Proof.
  intros Hi Hf Ha Hn. assert (Hag := inv_agents _ _ Hi _ _ Ha).
  assert (Hlt : i < length (agents s)) by (by eapply lookup_lt_Some).
  assert (Hst : m_status s <> idle) by (apply (stored_not_idle _ _ Hi); by rewrite Hf).
  assert (Hu : 0 < use_count s) by (by eapply acting_counted).
  assert (Hrdy : m_awaiters s = result_ready_constant /\ registered s = resumed s).
  { pose proof (li_linked _ (inv_list _ _ Hi)) as Hl. unfold linked in Hl. by rewrite Hf in Hl. }
  destruct Hrdy as [Hrdy Hres]. destruct (get_ref_got s Hi Hu Hst) as (p & _ & Hget & _).
  assert (Hact : forall s' p', act_step i a s = Some s' -> finisher s' = F_done ->
            agents s' = <[i := make_agent p' (held a)]> (agents s) -> agent_rank p' < agent_rank (a_pc a) ->
            exists l s' a', acts_alone i l /\ step l s = Some s' /\ finisher s' = F_done /\
              agents s' !! i = Some a' /\ agent_rank (a_pc a') < agent_rank (a_pc a)).
  { intros s' p' H1 H2 H3 H4. exists (L_act i), s', (make_agent p' (held a)). split; [by left|].
    split; [by eapply act_alive|]. split; [done|]. rewrite H3. split; [by apply list_lookup_insert_eq|done]. }
  unfold act_step in Hact. destruct (a_pc a) as [r| |k|k before|k|k|[|k|t|t]|k|k| |t|t] eqn:Ep.
  - by edestruct Hn.
  - destruct (shared_registered (rs s) (inv_rs _ _ Hi)) as [ctx Hc].
    { by apply (counted_born _ _ Hi). }
    { intros E. apply (inv_fin _ _ Hi) in E. by rewrite Hf in E. }
    eexists (L_act i), _, (make_agent (S_idle v_void) true). split; [by left|]. split.
    + eapply act_alive; [done..|]. unfold act_step, constructing_step. by rewrite Ep, Hc, Hf.
    + split; [done|]. simpl. split; [by apply list_lookup_insert_eq|lia].
  - eapply Hact; [done|unfold await_load_step; by rewrite Hrdy..|simpl; lia].
  - eapply Hact; [done| | |simpl; shelve]; unfold await_cas_step; rewrite Hrdy; simpl; done.
    Unshelve. simpl; lia.
  - assert (Hs : is_suspended (a_pc a) = true) by (by rewrite Ep).
    apply (ai_suspended _ _ _ Hag) in Hs. rewrite Hres in Hs. by destruct Hs.
  - unfold await_resume_step, destroy_awaitable in Hact. rewrite Hget in Hact.
    destruct k; [destruct p; cbn [payload_outcome] in Hact|]; (eapply Hact; [done|by rewrite drop_ref_finisher|by rewrite drop_ref_agents|simpl; lia]).
  - eapply Hact; [done|done|done|simpl; lia].
  - unfold status_step in Hact. rewrite decide_False in Hact by done.
    destruct k; (eapply Hact; [done|done|done|simpl; lia]).
  - unfold status_step in Hact. rewrite decide_False in Hact by done. eapply Hact; [done|done|done|simpl; lia].
  - eapply Hact; [done|done|done|simpl; lia].
  - unfold wait_step in Hact. rewrite decide_False in Hact by done.
    destruct k; (eapply Hact; [done|done|done|simpl; lia]).
  - assert (Hp : is_parked (a_pc a) = true) by (by rewrite Ep). apply (ai_parked _ _ _ Hag) in Hp. by rewrite Hf in Hp.
  - unfold get_step in Hact. rewrite Hget in Hact. destruct p; (eapply Hact; [done|done|done|simpl; lia]).
  - unfold clock_step in Hact. destruct (clock s <? t)%Z; (eapply Hact; [done|done|done|simpl; lia]).
  - destruct a as [? h]. simpl in Ep. subst. exists (L_timeout i), (set_agent i (make_agent (S_status (st_loop t)) h) s), (make_agent (S_status (st_loop t)) h).
    split; [by right|]. simpl. rewrite Ha. split; [done|]. split; [done|]. split; [by apply list_lookup_insert_eq|lia].
Qed.

Lemma agent_completes s i a :
  inv 0 s -> finisher s = F_done -> agents s !! i = Some a ->
  exists ls s', Forall (acts_alone i) ls /\ length ls <= agent_rank (a_pc a) /\ run step ls s = Some s' /\ agent_done i s'.
Proof.
  remember (agent_rank (a_pc a)) as n eqn:Hn. revert s a Hn.
  induction n as [n IH] using lt_wf_ind. intros s a -> Hi Hf Ha.
  destruct (a_pc a) as [r| | | | | | | | | | |] eqn:Ep.
  { exists [], s. split; [constructor|]. split; [simpl; lia|]. split; [done|]. exists r, (held a). destruct a. simpl in *. by subst. }
  all: destruct (agent_moves s i a Hi Hf Ha) as (l & s1 & a1 & Hl & Hs & Hf1 & Ha1 & Hlt); [by rewrite Ep|];
    rewrite Ep in Hlt; assert (Hi1 : inv 0 s1) by (by eapply shared_inv_step);
    destruct (IH _ Hlt s1 a1 eq_refl Hi1 Hf1 Ha1) as (ls & s' & H1 & H2 & H3 & H4);
    exists (l :: ls), s'; (split; [by constructor|]); (split; [simpl in *; lia|]); cbn [run]; rewrite Hs; done.
Qed.

Lemma agents_length l s s' : step l s = Some s' -> length (agents s') = length (agents s).
Proof.
  assert (Hd : forall s0 : SharedResult.state T, length (agents s0) = length (agents s) -> length (agents (drop_ref s0)) = length (agents s)).
  { intros s0. by rewrite drop_ref_agents. }
  destruct l as [i c|i|i|i| |l| | |d]; simpl; unfold alive, call_step, act_step, finisher_step, result_step,
    constructing_step, acquire_step, construct, assign_copy, assign_move, throw_if_empty, return_, go, start_await,
    await_resume_step, destroy_awaitable, await_load_step, await_cas_step, status_step, wait_step, clock_step, SharedResult.get_step;
    intros H; repeat first [progress simplify_eq/= | case_match];
    rewrite ?drop_ref_agents; simpl; rewrite ?length_insert, ?length_fmap, ?drop_ref_agents; simpl;
    rewrite ?length_insert; try done.
Qed.

Lemma agents_length_run ls s s' : run step ls s = Some s' -> length (agents s') = length (agents s).
Proof.
  revert s. induction ls as [|l ls IH]; intros s; cbn [run]; [by intros [= ->]|].
  destruct (step l s) as [s1|] eqn:E; [|done]. intros H. rewrite (IH _ H). by eapply agents_length.
Qed.

Lemma agent_rank_bound p : agent_rank p <= 4.
Proof. destruct p as [| | | | | |[]| | | | |]; simpl; lia. Qed.
End progress.

(** ** Theorems *)
Section theorems.
Context {T : Type}.
Implicit Types s : SharedResult.state T.

(** C26.  The shared state is safe: in every interleaving no assertion fails, no
    coroutine is resumed that is not suspended, and neither the agents nor
    [on_result_finished] use the shared state, or an awaiter, after its
    destruction; the reference count is the number of [shared_ptr]s that exist,
    so a state that is destroyed is used by nobody and awaited by nobody. *)
Theorem shared_result_is_safe n s :
  reachable step (init n) s ->
  failed s = false /\
  use_count s = sum_list_with refs (agents s) + fin_refs s /\
  (forall i a, use_count s = 0 -> agents s !! i = Some a -> held a = false /\ exists r, a_pc a = S_idle r).
Proof.
  intros Hi%shared_inv_reachable. split; [apply (inv_ok _ _ Hi)|]. split; [rewrite (inv_count _ _ Hi); lia|].
  intros i a Hu Ha. destruct (held a) eqn:Eh.
  { pose proof (held_counted 0 s i a Hi Ha Eh). lia. }
  split; [done|]. destruct (a_pc a) eqn:Ep; eauto; exfalso;
    (assert (0 < use_count s) by (eapply (acting_counted 0); [done..|by rewrite Ep])); lia.
Qed.

(** C27.  Every coroutine that awaits a shared result before it is ready is
    resumed exactly once, in the order in which the awaiters were linked,
    although the lock-free list hands them over in the reverse order; a
    coroutine is suspended if and only if it was linked and not yet resumed, so
    one that comes too late never is. *)
Theorem awaiters_resumed_once_in_order n s :
  reachable step (init n) s ->
  NoDup (registered s) /\ resumed s `prefix_of` registered s /\
  (forall i a, agents s !! i = Some a ->
     is_suspended (a_pc a) = true <-> i ∈ registered s /\ i ∉ resumed s) /\
  (finisher s = F_done -> resumed s = registered s).
Proof.
  intros Hi%shared_inv_reachable. pose proof (li_linked _ (inv_list _ _ Hi)) as Hl.
  split; [apply (li_nodup _ (inv_list _ _ Hi))|]. split; [|split].
  - unfold linked in Hl. destruct (finisher s).
    1-5: destruct Hl as [_ ->]; apply prefix_nil.
    + destruct Hl as (_ & -> & _). apply prefix_nil.
    + destruct Hl as (_ & l & _ & ->). by apply prefix_app_r.
    + destruct Hl as (_ & l & _ & ->). by apply prefix_app_r.
    + by destruct Hl as [_ ->].
    + by destruct Hl as [_ ->].
  - intros i a Ha. apply (ai_suspended _ _ _ (inv_agents _ _ Hi _ _ Ha)).
  - intros Ef. unfold linked in Hl. rewrite Ef in Hl. by destruct Hl.
Qed.

(** [get] and [co_await] of a shared result return the value, or throw the
    exception, that the producer has stored, to every consumer the same. *)
Theorem shared_get_returns_the_result n s i j a b o o' :
  reachable step (init n) s -> agents s !! i = Some a -> agents s !! j = Some b ->
  a_pc a = S_idle (v_got o) -> a_pc b = S_idle (v_got o') ->
  o' = o /\ exists r, content (m_producer (rs s)) = Some r /\ o = payload_outcome r /\ published (prod (rs s)) = true.
Proof.
  intros Hi%shared_inv_reachable Ha Hb Ea Eb.
  destruct (ai_got _ _ _ (inv_agents _ _ Hi _ _ Ha) _ Ea) as (Hf & r & Hr & ->).
  destruct (ai_got _ _ _ (inv_agents _ _ Hi _ _ Hb) _ Eb) as (_ & r' & Hr' & ->).
  assert (r' = r) as -> by congruence. split; [done|]. exists r. split; [done|]. split; [done|].
  by apply (inv_pub _ _ Hi).
Qed.

(** Nobody waits for ever: once the producer is done with a result that is
    shared, the call of every agent completes, whatever it was doing, after at
    most three actions of [on_result_finished] for each awaiter and seven more,
    and at most four of its own. *)
Theorem shared_result_completes n s ctx i a :
  reachable step (init n) s -> cons (rs s) = C_registered (r_shared ctx) -> prod (rs s) = P_gone ->
  agents s !! i = Some a ->
  exists k ls s', k <= 3 * length (registered s) + 7 /\ length ls <= 4 /\ Forall (acts_alone i) ls /\
    run step (replicate k L_finish ++ ls) s = Some s' /\ agent_done i s'.
Proof.
  intros Hi%shared_inv_reachable Hc Hp Ha.
  assert (Hf : finisher s <> F_none).
  { intros E. apply (inv_fin _ _ Hi) in E. pose proof (share_inv_reachable _ (inv_rs _ _ Hi)) as Hs.
    unfold share_inv in Hs. rewrite Hc, Hp, E in Hs. simpl in Hs. naive_solver. }
  destruct (finish_rank_exists s Hi Hf) as (k & Hk & Hle).
  destruct (finish_runs k s Hi Hk) as (s1 & Hr1 & Hi1 & Hf1).
  destruct (lookup_lt_is_Some_2 (agents s1) i) as [a1 Ha1].
  { rewrite (agents_length_run _ _ _ Hr1). by eapply lookup_lt_Some. }
  destruct (agent_completes s1 i a1 Hi1 Hf1 Ha1) as (ls & s' & H1 & H2 & H3 & H4).
  exists k, ls, s'. split; [done|]. split; [pose proof (agent_rank_bound (a_pc a1)); lia|].
  split; [done|]. split; [by rewrite run_app, Hr1|done].
Qed.

(** [wait_until] returns [idle] only when its deadline has passed. *)
Lemma wait_until_is_honest n s s' i a t :
  reachable step (init n) s -> agents s !! i = Some a -> a_pc a = S_status (st_final t) ->
  step (L_act i) s = Some s' -> agents s' !! i = Some (make_agent (S_idle (v_status idle)) (held a)) ->
  (t <= clock s)%Z.
Proof.
  intros Hi%shared_inv_reachable Ha Ep Hs Hi'. assert (Hag := inv_agents _ _ Hi _ _ Ha).
  destruct (ai_final _ _ _ Hag t Ep) as [Ht|Hne]; [done|].
  erewrite act_alive in Hs; [|done|done|unfold act_step; by rewrite Ep].
  injection Hs as <-. simpl in Hi'. rewrite list_lookup_insert_eq in Hi' by (by eapply lookup_lt_Some).
  by injection Hi'.
Qed.
End theorems.

(** ** Concrete runs *)
Section runs.
Notation share n := (replicate n (L_share (T := nat))).
Notation act i n := (replicate n (L_act (T := nat) i)).

(** Agent 0 shares a result with 1, 2 and 3; 0 and 1 await it, 2 waits and 3
    calls [get]. *)
Definition run_waiters : list (label nat) :=
  [L_call 0 call_construct] ++ share 3 ++ act 0 1 ++
  [L_call 1 (call_assign_copy 0); L_call 2 (call_assign_copy 0); L_call 3 (call_assign_copy 0);
   L_call 0 call_co_await; L_call 1 call_co_await; L_call 2 call_wait; L_call 3 call_get] ++
  act 0 2 ++ act 1 2 ++ act 2 2 ++ act 3 2.

(** The result is produced, and the producer calls [on_result_finished]. *)
Definition run_produced : list (label nat) :=
  run_waiters ++
  [L_producer (ResultState.L_set_result (inl 42)); L_producer (ResultState.L_complete None);
   L_producer ResultState.L_producer; L_producer ResultState.L_producer; L_producer ResultState.L_producer].

Definition run_delivered : list (label nat) :=
  run_produced ++ replicate 13 L_finish ++ act 0 1 ++ act 3 2.

(** Everybody drops the result. *)
Definition run_dropped : list (label nat) :=
  run_delivered ++ act 1 1 ++ act 2 1 ++
  [L_call 0 call_destroy; L_call 1 call_destroy; L_call 2 call_destroy; L_call 3 call_destroy] ++ share 1 ++ [L_reset] ++ share 2.
End runs.

Notation after_run := (after (@step nat) (init 4)).

Example everything_is_freed :
  use_count (after_run run_dropped) = 0 /\ freed (rs (after_run run_dropped)) = [None].
Proof. by vm_compute. Qed.

(** ** Move assignment

    [rhs] is empty afterwards unless both objects share the state already: the
    guard [m_state != rhs.m_state] then skips the move, and [rhs] keeps its
    reference, so the state lives on. *)
Lemma move_of_a_sharer_keeps_rhs {T} i src r (a b : agent T) s s' :
  agents s !! i = Some a -> agents s !! src = Some b -> i <> src ->
  a_pc a = S_idle r -> (exists r', a_pc b = S_idle r') ->
  call_step i (call_assign_move src) s = Some s' ->
  held a = true -> held b = true -> agents s' !! src = Some b /\ use_count s' = use_count s.
Proof.
  intros Ha Hb Hne Hi (r' & Hr') Hs Hga Hgb. unfold call_step in Hs.
  rewrite Ha, Hi, Hb in Hs. destruct b as [q hb]. simpl in *. subst q hb.
  unfold assign_move in Hs. rewrite decide_False in Hs by (simpl; rewrite Hga; tauto).
  simplify_eq. unfold return_, go, set_agent. simpl.
  by rewrite list_lookup_insert_ne by done.
Qed.

(** ** Witnesses *)
Lemma shared_result_is_safe_witness : failed (after_run run_dropped) = false.
Proof. exact (proj1 (shared_result_is_safe 4 _ (after_reachable _ _ run_dropped))). Defined.

Lemma awaiters_resumed_once_in_order_witness :
  resumed (after_run run_delivered) = registered (after_run run_delivered) /\ registered (after_run run_delivered) = [0; 1].
Proof.
  destruct (awaiters_resumed_once_in_order 4 _ (after_reachable _ _ run_delivered)) as (_ & _ & _ & H).
  split; [|by vm_compute]. apply H. by vm_compute.
Defined.

Lemma shared_get_returns_the_result_witness :
  exists r, content (m_producer (rs (after_run run_delivered))) = Some r /\ Ok 42 = payload_outcome r.
Proof.
  assert (H0 : agents (after_run run_delivered) !! 0 = Some (make_agent (S_idle (v_got (Ok 42))) true)) by (by vm_compute).
  assert (H3 : agents (after_run run_delivered) !! 3 = Some (make_agent (S_idle (v_got (Ok 42))) true)) by (by vm_compute).
  destruct (shared_get_returns_the_result 4 _ 0 3 _ _ (Ok 42) (Ok 42) (after_reachable _ _ run_delivered) H0 H3 eq_refl eq_refl)
    as (_ & r & H1 & H2 & _).
  exists r. by split.
Defined.

Lemma shared_result_completes_witness :
  exists k ls s', k <= 3 * length (registered (after_run run_produced)) + 7 /\ length ls <= 4 /\ Forall (acts_alone 1) ls /\
    run step (replicate k L_finish ++ ls) (after_run run_produced) = Some s' /\ agent_done 1 s'.
Proof.
  assert (Ha : agents (after_run run_produced) !! 1 = Some (make_agent (S_suspended by_co_await) true)) by (by vm_compute).
  assert (Hc : cons (rs (after_run run_produced)) = C_registered (r_shared 0)) by (by vm_compute).
  assert (Hp : prod (rs (after_run run_produced)) = P_gone) by (by vm_compute).
  exact (shared_result_completes 4 _ 0 1 _ (after_reachable _ _ run_produced) Hc Hp Ha).
Defined.
