(* ===== verification/Result.v ===== *)
(** * result and result_promise

    [include/concurrencpp/results/result.h],
    [include/concurrencpp/results/result_awaitable.h],
    [include/concurrencpp/results/make_result.h], and the deleters and
    [from_callable] of [include/concurrencpp/results/impl/result_state.h].

    A program owns any number of [result] and [result_promise] objects, which own
    [result_state]s through their unique pointers.  A member function runs the
    transition system of [ResultState] until it returns or blocks; then the
    thread or the coroutine that called it goes on in an operation of its own.
    The calls of different threads are interleaved as wholes: [set_result], for
    example, is one step, from the exchange to the last access of
    [complete_producer] to the state.  Finer interleavings are those of
    [ResultState], which finds that this last access can come after the consumer
    has deleted the state. *)

From stdpp Require Import prelude list strings.
From Stdlib Require Import ZArith.
From S2P Require Import Prelude Errors ProducerContext ConsumerContext ResultState.

Local Open Scope list_scope.

Inductive await_kind := by_co_await | by_resolve.

Section result.
Context {T : Type}.
Notation rstate := (ResultState.state T).

(** What the last call on a result returned. *)
Inductive ret :=
  | rv_none | rv_void | rv_resolved
  | rv_status (s : result_status)
  | rv_got (o : outcome exn T)
  | rv_threw (e : exn).

(** Where the user of a result is.  An awaitable is a temporary of the
    coroutine that awaits; it owns the state. *)
Inductive activity :=
  | at_rest
  | in_wait | in_get                        (* blocked in m_state->wait() *)
  | in_wait_for                             (* blocked in m_state->wait_for() *)
  | in_await (k : await_kind) (a : addr).   (* suspended *)

Record result := make_result { m_state : option addr; doing : activity; last : ret }.

Record result_promise := make_promise {
  m_producer_state : option addr;
  m_consumer_state : option addr
}.

Record world := make_world {
  states : list rstate;
  results : list result;
  promises : list result_promise
}.

Definition new_world : world := make_world [] [] [].

Definition set_states v w := make_world v (results w) (promises w).
Definition set_results v w := make_world (states w) v (promises w).
Definition set_promises v w := make_world (states w) (results w) v.

Notation monad := (M exn world).

(** ** The result_states *)

(** A thread runs until it is between two calls, blocked or gone. *)
Fixpoint run_consumer (n : nat) (s : rstate) : rstate :=
  match n with
  | 0 => s
  | S n => match consumer_step s with Some s' => run_consumer n s' | None => s end
  end.

Fixpoint run_producer (n : nat) (s : rstate) : rstate :=
  match n with
  | 0 => s
  | S n => match producer_step s with Some s' => run_producer n s' | None => s end
  end.

(** No call takes more actions. *)
Definition call_steps : nat := 8.

Definition is_bad (s : rstate) : bool :=
  match cons s, prod s with C_aborted, _ | _, P_aborted => true | _, _ => false end.

(** The state [a] points to; using a state that was deleted is undefined. *)
Definition get_state_at (a : addr) : monad rstate :=
  w ← get_state;
  match states w !! a with
  | Some s => massert (bool_decide (freed s = []));; mret s
  | None => abort
  end.

Definition put_state_at (a : addr) (s : rstate) : monad unit :=
  massert (negb (is_bad s));;
  modify (fun w => set_states (<[a := s]> (states w)) w).

(** A call of a member function by the consumer: it must be the consumer's
    turn. *)
Definition consumer_calls (c : consumer_call) (a : addr) : monad rstate :=
  s ← get_state_at a;
  match call_step c s with
  | Some s' =>
      let s'' := run_consumer call_steps s' in
      put_state_at a s'';; mret s''
  | None => abort
  end.

(** The deleters of the three pointers. *)
Definition consumer_result_state_deleter (a : addr) : monad unit :=
  consumer_calls call_complete a;; mret tt.

Definition producer_result_state_deleter (a : addr) : monad unit :=
  s ← get_state_at a;
  put_state_at a (run_producer call_steps (set_prod P_exchange (set_done_handle None s))).

(** [get()] of a state in a [joined_consumer_result_state_ptr]. *)
Definition joined_get (a : addr) : monad (outcome exn T) :=
  s ← consumer_calls call_get a;
  match cons s with
  | C_gone (Some o) => mret o
  | _ => abort
  end.

(** [ptr.reset(p)]: the old pointer goes to the deleter. *)
Definition delete_with (deleter : addr -> monad unit) (p : option addr) : monad unit :=
  match p with Some a => deleter a | None => mret tt end.

(** [new result_state<type>()]. *)
Definition new_state : monad addr :=
  w ← get_state;
  put_state (set_states (states w ++ [ResultState.init]) w);;
  mret (length (states w)).

(** ** Objects *)
Definition result_at (i : nat) : monad result :=
  w ← get_state;
  match results w !! i with Some o => mret o | None => abort end.

Definition put_result (i : nat) (o : result) : monad unit :=
  modify (fun w => set_results (<[i := o]> (results w)) w).

Definition new_result (p : option addr) : monad nat :=
  w ← get_state;
  put_state (set_results (results w ++ [make_result p at_rest rv_none]) w);;
  mret (length (results w)).

Definition promise_at (j : nat) : monad result_promise :=
  w ← get_state;
  match promises w !! j with Some p => mret p | None => abort end.

Definition put_promise (j : nat) (p : result_promise) : monad unit :=
  modify (fun w => set_promises (<[j := p]> (promises w)) w).

(** ** result *)
Definition throw_if_empty (o : result) (message : string) : monad addr :=
  match m_state o with
  | Some a => mret a
  | None => throw (make_exn empty_result message)
  end.

(** The call of the user of result [i] returns [r]. *)
Definition return_result (i : nat) (p : option addr) (r : ret) : monad unit :=
  put_result i (make_result p at_rest r).

(** The thread is blocked, or the coroutine is suspended. *)
Definition is_blocked (s : rstate) : bool :=
  match cons s with C_wait_parked | C_suspended _ | C_wf_acquire _ => true | _ => false end.

Definition last_status (s : rstate) : monad result_status :=
  match cons s with C_own (r_status st) => mret st | _ => abort end.

Definition status (i : nat) : monad unit :=
  o ← result_at i;
  a ← throw_if_empty o k_result_status_error_msg;
  s ← consumer_calls call_status a;
  st ← last_status s;
  return_result i (m_state o) (rv_status st).

(** [wait()] and [get()]. *)
Definition wait (i : nat) : monad unit :=
  o ← result_at i;
  a ← throw_if_empty o k_result_wait_error_msg;
  s ← consumer_calls call_wait a;
  if is_blocked s then put_result i (make_result (m_state o) in_wait (last o))
  else return_result i (m_state o) rv_void.

(** The rest of [get()]: the state is released and destroyed. *)
Definition get_rest (i : nat) (a : addr) : monad unit :=
  v ← joined_get a;
  return_result i None (rv_got v).

Definition get (i : nat) : monad unit :=
  o ← result_at i;
  a ← throw_if_empty o k_result_get_error_msg;
  s ← consumer_calls call_wait a;
  if is_blocked s then put_result i (make_result (m_state o) in_get (last o))
  else get_rest i a.

(** [wait_for] and [wait_until]. *)
Definition wait_with (message : string) (c : consumer_call) (i : nat) : monad unit :=
  o ← result_at i;
  a ← throw_if_empty o message;
  s ← consumer_calls c a;
  if is_blocked s then put_result i (make_result (m_state o) in_wait_for (last o))
  else (st ← last_status s; return_result i (m_state o) (rv_status st)).

Definition wait_for (i : nat) : monad unit := wait_with k_result_wait_for_error_msg call_wait_for i.
Definition wait_until (i : nat) (timeout_time now : Z) : monad unit :=
  wait_with k_result_wait_until_error_msg (call_wait_until timeout_time now) i.

(** [await_resume] of the two awaitables; [resolve] returns a result, which is
    assigned to the one that was awaited. *)
Definition await_resume (i : nat) (k : await_kind) (a : addr) : monad unit :=
  match k with
  | by_co_await => get_rest i a
  | by_resolve => return_result i (Some a) rv_resolved
  end.

(** [co_await result] and [co_await result.resolve()] by coroutine [h]: the
    state moves into the awaitable. *)
Definition co_await (i : nat) (k : await_kind) (h : handle) : monad unit :=
  o ← result_at i;
  a ← throw_if_empty o match k with
                       | by_co_await => k_result_operator_co_await_error_msg
                       | by_resolve => k_result_resolve_error_msg
                       end;
  put_result i (make_result None (in_await k a) (last o));;
  s ← consumer_calls (call_await h) a;
  if is_blocked s then mret tt else await_resume i k a.

(** The state of a result, or of the awaitable made from it. *)
Definition state_of (o : result) : option addr :=
  match doing o with in_await _ a => Some a | _ => m_state o end.

(** The thread that was blocked in result [i] runs again, if it can. *)
Definition continue (i : nat) : monad unit :=
  o ← result_at i;
  match state_of o, doing o with
  | Some a, (in_wait | in_get | in_wait_for | in_await _ _) =>
      s ← get_state_at a;
      let s := run_consumer call_steps s in
      put_state_at a s;;
      if is_blocked s then mret tt
      else
        match doing o with
        | in_wait => return_result i (m_state o) rv_void
        | in_get => get_rest i a
        | in_await k a => await_resume i k a
        | _ => st ← last_status s; return_result i (m_state o) (rv_status st)
        end
  | _, _ => mret tt
  end.

(** The time of [wait_for] is over. *)
Definition time_out (i : nat) : monad unit :=
  o ← result_at i;
  match m_state o, doing o with
  | Some a, in_wait_for =>
      s ← get_state_at a;
      match ResultState.step L_timeout s with
      | Some s =>
          let s := run_consumer call_steps s in
          put_state_at a s;;
          st ← last_status s;
          return_result i (m_state o) (rv_status st)
      | None => mret tt
      end
  | _, _ => mret tt
  end.

(** [result& operator=(result&& rhs)], and the destructor. *)
Definition move_result (i j : nat) : monad unit :=
  if decide (i = j) then mret tt
  else
    o ← result_at i;
    rhs ← result_at j;
    put_result j (make_result None at_rest rv_none);;
    put_result i (make_result (m_state rhs) at_rest rv_none);;
    delete_with consumer_result_state_deleter (m_state o).

(** [result()] and [result(result&& rhs)]. *)
Definition default_result : monad nat := new_result None.

Definition move_construct_result (j : nat) : monad nat :=
  rhs ← result_at j;
  put_result j (make_result None at_rest rv_none);;
  new_result (m_state rhs).

Definition destroy_result (i : nat) : monad unit :=
  o ← result_at i;
  put_result i (make_result None at_rest rv_none);;
  delete_with consumer_result_state_deleter (m_state o).

(** ** result_promise *)
Definition new_promise : monad nat :=
  a ← new_state;
  w ← get_state;
  put_state (set_promises (promises w ++ [make_promise (Some a) (Some a)]) w);;
  mret (length (promises w)).

Definition throw_if_empty_promise (p : result_promise) (message : string) : monad addr :=
  match m_producer_state p with
  | Some a => mret a
  | None => throw (make_exn empty_result_promise message)
  end.

(** [m_producer_state->set_result(arguments...)]; [ctor] is what the constructor
    of the value does. *)
Definition state_set_result (a : addr) (ctor : payload T) : monad unit :=
  s ← get_state_at a;
  match set_result_step ctor s with
  | Some s' =>
      put_state_at a s';;
      match ctor with inl _ => mret tt | inr e => throw e end
  | None => abort
  end.

Definition state_set_exception (a : addr) (e : exn) : monad unit :=
  s ← get_state_at a;
  match set_exception_step e s with
  | Some s' => put_state_at a s'
  | None => abort
  end.

(** [m_producer_state.reset()]. *)
Definition reset_producer (j : nat) (p : result_promise) (a : addr) : monad unit :=
  put_promise j (make_promise None (m_consumer_state p));;
  producer_result_state_deleter a.

Definition set_result (j : nat) (ctor : payload T) : monad unit :=
  p ← promise_at j;
  a ← throw_if_empty_promise p k_result_promise_set_result_error_msg;
  state_set_result a ctor;;
  reset_producer j p a.

Definition set_exception (j : nat) (e : exception_ptr) : monad unit :=
  p ← promise_at j;
  a ← throw_if_empty_promise p k_result_promise_set_exception_error_msg;
  match e with
  | None => throw (make_exn invalid_argument k_result_promise_set_exception_null_exception_error_msg)
  | Some e => state_set_exception a e;; reset_producer j p a
  end.

(** [from_callable]: [called] is what the call, or the constructor of the
    value, returns or throws. *)
Definition from_callable (a : addr) (called : payload T) : monad unit :=
  try_catch
    (match called with inl t => state_set_result a (inl t) | inr e => throw e end)
    (fun e => state_set_exception a e).

Definition set_from_function (j : nat) (called : payload T) : monad unit :=
  noexcept (
    p ← promise_at j;
    a ← throw_if_empty_promise p k_result_promise_set_from_function_error_msg;
    from_callable a called;;
    reset_producer j p a).

Definition get_result (j : nat) : monad nat :=
  p ← promise_at j;
  throw_if_empty_promise p k_result_get_error_msg;;
  match m_consumer_state p with
  | None => throw (make_exn result_already_retrieved k_result_promise_get_result_already_retrieved_error_msg)
  | Some a =>
      put_promise j (make_promise (m_producer_state p) None);;
      new_result (Some a)
  end.

Definition broken_task_error : exn := make_exn broken_task k_broken_task_exception_error_msg.

Definition break_task_if_needed (j : nat) : monad unit :=
  p ← promise_at j;
  match m_producer_state p, m_consumer_state p with
  | None, _ => mret tt
  | Some _, Some _ => mret tt              (* no result to break *)
  | Some a, None => state_set_exception a broken_task_error;; reset_producer j p a
  end.

(** [~result_promise]: then the members, the last one first. *)
Definition destroy_promise (j : nat) : monad unit :=
  break_task_if_needed j;;
  p ← promise_at j;
  put_promise j (make_promise None None);;
  delete_with consumer_result_state_deleter (m_consumer_state p);;
  delete_with producer_result_state_deleter (m_producer_state p).

(** [operator=(result_promise&& rhs)]: the members, the first one first. *)
Definition move_promise (j k : nat) : monad unit :=
  if decide (j = k) then mret tt
  else
    break_task_if_needed j;;
    p ← promise_at j;
    rhs ← promise_at k;
    put_promise k (make_promise None None);;
    put_promise j rhs;;
    delete_with producer_result_state_deleter (m_producer_state p);;
    delete_with consumer_result_state_deleter (m_consumer_state p).

(** [result_promise(result_promise&& rhs)]. *)
Definition move_construct_promise (k : nat) : monad nat :=
  rhs ← promise_at k;
  put_promise k (make_promise None None);;
  w ← get_state;
  put_state (set_promises (promises w ++ [rhs]) w);;
  mret (length (promises w)).

(** ** make_result.h *)

(** When the constructor throws, [state_ptr] and then [promise] are destroyed. *)
Definition make_ready_result (ctor : payload T) : monad nat :=
  a ← new_state;
  try_catch (state_set_result a ctor)
    (fun e => consumer_result_state_deleter a;; producer_result_state_deleter a;; throw e);;
  producer_result_state_deleter a;;
  new_result (Some a).

Definition make_exceptional_result (e : exception_ptr) : monad nat :=
  match e with
  | None => throw (make_exn invalid_argument k_make_exceptional_result_exception_null_error_msg)
  | Some e =>
      a ← new_state;
      state_set_exception a e;;
      producer_result_state_deleter a;;
      new_result (Some a)
  end.

(** ** What a program does *)
Inductive operation :=
  | op_status (i : nat) | op_wait (i : nat) | op_get (i : nat)
  | op_wait_for (i : nat) | op_wait_until (i : nat) (timeout_time now : Z)
  | op_co_await (i : nat) (k : await_kind) (h : handle)
  | op_continue (i : nat) | op_time_out (i : nat)
  | op_default_result | op_move_construct_result (j : nat)
  | op_move_result (i j : nat) | op_destroy_result (i : nat)
  | op_new_promise
  | op_set_result (j : nat) (ctor : payload T)
  | op_set_exception (j : nat) (e : exception_ptr)
  | op_set_from_function (j : nat) (called : payload T)
  | op_get_result (j : nat)
  | op_move_construct_promise (k : nat)
  | op_destroy_promise (j : nat) | op_move_promise (j k : nat)
  | op_make_ready_result (ctor : payload T)
  | op_make_exceptional_result (e : exception_ptr).

Definition perform (o : operation) : monad unit :=
  match o with
  | op_status i => status i
  | op_wait i => wait i
  | op_get i => get i
  | op_wait_for i => wait_for i
  | op_wait_until i t now => wait_until i t now
  | op_co_await i k h => co_await i k h
  | op_continue i => continue i
  | op_time_out i => time_out i
  | op_default_result => default_result;; mret tt
  | op_move_construct_result j => move_construct_result j;; mret tt
  | op_move_result i j => move_result i j
  | op_destroy_result i => destroy_result i
  | op_new_promise => new_promise;; mret tt
  | op_set_result j c => set_result j c
  | op_set_exception j e => set_exception j e
  | op_set_from_function j c => set_from_function j c
  | op_get_result j => get_result j;; mret tt
  | op_move_construct_promise k => move_construct_promise k;; mret tt
  | op_destroy_promise j => destroy_promise j
  | op_move_promise j k => move_promise j k
  | op_make_ready_result c => make_ready_result c;; mret tt
  | op_make_exceptional_result e => make_exceptional_result e;; mret tt
  end.

(** The program uses objects that exist, from one thread or coroutine at a time,
    and gives [set_from_function] a promise that is not empty. *)
Definition result_usable (w : world) (i : nat) : bool :=
  match results w !! i with Some o => match doing o with at_rest => true | _ => false end | None => false end.
Definition promise_usable (w : world) (j : nat) : bool :=
  match promises w !! j with Some _ => true | None => false end.
Definition promise_not_empty (w : world) (j : nat) : bool :=
  match promises w !! j with Some (make_promise (Some _) _) => true | _ => false end.

Definition allowed (o : operation) (w : world) : bool :=
  match o with
  | op_status i | op_wait i | op_get i | op_wait_for i | op_wait_until i _ _
  | op_co_await i _ _ | op_move_construct_result i | op_destroy_result i => result_usable w i
  | op_move_result i j => result_usable w i && result_usable w j
  | op_continue i | op_time_out i => match results w !! i with Some _ => true | None => false end
  | op_set_result j _ | op_set_exception j _ | op_get_result j | op_move_construct_promise j
  | op_destroy_promise j => promise_usable w j
  | op_set_from_function j _ => promise_not_empty w j
  | op_move_promise j k => promise_usable w j && promise_usable w k
  | op_default_result | op_new_promise | op_make_ready_result _ | op_make_exceptional_result _ => true
  end.

Definition program_step (o : operation) (w : world) : option world :=
  if allowed o w then Some (perform o w).2 else None.

(** ** What the objects promise *)

(** Somebody has a pointer to the state [a]. *)
Definition owns (w : world) (a : addr) : Prop :=
  (exists i o, results w !! i = Some o /\ state_of o = Some a) \/
  (exists j p, promises w !! j = Some p /\ (m_consumer_state p = Some a \/ m_producer_state p = Some a)).

(** What the consumer gets from the promise [j] through an operation. *)
Definition delivers (o : operation) (j : nat) : option (payload T) :=
  match o with
  | op_set_result k (inl t) => if decide (k = j) then Some (inl t) else None
  | op_set_exception k (Some e) => if decide (k = j) then Some (inr e) else None
  | op_set_from_function k called => if decide (k = j) then Some called else None
  | op_destroy_promise k => if decide (k = j) then Some (inr broken_task_error) else None
  | _ => None
  end.

(** The consumer asks for its result, by [get] or by [co_await] in a coroutine
    [h], or goes on when it was blocked or suspended in one of them. *)
Definition receives (i : nat) (o : result) (q : operation) : Prop :=
  match doing o with
  | at_rest => q = op_get i \/ exists h, q = op_co_await i by_co_await h
  | in_get | in_await by_co_await _ => q = op_continue i
  | _ => False
  end.

(** The user of result [i] has received [r]. *)
Definition received (i : nat) (r : payload T) (m : monad unit) (w : world) : Prop :=
  exists w', m w = (Ok tt, w') /\ results w' !! i = Some (make_result None at_rest (rv_got (payload_outcome r))).

(** Wrong uses, and the exception that belongs to each: its class and the message
    that [constants.h] has for it. *)
Definition if_empty (w : world) (i : nat) (message : string) : option exn :=
  match results w !! i with
  | Some (make_result None _ _) => Some (make_exn empty_result message)
  | _ => None
  end.

Definition if_promise (w : world) (j : nat) (message : string) (f : result_promise -> option exn) : option exn :=
  match promises w !! j with
  | Some p => match m_producer_state p with
              | None => Some (make_exn empty_result_promise message)
              | Some _ => f p
              end
  | None => None
  end.

Definition misuse (o : operation) (w : world) : option exn :=
  match o with
  | op_status i => if_empty w i k_result_status_error_msg
  | op_wait i => if_empty w i k_result_wait_error_msg
  | op_get i => if_empty w i k_result_get_error_msg
  | op_wait_for i => if_empty w i k_result_wait_for_error_msg
  | op_wait_until i _ _ => if_empty w i k_result_wait_until_error_msg
  | op_co_await i by_co_await _ => if_empty w i k_result_operator_co_await_error_msg
  | op_co_await i by_resolve _ => if_empty w i k_result_resolve_error_msg
  | op_set_result j ctor =>
      if_promise w j k_result_promise_set_result_error_msg
        (fun _ => match ctor with inl _ => None | inr e => Some e end)
  | op_set_exception j e =>
      if_promise w j k_result_promise_set_exception_error_msg
        (fun _ => match e with
                  | Some _ => None
                  | None => Some (make_exn invalid_argument k_result_promise_set_exception_null_exception_error_msg)
                  end)
  | op_set_from_function j _ => if_promise w j k_result_promise_set_from_function_error_msg (fun _ => None)
  | op_get_result j =>
      if_promise w j k_result_promise_get_result_error_msg
        (fun p => match m_consumer_state p with
                  | Some _ => None
                  | None => Some (make_exn result_already_retrieved k_result_promise_get_result_already_retrieved_error_msg)
                  end)
  | op_make_exceptional_result None => Some (make_exn invalid_argument k_make_exceptional_result_exception_null_error_msg)
  | _ => None
  end.

(** What the code does, where it is not that: [get_result] of an empty promise
    throws with the message of [result::get], and [set_from_function] is
    [noexcept], so that what [throw_if_empty] throws in it ends the program. *)
Definition on_misuse (o : operation) (w : world) (e : exn) : outcome exn unit :=
  match o with
  | op_set_from_function _ _ => Abort
  | op_get_result j => if promise_not_empty w j then Throw e else Throw (make_exn (exn_cls e) k_result_get_error_msg)
  | _ => Throw e
  end.

(** The program uses objects that exist; here the promise that is given to
    [set_from_function] may be empty. *)
Definition used_objects_exist (o : operation) (w : world) : bool :=
  match o with op_set_from_function j _ => promise_usable w j | _ => allowed o w end.
End result.
Arguments world : clear implicits.
Arguments operation : clear implicits.
Arguments result : clear implicits.
