(* ===== verification/ResultProps.v ===== *)
(** * result and result_promise: who owns which state *)

From stdpp Require Import prelude list strings.
From Stdlib Require Import ZArith Lia.
From S2P Require Import Prelude Errors ProducerContext ConsumerContext ResultState ResultStateProps ResultStateFacts Result.

Import consumer_context (resume_caller).
Local Open Scope list_scope.

(** ** What the calls do to a live state *)
Section calls.
Context {T : Type}.
Notation rstate := (ResultState.state T).
Implicit Types s : rstate.

Definition live s : Prop := inv s /\ freed s = [] /\ (prod s = P_own \/ prod s = P_gone).

(** Between two calls; the state was never shared. *)
Definition resting s : Prop := exists r, cons s = C_own r /\ r <> r_unshared.

(** What only the producer changes. *)
Definition same_producer s s' : Prop := prod s' = prod s /\ m_producer s' = m_producer s.

Lemma run_consumer_keeps n s : inv s -> inv (run_consumer n s) /\ same_producer s (run_consumer n s).
Proof.
  revert s. induction n as [|n IH]; intros s Hi; simpl; [done|].
  destruct (consumer_step s) as [s'|] eqn:E; [|done].
  destruct (IH s' (inv_consumer _ _ Hi E)) as [H1 [H2 H3]]. destruct (consumer_keeps _ _ E) as [H4 H5].
  split; [done|]. split; congruence.
Qed.

Lemma call_keeps c s s' : inv s -> call_step c s = Some s' ->
  inv (run_consumer call_steps s') /\ same_producer s (run_consumer call_steps s').
Proof.
  intros Hi E. assert (Hi' := inv_call _ _ _ Hi E).
  destruct (run_consumer_keeps call_steps s' Hi') as [H1 [H2 H3]]. split; [done|].
  unfold call_step in E. split; [rewrite H2|rewrite H3]; by repeat case_match; simplify_eq/=.
Qed.

Lemma inv_not_bad s : inv s -> is_bad s = false.
Proof.
  intros Hi. unfold is_bad, inv, pending_inv, published_inv in *.
  destruct (prod s), (cons s); simpl in *; naive_solver.
Qed.

(** A live state at rest is pending or ready. *)
Definition pending s : Prop :=
  prod s = P_own /\ m_pc_state s = pc_idle /\ m_status (m_producer s) = idle /\ ctx_idle s.
Definition ready (p : payload T) s : Prop :=
  prod s = P_gone /\ m_pc_state s = producer_done /\ content (m_producer s) = Some p.

Lemma resting_cases s : live s -> resting s -> pending s \/ exists p, ready p s.
Proof.
  intros (Hi & Hf & Hp) (r & Hc & Hr). unfold pending, ready.
  unfold inv, pending_inv, published_inv, deletable, result_built, is_Some in Hi.
  rewrite Hc in Hi. destruct Hp as [Hp|Hp]; rewrite Hp in Hi; [left|right]; naive_solver.
Qed.

Lemma ready_not_idle p s : ready p s -> m_status (m_producer s) <> idle.
Proof. intros (_ & _ & Hc). rewrite (content_status _ _ Hc). by destruct p. Qed.

(** The calls, from a state at rest. *)
Definition calls_to (c : consumer_call) s (P : rstate -> Prop) : Prop :=
  exists s', call_step c s = Some s' /\ P (run_consumer call_steps s').

Ltac at_rest s Hs pc :=
  destruct Hs as (r & Hc & Hu); exists (set_cons pc s); split; [unfold call_step; rewrite Hc; by destruct r|];
  destruct s as [pcs [cst cstor] dh [pst ps] sems fr nt con pro]; unfold pending, ready, ctx_idle in *; simpl in *;
  destruct_and?; subst.

Lemma wait_pending s : pending s -> resting s -> calls_to call_wait s (fun s' => cons s' = C_wait_parked /\ freed s' = freed s).
Proof. intros Hp Hs. at_rest s Hs (C_wait_load (T:=T)). by vm_compute. Qed.

Lemma wait_ready p s : ready p s -> resting s -> calls_to call_wait s (fun s' => cons s' = C_own r_wait /\ freed s' = freed s).
Proof. intros Hp Hs. at_rest s Hs (C_wait_load (T:=T)). by vm_compute. Qed.

Lemma status_pending s : pending s -> resting s ->
  calls_to call_status s (fun s' => cons s' = C_own (r_status idle) /\ freed s' = freed s).
Proof. intros Hp Hs. at_rest s Hs (C_status_load (T:=T)). by vm_compute. Qed.

Lemma status_ready p s : ready p s -> resting s ->
  calls_to call_status s (fun s' => cons s' = C_own (r_status (status_of_payload p)) /\ freed s' = freed s).
Proof.
  intros Hp Hs. assert (Hst := content_status _ _ (proj2 (proj2 Hp))). at_rest s Hs (C_status_load (T:=T)).
  split; [|by vm_compute]. cbn. unfold ProducerContext.status. cbn. by destruct p.
Qed.

Lemma wait_for_pending s : pending s -> resting s ->
  calls_to call_wait_for s (fun s' => cons s' = C_wf_acquire (length (semaphores s)) /\ freed s' = freed s).
Proof. intros Hp Hs. at_rest s Hs (C_wf_load (T:=T)). cbv -[list_lookup app length].
  change (list_lookup (length sems) (sems ++ [0])) with ((sems ++ [0]) !! length sems).
  by rewrite (list_lookup_middle _ [] 0 (length sems) eq_refl). Qed.

Lemma wait_for_ready p s : ready p s -> resting s ->
  calls_to call_wait_for s (fun s' => cons s' = C_own (r_status (status_of_payload p)) /\ freed s' = freed s).
Proof.
  intros Hp Hs. assert (Hst := content_status _ _ (proj2 (proj2 Hp))). at_rest s Hs (C_wf_load (T:=T)).
  split; [|by vm_compute]. cbn. unfold ProducerContext.status. cbn. by destruct p.
Qed.

Lemma await_pending h s : pending s -> resting s ->
  calls_to (call_await h) s (fun s' => cons s' = C_suspended h /\ freed s' = freed s).
Proof. intros Hp Hs. at_rest s Hs (C_await_load (T:=T) h). by vm_compute. Qed.

Lemma await_ready h p s : ready p s -> resting s ->
  calls_to (call_await h) s (fun s' => cons s' = C_own (r_await false) /\ freed s' = freed s).
Proof. intros Hp Hs. at_rest s Hs (C_await_load (T:=T) h). by vm_compute. Qed.

Lemma complete_pending s : pending s -> resting s ->
  calls_to call_complete s (fun s' => cons s' = C_gone None /\ freed s' = freed s).
Proof. intros Hp Hs. at_rest s Hs (C_cc_load (T:=T)). by vm_compute. Qed.

Lemma live_deletable s : live s -> prod s = P_gone -> deletable s.
Proof. intros (Hi & _) Hp. unfold inv in Hi. rewrite Hp in Hi. apply Hi. Qed.

Lemma complete_ready p s : live s -> ready p s -> resting s ->
  calls_to call_complete s (fun s' => cons s' = C_gone None /\ length (freed s') = S (length (freed s)) /\ prod s' = P_gone).
Proof.
  intros Hl (Hp & Hd & _) (r & Hc & Hu). assert (Hdel := live_deletable s Hl Hp). exists (set_cons C_cc_load s).
  split; [unfold call_step; rewrite Hc; by destruct r|].
  assert (E0 : consumer_step (set_cons C_cc_load s) = Some (set_cons C_cc_delete s)).
  { unfold consumer_step, complete_consumer_step. simpl. by rewrite decide_True. }
  assert (E1 : consumer_step (set_cons C_cc_delete s) =
      Some (set_cons (C_gone None) (set_freed (freed s ++ [m_done_handle s]) (set_cons C_cc_delete s)))).
  { unfold consumer_step, complete_consumer_step. simpl. by rewrite delete_self_ok. }
  unfold call_steps. cbn [run_consumer]. rewrite E0, E1. simpl. rewrite length_app. simpl. split; [done|]. split; [lia|done].
Qed.

(** The last call of the consumer has seen the result. *)
Definition saw_result s : Prop := cons s = C_own r_wait \/ exists b, cons s = C_own (r_await b).

Lemma joined_get_ready p s : live s -> ready p s -> saw_result s ->
  calls_to call_get s (fun s' => cons s' = C_gone (Some (payload_outcome p)) /\
    length (freed s') = S (length (freed s)) /\ prod s' = P_gone).
Proof.
  intros Hl (Hp & Hd & Hc) Hs. assert (Hg := get_ref_content _ _ Hc). assert (Hdel := live_deletable s Hl Hp).
  assert (E : exists r, cons s = C_own r /\ start_call call_get r = Some (C_assert_done (T:=T) then_get)).
  { destruct Hs as [->|[b ->]]; eauto. }
  destruct E as (r & Er & Es). exists (set_cons (C_assert_done then_get) s). split.
  { unfold call_step. by rewrite Er, Es. }
  clear Er Es. assert (Hn : length (freed s ++ [m_done_handle s]) = S (length (freed s))) by (rewrite length_app; simpl; lia).
  set (s0 := set_cons (C_assert_done then_get) s). set (o := payload_outcome p).
  assert (E0 : consumer_step s0 = Some (set_cons C_get s)).
  { unfold s0, consumer_step, assert_done_step. simpl. by rewrite decide_True. }
  assert (E1 : consumer_step (set_cons C_get s) = Some (set_cons (C_assert_done (then_delete o)) s)).
  { unfold consumer_step, ResultState.get_step. simpl. unfold ProducerContext.get. rewrite Hg. by destruct s, p. }
  assert (E2 : consumer_step (set_cons (C_assert_done (then_delete o)) s) = Some (set_cons (C_delete o) s)).
  { unfold consumer_step, assert_done_step. simpl. by rewrite decide_True. }
  assert (E3 : consumer_step (set_cons (C_delete o) s) = Some (set_cons (C_gone (Some o)) (set_freed (freed s ++ [m_done_handle s]) (set_cons (C_delete o) s)))).
  { unfold consumer_step. simpl. by rewrite delete_self_ok. }
  unfold call_steps. cbn [run_consumer]. rewrite E0, E1, E2, E3. cbn. by rewrite Hn.
Qed.

(** ** Calls that are blocked *)

(** How the owner of a consumer pointer uses it. *)
Inductive view := v_rest | v_blocked | v_timed | v_suspended.

Definition view_ok (v : view) s : Prop :=
  match v with
  | v_rest => resting s
  | v_blocked => cons s = C_wait_parked \/ cons s = C_wait_block \/ cons s = C_own r_wait
  | v_timed => (exists i, cons s = C_wf_acquire i) \/ exists st, cons s = C_own (r_status st) /\ st <> idle
  | v_suspended => exists h b, cons s = C_suspended h \/ cons s = C_own (r_await b)
  end.

Lemma view_ok_ext v s s' : cons s' = cons s -> view_ok v s -> view_ok v s'.
Proof. intros E. destruct v; simpl; unfold resting; by setoid_rewrite E. Qed.

Lemma still_blocked v s : inv s -> prod s = P_own -> view_ok v s -> v <> v_rest ->
  view_ok v (run_consumer call_steps s) /\ is_blocked (run_consumer call_steps s) = true /\
  freed (run_consumer call_steps s) = freed s.
Proof.
  intros Hi Hp Hv Hne. unfold inv, pending_inv in Hi. rewrite Hp in Hi.
  destruct s as [pcs con dh pr sems fr nt cs pro]. simpl in *. subst pro. destruct v; simpl in *; [done|..].
  - destruct Hv as [-> | [-> | ->]]; simpl in Hi; [..|naive_solver]; destruct_and?; subst; vm_compute; auto.
  - destruct Hv as [[i ->]|(st & -> & Hst)]; [|by destruct st; naive_solver].
    simpl in Hi. destruct Hi as (_&_&_&->&->&Hl).
    unfold call_steps, run_consumer, consumer_step. simpl. rewrite Hl. vm_compute. eauto.
  - destruct Hv as (h & b & [-> | ->]); simpl in Hi; [|naive_solver].
    destruct_and?; subst. vm_compute. split; [|done]. exists h, b. auto.
Qed.

Definition wakes_with (v : view) (r : cret) (p : payload T) : Prop :=
  match v with
  | v_rest => True
  | v_blocked => r = r_wait
  | v_timed => exists st, r = r_status st /\ st <> idle
  | v_suspended => exists b, r = r_await b
  end.

Lemma wakes_up v s : live s -> prod s = P_gone -> view_ok v s -> v <> v_rest ->
  exists p r, ready p (run_consumer call_steps s) /\ cons (run_consumer call_steps s) = C_own r /\
    wakes_with v r p /\ freed (run_consumer call_steps s) = freed s.
Proof.
  intros (Hi & Hf & _) Hp Hv Hne. unfold inv, published_inv, result_built, is_Some, ready in *. rewrite Hp in Hi.
  destruct Hi as [[[p Hr] _] (H1 & H2 & H3)]. exists p. assert (Hst := content_status _ _ Hr).
  destruct s as [pcs con dh [pst ps] sems fr nt cs pro]. simpl in *. subst pro. destruct v; simpl in *; [done|..].
  - destruct Hv as [-> | [-> | ->]]; [done|..]; exists r_wait; destruct_and?; subst; vm_compute; auto.
  - destruct Hv as [[i ->]|(st & -> & Hne')]; [|exists (r_status st); destruct_and?; subst; vm_compute; eauto 8].
    destruct H2 as [[? _]|[?|(_ & n & Hl)]]; try done. destruct H1 as [-> ->].
    exists (r_status (status_of_payload p)). unfold call_steps, run_consumer, consumer_step. simpl. rewrite Hl.
    subst ps. cbn. split; [done|]. split; [by destruct p|]. split; [|done]. eexists. split; [done|]. by destruct p.
  - destruct Hv as (h & b & [-> | ->]); [naive_solver|]. exists (r_await b). destruct_and?; subst. vm_compute. eauto 8.
Qed.

(** [try_acquire_for] gives up. *)
Lemma gives_up s : live s -> view_ok v_timed s ->
  (exists st, cons s = C_own (r_status st) /\ st <> idle) \/
  exists s', ResultState.step L_timeout s = Some s' /\ inv (run_consumer call_steps s') /\
    same_producer s (run_consumer call_steps s') /\ freed (run_consumer call_steps s') = freed s /\
    exists st, cons (run_consumer call_steps s') = C_own (r_status st).
Proof.
  intros (Hi & Hf & Hp) [[i Hc]|Hc]; [right|by left]. exists (set_cons (C_wf_rewind i) s).
  assert (Hs : ResultState.step L_timeout s = Some (set_cons (C_wf_rewind i) s)) by (simpl; by rewrite Hc).
  split; [done|]. assert (Hi' := ResultStateProps.inv_step _ _ _ Hi Hs).
  destruct (run_consumer_keeps call_steps _ Hi') as [H1 [H2 H3]]. split; [done|]. split; [done|]. clear H1 H2 H3 Hi' Hs.
  unfold inv, pending_inv, published_inv in Hi. rewrite Hc in Hi.
  destruct s as [pcs con dh [pst ps] sems fr nt cs pro]. simpl in *. subst cs fr.
  destruct Hp as [-> | ->]; simpl in Hi.
  - destruct Hi as (_&_&_&->&->&_). vm_compute. eauto.
  - destruct Hi as (_&[-> _]&_). vm_compute. eauto.
Qed.
End calls.

(** ** What the producer does *)
Section producing.
Context {T : Type}.
Notation rstate := (ResultState.state T).
Implicit Types s : rstate.

Lemma producing_idle s : inv s -> prod s = P_own -> m_status (m_producer s) = idle.
Proof. intros Hi Hp. unfold inv in Hi. rewrite Hp in Hi. by destruct Hi. Qed.

Lemma set_result_stores s t : inv s -> prod s = P_own ->
  exists s', set_result_step (inl t) s = Some s' /\ inv s' /\ prod s' = P_built /\ freed s' = freed s /\
    cons s' = cons s /\ content (m_producer s') = Some (inl t).
Proof.
  intros Hi Hp. assert (Hs := producing_idle s Hi Hp).
  exists (set_prod P_built (set_producer (make_producer_context (object t) value) s)).
  assert (E : set_result_step (inl t) s = Some (set_prod P_built (set_producer (make_producer_context (object t) value) s))).
  { unfold set_result_step. simpl. by rewrite Hp, build_result_Ok. }
  split; [done|]. split; [by eapply inv_set_result|done].
Qed.

Lemma set_result_throws s e : inv s -> prod s = P_own -> set_result_step (inr e) s = Some s.
Proof.
  intros Hi Hp. assert (Hs := producing_idle s Hi Hp). unfold set_result_step. rewrite Hp.
  destruct s as [pcs con dh [pst ps] sems fr nt cs pro]. simpl in *. subst. done.
Qed.

Lemma set_exception_stores s e : inv s -> prod s = P_own ->
  exists s', set_exception_step e s = Some s' /\ inv s' /\ prod s' = P_built /\ freed s' = freed s /\
    cons s' = cons s /\ content (m_producer s') = Some (inr e).
Proof.
  intros Hi Hp. assert (Hs := producing_idle s Hi Hp).
  exists (set_prod P_built (set_producer (make_producer_context (stored_exception (Some e)) exception) s)).
  assert (E : set_exception_step e s = Some (set_prod P_built (set_producer (make_producer_context (stored_exception (Some e)) exception) s))).
  { unfold set_exception_step. by rewrite Hp, build_exception_Ok. }
  split; [done|]. split; [by eapply inv_set_exception|done].
Qed.

Lemma producer_view v s s' : inv s -> producer_step s = Some s' -> view_ok v s -> view_ok v s'.
Proof.
  intros Hi Hs Hv. unfold producer_step in Hs. destruct (prod s) eqn:Ep; simplify_eq.
  - unfold complete_producer_exchange. by destruct (m_pc_state s), v.
  - by case_match; destruct v.
  - assert (Hc : forall h, a = resume_caller h -> cons s = C_suspended h).
    { intros h ->. unfold inv, published_inv in Hi. rewrite Ep in Hi. simpl in Hi. tauto. }
    unfold act_step. destruct a; try by destruct v.
    + rewrite (Hc h eq_refl), decide_True by done. specialize (Hc h eq_refl).
      destruct v; simpl in *.
      * destruct Hv as (r & E & _). by rewrite Hc in E.
      * destruct Hv as [E|[E|E]]; by rewrite Hc in E.
      * destruct Hv as [[i E]|(st & E & _)]; by rewrite Hc in E.
      * exists h, true. by right.
    + destruct (cons s) eqn:E; try by destruct v. destruct r; try by destruct v.
  - destruct (cons s) eqn:E; try by destruct v. destruct v; simpl in *; auto.
    + destruct Hv as (r & E' & _). by rewrite E in E'.
    + destruct Hv as [[i E']|(st & E' & _)]; by rewrite E in E'.
    + destruct Hv as (h & b & [E'|E']); by rewrite E in E'.
  - rewrite delete_self_ok; [by destruct v|]. unfold inv in Hi. rewrite Ep in Hi. apply Hi.
Qed.

Lemma run_producer_spec n s :
  inv s -> producer_rank (prod s) <= n -> (prod s <> P_own /\ prod s <> P_built) ->
  inv (run_producer n s) /\ prod (run_producer n s) = P_gone /\
  m_producer (run_producer n s) = m_producer s /\
  (forall v, view_ok v s -> view_ok v (run_producer n s)) /\
  (cons s = C_gone None -> cons (run_producer n s) = C_gone None).
Proof.
  revert s. induction n as [|n IH]; intros s Hi Hr [H1 H2].
  - simpl. assert (prod s = P_gone) as -> by (unfold inv in Hi; destruct (prod s); simpl in *; try done; lia). done.
  - simpl. destruct (producer_step s) as [s'|] eqn:E.
    + assert (Hi' := inv_producer _ _ Hi E).
      assert (Hr' : producer_rank (prod s') < producer_rank (prod s) /\ prod s' <> P_own /\ prod s' <> P_built /\
                (cons s = C_gone None -> cons s' = C_gone None)).
      { unfold producer_step in E. destruct (prod s) as [| | | |a| | | |] eqn:Ep; simplify_eq; simpl.
        - unfold complete_producer_exchange in *. destruct (m_pc_state s); simpl in *; split_ands; try done; lia.
        - repeat case_match; simpl in *; split_ands; try done; lia.
        - unfold act_step in *. destruct a; simpl in *; split_ands; try done; try lia;
            repeat case_match; simpl; try done; try lia; congruence.
        - destruct (cons s) eqn:Ec; simpl in *; split_ands; try done; try lia; congruence.
        - rewrite delete_self_ok by (unfold inv in Hi; rewrite Ep in Hi; apply Hi). simpl. split_ands; [lia|done..]. }
      destruct Hr' as (Hr' & H1' & H2' & Hg). destruct (IH s' Hi' ltac:(lia) (conj H1' H2')) as (A & B & C & D & F).
      split; [done|]. split; [done|]. split; [by rewrite C, (producer_keeps _ _ E)|].
      split; [intros v Hv; exact (D v (producer_view v s s' Hi E Hv))|auto].
    + assert (prod s = P_gone) as ->; [|done].
      unfold producer_step in E. unfold inv in Hi. by destruct (prod s).
Qed.

(** Publishing a result that was built. *)
Definition publish s : rstate := run_producer call_steps (set_prod P_exchange (set_done_handle None s)).

Lemma publish_spec s :
  inv s -> prod s = P_built ->
  inv (publish s) /\ prod (publish s) = P_gone /\ m_producer (publish s) = m_producer s /\
  (forall v, view_ok v s -> view_ok v (publish s) /\ freed (publish s) = []) /\
  (cons s = C_gone None -> length (freed (publish s)) = 1).
Proof.
  intros Hi Hp. assert (Hi' : inv (set_prod P_exchange (set_done_handle None s))).
  { apply (ResultStateProps.inv_step (L_complete None) s); [done|]. simpl. by rewrite Hp. }
  destruct (run_producer_spec call_steps _ Hi') as (A & B & C & D & F); [simpl; unfold call_steps; lia|done|].
  change (run_producer _ _) with (publish s) in *.
  split; [done|]. split; [done|]. split; [done|]. split.
  - intros v Hv. assert (Hv' : view_ok v (publish s)) by (apply D; by destruct v). split; [done|].
    unfold inv, published_inv in A. rewrite B in A. destruct A as (_ & Hfr & _).
    destruct v; simpl in Hv'; [destruct Hv' as (r & Hc & _)|destruct Hv' as [Hc|[Hc|Hc]]|destruct Hv' as [[i Hc]|(st & Hc & _)]|destruct Hv' as (h & b & [Hc|Hc])];
      rewrite Hc in Hfr; by destruct Hfr.
  - intros Hc. assert (Hg := F Hc). unfold inv, published_inv in A. rewrite B, Hg in A. naive_solver.
Qed.

(** A promise that is destroyed with its result: nobody waits. *)
Lemma abandon_consumer_first s s1 :
  pending s -> resting s -> freed s = [] -> call_step call_complete s = Some s1 ->
  length (freed (publish (run_consumer call_steps s1))) = 1 /\ is_bad (publish (run_consumer call_steps s1)) = false.
Proof.
  intros Hp (r & Hc & Hu) Hf Hs. assert (s1 = set_cons C_cc_load s) as ->.
  { unfold call_step in Hs. rewrite Hc in Hs. by destruct r; simplify_eq/=. }
  destruct s as [pcs [cst cstor] dh [pst ps] sems fr nt con pro]; unfold pending, ctx_idle in *; simpl in *;
  destruct_and?; subst. by vm_compute.
Qed.

Lemma abandon_producer_first s :
  pending s -> resting s -> freed s = [] ->
  freed (publish s) = [] /\ is_bad (publish s) = false /\
  exists s1, call_step call_complete (publish s) = Some s1 /\
    length (freed (run_consumer call_steps s1)) = 1 /\ is_bad (run_consumer call_steps s1) = false.
Proof.
  intros Hp (r & Hc & Hu) Hf.
  destruct s as [pcs [cst cstor] dh [pst ps] sems fr nt con pro]; unfold pending, ctx_idle in *; simpl in *;
  destruct_and?; subst. split; [by vm_compute|]. split; [by vm_compute|].
  match goal with |- context [publish ?s] => exists (set_cons C_cc_load (publish s));
    assert (H : cons (publish s) = C_own r) by (by vm_compute) end.
  split; [unfold call_step; rewrite H; by destruct r|by vm_compute].
Qed.
End producing.
