(* ===== verification/ResultOwnership.v ===== *)
(** * result and result_promise: the ownership of the states

    The pointers of the objects, and how an operation may change them. *)

From stdpp Require Import prelude list strings.
From Stdlib Require Import ZArith Lia.
From S2P Require Import Prelude Errors ProducerContext ConsumerContext ResultState ResultStateProps ResultStateFacts Result ResultProps.

Local Open Scope list_scope.

(** ** Who owns a state *)
Inductive place := of_result (i : nat) | of_promise (j : nat).

#[export] Instance place_eq_dec : EqDecision place.
Proof. solve_decision. Defined.

Section ownership.
Context {T : Type}.
Notation rstate := (ResultState.state T).
Implicit Types w : world T.
Implicit Types o : result T.
Implicit Types s : rstate.

Definition owned o : option (addr * view) :=
  match doing o with
  | at_rest => (fun a => (a, v_rest)) <$> m_state o
  | in_wait | in_get => (fun a => (a, v_blocked)) <$> m_state o
  | in_wait_for => (fun a => (a, v_timed)) <$> m_state o
  | in_await _ a => Some (a, v_suspended)
  end.

Definition consumer_of (R : list (result T)) (P : list result_promise) (x : place) : option (addr * view) :=
  match x with
  | of_result i => R !! i ≫= owned
  | of_promise j => (fun a => (a, v_rest)) <$> (P !! j ≫= m_consumer_state)
  end.
Definition producer_of (P : list result_promise) (j : nat) : option addr := P !! j ≫= m_producer_state.

(** Every pointer owns a live state, and nobody else has a pointer of the same
    kind to it; the two pointers of a promise agree; a state that nobody owns was
    deleted, once. *)
Record ginv (S : list rstate) (c : place -> option (addr * view)) (p : nat -> option addr) : Prop := {
  g_consumers : forall x y a v v', c x = Some (a, v) -> c y = Some (a, v') -> x = y;
  g_producers : forall i j a, p i = Some a -> p j = Some a -> i = j;
  g_paired : forall j a v b, c (of_promise j) = Some (a, v) -> p j = Some b -> a = b;
  g_views : forall x a v, c x = Some (a, v) -> exists s, S !! a = Some s /\ live s /\ view_ok v s;
  g_owned : forall j a, p j = Some a -> exists s, S !! a = Some s /\ live s /\ prod s = P_own;
  g_states : forall a s, S !! a = Some s -> length (freed s) = 1 \/
    (live s /\ (prod s = P_own -> exists j, p j = Some a) /\ (cons s = C_gone None \/ exists x v, c x = Some (a, v)))
}.

Definition winv w : Prop := ginv (states w) (consumer_of (results w) (promises w)) (producer_of (promises w)).

(** One state changes, and the pointers to it. *)
Lemma ginv_update S S' c p c' p' (a : addr) s' :
  ginv S c p -> S' !! a = Some s' -> (forall b, b <> a -> S' !! b = S !! b) ->
  (forall x b v, b <> a -> c' x = Some (b, v) <-> c x = Some (b, v)) ->
  (forall j b, b <> a -> p' j = Some b <-> p j = Some b) ->
  (forall x y v v', c' x = Some (a, v) -> c' y = Some (a, v') -> x = y) ->
  (forall i j, p' i = Some a -> p' j = Some a -> i = j) ->
  (forall j b v b', c' (of_promise j) = Some (b, v) -> p' j = Some b' -> b = b') ->
  (forall x v, c' x = Some (a, v) -> live s' /\ view_ok v s') ->
  (forall j, p' j = Some a -> live s' /\ prod s' = P_own) ->
  (length (freed s') = 1 \/
   (live s' /\ (prod s' = P_own -> exists j, p' j = Some a) /\ (cons s' = C_gone None \/ exists x v, c' x = Some (a, v)))) ->
  ginv S' c' p'.
Proof.
  intros [] Ha Hb Hc Hp Huc Hup Hpa Hv Ho Hs. constructor.
  - intros x y b v v' Hx Hy. destruct (decide (b = a)) as [->|Hne]; [by eapply Huc|].
    apply Hc in Hx, Hy; eauto.
  - intros i j b Hi Hj. destruct (decide (b = a)) as [->|Hne]; [by eapply Hup|]. apply Hp in Hi, Hj; eauto.
  - done.
  - intros x b v Hx. destruct (decide (b = a)) as [->|Hne].
    + exists s'. split; [done|]. by eapply Hv.
    + apply Hc in Hx; [|done]. rewrite Hb by done. eauto.
  - intros j b Hj. destruct (decide (b = a)) as [->|Hne].
    + exists s'. split; [done|]. by eapply Ho.
    + apply Hp in Hj; [|done]. rewrite Hb by done. eauto.
  - intros b s Hs'. destruct (decide (b = a)) as [->|Hne]; [by simplify_eq|].
    rewrite Hb in Hs' by done. destruct (g_states0 _ _ Hs') as [|(H1 & H2 & H3)]; [by left|].
    right. split; [done|]. split.
    + intros E. destruct (H2 E) as [j Hj]. exists j. by apply Hp.
    + destruct H3 as [|(x & v & Hx)]; [by left|]. right. exists x, v. by apply Hc.
Qed.

Lemma insert_same {A} (l : list A) (i : nat) x y : l !! i = Some y -> <[i := x]> l !! i = Some x.
Proof. intros Hi. apply list_lookup_insert_eq. by eapply lookup_lt_Some. Qed.

Lemma insert_other {A} (l : list A) (i : nat) x k : k <> i -> <[i := x]> l !! k = l !! k.
Proof. intros Hk. by apply list_lookup_insert_ne. Qed.

(** The pointers, when one object changes. *)
Lemma consumer_of_result R P i o x :
  i < length R ->
  consumer_of (<[i := o]> R) P x = if decide (x = of_result i) then owned o else consumer_of R P x.
Proof.
  intros Hi. case_decide as E; [subst; simpl; by rewrite list_lookup_insert_eq|].
  destruct x as [k|k]; simpl; [|done]. rewrite list_lookup_insert_ne; [done|]. congruence.
Qed.

Lemma consumer_of_promise R P j p x :
  j < length P ->
  consumer_of R (<[j := p]> P) x =
  if decide (x = of_promise j) then (fun a => (a, v_rest)) <$> m_consumer_state p else consumer_of R P x.
Proof.
  intros Hj. case_decide as E; [subst; simpl; by rewrite list_lookup_insert_eq|].
  destruct x as [k|k]; simpl; [done|]. rewrite list_lookup_insert_ne; [done|]. congruence.
Qed.

Lemma producer_of_promise P j p k :
  j < length P -> producer_of (<[j := p]> P) k = if decide (k = j) then m_producer_state p else producer_of P k.
Proof.
  intros Hj. unfold producer_of. case_decide as E; [subst; by rewrite list_lookup_insert_eq|].
  by rewrite list_lookup_insert_ne.
Qed.

(** *** The consumer keeps its pointer, or lets it go *)
Lemma winv_use S R P i o o' (a : addr) v v' s s' :
  winv (make_world S R P) -> R !! i = Some o -> owned o = Some (a, v) -> S !! a = Some s ->
  owned o' = Some (a, v') -> live s' -> prod s' = prod s -> view_ok v' s' ->
  winv (make_world (<[a := s']> S) (<[i := o']> R) P).
Proof.
  intros Hw Hi Ho Ha Ho' Hl Hp Hv. assert (Hlt : i < length R) by (by eapply lookup_lt_Some).
  assert (Hcx : consumer_of R P (of_result i) = Some (a, v)) by (simpl; by rewrite Hi).
  assert (Huniq : forall y u, consumer_of (<[i := o']> R) P y = Some (a, u) -> y = of_result i).
  { intros y u. rewrite consumer_of_result by done. case_decide; [done|]. intros Hy. by eapply (g_consumers _ _ _ Hw). }
  destruct (g_views _ _ _ Hw _ _ _ Hcx) as (s0 & Hs0 & Hl0 & Hv0). assert (s0 = s) as -> by (simpl in *; congruence).
  unfold winv. simpl. eapply (ginv_update _ _ _ _ _ _ a s'); [exact Hw|by eapply insert_same|by apply insert_other|..]; cbn [states results promises].
  - intros x b u Hb. rewrite consumer_of_result by done. case_decide as E; [|done]. subst. simpl in *.
    rewrite Ho', Hi. simpl. rewrite Ho. split; intros [= <- <-]; done.
  - done.
  - intros x y u u' Hx Hy. by rewrite (Huniq x u Hx), (Huniq y u' Hy).
  - intros i' j'. apply (g_producers _ _ _ Hw).
  - intros j b u b'. apply (g_paired _ _ _ Hw).
  - intros x u Hx. rewrite (Huniq x u Hx), consumer_of_result, decide_True in Hx by done.
    rewrite Ho' in Hx. by injection Hx as <-.
  - intros j Hj. split; [done|]. rewrite Hp. destruct (g_owned _ _ _ Hw _ _ Hj) as (s1 & H1 & _ & H2).
    by assert (s1 = s) as -> by (simpl in *; congruence).
  - right. split; [done|]. split.
    + intros E. rewrite Hp in E. destruct (g_states _ _ _ Hw _ _ Ha) as [H|(_ & H & _)]; [|by apply H].
      destruct Hl0 as (_ & Hf & _). by rewrite Hf in H.
    + right. exists (of_result i), v'. rewrite consumer_of_result, decide_True; done.
Qed.

Definition left_state s s' : Prop :=
  (length (freed s') = 1 /\ prod s = P_gone) \/ (live s' /\ prod s' = prod s /\ cons s' = C_gone None).

Lemma winv_leave S R P R' P' x (a : addr) v s s' :
  winv (make_world S R P) -> consumer_of R P x = Some (a, v) -> S !! a = Some s -> left_state s s' ->
  (forall y, consumer_of R' P' y = if decide (y = x) then None else consumer_of R P y) ->
  (forall j, producer_of P' j = producer_of P j) ->
  winv (make_world (<[a := s']> S) R' P').
Proof.
  intros Hw Hx Ha Hs Hc Hp. destruct (g_views _ _ _ Hw _ _ _ Hx) as (s0 & Hs0 & Hl0 & Hv0).
  assert (s0 = s) as -> by (simpl in *; congruence).
  assert (Hno : forall y u, consumer_of R' P' y = Some (a, u) -> False).
  { intros y u. rewrite Hc. case_decide as E; [done|]. intros Hy. by apply E, (g_consumers _ _ _ Hw _ _ _ _ _ Hy Hx). }
  unfold winv. simpl. eapply (ginv_update _ _ _ _ _ _ a s'); [exact Hw|by eapply insert_same|by apply insert_other|..]; cbn [states results promises].
  - intros y b u Hb. rewrite Hc. case_decide as E; [subst; rewrite Hx; split; [done|congruence]|done].
  - intros j b _. by rewrite Hp.
  - intros y z u u' Hy. by apply Hno in Hy.
  - intros i j. rewrite !Hp. apply (g_producers _ _ _ Hw).
  - intros j b u b'. rewrite Hc, Hp. case_decide; [done|]. apply (g_paired _ _ _ Hw).
  - intros y u Hy. by apply Hno in Hy.
  - intros j. rewrite Hp. intros Hj. destruct (g_owned _ _ _ Hw _ _ Hj) as (s1 & H1 & _ & H2).
    assert (s1 = s) as -> by (simpl in *; congruence). destruct Hs as [[_ E]|(H & E & _)]; [by rewrite E in H2|]. by rewrite E.
  - destruct Hs as [[E _]|(H & E & Hg)]; [by left|]. right. split; [done|]. split; [|by left].
    intros E'. rewrite E in E'. destruct (g_states _ _ _ Hw _ _ Ha) as [F|(_ & F & _)].
    + destruct Hl0 as (_ & Hf & _). by rewrite Hf in F.
    + destruct (F E') as [j Hj]. exists j. by rewrite Hp.
Qed.

(** *** The producer is done *)
Lemma winv_publish S R P P' j (a : addr) s s' :
  winv (make_world S R P) -> producer_of P j = Some a -> S !! a = Some s ->
  prod s' = P_gone ->
  (forall v, view_ok v s -> live s' /\ view_ok v s') ->
  (cons s = C_gone None -> length (freed s') = 1) ->
  (forall y, consumer_of R P' y = consumer_of R P y) ->
  (forall k, producer_of P' k = if decide (k = j) then None else producer_of P k) ->
  winv (make_world (<[a := s']> S) R P').
Proof.
  intros Hw Hj Ha Hg Hv Hd Hc Hp. destruct (g_owned _ _ _ Hw _ _ Hj) as (s0 & Hs0 & Hl0 & Ho).
  assert (s0 = s) as -> by (simpl in *; congruence).
  assert (Hviews : forall y u, consumer_of R P y = Some (a, u) -> live s' /\ view_ok u s').
  { intros y u Hy. destruct (g_views _ _ _ Hw _ _ _ Hy) as (s1 & H1 & _ & H2).
    assert (s1 = s) as -> by (simpl in *; congruence). by apply Hv. }
  assert (Hno : forall k, producer_of P' k = Some a -> False).
  { intros k. rewrite Hp. case_decide as E; [done|]. intros Hk. by apply E, (g_producers _ _ _ Hw _ _ _ Hk Hj). }
  unfold winv. simpl. eapply (ginv_update _ _ _ _ _ _ a s'); [exact Hw|by eapply insert_same|by apply insert_other|..]; cbn [states results promises].
  - intros y b u _. by rewrite Hc.
  - intros k b Hb. rewrite Hp. case_decide as E; [subst; rewrite Hj; split; [done|congruence]|done].
  - intros y z u u'. rewrite !Hc. apply (g_consumers _ _ _ Hw).
  - intros k l Hk. by apply Hno in Hk.
  - intros k b u b'. rewrite Hc, Hp. case_decide; [done|]. apply (g_paired _ _ _ Hw).
  - intros y u. rewrite Hc. apply Hviews.
  - intros k Hk. by apply Hno in Hk.
  - destruct (g_states _ _ _ Hw _ _ Ha) as [F|(_ & _ & [F|(y & u & F)])].
    + destruct Hl0 as (_ & Hf & _). by rewrite Hf in F.
    + left. by apply Hd.
    + right. destruct (Hviews _ _ F) as [H1 H2]. split; [done|]. split; [by rewrite Hg|]. right. exists y, u. by rewrite Hc.
Qed.

(** *** Both pointers of a promise go, and the state with them *)
Lemma winv_abandon S S' R P R' P' (a : addr) s' :
  winv (make_world S R P) -> S' !! a = Some s' -> (forall b, b <> a -> S' !! b = S !! b) ->
  length (freed s') = 1 ->
  (forall x b v, consumer_of R' P' x = Some (b, v) <-> consumer_of R P x = Some (b, v) /\ b <> a) ->
  (forall j b, producer_of P' j = Some b <-> producer_of P j = Some b /\ b <> a) ->
  winv (make_world S' R' P').
Proof.
  intros Hw Ha Hb Hf Hc Hp. eapply (ginv_update _ _ _ _ _ _ a s'); [exact Hw|done|done|..]; cbn [states results promises].
  - intros x b v Hne. rewrite Hc. tauto.
  - intros j b Hne. rewrite Hp. tauto.
  - intros x y v v' Hx. apply Hc in Hx. tauto.
  - intros i j Hi. apply Hp in Hi. tauto.
  - intros j b v b' Hx Hj. apply Hc in Hx. apply Hp in Hj. exact (g_paired _ _ _ Hw j b v b' (proj1 Hx) (proj1 Hj)).
  - intros x v Hx. apply Hc in Hx. tauto.
  - intros j Hj. apply Hp in Hj. tauto.
  - by left.
Qed.

(** *** A new state *)
Lemma winv_new S R P R' P' s :
  winv (make_world S R P) ->
  (forall x b v, b <> length S -> consumer_of R' P' x = Some (b, v) <-> consumer_of R P x = Some (b, v)) ->
  (forall j b, b <> length S -> producer_of P' j = Some b <-> producer_of P j = Some b) ->
  (exists x0, forall x v, consumer_of R' P' x = Some (length S, v) -> x = x0 /\ live s /\ view_ok v s) ->
  (exists j0, forall j, producer_of P' j = Some (length S) -> j = j0 /\ live s /\ prod s = P_own) ->
  (forall j b v b', consumer_of R' P' (of_promise j) = Some (b, v) -> producer_of P' j = Some b' -> b = b') ->
  (length (freed s) = 1 \/
   (live s /\ (prod s = P_own -> exists j, producer_of P' j = Some (length S)) /\
    exists x v, consumer_of R' P' x = Some (length S, v))) ->
  winv (make_world (S ++ [s]) R' P').
Proof.
  intros Hw Hc Hp [x0 Hx0] [j0 Hj0] Hpa Hs.
  eapply (ginv_update _ _ _ _ _ _ (length S) s); [exact Hw|by apply list_lookup_middle|..]; cbn [states results promises]; try done.
  - intros b Hb. destruct (decide (b < length S)); [by rewrite lookup_app_l|].
    assert (length S < b) by (unfold addr in *; lia).
    rewrite (lookup_ge_None_2 S) by lia. apply lookup_ge_None_2. rewrite length_app. simpl. lia.
  - intros x y v v' Hx Hy. apply Hx0 in Hx, Hy. destruct Hx, Hy. congruence.
  - intros i j Hi Hj. apply Hj0 in Hi, Hj. destruct Hi, Hj. congruence.
  - intros x v Hx. exact (proj2 (Hx0 _ _ Hx)).
  - intros j Hj. exact (proj2 (Hj0 _ Hj)).
  - destruct Hs as [|(H1 & H2 & H3)]; [by left|]. right. auto.
Qed.

(** *** Pointers move from one object to another *)
Section moves.
Context {A B : Type} `{EqDecision A}.
Implicit Types f : A -> option B.

Definition moved (x y : A) f f' : Prop :=
  f x = None /\ forall z, f' z = if decide (z = x) then f y else if decide (z = y) then None else f z.
Definition relocated f f' : Prop := (forall z, f' z = f z) \/ exists x y, moved x y f f'.

Lemma relocated_back f f' z b : relocated f f' -> f' z = Some b -> exists y, f y = Some b.
Proof. intros [H|(x & y & _ & H)]; rewrite H; repeat case_decide; subst; eauto; done. Qed.

Lemma relocated_forth f f' z b : relocated f f' -> f z = Some b -> exists y, f' y = Some b.
Proof.
  intros [H|(x & y & Hx & H)] Hz; [exists z; by rewrite H|].
  destruct (decide (z = y)) as [->|Hne]; [exists x; by rewrite H, decide_True|].
  exists z. rewrite H. repeat case_decide; subst; try done; congruence.
Qed.

Lemma relocated_inj (Q : B -> B -> Prop) f f' :
  relocated f f' -> (forall x y b b', Q b b' -> f x = Some b -> f y = Some b' -> x = y) ->
  forall x y b b', Q b b' -> f' x = Some b -> f' y = Some b' -> x = y.
Proof.
  intros [H|(u & v & Hu & H)] Hi x y b b' Hq; rewrite !H; [by apply Hi|].
  repeat case_decide; subst; try done; try (by eauto); intros Hx Hy; exfalso; specialize (Hi _ _ _ _ Hq Hx Hy); congruence.
Qed.
End moves.

Lemma winv_moved S R P R' P' :
  winv (make_world S R P) ->
  relocated (consumer_of R P) (consumer_of R' P') -> relocated (producer_of P) (producer_of P') ->
  (forall i b v b', consumer_of R' P' (of_promise i) = Some (b, v) -> producer_of P' i = Some b' -> b = b') ->
  winv (make_world S R' P').
Proof.
  intros [] Hc Hp Hpa. constructor; cbn [states results promises] in *; try done.
  - intros x y a v v'. apply (relocated_inj (fun b b' => b.1 = b'.1) _ _ Hc); [|done].
    intros x' y' [] [] Hq. simpl in Hq. subst. eauto.
  - intros x y a. apply (relocated_inj eq _ _ Hp); [|done]. intros x' y' b b' ->. eauto.
  - intros x a v Hx. destruct (relocated_back _ _ _ _ Hc Hx) as [y Hy]. eauto.
  - intros j a Hj. destruct (relocated_back _ _ _ _ Hp Hj) as [k Hk]. eauto.
  - intros a s Ha. destruct (g_states0 _ _ Ha) as [|(H1 & H2 & H3)]; [by left|]. right. split; [done|]. split.
    + intros E. destruct (H2 E) as [j Hj]. by eapply relocated_forth.
    + destruct H3 as [|(x & v & Hx)]; [by left|]. right. destruct (relocated_forth _ _ _ _ Hc Hx) as [y Hy]. eauto.
Qed.
End ownership.
