(* ===== verification/ResultSafety.v ===== *)
(** * result and result_promise: the operations keep the ownership *)

From stdpp Require Import prelude list strings.
From Stdlib Require Import ZArith Lia.
From S2P Require Import Prelude Errors ProducerContext ConsumerContext ResultState ResultStateProps ResultStateFacts Result ResultProps ResultOwnership.

Local Open Scope list_scope.

(** ** The operations keep the ownership *)
Section operations.
Context {T : Type}.
Notation rstate := (ResultState.state T).
Implicit Types w : world T.
Implicit Types o : result T.
Implicit Types s : rstate.

(** [m], started in [w], does not abort and ends in a world that satisfies the
    invariant. *)
Definition safe {A} (m : M exn (world T) A) w : Prop :=
  is_Abort (m w).1 = false /\ winv (m w).2.

Lemma safe_after {A B} (m : M exn (world T) A) (k : A -> M exn (world T) B) w a w' :
  m w = (Ok a, w') -> safe (k a) w' -> safe (m ≫= k) w.
Proof. intros E Hs. unfold safe. by rewrite (bind_Ok _ _ _ _ _ E). Qed.

Lemma safe_throw {A} (e : exn) w : winv w -> safe (A := A) (throw e) w.
Proof. done. Qed.

Lemma result_at_eq w i o : results w !! i = Some o -> result_at i w = (Ok o, w).
Proof. intros E. unfold result_at, mbind, M_bind, Prelude.get_state. simpl. by rewrite E. Qed.

Lemma promise_at_eq w j p : promises w !! j = Some p -> promise_at j w = (Ok p, w).
Proof. intros E. unfold promise_at, mbind, M_bind, Prelude.get_state. simpl. by rewrite E. Qed.

Lemma get_state_at_eq w a s : states w !! a = Some s -> freed s = [] -> get_state_at a w = (Ok s, w).
Proof.
  intros E Hf. unfold get_state_at, mbind, M_bind, Prelude.get_state, massert. simpl. rewrite E.
  by rewrite bool_decide_eq_true_2.
Qed.

Lemma put_state_at_eq w a s : is_bad s = false -> put_state_at a s w = (Ok tt, Result.set_states (<[a := s]> (states w)) w).
Proof. intros E. unfold put_state_at, mbind, M_bind, massert. by rewrite E. Qed.

(** A call of the owner of the consumer pointer. *)
Lemma consumer_calls_eq w (a : addr) c s (Q : rstate -> Prop) :
  states w !! a = Some s -> live s -> calls_to c s Q ->
  exists s', Q s' /\ inv s' /\ same_producer s s' /\
    consumer_calls c a w = (Ok s', Result.set_states (<[a := s']> (states w)) w).
Proof.
  intros Ha (Hi & Hf & _) (s1 & Hs1 & HQ). exists (run_consumer call_steps s1).
  destruct (call_keeps c s s1 Hi Hs1) as [Hi' Hp]. split; [done|]. split; [done|]. split; [done|].
  unfold consumer_calls. rewrite (bind_Ok _ _ _ _ _ (get_state_at_eq w a s Ha Hf)), Hs1.
  rewrite (bind_Ok _ _ _ _ _ (put_state_at_eq w a _ (inv_not_bad _ Hi'))). done.
Qed.

Lemma live_after s s' : live s -> inv s' -> same_producer s s' -> freed s' = freed s -> live s'.
Proof. intros (Hi & Hf & Hp) Hi' [Hq _] Hf'. split; [done|]. split; [congruence|]. by rewrite Hq. Qed.

(** The state that a result at rest owns. *)
Lemma owned_state S R P i o a v :
  winv (make_world S R P) -> R !! i = Some o -> owned o = Some (a, v) ->
  exists s, S !! a = Some s /\ live s /\ view_ok v s.
Proof. intros Hw Hi Ho. apply (g_views _ _ _ Hw (of_result i)). simpl. by rewrite Hi. Qed.

Ltac known H := rewrite (bind_Ok _ _ _ _ _ H); clear H.

(** [get] after the wait, or [await_resume]: the state is gone. *)
Lemma get_rest_eq S R P i o (a : addr) v s p :
  winv (make_world S R P) -> R !! i = Some o -> owned o = Some (a, v) -> S !! a = Some s -> live s ->
  ready p s -> saw_result s ->
  exists s', get_rest i a (make_world S R P) =
      (Ok tt, make_world (<[a := s']> S) (<[i := make_result None at_rest (rv_got (payload_outcome p))]> R) P) /\
    winv (make_world (<[a := s']> S) (<[i := make_result None at_rest (rv_got (payload_outcome p))]> R) P).
Proof.
  intros Hw Hi Ho Ha Hl Hr Hs. destruct (consumer_calls_eq (make_world S R P) a call_get s _ Ha Hl (joined_get_ready p s Hl Hr Hs))
    as (s' & (Hc & Hf & Hg) & Hi' & Hp & E).
  exists s'. split.
  - assert (Ej : joined_get a (make_world S R P) = (Ok (payload_outcome p), make_world (<[a := s']> S) R P)).
    { unfold joined_get. rewrite (bind_Ok _ _ _ _ _ E), Hc. done. }
    unfold get_rest. rewrite (bind_Ok _ _ _ _ _ Ej). done.
  - assert (Hlt : i < length R) by (by eapply lookup_lt_Some).
    eapply (winv_leave S R P _ _ (of_result i)); [done|simpl; by rewrite Hi|done| | |done].
    + left. destruct Hl as (_ & Hf0 & _). rewrite Hf0 in Hf. split; [done|]. by destruct Hr.
    + intros y. by rewrite consumer_of_result.
Qed.

(** A call on a result that is at rest: it throws when the result is empty. *)
Lemma on_result S R P i o msg (k : addr -> M exn (world T) unit) :
  winv (make_world S R P) -> R !! i = Some o -> doing o = at_rest ->
  (forall a s, m_state o = Some a -> owned o = Some (a, v_rest) -> S !! a = Some s -> live s -> resting s ->
     safe (k a) (make_world S R P)) ->
  safe (a ← throw_if_empty o msg; k a) (make_world S R P).
Proof.
  intros Hw Hi Hd Hk. unfold throw_if_empty. destruct (m_state o) as [a|] eqn:Em; [|done].
  assert (Ho : owned o = Some (a, v_rest)) by (unfold owned; by rewrite Hd, Em).
  destruct (owned_state S R P i o a _ Hw Hi Ho) as (s & Ha & Hl & Hv). eapply safe_after; [done|]. by eapply Hk.
Qed.

(** The call returned, or blocks: the result keeps its state. *)
Lemma safe_put S R P i o o' (a : addr) v v' s s' :
  winv (make_world S R P) -> R !! i = Some o -> owned o = Some (a, v) -> S !! a = Some s ->
  owned o' = Some (a, v') -> live s -> inv s' -> same_producer s s' -> freed s' = freed s -> view_ok v' s' ->
  safe (put_result i o') (make_world (<[a := s']> S) R P).
Proof.
  intros Hw Hi Ho Ha Ho' Hl Hi' Hp Hf Hv. split; [done|]. simpl. eapply winv_use; try done.
  - by eapply live_after.
  - apply Hp.
Qed.

Lemma status_safe w i : winv w -> result_usable w i = true -> safe (status i) w.
Proof.
  destruct w as [S R P]. unfold result_usable. simpl. intros Hw Hu. destruct (R !! i) as [o|] eqn:Hi; [|done].
  destruct (doing o) eqn:Hd; try done. unfold status. eapply safe_after; [by apply result_at_eq|].
  eapply on_result; [done..|]. intros a s Em Ho Ha Hl Hr.
  assert (Hst : exists st, calls_to call_status s (fun s' => cons s' = C_own (r_status st) /\ freed s' = freed s)).
  { destruct (resting_cases s Hl Hr) as [Hp|[p Hp]]; eexists; [by apply status_pending|by eapply status_ready]. }
  destruct Hst as [st Hst]. destruct (consumer_calls_eq (make_world S R P) a _ s _ Ha Hl Hst) as (s' & [Hc Hf] & Hi' & Hsp & E).
  eapply safe_after; [exact E|]. unfold last_status. rewrite Hc. eapply safe_after; [done|].
  eapply safe_put; try done; [unfold owned; simpl; by rewrite Em|]. eexists; by split.
Qed.

Lemma wait_call s : live s -> resting s ->
  (prod s = P_own /\ calls_to call_wait s (fun s' => cons s' = C_wait_parked /\ freed s' = freed s)) \/
  (exists p, ready p s /\ calls_to call_wait s (fun s' => cons s' = C_own r_wait /\ freed s' = freed s)).
Proof.
  intros Hl Hr. destruct (resting_cases s Hl Hr) as [Hp|[p Hp]]; [left|right; exists p]; split; try done.
  - by destruct Hp.
  - by apply wait_pending.
  - by eapply wait_ready.
Qed.

Lemma wait_safe w i : winv w -> result_usable w i = true -> safe (wait i) w.
Proof.
  destruct w as [S R P]. unfold result_usable. simpl. intros Hw Hu. destruct (R !! i) as [o|] eqn:Hi; [|done].
  destruct (doing o) eqn:Hd; try done. unfold wait. eapply safe_after; [by apply result_at_eq|].
  eapply on_result; [done..|]. intros a s Em Ho Ha Hl Hr.
  destruct (wait_call s Hl Hr) as [[_ Hq]|(p & _ & Hq)];
    destruct (consumer_calls_eq (make_world S R P) a _ s _ Ha Hl Hq) as (s' & [Hc Hf] & Hi' & Hsp & E);
    (eapply safe_after; [exact E|]); unfold is_blocked; rewrite Hc; (eapply safe_put; try done);
    try (unfold owned; simpl; by rewrite Em); simpl; [by left|eexists; by split].
Qed.

Lemma ready_same p s s' : ready p s -> inv s' -> same_producer s s' -> m_pc_state s' = producer_done -> ready p s'.
Proof. intros (H1 & H2 & H3) _ [Hp Hm] Hd. unfold ready. by rewrite Hp, Hm. Qed.

(** What the consumer saw is still there. *)
Lemma saw_ready p s s' : live s' -> saw_result s' -> same_producer s s' -> ready p s -> ready p s'.
Proof.
  intros Hl Hs [Hp Hm] (H1 & H2 & H3).
  assert (Hr : resting s') by (destruct Hs as [Hc|[b Hc]]; eexists; (split; [exact Hc|done])).
  destruct (resting_cases s' Hl Hr) as [(E & _)|[p' (E1 & E2 & E3)]]; [congruence|].
  unfold ready. rewrite Hm in *. split; [done|]. by split.
Qed.

Lemma get_safe w i : winv w -> result_usable w i = true -> safe (get i) w.
Proof.
  destruct w as [S R P]. unfold result_usable. simpl. intros Hw Hu. destruct (R !! i) as [o|] eqn:Hi; [|done].
  destruct (doing o) eqn:Hd; try done. unfold get. eapply safe_after; [by apply result_at_eq|].
  eapply on_result; [done..|]. intros a s Em Ho Ha Hl Hr.
  destruct (wait_call s Hl Hr) as [[_ Hq]|(p & Hp & Hq)];
    destruct (consumer_calls_eq (make_world S R P) a _ s _ Ha Hl Hq) as (s' & [Hc Hf] & Hi' & Hsp & E);
    (eapply safe_after; [exact E|]); unfold is_blocked; rewrite Hc.
  - eapply safe_put; try done; [unfold owned; simpl; by rewrite Em|]. by left.
  - assert (Hl' := live_after _ _ Hl Hi' Hsp Hf). assert (Hw' : winv (make_world (<[a := s']> S) R P)).
    { rewrite <-(list_insert_id R i o Hi). eapply winv_use; try done; [apply Hsp|eexists; by split]. }
    assert (Ha' : <[a := s']> S !! a = Some s') by (apply list_lookup_insert_eq; by eapply lookup_lt_Some).
    assert (Hs : saw_result s') by (by left).
    destruct (get_rest_eq _ _ _ i o a _ s' p Hw' Hi Ho Ha' Hl' (saw_ready p s s' Hl' Hs Hsp Hp) Hs) as (s2 & E2 & Hw2).
    unfold safe. simpl in *. unfold Result.set_states. simpl. by rewrite E2.
Qed.

Lemma wait_with_safe w i msg c :
  winv w -> result_usable w i = true -> (c = call_wait_for \/ exists t n, c = call_wait_until t n) ->
  safe (wait_with msg c i) w.
Proof.
  destruct w as [S R P]. unfold result_usable. simpl. intros Hw Hu Hcall. destruct (R !! i) as [o|] eqn:Hi; [|done].
  destruct (doing o) eqn:Hd; try done. unfold wait_with. eapply safe_after; [by apply result_at_eq|].
  eapply on_result; [done..|]. intros a s Em Ho Ha Hl Hr.
  assert (Hst : calls_to c s (fun s' => ((exists st, cons s' = C_own (r_status st)) \/ exists k, cons s' = C_wf_acquire k) /\ freed s' = freed s)).
  { assert (Hb : calls_to call_wait_for s (fun s' => ((exists st, cons s' = C_own (r_status st)) \/ exists k, cons s' = C_wf_acquire k) /\ freed s' = freed s) /\
              calls_to call_status s (fun s' => ((exists st, cons s' = C_own (r_status st)) \/ exists k, cons s' = C_wf_acquire k) /\ freed s' = freed s)).
    { destruct (resting_cases s Hl Hr) as [Hp|[p Hp]].
      - destruct (wait_for_pending s Hp Hr) as (s1 & H1 & H2 & H3), (status_pending s Hp Hr) as (s2 & H4 & H5 & H6).
        split; eexists; eauto 7.
      - destruct (wait_for_ready p s Hp Hr) as (s1 & H1 & H2 & H3), (status_ready p s Hp Hr) as (s2 & H4 & H5 & H6).
        split; eexists; eauto 7. }
    destruct Hb as [Hb1 Hb2]. destruct Hcall as [->|(t & n & ->)]; [done|].
    destruct Hr as (r & Hrc & Hru). unfold calls_to, call_step in *. rewrite Hrc in *.
    destruct r; simpl in *; try done; destruct (t <=? n)%Z; done. }
  destruct (consumer_calls_eq (make_world S R P) a _ s _ Ha Hl Hst) as (s' & [Hc Hf] & Hi' & Hsp & E).
  eapply safe_after; [exact E|]. unfold is_blocked, last_status. destruct Hc as [[st Hc]|[k Hc]]; rewrite Hc.
  - eapply safe_after; [done|]. eapply safe_put; try done; [unfold owned; simpl; by rewrite Em|]. eexists; by split.
  - eapply safe_put; try done; [unfold owned; simpl; by rewrite Em|]. left. by exists k.
Qed.

(** The coroutine goes on with [await_resume]. *)
Lemma await_resume_safe S R P i o (a : addr) k v s p :
  winv (make_world S R P) -> R !! i = Some o -> owned o = Some (a, v) -> S !! a = Some s -> live s ->
  ready p s -> saw_result s -> safe (await_resume i k a) (make_world S R P).
Proof.
  intros Hw Hi Ho Ha Hl Hr Hs. destruct k; simpl.
  - destruct (get_rest_eq S R P i o a v s p Hw Hi Ho Ha Hl Hr Hs) as (s2 & E2 & Hw2). unfold safe. by rewrite E2.
  - rewrite <-(list_insert_id S a s Ha). eapply safe_put; try done; [apply Hl|].
    destruct Hs as [Hc|[b Hc]]; eexists; (split; [exact Hc|done]).
Qed.

Lemma co_await_safe w i k h : winv w -> result_usable w i = true -> safe (co_await i k h) w.
Proof.
  destruct w as [S R P]. unfold result_usable. simpl. intros Hw Hu. destruct (R !! i) as [o|] eqn:Hi; [|done].
  destruct (doing o) eqn:Hd; try done. unfold co_await. eapply safe_after; [by apply result_at_eq|].
  eapply on_result; [done..|]. intros a s Em Ho Ha Hl Hr.
  set (o1 := make_result None (in_await k a) (last o)). eapply safe_after; [done|].
  assert (Hlt : i < length R) by (by eapply lookup_lt_Some). simpl.
  change (Result.set_results _ _) with (make_world S (<[i := o1]> R) P).
  assert (Hq : calls_to (call_await h) s (fun s' => ((cons s' = C_suspended h) \/
            (cons s' = C_own (r_await false) /\ exists p, ready p s)) /\ freed s' = freed s)).
  { destruct (resting_cases s Hl Hr) as [Hp|[p Hp]].
    - destruct (await_pending h s Hp Hr) as (s1 & H1 & H2 & H3). eexists; eauto 8.
    - destruct (await_ready h p s Hp Hr) as (s1 & H1 & H2 & H3). eexists; eauto 8. }
  destruct (consumer_calls_eq (make_world S (<[i := o1]> R) P) a _ s _ Ha Hl Hq) as (s' & [Hc Hf] & Hi' & Hsp & E).
  eapply safe_after; [exact E|]. unfold is_blocked. simpl. unfold Result.set_states. simpl.
  assert (Hl' := live_after _ _ Hl Hi' Hsp Hf).
  assert (Hw' : winv (make_world (<[a := s']> S) (<[i := o1]> R) P)).
  { eapply winv_use; try done; [apply Hsp|]. destruct Hc as [Hc|[Hc _]]; exists h, false; auto. }
  destruct Hc as [Hc|[Hc [p Hp]]]; rewrite Hc; [done|].
  assert (Hs : saw_result s') by (right; by exists false).
  eapply (await_resume_safe _ _ _ i o1 a k v_suspended s' p); try done.
  - by apply list_lookup_insert_eq.
  - apply list_lookup_insert_eq. by eapply lookup_lt_Some.
  - by eapply saw_ready.
Qed.

(** The thread of result [i] runs again. *)
Lemma continue_rest_safe S R P i o (a : addr) v s p r :
  winv (make_world S R P) -> R !! i = Some o -> owned o = Some (a, v) -> doing o <> at_rest ->
  S !! a = Some s -> live s -> ready p s -> cons s = C_own r -> wakes_with v r p ->
  safe (match doing o with
        | in_wait => return_result i (m_state o) rv_void
        | in_get => get_rest i a
        | in_await k a => await_resume i k a
        | _ => st ← last_status s; return_result i (m_state o) (rv_status st)
        end) (make_world S R P).
Proof.
  intros Hw Hi Ho Hd Ha Hl Hr Hc Hv.
  assert (Hput : forall r', resting s -> m_state o = Some a -> safe (return_result i (m_state o) r') (make_world S R P)).
  { intros r' Hrest Em. rewrite <-(list_insert_id S a s Ha). eapply safe_put; try done; [unfold owned; simpl; by rewrite Em|apply Hl|done]. }
  unfold owned in Ho. destruct (doing o) as [| | | |k b] eqn:Ed; try done; simpl in *.
  - destruct (m_state o) as [b|] eqn:Em; simplify_eq/=. apply Hput; [|done]. exists r_wait. by split.
  - destruct (m_state o) as [b|] eqn:Em; simplify_eq/=.
    destruct (get_rest_eq S R P i o a v_blocked s p Hw Hi) as (s2 & E2 & Hw2); try done.
    + unfold owned. by rewrite Ed, Em.
    + by left.
    + unfold safe. by rewrite E2.
  - destruct (m_state o) as [b|] eqn:Em; simplify_eq/=. destruct Hv as (st & -> & _). unfold last_status. rewrite Hc. eapply safe_after; [done|].
    apply Hput; [|done]. eexists. by split.
  - simplify_eq. destruct Hv as [b ->]. eapply (await_resume_safe _ _ _ i o a k v_suspended s p); try done.
    + unfold owned. by rewrite Ed.
    + right. eauto.
Qed.

Lemma continue_safe w i : winv w -> is_Some (results w !! i) -> safe (continue i) w.
Proof.
  destruct w as [S R P]. simpl. intros Hw [o Hi]. unfold continue. eapply safe_after; [by apply result_at_eq|].
  destruct (owned o) as [[a v]|] eqn:Ho; [|unfold owned, state_of in *; destruct (doing o), (m_state o); done].
  destruct (owned_state S R P i o a v Hw Hi Ho) as (s & Ha & Hl & Hv).
  assert (Hd : doing o = at_rest \/ doing o <> at_rest) by (destruct (doing o); auto; by right).
  destruct Hd as [Hd|Hd].
  { unfold state_of. rewrite Hd. by destruct (m_state o). }
  assert (Hp : state_of o = Some a /\ v <> v_rest).
  { unfold owned, state_of in *. destruct (doing o), (m_state o); by simplify_eq/=. }
  destruct Hp as [Hptr Hne]. rewrite Hptr. destruct Hl as (Hinv & Hf & Hpr). assert (Hl : live s) by done.
  destruct (run_consumer_keeps call_steps s Hinv) as [Hi' Hsp].
  set (s' := run_consumer call_steps s) in *.
  assert (Hgoal : safe (put_state_at a s';; if is_blocked s' then mret tt
            else match doing o with
                 | in_wait => return_result i (m_state o) rv_void
                 | in_get => get_rest i a
                 | in_await k a => await_resume i k a
                 | _ => st ← last_status s'; return_result i (m_state o) (rv_status st)
                 end) (make_world S R P)).
  { eapply safe_after; [by apply put_state_at_eq, inv_not_bad|]. simpl. unfold Result.set_states. simpl.
    assert (Hput : forall v', view_ok v' s' -> v' = v -> freed s' = freed s -> winv (make_world (<[a := s']> S) R P)).
    { intros v' Hv' -> Hf'. rewrite <-(list_insert_id R i o Hi). eapply winv_use; try done; [by eapply live_after|apply Hsp]. }
    destruct Hpr as [Hpr|Hpr].
    - destruct (still_blocked v s Hinv Hpr Hv Hne) as (Hv' & Hb & Hf'). fold s' in Hv', Hb, Hf'. rewrite Hb.
      split; [done|]. simpl. by eapply Hput.
    - destruct (wakes_up v s Hl Hpr Hv Hne) as (p & r & Hr & Hc & Hwk & Hf'). fold s' in Hr, Hc, Hf'.
      assert (is_blocked s' = false) as -> by (unfold is_blocked; by rewrite Hc).
      assert (Hl' := live_after _ _ Hl Hi' Hsp Hf').
      assert (Hv' : view_ok v s').
      { destruct v; simpl in *; try done.
        - subst r. auto.
        - destruct Hwk as (st & -> & Hst). eauto.
        - destruct Hwk as [b ->]. exists 0, b. auto. }
      eapply continue_rest_safe; try done.
      + by eapply Hput.
      + apply list_lookup_insert_eq. by eapply lookup_lt_Some. }
  destruct (doing o); try done; (eapply safe_after; [by apply get_state_at_eq|]); done.
Qed.

Lemma time_out_safe w i : winv w -> is_Some (results w !! i) -> safe (time_out i) w.
Proof.
  destruct w as [S R P]. simpl. intros Hw [o Hi]. unfold time_out. eapply safe_after; [by apply result_at_eq|].
  destruct (m_state o) as [a|] eqn:Em, (doing o) eqn:Hd; try done.
  assert (Ho : owned o = Some (a, v_timed)) by (unfold owned; by rewrite Hd, Em).
  destruct (owned_state S R P i o a _ Hw Hi Ho) as (s & Ha & Hl & Hv).
  eapply safe_after; [apply get_state_at_eq; [done|apply Hl]|].
  destruct (gives_up s Hl Hv) as [(st & Hc & _)|(s1 & Hs1 & Hi' & Hsp & Hf & st & Hc)].
  - simpl. by rewrite Hc.
  - rewrite Hs1. eapply safe_after; [by apply put_state_at_eq, inv_not_bad|].
    eapply safe_after; [unfold last_status; by rewrite Hc|].
    eapply (safe_put S R P i o _ a v_timed v_rest s); try done. eexists. by split.
Qed.
(** *** The end of a result, and the move of one *)

(** The state of a pointer at rest is given to the deleter, whatever the objects
    are by then. *)
Lemma consumer_deleter_eq S R P x (a : addr) :
  winv (make_world S R P) -> consumer_of R P x = Some (a, v_rest) ->
  exists S' : list rstate, forall R' P', consumer_result_state_deleter a (make_world S R' P') = (Ok tt, make_world S' R' P') /\
    ((forall y, consumer_of R' P' y = if decide (y = x) then None else consumer_of R P y) ->
     (forall j, producer_of P' j = producer_of P j) -> winv (make_world S' R' P')).
Proof.
  intros Hw Hx. destruct (g_views _ _ _ Hw _ _ _ Hx) as (s & Ha & Hl & Hr). simpl in Ha, Hr.
  assert (Hq : calls_to call_complete s (fun s' => inv s' -> same_producer s s' -> left_state s s')).
  { destruct (resting_cases s Hl Hr) as [Hp|[p Hp]].
    - destruct (complete_pending s Hp Hr) as (s1 & H1 & H2 & H3). exists s1. split; [done|]. intros Hi Hsp.
      right. split; [by eapply live_after|]. split; [apply Hsp|done].
    - destruct (complete_ready p s Hl Hp Hr) as (s1 & H1 & H2 & H3 & H4). exists s1. split; [done|]. intros Hi Hsp.
      left. destruct Hl as (_ & Hf & _). rewrite Hf in H3. split; [done|apply Hp]. }
  exists (<[a := from_option (fun s1 => run_consumer call_steps s1) s (call_step call_complete s)]> S). intros R' P'.
  destruct Hq as (s1 & Hs1 & Hq). rewrite Hs1. simpl. destruct (call_keeps _ _ _ (proj1 Hl) Hs1) as [Hi' Hsp]. split.
  - unfold consumer_result_state_deleter, consumer_calls.
    assert (E : get_state_at a (make_world S R' P') = (Ok s, make_world S R' P')) by (apply get_state_at_eq; [done|apply Hl]).
    unfold mbind, M_bind in *. rewrite E, Hs1. unfold put_state_at, massert, mbind, M_bind.
    by rewrite (inv_not_bad _ Hi').
  - intros Hc Hp. eapply winv_leave; try done. by apply Hq.
Qed.

Definition empty_result : result T := make_result None at_rest rv_none.

Lemma owned_at_rest o : doing o = at_rest -> owned o = (fun a => (a, v_rest)) <$> m_state o.
Proof. intros E. unfold owned. by rewrite E. Qed.

(** The result is emptied: with its old pointer deleted the invariant holds. *)
Lemma emptied S R P i o :
  winv (make_world S R P) -> R !! i = Some o -> doing o = at_rest ->
  exists S' : list rstate, (forall R' P', delete_with consumer_result_state_deleter (m_state o) (make_world S R' P') = (Ok tt, make_world S' R' P')) /\
    winv (make_world S' (<[i := empty_result]> R) P).
Proof.
  intros Hw Hi Hd. assert (Hlt : i < length R) by (by eapply lookup_lt_Some). assert (Ho := owned_at_rest o Hd).
  destruct (m_state o) as [a|] eqn:Em; simpl in *.
  - assert (Hx : consumer_of R P (of_result i) = Some (a, v_rest)) by (simpl; by rewrite Hi).
    destruct (consumer_deleter_eq S R P _ a Hw Hx) as [S' HS]. exists S'. split; [intros; by apply HS|].
    apply (HS (<[i := empty_result]> R) P); [|done]. intros y. by rewrite consumer_of_result.
  - exists S. split; [done|].
    eapply winv_moved; [exact Hw|left|by left|apply (g_paired _ _ _ Hw)].
    intros y. rewrite consumer_of_result by done. case_decide; [subst; simpl; by rewrite Hi|done].
Qed.

Lemma destroy_result_safe w i : winv w -> result_usable w i = true -> safe (destroy_result i) w.
Proof.
  destruct w as [S R P]. unfold result_usable. simpl. intros Hw Hu. destruct (R !! i) as [o|] eqn:Hi; [|done].
  destruct (doing o) eqn:Hd; try done. unfold destroy_result. eapply safe_after; [by apply result_at_eq|].
  eapply safe_after; [done|]. destruct (emptied S R P i o Hw Hi Hd) as (S' & E & Hw').
  unfold safe. simpl. unfold Result.set_results. simpl. by rewrite E.
Qed.

Lemma move_result_safe w i j :
  winv w -> result_usable w i = true -> result_usable w j = true -> safe (move_result i j) w.
Proof.
  destruct w as [S R P]. unfold result_usable. simpl. intros Hw Hu Hu'. unfold move_result. case_decide as Hij; [done|].
  destruct (R !! i) as [o|] eqn:Hi; [|done]. destruct (R !! j) as [rhs|] eqn:Hj; [|done].
  destruct (doing o) eqn:Hd, (doing rhs) eqn:Hd'; try done.
  do 2 (eapply safe_after; [by apply result_at_eq|]). do 2 (eapply safe_after; [done|]).
  destruct (emptied S R P i o Hw Hi Hd) as (S' & E & Hw').
  unfold safe. simpl. unfold Result.set_results. simpl. rewrite E. split; [done|]. simpl.
  eapply winv_moved; [exact Hw'|right; exists (of_result i), (of_result j)|by left|apply (g_paired _ _ _ Hw)].
  assert (Hlt : i < length R) by (by eapply lookup_lt_Some). assert (Hlt' : j < length R) by (by eapply lookup_lt_Some).
  split; [by rewrite consumer_of_result, decide_True|]. intros z.
  rewrite !consumer_of_result by (rewrite ?length_insert; done).
  repeat case_decide; simplify_eq; simpl; try done.
  rewrite Hj. simpl. by rewrite (owned_at_rest rhs Hd').
Qed.

(** *** result_promise *)

(** The promise [j] owns a state whose result is not set. *)
Lemma promised_state S R P j p (a : addr) :
  winv (make_world S R P) -> P !! j = Some p -> m_producer_state p = Some a ->
  exists s, S !! a = Some s /\ live s /\ prod s = P_own.
Proof. intros Hw Hj Hp. apply (g_owned _ _ _ Hw j a). unfold producer_of. simpl. by rewrite Hj. Qed.

(** Once the result is built, [m_producer_state.reset()] publishes it. *)
Definition published S (a : addr) (s1 : rstate) : list rstate := <[a := publish s1]> S.

Lemma reset_producer_eq S R P j p (a : addr) s1 :
  S !! a = Some s1 -> inv s1 -> freed s1 = [] -> prod s1 = P_built ->
  reset_producer j p a (make_world S R P) =
  (Ok tt, make_world (published S a s1) R (<[j := make_promise None (m_consumer_state p)]> P)).
Proof.
  intros Ha Hi Hf Hp. unfold reset_producer. rewrite (bind_Ok _ _ _ tt (make_world S R (<[j := make_promise None (m_consumer_state p)]> P))) by done.
  unfold producer_result_state_deleter.
  rewrite (bind_Ok _ _ _ _ _ (get_state_at_eq (make_world S R (<[j := make_promise None (m_consumer_state p)]> P)) a s1 Ha Hf)).
  rewrite put_state_at_eq; [done|]. apply inv_not_bad. by apply publish_spec.
Qed.

Lemma winv_published S R P j p (a : addr) s s1 :
  winv (make_world S R P) -> P !! j = Some p -> m_producer_state p = Some a -> S !! a = Some s ->
  inv s1 -> prod s1 = P_built -> cons s1 = cons s ->
  winv (make_world (published S a s1) R (<[j := make_promise None (m_consumer_state p)]> P)).
Proof.
  intros Hw Hj Hp Ha Hi1 Hb Hc. assert (Hlt : j < length P) by (by eapply lookup_lt_Some).
  destruct (publish_spec s1 Hi1 Hb) as (Hi & Hg & Hm & Hv & Hd).
  eapply winv_publish; try done.
  - unfold producer_of. by rewrite Hj.
  - intros v Hs. destruct (Hv v) as [Hv' Hf]; [by apply (view_ok_ext v s)|].
    split; [|done]. split; [done|]. split; [done|]. by right.
  - rewrite <-Hc. done.
  - intros y. rewrite consumer_of_promise by done. case_decide; [subst; simpl; by rewrite Hj|done].
  - intros k. by rewrite producer_of_promise.
Qed.

(** The state gets its result. *)
Lemma set_result_eq S R P j p (a : addr) ctor :
  winv (make_world S R P) -> P !! j = Some p -> m_producer_state p = Some a ->
  match ctor with
  | inl t => exists s s1 : rstate, S !! a = Some s /\ inv s1 /\ freed s1 = [] /\ prod s1 = P_built /\ cons s1 = cons s /\
               content (m_producer s1) = Some (inl t) /\
               state_set_result a (inl t) (make_world S R P) = (Ok tt, make_world (<[a := s1]> S) R P)
  | inr e => state_set_result a (inr e) (make_world S R P) = (Throw e, make_world S R P)
  end.
Proof.
  intros Hw Hj Hp. destruct (promised_state S R P j p a Hw Hj Hp) as (s & Ha & (Hi & Hf & _) & Ho). simpl in Ha.
  unfold state_set_result. destruct ctor as [t|e].
  - destruct (set_result_stores s t Hi Ho) as (s1 & E & Hi1 & Hb & Hf1 & Hc & Hcon). exists s, s1.
    split; [done|]. split; [done|]. split; [congruence|]. do 3 (split; [done|]).
    rewrite (bind_Ok _ _ _ _ _ (get_state_at_eq (make_world S R P) a s Ha Hf)), E.
    rewrite (bind_Ok _ _ _ _ _ (put_state_at_eq (make_world S R P) a s1 (inv_not_bad _ Hi1))). done.
  - rewrite (bind_Ok _ _ _ _ _ (get_state_at_eq (make_world S R P) a s Ha Hf)), (set_result_throws s e Hi Ho).
    rewrite (bind_Ok _ _ _ _ _ (put_state_at_eq (make_world S R P) a s (inv_not_bad _ Hi))).
    unfold throw. simpl. unfold Result.set_states. simpl. by rewrite list_insert_id.
Qed.

Lemma set_exception_eq S R P j p (a : addr) e :
  winv (make_world S R P) -> P !! j = Some p -> m_producer_state p = Some a ->
  exists s s1 : rstate, S !! a = Some s /\ inv s1 /\ freed s1 = [] /\ prod s1 = P_built /\ cons s1 = cons s /\
     content (m_producer s1) = Some (inr e) /\
     state_set_exception a e (make_world S R P) = (Ok tt, make_world (<[a := s1]> S) R P).
Proof.
  intros Hw Hj Hp. destruct (promised_state S R P j p a Hw Hj Hp) as (s & Ha & (Hi & Hf & _) & Ho). simpl in Ha.
  unfold state_set_exception. destruct (set_exception_stores s e Hi Ho) as (s1 & E & Hi1 & Hb & Hf1 & Hc & Hcon). exists s, s1.
  split; [done|]. split; [done|]. split; [congruence|]. do 3 (split; [done|]).
  rewrite (bind_Ok _ _ _ _ _ (get_state_at_eq (make_world S R P) a s Ha Hf)), E.
  by rewrite (put_state_at_eq (make_world S R P) a s1 (inv_not_bad _ Hi1)).
Qed.

(** What the result of promise [j] becomes: the state of the world after the
    promise was used. *)
Definition delivered (r : payload T) S R P j (p : result_promise) (a : addr) (m : M exn (world T) unit) : Prop :=
  exists s s1, S !! a = Some s /\ inv s1 /\ prod s1 = P_built /\ cons s1 = cons s /\ content (m_producer s1) = Some r /\
    m (make_world S R P) = (Ok tt, make_world (published S a s1) R (<[j := make_promise None (m_consumer_state p)]> P)).

Lemma delivered_safe r S R P j p a m :
  winv (make_world S R P) -> P !! j = Some p -> m_producer_state p = Some a ->
  delivered r S R P j p a m -> safe m (make_world S R P).
Proof.
  intros Hw Hj Hp (s & s1 & Ha & Hi & Hb & Hc & _ & E). unfold safe. rewrite E. split; [done|]. by eapply winv_published.
Qed.

Lemma delivered_by r S R P j p (a : addr) (set : M exn (world T) unit) :
  (exists s s1 : rstate, S !! a = Some s /\ inv s1 /\ freed s1 = [] /\ prod s1 = P_built /\ cons s1 = cons s /\
     content (m_producer s1) = Some r /\ set (make_world S R P) = (Ok tt, make_world (<[a := s1]> S) R P)) ->
  delivered r S R P j p a (set;; reset_producer j p a).
Proof.
  intros (s & s1 & Ha & Hi & Hf & Hb & Hc & Hr & E). exists s, s1. do 5 (split; [done|]).
  rewrite (bind_Ok _ _ _ _ _ E). rewrite (reset_producer_eq _ _ _ _ _ _ s1); try done.
  - unfold published. by rewrite list_insert_insert_eq.
  - by eapply insert_same.
Qed.

Lemma set_exception_delivers S R P j p (a : addr) e :
  winv (make_world S R P) -> P !! j = Some p -> m_producer_state p = Some a ->
  delivered (inr e) S R P j p a (state_set_exception a e;; reset_producer j p a).
Proof. intros Hw Hj Hp. apply delivered_by. by eapply set_exception_eq. Qed.

Lemma set_result_delivers S R P j p (a : addr) t :
  winv (make_world S R P) -> P !! j = Some p -> m_producer_state p = Some a ->
  delivered (inl t) S R P j p a (state_set_result a (inl t);; reset_producer j p a).
Proof. intros Hw Hj Hp. apply delivered_by. exact (set_result_eq S R P j p a (inl t) Hw Hj Hp). Qed.

Lemma from_callable_delivers S R P j p (a : addr) r :
  winv (make_world S R P) -> P !! j = Some p -> m_producer_state p = Some a ->
  delivered r S R P j p a (from_callable a r;; reset_producer j p a).
Proof.
  intros Hw Hj Hp. apply delivered_by. destruct r as [t|e].
  - destruct (set_result_eq S R P j p a (inl t) Hw Hj Hp) as (s & s1 & H1 & H2 & H3 & H4 & H5 & H6 & E).
    exists s, s1. do 6 (split; [done|]). unfold from_callable, try_catch. by rewrite E.
  - by eapply (set_exception_eq S R P j p a e).
Qed.

(** A member function of a promise throws when the promise is empty. *)
Lemma on_promise S R P j p msg (k : addr -> M exn (world T) unit) :
  winv (make_world S R P) -> P !! j = Some p ->
  (forall a, m_producer_state p = Some a -> safe (k a) (make_world S R P)) ->
  safe (p ← promise_at j; a ← throw_if_empty_promise p msg; k a) (make_world S R P).
Proof.
  intros Hw Hj Hk. eapply safe_after; [by apply promise_at_eq|]. unfold throw_if_empty_promise.
  destruct (m_producer_state p) as [a|] eqn:Ep; [|done]. eapply safe_after; [done|]. by apply Hk.
Qed.

Lemma set_result_safe w j ctor : winv w -> promise_usable w j = true -> safe (set_result j ctor) w.
Proof.
  destruct w as [S R P]. unfold promise_usable. simpl. intros Hw Hu. destruct (P !! j) as [p|] eqn:Hj; [|done].
  unfold set_result. eapply safe_after; [by apply promise_at_eq|]. unfold throw_if_empty_promise.
  destruct (m_producer_state p) as [a|] eqn:Ep; [|done]. eapply safe_after; [done|]. destruct ctor as [t|e].
  - eapply delivered_safe; try done. by apply set_result_delivers.
  - unfold safe. by rewrite (bind_Throw _ _ _ _ _ (set_result_eq S R P j p a (inr e) Hw Hj Ep)).
Qed.

Lemma set_exception_safe w j e : winv w -> promise_usable w j = true -> safe (set_exception j e) w.
Proof.
  destruct w as [S R P]. unfold promise_usable. simpl. intros Hw Hu. destruct (P !! j) as [p|] eqn:Hj; [|done].
  unfold set_exception. eapply safe_after; [by apply promise_at_eq|]. unfold throw_if_empty_promise.
  destruct (m_producer_state p) as [a|] eqn:Ep; [|done]. eapply safe_after; [done|]. destruct e as [e|]; [|done].
  eapply delivered_safe; try done. by apply set_exception_delivers.
Qed.

Lemma set_from_function_safe w j r : winv w -> promise_not_empty w j = true -> safe (set_from_function j r) w.
Proof.
  destruct w as [S R P]. unfold promise_not_empty. simpl. intros Hw Hu.
  destruct (P !! j) as [[[a|] c]|] eqn:Hj; try done. unfold safe, set_from_function, noexcept. cbv beta.
  assert (H := from_callable_delivers S R P j _ a r Hw Hj eq_refl).
  destruct H as (s & s1 & H1 & H2 & H3 & H4 & H5 & E).
  rewrite (bind_Ok _ _ _ _ _ (promise_at_eq (make_world S R P) j _ Hj)). rewrite (bind_Ok _ _ _ a (make_world S R P)) by done.
  rewrite E. split; [done|]. by eapply winv_published.
Qed.

Lemma get_result_safe w j : winv w -> promise_usable w j = true -> safe (get_result j;; mret tt) w.
Proof.
  destruct w as [S R P]. unfold promise_usable. simpl. intros Hw Hu. destruct (P !! j) as [p|] eqn:Hj; [|done].
  assert (Hlt : j < length P) by (by eapply lookup_lt_Some).
  unfold get_result, promise_at, throw_if_empty_promise, safe, mbind, M_bind, Prelude.get_state, throw, mret, M_ret. simpl.
  rewrite Hj. destruct (m_producer_state p) as [b|] eqn:Ep; [|done]. destruct (m_consumer_state p) as [a|] eqn:Ec; [|done].
  simpl. split; [done|]. unfold Result.set_promises, Result.set_results. simpl.
  eapply winv_moved; [exact Hw|right; exists (of_result (length R)), (of_promise j)|left|].
  - split; [simpl; by rewrite lookup_ge_None_2|]. intros z. case_decide; [subst; simpl; by rewrite list_lookup_middle, Hj; simpl; rewrite ?Ec|].
    rewrite consumer_of_promise by done. case_decide; [done|]. destruct z as [i|i]; simpl; [|done].
    destruct (decide (i < length R)); [by rewrite lookup_app_l|].
    rewrite !lookup_ge_None_2; [done|lia|rewrite length_app; simpl; assert (i <> length R) by congruence; lia].
  - intros k. rewrite producer_of_promise by done. case_decide; [subst; unfold producer_of; by rewrite Hj|done].
  - intros k b' v c. rewrite consumer_of_promise by done. case_decide; [done|]. rewrite producer_of_promise by done.
    case_decide; [congruence|]. apply (g_paired _ _ _ Hw).
Qed.

(** *** The end of a promise, and the move of one *)
Definition empty_promise : result_promise := make_promise None None.

(** After [break_task_if_needed] the promise has no producer pointer, or its
    result was never retrieved. *)
Definition breakable (p : result_promise) : Prop :=
  m_producer_state p = None \/ exists a, p = make_promise (Some a) (Some a).

Lemma break_task_eq S R P j p :
  winv (make_world S R P) -> P !! j = Some p ->
  exists (S' : list rstate) p', break_task_if_needed j (make_world S R P) = (Ok tt, make_world S' R (<[j := p']> P)) /\
    winv (make_world S' R (<[j := p']> P)) /\ breakable p'.
Proof.
  intros Hw Hj. unfold break_task_if_needed. rewrite (bind_Ok _ _ _ _ _ (promise_at_eq (make_world S R P) j p Hj)).
  destruct p as [[b|] [a|]] eqn:Ep; simpl.
  - exists S, p. rewrite Ep, list_insert_id by done. split; [done|]. split; [done|]. right. exists b.
    assert (a = b) as ->; [|done]. eapply (g_paired _ _ _ Hw j a v_rest b); unfold producer_of; simpl; by rewrite Hj.
  - destruct (set_exception_delivers S R P j p b broken_task_error Hw) as (s & s1 & Ha & Hi & Hb & Hc & _ & E);
      [by subst|by subst|]. subst p. simpl in E. eexists _, _. split; [exact E|]. split; [|by left].
    by eapply (winv_published S R P j (make_promise (Some b) None)).
  - exists S, p. rewrite Ep, list_insert_id by done. split; [done|]. split; [done|]. by left.
  - exists S, p. rewrite Ep, list_insert_id by done. split; [done|]. split; [done|]. by left.
Qed.

(** The deleters run in either order. *)
Definition disposes (m : M exn (world T) unit) (S S' : list rstate) : Prop :=
  forall R P, m (make_world S R P) = (Ok tt, make_world S' R P).

Lemma abandon_consumer_eq S (a : addr) s :
  S !! a = Some s -> inv s -> freed s = [] -> pending s -> resting s ->
  exists s2, length (freed s2) = 1 /\
    disposes (consumer_result_state_deleter a;; producer_result_state_deleter a) S (<[a := s2]> S).
Proof.
  intros Ha Hi Hf Hp Hr. destruct (complete_pending s Hp Hr) as (s1 & Hs1 & Hc1 & Hf1).
  destruct (call_keeps _ _ _ Hi Hs1) as [Hi1 Hsp].
  destruct (abandon_consumer_first s s1 Hp Hr Hf Hs1) as [Hn Hb].
  exists (publish (run_consumer call_steps s1)). split; [done|].
  intros R' P'. rewrite (bind_Ok _ _ _ tt (make_world (<[a := run_consumer call_steps s1]> S) R' P')).
  - unfold producer_result_state_deleter. erewrite bind_Ok; [|apply get_state_at_eq; [by eapply insert_same|congruence]].
    rewrite put_state_at_eq by done. unfold Result.set_states. simpl. by rewrite list_insert_insert_eq.
  - unfold consumer_result_state_deleter, consumer_calls.
    erewrite bind_Ok; [done|]. erewrite bind_Ok; [|by apply get_state_at_eq]. rewrite Hs1.
    erewrite bind_Ok; [done|]. by apply put_state_at_eq, inv_not_bad.
Qed.

Lemma abandoned S R P j (a : addr) :
  winv (make_world S R P) -> P !! j = Some (make_promise (Some a) (Some a)) ->
  (exists S' : list rstate, disposes (consumer_result_state_deleter a;; producer_result_state_deleter a) S S' /\
     winv (make_world S' R (<[j := empty_promise]> P))) /\
  (exists S' : list rstate, disposes (producer_result_state_deleter a;; consumer_result_state_deleter a) S S' /\
     winv (make_world S' R (<[j := empty_promise]> P))).
Proof.
  intros Hw Hj. assert (Hlt : j < length P) by (by eapply lookup_lt_Some).
  assert (Hcx : consumer_of R P (of_promise j) = Some (a, v_rest)) by (simpl; by rewrite Hj).
  assert (Hpx : producer_of P j = Some a) by (unfold producer_of; by rewrite Hj).
  destruct (g_owned _ _ _ Hw _ _ Hpx) as (s & Ha & Hl & Ho). destruct (g_views _ _ _ Hw _ _ _ Hcx) as (s0 & Ha' & _ & Hr).
  simpl in Ha, Ha', Hr. assert (s0 = s) as -> by congruence.
  assert (Hp : pending s) by (destruct (resting_cases s Hl Hr) as [|[p (E & _)]]; [done|congruence]).
  destruct Hl as (Hi & Hf & _).
  assert (Hgone : forall s', length (freed s') = 1 -> winv (make_world (<[a := s']> S) R (<[j := empty_promise]> P))).
  { intros s' Hs'. eapply (winv_abandon S _ R P _ _ a s'); [done|by eapply insert_same|by apply insert_other|done|..].
    - intros x b v. rewrite consumer_of_promise by done. case_decide as E; [subst; rewrite Hcx; naive_solver|].
      split; [|tauto]. intros Hx. split; [done|]. intros ->. by apply E, (g_consumers _ _ _ Hw _ _ _ _ _ Hx Hcx).
    - intros k b. rewrite producer_of_promise by done. case_decide as E; [subst; rewrite Hpx; naive_solver|].
      split; [|tauto]. intros Hx. split; [done|]. intros ->. by apply E, (g_producers _ _ _ Hw _ _ _ Hx Hpx). }
  split.
  - destruct (abandon_consumer_eq S a s Ha Hi Hf Hp Hr) as (s2 & Hn & E). exists (<[a := s2]> S). split; [done|by apply Hgone].
  - destruct (abandon_producer_first s Hp Hr Hf) as (Hfp & Hbp & s2 & Hs2 & Hn & Hb).
    exists (<[a := run_consumer call_steps s2]> S). split; [|by apply Hgone].
    intros R' P'. rewrite (bind_Ok _ _ _ tt (make_world (<[a := publish s]> S) R' P')).
    + unfold consumer_result_state_deleter, consumer_calls. erewrite bind_Ok; [done|].
      erewrite bind_Ok; [|apply get_state_at_eq; [by eapply insert_same|done]]. rewrite Hs2.
      erewrite bind_Ok; [done|]. rewrite put_state_at_eq by done. unfold Result.set_states. simpl. by rewrite list_insert_insert_eq.
    + unfold producer_result_state_deleter. erewrite bind_Ok; [|by apply get_state_at_eq]. by apply put_state_at_eq.
Qed.

Lemma disposed S R P j p :
  winv (make_world S R P) -> P !! j = Some p -> breakable p ->
  (exists S' : list rstate, disposes (delete_with consumer_result_state_deleter (m_consumer_state p);;
                       delete_with producer_result_state_deleter (m_producer_state p)) S S' /\
     winv (make_world S' R (<[j := empty_promise]> P))) /\
  (exists S' : list rstate, disposes (delete_with producer_result_state_deleter (m_producer_state p);;
                       delete_with consumer_result_state_deleter (m_consumer_state p)) S S' /\
     winv (make_world S' R (<[j := empty_promise]> P))).
Proof.
  intros Hw Hj [Hp|[a ->]]; [|by apply abandoned]. assert (Hlt : j < length P) by (by eapply lookup_lt_Some).
  assert (Hprod : forall k, producer_of (<[j := empty_promise]> P) k = producer_of P k).
  { intros k. rewrite producer_of_promise by done. case_decide; [subst; unfold producer_of; by rewrite Hj|done]. }
  assert (H : exists S' : list rstate, (forall R P, delete_with consumer_result_state_deleter (m_consumer_state p) (make_world S R P) =
              (Ok tt, make_world S' R P)) /\ winv (make_world S' R (<[j := empty_promise]> P))).
  { destruct (m_consumer_state p) as [a|] eqn:Ec; simpl.
    - assert (Hx : consumer_of R P (of_promise j) = Some (a, v_rest)) by (simpl; rewrite Hj; simpl; by rewrite Ec).
      destruct (consumer_deleter_eq S R P _ a Hw Hx) as [S' HS]. exists S'. split; [intros; by apply HS|].
      apply HS; [|done]. intros y. by rewrite consumer_of_promise.
    - exists S. split; [done|]. eapply winv_moved; [exact Hw|left|by left|].
      + intros y. rewrite consumer_of_promise by done. case_decide; [subst; simpl; rewrite Hj; simpl; by rewrite Ec|done].
      + intros k b v b'. rewrite consumer_of_promise by done. case_decide; [done|]. rewrite Hprod. apply (g_paired _ _ _ Hw). }
  destruct H as (S' & E & Hw'). rewrite Hp. split; exists S'; (split; [|done]); intros R' P'; simpl.
  - by rewrite (bind_Ok _ _ _ _ _ (E R' P')).
  - rewrite (bind_Ok _ _ _ tt (make_world S R' P')) by done. apply E.
Qed.

Lemma destroy_promise_safe w j : winv w -> promise_usable w j = true -> safe (destroy_promise j) w.
Proof.
  destruct w as [S R P]. unfold promise_usable. simpl. intros Hw Hu. destruct (P !! j) as [p|] eqn:Hj; [|done].
  unfold destroy_promise. destruct (break_task_eq S R P j p Hw Hj) as (S1 & p1 & E1 & Hw1 & Hb).
  eapply safe_after; [exact E1|]. assert (Hj1 : <[j := p1]> P !! j = Some p1) by (by eapply insert_same).
  eapply safe_after; [by apply promise_at_eq|]. eapply safe_after; [done|].
  destruct (disposed S1 R _ j p1 Hw1 Hj1 Hb) as [(S2 & E2 & Hw2) _].
  unfold safe. simpl. unfold Result.set_promises. simpl. rewrite E2. by split.
Qed.

(** The pointers of promise [k] move to the empty promise [j]. *)
Lemma promise_moves (S : list rstate) R P j k rhs :
  winv (make_world S R P) -> P !! j = Some empty_promise -> P !! k = Some rhs -> j <> k ->
  winv (make_world S R (<[j := rhs]> (<[k := empty_promise]> P))).
Proof.
  intros Hw Hj Hk Hjk. assert (Hlt : j < length P) by (by eapply lookup_lt_Some).
  assert (Hlt' : k < length P) by (by eapply lookup_lt_Some).
  assert (Hc : forall z, consumer_of R (<[j := rhs]> (<[k := empty_promise]> P)) z =
             if decide (z = of_promise j) then consumer_of R P (of_promise k)
             else if decide (z = of_promise k) then None else consumer_of R P z).
  { intros z. rewrite !consumer_of_promise by (rewrite ?length_insert; done).
    repeat case_decide; simplify_eq; simpl; try done; by rewrite Hk. }
  assert (Hp : forall z, producer_of (<[j := rhs]> (<[k := empty_promise]> P)) z =
             if decide (z = j) then producer_of P k else if decide (z = k) then None else producer_of P z).
  { intros z. rewrite !producer_of_promise by (rewrite ?length_insert; done).
    repeat case_decide; simplify_eq; simpl; try done. unfold producer_of. by rewrite Hk. }
  eapply winv_moved; [exact Hw|right; exists (of_promise j), (of_promise k)|right; exists j, k|].
  - split; [simpl; by rewrite Hj|done].
  - split; [unfold producer_of; by rewrite Hj|done].
  - intros i b v b'. rewrite Hc, Hp. repeat case_decide; simplify_eq; try done; apply (g_paired _ _ _ Hw).
Qed.

Lemma move_promise_safe w j k :
  winv w -> promise_usable w j = true -> promise_usable w k = true -> safe (move_promise j k) w.
Proof.
  destruct w as [S R P]. unfold promise_usable. simpl. intros Hw Hu Hu'. unfold move_promise. case_decide as Hjk; [done|].
  destruct (P !! j) as [p|] eqn:Hj; [|done]. destruct (P !! k) as [rhs|] eqn:Hk; [|done].
  destruct (break_task_eq S R P j p Hw Hj) as (S1 & p1 & E1 & Hw1 & Hb).
  eapply safe_after; [exact E1|]. assert (Hj1 : <[j := p1]> P !! j = Some p1) by (by eapply insert_same).
  assert (Hk1 : <[j := p1]> P !! k = Some rhs) by (by rewrite insert_other by done).
  do 2 (eapply safe_after; [by apply promise_at_eq|]). do 2 (eapply safe_after; [done|]).
  destruct (disposed S1 R _ j p1 Hw1 Hj1 Hb) as [_ (S2 & E2 & Hw2)].
  unfold safe. simpl. unfold Result.set_promises. simpl. rewrite E2. split; [done|]. simpl.
  assert (Hjj : <[j := empty_promise]> (<[j := p1]> P) !! j = Some empty_promise) by (by eapply insert_same).
  assert (Hkk : <[j := empty_promise]> (<[j := p1]> P) !! k = Some rhs) by (by rewrite insert_other by done).
  assert (H := promise_moves S2 R _ j k rhs Hw2 Hjj Hkk Hjk).
  rewrite list_insert_insert_eq in H. rewrite (list_insert_insert_ne (<[j := p1]> P)), list_insert_insert_eq by done.
  by rewrite list_insert_insert_ne, list_insert_insert_eq in H by done.
Qed.

(** *** New states *)
Lemma consumer_of_new_result (R : list (result T)) P o x :
  consumer_of (R ++ [o]) P x = if decide (x = of_result (length R)) then owned o else consumer_of R P x.
Proof.
  case_decide as E; [subst; simpl; by rewrite list_lookup_middle|]. destruct x as [i|i]; simpl; [|done].
  destruct (decide (i < length R)); [by rewrite lookup_app_l|].
  rewrite !lookup_ge_None_2; [done|lia|rewrite length_app; simpl; assert (i <> length R) by congruence; lia].
Qed.

Lemma consumer_of_new_promise (R : list (result T)) P p x :
  consumer_of R (P ++ [p]) x =
  if decide (x = of_promise (length P)) then (fun a => (a, v_rest)) <$> m_consumer_state p else consumer_of R P x.
Proof.
  case_decide as E; [subst; simpl; by rewrite list_lookup_middle|]. destruct x as [i|i]; simpl; [done|].
  destruct (decide (i < length P)); [by rewrite lookup_app_l|].
  rewrite !lookup_ge_None_2; [done|lia|rewrite length_app; simpl; assert (i <> length P) by congruence; lia].
Qed.

Lemma producer_of_new_promise P p k :
  producer_of (P ++ [p]) k = if decide (k = length P) then m_producer_state p else producer_of P k.
Proof.
  unfold producer_of. case_decide as E; [subst; by rewrite list_lookup_middle|].
  destruct (decide (k < length P)); [by rewrite lookup_app_l|].
  rewrite !lookup_ge_None_2; [done|lia|rewrite length_app; simpl; lia].
Qed.

Lemma old_consumers (S : list rstate) (R : list (result T)) P x (b : addr) v : winv (make_world S R P) -> consumer_of R P x = Some (b, v) -> b < length S.
Proof. intros Hw Hx. destruct (g_views _ _ _ Hw _ _ _ Hx) as (s & Hs & _). by eapply lookup_lt_Some. Qed.

Lemma old_producers (S : list rstate) (R : list (result T)) P j (b : addr) : winv (make_world S R P) -> producer_of P j = Some b -> b < length S.
Proof. intros Hw Hx. destruct (g_owned _ _ _ Hw _ _ Hx) as (s & Hs & _). by eapply lookup_lt_Some. Qed.

Lemma fresh_state : live (@ResultState.init T) /\ resting (@ResultState.init T) /\ prod (@ResultState.init T) = P_own.
Proof.
  split; [split; [exact inv_init|]; split; [done|by left]|]. split; [|done]. by eexists.
Qed.

Lemma new_promise_safe w : winv w -> safe (new_promise;; mret tt) w.
Proof.
  destruct w as [S R P]. intros Hw. split; [done|]. destruct fresh_state as (Hl & Hr & Ho).
  unfold new_promise, new_state, mbind, M_bind. simpl. unfold Result.set_states, Result.set_promises. simpl.
  eapply winv_new; [exact Hw|..].
  - intros x b v Hb. rewrite consumer_of_new_promise. case_decide as E; [|done]. subst. simpl.
    rewrite lookup_ge_None_2 by done. simpl. split; [intros [= <- _]; done|done].
  - intros j b Hb. rewrite producer_of_new_promise. case_decide as E; [|done]. subst. simpl. unfold producer_of.
    rewrite lookup_ge_None_2 by done. simpl. split; [intros [= <-]; done|done].
  - exists (of_promise (length P)). intros x v. rewrite consumer_of_new_promise. case_decide as E.
    + simpl. intros [= <-]. done.
    + intros Hx. apply (old_consumers S R P _ _ _ Hw) in Hx. lia.
  - exists (length P). intros x. rewrite producer_of_new_promise. case_decide as E; [done|].
    intros Hx. apply (old_producers S R P _ _ Hw) in Hx. lia.
  - intros j b v b'. rewrite consumer_of_new_promise, producer_of_new_promise. repeat case_decide; simplify_eq; simpl; try congruence.
    apply (g_paired _ _ _ Hw).
  - right. split; [done|]. split.
    + intros _. exists (length P). rewrite producer_of_new_promise. by case_decide.
    + exists (of_promise (length P)), v_rest. rewrite consumer_of_new_promise. by case_decide.
Qed.

(** The result of a state that is ready. *)
Lemma new_ready_result S R P s :
  winv (make_world S R P) -> live s -> resting s -> prod s = P_gone ->
  winv (make_world (S ++ [s]) (R ++ [make_result (Some (length S)) at_rest rv_none]) P).
Proof.
  intros Hw Hl Hr Hg. eapply winv_new; [exact Hw|..].
  - intros x b v Hb. rewrite consumer_of_new_result. case_decide as E; [|done]. subst. simpl.
    rewrite lookup_ge_None_2 by done. simpl. split; [intros [= <- _]; done|done].
  - done.
  - exists (of_result (length R)). intros x v. rewrite consumer_of_new_result. case_decide as E.
    + simpl. intros [= <-]. done.
    + intros Hx. apply (old_consumers S R P _ _ _ Hw) in Hx. lia.
  - exists 0. intros j Hj. apply (old_producers S R P _ _ Hw) in Hj. lia.
  - intros j b v b'. rewrite consumer_of_new_result. case_decide; [done|]. apply (g_paired _ _ _ Hw).
  - right. split; [done|]. split; [by rewrite Hg|].
    exists (of_result (length R)), v_rest. rewrite consumer_of_new_result. by case_decide.
Qed.

(** A state that nobody owns was deleted. *)
Lemma new_dead_state S R P s :
  winv (make_world S R P) -> length (freed s) = 1 -> winv (make_world (S ++ [s]) R P).
Proof.
  intros Hw Hf. eapply winv_new; [exact Hw|done|done| | | |by left].
  - exists (of_result 0). intros x v Hx. apply (old_consumers S R P _ _ _ Hw) in Hx. lia.
  - exists 0. intros j Hj. apply (old_producers S R P _ _ Hw) in Hj. lia.
  - apply (g_paired _ _ _ Hw).
Qed.

Lemma insert_last (S : list rstate) s s' : <[length S := s']> (S ++ [s]) = S ++ [s'].
Proof. by rewrite insert_app_r_alt, Nat.sub_diag by lia. Qed.

Lemma new_state_eq (S : list rstate) (R : list (result T)) P : new_state (make_world S R P) = (Ok (length S), make_world (S ++ [ResultState.init]) R P).
Proof. done. Qed.

(** [set] builds the result of the new state, which is then published. *)
Lemma new_state_published S R P r (set : addr -> M exn (world T) unit) s1 :
  winv (make_world S R P) ->
  set (length S) (make_world (S ++ [ResultState.init]) R P) = (Ok tt, make_world (S ++ [s1]) R P) ->
  inv s1 -> prod s1 = P_built -> freed s1 = [] -> cons s1 = C_own r_start -> content (m_producer s1) = Some r ->
  let s2 := publish s1 in
  let w' := make_world (S ++ [s2]) (R ++ [make_result (Some (length S)) at_rest rv_none]) P in
  (set (length S);; producer_result_state_deleter (length S);; new_result (Some (length S)))
    (make_world (S ++ [ResultState.init]) R P) = (Ok (length R), w') /\ winv w' /\ ready r s2.
Proof.
  intros Hw E Hi Hb Hf Hc Hr. destruct (publish_spec s1 Hi Hb) as (Hi2 & Hg & Hm & Hv & _). simpl.
  destruct (Hv v_rest) as [Hr2 Hf2]; [by exists r_start|].
  assert (Hl2 : live (publish s1)) by (split; [done|split; [done|by right]]).
  split; [|split; [by apply new_ready_result|]].
  - rewrite (bind_Ok _ _ _ _ _ E). rewrite (bind_Ok _ _ _ tt (make_world (S ++ [publish s1]) R P)); [done|].
    unfold producer_result_state_deleter.
    erewrite bind_Ok; [|apply get_state_at_eq; [by apply list_lookup_middle|done]].
    rewrite put_state_at_eq by (apply inv_not_bad; apply Hi2). unfold Result.set_states. simpl. by rewrite insert_last.
  - destruct (resting_cases _ Hl2 Hr2) as [(E' & _)|[p (E1 & E2 & E3)]]; [congruence|]. rewrite Hm, Hr in E3.
    injection E3 as <-. split; [done|]. split; [done|]. by rewrite Hm.
Qed.

(** Setting the result of a new state. *)
Lemma new_state_set S R P (step : rstate -> option rstate) s1 (k : M exn (world T) unit) :
  step ResultState.init = Some s1 -> is_bad s1 = false ->
  (s ← get_state_at (length S);
   match step s with Some s' => put_state_at (length S) s';; k | None => abort end)
    (make_world (S ++ [ResultState.init]) R P) = k (make_world (S ++ [s1]) R P).
Proof.
  intros E Hb. erewrite bind_Ok; [|apply get_state_at_eq; [by apply list_lookup_middle|done]]. rewrite E.
  erewrite bind_Ok; [|by apply put_state_at_eq]. unfold Result.set_states. simpl. by rewrite insert_last.
Qed.

Lemma make_ready_result_eq S R P t :
  winv (make_world S R P) ->
  exists s2, make_ready_result (inl t) (make_world S R P) =
      (Ok (length R), make_world (S ++ [s2]) (R ++ [make_result (Some (length S)) at_rest rv_none]) P) /\
    winv (make_world (S ++ [s2]) (R ++ [make_result (Some (length S)) at_rest rv_none]) P) /\ ready (inl t) s2.
Proof.
  intros Hw. destruct fresh_state as ((Hi & Hf & _) & _ & Ho).
  destruct (set_result_stores _ t Hi Ho) as (s1 & E & Hi1 & Hb & Hf1 & Hc & Hr).
  assert (Es := new_state_set S R P (set_result_step (inl t)) s1 (mret tt) E (inv_not_bad _ Hi1)).
  destruct (new_state_published S R P (inl t) (fun a => try_catch (state_set_result a (inl t))
    (fun e => consumer_result_state_deleter a;; producer_result_state_deleter a;; throw e)) s1 Hw) as (E2 & H1 & H2); try done.
  - unfold try_catch, state_set_result. cbv beta. by rewrite Es.
  - exists (publish s1). split; [exact E2|by split].
Qed.

Lemma make_exceptional_result_eq S R P e :
  winv (make_world S R P) ->
  exists s2, make_exceptional_result (Some e) (make_world S R P) =
      (Ok (length R), make_world (S ++ [s2]) (R ++ [make_result (Some (length S)) at_rest rv_none]) P) /\
    winv (make_world (S ++ [s2]) (R ++ [make_result (Some (length S)) at_rest rv_none]) P) /\ ready (inr e) s2.
Proof.
  intros Hw. destruct fresh_state as ((Hi & Hf & _) & _ & Ho).
  destruct (set_exception_stores _ e Hi Ho) as (s1 & E & Hi1 & Hb & Hf1 & Hc & Hr).
  destruct (new_state_published S R P (inr e) (fun a => state_set_exception a e) s1 Hw) as (E2 & H1 & H2); try done.
  { unfold state_set_exception. erewrite bind_Ok; [|apply get_state_at_eq; [by apply list_lookup_middle|done]].
    rewrite E, put_state_at_eq by (by apply inv_not_bad). unfold Result.set_states. simpl. by rewrite insert_last. }
  exists (publish s1). split; [exact E2|by split].
Qed.

(** The constructor throws: the state is destroyed with its two pointers. *)
Lemma make_ready_result_throws S R P e :
  winv (make_world S R P) ->
  exists s2, make_ready_result (inr e) (make_world S R P) = (Throw e, make_world (S ++ [s2]) R P) /\
    winv (make_world (S ++ [s2]) R P).
Proof.
  intros Hw. destruct fresh_state as (Hl & Hr & Ho). assert (Hl' := Hl). destruct Hl' as (Hi & Hf & _).
  assert (Hp : pending (@ResultState.init T)) by (by vm_compute).
  assert (Ha : (S ++ [ResultState.init]) !! length S = Some (@ResultState.init T)) by (by apply list_lookup_middle).
  destruct (abandon_consumer_eq (S ++ [ResultState.init]) (length S) _ Ha Hi Hf Hp Hr) as (s2 & Hn & E).
  exists s2. split; [|by apply new_dead_state]. rewrite insert_last in E. unfold make_ready_result.
  rewrite (bind_Ok _ _ _ _ _ (new_state_eq S R P)). erewrite bind_Throw; [done|]. unfold try_catch, state_set_result.
  rewrite (new_state_set S R P (set_result_step (inr e)) _ (throw e) (set_result_throws _ e Hi Ho) eq_refl).
  assert (E' := E R P). unfold mbind, M_bind in *. simpl in *.
  destruct (consumer_result_state_deleter (length S) _) as [[[]|?|] w1] eqn:E1; try done. by rewrite E'.
Qed.

(** *** Constructors *)
Lemma new_result_safe S R P i o p :
  winv (make_world S R P) -> R !! i = Some o -> doing o = at_rest -> p = m_state o ->
  safe (new_result p) (make_world S (<[i := empty_result]> R) P).
Proof.
  intros Hw Hi Hd ->. split; [done|]. simpl. unfold Result.set_results. simpl.
  assert (Hlt : i < length R) by (by eapply lookup_lt_Some).
  eapply winv_moved; [exact Hw|right; exists (of_result (length R)), (of_result i)|by left|].
  - split; [simpl; by rewrite lookup_ge_None_2|]. intros z. rewrite consumer_of_new_result, length_insert.
    case_decide; [simpl; rewrite Hi; simpl; by rewrite !owned_at_rest|]. by rewrite consumer_of_result.
  - intros j b v b'. rewrite consumer_of_new_result. case_decide; [done|]. rewrite consumer_of_result by done.
    case_decide; [done|]. apply (g_paired _ _ _ Hw).
Qed.

Lemma default_result_safe w : winv w -> safe (default_result;; mret tt) w.
Proof.
  destruct w as [S R P]. intros Hw. split; [done|]. simpl. unfold Result.set_results. simpl.
  eapply winv_moved; [exact Hw|left|by left|].
  - intros z. rewrite consumer_of_new_result. case_decide; [subst; simpl; by rewrite lookup_ge_None_2|done].
  - intros j b v b'. rewrite consumer_of_new_result. case_decide; [done|]. apply (g_paired _ _ _ Hw).
Qed.

Lemma move_construct_result_safe w j : winv w -> result_usable w j = true -> safe (move_construct_result j;; mret tt) w.
Proof.
  destruct w as [S R P]. unfold result_usable. simpl. intros Hw Hu. destruct (R !! j) as [o|] eqn:Hj; [|done].
  destruct (doing o) eqn:Hd; try done.
  eapply (safe_after _ _ _ (length R) (make_world S (<[j := empty_result]> R ++ [make_result (m_state o) at_rest rv_none]) P)).
  2: { split; [done|]. exact (proj2 (new_result_safe S R P j o (m_state o) Hw Hj Hd eq_refl)). }
  - unfold move_construct_result. rewrite (bind_Ok _ _ _ _ _ (result_at_eq (make_world S R P) j o Hj)).
    unfold put_result, new_result, mbind, M_bind. simpl. by rewrite length_insert.
Qed.

Lemma move_construct_promise_safe w k : winv w -> promise_usable w k = true -> safe (move_construct_promise k;; mret tt) w.
Proof.
  destruct w as [S R P]. unfold promise_usable. simpl. intros Hw Hu. destruct (P !! k) as [rhs|] eqn:Hk; [|done].
  assert (Hlt : k < length P) by (by eapply lookup_lt_Some).
  eapply (safe_after _ _ _ (length P) (make_world S R (<[k := empty_promise]> P ++ [rhs]))).
  2: { split; [done|]. simpl.
    assert (Hc : forall z, consumer_of R (<[k := empty_promise]> P ++ [rhs]) z =
             if decide (z = of_promise (length P)) then consumer_of R P (of_promise k)
             else if decide (z = of_promise k) then None else consumer_of R P z).
    { intros z. rewrite consumer_of_new_promise, length_insert. case_decide; [simpl; by rewrite Hk|].
      by rewrite consumer_of_promise. }
    assert (Hp : forall z, producer_of (<[k := empty_promise]> P ++ [rhs]) z =
             if decide (z = length P) then producer_of P k else if decide (z = k) then None else producer_of P z).
    { intros z. rewrite producer_of_new_promise, length_insert. case_decide; [unfold producer_of; by rewrite Hk|].
      by rewrite producer_of_promise. }
    eapply winv_moved; [exact Hw|right; exists (of_promise (length P)), (of_promise k)|right; exists (length P), k|].
    + split; [simpl; by rewrite lookup_ge_None_2|done].
    + split; [unfold producer_of; by rewrite lookup_ge_None_2|done].
    + intros i b v b'. rewrite Hc, Hp. repeat case_decide; simplify_eq; try done; apply (g_paired _ _ _ Hw). }
  - unfold move_construct_promise. rewrite (bind_Ok _ _ _ _ _ (promise_at_eq (make_world S R P) k rhs Hk)).
    unfold put_promise, mbind, M_bind. simpl. by rewrite length_insert.
Qed.
End operations.
