(* ===== verification/ResultTheorems.v ===== *)
(** * result and result_promise: theorems *)

From stdpp Require Import prelude list strings.
From Stdlib Require Import ZArith Lia.
From S2P Require Import Prelude Errors ProducerContext ConsumerContext ResultState ResultStateProps ResultStateFacts Result ResultProps ResultOwnership ResultSafety.

Local Open Scope list_scope.

Section theorems.
Context {T : Type}.
Notation rstate := (ResultState.state T).
Implicit Types w : world T.
Implicit Types o : result T.

Notation reachable := (reachable program_step (@new_world T)).

Lemma winv_new_world : winv (@new_world T).
Proof. by constructor; intros; destruct_or?; try done; destruct x || destruct i || destruct j. Qed.

Lemma perform_safe (p : operation T) w : winv w -> allowed p w = true -> safe (perform p) w.
Proof.
  intros Hw Ha. destruct p; simpl in *; try apply andb_prop in Ha as [Ha1 Ha2].
  - by apply status_safe.
  - by apply wait_safe.
  - by apply get_safe.
  - apply wait_with_safe; auto.
  - apply wait_with_safe; eauto.
  - by apply co_await_safe.
  - apply continue_safe; [done|]. by destruct (results w !! i).
  - apply time_out_safe; [done|]. by destruct (results w !! i).
  - by apply default_result_safe.
  - by apply move_construct_result_safe.
  - by apply move_result_safe.
  - by apply destroy_result_safe.
  - by apply new_promise_safe.
  - by apply set_result_safe.
  - by apply set_exception_safe.
  - by apply set_from_function_safe.
  - by apply get_result_safe.
  - by apply move_construct_promise_safe.
  - by apply destroy_promise_safe.
  - by apply move_promise_safe.
  - destruct w as [S R P]. destruct ctor as [t|e].
    + destruct (make_ready_result_eq S R P t Hw) as (s2 & E & Hw' & _). unfold safe. by rewrite (bind_Ok _ _ _ _ _ E).
    + destruct (make_ready_result_throws S R P e Hw) as (s2 & E & Hw'). unfold safe. by rewrite (bind_Throw _ _ _ _ _ E).
  - destruct w as [S R P]. destruct e as [e|]; [|done].
    destruct (make_exceptional_result_eq S R P e Hw) as (s2 & E & Hw' & _). unfold safe. by rewrite (bind_Ok _ _ _ _ _ E).
Qed.

Lemma reachable_world w : reachable w -> winv w.
Proof.
  apply reachable_invariant; [exact winv_new_world|]. intros l w1 w2 Hw. unfold program_step.
  destruct (allowed l w1) eqn:E; [|done]. intros [= <-]. by apply perform_safe.
Qed.

Lemma owner_has_pointer w a : owns w a <->
  (exists x v, consumer_of (results w) (promises w) x = Some (a, v)) \/ exists j, producer_of (promises w) j = Some a.
Proof.
  assert (Hst : forall o, state_of o = Some a <-> exists v, owned o = Some (a, v)).
  { intros o. unfold state_of, owned. destruct (doing o), (m_state o); simpl; naive_solver. }
  unfold owns, producer_of. split.
  - intros [(i & o & Hi & Ho)|(j & p & Hj & [Hp|Hp])].
    + apply Hst in Ho as [v Hv]. left. exists (of_result i), v. simpl. by rewrite Hi.
    + left. exists (of_promise j), v_rest. simpl. rewrite Hj. simpl. by rewrite Hp.
    + right. exists j. by rewrite Hj.
  - intros [([i|j] & v & Hx)|[j Hj]]; simpl in *.
    + destruct (results w !! i) as [o|] eqn:E; [|done]. left. exists i, o. split; [done|]. apply Hst. by exists v.
    + destruct (promises w !! j) as [p|] eqn:E; [|done]. right. exists j, p. split; [done|]. left. simpl in Hx.
      by destruct (m_consumer_state p); simplify_eq/=.
    + destruct (promises w !! j) as [p|] eqn:E; [|done]. right. exists j, p. auto.
Qed.

(** C28. Whatever a program does with results and promises, as long as it uses
    objects that exist and one user at a time uses a result, and the calls of
    different threads do not overlap (each runs until it returns, blocks or
    suspends its coroutine), no operation fails an assertion or uses a deleted
    state; a state is deleted once, exactly when no pointer to it is left.  (When
    calls overlap, [complete_producer] may use a deleted state:
    [use_after_free_reachable].) *)
Theorem result_states_are_owned w :
  reachable w ->
  (forall p, allowed p w = true -> is_Abort (perform p w).1 = false) /\
  (forall a s, states w !! a = Some s -> length (freed s) <= 1 /\ (freed s = [] <-> owns w a)).
Proof.
  intros Hr. assert (Hw := reachable_world w Hr). split; [intros p Hp; by apply perform_safe|].
  intros a s Ha. rewrite owner_has_pointer.
  assert (Hlive : ((exists x v, consumer_of (results w) (promises w) x = Some (a, v)) \/
            exists j, producer_of (promises w) j = Some a) -> freed s = []).
  { intros [(x & v & Hx)|[j Hj]];
      [destruct (g_views _ _ _ Hw _ _ _ Hx) as (s0 & Hs & (_ & Hf & _) & _)|destruct (g_owned _ _ _ Hw _ _ Hj) as (s0 & Hs & (_ & Hf & _) & _)];
      by assert (s0 = s) as <- by congruence. }
  destruct (g_states _ _ _ Hw _ _ Ha) as [Hf|((Hi & Hf & Hp) & Ho & Hc)].
  - split; [lia|]. split; [intros E; by rewrite E in Hf|done].
  - rewrite Hf. split; [simpl; lia|]. split; [intros _|done]. destruct Hp as [Hp|Hp]; [by right; apply Ho|].
    destruct Hc as [Hc|Hc]; [|by left]. unfold inv, published_inv in Hi. rewrite Hp, Hc, Hf in Hi. naive_solver.
Qed.

(** *** Promises deliver *)

Lemma get_rest_receives S R P i o (a : addr) v s r :
  winv (make_world S R P) -> R !! i = Some o -> owned o = Some (a, v) -> S !! a = Some s -> live s ->
  ready r s -> saw_result s -> received i r (get_rest i a) (make_world S R P).
Proof.
  intros Hw Hi Ho Ha Hl Hr Hs. destruct (get_rest_eq S R P i o a v s r Hw Hi Ho Ha Hl Hr Hs) as (s2 & E2 & Hw2).
  eexists. split; [exact E2|]. simpl. by eapply insert_same.
Qed.

(** Somebody waits for the value of the result. *)
Definition wants_result o : Prop := doing o = in_get \/ exists a, doing o = in_await by_co_await a.

Lemma received_after {A} i r (m : M exn (world T) A) (k : A -> M exn (world T) unit) w a w' :
  m w = (Ok a, w') -> received i r (k a) w' -> received i r (m ≫= k) w.
Proof. intros E (w2 & E2 & H). exists w2. by rewrite (bind_Ok _ _ _ _ _ E). Qed.

Lemma get_receives S R P i o (a : addr) s r :
  winv (make_world S R P) -> R !! i = Some o -> doing o = at_rest -> m_state o = Some a -> S !! a = Some s ->
  live s -> resting s -> ready r s -> received i r (get i) (make_world S R P).
Proof.
  intros Hw Hi Hd Em Ha Hl Hr Hp. assert (Ho : owned o = Some (a, v_rest)) by (by rewrite owned_at_rest, Em).
  unfold get. eapply received_after; [by apply result_at_eq|]. unfold throw_if_empty. rewrite Em.
  eapply received_after; [done|]. assert (Hq := wait_ready r s Hp Hr).
  destruct (consumer_calls_eq (make_world S R P) a _ s _ Ha Hl Hq) as (s' & [Hc Hf] & Hi' & Hsp & E).
  eapply received_after; [exact E|]. unfold is_blocked. rewrite Hc. unfold Result.set_states. simpl.
  assert (Hl' := live_after _ _ Hl Hi' Hsp Hf). assert (Hs : saw_result s') by (by left).
  eapply (get_rest_receives _ _ _ i o a v_rest s'); try done.
  - rewrite <-(list_insert_id R i o Hi). eapply winv_use; try done; [apply Hsp|eexists; by split].
  - by eapply insert_same.
  - by eapply saw_ready.
Qed.

Lemma continue_receives S R P i o (a : addr) v s r :
  winv (make_world S R P) -> R !! i = Some o -> owned o = Some (a, v) -> wants_result o -> S !! a = Some s ->
  live s -> view_ok v s -> prod s = P_gone -> content (m_producer s) = Some r ->
  received i r (continue i) (make_world S R P).
Proof.
  intros Hw Hi Ho Hd Ha Hl Hv Hp Hr. unfold continue. eapply received_after; [by apply result_at_eq|].
  assert (Hst : state_of o = Some a /\ (v = v_blocked \/ v = v_suspended)).
  { unfold owned, state_of, wants_result in *. destruct (doing o); destruct_or?; destruct_and?; try naive_solver;
      destruct (m_state o); naive_solver. }
  destruct Hst as [Hst Hvv]. rewrite Hst.
  destruct (run_consumer_keeps call_steps s (proj1 Hl)) as [Hi' Hsp].
  destruct (wakes_up v s Hl Hp Hv) as (p & c & Hrd & Hc & Hwk & Hf'); [by destruct Hvv; subst|].
  assert (p = r) as ->. { destruct Hrd as (_ & _ & Hcon). rewrite (proj2 Hsp) in Hcon. congruence. }
  set (s' := run_consumer call_steps s) in *. assert (Hl' := live_after _ _ Hl Hi' Hsp Hf').
  assert (Hs : saw_result s') by (destruct Hvv; subst v; simpl in Hwk; [left; by subst|right; destruct Hwk as [b ->]; by exists b]).
  assert (Hw' : winv (make_world (<[a := s']> S) R P)).
  { rewrite <-(list_insert_id R i o Hi). eapply winv_use; try done; [apply Hsp|].
    destruct Hvv; subst v; simpl in *; [subst c; auto|destruct Hwk as [b ->]; exists 0, b; auto]. }
  assert (Ha' : <[a := s']> S !! a = Some s') by (by eapply insert_same).
  assert (E : forall k : unit -> M exn (world T) unit, ((put_state_at a s') ≫= k) (make_world S R P) = k tt (make_world (<[a := s']> S) R P)).
  { intros k. erewrite bind_Ok; [done|]. by apply put_state_at_eq, inv_not_bad. }
  assert (Hg := get_rest_receives _ R P i o a v s' r Hw' Hi Ho Ha' Hl' Hrd Hs).
  assert (Hb : is_blocked s' = false) by (unfold is_blocked; by rewrite Hc).
  destruct Hd as [Hd|[b Hd]]; rewrite Hd.
  - eapply received_after; [apply get_state_at_eq; [done|apply Hl]|]. fold s'. unfold received. rewrite E, Hb. exact Hg.
  - assert (b = a) as -> by (unfold state_of in Hst; rewrite Hd in Hst; congruence).
    eapply received_after; [apply get_state_at_eq; [done|apply Hl]|]. fold s'. unfold received. rewrite E, Hb. exact Hg.
Qed.

Lemma delivers_delivered S R P i j a p o op r :
  winv (make_world S R P) -> P !! j = Some p -> m_producer_state p = Some a ->
  R !! i = Some o -> state_of o = Some a -> delivers op j = Some r ->
  exists s s1, S !! a = Some s /\ inv s1 /\ prod s1 = P_built /\ cons s1 = cons s /\ content (m_producer s1) = Some r /\
    perform op (make_world S R P) = (Ok tt, make_world (published S a s1) R (<[j := make_promise None (m_consumer_state p)]> P)).
Proof.
  intros Hw Hj Hp Hi Ho Hd. destruct op as [| | | | | | | | | | | | |k ctor|k e|k c| | |k| | |]; try done; simpl in Hd.
  - destruct ctor as [t|e]; [|done]. case_decide; [subst k|done]. injection Hd as <-. simpl. unfold set_result.
    rewrite (bind_Ok _ _ _ _ _ (promise_at_eq (make_world S R P) j p Hj)). unfold throw_if_empty_promise. rewrite Hp.
    by apply (set_result_delivers S R P j p a t).
  - destruct e as [e|]; [|done]. case_decide; [subst k|done]. injection Hd as <-. simpl. unfold set_exception.
    rewrite (bind_Ok _ _ _ _ _ (promise_at_eq (make_world S R P) j p Hj)). unfold throw_if_empty_promise. rewrite Hp.
    by apply (set_exception_delivers S R P j p a e).
  - case_decide; [subst k|done]. injection Hd as <-. simpl. unfold set_from_function, noexcept.
    destruct (from_callable_delivers S R P j p a c Hw Hj Hp) as (s & s1 & H1 & H2 & H3 & H4 & H5 & E).
    exists s, s1. do 5 (split; [done|]).
    rewrite (bind_Ok _ _ _ _ _ (promise_at_eq (make_world S R P) j p Hj)). unfold throw_if_empty_promise. rewrite Hp.
    rewrite (bind_Ok _ _ _ a (make_world S R P)) by done. by rewrite E.
  - case_decide; [subst k|done]. injection Hd as <-. simpl.
    assert (Hc : m_consumer_state p = None).
    { destruct (m_consumer_state p) as [b|] eqn:Ec; [|done]. exfalso.
      assert (Hx : consumer_of R P (of_promise j) = Some (b, v_rest)) by (simpl; rewrite Hj; simpl; by rewrite Ec).
      assert (b = a) as -> by (apply (g_paired _ _ _ Hw j b v_rest a Hx); unfold producer_of; simpl; by rewrite Hj).
      assert (Hy : exists v, consumer_of R P (of_result i) = Some (a, v)).
      { simpl. rewrite Hi. simpl. unfold owned, state_of in *. destruct (doing o), (m_state o); simplify_eq/=; eauto. }
      destruct Hy as [v Hy]. by assert (H := g_consumers _ _ _ Hw _ _ _ _ _ Hx Hy). }
    destruct (set_exception_delivers S R P j p a broken_task_error Hw Hj Hp) as (s & s1 & H1 & H2 & H3 & H4 & H5 & E).
    exists s, s1. do 5 (split; [done|]). unfold destroy_promise.
    rewrite (bind_Ok _ _ _ tt (make_world (published S a s1) R (<[j := make_promise None (m_consumer_state p)]> P))).
    + rewrite Hc. assert (Hj' : <[j := make_promise None None]> P !! j = Some (make_promise None None)) by (by eapply insert_same).
      rewrite (bind_Ok _ _ _ _ _ (promise_at_eq (make_world (published S a s1) R (<[j := make_promise None None]> P)) j _ Hj')).
      erewrite bind_Ok; [|done]. simpl. unfold Result.set_promises. simpl. by rewrite list_insert_insert_eq.
    + unfold break_task_if_needed. rewrite (bind_Ok _ _ _ _ _ (promise_at_eq (make_world S R P) j p Hj)), Hp, Hc. rewrite Hc in E. exact E.
Qed.

Lemma co_await_receives S R P i o (a : addr) s r h :
  winv (make_world S R P) -> R !! i = Some o -> doing o = at_rest -> m_state o = Some a -> S !! a = Some s ->
  live s -> resting s -> ready r s -> received i r (co_await i by_co_await h) (make_world S R P).
Proof.
  intros Hw Hi Hd Em Ha Hl Hr Hp. assert (Ho : owned o = Some (a, v_rest)) by (by rewrite owned_at_rest, Em).
  unfold co_await. eapply received_after; [by apply result_at_eq|]. unfold throw_if_empty. rewrite Em.
  eapply received_after; [done|]. set (o1 := make_result None (in_await by_co_await a) (last o)).
  eapply received_after; [done|]. change (Result.set_results _ _) with (make_world S (<[i := o1]> R) P).
  assert (Hq := await_ready h r s Hp Hr).
  destruct (consumer_calls_eq (make_world S (<[i := o1]> R) P) a _ s _ Ha Hl Hq) as (s' & [Hc Hf] & Hi' & Hsp & E).
  eapply received_after; [exact E|]. unfold is_blocked. rewrite Hc. unfold Result.set_states. simpl.
  assert (Hl' := live_after _ _ Hl Hi' Hsp Hf). assert (Hs : saw_result s') by (right; by exists false).
  eapply (get_rest_receives _ _ _ i o1 a v_suspended s'); try done.
  - eapply winv_use; try done; [apply Hsp|]. exists h, false. by right.
  - apply list_lookup_insert_eq. by eapply lookup_lt_Some.
  - by eapply insert_same.
  - by eapply saw_ready.
Qed.

(** C29. What the promise is given, through [set_result], [set_exception],
    [set_from_function] or its destruction, is what its result gets: by a [get] or
    a [co_await] of a coroutine right afterwards, or when the [get] or [co_await]
    that waits for it goes on. *)
Theorem promise_delivers w i j a o p op q r :
  reachable w -> promises w !! j = Some p -> m_producer_state p = Some a ->
  results w !! i = Some o -> state_of o = Some a -> delivers op j = Some r -> receives i o q ->
  exists w1, perform op w = (Ok tt, w1) /\ results w1 !! i = Some o /\ received i r (perform q) w1.
Proof.
  intros Hr Hj Hp Hi Ho Hd Huse. assert (Hw := reachable_world w Hr). destruct w as [S R P]. simpl in *.
  destruct (delivers_delivered S R P i j a p o op r Hw Hj Hp Hi Ho Hd) as (s & s1 & Ha & Hi1 & Hb & Hc & Hcon & E).
  eexists. split; [exact E|]. split; [done|].
  assert (Hw1 := winv_published S R P j p a s s1 Hw Hj Hp Ha Hi1 Hb Hc).
  assert (Hv : exists v, owned o = Some (a, v)).
  { unfold owned, state_of in *. destruct (doing o), (m_state o); simplify_eq/=; eauto. }
  destruct Hv as [v Hv]. destruct (owned_state _ _ _ i o a v Hw1 Hi Hv) as (s2 & Ha2 & Hl2 & Hv2).
  assert (Ha3 := insert_same S a (publish s1) s Ha). unfold published in Ha2. simpl in Ha2, Ha3.
  assert (s2 = publish s1) as -> by (injection (eq_trans (eq_sym Ha2) Ha3); done).
  destruct (publish_spec s1 Hi1 Hb) as (_ & Hg & Hm & _).
  assert (Hwaits : q = op_continue i -> wants_result o -> received i r (perform q) (make_world (published S a s1) R
      (<[j := make_promise None (m_consumer_state p)]> P))).
  { intros -> Hwr. eapply continue_receives; try done. by rewrite Hm. }
  unfold receives in Huse. destruct (doing o) as [| | | |[] b] eqn:Hdo; try done; [|apply Hwaits; [done|by left]|apply Hwaits; [done|right; by exists b]].
  assert (Em : m_state o = Some a) by (unfold state_of in Ho; by rewrite Hdo in Ho).
  assert (v = v_rest) as -> by (rewrite (owned_at_rest o Hdo), Em in Hv; simpl in Hv; congruence).
  assert (Hrd : ready r (publish s1)).
  { destruct (resting_cases _ Hl2 Hv2) as [(E' & _)|[x (E1 & E2 & E3)]]; [congruence|].
    rewrite Hm, Hcon in E3. injection E3 as <-. split; [done|]. split; [done|congruence]. }
  destruct Huse as [->|[h ->]]; [by eapply get_receives|by eapply co_await_receives].
Qed.

(** An empty object throws. *)
Lemma if_empty_throws {A} w i msg e (k : result T -> addr -> M exn (world T) A) :
  if_empty w i msg = Some e -> (o ← result_at i; a ← throw_if_empty o msg; k o a) w = (Throw e, w).
Proof.
  unfold if_empty. destruct (results w !! i) as [[[b|] d l]|] eqn:Hi; intros; simplify_eq.
  rewrite (bind_Ok _ _ _ _ _ (result_at_eq w i _ Hi)). done.
Qed.

Lemma if_promise_throws {A} w j msg f e (k : result_promise -> addr -> M exn (world T) A) :
  if_promise w j msg f = Some e ->
  (forall p a, promises w !! j = Some p -> m_producer_state p = Some a -> f p = Some e -> k p a w = (Throw e, w)) ->
  (p ← promise_at j; a ← throw_if_empty_promise p msg; k p a) w = (Throw e, w).
Proof.
  unfold if_promise. destruct (promises w !! j) as [[[b|] c]|] eqn:Hj; intros He Hk; simplify_eq/=;
    rewrite (bind_Ok _ _ _ _ _ (promise_at_eq w j _ Hj)); [|done]. eapply Hk; done.
Qed.

(** [get_result], with the exception and the message that it has. *)
Lemma get_result_throws w j e : misuse (op_get_result j) w = Some e ->
  get_result j w = (match on_misuse (op_get_result j) w e with Throw x => Throw x | _ => Abort end, w).
Proof.
  simpl. unfold if_promise, promise_not_empty, get_result. destruct (promises w !! j) as [[[b|] c]|] eqn:Hj; intros He; simplify_eq/=;
    rewrite (bind_Ok _ _ _ _ _ (promise_at_eq w j _ Hj)); [|done]. by destruct c; simplify_eq/=.
Qed.

(** C30. Wrong uses: an empty result or promise, a null exception pointer, a
    result that was retrieved already, a constructor that throws.  Each throws the
    exception that belongs to it, with its message, and changes nothing; except
    that [get_result] of an empty promise has the right class and the message of
    [result::get], and that [set_from_function] of an empty promise terminates
    the program. *)
Theorem misuse_throws w (p : operation T) e :
  reachable w -> used_objects_exist p w = true -> misuse p w = Some e -> perform p w = (on_misuse p w e, w).
Proof.
  intros Hr _ He. assert (Hw := reachable_world w Hr).
  destruct p as [i|i|i|i|i t n|i [] h| | | | | | | |j c|j c|j c|j| | | | |[?|]]; try done; cbn [perform];
    try (by apply if_empty_throws).
  - eapply if_promise_throws; [exact He|]. intros p a Hj Hp Hf. simpl in *. destruct c as [t|x]; [done|]. injection Hf as <-.
    destruct w as [S R P]. by rewrite (bind_Throw _ _ _ _ _ (set_result_eq S R P j p a (inr x) Hw Hj Hp)).
  - eapply if_promise_throws; [exact He|]. intros p a Hj Hp Hf. by destruct c; simplify_eq/=.
  - unfold set_from_function, noexcept. by erewrite (if_promise_throws w j); [|exact He|].
  - pose proof (get_result_throws w j e He) as Hg. unfold on_misuse in *.
    destruct (promise_not_empty w j); by rewrite (bind_Throw _ _ _ _ _ Hg).
  - by injection He as <-.
Qed.
End theorems.

(** ** Witnesses *)

(** A promise whose result was retrieved, and whose user waits in [get]. *)
Definition getting : list (operation nat) := [op_new_promise; op_get_result 0; op_get 0].
Definition getting_world : world nat := after program_step new_world getting.

Lemma result_states_are_owned_witness :
  is_Abort (perform (op_set_result 0 (inl 7)) getting_world).1 = false.
Proof.
  apply (proj1 (result_states_are_owned getting_world (after_reachable program_step new_world getting))). by vm_compute.
Defined.

(** A result whose coroutine awaits it only when the promise is fulfilled. *)
Definition resting_world : world nat := after program_step new_world [op_new_promise; op_get_result 0].

Lemma promise_delivers_witness :
  (exists w1, perform (op_destroy_promise 0) getting_world = (Ok tt, w1) /\
    received 0 (inr broken_task_error) (perform (op_continue 0)) w1) /\
  exists w1, perform (op_set_result 0 (inl 7)) resting_world = (Ok tt, w1) /\
    received 0 (inl 7) (perform (op_co_await 0 by_co_await 3)) w1.
Proof.
  split.
  - assert (Hj : promises getting_world !! 0 = Some (make_promise (Some 0) None)) by (by vm_compute).
    assert (Hi : results getting_world !! 0 = Some (make_result (Some 0) in_get rv_none)) by (by vm_compute).
    destruct (promise_delivers getting_world 0 0 0 _ _ (op_destroy_promise 0) (op_continue 0) (inr broken_task_error)
      (after_reachable program_step new_world getting) Hj eq_refl Hi eq_refl eq_refl eq_refl) as (w1 & E & _ & H).
    exists w1. split; [exact E|exact H].
  - assert (Hj : promises resting_world !! 0 = Some (make_promise (Some 0) None)) by (by vm_compute).
    assert (Hi : results resting_world !! 0 = Some (make_result (Some 0) at_rest rv_none)) by (by vm_compute).
    destruct (promise_delivers resting_world 0 0 0 _ _ (op_set_result 0 (inl 7)) (op_co_await 0 by_co_await 3) (inl 7)
      (after_reachable program_step new_world [op_new_promise; op_get_result 0]) Hj eq_refl Hi eq_refl eq_refl
      (or_intror (ex_intro _ 3 eq_refl))) as (w1 & E & _ & H).
    exists w1. split; [exact E|exact H].
Defined.

Lemma misuse_throws_witness :
  perform (op_get_result 0) getting_world =
  (Throw (make_exn result_already_retrieved k_result_promise_get_result_already_retrieved_error_msg), getting_world).
Proof.
  apply (misuse_throws getting_world (op_get_result 0) _ (after_reachable program_step new_world getting)); by vm_compute.
Defined.
