(* ===== verification/Generator.v ===== *)
(** * generator

    [include/concurrencpp/results/generator.h] and
    [include/concurrencpp/results/impl/generator_state.h].

    The code of a generator coroutine is the user's: [body] is what it does from
    one suspension point to the next, given its control state and its variables.
    A [co_yield] of an lvalue gives the consumer a pointer to the variable
    itself, which the consumer may write through; a [co_yield] of a temporary, a
    pointer to an object that dies when the coroutine is resumed. *)

From stdpp Require Import prelude list strings.
From Stdlib Require Import ZArith Lia.
From S2P Require Import Prelude Errors.

Local Open Scope list_scope.

(** Frames are numbered. *)
Local Notation addr := nat (only parsing).

(** What a coroutine does when it reaches its next suspension point. *)
Inductive event (T : Type) :=
  | co_yield_lvalue (x : nat)     (* the variable [x] *)
  | co_yield_rvalue (v : T)
  | co_return_void                (* or the end of the body *)
  | co_throw (e : exn).           (* an exception leaves the body *)
Arguments co_yield_lvalue {T} x.
Arguments co_yield_rvalue {T} v.
Arguments co_return_void {T}.
Arguments co_throw {T} e.

(** [value_type*]. *)
Inductive pointer := null_pointer | to_variable (x : nat) | to_temporary.

#[export] Instance pointer_eq_dec : EqDecision pointer.
Proof. solve_decision. Defined.

Section generator.
Context {T L : Type}.
Variable body : L -> list T -> event T * (L * list T).

(** A coroutine frame with its promise, a [generator_state]. *)
Record frame := make_frame {
  control : L;
  variables : list T;
  temporary : option T;          (* of the current co_yield expression *)
  m_value : pointer;
  m_exception : option exn;
  finished : bool;               (* suspended at its final suspension point *)
  destroyed : nat                (* calls of destroy() *)
}.

(** A [generator_iterator] is a coroutine handle, as a [generator] that is not
    empty.  [seen] is what the consumers have looked at. *)
Record world := make_world {
  frames : list frame;
  generators : list (option addr);
  iterators : list addr;
  seen : list T
}.

Definition set_frames v w := make_world v (generators w) (iterators w) (seen w).
Definition set_generators v w := make_world (frames w) v (iterators w) (seen w).
Definition set_iterators v w := make_world (frames w) (generators w) v (seen w).
Definition set_seen v w := make_world (frames w) (generators w) (iterators w) v.

Definition new_world : world := make_world [] [] [] [].

Notation monad := (M exn world).

(** The frame of a handle; using one that was destroyed is undefined. *)
Definition frame_at (a : addr) : monad frame :=
  w ← get_state;
  match frames w !! a with
  | Some c => massert (bool_decide (destroyed c = 0));; mret c
  | None => abort
  end.

Definition put_frame (a : addr) (c : frame) : monad unit :=
  modify (fun w => set_frames (<[a := c]> (frames w)) w).

(** ** generator_state *)

(** The call of the coroutine function: [get_return_object], [initial_suspend]. *)
Definition call_coroutine (l : L) (vs : list T) : monad nat :=
  w ← get_state;
  put_state (set_frames (frames w ++ [make_frame l vs None null_pointer None false 0])
    (set_generators (generators w ++ [Some (length (frames w))]) w));;
  mret (length (generators w)).

(** [yield_value]. *)
Definition yield_value (p : pointer) (t : option T) (l : L) (vs : list T) (c : frame) : frame :=
  make_frame l vs t p (m_exception c) false (destroyed c).

(** [return_void], [unhandled_exception], [final_suspend]: the variables are
    gone. *)
Definition finish (e : option exn) (l : L) (c : frame) : frame :=
  make_frame l [] None (m_value c) (match e with Some _ => e | None => m_exception c end) true (destroyed c).

(** One run of the body: the temporary of the last [co_yield] dies first. *)
Definition run_body (c : frame) : frame :=
  match body (control c) (variables c) with
  | (co_yield_lvalue x, (l, vs)) => yield_value (to_variable x) None l vs c
  | (co_yield_rvalue v, (l, vs)) => yield_value to_temporary (Some v) l vs c
  | (co_return_void, (l, _)) => finish None l c
  | (co_throw e, (l, _)) => finish (Some e) l c
  end.

(** [handle.resume()] of a coroutine that is done is undefined. *)
Definition resume (a : addr) : monad unit :=
  c ← frame_at a;
  massert (negb (finished c));;
  put_frame a (run_body c).

Definition done (a : addr) : monad bool :=
  c ← frame_at a; mret (finished c).

Definition destroy (a : addr) : monad unit :=
  c ← frame_at a;
  put_frame a (make_frame (control c) [] None (m_value c) (m_exception c) (finished c) (S (destroyed c))).

Definition throw_if_exception (a : addr) : monad unit :=
  c ← frame_at a;
  match m_exception c with Some e => throw e | None => mret tt end.

(** What [m_value] points to; a dangling pointer points to nothing. *)
Definition pointee (c : frame) : option T :=
  match m_value c with
  | null_pointer => None
  | to_variable x => variables c !! x
  | to_temporary => temporary c
  end.

Definition value (a : addr) : monad T :=
  c ← frame_at a;
  massert (bool_decide (m_value c <> null_pointer));;
  match pointee c with Some v => mret v | None => abort end.

(** [*it = v]: [value()] returns a reference. *)
Definition write_value (a : addr) (v : T) : monad unit :=
  value a;;
  c ← frame_at a;
  put_frame a
    match m_value c with
    | to_variable x =>
        make_frame (control c) (<[x := v]> (variables c)) (temporary c) (m_value c) (m_exception c) (finished c) (destroyed c)
    | _ =>
        make_frame (control c) (variables c) (Some v) (m_value c) (m_exception c) (finished c) (destroyed c)
    end.

(** ** generator and generator_iterator *)
Definition generator_at (i : nat) : monad (option addr) :=
  w ← get_state;
  match generators w !! i with Some g => mret g | None => abort end.

Definition put_generator (i : nat) (g : option addr) : monad unit :=
  modify (fun w => set_generators (<[i := g]> (generators w)) w).

Definition iterator_at (k : nat) : monad addr :=
  w ← get_state;
  match iterators w !! k with Some a => mret a | None => abort end.

(** [generator(generator&& rhs)]. *)
Definition move_generator (i : nat) : monad nat :=
  g ← generator_at i;
  put_generator i None;;
  w ← get_state;
  put_state (set_generators (generators w ++ [g]) w);;
  mret (length (generators w)).

(** [~generator]. *)
Definition destroy_generator (i : nat) : monad unit :=
  g ← generator_at i;
  put_generator i None;;
  match g with Some a => destroy a | None => mret tt end.

(** The coroutine runs; an exception that left it is thrown here. *)
Definition advance (a : addr) : monad unit :=
  d ← done a;
  massert (negb d);;
  resume a;;
  d ← done a;
  if (d : bool) then throw_if_exception a else mret tt.

Definition begin (i : nat) : monad nat :=
  g ← generator_at i;
  match g with
  | None => throw (make_exn empty_generator k_empty_generator_begin_err_msg)
  | Some a =>
      advance a;;
      w ← get_state;
      put_state (set_iterators (iterators w ++ [a]) w);;
      mret (length (iterators w))
  end.

(** [++it]. *)
Definition increment (k : nat) : monad unit := a ← iterator_at k; advance a.

(** [*it], and [*it = v]. *)
Definition dereference (k : nat) : monad T := a ← iterator_at k; value a.
Definition assign (k : nat) (v : T) : monad unit := a ← iterator_at k; write_value a v.

(** [it == end()]. *)
Definition equal_end (k : nat) : monad bool := a ← iterator_at k; done a.

Definition see (v : T) : monad unit := modify (fun w => set_seen (seen w ++ [v]) w).

(** ** The range-for loop

    [for (auto& v : gen) { look at v; v = f(v); if (n more were seen) break; }]. *)
Fixpoint loop (f : T -> T) (n : nat) (k : nat) : monad unit :=
  d ← equal_end k;
  if (d : bool) then mret tt
  else
    v ← dereference k;
    see v;;
    assign k (f v);;
    match n with
    | 0 => mret tt
    | S n => increment k;; loop f n k
    end.

Definition range_for (f : T -> T) (n : nat) (i : nat) : monad unit :=
  k ← begin i; loop f n k.

(** The generator is a temporary of the loop. *)
Definition for_each (f : T -> T) (n : nat) (l : L) (vs : list T) : monad unit :=
  i ← call_coroutine l vs;
  try_catch (range_for f n i) (fun e => destroy_generator i;; throw e);;
  destroy_generator i.

(** *** What the loop means: the body and the loop, run alternately *)
Inductive ending := broke | ended | threw (e : exn).

Fixpoint produced (f : T -> T) (n : nat) (l : L) (vs : list T) : list T * ending :=
  let yields v l vs :=
    match n with
    | 0 => ([v], broke)
    | S n => let r := produced f n l vs in (v :: r.1, r.2)
    end in
  match body l vs with
  | (co_yield_lvalue x, (l, vs)) =>
      match vs !! x with
      | Some v => yields v l (<[x := f v]> vs)
      | None => ([], ended)
      end
  | (co_yield_rvalue v, (l, vs)) => yields v l vs
  | (co_return_void, _) => ([], ended)
  | (co_throw e, _) => ([], threw e)
  end.

(** ** What a program does *)
Inductive operation :=
  | op_call (l : L) (vs : list T)
  | op_move (i : nat) | op_destroy (i : nat)
  | op_begin (i : nat) | op_increment (k : nat)
  | op_dereference (k : nat) | op_assign (k : nat) (v : T) | op_equal_end (k : nat).

Definition perform (o : operation) : monad unit :=
  match o with
  | op_call l vs => call_coroutine l vs;; mret tt
  | op_move i => move_generator i;; mret tt
  | op_destroy i => destroy_generator i
  | op_begin i => begin i;; mret tt
  | op_increment k => increment k
  | op_dereference k => v ← dereference k; see v
  | op_assign k v => assign k v
  | op_equal_end k => equal_end k;; mret tt
  end.

(** The program uses what exists, and goes on neither with a generator nor with
    an iterator that is at the end. *)
Definition running (w : world) (a : addr) : bool :=
  match frames w !! a with
  | Some c => negb (finished c) && bool_decide (destroyed c = 0)
  | None => false
  end.
Definition alive (w : world) (a : addr) : bool :=
  match frames w !! a with Some c => bool_decide (destroyed c = 0) | None => false end.

Definition allowed (o : operation) (w : world) : bool :=
  match o with
  | op_call _ _ => true
  | op_move i | op_destroy i => match generators w !! i with Some _ => true | None => false end
  | op_begin i => match generators w !! i with
                  | Some (Some a) => running w a
                  | Some None => true
                  | None => false
                  end
  | op_increment k | op_dereference k | op_assign k _ =>
      match iterators w !! k with Some a => running w a | None => false end
  | op_equal_end k => match iterators w !! k with Some a => alive w a | None => false end
  end.

Definition program_step (o : operation) (w : world) : option world :=
  if allowed o w then Some (perform o w).2 else None.

(** A [co_yield] of an lvalue names a variable of the frame. *)
Definition yields_variables : Prop :=
  forall l vs, match body l vs with
               | (co_yield_lvalue x, (_, vs')) => x < length vs'
               | _ => True
               end.
End generator.
Arguments world : clear implicits.
Arguments operation : clear implicits.
