(* ===== verification/GeneratorTheorems.v ===== *)
(** * generator: theorems *)

From stdpp Require Import prelude list strings.
From Stdlib Require Import ZArith Lia.
From S2P Require Import Prelude Errors Generator.

Local Open Scope list_scope.

(** ** The range-for loop *)
Section range_for.
Context {T L : Type} (body : L -> list T -> event T * (L * list T)).
Hypothesis Hbody : yields_variables body.
Notation world := (world T L).
Implicit Types w : world.

Local Ltac known E := rewrite (bind_Ok _ _ _ _ _ E).

Lemma frame_at_eq w a c : frames w !! a = Some c -> destroyed c = 0 -> frame_at a w = (Ok c, w).
Proof.
  intros E Hd. unfold frame_at, mbind, M_bind, get_state, massert. simpl. rewrite E.
  by rewrite bool_decide_eq_true_2.
Qed.

Lemma done_eq w a c : frames w !! a = Some c -> destroyed c = 0 -> done a w = (Ok (finished c), w).
Proof. intros E Hd. unfold done. by known (frame_at_eq w a c E Hd). Qed.

Lemma lookup_put {A} (l : list A) a x y : l !! a = Some x -> <[a := y]> l !! a = Some y.
Proof. intros E. apply list_lookup_insert_eq. by eapply lookup_lt_Some. Qed.

Lemma run_body_destroyed c : destroyed (run_body body c) = destroyed c.
Proof. unfold run_body. by destruct (body _ _) as [[] []]. Qed.

(** A coroutine that is not done runs to its next suspension point. *)
Lemma advance_eq w a c :
  frames w !! a = Some c -> destroyed c = 0 -> finished c = false ->
  advance body a w =
  (if finished (run_body body c)
   then match m_exception (run_body body c) with Some e => Throw e | None => Ok tt end
   else Ok tt, set_frames (<[a := run_body body c]> (frames w)) w).
Proof.
  intros E Hd Hf. unfold advance. known (done_eq w a c E Hd). rewrite Hf.
  set (w1 := set_frames (<[a := run_body body c]> (frames w)) w).
  assert (E1 : frames w1 !! a = Some (run_body body c)) by (by eapply lookup_put).
  assert (Hd1 : destroyed (run_body body c) = 0) by (by rewrite run_body_destroyed).
  assert (Er : resume body a w = (Ok tt, w1)).
  { unfold resume. known (frame_at_eq w a c E Hd). rewrite Hf. done. }
  rewrite (bind_Ok _ _ w tt w) by done. known Er. known (done_eq w1 a _ E1 Hd1).
  destruct (finished (run_body body c)); [|done]. unfold throw_if_exception. known (frame_at_eq w1 a _ E1 Hd1).
  by destruct (m_exception (run_body body c)).
Qed.

Lemma value_eq w a c v :
  frames w !! a = Some c -> destroyed c = 0 -> pointee c = Some v -> value a w = (Ok v, w).
Proof.
  intros E Hd Hp. unfold value. known (frame_at_eq w a c E Hd). rewrite Hp.
  assert (m_value c <> null_pointer) by (unfold pointee in Hp; by destruct (m_value c)).
  by rewrite bool_decide_eq_true_2.
Qed.

(** The consumer writes through the reference. *)
Definition written (v : T) (c : frame (T := T) (L := L)) : frame :=
  match m_value c with
  | to_variable x =>
      make_frame (control c) (<[x := v]> (variables c)) (temporary c) (m_value c) (m_exception c) (finished c) (destroyed c)
  | _ => make_frame (control c) (variables c) (Some v) (m_value c) (m_exception c) (finished c) (destroyed c)
  end.

Lemma write_value_eq w a c v u :
  frames w !! a = Some c -> destroyed c = 0 -> pointee c = Some u ->
  write_value a v w = (Ok tt, set_frames (<[a := written v c]> (frames w)) w).
Proof.
  intros E Hd Hp. unfold write_value. known (value_eq w a c u E Hd Hp). known (frame_at_eq w a c E Hd).
  unfold written. by destruct (m_value c).
Qed.

(** The next run of the body, and what it is in terms of the loop. *)
Inductive next_run (c : frame (T := T) (L := L)) : Prop :=
  | next_yields v :
      finished (run_body body c) = false -> m_exception (run_body body c) = None -> pointee (run_body body c) = Some v ->
      (forall f n, produced body f n (control c) (variables c) =
        match n with
        | 0 => ([v], broke)
        | S n => let c2 := written (f v) (run_body body c) in
                 let r := produced body f n (control c2) (variables c2) in (v :: r.1, r.2)
        end) -> next_run c
  | next_ends :
      finished (run_body body c) = true -> m_exception (run_body body c) = None ->
      (forall f n, produced body f n (control c) (variables c) = ([], ended)) -> next_run c
  | next_throws e :
      finished (run_body body c) = true -> m_exception (run_body body c) = Some e ->
      (forall f n, produced body f n (control c) (variables c) = ([], threw e)) -> next_run c.

Lemma runs_next c : m_exception c = None -> next_run c.
Proof.
  intros He. assert (Hx := Hbody (control c) (variables c)).
  destruct (body (control c) (variables c)) as [[x|u| |e] [l vs]] eqn:Eb.
  - apply lookup_lt_is_Some in Hx as [v Hv].
    apply (next_yields c v); unfold run_body; rewrite Eb; try done.
    intros f [|n]; simpl; by rewrite Eb, Hv.
  - apply (next_yields c u); unfold run_body; rewrite Eb; try done. intros f [|n]; simpl; by rewrite Eb.
  - apply next_ends; unfold run_body; rewrite ?Eb; try done. intros f [|n]; simpl; by rewrite Eb.
  - apply (next_throws c e); unfold run_body; rewrite ?Eb; try done. intros f [|n]; simpl; by rewrite Eb.
Qed.

Lemma written_fields v c :
  m_exception (written v c) = m_exception c /\ finished (written v c) = finished c /\ destroyed (written v c) = destroyed c.
Proof. unfold written. by destruct (m_value c). Qed.

(** The result of a loop. *)
Definition outcome_of (e : ending) : outcome exn unit := match e with threw e => Throw e | _ => Ok tt end.

Definition looked_at w (a : nat) (vs : list T) (c : frame) : world :=
  set_seen (seen w ++ vs) (set_frames (<[a := c]> (frames w)) w).

Definition frame_after (c c' : frame (T := T) (L := L)) : Prop := destroyed c' = destroyed c.

Lemma looked_at_frame w a vs c c' : frames w !! a = Some c -> frames (looked_at w a vs c') !! a = Some c'.
Proof. intros E. by eapply lookup_put. Qed.

Lemma looked_at_looked_at w a vs us c c' : looked_at (looked_at w a vs c) a us c' = looked_at w a (vs ++ us) c'.
Proof. unfold looked_at, set_seen, set_frames. simpl. by rewrite list_insert_insert_eq, app_assoc. Qed.

Lemma looked_at_nothing w a c : frames w !! a = Some c -> looked_at w a [] c = w.
Proof.
  intros E. unfold looked_at, set_seen, set_frames. simpl. rewrite list_insert_id, app_nil_r by done. by destruct w.
Qed.

Lemma iterator_at_eq w k a : iterators w !! k = Some a -> iterator_at k w = (Ok a, w).
Proof. intros E. unfold iterator_at, mbind, M_bind, get_state. simpl. by rewrite E. Qed.

Lemma increment_eq w k a : iterators w !! k = Some a -> increment body k w = advance body a w.
Proof. intros E. unfold increment. by known (iterator_at_eq w k a E). Qed.

(** One round of the loop. *)
Lemma visit_eq f n w k a c v :
  iterators w !! k = Some a -> frames w !! a = Some c -> destroyed c = 0 -> finished c = false -> pointee c = Some v ->
  loop body f n k w =
  (match n with 0 => mret tt | S n => increment body k;; loop body f n k end) (looked_at w a [v] (written (f v) c)).
Proof.
  intros Hk Ha Hd Hf Hp. set (w1 := set_seen (seen w ++ [v]) w).
  assert (Ee : equal_end k w = (Ok false, w)).
  { unfold equal_end. known (iterator_at_eq w k a Hk). by rewrite (done_eq w a c Ha Hd), Hf. }
  assert (Ev : dereference k w = (Ok v, w)).
  { unfold dereference. known (iterator_at_eq w k a Hk). by eapply value_eq. }
  assert (Ea : assign k (f v) w1 = (Ok tt, looked_at w a [v] (written (f v) c))).
  { unfold assign. known (iterator_at_eq w1 k a Hk). by rewrite (write_value_eq w1 a c (f v) v Ha Hd Hp). }
  destruct n as [|n]; cbn [loop]; known Ee; known Ev; rewrite (bind_Ok _ _ w tt w1) by done; by known Ea.
Qed.

(** What a loop over the coroutine [c], about to be resumed, does. *)
Definition loops f n w a c (m : M exn world unit) w0 : Prop :=
  exists c', destroyed c' = destroyed c /\
    m w0 = (outcome_of (produced body f n (control c) (variables c)).2,
            looked_at w a (produced body f n (control c) (variables c)).1 c').

(** The coroutine is resumed, then the loop goes on. *)
Lemma increment_loop_eq f n w k a c :
  iterators w !! k = Some a -> frames w !! a = Some c -> destroyed c = 0 -> finished c = false -> m_exception c = None ->
  (m_exception (run_body body c) = None ->
   loops f n w a c (loop body f n k) (set_frames (<[a := run_body body c]> (frames w)) w)) ->
  loops f n w a c (increment body k;; loop body f n k) w.
Proof.
  intros Hk Ha Hd Hf He IH. assert (E := advance_eq w a c Ha Hd Hf). rewrite <-(increment_eq w k a Hk) in E.
  destruct (runs_next c He) as [v H1 H2 H3 H4|H1 H2 H3|e H1 H2 H3]; rewrite H1, ?H2 in E.
  - destruct (IH H2) as (c' & Hc & E'). exists c'. by known E.
  - destruct (IH H2) as (c' & Hc & E'). exists c'. by known E.
  - exists (run_body body c). split; [apply run_body_destroyed|]. rewrite (bind_Throw _ _ _ _ _ E), H3.
    unfold looked_at, set_seen. simpl. by rewrite app_nil_r.
Qed.

Lemma loop_ends f n w k a c c0 :
  iterators w !! k = Some a -> frames w !! a = Some c0 -> destroyed c = 0 ->
  finished (run_body body c) = true -> (forall f n, produced body f n (control c) (variables c) = ([], ended)) ->
  loops f n w a c (loop body f n k) (set_frames (<[a := run_body body c]> (frames w)) w).
Proof.
  intros Hk Ha Hd Hf Hp. exists (run_body body c). split; [apply run_body_destroyed|]. rewrite Hp.
  set (w1 := set_frames (<[a := run_body body c]> (frames w)) w).
  assert (Ee : equal_end k w1 = (Ok true, w1)).
  { unfold equal_end. known (iterator_at_eq w1 k a Hk).
    rewrite (done_eq w1 a (run_body body c)), Hf; [done|by eapply lookup_put|by rewrite run_body_destroyed]. }
  assert (E : loop body f n k w1 = (Ok tt, w1)) by (destruct n; cbn [loop]; by known Ee).
  rewrite E. unfold looked_at, set_seen. simpl. rewrite app_nil_r. done.
Qed.

(** The loop, when the coroutine was just resumed without throwing. *)
Lemma loop_eq f n : forall w k a c,
  iterators w !! k = Some a -> is_Some (frames w !! a) -> destroyed c = 0 -> m_exception c = None ->
  m_exception (run_body body c) = None ->
  loops f n w a c (loop body f n k) (set_frames (<[a := run_body body c]> (frames w)) w).
Proof.
  induction n as [|n IH]; intros w k a c Hk [c0 Ha] Hd He He';
    set (w1 := set_frames (<[a := run_body body c]> (frames w)) w);
    (assert (Ha1 : frames w1 !! a = Some (run_body body c)) by (by eapply lookup_put));
    (assert (Hd1 : destroyed (run_body body c) = 0) by (by rewrite run_body_destroyed));
    (destruct (runs_next c He) as [v H1 _ H3 H4|H1 _ H3|e _ H2 _]; [| |congruence]).
  - exists (written (f v) (run_body body c)). rewrite (visit_eq f 0 w1 k a _ v), H4 by done.
    split; [destruct (written_fields (f v) (run_body body c)) as (_ & _ & W); congruence|].
    unfold looked_at, set_seen, set_frames. simpl. by rewrite list_insert_insert_eq.
  - by apply (loop_ends f 0 w k a c c0).
  - destruct (written_fields (f v) (run_body body c)) as (W1 & W2 & W3).
    destruct (increment_loop_eq f n (looked_at w1 a [v] (written (f v) (run_body body c))) k a (written (f v) (run_body body c)))
      as (c' & Hc' & E); try done.
    + by eapply looked_at_frame.
    + congruence.
    + congruence.
    + congruence.
    + intros Hn. apply IH; [done|by eexists; eapply looked_at_frame|congruence..].
    + exists c'. rewrite (visit_eq f (S n) w1 k a _ v), H4 by done.
      split; [congruence|].
      rewrite E. cbn zeta. simpl. f_equal. rewrite looked_at_looked_at. unfold w1, looked_at, set_frames, set_seen. simpl.
      by rewrite list_insert_insert_eq.
  - by apply (loop_ends f (S n) w k a c c0).
Qed.

(** ** for_each *)

Definition destroyed_frame (c : frame (T := T) (L := L)) : frame (T := T) (L := L) :=
  make_frame (control c) [] None (m_value c) (m_exception c) (finished c) (S (destroyed c)).

Lemma destroy_generator_eq w i a c :
  generators w !! i = Some (Some a) -> frames w !! a = Some c -> destroyed c = 0 ->
  destroy_generator i w =
  (Ok tt, set_frames (<[a := destroyed_frame c]> (frames w)) (set_generators (<[i := None]> (generators w)) w)).
Proof.
  intros Hi Ha Hd. unfold destroy_generator, generator_at, put_generator, destroy.
  rewrite (bind_Ok _ _ w (Some a) w) by (unfold mbind, M_bind, get_state; simpl; by rewrite Hi).
  rewrite (bind_Ok _ _ w tt (set_generators (<[i := None]> (generators w)) w)) by done.
  by known (frame_at_eq (set_generators (<[i := None]> (generators w)) w) a c Ha Hd).
Qed.

(** The loop and the destruction of the generator. *)
Lemma range_for_eq f n w i a c :
  generators w !! i = Some (Some a) -> frames w !! a = Some c -> destroyed c = 0 -> finished c = false -> m_exception c = None ->
  exists its, loops f n (set_iterators its w) a c (range_for body f n i) w.
Proof.
  intros Hi Ha Hd Hf He. assert (Ea := advance_eq w a c Ha Hd Hf).
  assert (Eg : generator_at i w = (Ok (Some a), w)) by (unfold generator_at, mbind, M_bind, get_state; simpl; by rewrite Hi).
  assert (Hgo : finished (run_body body c) = false \/ m_exception (run_body body c) = None ->
    m_exception (run_body body c) = None ->
    exists its, loops f n (set_iterators its w) a c (range_for body f n i) w).
  { intros _ Hn. rewrite Hn in Ea. set (w1 := set_frames (<[a := run_body body c]> (frames w)) w) in *.
    assert (Ea' : advance body a w = (Ok tt, w1)) by (rewrite Ea; by destruct (finished (run_body body c))).
    exists (iterators w ++ [a]).
    destruct (loop_eq f n (set_iterators (iterators w ++ [a]) w) (length (iterators w)) a c) as (c' & Hc & E); try done.
    - by apply list_lookup_middle.
    - exists c'. split; [done|]. unfold range_for.
      rewrite (bind_Ok _ _ w (length (iterators w)) (set_iterators (iterators w ++ [a]) w1)); [exact E|].
      unfold begin. known Eg. by known Ea'. }
  destruct (runs_next c He) as [v H1 H2 H3 H4|H1 H2 H3|e H1 H2 H3]; [by apply Hgo; auto|by apply Hgo; auto|].
  exists (iterators w). exists (run_body body c). split; [apply run_body_destroyed|]. rewrite H3. rewrite H1, H2 in Ea.
  unfold range_for. rewrite (bind_Throw _ _ w e (set_frames (<[a := run_body body c]> (frames w)) w)).
  - unfold looked_at, set_seen. simpl. rewrite app_nil_r. by destruct w.
  - unfold begin. known Eg. by rewrite (bind_Throw _ _ _ _ _ Ea).
Qed.

(** C31. [for (auto& v : coroutine(...))], broken off after [n + 1] values: what
    the loop sees is what the body and the loop produce when they run
    alternately, each going on with what the other left in the variable that was
    yielded; an exception that leaves the body leaves the loop, and the coroutine
    is destroyed, once, in every case. *)
Theorem for_each_is_alternation f n l vs w :
  let r := produced body f n l vs in
  exists c w', for_each body f n l vs w = (outcome_of r.2, w') /\
    seen w' = seen w ++ r.1 /\ destroyed c = 1 /\ frames w' = frames w ++ [c] /\ generators w' = generators w ++ [None].
Proof.
  simpl. set (c0 := make_frame l vs None null_pointer None false 0).
  set (w1 := set_frames (frames w ++ [c0]) (set_generators (generators w ++ [Some (length (frames w))]) w)).
  assert (Hi : generators w1 !! length (generators w) = Some (Some (length (frames w)))) by (by apply list_lookup_middle).
  assert (Ha : frames w1 !! length (frames w) = Some c0) by (by apply list_lookup_middle).
  destruct (range_for_eq f n w1 _ _ c0 Hi Ha eq_refl eq_refl eq_refl) as (its & c' & Hc & E).
  set (r := produced body f n (control c0) (variables c0)) in *. change (produced body f n l vs) with r.
  set (w2 := looked_at (set_iterators its w1) (length (frames w)) r.1 c') in *.
  assert (Ed := destroy_generator_eq w2 (length (generators w)) (length (frames w)) c' Hi
    (looked_at_frame _ _ r.1 c0 c' Ha) Hc).
  exists (destroyed_frame c'). eexists. split; [|split; [|split; [|split]]].
  - unfold for_each. rewrite (bind_Ok _ _ w (length (generators w)) w1) by done.
    unfold try_catch at 1. unfold mbind, M_bind. rewrite E. destruct r.2; simpl; by rewrite Ed.
  - done.
  - simpl. by rewrite Hc.
  - simpl. rewrite list_insert_insert_eq. by rewrite insert_app_r_alt, Nat.sub_diag by lia.
  - simpl. by rewrite insert_app_r_alt, Nat.sub_diag by lia.
Qed.
End range_for.

(** ** Any use of generators and iterators *)
Section safety.
Context {T L : Type} (body : L -> list T -> event T * (L * list T)).
Hypothesis Hbody : yields_variables body.
Notation world := (world T L).
Implicit Types w : world.
Notation reachable := (reachable (program_step body) new_world).

Local Ltac known E := rewrite (bind_Ok _ _ _ _ _ E).

(** A value can be looked at where an iterator stands. *)
Definition standing (c : frame (T := T) (L := L)) : Prop :=
  finished c = false -> is_Some (pointee c).

Record winv w : Prop := {
  w_unique : forall i j a, generators w !! i = Some (Some a) -> generators w !! j = Some (Some a) -> i = j;
  w_owned : forall i a, generators w !! i = Some (Some a) -> is_Some (frames w !! a);
  w_frames : forall a c, frames w !! a = Some c ->
    destroyed c <= 1 /\ (destroyed c = 0 <-> exists i, generators w !! i = Some (Some a)) /\
    (finished c = false -> m_exception c = None);
  w_iterators : forall k a, iterators w !! k = Some a -> exists c, frames w !! a = Some c /\ (destroyed c = 0 -> standing c)
}.

Definition safe {A} (m : M exn world A) w : Prop := is_Abort (m w).1 = false /\ winv (m w).2.

Lemma generator_safe_after {A B} (m : M exn world A) (k : A -> M exn world B) w a w' :
  m w = (Ok a, w') -> safe (k a) w' -> safe (m ≫= k) w.
Proof. intros E Hs. unfold safe. by rewrite (bind_Ok _ _ _ _ _ E). Qed.

(** A frame changes, but neither its owner nor its end. *)
Lemma winv_put w a c c' :
  winv w -> frames w !! a = Some c -> destroyed c' = destroyed c -> (finished c' = false -> m_exception c' = None) ->
  (standing c -> standing c') -> winv (set_frames (<[a := c']> (frames w)) w).
Proof.
  intros [] Ha Hd He Hs. assert (Hlt : a < length (frames w)) by (by eapply lookup_lt_Some).
  constructor; simpl; try done.
  - intros i b Hi. apply w_owned0 in Hi as [x Hx]. destruct (decide (a = b)) as [->|]; [by rewrite list_lookup_insert_eq|].
    by rewrite list_lookup_insert_ne by done.
  - intros b x. destruct (decide (a = b)) as [->|]; [rewrite list_lookup_insert_eq by done|rewrite list_lookup_insert_ne by done; by apply w_frames0].
    intros [= <-]. rewrite Hd. destruct (w_frames0 b c Ha) as (H1 & H2 & _). done.
  - intros k b Hk. destruct (w_iterators0 k b Hk) as (x & Hx & Hx'). destruct (decide (a = b)) as [->|].
    + exists c'. rewrite list_lookup_insert_eq by done. split; [done|]. rewrite Hd. simplify_eq. auto.
    + exists x. by rewrite list_lookup_insert_ne by done.
Qed.

Lemma running_frame w a : running w a = true -> exists c, frames w !! a = Some c /\ destroyed c = 0 /\ finished c = false.
Proof.
  unfold running. destruct (frames w !! a) as [c|] eqn:E; [|done]. intros [H1 H2]%andb_prop.
  exists c. apply bool_decide_eq_true in H2. by destruct (finished c).
Qed.

Lemma run_body_stands c : m_exception c = None -> standing (run_body body c) /\
  (finished (run_body body c) = false -> m_exception (run_body body c) = None).
Proof. intros He. destruct (runs_next body Hbody c He) as [v H1 H2 H3 _|H1 H2 _|e H1 H2 _]; split; unfold standing; congruence || eauto. Qed.

Lemma advance_safe w a : winv w -> running w a = true ->
  exists c, frames w !! a = Some c /\ standing (run_body body c) /\
    let w' := set_frames (<[a := run_body body c]> (frames w)) w in
    winv w' /\ (advance body a w = (Ok tt, w') \/ exists e, advance body a w = (Throw e, w')).
Proof.
  intros Hw Hr. destruct (running_frame w a Hr) as (c & Ha & Hd & Hf). exists c.
  destruct (w_frames w Hw a c Ha) as (_ & _ & He). destruct (run_body_stands c (He Hf)) as [Hs He'].
  split; [done|]. split; [done|]. split.
  - eapply winv_put; try done. apply run_body_destroyed.
  - rewrite (advance_eq body w a c Ha Hd Hf). destruct (finished (run_body body c)); [|by left].
    destruct (m_exception (run_body body c)); eauto.
Qed.

Lemma begin_safe w i :
  winv w -> allowed (op_begin i) w = true -> safe (begin body i;; mret tt) w.
Proof.
  intros Hw Ha. simpl in Ha. destruct (generators w !! i) as [[a|]|] eqn:Hi; try done.
  - assert (Eg : generator_at i w = (Ok (Some a), w)) by (unfold generator_at, mbind, M_bind, get_state; simpl; by rewrite Hi).
    destruct (advance_safe w a Hw Ha) as (c & Hc & Hs & Hw' & [E|[e E]]).
    + eapply generator_safe_after; [unfold begin; known Eg; by known E|]. split; [done|]. simpl. destruct Hw' as [].
      constructor; simpl in *; try done. intros k b. rewrite lookup_app_Some. intros [Hk|[Hk Hb]]; [by apply (w_iterators0 k b)|].
      apply list_lookup_singleton_Some in Hb as [_ <-]. exists (run_body body c). split; [by eapply lookup_put|done].
    + unfold safe. assert (E' : begin body i w = (Throw e, set_frames (<[a:=run_body body c]> (frames w)) w)).
      { unfold begin. known Eg. by rewrite (bind_Throw _ _ _ _ _ E). }
      by rewrite (bind_Throw _ _ _ _ _ E').
  - unfold safe, begin, generator_at, mbind, M_bind, get_state. simpl. rewrite Hi. by split.
Qed.

Lemma iterator_frame w k a : winv w -> iterators w !! k = Some a -> running w a = true ->
  exists c v, frames w !! a = Some c /\ destroyed c = 0 /\ pointee c = Some v.
Proof.
  intros Hw Hk Hr. destruct (running_frame w a Hr) as (c & Hc & Hd & Hf).
  destruct (w_iterators w Hw k a Hk) as (c' & Hc' & Hs). simplify_eq. destruct (Hs Hd Hf) as [v Hv]. eauto.
Qed.

Lemma call_safe l vs w : winv w -> safe (call_coroutine l vs;; mret tt) w.
Proof.
  intros Hw. split; [done|]. simpl. destruct Hw as []. constructor; simpl.
  - intros i j a. rewrite !lookup_app_Some. intros [Hi|[Hi Hi']] [Hj|[Hj Hj']]; eauto.
    + apply list_lookup_singleton_Some in Hj' as [_ [= <-]]. destruct (w_owned0 _ _ Hi) as [c Hc%lookup_lt_Some]. lia.
    + apply list_lookup_singleton_Some in Hi' as [_ [= <-]]. destruct (w_owned0 _ _ Hj) as [c Hc%lookup_lt_Some]. lia.
    + apply list_lookup_singleton_Some in Hi' as [Hi' _], Hj' as [Hj' _]. lia.
  - intros i a. rewrite lookup_app_Some. intros [Hi|[_ Hi]].
    + destruct (w_owned0 _ _ Hi) as [c Hc]. exists c. by rewrite lookup_app_l by (by eapply lookup_lt_Some).
    + apply list_lookup_singleton_Some in Hi as [_ [= <-]]. by rewrite list_lookup_middle.
  - intros a c. rewrite lookup_app_Some. intros [Hc|[Ha Hc]].
    + destruct (w_frames0 a c Hc) as (H1 & H2 & H3). split; [done|]. split; [|done]. rewrite H2.
      split; intros [i Hi]; exists i; [by rewrite lookup_app_l by (by eapply lookup_lt_Some)|].
      apply lookup_app_Some in Hi as [Hi|[_ Hi]]; [done|].
      apply list_lookup_singleton_Some in Hi as [_ [= <-]]. apply lookup_lt_Some in Hc. lia.
    + apply list_lookup_singleton_Some in Hc as [Ha' <-]. simpl. split; [lia|]. split; [|done]. split; [intros _|done].
      exists (length (generators w)). rewrite list_lookup_middle by done. do 2 f_equal. lia.
  - intros k a Hk. destruct (w_iterators0 k a Hk) as (c & Hc & Hs). exists c.
    by rewrite lookup_app_l by (by eapply lookup_lt_Some).
Qed.

Lemma generator_at_eq w i g : generators w !! i = Some g -> generator_at i w = (Ok g, w).
Proof. intros E. unfold generator_at, mbind, M_bind, get_state. simpl. by rewrite E. Qed.

Lemma move_safe i w : winv w -> match generators w !! i with Some _ => true | None => false end = true ->
  safe (move_generator i;; mret tt) w.
Proof.
  intros Hw Ha. destruct (generators w !! i) as [g|] eqn:Hi; [|done].
  assert (Hlt : i < length (generators w)) by (by eapply lookup_lt_Some).
  eapply (generator_safe_after _ _ _ (length (generators w)) (set_generators (<[i := None]> (generators w) ++ [g]) w)).
  { unfold move_generator. known (generator_at_eq w i g Hi). unfold put_generator, mbind, M_bind. simpl. by rewrite length_insert. }
  assert (Hg : forall j a, (<[i := None]> (generators w) ++ [g]) !! j = Some (Some a) <->
             (j < length (generators w) /\ j <> i /\ generators w !! j = Some (Some a)) \/ (j = length (generators w) /\ g = Some a)).
  { intros j a. rewrite lookup_app_Some, length_insert. split.
    - intros [Hj|[Hj Hj']].
      + left. destruct (decide (j = i)) as [->|]; [by rewrite list_lookup_insert_eq in Hj|].
        rewrite list_lookup_insert_ne in Hj by done. split; [by eapply lookup_lt_Some|done].
      + apply list_lookup_singleton_Some in Hj' as [? ?]. right. split; [lia|done].
    - intros [(H1 & H2 & H3)|[-> ->]]; [left; by rewrite list_lookup_insert_ne|right]. by rewrite Nat.sub_diag. }
  assert (Hex : forall a, (exists j, (<[i := None]> (generators w) ++ [g]) !! j = Some (Some a)) <-> exists j, generators w !! j = Some (Some a)).
  { intros a. split.
    - intros [j [(_ & _ & Hj)|[_ ->]]%Hg]; eauto.
    - intros [j Hj]. destruct (decide (j = i)) as [->|Hne].
      + exists (length (generators w)). apply Hg. right. split; [done|congruence].
      + exists j. apply Hg. left. split; [by eapply lookup_lt_Some|done]. }
  split; [done|]. simpl. destruct Hw as []. constructor; simpl; try done.
  - intros j k a [(H1 & H2 & H3)|[-> ->]]%Hg [(H4 & H5 & H6)|[-> H7]]%Hg; simplify_eq; eauto; exfalso; eauto.
  - intros j a Hj. destruct (proj1 (Hex a) (ex_intro _ j Hj)) as [k Hk]. eauto.
  - intros a c Hc. destruct (w_frames0 a c Hc) as (H1 & H2 & H3). by rewrite Hex.
Qed.

Lemma destroy_safe i w : winv w -> match generators w !! i with Some _ => true | None => false end = true ->
  safe (destroy_generator i) w.
Proof.
  intros Hw Ha. destruct (generators w !! i) as [[a|]|] eqn:Hi; try done.
  - destruct (w_owned w Hw i a Hi) as [c Hc]. destruct (w_frames w Hw a c Hc) as (Hd & Hd' & He).
    assert (Hd0 : destroyed c = 0) by (apply Hd'; eauto).
    assert (Hlt : i < length (generators w)) by (by eapply lookup_lt_Some).
    assert (Hlt' : a < length (frames w)) by (by eapply lookup_lt_Some).
    unfold safe. rewrite (destroy_generator_eq w i a c Hi Hc Hd0). split; [done|].
    assert (Hg : forall j b, <[i := None]> (generators w) !! j = Some (Some b) <-> generators w !! j = Some (Some b) /\ j <> i).
    { intros j b. destruct (decide (j = i)) as [->|]; [rewrite list_lookup_insert_eq by done|rewrite list_lookup_insert_ne by done]; naive_solver. }
    assert (Hf : forall b x, <[a := destroyed_frame c]> (frames w) !! b = Some x ->
              (b = a /\ x = destroyed_frame c) \/ (b <> a /\ frames w !! b = Some x)).
    { intros b x. destruct (decide (b = a)) as [->|]; [rewrite list_lookup_insert_eq by done|rewrite list_lookup_insert_ne by done]; naive_solver. }
    destruct Hw as []. constructor; simpl; try done.
    + intros j k b [Hj _]%Hg [Hk _]%Hg. eauto.
    + intros j b [Hj _]%Hg. apply lookup_lt_is_Some. rewrite length_insert. apply lookup_lt_is_Some. eauto.
    + intros b x [[-> ->]|[Hne Hx]]%Hf.
      * simpl. rewrite Hd0. split; [done|]. split; [|done]. split; [done|]. intros [j [Hj Hji]%Hg]. by destruct Hji; eapply w_unique0.
      * destruct (w_frames0 b x Hx) as (H1 & H2 & H3). split; [done|]. split; [|done]. rewrite H2.
        split; intros [j Hj]; exists j; [|by apply Hg in Hj as []]. apply Hg. split; [done|]. intros ->. congruence.
    + intros k b Hk. destruct (w_iterators0 k b Hk) as (x & Hx & Hs). destruct (decide (b = a)) as [->|Hne].
      * exists (destroyed_frame c). rewrite list_lookup_insert_eq by done. split; [done|]. simpl. by rewrite Hd0.
      * exists x. by rewrite list_lookup_insert_ne.
  - unfold safe, destroy_generator. known (generator_at_eq w i None Hi). split; [done|]. simpl.
    rewrite list_insert_id by done. by destruct w.
Qed.

Lemma generator_perform_safe o w : winv w -> allowed o w = true -> safe (perform body o) w.
Proof.
  intros Hw Ha. destruct o as [l vs|i|i|i|k|k|k v|k]; simpl in *.
  - by apply call_safe.
  - by apply move_safe.
  - by apply destroy_safe.
  - by apply begin_safe.
  - destruct (iterators w !! k) as [a|] eqn:Hk; [|done]. unfold safe. rewrite (increment_eq body w k a Hk).
    by destruct (advance_safe w a Hw Ha) as (c & _ & _ & Hw' & [E|[e E]]); rewrite E.
  - destruct (iterators w !! k) as [a|] eqn:Hk; [|done].
    destruct (iterator_frame w k a Hw Hk Ha) as (c & u & Hc & Hd & Hp).
    eapply generator_safe_after; [unfold dereference; known (iterator_at_eq w k a Hk); by eapply value_eq|].
    split; [done|]. by destruct Hw.
  - destruct (iterators w !! k) as [a|] eqn:Hk; [|done].
    destruct (iterator_frame w k a Hw Hk Ha) as (c & u & Hc & Hd & Hp). destruct (running_frame w a Ha) as (c' & Hc' & _ & Hf). simplify_eq.
    unfold safe, assign. known (iterator_at_eq w k a Hk). rewrite (write_value_eq w a c v u Hc Hd Hp). split; [done|].
    destruct (written_fields v c) as (W1 & W2 & W3). eapply winv_put; try done.
    + rewrite W1. intros _. by apply (w_frames w Hw a c Hc).
    + intros _ _. unfold written, pointee in *. destruct (m_value c) as [|x|]; simpl; [done| |eauto].
      apply lookup_lt_is_Some. rewrite length_insert. by eapply lookup_lt_Some.
  - destruct (iterators w !! k) as [a|] eqn:Hk; [|done]. unfold alive in Ha. destruct (frames w !! a) as [c|] eqn:Hc; [|done].
    apply bool_decide_eq_true in Ha. eapply generator_safe_after; [|split; [done|exact Hw]].
    unfold equal_end. known (iterator_at_eq w k a Hk). by eapply done_eq.
Qed.

(** C32. Whatever a program does with generators and iterators - copying
    iterators, writing through them, moving and dropping generators - as long as
    it neither resumes a coroutine that has ended nor dereferences an iterator at
    the end (by reading or by writing), calls [begin] on no generator whose
    coroutine has ended, and uses no iterator of a destroyed coroutine, no
    assertion fails: [m_value] is never null and never dangles where it is
    used.  A coroutine is destroyed at most once, exactly when no generator owns
    it; [begin] of an empty generator throws [empty_generator]. *)
Theorem generators_are_safe w :
  reachable w ->
  (forall o, allowed o w = true -> is_Abort (perform body o w).1 = false) /\
  (forall a c, frames w !! a = Some c -> destroyed c <= 1 /\
     (destroyed c = 0 <-> exists i, generators w !! i = Some (Some a))) /\
  (forall i, generators w !! i = Some None ->
     begin body i w = (Throw (make_exn empty_generator k_empty_generator_begin_err_msg), w)).
Proof.
  intros Hr. assert (Hw : winv w).
  { revert w Hr. apply reachable_invariant; [by constructor; intros; destruct i || destruct a || destruct k|].
    intros o w w' Hw. unfold program_step. destruct (allowed o w) eqn:E; [|done]. intros [= <-]. by apply generator_perform_safe. }
  split; [intros o Ho; by apply generator_perform_safe|]. split.
  - intros a c Ha. by destruct (w_frames w Hw a c Ha) as (H1 & H2 & _).
  - intros i Hi. unfold begin, generator_at, mbind, M_bind, get_state. simpl. by rewrite Hi.
Qed.
End safety.

(** ** Witnesses *)

(** [int x = 10; co_yield x; ++x; co_yield x; co_yield 7; throw ...;] *)
Definition counting (l : nat) (vs : list nat) : event nat * (nat * list nat) :=
  match l with
  | 0 => (co_yield_lvalue 0, (1, [10]))
  | 1 => (co_yield_lvalue 0, (2, [S (hd 0 vs)]))
  | 2 => (co_yield_rvalue 7, (3, vs))
  | _ => (co_throw (make_exn broken_task "stop"), (3, vs))
  end.

Lemma counting_yields_variables : yields_variables counting.
Proof. intros [|[|[|l]]] vs; simpl; lia. Qed.

(** The loop doubles what it sees. *)
Lemma for_each_is_alternation_witness :
  exists w', for_each counting (Nat.mul 2) 5 0 [] new_world = (Throw (make_exn broken_task "stop"), w') /\
    seen w' = [10; 21; 7].
Proof.
  destruct (for_each_is_alternation counting counting_yields_variables (Nat.mul 2) 5 0 [] new_world) as (c & w' & E & H & _).
  exists w'. split; [exact E|exact H].
Defined.

Definition counting_world : world nat nat :=
  after (program_step counting) new_world [op_call 0 []; op_begin 0; op_increment 0; op_assign 0 5; op_move 0].

Lemma generators_are_safe_witness :
  is_Abort (perform counting (op_dereference 0) counting_world).1 = false /\
  begin counting 0 counting_world = (Throw (make_exn empty_generator k_empty_generator_begin_err_msg), counting_world).
Proof.
  destruct (generators_are_safe counting counting_yields_variables counting_world (after_reachable _ _ _)) as (H1 & _ & H2).
  split; [apply H1; by vm_compute|apply H2; by vm_compute].
Defined.
