(* ===== verification/WhenResult.v ===== *)
(** * when_all and when_any

    [include/concurrencpp/results/when_result.h].  One coroutine, the body of
    [when_all_impl] or [when_any_impl], is the consumer of any number of
    [result_state]s; their producers run [complete_producer], and in it
    [when_any_context::try_resume].  One transition per atomic action: the
    actions of the [result_state]s are those of [ResultState], the actions on the
    shared [when_any_context] those of [when_any_context].  Only the address of a
    state and its base class matter, so the states of a tuple and those of a
    vector are one list. *)

From stdpp Require Import prelude list strings.
From Stdlib Require Import ZArith Lia.
From S2P Require Import Prelude Errors ProducerContext ConsumerContext ResultState.

Import when_any_context.
Local Open Scope list_scope.

(** ** The checks of the functions

    [results]: which of the result objects are not empty. *)
Fixpoint throw_if_empty_range (message : string) (results : list bool) : outcome exn unit :=
  match results with
  | [] => Ok tt
  | r :: results =>
      if negb r then Throw (make_exn empty_result message) else throw_if_empty_range message results
  end.

(** [when_all(executor)], without results. *)
Definition when_all_nothing_check (executor_null : bool) : outcome exn unit :=
  if executor_null then Throw (make_exn invalid_argument k_when_all_null_resume_executor_error_msg) else Ok tt.

Definition when_all_check (executor_null : bool) (results : list bool) : outcome exn unit :=
  match throw_if_empty_range k_when_all_empty_result_error_msg results with
  | Ok _ => when_all_nothing_check executor_null
  | o => o
  end.

(** [when_any] of a tuple that is not empty. *)
Definition when_any_tuple_check (executor_null : bool) (results : list bool) : outcome exn unit :=
  match throw_if_empty_range k_when_any_empty_result_error_msg results with
  | Ok _ => if executor_null then Throw (make_exn invalid_argument k_when_any_null_resume_executor_error_msg) else Ok tt
  | o => o
  end.

Definition when_any_range_check (executor_null : bool) (results : list bool) : outcome exn unit :=
  match throw_if_empty_range k_when_any_empty_result_error_msg results with
  | Ok _ =>
      if bool_decide (results = []) then Throw (make_exn invalid_argument k_when_any_empty_range_error_msg)
      else if executor_null then Throw (make_exn invalid_argument k_when_any_null_resume_executor_error_msg) else Ok tt
  | o => o
  end.

Section when_result.
Context {T : Type}.
Notation rstate := (ResultState.state T).

(** ** The coroutine *)
Inductive pc :=
  (* when_all_impl *)
  | W_all_next (i : nat)                  (* i < size(collection) *)
  | W_all_await (i : nat)                 (* in state_ref.await(), or suspended there *)
  (* when_any_awaitable::await_suspend *)
  | W_any_next (i : nat)                  (* i < range_length; any_result_finished() *)
  | W_any_register (i : nat)              (* in state_ref.when_any(m_promise) *)
  | W_any_inline_load (i : nat)           (* m_promise->resume_inline(state_ref) *)
  | W_any_inline_cas (i : nat)
  | W_any_finish                          (* m_promise->finish_processing() *)
  | W_any_suspended
  (* when_any_awaitable::await_resume *)
  | W_any_completed                       (* m_promise->completed_result() *)
  | W_any_rewind_next (i : nat) (r : status) (index : option nat)
  | W_any_rewind (i : nat) (r : status) (index : option nat)  (* in try_rewind_consumer() *)
  (* the index is that of when_any *)
  | W_resume_on (index : option nat)      (* co_await resume_on(resume_executor) *)
  | W_done (index : option nat)           (* co_return *)
  | W_interrupted                         (* resume_on threw *)
  | W_aborted.

Record state := make_state {
  states : list rstate;                   (* of the collection *)
  m_status : status;                      (* of the when_any_context *)
  tries : list try_resume_pc;             (* the producers, in try_resume() *)
  coro : pc;
  resumed : nat                           (* calls of m_coro_handle() *)
}.

Definition set_states v s := make_state v (m_status s) (tries s) (coro s) (resumed s).
Definition set_status v s := make_state (states s) v (tries s) (coro s) (resumed s).
Definition set_tries v s := make_state (states s) (m_status s) v (coro s) (resumed s).
Definition set_coro v s := make_state (states s) (m_status s) (tries s) v (resumed s).
Definition set_resumed v s := make_state (states s) (m_status s) (tries s) (coro s) v.

(** The lazy coroutine is awaited; the results are in any state their owner may
    leave them. *)
Definition init_with (p : pc) (rs : list rstate) : state :=
  make_state rs k_processing (replicate (length rs) tr_load) p 0.
Definition when_all_init := init_with (W_all_next 0).
Definition when_any_init := init_with (W_any_next 0).

(** The context and the coroutine, as the results know them. *)
Definition the_context : addr := 0.
Definition the_coroutine : handle := 0.

Definition fault (s : state) : state := set_coro W_aborted s.

(** A call of a member function of the [i]-th state. *)
Definition call_at (i : nat) (c : consumer_call) (next : pc) (s : state) : state :=
  match states s !! i with
  | Some r =>
      match call_step c r with
      | Some r => set_coro next (set_states (<[i := r]> (states s)) s)
      | None => fault s
      end
  | None => fault s
  end.

(** The call goes on until [returned] says what follows it. *)
Definition in_call (i : nat) (returned : consumer_pc T -> option pc) (s : state) : option state :=
  match states s !! i with
  | Some r =>
      match returned (cons r) with
      | Some next => Some (set_coro next s)
      | None =>
          match consumer_step r with
          | Some r => Some (set_states (<[i := r]> (states s)) s)
          | None => None                  (* suspended *)
          end
      end
  | None => Some (fault s)
  end.

(** *** [when_all_impl] *)
Definition when_all_step (p : pc) (s : state) : option state :=
  match p with
  | W_all_next i =>
      Some (if (i <? length (states s))%nat then call_at i (call_await the_coroutine) (W_all_await i) s
            else set_coro (W_resume_on None) s)
  | W_all_await i =>
      in_call i (fun c => match c with C_own (r_await _) => Some (W_all_next (S i)) | _ => None end) s
  | _ => None
  end.

(** *** [when_any_awaitable::await_suspend]; [W_any_completed]: it returned
    false. *)
Definition when_any_suspend_step (p : pc) (s : state) : option state :=
  match p with
  | W_any_next i =>
      Some (if (i <? length (states s))%nat then
              match any_result_finished (m_status s) with
              | Ok true => set_coro W_any_completed s
              | Ok false => call_at i (call_when_any the_context) (W_any_register i) s
              | _ => fault s
              end
            else set_coro W_any_finish s)
  | W_any_register i =>
      in_call i (fun c => match c with
                          | C_registered (r_any st) =>
                              Some (if decide (st = producer_done) then W_any_inline_load i else W_any_next (S i))
                          | _ => None
                          end) s
  | W_any_inline_load i =>
      Some match resume_inline_load (m_status s) with
           | Ok None => set_coro (W_any_inline_cas i) s
           | Ok (Some _) => set_coro W_any_completed s
           | _ => fault s
           end
  | W_any_inline_cas i =>
      Some (set_coro W_any_completed (set_status (resume_inline_cas i (m_status s)).1 s))
  | W_any_finish =>
      Some match finish_processing (m_status s) with
           | Ok (st, suspend) => set_coro (if suspend then W_any_suspended else W_any_completed) (set_status st s)
           | _ => fault s
           end
  | _ => None     (* W_any_suspended: resumed by a producer *)
  end.

(** *** [when_any_awaitable::await_resume] *)
Definition when_any_resume_step (p : pc) (s : state) : option state :=
  match p with
  | W_any_completed => Some (set_coro (W_any_rewind_next 0 (completed_result (m_status s)) None) s)
  | W_any_rewind_next i r index =>
      Some (if (i <? length (states s))%nat then call_at i call_rewind (W_any_rewind i r index) s
            else match index with
                 | Some _ => set_coro (W_resume_on index) s
                 | None => fault s
                 end)
  | W_any_rewind i r index =>
      in_call i (fun c => match c with
                          | C_own _ =>
                              Some (W_any_rewind_next (S i) r (if decide (r = completed i) then Some i else index))
                          | _ => None
                          end) s
  | _ => None
  end.

(** The next action of the coroutine. *)
Definition coro_step (s : state) : option state :=
  match coro s with
  | W_all_next _ | W_all_await _ => when_all_step (coro s) s
  | W_any_next _ | W_any_register _ | W_any_inline_load _ | W_any_inline_cas _ | W_any_finish | W_any_suspended =>
      when_any_suspend_step (coro s) s
  | W_any_completed | W_any_rewind_next _ _ _ | W_any_rewind _ _ _ => when_any_resume_step (coro s) s
  | W_resume_on index => Some (set_coro (W_done index) s)
  | W_done _ | W_interrupted | W_aborted => None
  end.

(** ** The producers *)
Definition lift (i : nat) (f : rstate -> option rstate) (s : state) : option state :=
  match states s !! i with
  | Some r => match f r with Some r => Some (set_states (<[i := r]> (states s)) s) | None => None end
  | None => None
  end.

(** [m_coro_handle()]: resuming a coroutine that is not suspended is
    undefined. *)
Definition resume_coro (s : state) : state :=
  match coro s with
  | W_any_suspended => set_resumed (S (resumed s)) (set_coro W_any_completed s)
  | _ => fault s
  end.

(** The producer of the [i]-th state in [when_any_ctx->try_resume(self)]. *)
Definition try_step (i : nat) (s : state) : option state :=
  match tries s !! i with
  | Some t =>
      match try_resume_step i t (m_status s) with
      | Some (t, st) =>
          let s := set_tries (<[i := t]> (tries s)) (set_status st s) in
          match t with
          | tr_returned true => lift i producer_step (resume_coro s)
          | tr_returned false => lift i producer_step s
          | _ => Some s
          end
      | None => None
      end
  | None => None
  end.

Definition producer_acts (i : nat) (s : state) : option state :=
  match states s !! i with
  | Some r =>
      match prod r with
      | P_act (consumer_context.try_resume_when_any _) => try_step i s
      | _ => lift i producer_step s
      end
  | None => None
  end.

Inductive label :=
  | L_coro
  | L_interrupted                         (* resume_on throws broken_task *)
  | L_set_result (i : nat) (ctor : payload T)
  | L_set_exception (i : nat) (e : exn)
  | L_complete (i : nat) (done_handle : option done_handle)
  | L_producer (i : nat).

Definition step (l : label) (s : state) : option state :=
  match l with
  | L_coro => coro_step s
  | L_interrupted => match coro s with W_resume_on _ => Some (set_coro W_interrupted s) | _ => None end
  | L_set_result i c => lift i (ResultState.step (ResultState.L_set_result c)) s
  | L_set_exception i e => lift i (ResultState.step (ResultState.L_set_exception e)) s
  | L_complete i h => lift i (ResultState.step (ResultState.L_complete h)) s
  | L_producer i => producer_acts i s
  end.

(** ** What is promised *)

(** The result is there: [get] and [co_await] do not block. *)
Definition is_ready (r : rstate) : Prop :=
  m_pc_state r = producer_done /\ exists p, content (m_producer r) = Some p.

(** The owner may call any function on it. *)
Definition is_usable (r : rstate) : Prop := exists c, cons r = C_own c /\ c <> r_unshared.

(** The results a program may give: nobody waits for them. *)
Definition given (rs : list rstate) : Prop :=
  forall i r, rs !! i = Some r -> reachable ResultState.step ResultState.init r /\ is_usable r.
End when_result.
Arguments state : clear implicits.
Arguments label : clear implicits.
