(* ===== verification/WhenResultProps.v ===== *)
(** * when_all and when_any: the invariant *)

From stdpp Require Import prelude list strings.
From Stdlib Require Import ZArith Lia.
From S2P Require Import Prelude Errors ProducerContext ConsumerContext ResultState ResultStateProps ResultStateFacts WhenResult.

Import when_any_context.
Local Open Scope list_scope.

(** ** Where the coroutine is with one of the results *)
Inductive phase :=
  | ph_usable                      (* not used yet, or given back *)
  | ph_awaiting | ph_awaited
  | ph_registering | ph_registered
  | ph_touched                     (* registered or not *)
  | ph_rewinding | ph_rewound.

Section phases.
Context {T : Type}.
Notation rstate := (ResultState.state T).
Implicit Types r : rstate.

Definition phase_ok (ph : phase) (c : consumer_pc T) : Prop :=
  match ph with
  | ph_usable => exists k, c = C_own k /\ k <> r_unshared
  | ph_awaiting =>
      match c with
      | C_await_load _ | C_await_set _ | C_await_cas _ | C_suspended _
      | C_assert_done (then_return (r_await _)) | C_own (r_await _) => True
      | _ => False
      end
  | ph_awaited => exists b, c = C_own (r_await b)
  | ph_registering =>
      match c with
      | C_wa_load _ | C_wa_set _ _ | C_wa_cas _ _
      | C_assert_done (then_registered (r_any _)) | C_registered (r_any _) => True
      | _ => False
      end
  | ph_registered => exists st, c = C_registered (r_any st)
  | ph_touched => (exists st, c = C_registered (r_any st)) \/ exists k, c = C_own k /\ k <> r_unshared
  | ph_rewinding =>
      match c with
      | C_rewind_load r_rewound | C_rewind_cas r_rewound | C_rewind_clear r_rewound
      | C_assert_done (then_return r_rewound) | C_own r_rewound => True
      | _ => False
      end
  | ph_rewound => c = C_own r_rewound
  end.

Lemma inv_not_aborted r : inv r -> cons r <> C_aborted /\ prod r <> P_aborted.
Proof.
  unfold inv, pending_inv, published_inv. intros Hi.
  split; intros E; rewrite E in Hi; [destruct (prod r); naive_solver|done].
Qed.

Local Ltac split_phase H :=
  repeat (match type of H with context [match ?x with _ => _ end] => destruct x eqn:?; try done end).

Lemma consumer_phase ph r r' :
  inv r -> consumer_step r = Some r' -> phase_ok ph (cons r) -> phase_ok ph (cons r').
Proof.
  intros Hi Hs Hp. assert (Ha := proj1 (inv_not_aborted r' (inv_consumer _ _ Hi Hs))).
  unfold consumer_step in Hs. destruct ph; simpl in Hp;
    try (by destruct Hp as (k & E & _); rewrite E in Hs);
    try (by destruct Hp as (k & E); rewrite E in Hs);
    try (by rewrite Hp in Hs).
  - split_phase Hp; simpl in Hs;
      unfold await_step, assert_done_step, write_consumer, cas in Hs; repeat case_match; simplify_eq/=; try done.
  - split_phase Hp; simpl in Hs;
      unfold when_any_step, assert_done_step, write_consumer, cas in Hs; repeat case_match; simplify_eq/=; try done.
  - destruct Hp as [[st E]|(k & E & _)]; by rewrite E in Hs.
  - split_phase Hp; simpl in Hs;
      unfold rewind_step, assert_done_step, write_consumer, cas in Hs; repeat case_match; simplify_eq/=; try done.
Qed.

Lemma producer_cons r r' : producer_step r = Some r' ->
  cons r' = cons r \/ (exists h, cons r = C_suspended h /\ cons r' = C_own (r_await true)) \/ cons r = C_wait_parked.
Proof.
  intros Hs. unfold producer_step in Hs. destruct (prod r) as [| | | |a| | | |]; simplify_eq; auto.
  - left. unfold complete_producer_exchange. by destruct (m_pc_state r).
  - left. by destruct (consumer_context.resume_consumer (m_consumer r)).
  - unfold act_step. destruct a; try (by left).
    + destruct (cons r) eqn:E; try (left; simpl; congruence). case_decide; [|left; simpl; congruence]. right. left. eauto.
    + destruct (cons r) as [|k| | | | | | | | | | | | | | | | | | | | | | | | | | | | | | | | | | | |] eqn:E; try (left; simpl; congruence).
      destruct k; left; simpl; congruence.
  - destruct (cons r) eqn:E; try (left; simpl; congruence). auto.
  - left. unfold delete_self. by case_match.
Qed.

Lemma producer_phase ph r r' : producer_step r = Some r' -> phase_ok ph (cons r) -> phase_ok ph (cons r').
Proof.
  intros [->|[(h & E & ->)|E]]%producer_cons; [done|..]; rewrite E; destruct ph; simpl; naive_solver.
Qed.

(** A call of the coroutine. *)
Lemma call_phase c k r :
  cons r = C_own k -> k <> r_unshared -> (c = call_await the_coroutine \/ c = call_when_any the_context \/ c = call_rewind) ->
  exists r', call_step c r = Some r' /\
    phase_ok match c with call_await _ => ph_awaiting | call_when_any _ => ph_registering | _ => ph_rewinding end (cons r').
Proof.
  intros E Hk Hc. unfold call_step. rewrite E. destruct Hc as [->|[->| ->]]; destruct k; simpl; try done; eexists; by split.
Qed.

Lemma rewind_phase st r : cons r = C_registered (r_any st) ->
  exists r', call_step call_rewind r = Some r' /\ phase_ok ph_rewinding (cons r').
Proof. intros E. unfold call_step. rewrite E. eexists. by split. Qed.

(** A published result is there until the consumer lets go. *)
Lemma published_ready ph r : inv r -> published (prod r) = true -> phase_ok ph (cons r) -> is_ready r.
Proof.
  intros Hi Hp Hph. unfold inv, deletable, result_built in Hi. unfold is_ready.
  assert (Hg : forall o, cons r <> C_gone o).
  { intros o E. rewrite E in Hph. destruct ph; simpl in Hph; naive_solver. }
  assert (Hcd : cons r <> C_cc_delete).
  { intros E. rewrite E in Hph. destruct ph; simpl in Hph; naive_solver. }
  destruct (prod r) eqn:Ep; try done; destruct Hi as [Hc (H1 & _)]; (split; [|exact (proj1 Hc)]);
    destruct (cons r) eqn:E; simpl in H1; try (by destruct H1); by destruct (Hg o).
Qed.

(** A consumer that has seen the result. *)
Lemma awaited_ready r b : inv r -> cons r = C_own (r_await b) -> is_ready r.
Proof.
  intros Hi E. unfold inv, pending_inv, published_inv, deletable, result_built, is_ready in *. rewrite E in Hi.
  destruct (prod r); naive_solver.
Qed.

Lemma registered_done_published r : inv r -> cons r = C_registered (r_any producer_done) -> published (prod r) = true.
Proof.
  intros Hi E. unfold inv, pending_inv in Hi. rewrite E in Hi. destruct (prod r); simpl; naive_solver.
Qed.
End phases.

(** ** The invariant *)
Section invariant.
Context {T : Type}.
Notation rstate := (ResultState.state T).
Implicit Types s : WhenResult.state T.
Implicit Types r : rstate.

Definition around (i k : nat) (before at_k after : phase) : phase :=
  if decide (i < k) then before else if decide (i = k) then at_k else after.

Definition phase_of (p : pc) (i : nat) : phase :=
  match p with
  | W_all_next k => around i k ph_awaited ph_usable ph_usable
  | W_all_await k => around i k ph_awaited ph_awaiting ph_usable
  | W_any_next k => around i k ph_registered ph_usable ph_usable
  | W_any_register k => around i k ph_registered ph_registering ph_usable
  | W_any_inline_load k | W_any_inline_cas k => around i k ph_registered ph_registered ph_usable
  | W_any_finish | W_any_suspended => ph_registered
  | W_any_completed => ph_touched
  | W_any_rewind_next k _ _ => around i k ph_rewound ph_touched ph_touched
  | W_any_rewind k _ _ => around i k ph_rewound ph_rewinding ph_touched
  | W_resume_on (Some _) | W_done (Some _) => ph_rewound
  | W_resume_on None | W_done None => ph_awaited
  | W_interrupted => ph_usable
  | W_aborted => ph_touched
  end.

(** What the coroutine knows about the length of the collection, the
    [when_any_context] and the index it looks for. *)
Definition pc_ok s : Prop :=
  match coro s with
  | W_all_next k => k <= length (states s) /\ m_status s <> k_done_processing
  | W_all_await k => k < length (states s) /\ m_status s <> k_done_processing
  | W_any_next k => k <= length (states s) /\ m_status s <> k_done_processing
  | W_any_register k => k < length (states s) /\ m_status s <> k_done_processing
  | W_any_inline_load k | W_any_inline_cas k =>
      m_status s <> k_done_processing /\ exists r, states s !! k = Some r /\ published (prod r) = true
  | W_any_finish => m_status s <> k_done_processing
  | W_any_suspended => m_status s = k_done_processing
  | W_any_completed => exists j, m_status s = completed j
  | W_any_rewind_next k r index =>
      k <= length (states s) /\ exists j, r = completed j /\ m_status s = r /\ index = if decide (j < k) then Some j else None
  | W_any_rewind k r index =>
      k < length (states s) /\ exists j, r = completed j /\ m_status s = r /\ index = if decide (j < k) then Some j else None
  | W_resume_on (Some j) | W_done (Some j) => m_status s = completed j
  | W_resume_on None | W_done None | W_interrupted => m_status s <> k_done_processing
  | W_aborted => False
  end.

(** How far the producer of a result is in [try_resume]. *)
Definition try_ok (r : rstate) (t : try_resume_pc) : Prop :=
  match prod r with
  | P_act (consumer_context.try_resume_when_any _) => forall b, t <> tr_returned b
  | P_own | P_built | P_exchange | P_resume => t = tr_load
  | _ => True
  end.

Lemma same_at {A} (l : list A) (i : nat) x y : l !! i = Some x -> l !! i = Some y -> x = y.
Proof. congruence. Qed.

Record winv s : Prop := {
  i_states : forall i r, states s !! i = Some r -> inv r /\ phase_ok (phase_of (coro s) i) (cons r);
  i_pc : pc_ok s;
  i_completed : forall j, m_status s = completed j -> exists r, states s !! j = Some r /\ published (prod r) = true;
  i_length : length (tries s) = length (states s);
  i_tries : forall i r t, states s !! i = Some r -> tries s !! i = Some t -> try_ok r t
}.

(** *** One of the results changes, the coroutine stays where it is *)
Lemma winv_state s i r r' :
  winv s -> states s !! i = Some r -> inv r' -> phase_ok (phase_of (coro s) i) (cons r') ->
  (published (prod r) = true -> published (prod r') = true) -> (forall t, try_ok r t -> try_ok r' t) ->
  winv (set_states (<[i := r']> (states s)) s).
Proof.
  intros [] Hi Hinv Hph Hpub Htry. assert (Hlt : i < length (states s)) by (by eapply lookup_lt_Some).
  assert (Hp : forall k r, states s !! k = Some r -> published (prod r) = true ->
            exists r, <[i := r']> (states s) !! k = Some r /\ published (prod r) = true).
  { intros k x Hk Hx. destruct (decide (i = k)) as [->|].
    - exists r'. rewrite list_lookup_insert_eq by done. split; [done|]. apply Hpub. congruence.
    - exists x. by rewrite list_lookup_insert_ne. }
  constructor; simpl.
  - intros k x. destruct (decide (i = k)) as [->|].
    + rewrite list_lookup_insert_eq by done. by intros [= <-].
    + rewrite list_lookup_insert_ne by done. auto.
  - unfold pc_ok in *. simpl. rewrite length_insert. destruct (coro s); try done; destruct i_pc0 as (H1 & x & H2 & H3); eauto.
  - intros j Hj. destruct (i_completed0 j Hj) as (x & H1 & H2). eauto.
  - by rewrite length_insert.
  - intros k x t. destruct (decide (i = k)) as [->|].
    + rewrite list_lookup_insert_eq by done. intros [= <-] Ht. eauto.
    + rewrite list_lookup_insert_ne by done. eauto.
Qed.

(** *** The coroutine goes on, the results stay as they are *)
Lemma winv_coro s p st :
  winv s -> (forall i r, states s !! i = Some r -> inv r -> phase_ok (phase_of (coro s) i) (cons r) -> phase_ok (phase_of p i) (cons r)) ->
  pc_ok (set_coro p (set_status st s)) ->
  (forall j, st = completed j -> exists r, states s !! j = Some r /\ published (prod r) = true) ->
  winv (set_coro p (set_status st s)).
Proof.
  intros [] Hph Hpc Hst. constructor; simpl; try done. intros i r Hr. destruct (i_states0 i r Hr) as [H1 H2]. eauto.
Qed.

Lemma set_same_status s p : set_coro p (set_status (m_status s) s) = set_coro p s.
Proof. by destruct s. Qed.

Lemma winv_goto s p :
  winv s -> (forall i r, states s !! i = Some r -> inv r -> phase_ok (phase_of (coro s) i) (cons r) -> phase_ok (phase_of p i) (cons r)) ->
  pc_ok (set_coro p s) -> winv (set_coro p s).
Proof.
  intros Hw Hph Hpc. rewrite <-set_same_status. apply winv_coro; [done|done|by rewrite set_same_status|apply Hw].
Qed.

(** *** A call begins *)
Lemma winv_call s k c next :
  winv s -> k < length (states s) ->
  (forall r, states s !! k = Some r -> exists r', call_step c r = Some r' /\ phase_ok (phase_of next k) (cons r')) ->
  (forall i, i <> k -> phase_of next i = phase_of (coro s) i) ->
  pc_ok (set_coro next s) ->
  winv (call_at k c next s).
Proof.
  intros Hw Hk Hc Hne Hpc. apply lookup_lt_is_Some in Hk as [r Hr]. destruct (Hc r Hr) as (r' & E & Hph).
  unfold call_at. rewrite Hr, E. destruct Hw as []. destruct (i_states0 k r Hr) as [Hi _].
  assert (Hi' := inv_call _ _ _ Hi E). assert (Hpr : prod r' = prod r /\ m_producer r' = m_producer r).
  { unfold call_step in E. by repeat case_match; simplify_eq/=. }
  assert (Hlt : k < length (states s)) by (by eapply lookup_lt_Some).
  constructor; simpl.
  - intros i x. destruct (decide (k = i)) as [->|].
    + rewrite list_lookup_insert_eq by done. by intros [= <-].
    + rewrite list_lookup_insert_ne by done. rewrite Hne by done. auto.
  - unfold pc_ok in *. simpl in *. rewrite length_insert. destruct next; try done;
      destruct Hpc as (H1 & x & H2 & H3); (split; [done|]);
      (match goal with |- exists r, <[k:=r']> (states s) !! ?j = _ /\ _ => destruct (decide (k = j)) as [->|] end;
       [exists r'; rewrite list_lookup_insert_eq by done; split; [done|]; destruct Hpr; congruence
       |exists x; by rewrite list_lookup_insert_ne]) || eauto.
  - intros j Hj. destruct (i_completed0 j Hj) as (x & H1 & H2). destruct (decide (k = j)) as [->|].
    + exists r'. rewrite list_lookup_insert_eq by done. split; [done|].
      rewrite (proj1 Hpr). by rewrite (same_at _ _ _ _ Hr H1).
    + exists x. by rewrite list_lookup_insert_ne.
  - by rewrite length_insert.
  - intros i x t. destruct (decide (k = i)) as [->|].
    + rewrite list_lookup_insert_eq by done. intros [= <-] Ht. specialize (i_tries0 i r t Hr Ht).
      unfold try_ok in *. by destruct Hpr as [-> _].
    + rewrite list_lookup_insert_ne by done. eauto.
Qed.

(** *** The producers *)
Lemma producer_prod r r' : inv r -> producer_step r = Some r' ->
  match prod r with
  | P_exchange => published (prod r') = true /\ forall a, prod r' <> P_act a
  | P_resume => exists a, prod r' = P_act a
  | P_act _ | P_notify | P_delete => prod r' = P_gone
  | _ => False
  end.
Proof.
  intros Hi Hs. assert (Hi' := inv_producer _ _ Hi Hs). assert (Ha := proj2 (inv_not_aborted r' Hi')).
  unfold producer_step in Hs. destruct (prod r) as [| | | |a| | | |] eqn:Ep; simplify_eq.
  - unfold complete_producer_exchange in *. by destruct (m_pc_state r).
  - destruct (consumer_context.resume_consumer (m_consumer r)); simpl in *; eauto; done.
  - unfold act_step in *. destruct a; try done; repeat case_match; simpl in *; done.
  - by case_match.
  - unfold delete_self in *. by case_match.
Qed.

Lemma winv_producer s i r r' :
  winv s -> states s !! i = Some r -> producer_step r = Some r' ->
  winv (set_states (<[i := r']> (states s)) s).
Proof.
  intros Hw Hr Hs. destruct (i_states s Hw i r Hr) as [Hi Hph]. assert (Hp := producer_prod r r' Hi Hs).
  eapply winv_state; try done.
  - by eapply inv_producer.
  - by eapply producer_phase.
  - intros Hpub. destruct (prod r); try done; [by destruct Hp as [? ->]|by rewrite Hp..].
  - intros t. unfold try_ok. destruct (prod r); try done.
    + destruct Hp as [H1 H2]. intros ->. destruct (prod r'); try done. by destruct (H2 a).
    + destruct Hp as [a ->]. by destruct a; intros ->.
    + by rewrite Hp.
    + by rewrite Hp.
    + by rewrite Hp.
Qed.

Lemma winv_set s i r r' l :
  winv s -> states s !! i = Some r -> ResultState.step l r = Some r' ->
  match l with ResultState.L_set_result _ | ResultState.L_set_exception _ | ResultState.L_complete _ => True | _ => False end ->
  winv (set_states (<[i := r']> (states s)) s).
Proof.
  intros Hw Hr Hs Hl. destruct (i_states s Hw i r Hr) as [Hi Hph]. assert (Hi' := inv_step _ _ _ Hi Hs).
  assert (H : cons r' = cons r /\ published (prod r) = false /\
            match prod r' with P_own | P_built | P_exchange | P_aborted => True | _ => False end /\
            match prod r with P_own | P_built | P_exchange => True | _ => False end).
  { destruct l; try done; simpl in Hs; unfold set_result_step, set_exception_step in Hs;
      destruct (prod r) eqn:Ep; repeat case_match; simplify_eq/=; rewrite ?Ep; try congruence; done. }
  destruct H as (H1 & H2 & H3 & H4). eapply winv_state; try done.
  - by rewrite H1.
  - by rewrite H2.
  - intros t. unfold try_ok. by destruct (prod r), (prod r').
Qed.

(** [try_resume]. *)
Lemma try_resume_cases i t st t' st' :
  try_resume_step i t st = Some (t', st') ->
  (st' = st /\ t' <> tr_returned true) \/
  (st = k_processing /\ st' = completed i /\ t' = tr_returned false) \/
  (st = k_done_processing /\ st' = completed i /\ t' = tr_returned true).
Proof. destruct t, st; intros E; vm_compute in E; simplify_eq; auto 6. Qed.

Lemma winv_tries s i t :
  winv s -> (forall r, states s !! i = Some r -> try_ok r t) -> winv (set_tries (<[i := t]> (tries s)) s).
Proof.
  intros [] Ht. constructor; simpl; try done; [by rewrite length_insert|].
  intros k r u Hr Hu. destruct (decide (i = k)) as [->|].
  - destruct (decide (k < length (tries s))).
    + rewrite list_lookup_insert_eq in Hu by done. injection Hu as <-. auto.
    + rewrite list_insert_ge in Hu by lia. eauto.
  - rewrite list_lookup_insert_ne in Hu by done. eauto.
Qed.

(** The context gets its result. *)
Lemma winv_status s i r :
  winv s -> states s !! i = Some r -> published (prod r) = true -> m_status s = k_processing ->
  winv (set_status (completed i) s).
Proof.
  intros Hw Hr Hp Hst. replace (set_status (completed i) s) with (set_coro (coro s) (set_status (completed i) s)) by done.
  apply winv_coro; [done|done| |].
  - assert (Hpc := i_pc s Hw). unfold pc_ok in *. rewrite Hst in Hpc. simpl.
    destruct (coro s) as [| | | | | | | | | | |[]|[]| |]; try done; try (by destruct Hpc as [? _]);
      try (by destruct Hpc as [j Hpc]); by destruct Hpc as (_ & j & H1 & H2 & _); subst.
  - intros j [= <-]. eauto.
Qed.

Lemma winv_resume s i r :
  winv s -> states s !! i = Some r -> published (prod r) = true -> m_status s = k_done_processing ->
  coro s = W_any_suspended /\ winv (set_coro W_any_completed (set_status (completed i) s)).
Proof.
  intros Hw Hr Hp Hst.
  assert (Hc : coro s = W_any_suspended).
  { assert (Hpc := i_pc s Hw). unfold pc_ok in Hpc. rewrite Hst in Hpc.
    destruct (coro s) as [| | | | | | | | | | |[]|[]| |]; try done; try (by destruct Hpc as [_ ?]);
      try (by destruct Hpc as [? _]); try (by destruct Hpc as [j Hpc]); by destruct Hpc as (_ & j & H1 & H2 & _); subst. }
  split; [done|]. apply winv_coro; [done| |by exists i|by intros j [= <-]; eauto].
  intros k x _ _. rewrite Hc. simpl. by left.
Qed.

Lemma winv_resumed s n : winv s -> winv (set_resumed n s).
Proof. intros []. by constructor. Qed.

Lemma winv_try s i s' : winv s -> producer_acts i s = Some s' -> winv s'.
Proof.
  intros Hw. unfold producer_acts, lift. destruct (states s !! i) as [r|] eqn:Hr; [|done].
  assert (Hlift : match producer_step r with Some r => Some (set_states (<[i := r]> (states s)) s) | None => None end = Some s' -> winv s').
  { destruct (producer_step r) as [r'|] eqn:E; [|done]. intros [= <-]. by eapply winv_producer. }
  destruct (prod r) as [| | | |a| | | |] eqn:Ep; auto. destruct a; auto. clear Hlift. unfold try_step.
  destruct (tries s !! i) as [t|] eqn:Ht; [|done].
  destruct (try_resume_step i t (m_status s)) as [[t' st']|] eqn:Et; [|done].
  assert (Hgone : exists r', producer_step r = Some r' /\ prod r' = P_gone).
  { unfold producer_step. rewrite Ep. by eexists. }
  destruct Hgone as (r' & Er & Eg). assert (Hw1 := winv_producer s i r r' Hw Hr Er).
  set (s1 := set_states (<[i := r']> (states s)) s) in *.
  assert (Hr1 : states s1 !! i = Some r') by (simpl; by apply list_lookup_insert_eq; eapply lookup_lt_Some).
  assert (Hw2 : winv (set_tries (<[i := t']> (tries s1)) s1)).
  { apply winv_tries; [done|]. intros x Hx. assert (x = r') as -> by congruence. unfold try_ok. by rewrite Eg. }
  assert (Hpub : published (prod r') = true) by (by rewrite Eg).
  destruct (try_resume_cases _ _ _ _ _ Et) as [[-> Hne]|[(Hst & -> & ->)|(Hst & -> & ->)]].
  - assert (Hsame : set_status (m_status s) s = s) by (by destruct s).
    assert (Hnot : (forall b, t' <> tr_returned b) -> winv (set_tries (<[i := t']> (tries s)) s)).
    { intros H. apply winv_tries; [done|]. intros x Hx. assert (x = r) as -> by congruence. unfold try_ok. by rewrite Ep. }
    rewrite Hsame. destruct t' as [| | |[]]; try done; try (intros [= <-]; by apply Hnot).
    unfold lift. simpl. rewrite Hr, Er. intros [= <-]. exact Hw2.
  - unfold lift. simpl. rewrite Hr, Er. intros [= <-]. by apply (winv_status _ i r' Hw2).
  - unfold resume_coro. simpl. destruct (winv_resume _ i r' Hw2 Hr1 Hpub Hst) as [Hc Hw3]. simpl in Hc. rewrite Hc.
    unfold lift. simpl. rewrite Hr, Er. intros [= <-]. by apply (winv_resumed _ (S (resumed s))) in Hw3.
Qed.

(** *** The coroutine *)
Lemma winv_in_call s k ret s' :
  winv s -> k < length (states s) -> in_call k ret s = Some s' ->
  (forall r next, states s !! k = Some r -> inv r -> phase_ok (phase_of (coro s) k) (cons r) ->
     ret (cons r) = Some next -> winv (set_coro next s)) -> winv s'.
Proof.
  intros Hw Hk Hs Hret. apply lookup_lt_is_Some in Hk as [r Hr]. unfold in_call in Hs. rewrite Hr in Hs.
  destruct (i_states s Hw k r Hr) as [Hi Hph]. destruct (ret (cons r)) as [next|] eqn:E.
  - injection Hs as <-. by eapply Hret.
  - destruct (consumer_step r) as [r'|] eqn:Er; [|done]. injection Hs as <-.
    destruct (consumer_keeps _ _ Er) as [_ Hp]. eapply winv_state; try done.
    + by eapply inv_consumer.
    + by eapply consumer_phase.
    + by rewrite Hp.
    + intros t. unfold try_ok. by rewrite Hp.
Qed.

Lemma around_at k a b c : around k k a b c = b.
Proof. unfold around. rewrite decide_False by lia. by rewrite decide_True. Qed.

Local Ltac phases := unfold around; repeat case_decide; subst; try done; try lia.

Lemma winv_all_step s p s' : winv s -> coro s = p -> when_all_step p s = Some s' -> winv s'.
Proof.
  intros Hw Hc Hs. assert (Hpc := i_pc s Hw). unfold pc_ok in Hpc. rewrite Hc in Hpc.
  destruct p; try done; simpl in Hs.
  - injection Hs as <-. destruct Hpc as [Hle Hst]. destruct (Nat.ltb_spec i (length (states s))).
    + apply winv_call; [done|done| | |done].
      * intros r Hr. destruct (i_states s Hw i r Hr) as [_ Hph]. rewrite Hc in Hph. simpl in Hph. rewrite around_at in Hph.
        destruct Hph as (k & E & Hk). simpl. rewrite around_at.
        by apply (call_phase (call_await the_coroutine) k r E Hk); left.
      * intros j Hj. rewrite Hc. simpl. phases.
    + apply winv_goto; [done| |done]. intros k r Hr _ Hph. rewrite Hc in Hph. simpl in *.
      apply lookup_lt_Some in Hr. revert Hph. phases.
  - destruct Hpc as [Hlt Hst]. eapply winv_in_call; [done|exact Hlt|exact Hs|]. intros r next Hr Hi Hph Hret.
    assert (H : exists b, cons r = C_own (r_await b) /\ next = W_all_next (S i)) by (clear -Hret; destruct (cons r); try done; repeat case_match; simplify_eq; eauto).
    destruct H as (b & E & ->). apply winv_goto; [done| |by split]. intros k x Hx _ Hp. rewrite Hc in Hp. simpl in *. revert Hp. phases;
    intros _; (assert (x = r) as -> by congruence); rewrite E; simpl; eauto.
Qed.

Lemma winv_suspend_step s p s' : winv s -> coro s = p -> when_any_suspend_step p s = Some s' -> winv s'.
Proof.
  intros Hw Hc Hs. assert (Hpc := i_pc s Hw). unfold pc_ok in Hpc. rewrite Hc in Hpc.
  destruct p; try done; simpl in Hs.
  - injection Hs as <-. destruct Hpc as [Hle Hst]. destruct (Nat.ltb_spec i (length (states s))).
    + unfold any_result_finished. rewrite decide_False by done. destruct (decide (m_status s = k_processing)) as [E|E].
      * rewrite bool_decide_eq_false_2 by naive_solver. apply winv_call; [done|done| | |done].
        -- intros r Hr. destruct (i_states s Hw i r Hr) as [_ Hph]. rewrite Hc in Hph. simpl in Hph. rewrite around_at in Hph.
           destruct Hph as (k & Ek & Hk). simpl. rewrite around_at.
           by apply (call_phase (call_when_any the_context) k r Ek Hk); auto.
        -- intros j Hj. rewrite Hc. simpl. phases.
      * rewrite bool_decide_eq_true_2 by done. apply winv_goto; [done| |].
        -- intros k r Hr _ Hph. rewrite Hc in Hph. simpl in *. revert Hph. phases; auto.
        -- unfold pc_ok. simpl. destruct (m_status s); eauto; done.
    + apply winv_goto; [done| |done]. intros k r Hr _ Hph. rewrite Hc in Hph. simpl in *.
      apply lookup_lt_Some in Hr. revert Hph. phases.
  - destruct Hpc as [Hlt Hst]. eapply winv_in_call; [done|exact Hlt|exact Hs|]. intros r next Hr Hi Hph Hret.
    assert (H : exists st, cons r = C_registered (r_any st) /\
              next = if decide (st = producer_done) then W_any_inline_load i else W_any_next (S i)).
    { clear -Hret. destruct (cons r) as [|k| | | | | | | | | | | | | | | | | | | | | | | | | | | | | | | | | | | |]; try done.
      destruct k; try done. injection Hret as <-. eauto. }
    destruct H as (st & E & ->).
    assert (Hphs : forall k x, states s !! k = Some x -> phase_ok (phase_of (coro s) k) (cons x) ->
              phase_ok (around k i ph_registered ph_registered ph_usable) (cons x)).
    { intros k x Hx Hp. rewrite Hc in Hp. simpl in *. revert Hp. phases; intros _; (assert (x = r) as -> by congruence);
      rewrite E; simpl; eauto. }
    case_decide as Hd; simplify_eq; (apply winv_goto; [done| |]).
    + intros k x Hx _ Hp. simpl. by apply Hphs.
    + split; [done|]. exists r. split; [done|]. by apply registered_done_published.
    + intros k x Hx _ Hp. apply (Hphs k x Hx) in Hp. simpl. revert Hp. phases.
    + by split.
  - destruct Hpc as [Hst (r & Hr & Hpub)]. injection Hs as <-. unfold resume_inline_load. rewrite decide_False by done.
    case_decide as E.
    + apply winv_goto; [done| |by split; eauto]. intros k x Hx _ Hp. rewrite Hc in Hp. exact Hp.
    + apply winv_goto; [done| |].
      * intros k x Hx _ Hph. rewrite Hc in Hph. simpl in *. revert Hph. phases; auto.
      * unfold pc_ok. simpl. destruct (m_status s); eauto; done.
  - destruct Hpc as [Hst (r & Hr & Hpub)]. injection Hs as <-. apply winv_coro; [done| | |].
    + intros k x Hx _ Hph. rewrite Hc in Hph. simpl in *. revert Hph. phases; auto.
    + unfold pc_ok, resume_inline_cas, when_any_context.cas. simpl. case_decide; simpl; [eauto|]. destruct (m_status s); eauto; done.
    + unfold resume_inline_cas, when_any_context.cas. simpl. case_decide; simpl; [intros j [= <-]; eauto|apply Hw].
  - injection Hs as <-. unfold finish_processing. rewrite decide_False by done. unfold when_any_context.cas. case_decide as E.
    + apply winv_coro; [done|by rewrite Hc|done|done].
    + rewrite set_same_status. apply winv_goto; [done| |].
      * rewrite Hc. simpl. auto.
      * unfold pc_ok. simpl. destruct (m_status s); eauto; done.
Qed.

Lemma winv_resume_step s p s' : winv s -> coro s = p -> when_any_resume_step p s = Some s' -> winv s'.
Proof.
  intros Hw Hc Hs. assert (Hpc := i_pc s Hw). unfold pc_ok in Hpc. rewrite Hc in Hpc.
  destruct p; try done; simpl in Hs.
  - injection Hs as <-. destruct Hpc as [j Hj]. apply winv_goto; [done| |].
    + intros k x Hx _ Hph. rewrite Hc in Hph. simpl in *. phases.
    + split; [apply Nat.le_0_l|]. exists j. split; [exact Hj|]. split; [done|]. case_decide; [lia|done].
  - injection Hs as <-. destruct Hpc as (Hle & j & -> & Hj & ->). destruct (Nat.ltb_spec i (length (states s))).
    + apply winv_call; [done|done| | |].
      * intros r Hr. destruct (i_states s Hw i r Hr) as [_ Hph]. rewrite Hc in Hph. simpl in Hph. rewrite around_at in Hph.
        simpl. rewrite around_at. destruct Hph as [[st E]|(k & E & Hk)].
        -- by eapply rewind_phase.
        -- by apply (call_phase call_rewind k r E Hk); auto.
      * intros k Hk. rewrite Hc. simpl. phases.
      * split; [done|]. eauto.
    + destruct (i_completed s Hw j Hj) as (r & Hr & _). apply lookup_lt_Some in Hr.
      rewrite decide_True by lia. apply winv_goto; [done| |done].
      intros k x Hx _ Hph. rewrite Hc in Hph. simpl in *. apply lookup_lt_Some in Hx. revert Hph. phases.
  - destruct Hpc as (Hlt & j & -> & Hj & ->). eapply winv_in_call; [done|exact Hlt|exact Hs|]. intros r next Hr Hi Hph Hret.
    rewrite Hc in Hph. simpl in Hph. rewrite around_at in Hph.
    assert (H : exists k, cons r = C_own k /\
              next = W_any_rewind_next (S i) (completed j) (if decide (completed j = completed i) then Some i else
                       if decide (j < i) then Some j else None)) by (clear -Hret; destruct (cons r); simplify_eq; eauto).
    destruct H as (c & E & ->).
    apply winv_goto; [done| |].
    + intros k x Hx _ Hp. rewrite Hc in Hp. simpl in *. revert Hp. phases; intros _; (assert (x = r) as -> by congruence); rewrite E in *; simpl in *; by destruct c.
    + split; [simpl; lia|]. exists j. split; [done|]. split; [done|]. simpl.
      destruct (decide (completed j = completed i)) as [E'|Hne]; [injection E' as ->; by rewrite decide_True by lia|].
      assert (j <> i) by congruence. repeat case_decide; unfold addr in *; done || lia.
Qed.

Lemma winv_coro_step s s' : winv s -> coro_step s = Some s' -> winv s'.
Proof.
  intros Hw Hs. unfold coro_step in Hs. destruct (coro s) eqn:Hc; try done;
    try (by eapply winv_all_step); try (by eapply winv_suspend_step); try (by eapply winv_resume_step).
  injection Hs as <-. assert (Hpc := i_pc s Hw). unfold pc_ok in Hpc. rewrite Hc in Hpc.
  apply winv_goto; [done|by rewrite Hc; destruct index|]. unfold pc_ok. simpl. by destruct index.
Qed.

Lemma winv_step l s s' : winv s -> step l s = Some s' -> winv s'.
Proof.
  intros Hw Hs. destruct l as [| |i c|i e|i h|i]; cbn [step] in Hs.
  - by eapply winv_coro_step.
  - destruct (coro s) eqn:Hc; try done. injection Hs as <-. assert (Hpc := i_pc s Hw). unfold pc_ok in Hpc. rewrite Hc in Hpc.
    apply winv_goto; [done| |].
    + intros k r _ _ Hph. rewrite Hc in Hph. destruct index; simpl in *; [exists r_rewound; by split|].
      destruct Hph as [b Hb]. exists (r_await b). by split.
    + unfold pc_ok. simpl. destruct index; [|done]. by rewrite Hpc.
  - unfold lift in Hs. destruct (states s !! i) as [r|] eqn:Hr; [|done]. destruct (ResultState.step _ r) as [r'|] eqn:E; [|done].
    injection Hs as <-. by eapply winv_set.
  - unfold lift in Hs. destruct (states s !! i) as [r|] eqn:Hr; [|done]. destruct (ResultState.step _ r) as [r'|] eqn:E; [|done].
    injection Hs as <-. by eapply winv_set.
  - unfold lift in Hs. destruct (states s !! i) as [r|] eqn:Hr; [|done]. destruct (ResultState.step _ r) as [r'|] eqn:E; [|done].
    injection Hs as <-. by eapply winv_set.
  - by eapply winv_try.
Qed.

Lemma winv_init p rs : given rs -> p = W_all_next 0 \/ p = W_any_next 0 -> winv (init_with p rs).
Proof.
  intros Hg Hp. constructor; simpl.
  - intros i r Hr. destruct (Hg i r Hr) as [Hreach Hu]. split; [by apply inv_reachable|].
    destruct Hp as [->| ->]; simpl; unfold around; repeat case_decide; done || lia.
  - by destruct Hp as [->| ->]; split; simpl; try lia.
  - done.
  - apply length_replicate.
  - intros i r t _ Ht. apply lookup_replicate in Ht as [-> _]. unfold try_ok. by destruct (prod r) as [| | | |[]| | | |].
Qed.

Lemma winv_reachable p rs s :
  given rs -> p = W_all_next 0 \/ p = W_any_next 0 -> reachable step (init_with p rs) s -> winv s.
Proof. intros Hg Hp. apply reachable_invariant; [by apply winv_init|]. intros l s1 s2. apply winv_step. Qed.
End invariant.
