(* ===== verification/WhenResultTheorems.v ===== *)
(** * when_all and when_any: theorems *)

From stdpp Require Import prelude list strings.
From Stdlib Require Import ZArith Lia.
From S2P Require Import Prelude Errors ProducerContext ConsumerContext ResultState ResultStateProps ResultStateFacts WhenResult WhenResultProps.

Import when_any_context.
Local Open Scope list_scope.

Section theorems.
Context {T : Type}.
Notation rstate := (ResultState.state T).
Implicit Types s : WhenResult.state T.
Implicit Types r : rstate.
Notation step := (@WhenResult.step T).

(** ** The coroutine is resumed once *)
Definition waiting (p : pc) : bool :=
  match p with
  | W_any_completed | W_any_rewind_next _ _ _ | W_any_rewind _ _ _ | W_resume_on _ | W_done _ | W_interrupted | W_aborted => false
  | _ => true
  end.

Definition resumed_ok s : Prop := if waiting (coro s) then resumed s = 0 else resumed s <= 1.

(** The coroutine does not wait again, and does not resume itself. *)
Definition goes_on s s' : Prop := resumed s' = resumed s /\ (waiting (coro s') = true -> waiting (coro s) = true).

Lemma lift_goes_on i f s s' : lift i f s = Some s' -> goes_on s s'.
Proof. unfold lift. intros Hs. by repeat case_match; simplify_eq/=. Qed.

Lemma call_goes_on i c p s : waiting (coro s) = true \/ waiting p = false -> goes_on s (call_at i c p s).
Proof. unfold call_at, goes_on. intros H. repeat case_match; simpl; split; try done; intros; destruct H; congruence. Qed.

Lemma in_call_goes_on i ret s s' :
  in_call i ret s = Some s' -> (waiting (coro s) = true \/ forall c p, ret c = Some p -> waiting p = false) -> goes_on s s'.
Proof.
  unfold in_call, goes_on. intros Hs H. repeat case_match; simplify_eq/=; split; try done.
  intros Hp. destruct H as [H|H]; [done|]. rewrite (H _ _ H1) in Hp. done.
Qed.

Lemma coro_goes_on s s' : coro_step s = Some s' -> goes_on s s'.
Proof.
  intros Hs. unfold coro_step in Hs. destruct (coro s) eqn:Hc; try done; simpl in Hs.
  all: try (by eapply in_call_goes_on; [exact Hs|left; by rewrite Hc]).
  all: simplify_eq; repeat case_match.
  all: try (apply call_goes_on; rewrite Hc; by auto).
  all: try (split; simpl; rewrite ?Hc; done).
  all: eapply in_call_goes_on; [exact Hs|right]; intros c p E; by repeat case_match; simplify_eq.
Qed.

Lemma resumed_step l s s' : step l s = Some s' -> resumed_ok s -> resumed_ok s'.
Proof.
  intros Hs Hr. assert (Hgo : goes_on s s' -> resumed_ok s').
  { intros [E H]. unfold resumed_ok in *. rewrite E. destruct (waiting (coro s')); [by rewrite H in Hr|].
    destruct (waiting (coro s)); lia. }
  destruct l; cbn [step WhenResult.step] in Hs; try (by eapply Hgo, lift_goes_on).
  - by eapply Hgo, coro_goes_on.
  - destruct (coro s) eqn:Hc; try done. simplify_eq. apply Hgo. split; [done|]. done.
  - unfold producer_acts in Hs. destruct (states s !! i) as [r|]; [|done].
    destruct (prod r) as [| | | |[]| | | |]; try (by eapply Hgo, lift_goes_on). unfold try_step in Hs.
    destruct (tries s !! i) as [t|]; [|done]. destruct (try_resume_step i t (m_status s)) as [[t' st']|]; [|done].
    destruct t' as [| | |[]]; simplify_eq; try (by apply Hgo).
    + apply lift_goes_on in Hs as [E H]. unfold resume_coro in *. simpl in *. unfold resumed_ok in *.
      destruct (coro s); simpl in *; rewrite E; destruct (waiting (coro s')); try done; try lia; by specialize (H eq_refl).
    + apply lift_goes_on in Hs as [E H]. apply Hgo. by split.
Qed.

(** ** Which of the two functions runs *)
Definition in_when_all (p : pc) : bool :=
  match p with W_all_next _ | W_all_await _ | W_resume_on None | W_done None | W_interrupted | W_aborted => true | _ => false end.
Definition in_when_any (p : pc) : bool :=
  match p with W_all_next _ | W_all_await _ | W_resume_on None | W_done None => false | _ => true end.

(** A property of the program counter that the coroutine keeps. *)
Definition keeps (f : pc -> bool) (s s' : WhenResult.state T) : Prop := f (coro s) = true -> f (coro s') = true.

Lemma lift_keeps f i g s s' : lift i g s = Some s' -> keeps f s s'.
Proof. unfold lift, keeps. intros Hs. by repeat case_match; simplify_eq/=. Qed.

Lemma call_at_keeps f i c p s : f W_aborted = true -> (f (coro s) = true -> f p = true) -> keeps f s (call_at i c p s).
Proof. unfold call_at, keeps. intros H1 H2. repeat case_match; simpl; auto. Qed.

Lemma in_call_keeps f i ret s s' :
  in_call i ret s = Some s' -> f W_aborted = true ->
  (f (coro s) = true -> forall c p, ret c = Some p -> f p = true) -> keeps f s s'.
Proof. unfold in_call, keeps. intros Hs H1 H2 H. repeat case_match; simplify_eq/=; eauto. Qed.

Lemma coro_keeps f s s' : f = in_when_all \/ f = in_when_any -> coro_step s = Some s' -> keeps f s s'.
Proof.
  intros Hf Hs. assert (Ha : f W_aborted = true) by (by destruct Hf; subst).
  unfold coro_step in Hs. destruct (coro s) eqn:Hc; try done; simpl in Hs.
  all: try (eapply in_call_keeps; [exact Hs|exact Ha|]; rewrite Hc; intros Hfc c p E;
            destruct Hf; subst f; try done; by repeat case_match; simplify_eq).
  all: simplify_eq; repeat case_match.
  all: try (apply call_at_keeps; [exact Ha|]; rewrite Hc; by destruct Hf; subst f).
  all: unfold keeps; simpl; rewrite Hc; by destruct Hf; subst f.
Qed.

Lemma family_step f l s s' : f = in_when_all \/ f = in_when_any -> step l s = Some s' -> keeps f s s'.
Proof.
  intros Hf Hs. destruct l; cbn [step WhenResult.step] in Hs; try (by eapply lift_keeps).
  - by eapply coro_keeps.
  - unfold keeps. destruct (coro s) eqn:Hc; try done. simplify_eq. by destruct Hf; subst f.
  - unfold producer_acts in Hs. destruct (states s !! i) as [r|]; [|done].
    destruct (prod r) as [| | | |[]| | | |]; try (by eapply lift_keeps). unfold try_step in Hs.
    destruct (tries s !! i) as [t|]; [|done]. destruct (try_resume_step i t (m_status s)) as [[t' st']|]; [|done].
    destruct t' as [| | |[]]; simplify_eq; try (by unfold keeps).
    + apply (lift_keeps f) in Hs. unfold keeps, resume_coro in *. simpl in *.
      destruct (coro s); simpl in *; intros H; apply Hs; by destruct Hf; subst f.
    + by apply (lift_keeps f) in Hs.
Qed.

(** ** The coroutine alone *)

(** An upper bound of the actions the coroutine has left. *)
Definition call_rank (c : consumer_pc T) : nat :=
  match c with
  | C_await_load _ | C_wa_load _ | C_rewind_load _ => 4
  | C_await_set _ | C_wa_set _ _ | C_rewind_cas _ => 3
  | C_await_cas _ | C_wa_cas _ _ | C_rewind_clear _ => 2
  | C_assert_done _ => 1
  | _ => 0
  end.

Definition rank_at s (k : nat) : nat := match states s !! k with Some r => call_rank (cons r) | None => 0 end.

Definition left_over s : nat :=
  let n := length (states s) in
  match coro s with
  | W_all_next k | W_any_rewind_next k _ _ => 7 * (n - k) + 2
  | W_all_await k | W_any_rewind k _ _ => 7 * (n - S k) + 3 + rank_at s k
  | W_any_next k => 7 * (n - k) + 7 * n + 8
  | W_any_register k => 7 * (n - S k) + 7 * n + 9 + rank_at s k
  | W_any_inline_load _ => 7 * n + 6
  | W_any_inline_cas _ | W_any_finish => 7 * n + 5
  | W_any_completed => 7 * n + 4
  | W_resume_on _ => 1
  | _ => 0
  end.

Definition rests (p : pc) : bool := match p with W_done _ | W_interrupted | W_any_suspended => true | _ => false end.

(** One of the calls of the coroutine has an action left, and gets closer to its
    end. *)
Lemma call_progress ph r :
  inv r -> phase_ok ph (cons r) -> ph = ph_awaiting \/ ph = ph_registering \/ ph = ph_rewinding ->
  0 < call_rank (cons r) -> exists r', consumer_step r = Some r' /\ call_rank (cons r') < call_rank (cons r).
Proof.
  intros Hi Hph Hp Hr. assert (Hs : exists r', consumer_step r = Some r').
  { unfold consumer_step, await_step, when_any_step, rewind_step. destruct (cons r); simpl in *; try lia; eauto;
      destruct (ResultState.cas _ _ r); eauto. }
  destruct Hs as [r' Hs]. exists r'. split; [done|].
  assert (Hph' := consumer_phase ph r r' Hi Hs Hph).
  unfold consumer_step in Hs. destruct (cons r) eqn:E; simpl in *; try lia.
  all: unfold await_step, when_any_step, rewind_step, assert_done_step, write_consumer, ResultState.cas in Hs;
    repeat case_match; simplify_eq/=; try lia.
  all: destruct Hp as [->|[->| ->]]; simpl in *; try done; lia.
Qed.

Lemma in_call_progress s k ph ret :
  winv s -> k < length (states s) -> phase_of (coro s) k = ph ->
  ph = ph_awaiting \/ ph = ph_registering \/ ph = ph_rewinding ->
  (forall c, phase_ok ph c -> call_rank c = 0 -> (exists h, c = C_suspended h) \/ is_Some (ret c)) ->
  (forall r, states s !! k = Some r -> forall h, cons r <> C_suspended h) ->
  (exists c next, phase_ok ph c /\ ret c = Some next /\ in_call k ret s = Some (set_coro next s)) \/
  (exists r r', states s !! k = Some r /\ call_rank (cons r') < call_rank (cons r) /\
     in_call k ret s = Some (set_states (<[k := r']> (states s)) s)).
Proof.
  intros Hw Hk Hph Hp Hret Hns. apply lookup_lt_is_Some in Hk as [r Hr]. destruct (i_states s Hw k r Hr) as [Hi Hr'].
  rewrite Hph in Hr'. unfold in_call. rewrite Hr. destruct (ret (cons r)) as [next|] eqn:E.
  - left. exists (cons r), next. by rewrite E.
  - right. assert (Hrank : 0 < call_rank (cons r)).
    { destruct (call_rank (cons r)) eqn:Ek; [|lia]. destruct (Hret _ Hr' Ek) as [[h Hh]|[x Hx]]; [by destruct (Hns r Hr h)|congruence]. }
    destruct (call_progress ph r Hi Hr' Hp Hrank) as (r' & E' & Hlt). exists r, r'. rewrite E'. done.
Qed.

Lemma gone_not_suspended r h : inv r -> prod r = P_gone -> cons r <> C_suspended h.
Proof. intros Hi Hp E. unfold inv, published_inv in Hi. rewrite Hp, E in Hi. naive_solver. Qed.

Lemma not_suspended ph r h : ph = ph_registering \/ ph = ph_rewinding -> phase_ok ph (cons r) -> cons r <> C_suspended h.
Proof. intros Hp Hph E. rewrite E in Hph. by destruct Hp; subst. Qed.

Lemma rank_at_set s k r r' : states s !! k = Some r -> rank_at (set_states (<[k := r']> (states s)) s) k = call_rank (cons r').
Proof. intros Hr. unfold rank_at. simpl. rewrite list_lookup_insert_eq; [done|]. by eapply lookup_lt_Some. Qed.

Lemma rank_at_eq s k r : states s !! k = Some r -> rank_at s k = call_rank (cons r).
Proof. intros Hr. unfold rank_at. by rewrite Hr. Qed.

Lemma rank_at_bound s k : rank_at s k <= 4.
Proof. unfold rank_at. destruct (states s !! k) as [r|]; [|lia]. destruct (cons r); simpl; lia. Qed.

Lemma call_at_left k c next s :
  winv s -> k < length (states s) -> coro (call_at k c next s) <> W_aborted ->
  coro (call_at k c next s) = next /\ length (states (call_at k c next s)) = length (states s).
Proof.
  intros Hw Hk. apply lookup_lt_is_Some in Hk as [r Hr]. unfold call_at. rewrite Hr.
  destruct (call_step c r) as [r'|]; [|done]. intros _. simpl. by rewrite length_insert.
Qed.

Lemma winv_not_aborted s : winv s -> coro s <> W_aborted.
Proof. intros Hw E. assert (H := i_pc s Hw). unfold pc_ok in H. by rewrite E in H. Qed.

Lemma call_closer s k c next :
  winv s -> k < length (states s) -> coro_step s = Some (call_at k c next s) ->
  (forall s', coro s' = next -> length (states s') = length (states s) -> left_over s' < left_over s) ->
  left_over (call_at k c next s) < left_over s.
Proof.
  intros Hw Hk E H. apply winv_coro_step in E; [|done].
  destruct (call_at_left k c next s Hw Hk (winv_not_aborted _ E)) as [E1 E2]. by apply H.
Qed.

(** The coroutine can act, and gets closer to its end. *)
Definition progresses s : Prop := exists s', coro_step s = Some s' /\ left_over s' < left_over s.

Local Ltac start Hw Hcall Hpc Hc :=
  intros Hw; assert (Hcall := fun k c next => call_closer _ k c next Hw); assert (Hpc := i_pc _ Hw);
  unfold pc_ok in Hpc; unfold progresses, coro_step in *;
  match goal with |- context [coro ?s] => destruct (coro s) as [k|k|k|k|k|k| | | |k r ix|k r ix|ix|ix| |] eqn:Hc end;
  try done; simpl in *.

Lemma all_progress s :
  winv s -> match coro s with W_all_next _ | W_all_await _ => True | _ => False end ->
  (forall k r, coro s = W_all_await k -> states s !! k = Some r -> prod r = P_gone) -> progresses s.
Proof.
  start Hw Hcall Hpc Hc; intros _ Hgone.
  - eexists. split; [done|]. destruct (Nat.ltb_spec k (length (states s))) as [Hk|Hk].
    + apply Hcall; [done|done|]. intros s' E1 E2. assert (Hb := rank_at_bound s' k). unfold left_over. rewrite E1, Hc, E2. lia.
    + unfold left_over. rewrite Hc. simpl. lia.
  - destruct Hpc as [Hk _].
    destruct (in_call_progress s k ph_awaiting (fun c => match c with C_own (r_await _) => Some (W_all_next (S k)) | _ => None end))
      as [(c & next & Hph & Hret & E)|(r & r' & Hr & Hlt & E)]; try done.
    + rewrite Hc. apply around_at.
    + by left.
    + intros c Hph Hr. destruct c; simpl in *; try done; try lia; [|by left; eauto]. right. by destruct r.
    + intros r Hr h. apply gone_not_suspended; [by apply (i_states s Hw k)|by eapply Hgone].
    + rewrite E. eexists. split; [done|]. unfold left_over. rewrite Hc. simpl.
      assert (next = W_all_next (S k)) as -> by (repeat case_match; congruence). lia.
    + rewrite E. eexists. split; [done|]. unfold left_over. simpl. rewrite Hc, length_insert, (rank_at_set _ _ _ _ Hr), (rank_at_eq _ _ _ Hr). lia.
Qed.

Lemma suspend_progress s :
  winv s -> match coro s with
            | W_any_next _ | W_any_register _ | W_any_inline_load _ | W_any_inline_cas _ | W_any_finish => True
            | _ => False
            end -> progresses s.
Proof.
  start Hw Hcall Hpc Hc; intros _.
  - destruct Hpc as [Hle Hst]. unfold any_result_finished in *. rewrite decide_False in * by done. eexists. split; [done|].
    destruct (Nat.ltb_spec k (length (states s))) as [Hk|Hk].
    + case_bool_decide.
      * unfold left_over. rewrite Hc. simpl. lia.
      * apply Hcall; [done|done|]. intros s' E1 E2. assert (Hb := rank_at_bound s' k). unfold left_over. rewrite E1, Hc, E2. lia.
    + unfold left_over. rewrite Hc. simpl. lia.
  - destruct Hpc as [Hk _].
    destruct (in_call_progress s k ph_registering (fun c => match c with
        | C_registered (r_any st) => Some (if decide (st = producer_done) then W_any_inline_load k else W_any_next (S k)) | _ => None end))
      as [(c & next & Hph & Hret & E)|(r & r' & Hr & Hlt & E)]; try done.
    + rewrite Hc. apply around_at.
    + auto.
    + intros c Hph Hr. right. destruct c; simpl in *; try done; try lia. by destruct r.
    + intros r Hr h. apply (not_suspended ph_registering); [auto|]. destruct (i_states s Hw k r Hr) as [_ H].
      rewrite Hc in H. simpl in H. by rewrite around_at in H.
    + rewrite E. eexists. split; [done|]. unfold left_over. rewrite Hc. simpl.
      assert (next = W_any_inline_load k \/ next = W_any_next (S k)) as [-> | ->]
        by (repeat case_match; simplify_eq; auto); lia.
    + rewrite E. eexists. split; [done|]. unfold left_over. simpl. rewrite Hc, length_insert, (rank_at_set _ _ _ _ Hr), (rank_at_eq _ _ _ Hr). lia.
  - destruct Hpc as [Hst _]. unfold resume_inline_load. rewrite decide_False by done. eexists. split; [done|].
    case_decide; unfold left_over; rewrite Hc; simpl; lia.
  - eexists. split; [done|]. unfold left_over; rewrite Hc; simpl; lia.
  - unfold finish_processing. rewrite decide_False by done. eexists. split; [done|]. unfold when_any_context.cas.
    case_decide; unfold left_over; rewrite Hc; simpl; lia.
Qed.

Lemma resume_progress s :
  winv s -> match coro s with W_any_completed | W_any_rewind_next _ _ _ | W_any_rewind _ _ _ => True | _ => False end ->
  progresses s.
Proof.
  start Hw Hcall Hpc Hc; intros _.
  - eexists. split; [done|]. unfold left_over; rewrite Hc; simpl; lia.
  - destruct Hpc as (Hle & j & -> & Hj & ->). eexists. split; [done|]. destruct (Nat.ltb_spec k (length (states s))) as [Hk|Hk].
    + apply Hcall; [done|done|]. intros s' E1 E2. assert (Hb := rank_at_bound s' k). unfold left_over. rewrite E1, Hc, E2. lia.
    + destruct (i_completed s Hw j Hj) as (r & Hr & _). apply lookup_lt_Some in Hr.
      rewrite decide_True by lia. unfold left_over; rewrite Hc; simpl; lia.
  - destruct Hpc as [Hk _].
    destruct (in_call_progress s k ph_rewinding (fun c => match c with
        | C_own _ => Some (W_any_rewind_next (S k) r (if decide (r = completed k) then Some k else ix)) | _ => None end))
      as [(c & next & Hph & Hret & E)|(r0 & r' & Hr & Hlt & E)]; try done.
    + rewrite Hc. apply around_at.
    + auto.
    + intros c Hph Hr. right. destruct c; simpl in *; try done; lia.
    + intros r0 Hr h. apply (not_suspended ph_rewinding); [auto|]. destruct (i_states s Hw k r0 Hr) as [_ H].
      rewrite Hc in H. simpl in H. by rewrite around_at in H.
    + rewrite E. eexists. split; [done|]. unfold left_over. rewrite Hc. simpl.
      destruct c; simplify_eq. lia.
    + rewrite E. eexists. split; [done|]. unfold left_over. simpl. rewrite Hc, length_insert, (rank_at_set _ _ _ _ Hr), (rank_at_eq _ _ _ Hr). lia.
Qed.

Lemma coro_progress s :
  winv s -> rests (coro s) = false ->
  (forall k r, coro s = W_all_await k -> states s !! k = Some r -> prod r = P_gone) -> progresses s.
Proof.
  intros Hw Hrest Hgone. destruct (coro s) eqn:Hc; try done;
    try (apply all_progress; [done|by rewrite Hc|by rewrite Hc]);
    try (apply suspend_progress; [done|by rewrite Hc]); try (apply resume_progress; [done|by rewrite Hc]).
  - unfold progresses, coro_step. rewrite Hc. eexists. split; [done|]. unfold left_over; rewrite Hc; simpl; lia.
  - by destruct (winv_not_aborted s Hw).
Qed.

(** The coroutine leaves the producers alone. *)
Definition prods s : list producer_pc := prod <$> states s.

Lemma prods_insert s i r r' : states s !! i = Some r -> prod r' = prod r -> prod <$> <[i := r']> (states s) = prods s.
Proof.
  intros Hr Hp. unfold prods. rewrite list_fmap_insert, Hp, list_insert_id; [done|]. by rewrite list_lookup_fmap, Hr.
Qed.

Lemma coro_prods s s' : coro_step s = Some s' -> prods s' = prods s.
Proof.
  assert (Hcall : forall i c p, prods (call_at i c p s) = prods s).
  { intros i c p. unfold call_at. destruct (states s !! i) as [r|] eqn:Hr; [|done].
    destruct (call_step c r) as [r'|] eqn:E; [|done]. apply (prods_insert s i r r' Hr).
    unfold call_step in E. by repeat case_match; simplify_eq/=. }
  assert (Hin : forall i ret, in_call i ret s = Some s' -> prods s' = prods s).
  { intros i ret. unfold in_call. destruct (states s !! i) as [r|] eqn:Hr; [|by intros [= <-]].
    destruct (ret (cons r)); [by intros [= <-]|]. destruct (consumer_step r) as [r'|] eqn:E; [|done]. intros [= <-].
    apply (prods_insert s i r r' Hr). apply (consumer_keeps _ _ E). }
  intros Hs. unfold coro_step in Hs. destruct (coro s); try done; simpl in Hs; try (by eapply Hin);
    simplify_eq; repeat case_match; try done; apply Hcall.
Qed.

Definition all_gone s : Prop := Forall (eq P_gone) (prods s).

Lemma all_gone_at s i r : all_gone s -> states s !! i = Some r -> prod r = P_gone.
Proof. intros Hg Hr. symmetry. eapply (Forall_lookup_1 _ _ i _ Hg). unfold prods. by rewrite list_lookup_fmap, Hr. Qed.

Lemma coro_runs (K : WhenResult.state T -> Prop) s :
  (forall s1 s2, coro_step s1 = Some s2 -> K s1 -> K s2) ->
  winv s -> all_gone s \/ in_when_any (coro s) = true -> K s ->
  exists n s', n <= left_over s /\ run step (replicate n L_coro) s = Some s' /\ rests (coro s') = true /\ winv s' /\ K s'.
Proof.
  intros HK Hw Hor Hs.
  destruct (run_measure step
    (fun s' => (winv s' /\ K s') /\ (all_gone s' \/ in_when_any (coro s') = true))
    (fun s' => rests (coro s')) left_over L_coro) with (s := s) as (n & s' & Hn & Hrun & ((H1 & H2) & _) & H3);
    [|done|by exists n, s'].
  clear -HK. intros s1 ((Hw1 & Hk1) & Hor) Hr.
  destruct (coro_progress s1 Hw1 Hr) as (s2 & E & Hlt).
  { intros k r Hk Hs. destruct Hor as [Hg|Ha]; [by eapply all_gone_at|by rewrite Hk in Ha]. }
  exists s2. split; [done|]. split; [|done]. split_ands; [by eapply winv_coro_step|by eapply HK|].
  destruct Hor as [Hg|Ha]; [left|right; by apply (coro_keeps in_when_any s1 s2 (or_intror eq_refl) E)].
  unfold all_gone. by rewrite (coro_prods _ _ E).
Qed.

(** Once it was resumed, the context does not change any more. *)
Lemma coro_after s s' : coro_step s = Some s' -> waiting (coro s) = false -> waiting (coro s') = false /\ m_status s' = m_status s.
Proof.
  intros Hs Hwait. split.
  - destruct (coro_goes_on _ _ Hs) as [_ H]. destruct (waiting (coro s')); [|done]. by rewrite H in Hwait.
  - assert (Hcall : forall i c p, m_status (call_at i c p s) = m_status s) by (intros; unfold call_at; by repeat case_match).
    assert (Hin : forall i ret, in_call i ret s = Some s' -> m_status s' = m_status s).
    { intros i ret. unfold in_call. intros E. by repeat case_match; simplify_eq. }
    unfold coro_step in Hs. destruct (coro s); try done; simpl in Hs; try (by eapply Hin);
      simplify_eq; repeat case_match; try done; apply Hcall.
Qed.

(** The coroutine does not interrupt itself. *)
Lemma coro_not_interrupted s s' : coro_step s = Some s' -> coro s' <> W_interrupted.
Proof.
  intros Hs E.
  assert (Hcall : forall i c p, p <> W_interrupted -> coro (call_at i c p s) <> W_interrupted).
  { intros i c p Hp. unfold call_at. by repeat case_match. }
  assert (Hin : forall i ret, in_call i ret s = Some s' -> coro s <> W_interrupted ->
    exists c, ret c = Some W_interrupted).
  { intros i ret. unfold in_call. intros E' Hn. repeat case_match; simplify_eq/=; by eauto. }
  unfold coro_step in Hs. destruct (coro s) eqn:Hc; try done; simpl in Hs.
  all: try (destruct (Hin _ _ Hs) as [c H]; [done|]; by repeat case_match).
  all: simplify_eq; repeat case_match; simpl in *; try done; try (by eapply Hcall in E).
Qed.

(** What holds when the coroutine returns. *)
Lemma all_usable s ix i r : winv s -> coro s = W_done ix -> states s !! i = Some r -> is_usable r.
Proof.
  intros Hw Hc Hr. destruct (i_states s Hw i r Hr) as [_ H]. rewrite Hc in H. destruct ix; simpl in H.
  - by exists r_rewound.
  - destruct H as [b E]. by exists (r_await b).
Qed.

Section from.
Variables (p : pc) (rs : list rstate).
Hypothesis Hgiven : given rs.
Hypothesis Hp : p = W_all_next 0 \/ p = W_any_next 0.
Notation reachable := (reachable step (init_with p rs)).

Lemma resumed_reachable s : reachable s -> resumed_ok s.
Proof.
  apply (reachable_invariant step (init_with p rs) resumed_ok); [by destruct Hp as [->| ->]|].
  intros l s1 s2 Hr Hs. by eapply resumed_step.
Qed.

Lemma family_reachable f s : f = in_when_all \/ f = in_when_any -> f p = true -> reachable s -> f (coro s) = true.
Proof.
  intros Hf Hfp. apply (reachable_invariant step (init_with p rs) (fun s => f (coro s) = true)); [done|].
  intros l s1 s2 H Hs. by apply (family_step f l s1 s2 Hf Hs).
Qed.

(** Nothing fails, for either function. *)
Lemma nothing_fails s : reachable s ->
  coro s <> W_aborted /\ resumed s <= 1 /\
  (forall i r, states s !! i = Some r -> cons r <> C_aborted /\ prod r <> P_aborted) /\
  (forall ix i r, coro s = W_done ix -> states s !! i = Some r -> is_usable r).
Proof.
  intros Hr. assert (Hw := winv_reachable p rs s Hgiven Hp Hr). split; [by apply winv_not_aborted|]. split.
  - assert (H := resumed_reachable s Hr). unfold resumed_ok in H. destruct (waiting (coro s)); lia.
  - split; [intros i r Hi; by apply inv_not_aborted, (i_states s Hw i)|]. intros ix i r Hc Hi. by eapply all_usable.
Qed.
End from.

(** C33. [when_all]: in every interleaving of the coroutine with the producers of
    its results nothing fails; when it returns, every result is ready and back in
    the hands of the caller, unchanged; and when the producers are done, the
    coroutine needs no more than [7 * n + 7] actions of its own to return. *)
Theorem when_all_waits_for_all rs s :
  given rs -> reachable step (when_all_init rs) s ->
  coro s <> W_aborted /\
  (forall i r, states s !! i = Some r -> cons r <> C_aborted /\ prod r <> P_aborted) /\
  (coro s = W_done None -> forall i r, states s !! i = Some r -> is_ready r /\ is_usable r) /\
  (all_gone s -> exists n s', run step (replicate n L_coro) s = Some s' /\ n <= 7 * length (states s) + 7 /\
     (coro s' = W_done None \/ coro s' = W_interrupted)).
Proof.
  intros Hg Hr. assert (Hp : W_all_next 0 = W_all_next 0 \/ W_all_next 0 = W_any_next 0) by auto.
  assert (Hw := winv_reachable _ rs s Hg Hp Hr). destruct (nothing_fails _ rs Hg Hp s Hr) as (H1 & _ & H2 & H3).
  split; [done|]. split; [done|]. split.
  - intros Hc i r Hi. split; [|by eapply H3]. destruct (i_states s Hw i r Hi) as [Hinv Hph]. rewrite Hc in Hph.
    destruct Hph as [b E]. by eapply awaited_ready.
  - intros Hgone. assert (Ha := family_reachable (W_all_next 0) rs in_when_all s (or_introl eq_refl) eq_refl Hr).
    destruct (coro_runs (fun s => in_when_all (coro s) = true) s) as (n & s' & Hn & E & Hrest & Hw' & Hk); auto.
    { intros s1 s2 E. by apply (coro_keeps in_when_all s1 s2 (or_introl eq_refl)). }
    exists n, s'. split; [done|]. split.
    + unfold left_over in Hn. assert (Hb := rank_at_bound s).
      destruct (coro s) as [k|k| | | | | | | | | |[]|[]| | ]; try done; try lia. specialize (Hb k). lia.
    + destruct (coro s') as [ | | | | | | | | | | |[]|[]| | ]; try done; auto.
Qed.

(** C34. [when_any]: in every interleaving of the coroutine with the producers of
    its results nothing fails, and the coroutine is resumed at most once; when it
    returns, the result whose index it returns is ready, and all the results are
    back in the hands of the caller, who may wait for them again. *)
Theorem when_any_returns_a_ready_result rs s :
  given rs -> reachable step (when_any_init rs) s ->
  coro s <> W_aborted /\ resumed s <= 1 /\
  (forall i r, states s !! i = Some r -> cons r <> C_aborted /\ prod r <> P_aborted) /\
  (forall index, coro s = W_done index ->
     (exists i r, index = Some i /\ states s !! i = Some r /\ is_ready r) /\
     (forall i r, states s !! i = Some r -> is_usable r)).
Proof.
  intros Hg Hr. assert (Hp : W_any_next 0 = W_all_next 0 \/ W_any_next 0 = W_any_next 0) by auto.
  assert (Hw := winv_reachable _ rs s Hg Hp Hr). destruct (nothing_fails _ rs Hg Hp s Hr) as (H1 & H2 & H3 & H4).
  split; [done|]. split; [done|]. split; [done|]. intros index Hc. split; [|intros i r; by eapply H4].
  assert (Ha := family_reachable (W_any_next 0) rs in_when_any s (or_intror eq_refl) eq_refl Hr). rewrite Hc in Ha.
  destruct index as [i|]; [|done]. assert (Hpc := i_pc s Hw). unfold pc_ok in Hpc. rewrite Hc in Hpc.
  destruct (i_completed s Hw i Hpc) as (r & Hi & Hpub). exists i, r. split; [done|]. split; [done|].
  destruct (i_states s Hw i r Hi) as [Hinv Hph]. by eapply published_ready.
Qed.

(** *** Completing one of the results of a suspended [when_any] *)
Lemma lift_eq i f s r r' : states s !! i = Some r -> f r = Some r' -> lift i f s = Some (set_states (<[i := r']> (states s)) s).
Proof. intros Hr E. unfold lift. by rewrite Hr, E. Qed.

Definition put (i : nat) (r : rstate) s := set_states (<[i := r]> (states s)) s.

Lemma put_at i r0 r s : states s !! i = Some r0 -> states (put i r s) !! i = Some r.
Proof. intros H. simpl. apply list_lookup_insert_eq. by eapply lookup_lt_Some. Qed.

Lemma put_put i r r' s : put i r' (put i r s) = put i r' s.
Proof. unfold put. simpl. by rewrite list_insert_insert_eq. Qed.

Lemma producer_puts i r0 r r' s :
  states s !! i = Some r0 -> producer_step r = Some r' ->
  match prod r with P_act (consumer_context.try_resume_when_any _) => False | _ => True end ->
  step (L_producer i) (put i r s) = Some (put i r' s).
Proof.
  intros H0 E Hp. cbn [step WhenResult.step]. unfold producer_acts. rewrite (put_at i r0 r s H0).
  assert (Hl : lift i producer_step (put i r s) = Some (put i r' s)).
  { rewrite (lift_eq i producer_step (put i r s) r r' (put_at i r0 r s H0) E). f_equal. apply put_put. }
  destruct (prod r) as [| | | |[]| | | |]; done.
Qed.

(** [try_resume] of the first producer that completes. *)
Lemma first_try i r0 r ctx s :
  states s !! i = Some r0 -> prod r = P_act (consumer_context.try_resume_when_any ctx) ->
  m_status s = k_done_processing -> tries s !! i = Some tr_load -> coro s = W_any_suspended ->
  run step (replicate 2 (L_producer i)) (put i r s) =
  Some (put i (set_prod P_gone r)
          (set_tries (<[i := tr_returned true]> (tries s))
             (set_status (completed i) (set_resumed (S (resumed s)) (set_coro W_any_completed s))))).
Proof.
  intros H0 Hp Hst Ht Hc. assert (Htl : i < length (tries s)) by (by eapply lookup_lt_Some).
  assert (Hl : i < length (states s)) by (by eapply lookup_lt_Some).
  destruct s as [R st tr co n]. simpl in *. subst st co.
  unfold producer_acts. simpl. rewrite list_lookup_insert_eq by done. rewrite Hp. unfold try_step. simpl. rewrite Ht. simpl.
  unfold producer_acts. simpl. rewrite list_lookup_insert_eq by done. rewrite Hp. unfold try_step. simpl.
  rewrite list_lookup_insert_eq by done. simpl. unfold lift. simpl. rewrite list_lookup_insert_eq by done.
  unfold producer_step. rewrite Hp. simpl. unfold put, set_states, set_tries, set_status, set_resumed, set_coro. simpl.
  by rewrite !list_insert_insert_eq.
Qed.

(** The producer, from [complete_producer] to the resumption. *)
Lemma completes_and_resumes s i r st :
  winv s -> coro s = W_any_suspended -> states s !! i = Some r -> cons r = C_registered (r_any st) ->
  prod r = P_built -> m_pc_state r = consumer_set ->
  exists r', run step (L_complete i None :: replicate 4 (L_producer i)) s =
    Some (put i r' (set_tries (<[i := tr_returned true]> (tries s))
           (set_status (completed i) (set_resumed (S (resumed s)) (set_coro W_any_completed s))))).
Proof.
  intros Hw Hc Hr Ecr Hp Hpc. destruct (i_states s Hw i r Hr) as [Hi _].
  assert (Hst : m_status s = k_done_processing) by (assert (H := i_pc s Hw); unfold pc_ok in H; by rewrite Hc in H).
  assert (Hctx : exists ctx, m_consumer r = consumer_context.any_context ctx).
  { unfold inv, pending_inv in Hi. rewrite Hp, Ecr in Hi. destruct Hi as (_ & _ & _ & _ & Hi & _). exact Hi. }
  destruct Hctx as [ctx Hctx].
  destruct (lookup_lt_is_Some_2 (tries s) i) as [t Ht]; [by rewrite (i_length s Hw); eapply lookup_lt_Some|].
  assert (t = tr_load) as -> by (assert (H := i_tries s Hw i r t Hr Ht); unfold try_ok in H; by rewrite Hp in H).
  set (r1 := set_prod P_exchange (set_done_handle None r)).
  set (r2 := set_prod P_resume (set_pc_state producer_done r1)).
  set (r3 := set_prod (P_act (consumer_context.try_resume_when_any ctx)) r2).
  exists (set_prod P_gone r3).
  assert (E1 : step (L_complete i None) s = Some (put i r1 s)).
  { cbn [step WhenResult.step]. unfold lift. rewrite Hr. simpl. by rewrite Hp. }
  assert (E2 : step (L_producer i) (put i r1 s) = Some (put i r2 s)).
  { apply (producer_puts i r r1 r2 s Hr); [|done]. unfold producer_step. simpl. unfold complete_producer_exchange. simpl. by rewrite Hpc. }
  assert (E3 : step (L_producer i) (put i r2 s) = Some (put i r3 s)).
  { apply (producer_puts i r r2 r3 s Hr); [|done]. unfold producer_step. simpl. by rewrite Hctx. }
  assert (E4 := first_try i r r3 ctx s Hr eq_refl Hst Ht Hc).
  change (L_complete i None :: replicate 4 (L_producer i)) with ([L_complete i None; L_producer i; L_producer i] ++ replicate 2 (L_producer (T := T) i)).
  rewrite run_app. cbn [run]. rewrite E1. cbn [run]. rewrite E2. cbn [run]. rewrite E3. exact E4.
Qed.

(** C35. A result that completes while [when_any] is suspended, and that has seen
    the registration of [when_any] (its state is [consumer_set]), brings it to
    its end: five actions of its producer resume the coroutine, and the
    coroutine alone goes on to return the index of that result. *)
Theorem when_any_completes rs s i r :
  given rs -> reachable step (when_any_init rs) s -> coro s = W_any_suspended ->
  states s !! i = Some r -> prod r = P_built -> m_pc_state r = consumer_set ->
  exists n s', run step ((L_complete i None :: replicate 4 (L_producer i)) ++ replicate n L_coro) s = Some s' /\
    n <= 7 * length (states s) + 4 /\ coro s' = W_done (Some i).
Proof.
  intros Hg Hr Hc Hi Hp Hpc. assert (Hinit : W_any_next 0 = W_all_next 0 \/ W_any_next 0 = W_any_next 0) by auto.
  assert (Hw := winv_reachable _ rs s Hg Hinit Hr). destruct (i_states s Hw i r Hi) as [_ Hph]. rewrite Hc in Hph.
  destruct Hph as [st Ecr]. destruct (completes_and_resumes s i r st Hw Hc Hi Ecr Hp Hpc) as [r' E].
  match type of E with _ = Some ?x => set (s1 := x) in E end.
  assert (Hw1 : winv s1) by (eapply winv_reachable; [exact Hg|exact Hinit|]; by eapply run_reachable_from).
  destruct (coro_runs (fun s2 => in_when_any (coro s2) = true /\ waiting (coro s2) = false /\ coro s2 <> W_interrupted /\
    m_status s2 = completed i) s1) as (n & s2 & Hn & Hrun & Hrest & Hw2 & Ha & Hwait & Hint & Hst); auto.
  { intros s2 s3 E' (H1 & H2 & _ & H3). destruct (coro_after _ _ E' H2) as [H4 H5].
    split; [by apply (coro_keeps in_when_any s2 s3 (or_intror eq_refl) E')|]. split; [done|].
    split; [by eapply coro_not_interrupted|congruence]. }
  exists n, s2. rewrite run_app, E. split; [done|]. split.
  - unfold left_over in Hn. simpl in Hn. rewrite length_insert in Hn. lia.
  - assert (Hpc2 := i_pc s2 Hw2). unfold pc_ok in Hpc2.
    destruct (coro s2) as [| | | | | | | | | | |[]|[j|]| |]; try done. congruence.
Qed.
End theorems.

(** ** The checks *)
Lemma throw_if_empty_range_spec message results :
  throw_if_empty_range message results =
  if forallb id results then Ok tt else Throw (make_exn empty_result message).
Proof. induction results as [|[] results IH]; simpl; done. Qed.

(** What the checks let through: results that are not empty, at least one of
    them for [when_any], and an executor. *)
Lemma checks_pass executor_null results :
  (when_all_check executor_null results = Ok tt <-> forallb id results = true /\ executor_null = false) /\
  (when_any_range_check executor_null results = Ok tt <->
     forallb id results = true /\ results <> [] /\ executor_null = false).
Proof.
  unfold when_all_check, when_any_range_check, when_all_nothing_check. rewrite !throw_if_empty_range_spec.
  destruct (forallb id results) eqn:E; simpl; [|split; (split; [done|]; by intros [? _])].
  split; [destruct executor_null; naive_solver|]. case_bool_decide; destruct executor_null; naive_solver.
Qed.

(** ** A lost wake-up *)

(** [result_state_base::when_any] returns the state it has read, not the one its
    compare-and-exchange has found.  When the only result completes between the
    two, [await_suspend] does not learn about it and neither does the producer
    learn about [when_any]: the result is ready, the coroutine is suspended, and
    nothing can happen any more. *)
Lemma when_any_can_sleep_forever (T : Type) : exists s,
  reachable (WhenResult.step (T := T)) (when_any_init [ResultState.init]) s /\
  coro s = W_any_suspended /\ Forall is_ready (states s) /\ forall l, WhenResult.step l s = None.
Proof.
  set (e := make_exn runtime_error "").
  set (ls := [L_set_exception 0 e; L_coro; L_coro; L_coro; L_complete 0 None; L_producer 0;
              L_coro; L_coro; L_coro; L_coro; L_coro] : list (label T)).
  destruct (run (WhenResult.step (T := T)) ls (when_any_init [ResultState.init])) as [s|] eqn:E; [|done].
  exists s. split; [by eapply run_reachable|]. vm_compute in E. simplify_eq. split; [done|]. split.
  - constructor; [|done]. split; [done|]. by eexists.
  - intros [| |[|i] c|[|i] e'|[|i] h|[|i]]; done.
Qed.

(** ** The theorems at work *)
Definition two_results : list (ResultState.state nat) := [ResultState.init; ResultState.init].

Lemma given_two : given two_results.
Proof.
  intros [|[|i]] r; simpl; intros; simplify_eq; (split; [constructor|by exists r_start]).
Qed.

(** The two producers, one after the other. *)
Definition both_complete : list (label nat) :=
  [L_set_result 0 (inl 3); L_complete 0 None; L_producer 0; L_set_result 1 (inl 4); L_complete 1 None; L_producer 1].

Definition awaiting_all : WhenResult.state nat :=
  after (WhenResult.step (T := nat)) (when_all_init two_results) (both_complete ++ replicate 8 L_coro).

(** Both registrations, and a result that is not yet published. *)
Definition awaiting_any : WhenResult.state nat :=
  after (WhenResult.step (T := nat)) (when_any_init two_results) (replicate 12 L_coro ++ [L_set_result 1 (inl 4)]).

Definition returned_any : WhenResult.state nat :=
  after (WhenResult.step (T := nat)) (when_any_init two_results)
    (replicate 12 L_coro ++ L_set_result 1 (inl 4) :: L_complete 1 None :: replicate 4 (L_producer 1) ++ replicate 11 L_coro).

Lemma when_all_waits_for_all_witness :
  (coro awaiting_all = W_done None /\ forall i r, states awaiting_all !! i = Some r -> is_ready r /\ is_usable r).
Proof.
  assert (E : coro awaiting_all = W_done None) by (vm_compute; reflexivity). split; [exact E|].
  apply (when_all_waits_for_all two_results awaiting_all given_two); [|exact E].
  apply (after_reachable (WhenResult.step (T := nat))).
Defined.

Lemma when_any_returns_a_ready_result_witness :
  coro returned_any = W_done (Some 1) /\ resumed returned_any <= 1.
Proof.
  split; [vm_compute; reflexivity|].
  apply (when_any_returns_a_ready_result two_results returned_any given_two).
  apply (after_reachable (WhenResult.step (T := nat))).
Defined.

Lemma when_any_completes_witness : exists n s',
  run (WhenResult.step (T := nat)) ((L_complete 1 None :: replicate 4 (L_producer 1)) ++ replicate n L_coro) awaiting_any = Some s' /\
  n <= 7 * length (states awaiting_any) + 4 /\ coro s' = W_done (Some 1).
Proof.
  destruct (states awaiting_any !! 1) as [r|] eqn:E; [|discriminate E].
  eapply (when_any_completes two_results awaiting_any 1 r given_two); [| |exact E| |].
  - apply (after_reachable (WhenResult.step (T := nat))).
  - vm_compute. reflexivity.
  - vm_compute in E. injection E as <-. reflexivity.
  - vm_compute in E. injection E as <-. reflexivity.
Defined.
