(* ===== verification/LazyResult.v ===== *)
(** * lazy_result

    [include/concurrencpp/results/lazy_result.h], [lazy_result_awaitable.h],
    [impl/lazy_result_state.h] and [impl/return_value_struct.h].

    The code of a lazy coroutine is the user's: [act] is what it does next, given
    its control state and the state of the rest of the program ([world]), which
    it may change.  A coroutine that waits for something else than a
    [lazy_result] is, for its caller, a coroutine that takes longer. *)

From stdpp Require Import prelude list gmap strings.
From Stdlib Require Import ZArith Lia.
From S2P Require Import Prelude Errors ProducerContext.

Local Open Scope list_scope.

(** Coroutine frames are numbered. *)
Local Notation addr := nat (only parsing).

(** A [coroutine_handle<void>] that is not null: a coroutine of [run_impl], or a
    lazy one. *)
Inductive handle := the_runner | lazy (a : addr).

Section lazy_result.
Context {T L W : Type}.

(** ** What a lazy coroutine does *)

(** The operations on [lazy_result] objects, which the program names by
    numbers. *)
Inductive object_op :=
  | op_create (i : nat) (l : L)      (* i = coroutine(...) *)
  | op_assign (i j : nat)            (* i = std::move(j) *)
  | op_reset (i : nat)               (* the destructor, or i = {} *)
  | op_bool (i : nat)
  | op_status (i : nat).

(** What an expression evaluates to. *)
Inductive reply :=
  | r_unit
  | r_bool (b : bool)
  | r_status (st : result_status)
  | r_value (t : T)
  | r_raised (e : exn).

Definition reply_of (p : payload T) : reply :=
  match p with inl t => r_value t | inr e => r_raised e end.

Inductive action :=
  | co_return (p : payload T)                      (* or an exception leaves the body *)
  | go_on (l : L)
  | do_object (o : object_op) (k : reply -> L)
  | do_await (i : nat) (k : reply -> L)            (* co_await i *)
  | do_resolve (j i : nat) (k : reply -> L).       (* j = co_await i.resolve() *)

Variable act : L -> W -> W * action.

(** ** lazy_result_state *)

(** Where a coroutine is; a suspended [co_await] holds its awaitable. *)
Inductive point :=
  | at_start (l : L)                               (* initial_suspend() *)
  | running
  | in_await (a : addr) (k : reply -> L)
  | in_resolve (a : addr) (j : nat) (k : reply -> L)
  | at_end.                                        (* final_suspend() *)

Record frame := make_frame {
  at_point : point;
  m_caller_handle : option handle;
  m_producer : producer_context T
}.

Definition set_point v f := make_frame v (m_caller_handle f) (m_producer f).
Definition set_caller v f := make_frame (at_point f) v (m_producer f).
Definition set_producer v f := make_frame (at_point f) (m_caller_handle f) v.

(** What the thread does: something else, or a lazy coroutine. *)
Inductive control_state := idle | runs (b : addr) (l : L) | returns (b : addr) (p : payload T).

Record machine := make_machine {
  heap : list (option frame);        (* [None]: destroyed *)
  objects : gmap nat addr;           (* the objects that are not empty *)
  runner : option addr;              (* what the coroutine of run_impl() awaits *)
  control : control_state;
  world : W;
  published : list (payload T)       (* the results of run() *)
}.

Definition set_heap v m := make_machine v (objects m) (runner m) (control m) (world m) (published m).
Definition set_objects v m := make_machine (heap m) v (runner m) (control m) (world m) (published m).
Definition set_runner v m := make_machine (heap m) (objects m) v (control m) (world m) (published m).
Definition set_control v m := make_machine (heap m) (objects m) (runner m) v (world m) (published m).
Definition set_world v m := make_machine (heap m) (objects m) (runner m) (control m) v (published m).
Definition set_published v m := make_machine (heap m) (objects m) (runner m) (control m) (world m) v.

Definition new_machine (w : W) : machine := make_machine [] ∅ None idle w [].

(** [None]: the coroutine was destroyed, and the handle dangles. *)
Definition frame_at (a : addr) (m : machine) : option frame := mjoin (heap m !! a).
Definition put (a : addr) (f : option frame) (m : machine) : machine := set_heap (<[a := f]> (heap m)) m.

(** From here on [None] is undefined behaviour. *)

(** [handle.destroy()] is called on coroutines that are suspended at one of their
    ends only. *)
Definition destroy (a : addr) (m : machine) : option machine :=
  f ← frame_at a m;
  match at_point f with
  | at_start _ | at_end => Some (put a None m)
  | _ => None
  end.

Definition done (f : frame) : option bool :=
  match at_point f with
  | running => None
  | at_end => Some true
  | _ => Some false
  end.

(** [get()]: the value, or the exception it throws. *)
Definition get (a : addr) (m : machine) : option (payload T) :=
  f ← frame_at a m;
  match (ProducerContext.get (m_producer f)).1 with
  | Ok t => Some (inl t)
  | Throw e => Some (inr e)
  | Abort => None
  end.

(** [set_result] of [return_value], or [unhandled_exception]. *)
Definition build (p : payload T) (f : frame) : option frame :=
  match p with
  | inl t =>
      match build_result (Ok t) (m_producer f) with
      | (Ok _, c) => Some (set_producer c f)
      | _ => None
      end
  | inr e =>
      match build_exception (Some e) (m_producer f) with
      | (Ok _, c) => Some (set_producer c f)
      | _ => None
      end
  end.

(** ** The objects *)
Definition throw_if_empty (message : string) (i : nat) (m : machine) : exn + addr :=
  match objects m !! i with
  | Some a => inr a
  | None => inl (make_exn empty_result message)
  end.

(** [std::exchange(m_state, {})]. *)
Definition release (i : nat) (m : machine) : machine := set_objects (delete i (objects m)) m.

Definition destroy_object (i : nat) (m : machine) : option machine :=
  match objects m !! i with
  | Some a => release i <$> destroy a m
  | None => Some m
  end.

(** [operator=] of a temporary that owns [a]. *)
Definition assign_handle (i : nat) (a : addr) (m : machine) : option machine :=
  m ← destroy_object i m;
  Some (set_objects (<[i := a]> (objects m)) m).

(** The call of a coroutine function: [get_return_object], [initial_suspend]. *)
Definition call_coroutine (l : L) (m : machine) : addr * machine :=
  (length (heap m), set_heap (heap m ++ [Some (make_frame (at_start l) None empty_producer)]) m).

Definition object_step (o : object_op) (m : machine) : option (reply * machine) :=
  match o with
  | op_create i l =>
      let (a, m) := call_coroutine l m in
      m ← assign_handle i a m;
      Some (r_unit, m)
  | op_assign i j =>
      if decide (i = j) then Some (r_unit, m)
      else
        m ← destroy_object i m;
        Some (r_unit, match objects m !! j with
                      | Some a => set_objects (<[i := a]> (delete j (objects m))) m
                      | None => m
                      end)
  | op_reset i =>
      m ← destroy_object i m;
      Some (r_unit, m)
  | op_bool i => Some (r_bool (bool_decide (is_Some (objects m !! i))), m)
  | op_status i =>
      match throw_if_empty k_empty_lazy_result_status_err_msg i m with
      | inl e => Some (r_raised e, m)
      | inr a =>
          f ← frame_at a m;
          Some (r_status (status (m_producer f)), m)
      end
  end.

(** ** Awaiting *)

(** [lazy_awaitable::await_resume], and the end of the awaitable. *)
Definition await_resume (a : addr) (m : machine) : option (payload T * machine) :=
  p ← get a m;
  m ← destroy a m;
  Some (p, m).

(** The coroutine [b] goes on in its body. *)
Definition continue_with (b : addr) (l : L) (m : machine) : option machine :=
  f ← frame_at b m;
  Some (set_control (runs b l) (put b (Some (set_point running f)) m)).

Definition resume_body (b : addr) (m : machine) : option machine :=
  f ← frame_at b m;
  match at_point f with
  | at_start l => continue_with b l m
  | in_await a k =>
      '(p, m) ← await_resume a m;
      continue_with b (k (reply_of p)) m
  | in_resolve a j k =>
      m ← assign_handle j a m;
      continue_with b (k r_unit) m
  | running | at_end => None
  end.

(** The coroutine of [run_impl] gets the result, and publishes it. *)
Definition resume_runner (m : machine) : option machine :=
  a ← runner m;
  '(p, m) ← await_resume a m;
  Some (set_control idle (set_runner None (set_published (published m ++ [p]) m))).

(** Symmetric transfer to a handle. *)
Definition transfer (h : option handle) (m : machine) : option machine :=
  match h with
  | Some the_runner => resume_runner m
  | Some (lazy b) => resume_body b m
  | None => None
  end.

(** [lazy_result_state_base::await], and the transfer to the handle it
    returns. *)
Definition await (a : addr) (caller : handle) (m : machine) : option machine :=
  f ← frame_at a m;
  transfer (Some (lazy a)) (put a (Some (set_caller (Some caller) f)) m).

(** [co_await] of an awaitable that owns [a], in the coroutine [b]; [p]: the
    coroutine while it is suspended. *)
Definition co_await (b a : addr) (p : point) (m : machine) : option machine :=
  fa ← frame_at a m;
  ready ← done fa;
  fb ← frame_at b m;
  let m := put b (Some (set_point p fb)) m in
  if (ready : bool) then resume_body b m else await a (lazy b) m.

(** ** The machine *)

(** [return_value] or [unhandled_exception], then [lazy_final_awaiter]. *)
Definition final_suspend (b : addr) (p : payload T) (m : machine) : option machine :=
  f ← frame_at b m;
  f ← build p f;
  transfer (m_caller_handle f) (put b (Some (set_point at_end f)) m).

(** The next action of the lazy coroutine that runs. *)
Definition exec (m : machine) : option machine :=
  match control m with
  | idle => None
  | returns b p => final_suspend b p m
  | runs b l =>
      let (w, a) := act l (world m) in
      let m := set_world w m in
      match a with
      | co_return p => Some (set_control (returns b p) m)
      | go_on l => Some (set_control (runs b l) m)
      | do_object o k =>
          '(r, m) ← object_step o m;
          Some (set_control (runs b (k r)) m)
      | do_await i k =>
          match throw_if_empty k_empty_lazy_result_operator_co_await_err_msg i m with
          | inl e => Some (set_control (runs b (k (r_raised e))) m)
          | inr a => co_await b a (in_await a k) (release i m)
          end
      | do_resolve j i k =>
          match throw_if_empty k_empty_lazy_result_resolve_err_msg i m with
          | inl e => Some (set_control (runs b (k (r_raised e))) m)
          | inr a => co_await b a (in_resolve a j k) (release i m)
          end
      end
  end.

(** [run()], by the thread: [run_impl] moves the object into its frame and
    awaits it.  [Some e]: it throws. *)
Definition run_lazy (i : nat) (m : machine) : option (option exn * machine) :=
  match throw_if_empty k_empty_lazy_result_run_err_msg i m with
  | inl e => Some (Some e, m)
  | inr a =>
      f ← frame_at a m;
      ready ← done f;
      let m := set_runner (Some a) (release i m) in
      m ← (if (ready : bool) then resume_runner m else await a the_runner m);
      Some (None, m)
  end.

Inductive label :=
  | L_object (o : object_op)         (* by the thread, outside of the coroutines *)
  | L_run (i : nat)
  | L_exec.

Definition enabled (l : label) (m : machine) : bool :=
  match l, control m with
  | L_exec, idle => false
  | L_exec, _ => true
  | _, idle => true
  | _, _ => false
  end.

Definition step (l : label) (m : machine) : option machine :=
  if enabled l m then
    match l with
    | L_object o => snd <$> object_step o m
    | L_run i => snd <$> run_lazy i m
    | L_exec => exec m
    end
  else None.

(** [n] actions of the coroutines. *)
Fixpoint execs (n : nat) (m : machine) : option machine :=
  match n with
  | 0 => Some m
  | S n => m ← exec m; execs n m
  end.

(** ** The specification: a [lazy_result] is a thunk *)
Inductive thunk := not_started (l : L) | computed (p : payload T).

Definition thunk_status (t : thunk) : result_status :=
  match t with not_started _ => ProducerContext.idle | computed p => status_of_payload p end.

Notation store := (gmap nat thunk).

Definition throw_empty (message : string) : reply := r_raised (make_exn empty_result message).

Definition eval_object (o : object_op) (v : store) : reply * store :=
  match o with
  | op_create i l => (r_unit, <[i := not_started l]> v)
  | op_assign i j =>
      (r_unit, if decide (i = j) then v
               else match v !! j with Some t => <[i := t]> (delete j v) | None => delete i v end)
  | op_reset i => (r_unit, delete i v)
  | op_bool i => (r_bool (bool_decide (is_Some (v !! i))), v)
  | op_status i =>
      (match v !! i with
       | Some t => r_status (thunk_status t)
       | None => throw_empty k_empty_lazy_result_status_err_msg
       end, v)
  end.

(** The body [l], evaluated as if every [co_await] were the call of a
    function. *)
Fixpoint eval (fuel : nat) (l : L) (v : store) (w : W) : option (payload T * store * W) :=
  match fuel with
  | 0 => None
  | S fuel =>
      let force t v w :=
        match t with
        | computed p => Some (p, v, w)
        | not_started l => eval fuel l v w
        end in
      let (w, a) := act l w in
      match a with
      | co_return p => Some (p, v, w)
      | go_on l => eval fuel l v w
      | do_object o k => let (r, v) := eval_object o v in eval fuel (k r) v w
      | do_await i k =>
          match v !! i with
          | None => eval fuel (k (throw_empty k_empty_lazy_result_operator_co_await_err_msg)) v w
          | Some t => '(p, v, w) ← force t (delete i v) w; eval fuel (k (reply_of p)) v w
          end
      | do_resolve j i k =>
          match v !! i with
          | None => eval fuel (k (throw_empty k_empty_lazy_result_resolve_err_msg)) v w
          | Some t => '(p, v, w) ← force t (delete i v) w; eval fuel (k r_unit) (<[j := computed p]> v) w
          end
      end
  end.

Definition force (fuel : nat) (t : thunk) (v : store) (w : W) : option (payload T * store * W) :=
  match t with
  | computed p => Some (p, v, w)
  | not_started l => eval fuel l v w
  end.

(** The thunks of a machine. *)
Definition thunk_of (f : frame) : option thunk :=
  match at_point f with
  | at_start l => if decide (status (m_producer f) = ProducerContext.idle) then Some (not_started l) else None
  | at_end => computed <$> content (m_producer f)
  | _ => None
  end.

Definition thunk_at (a : addr) (m : machine) : option thunk := f ← frame_at a m; thunk_of f.
Definition thunks (m : machine) : gmap nat thunk := omap (fun a => thunk_at a m) (objects m).
End lazy_result.
Arguments object_op : clear implicits.
Arguments reply : clear implicits.
Arguments action : clear implicits.
Arguments point : clear implicits.
Arguments control_state : clear implicits.
Arguments frame : clear implicits.
Arguments machine : clear implicits.
Arguments thunk : clear implicits.
Arguments label : clear implicits.
