(* ===== verification/LazyResultProps.v ===== *)
(** * lazy_result: the invariant

    Every coroutine frame has exactly one owner: an object, the awaitable of a
    coroutine that waits for it, or, within an operation, the handle that is
    being moved. *)

From stdpp Require Import prelude list gmap strings.
From Stdlib Require Import ZArith Lia.
From S2P Require Import Prelude Errors ProducerContext LazyResult.

Local Open Scope list_scope.

Section props.
Context {T L W : Type}.
Notation machine := (machine T L W).
Notation frame := (frame T L).
Notation addr := nat (only parsing).
Implicit Types m : machine.
Implicit Types f : frame.
Implicit Types h : list (option frame).
Implicit Types o : gmap nat nat.
Implicit Types P s : list nat.

(** ** The heap *)
Definition hat (a : addr) h : option frame := mjoin (h !! a).
Definition hthunk (a : addr) h : option (thunk T L) := f ← hat a h; thunk_of f.
Definition hthunks h o : gmap nat (thunk T L) := omap (fun a => hthunk a h) o.

Lemma hat_lt a h f : hat a h = Some f -> a < length h.
Proof. unfold hat. intros E. destruct (h !! a) eqn:Ea; [by eapply lookup_lt_Some|done]. Qed.

Lemma hat_put a b g h : is_Some (hat a h) -> hat b (<[a := g]> h) = if decide (b = a) then g else hat b h.
Proof.
  intros [f Hf%hat_lt]. unfold hat.
  case_decide as Hd; [subst; by rewrite list_lookup_insert_eq|by rewrite list_lookup_insert_ne].
Qed.

Lemma hat_put_eq a g h : is_Some (hat a h) -> hat a (<[a := g]> h) = g.
Proof. intros H. rewrite hat_put by done. by rewrite decide_True. Qed.

Lemma hat_put_ne a b g h : is_Some (hat a h) -> b <> a -> hat b (<[a := g]> h) = hat b h.
Proof. intros H Hn. rewrite hat_put by done. by rewrite decide_False. Qed.

Lemma hat_call b f h : hat b (h ++ [Some f]) = if decide (b = length h) then Some f else hat b h.
Proof.
  unfold hat. case_decide as Hd.
  - subst. by rewrite list_lookup_middle.
  - destruct (decide (b < length h)); [by rewrite lookup_app_l|].
    rewrite (lookup_ge_None_2 h b) by lia. by rewrite lookup_ge_None_2 by (rewrite length_app; simpl; lia).
Qed.

Lemma hat_fresh h : hat (length h) h = None.
Proof. unfold hat. by rewrite lookup_ge_None_2. Qed.

Lemma hthunk_same a h h' : hat a h' = hat a h -> hthunk a h' = hthunk a h.
Proof. intros E. unfold hthunk. by rewrite E. Qed.

Lemma hthunk_frame a h t : hthunk a h = Some t -> exists f, hat a h = Some f /\ thunk_of f = Some t.
Proof. unfold hthunk. destruct (hat a h) as [f|]; [|done]. by exists f. Qed.

Lemma hthunk_some a h t : hthunk a h = Some t -> is_Some (hat a h).
Proof. intros (f & -> & _)%hthunk_frame. by eexists. Qed.

Lemma hthunk_put_eq a f h : is_Some (hat a h) -> hthunk a (<[a := Some f]> h) = thunk_of f.
Proof. intros H. unfold hthunk. by rewrite hat_put_eq. Qed.

Lemma hthunk_put_ne a b g h : is_Some (hat a h) -> b <> a -> hthunk b (<[a := g]> h) = hthunk b h.
Proof. intros H Hn. by apply hthunk_same, hat_put_ne. Qed.

Lemma lookup_hthunks h o i : hthunks h o !! i = a ← o !! i; hthunk a h.
Proof. unfold hthunks. by rewrite lookup_omap. Qed.

Lemma hthunks_same h h' o : (forall i a, o !! i = Some a -> hthunk a h' = hthunk a h) -> hthunks h' o = hthunks h o.
Proof.
  intros Hf. apply map_eq. intros i. rewrite !lookup_hthunks. destruct (o !! i) as [a|] eqn:E; [|done]. simpl. by eapply Hf.
Qed.

Lemma hthunks_delete h o i : hthunks h (delete i o) = delete i (hthunks h o).
Proof.
  apply map_eq. intros j. rewrite lookup_hthunks, !lookup_delete. case_decide; [done|]. by rewrite lookup_hthunks.
Qed.

Lemma hthunks_insert h o i a t : hthunk a h = Some t -> hthunks h (<[i := a]> o) = <[i := t]> (hthunks h o).
Proof.
  intros E. apply map_eq. intros j. rewrite lookup_hthunks, !lookup_insert. case_decide; [done|]. by rewrite lookup_hthunks.
Qed.

(** ** Ownership

    [P]: the coroutines that have begun and are not done; [F]: the handle that
    is being moved. *)
Record core h o P (F : option addr) : Prop := {
  c_objects : forall i a, o !! i = Some a -> is_Some (hthunk a h);
  c_unique : forall i j a, o !! i = Some a -> o !! j = Some a -> i = j;
  c_float : forall a, F = Some a -> is_Some (hthunk a h) /\ forall i, o !! i <> Some a;
  c_busy : forall a, a ∈ P -> is_Some (hat a h) /\ hthunk a h = None;
  c_nodup : NoDup P;
  c_owned : forall a, is_Some (hat a h) -> (exists i, o !! i = Some a) \/ F = Some a \/ a ∈ P
}.

Lemma busy_not_thunk h o P F a t : core h o P F -> hthunk a h = Some t -> a ∉ P.
Proof. intros Hc Ht Ha. destruct (c_busy _ _ _ _ Hc a Ha) as [_ Hn]. congruence. Qed.

Lemma core_same h h' o P F :
  (forall a, hthunk a h' = hthunk a h) -> (forall a, is_Some (hat a h') <-> is_Some (hat a h)) ->
  core h o P F -> core h' o P F.
Proof.
  intros Ht Hs []. constructor; try done; intros a; rewrite ?Ht, ?Hs; auto. intros b. rewrite Ht. by apply c_objects0.
Qed.

(** A suspended coroutine gets a caller. *)
Lemma set_caller_same h a f c : hat a h = Some f ->
  (forall b, hthunk b (<[a := Some (set_caller c f)]> h) = hthunk b h) /\
  (forall b, is_Some (hat b (<[a := Some (set_caller c f)]> h)) <-> is_Some (hat b h)).
Proof.
  intros Hf. assert (Hs : is_Some (hat a h)) by (by rewrite Hf). split; intros b; (destruct (decide (b = a)) as [->|Hn]);
    rewrite ?hthunk_put_ne, ?hat_put_ne by done; try done.
  - rewrite hthunk_put_eq by done. unfold hthunk. by rewrite Hf.
  - by rewrite hat_put_eq.
Qed.

Lemma core_release h o P i a :
  core h o P None -> o !! i = Some a -> core h (delete i o) P (Some a).
Proof.
  intros Hc Hi. assert (Hl : forall j b, delete i o !! j = Some b -> j <> i /\ o !! j = Some b).
  { intros j b. rewrite lookup_delete_Some. naive_solver. }
  constructor.
  - intros j b [_ E]%Hl. by eapply c_objects.
  - intros j k b [_ E1]%Hl [_ E2]%Hl. by eapply c_unique.
  - intros b [= <-]. split; [by eapply c_objects|]. intros j [Hn E]%Hl. destruct Hn. by eapply (c_unique _ _ _ _ Hc).
  - apply (c_busy _ _ _ _ Hc).
  - apply (c_nodup _ _ _ _ Hc).
  - intros b Hb. destruct (c_owned _ _ _ _ Hc b Hb) as [[j Hj]|[Hj|Hj]]; [|done|by auto].
    destruct (decide (j = i)) as [->|Hn]; [right; left; congruence|]. left. exists j. by rewrite lookup_delete_ne.
Qed.

Lemma core_take h o P i a : core h o P (Some a) -> o !! i = None -> core h (<[i := a]> o) P None.
Proof.
  intros Hc Hi. destruct (c_float _ _ _ _ Hc a eq_refl) as [Ha Hn].
  assert (Hl : forall j b, <[i := a]> o !! j = Some b -> (j = i /\ b = a) \/ (j <> i /\ o !! j = Some b)).
  { intros j b. rewrite lookup_insert_Some. naive_solver. }
  constructor.
  - intros j b [[-> ->]|[_ E]]%Hl; [done|]. by eapply c_objects.
  - intros j k b [[-> ->]|[_ E1]]%Hl [[-> E2]|[_ E2]]%Hl; try done; [by destruct (Hn k)|subst; by destruct (Hn j)|by eapply c_unique].
  - done.
  - apply (c_busy _ _ _ _ Hc).
  - apply (c_nodup _ _ _ _ Hc).
  - intros b Hb. destruct (c_owned _ _ _ _ Hc b Hb) as [[j Hj]|[Hj|Hj]]; [| |by auto]; left.
    + exists j. rewrite lookup_insert_ne; [done|]. congruence.
    + exists i. rewrite lookup_insert_eq. congruence.
Qed.

(** The frames of [P] stay; another frame changes, or dies. *)
Lemma core_destroy h o P a :
  core h o P (Some a) -> core (<[a := None]> h) o P None.
Proof.
  intros Hc. destruct (c_float _ _ _ _ Hc a eq_refl) as [[t Ht] Hn]. assert (Ha := hthunk_some _ _ _ Ht).
  assert (Hp := busy_not_thunk _ _ _ _ _ _ Hc Ht). constructor; try done.
  - intros i b Hi. rewrite hthunk_put_ne by (try done; intros ->; by eapply Hn). by eapply c_objects.
  - apply (c_unique _ _ _ _ Hc).
  - intros b Hb. assert (b <> a) by (intros ->; done). rewrite hthunk_put_ne, hat_put_ne by done. by eapply c_busy.
  - apply (c_nodup _ _ _ _ Hc).
  - intros b Hb. rewrite hat_put in Hb by done. case_decide; [by destruct Hb|].
    destruct (c_owned _ _ _ _ Hc b Hb) as [?|[?|?]]; [by auto|congruence|by auto].
Qed.

(** An object is destroyed while another handle is being moved. *)
Lemma core_destroy_object h o P F i a :
  core h o P F -> o !! i = Some a -> core (<[a := None]> h) (delete i o) P F.
Proof.
  intros Hc Hi. destruct (c_objects _ _ _ _ Hc i a Hi) as [t Ht]. assert (Ha := hthunk_some _ _ _ Ht).
  assert (Hp := busy_not_thunk _ _ _ _ _ _ Hc Ht).
  assert (Hl : forall j b, delete i o !! j = Some b -> b <> a /\ o !! j = Some b).
  { intros j b. rewrite lookup_delete_Some. intros [Hn E]. split; [|done]. intros ->. apply Hn. by eapply (c_unique _ _ _ _ Hc). }
  assert (Hf : F <> Some a) by (intros Hf; by destruct (c_float _ _ _ _ Hc a Hf) as [_ H]; destruct (H i)).
  constructor.
  - intros j b [Hn E]%Hl. rewrite hthunk_put_ne by done. by eapply c_objects.
  - intros j k b [_ E1]%Hl [_ E2]%Hl. by eapply c_unique.
  - intros b Hb. destruct (c_float _ _ _ _ Hc b Hb) as [H1 H2]. rewrite hthunk_put_ne by (try done; congruence).
    split; [done|]. intros j [_ E]%Hl. by destruct (H2 j).
  - intros b Hb. assert (b <> a) by (intros ->; done). rewrite hthunk_put_ne, hat_put_ne by done. by eapply c_busy.
  - apply (c_nodup _ _ _ _ Hc).
  - intros b Hb. rewrite hat_put in Hb by done. case_decide; [by destruct Hb|].
    destruct (c_owned _ _ _ _ Hc b Hb) as [[j Hj]|[?|?]]; [|by auto|by auto].
    left. exists j. rewrite lookup_delete_ne; [done|]. congruence.
Qed.

Lemma core_call h o P f t : core h o P None -> thunk_of f = Some t -> core (h ++ [Some f]) o P (Some (length h)).
Proof.
  intros Hc Ht. assert (Hfresh : forall b, is_Some (hat b h) -> b <> length h).
  { intros b Hb ->. rewrite hat_fresh in Hb. by destruct Hb. }
  assert (Hk : forall b, is_Some (hat b h) -> hat b (h ++ [Some f]) = hat b h).
  { intros b Hb. rewrite hat_call, decide_False by auto. done. }
  assert (Ho : forall i a, o !! i = Some a -> is_Some (hat a h)).
  { intros i a Hi. destruct (c_objects _ _ _ _ Hc i a Hi) as [u Hu]. by eapply hthunk_some. }
  constructor.
  - intros i a Hi. rewrite (hthunk_same a h) by eauto. by eapply c_objects.
  - apply (c_unique _ _ _ _ Hc).
  - intros a [= <-]. unfold hthunk. rewrite hat_call, decide_True by done. simpl. split; [by eexists|].
    intros i Hi. by destruct (Hfresh _ (Ho _ _ Hi)).
  - intros a Ha. destruct (c_busy _ _ _ _ Hc a Ha) as [H1 H2]. rewrite (hthunk_same a h), Hk by auto. done.
  - apply (c_nodup _ _ _ _ Hc).
  - intros a Ha. rewrite hat_call in Ha. case_decide as Hd; [subst; by auto|].
    destruct (c_owned _ _ _ _ Hc a Ha) as [?|[?|?]]; [by auto|done|by auto].
Qed.

(** A coroutine in progress moves on. *)
Lemma core_put h o P F b f :
  core h o P F -> b ∈ P -> thunk_of f = None -> core (<[b := Some f]> h) o P F.
Proof.
  intros Hc Hb Hf. destruct (c_busy _ _ _ _ Hc b Hb) as [Hs Hn].
  assert (Hk : forall a t, hthunk a h = Some t -> hthunk a (<[b := Some f]> h) = hthunk a h).
  { intros a t E. apply hthunk_put_ne; [done|]. congruence. }
  constructor.
  - intros i a Hi. destruct (c_objects _ _ _ _ Hc i a Hi) as [t Ht]. rewrite (Hk a t Ht). by eexists.
  - apply (c_unique _ _ _ _ Hc).
  - intros a Ha. destruct (c_float _ _ _ _ Hc a Ha) as [[t Ht] H2]. rewrite (Hk a t Ht). split; [by eexists|done].
  - intros a Ha. destruct (decide (a = b)) as [->|Hne].
    + rewrite hthunk_put_eq, hat_put_eq by done. by split; [eexists|].
    + rewrite hthunk_put_ne, hat_put_ne by done. by eapply c_busy.
  - apply (c_nodup _ _ _ _ Hc).
  - intros a Ha. apply (c_owned _ _ _ _ Hc a). rewrite hat_put in Ha by done. case_decide; [by subst|done].
Qed.

(** A coroutine begins. *)
Lemma core_begin h o P a f :
  core h o P (Some a) -> thunk_of f = None -> core (<[a := Some f]> h) o (a :: P) None.
Proof.
  intros Hc Hf. destruct (c_float _ _ _ _ Hc a eq_refl) as [[t Ht] Hn]. assert (Ha := hthunk_some _ _ _ Ht).
  assert (Hp := busy_not_thunk _ _ _ _ _ _ Hc Ht). constructor; try done.
  - intros i b Hi. rewrite hthunk_put_ne by (try done; intros ->; by eapply Hn). by eapply c_objects.
  - apply (c_unique _ _ _ _ Hc).
  - intros b Hb. destruct (decide (b = a)) as [->|Hne].
    + rewrite hthunk_put_eq, hat_put_eq by done. by split; [eexists|].
    + rewrite hthunk_put_ne, hat_put_ne by done. apply elem_of_cons in Hb as [->|Hb]; [done|]. by eapply c_busy.
  - apply NoDup_cons. split; [done|]. apply (c_nodup _ _ _ _ Hc).
  - intros b Hb. rewrite hat_put in Hb by done. case_decide; [subst; right; right; by left|].
    destruct (c_owned _ _ _ _ Hc b Hb) as [?|[?|?]]; [by auto|congruence|]. right. right. by right.
Qed.

(** The innermost coroutine is done. *)
Lemma core_finish h o P a f t :
  core h o (a :: P) None -> thunk_of f = Some t -> core (<[a := Some f]> h) o P (Some a).
Proof.
  intros Hc Hf. destruct (c_busy _ _ _ _ Hc a) as [Hs Hn]; [by left|].
  assert (Hnd := c_nodup _ _ _ _ Hc). apply NoDup_cons in Hnd as [Hnot Hnd].
  assert (Hk : forall i b, o !! i = Some b -> b <> a).
  { intros i b Hi ->. destruct (c_objects _ _ _ _ Hc i a Hi) as [u Hu]. congruence. }
  constructor; try done.
  - intros i b Hi. rewrite hthunk_put_ne by (try done; by eapply Hk). by eapply c_objects.
  - apply (c_unique _ _ _ _ Hc).
  - intros b [= <-]. rewrite hthunk_put_eq by done. split; [by eexists|]. intros i Hi. by eapply Hk.
  - intros b Hb. assert (b <> a) by (intros ->; done). rewrite hthunk_put_ne, hat_put_ne by done. eapply c_busy; [done|]. by right.
  - intros b Hb. rewrite hat_put in Hb by done. case_decide as Hd; [subst; by auto|].
    destruct (c_owned _ _ _ _ Hc b Hb) as [?|[?|[]%elem_of_cons]]; [by auto|done|done|by auto].
Qed.

(** ** The operations

    [with_store h' o' m]: only the frames and the objects have changed. *)
Definition with_store h o m : machine := set_heap h (set_objects o m).

Lemma with_store_id m : with_store (heap m) (objects m) m = m.
Proof. by destruct m. Qed.

Definition kept P h h' : Prop := forall b, b ∈ P -> hat b h' = hat b h.

Lemma kept_refl P h : kept P h h.
Proof. by intros b. Qed.

Lemma kept_trans P h1 h2 h3 : kept P h1 h2 -> kept P h2 h3 -> kept P h1 h3.
Proof. intros H1 H2 b Hb. rewrite H2, H1; done. Qed.

Lemma kept_put P h a g : is_Some (hat a h) -> a ∉ P -> kept P h (<[a := g]> h).
Proof. intros Ha Hn b Hb. apply hat_put_ne; [done|]. intros ->. done. Qed.

Lemma destroy_ends a m t : hthunk a (heap m) = Some t -> destroy a m = Some (with_store (<[a := None]> (heap m)) (objects m) m).
Proof.
  intros (f & Hf & Ht)%hthunk_frame. unfold destroy, frame_at. fold (hat a (heap m)). rewrite Hf. simpl.
  unfold thunk_of in Ht. by destruct (at_point f).
Qed.

Lemma destroy_object_ok i m P F :
  core (heap m) (objects m) P F -> exists h',
    destroy_object i m = Some (with_store h' (delete i (objects m)) m) /\
    core h' (delete i (objects m)) P F /\
    hthunks h' (delete i (objects m)) = delete i (hthunks (heap m) (objects m)) /\
    kept P (heap m) h' /\ (forall a, F = Some a -> hthunk a h' = hthunk a (heap m)).
Proof.
  intros Hc. unfold destroy_object. destruct (objects m !! i) as [a|] eqn:E.
  - destruct (c_objects _ _ _ _ Hc i a E) as [t Ht]. assert (Ha := hthunk_some _ _ _ Ht).
    exists (<[a := None]> (heap m)). rewrite (destroy_ends a m t Ht). split; [done|].
    split; [by apply core_destroy_object|]. split.
    + rewrite <- hthunks_delete. apply hthunks_same. intros j b [Hn Hj]%lookup_delete_Some.
      apply hthunk_put_ne; [done|]. intros ->. apply Hn. by eapply (c_unique _ _ _ _ Hc).
    + split; [apply kept_put; [done|]; by eapply busy_not_thunk|]. intros b Hb. apply hthunk_put_ne; [done|].
      intros ->. destruct (c_float _ _ _ _ Hc a Hb) as [_ H]. by destruct (H i).
  - exists (heap m). rewrite delete_id by done. rewrite with_store_id. split_ands; try done.
    symmetry. apply delete_id. by rewrite lookup_hthunks, E.
Qed.

Lemma assign_handle_ok i a m P t :
  core (heap m) (objects m) P (Some a) -> hthunk a (heap m) = Some t -> exists h' o',
    assign_handle i a m = Some (with_store h' o' m) /\ core h' o' P None /\
    hthunks h' o' = <[i := t]> (hthunks (heap m) (objects m)) /\ kept P (heap m) h'.
Proof.
  intros Hc Ht. destruct (destroy_object_ok i m P _ Hc) as (h' & E & Hc' & Hth & Hk & Hf).
  exists h', (<[i := a]> (delete i (objects m))). unfold assign_handle. rewrite E. split; [done|].
  split; [apply core_take; [done|by rewrite lookup_delete_eq]|]. split; [|done].
  rewrite (hthunks_insert _ _ _ _ t) by (by rewrite Hf). rewrite Hth. apply insert_delete_eq.
Qed.

Lemma hthunks_none h o P F i : core h o P F -> hthunks h o !! i = None <-> o !! i = None.
Proof.
  intros Hc. rewrite lookup_hthunks. destruct (o !! i) as [a|] eqn:E; [|done]. simpl.
  destruct (c_objects _ _ _ _ Hc i a E) as [t ->]. done.
Qed.

Lemma throw_if_empty_ok message i m P F :
  core (heap m) (objects m) P F ->
  (exists a t, throw_if_empty message i m = inr a /\ objects m !! i = Some a /\ hthunk a (heap m) = Some t /\
     hthunks (heap m) (objects m) !! i = Some t) \/
  (throw_if_empty message i m = inl (make_exn empty_result message) /\ hthunks (heap m) (objects m) !! i = None).
Proof.
  intros Hc. unfold throw_if_empty. rewrite lookup_hthunks. destruct (objects m !! i) as [a|] eqn:E; [|by right].
  left. destruct (c_objects _ _ _ _ Hc i a E) as [t Ht]. by exists a, t.
Qed.

Lemma thunk_status_of f t : thunk_of f = Some t -> status (m_producer f) = thunk_status t.
Proof.
  unfold thunk_of. destruct (at_point f); try done; [case_decide; by intros [= <-]|].
  intros (p & Hp & ->)%fmap_Some. by apply content_status.
Qed.

Lemma op_assign_ok i j m P :
  core (heap m) (objects m) P None -> i <> j -> exists h' o',
    object_step (T := T) (L := L) (op_assign i j) m = Some (r_unit, with_store h' o' m) /\ core h' o' P None /\
    eval_object (op_assign i j) (hthunks (heap m) (objects m)) = (r_unit, hthunks h' o') /\ kept P (heap m) h'.
Proof.
  intros Hc Hn. destruct (destroy_object_ok i m P _ Hc) as (h' & E & Hc' & Hth & Hk & _).
  simpl. rewrite !decide_False by done. rewrite E. simpl. rewrite lookup_delete_ne by done.
  destruct (objects m !! j) as [a|] eqn:Ej.
  - exists h', (<[i := a]> (delete j (delete i (objects m)))). split; [done|].
    assert (Hc2 : core h' (delete j (delete i (objects m))) P (Some a)) by (apply core_release; [done|by rewrite lookup_delete_ne]).
    split; [apply core_take; [done|]; rewrite lookup_delete_ne, lookup_delete_eq; done|]. split; [|done].
    destruct (c_float _ _ _ _ Hc2 a eq_refl) as [[t Ht] _].
    assert (Hj : hthunks (heap m) (objects m) !! j = Some t).
    { transitivity (hthunks h' (delete i (objects m)) !! j); [by rewrite Hth, lookup_delete_ne|].
      by rewrite lookup_hthunks, lookup_delete_ne, Ej. }
    rewrite Hj, (hthunks_insert _ _ _ _ t Ht), hthunks_delete, Hth. f_equal. rewrite delete_delete, insert_delete_eq. done.
  - exists h', (delete i (objects m)). split; [done|]. split; [done|]. split; [|done].
    by rewrite (proj2 (hthunks_none _ _ _ _ j Hc) Ej), Hth.
Qed.

(** An operation on the objects does what it does to the thunks. *)
Lemma object_step_ok (o : object_op L) m P :
  core (heap m) (objects m) P None -> exists r h' o',
    object_step (T := T) o m = Some (r, with_store h' o' m) /\ core h' o' P None /\
    eval_object o (hthunks (heap m) (objects m)) = (r, hthunks h' o') /\ kept P (heap m) h'.
Proof.
  intros Hc. destruct o as [i l|i j|i|i|i].
  - set (f := make_frame (at_start (T := T) l) None empty_producer).
    assert (Ht : thunk_of f = Some (not_started l)) by done.
    assert (Hcc := core_call _ _ _ f _ Hc Ht). set (m1 := set_heap (heap m ++ [Some f]) m).
    assert (Hth : hthunk (length (heap m)) (heap m1) = Some (not_started l)).
    { unfold hthunk. simpl. by rewrite hat_call, decide_True. }
    destruct (assign_handle_ok i (length (heap m)) m1 P _ Hcc Hth) as (h' & o' & E & Hc' & Hth' & Hk).
    exists r_unit, h', o'. unfold object_step, call_coroutine. fold f. fold m1. rewrite E. split; [done|]. split; [done|].
    assert (Hfresh : forall b, is_Some (hat b (heap m)) -> hat b (heap m1) = hat b (heap m)).
    { intros b Hb. simpl. rewrite hat_call, decide_False; [done|]. intros ->. rewrite hat_fresh in Hb. by destruct Hb. }
    split.
    + simpl. rewrite Hth'. do 2 f_equal. symmetry. apply hthunks_same. intros j a Hj. apply hthunk_same, Hfresh.
      destruct (c_objects _ _ _ _ Hc j a Hj) as [t Ht']. by eapply hthunk_some.
    + eapply kept_trans; [|exact Hk]. intros b Hb. apply Hfresh. by eapply (c_busy _ _ _ _ Hc).
  - exists r_unit. destruct (decide (i = j)) as [->|Hn]; [|by apply op_assign_ok].
    exists (heap m), (objects m). simpl. rewrite !decide_True, with_store_id by done. done.
  - exists r_unit. destruct (destroy_object_ok i m P _ Hc) as (h' & E & Hc' & Hth & Hk & _).
    exists h', (delete i (objects m)). simpl. rewrite E, Hth. done.
  - eexists _, (heap m), (objects m). simpl. rewrite with_store_id. split; [done|]. split; [done|]. split; [|done].
    do 2 f_equal. apply bool_decide_ext. rewrite <- !not_eq_None_Some. by rewrite (hthunks_none _ _ _ _ i Hc).
  - destruct (throw_if_empty_ok k_empty_lazy_result_status_err_msg i m P _ Hc) as [(a & t & E & Hi & Ht & Hv)|[E Hv]].
    + exists (r_status (thunk_status t)), (heap m), (objects m). simpl. rewrite E, Hv, with_store_id.
      destruct (hthunk_frame _ _ _ Ht) as (f & Hf & Hth). unfold frame_at. fold (hat a (heap m)). rewrite Hf. simpl.
      by rewrite (thunk_status_of f t Hth).
    + eexists _, (heap m), (objects m). simpl. rewrite E, Hv, with_store_id. done.
Qed.
End props.
