(* ===== verification/LazyResultSteps.v ===== *)
(** * lazy_result: awaiting, and one action of the machine *)

From stdpp Require Import prelude list gmap strings.
From Stdlib Require Import ZArith Lia.
From S2P Require Import Prelude Errors ProducerContext LazyResult LazyResultProps.

Local Open Scope list_scope.

Section steps.
Context {T L W : Type}.
Variable act : L -> W -> W * action T L.
Notation machine := (machine T L W).
Notation frame := (frame T L).
Notation addr := nat (only parsing).
Implicit Types m : machine.
Implicit Types f : frame.
Implicit Types h : list (option frame).
Implicit Types o : gmap nat nat.
Implicit Types P s : list nat.

(** ** Resuming *)
Definition awaited f : option addr :=
  match at_point f with in_await a _ | in_resolve a _ _ => Some a | _ => None end.

(** What a coroutine that waits goes on with, when it gets [p]. *)
Definition answer (pt : point T L) (p : payload T) (l : L) : L :=
  match pt with in_await _ k => k (reply_of p) | in_resolve _ _ k => k r_unit | _ => l end.
Definition resolved (pt : point T L) (p : payload T) (v : gmap nat (thunk T L)) : gmap nat (thunk T L) :=
  match pt with in_resolve _ j _ => <[j := computed p]> v | _ => v end.

Lemma computed_frame a h p : hthunk a h = Some (computed p) ->
  exists f, hat a h = Some f /\ at_point f = at_end /\ content (m_producer f) = Some p.
Proof.
  intros (f & Hf & Ht)%hthunk_frame. exists f. split; [done|]. unfold thunk_of in Ht.
  destruct (at_point f); try done; [by case_decide|]. by apply fmap_Some in Ht as (q & Hq & [= ->]).
Qed.

Lemma not_started_frame a h l : hthunk a h = Some (not_started l) ->
  exists f, hat a h = Some f /\ at_point f = at_start l /\ status (m_producer f) = ProducerContext.idle.
Proof.
  intros (f & Hf & Ht)%hthunk_frame. exists f. split; [done|]. unfold thunk_of in Ht.
  destruct (at_point f); try done; [case_decide; by simplify_eq|by apply fmap_Some in Ht as (q & _ & ?)].
Qed.

Lemma get_computed a m p : hthunk a (heap m) = Some (computed p) -> get a m = Some p.
Proof.
  intros (f & Hf & _ & Hp)%computed_frame. unfold get, frame_at. fold (hat a (heap m)). rewrite Hf. simpl.
  unfold ProducerContext.get. rewrite (get_ref_content _ _ Hp). by destruct p.
Qed.

Lemma await_resume_ok a m P p :
  core (heap m) (objects m) P (Some a) -> hthunk a (heap m) = Some (computed p) -> exists h',
    await_resume a m = Some (p, with_store h' (objects m) m) /\ core h' (objects m) P None /\
    hthunks h' (objects m) = hthunks (heap m) (objects m) /\ kept P (heap m) h'.
Proof.
  intros Hc Ht. assert (Ha := hthunk_some _ _ _ Ht). exists (<[a := None]> (heap m)).
  unfold await_resume. rewrite (get_computed a m p Ht). simpl. rewrite (destroy_ends a m _ Ht). split; [done|].
  split; [by apply core_destroy|]. split.
  - apply hthunks_same. intros i b Hi. apply hthunk_put_ne; [done|]. intros ->.
    destruct (c_float _ _ _ _ Hc a eq_refl) as [_ H]. by destruct (H i).
  - apply kept_put; [done|]. by eapply busy_not_thunk.
Qed.

(** A step of the innermost coroutine; the others stay where they are. *)
Record moved m m' P (b : addr) (l : L) (v : gmap nat (thunk T L)) : Prop := {
  mv_control : control m' = runs b l;
  mv_world : world m' = world m;
  mv_runner : runner m' = runner m;
  mv_published : published m' = published m;
  mv_thunks : hthunks (heap m') (objects m') = v;
  mv_core : core (heap m') (objects m') P None;
  mv_frame : exists f f', hat b (heap m) = Some f /\ hat b (heap m') = Some f' /\ f' = set_point running f;
  mv_kept : forall c, c ∈ P -> c <> b -> hat c (heap m') = hat c (heap m)
}.

Lemma continue_ok b l m m' P v f :
  core (heap m') (objects m') P None -> kept P (heap m) (heap m') -> b ∈ P -> hat b (heap m) = Some f ->
  hthunks (heap m') (objects m') = v ->
  control m' = control m -> world m' = world m -> runner m' = runner m -> published m' = published m ->
  exists m2, continue_with b l m' = Some m2 /\ moved m m2 P b l v.
Proof.
  intros Hc Hk Hb Hf Hv H1 H2 H3 H4. assert (Hf' : hat b (heap m') = Some f) by (by rewrite Hk).
  assert (Hs : is_Some (hat b (heap m'))) by (by rewrite Hf').
  unfold continue_with, frame_at. fold (hat b (heap m')). rewrite Hf'. eexists. split; [done|].
  assert (Hth : forall c, c ∈ P -> hthunk c (heap m') = None) by (intros c Hin; by apply (c_busy _ _ _ _ Hc)).
  constructor; try done.
  - simpl. rewrite <- Hv. apply hthunks_same. intros i a Hi. apply hthunk_put_ne; [done|]. intros ->.
    destruct (c_objects _ _ _ _ Hc i b Hi) as [t Ht]. by rewrite Hth in Ht.
  - by apply core_put.
  - exists f, (set_point running f). split; [done|]. simpl. by rewrite hat_put_eq.
  - intros c Hin Hn. simpl. rewrite hat_put_ne by done. by apply Hk.
Qed.

(** The coroutine that waits for [a] is resumed. *)
Lemma resume_waiting b a f p m P l0 :
  core (heap m) (objects m) P (Some a) -> hthunk a (heap m) = Some (computed p) ->
  b ∈ P -> hat b (heap m) = Some f -> awaited f = Some a -> exists m',
    resume_body b m = Some m' /\
    moved m m' P b (answer (at_point f) p l0) (resolved (at_point f) p (hthunks (heap m) (objects m))).
Proof.
  intros Hc Ht Hb Hf Ha. unfold resume_body, frame_at. fold (hat b (heap m)). rewrite Hf. simpl. unfold awaited in Ha.
  destruct (at_point f) as [l| |a' k|a' j k|]; try done; injection Ha as ->; simpl.
  - destruct (await_resume_ok a m P p Hc Ht) as (h' & E & Hc' & Hth & Hk). rewrite E. simpl.
    by apply (continue_ok b _ m (with_store h' (objects m) m) P _ f Hc' Hk Hb Hf).
  - destruct (assign_handle_ok j a m P _ Hc Ht) as (h' & o' & E & Hc' & Hth & Hk). rewrite E. simpl.
    by apply (continue_ok b _ m (with_store h' o' m) P _ f Hc' Hk Hb Hf).
Qed.

(** A body is entered. *)
Lemma resume_fresh a l m P f :
  core (heap m) (objects m) P (Some a) -> hat a (heap m) = Some f -> at_point f = at_start l -> status (m_producer f) = ProducerContext.idle ->
  exists h', resume_body a m = Some (set_control (runs a l) (set_heap h' m)) /\
    h' = <[a := Some (set_point running f)]> (heap m) /\
    core h' (objects m) (a :: P) None /\ hthunks h' (objects m) = hthunks (heap m) (objects m) /\ kept P (heap m) h'.
Proof.
  intros Hc Hf Hp Hs. eexists. split; [|split; [reflexivity|]].
  - unfold resume_body, frame_at. fold (hat a (heap m)). rewrite Hf. simpl. rewrite Hp.
    unfold continue_with, frame_at. simpl. fold (hat a (heap m)). by rewrite Hf.
  - assert (Ht : hthunk a (heap m) = Some (not_started l)).
    { unfold hthunk. rewrite Hf. simpl. unfold thunk_of. rewrite Hp. by rewrite decide_True. }
    assert (Ha := hthunk_some _ _ _ Ht).
    split; [by apply core_begin|]. split.
    + apply hthunks_same. intros i b Hi. apply hthunk_put_ne; [done|]. intros ->.
      destruct (c_float _ _ _ _ Hc a eq_refl) as [_ H]. by destruct (H i).
    + apply kept_put; [done|]. by eapply busy_not_thunk.
Qed.

(** ** The coroutines in progress *)

(** The coroutines that wait, directly or not, for [a], innermost first. *)
Fixpoint chain h (r : option addr) (a : addr) s : Prop :=
  match s with
  | [] => r = Some a /\ exists f, hat a h = Some f /\ m_caller_handle f = Some the_runner
  | b :: s => (exists f, hat a h = Some f /\ m_caller_handle f = Some (lazy b)) /\
      (exists f, hat b h = Some f /\ awaited f = Some a /\ status (m_producer f) = ProducerContext.idle) /\ chain h r b s
  end.

Definition in_progress m s : list addr :=
  match control m with LazyResult.idle => [] | runs b _ | returns b _ => b :: s end.

Definition running_at h (b : addr) : Prop :=
  exists f, hat b h = Some f /\ at_point f = running /\ status (m_producer f) = ProducerContext.idle.

Definition control_ok m s : Prop :=
  match control m with
  | LazyResult.idle => runner m = None /\ s = []
  | runs b _ | returns b _ => running_at (heap m) b /\ chain (heap m) (runner m) b s
  end.

Record wf m s : Prop := {
  w_core : core (heap m) (objects m) (in_progress m s) None;
  w_control : control_ok m s
}.

Lemma chain_same h h' r a s :
  (forall f, hat a h = Some f -> exists f', hat a h' = Some f' /\ m_caller_handle f' = m_caller_handle f) ->
  kept s h h' -> chain h r a s -> chain h' r a s.
Proof.
  revert a. induction s as [|b s IH]; intros a Ha Hs; simpl.
  - intros [H1 (f & Hf & Hc)]. split; [done|]. destruct (Ha f Hf) as (f' & Hf' & E). exists f'. by rewrite E.
  - intros ((f & Hf & Hc) & (g & Hg & H2) & H3). split_ands.
    + destruct (Ha f Hf) as (f' & Hf' & E). exists f'. by rewrite E.
    + exists g. rewrite Hs by (by left). done.
    + apply IH; [|intros c Hin; apply Hs; by right|done]. intros g' Hg'. exists g'. rewrite Hs by (by left). done.
Qed.

Lemma running_not_thunk h b : running_at h b -> hthunk b h = None.
Proof. intros (f & Hf & Hp & _). unfold hthunk. rewrite Hf. simpl. unfold thunk_of. by rewrite Hp. Qed.

(** *** A coroutine that produces its result *)
Lemma build_ok p f : status (m_producer f) = ProducerContext.idle -> exists f',
  build p f = Some f' /\ m_caller_handle f' = m_caller_handle f /\ content (m_producer f') = Some p.
Proof.
  intros Hs. unfold build. destruct p as [t|e].
  - rewrite build_result_Ok by done. by eexists.
  - rewrite build_exception_Ok by done. by eexists.
Qed.

(** *** [co_await] of an object that is not empty *)
Section co_await.
Variables (m : machine) (s : list nat) (b i a : nat) (pt : point T L) (fb : frame).
Hypothesis Hcore : core (heap m) (objects m) (b :: s) None.
Hypothesis Hobject : objects m !! i = Some a.
Hypothesis Hb : hat b (heap m) = Some fb.
Hypothesis Hpt : awaited (set_point pt fb) = Some a.

Let h1 := <[b := Some (set_point pt fb)]> (heap m).
Let o1 := delete i (objects m).

Lemma co_await_core :
  core h1 o1 (b :: s) (Some a) /\ hat b h1 = Some (set_point pt fb) /\
  (forall c, c <> b -> hat c h1 = hat c (heap m)) /\ a <> b /\ hthunks h1 o1 = delete i (hthunks (heap m) (objects m)).
Proof.
  assert (Hs : is_Some (hat b (heap m))) by (by rewrite Hb).
  assert (Hc := core_release _ _ _ _ _ Hcore Hobject).
  assert (Hn : thunk_of (set_point pt fb) = None).
  { clear -Hpt. unfold awaited, thunk_of in *. simpl in *. by destruct pt. }
  destruct (c_busy _ _ _ _ Hcore b) as [_ Hbn]; [by left|].
  split; [apply core_put; [done|by left|done]|]. split; [by apply hat_put_eq|].
  split; [intros c Hne; by apply hat_put_ne|].
  assert (Hne : forall j c, objects m !! j = Some c -> c <> b).
  { intros j c Hj ->. destruct (c_objects _ _ _ _ Hcore j b Hj) as [t Ht]. congruence. }
  split; [by eapply Hne|]. unfold o1. rewrite <- hthunks_delete. apply hthunks_same. intros j c [_ Hj]%lookup_delete_Some.
  apply hthunk_put_ne; [done|]. by eapply Hne.
Qed.

Lemma co_await_computed p l0 :
  hthunk a (heap m) = Some (computed p) -> at_point fb = running -> exists m',
    co_await b a pt (release i m) = Some m' /\
    control m' = runs b (answer pt p l0) /\ world m' = world m /\ runner m' = runner m /\ published m' = published m /\
    hthunks (heap m') (objects m') = resolved pt p (delete i (hthunks (heap m) (objects m))) /\
    core (heap m') (objects m') (b :: s) None /\ kept (b :: s) (heap m) (heap m').
Proof.
  intros Ht Hrun. destruct co_await_core as (Hc & Hb1 & Hk & Hne & Hth).
  destruct (computed_frame _ _ _ Ht) as (fa & Hfa & Hend & Hcont).
  set (m1 := put b (Some (set_point pt fb)) (release i m)).
  assert (Ht1 : hthunk a (heap m1) = Some (computed p)) by (rewrite <- Ht; by apply hthunk_same, Hk).
  destruct (resume_waiting b a (set_point pt fb) p m1 (b :: s) l0 Hc Ht1) as (m' & E & Hm); [by left|done|done|].
  exists m'. unfold co_await, frame_at. simpl. fold (hat a (heap m)) (hat b (heap m)). rewrite Hfa, Hb. simpl.
  unfold done. rewrite Hend. simpl. split; [exact E|]. destruct Hm as [H1 H2 H3 H4 H5 H6 (f & f' & Hf & Hf' & ->) H8].
  split_ands; try done.
  - rewrite H5. simpl. unfold m1. simpl. fold h1 o1. by rewrite Hth.
  - intros c Hin. destruct (decide (c = b)) as [->|Hcb].
    + rewrite Hf', Hb. f_equal. assert (E2 : Some f = Some (set_point pt fb)) by (rewrite <- Hf; exact Hb1).
      injection E2 as ->. clear -Hrun. destruct fb. simpl in *. by subst.
    + rewrite H8 by done. by apply Hk.
Qed.

Lemma co_await_fresh l :
  hthunk a (heap m) = Some (not_started l) -> exists m',
    co_await b a pt (release i m) = Some m' /\
    control m' = runs a l /\ world m' = world m /\ runner m' = runner m /\ published m' = published m /\
    hthunks (heap m') (objects m') = delete i (hthunks (heap m) (objects m)) /\
    core (heap m') (objects m') (a :: b :: s) None /\ hat b (heap m') = Some (set_point pt fb) /\
    (forall c, c ∈ s -> hat c (heap m') = hat c (heap m)) /\ running_at (heap m') a /\
    (exists f, hat a (heap m') = Some f /\ m_caller_handle f = Some (lazy b)).
Proof.
  intros Ht. destruct co_await_core as (Hc & Hb1 & Hk & Hne & Hth).
  destruct (not_started_frame _ _ _ Ht) as (fa & Hfa & Hstart & Hidle).
  set (fa' := set_caller (Some (lazy b)) fa). set (h2 := <[a := Some fa']> h1).
  assert (Ha1 : hat a h1 = Some fa) by (rewrite Hk; done). assert (Hsa : is_Some (hat a h1)) by (by rewrite Ha1).
  assert (Hb_s : b ∉ s) by (assert (Hnd := c_nodup _ _ _ _ Hcore); by apply NoDup_cons in Hnd as [? _]).
  destruct (set_caller_same h1 a fa (Some (lazy b)) Ha1) as [Hth2 Hs2]. fold fa' h2 in Hth2, Hs2.
  assert (Hhat2 : forall c, c <> a -> hat c h2 = hat c h1) by (intros c Hca; by apply hat_put_ne).
  assert (Hc2 : core h2 o1 (b :: s) (Some a)) by (by apply (core_same h1)).
  set (m2 := with_store h2 o1 m).
  assert (Hfa2 : hat a (heap m2) = Some fa') by (apply hat_put_eq; done).
  destruct (resume_fresh a l m2 (b :: s) fa' Hc2 Hfa2 Hstart Hidle) as (h' & E & -> & Hc3 & Hth3 & Hk3).
  eexists. split.
  { unfold co_await, frame_at. simpl. fold (hat a (heap m)) (hat b (heap m)). rewrite Hfa, Hb. simpl.
    unfold done. rewrite Hstart. simpl. unfold await, frame_at. simpl. change (mjoin (<[b := Some (set_point pt fb)]> (heap m) !! a)) with (hat a h1). rewrite Ha1. simpl. exact E. }
  simpl. split_ands; try done.
  - etransitivity; [exact Hth3|]. rewrite <- Hth. apply hthunks_same. intros; apply Hth2.
  - etransitivity; [apply Hk3; by left|]. simpl. by rewrite Hhat2.
  - intros c Hin. assert (c <> b) by (intros ->; done). etransitivity; [apply Hk3; by right|]. simpl.
    assert (Hca : c <> a). { intros ->. destruct (c_busy _ _ _ _ Hc a) as [_ Hn]; [by right|]. rewrite <- Hth2 in Hn.
      unfold hthunk in Hn. unfold m2 in Hfa2. simpl in Hfa2. rewrite Hfa2 in Hn. unfold fa', thunk_of in Hn. simpl in Hn. rewrite Hstart in Hn. by rewrite decide_True in Hn. }
    rewrite Hhat2 by done. by apply Hk.
  - eexists. split; [apply hat_put_eq; by exists fa'|done].
  - eexists. split; [apply hat_put_eq; by exists fa'|done].
Qed.
End co_await.
End steps.
