(* ===== verification/LazyResultTheorems.v ===== *)
(** * lazy_result: theorems *)

From stdpp Require Import prelude list gmap strings.
From Stdlib Require Import ZArith Lia.
From S2P Require Import Prelude Errors ProducerContext LazyResult LazyResultProps LazyResultSteps.

Local Open Scope list_scope.

Section theorems.
Context {T L W : Type}.
Variable act : L -> W -> W * action T L.
Notation machine := (machine T L W).
Notation frame := (frame T L).
Notation store := (gmap nat (thunk T L)).
Implicit Types m : machine.
Implicit Types f : frame.
Implicit Types s : list nat.

(** ** One action, seen from the thunks *)
Inductive view :=
  | V_returns (p : payload T) (w : W)
  | V_stays (l : L) (v : store) (w : W)
  | V_calls (l : L) (next : payload T -> L) (after : payload T -> store -> store) (v : store) (w : W).

Definition view_of (l : L) (v : store) (w : W) : view :=
  let (w, a) := act l w in
  match a with
  | co_return p => V_returns p w
  | go_on l => V_stays l v w
  | do_object o k => let (r, v) := eval_object o v in V_stays (k r) v w
  | do_await i k =>
      match v !! i with
      | None => V_stays (k (throw_empty k_empty_lazy_result_operator_co_await_err_msg)) v w
      | Some (computed p) => V_stays (k (reply_of p)) (delete i v) w
      | Some (not_started l) => V_calls l (fun p => k (reply_of p)) (fun _ v => v) (delete i v) w
      end
  | do_resolve j i k =>
      match v !! i with
      | None => V_stays (k (throw_empty k_empty_lazy_result_resolve_err_msg)) v w
      | Some (computed p) => V_stays (k r_unit) (<[j := computed p]> (delete i v)) w
      | Some (not_started l) => V_calls l (fun _ => k r_unit) (fun p v => <[j := computed p]> v) (delete i v) w
      end
  end.

Lemma eval_view n l v w :
  eval act (S n) l v w =
  match view_of l v w with
  | V_returns p w => Some (p, v, w)
  | V_stays l v w => eval act n l v w
  | V_calls l0 next after v w => '(p, v, w) ← eval act n l0 v w; eval act n (next p) (after p v) w
  end.
Proof.
  unfold view_of. simpl. destruct (act l w) as [w' [p|l'|o k|i k|j i k]]; try done.
  - by destruct (eval_object o v).
  - by destruct (v !! i) as [[l0|p]|].
  - by destruct (v !! i) as [[l0|p]|].
Qed.

(** ** One action of the machine *)
Notation thunks_of m := (hthunks (heap m) (objects m)).

(** [b] goes on with [l]. *)
Record stays m m' s (b : nat) (l : L) (v : store) (w : W) : Prop := {
  st_control : control m' = runs b l;
  st_world : world m' = w;
  st_runner : runner m' = runner m;
  st_published : published m' = published m;
  st_thunks : thunks_of m' = v;
  st_core : core (heap m') (objects m') (b :: s) None;
  st_kept : kept (b :: s) (heap m) (heap m')
}.

(** [b] waits for [a], which begins with [l]. *)
Record calls m m' s (b a : nat) (l : L) (pt : point T L) (v : store) (w : W) : Prop := {
  ca_control : control m' = runs a l;
  ca_world : world m' = w;
  ca_runner : runner m' = runner m;
  ca_published : published m' = published m;
  ca_thunks : thunks_of m' = v;
  ca_wf : wf m' (b :: s);
  ca_frame : exists fb, hat b (heap m) = Some fb /\ at_point fb = running /\ hat b (heap m') = Some (set_point pt fb);
  ca_kept : kept s (heap m) (heap m')
}.

Lemma wf_runs m s b l : wf m s -> control m = runs b l ->
  core (heap m) (objects m) (b :: s) None /\ running_at (heap m) b /\ chain (heap m) (runner m) b s.
Proof. intros [H1 H2] E. unfold in_progress, control_ok in *. rewrite E in *. tauto. Qed.

Lemma wf_of_running m s b c :
  control m = c -> match c with runs b' _ | returns b' _ => b' = b | idle => False end ->
  core (heap m) (objects m) (b :: s) None -> running_at (heap m) b -> chain (heap m) (runner m) b s -> wf m s.
Proof.
  intros E Hc H1 H2 H3. constructor; unfold in_progress, control_ok; rewrite E; destruct c; by subst.
Qed.

Lemma chain_kept m m' b s : kept (b :: s) (heap m) (heap m') -> runner m' = runner m ->
  running_at (heap m) b -> chain (heap m) (runner m) b s -> running_at (heap m') b /\ chain (heap m') (runner m') b s.
Proof.
  intros Hk Hr (f & Hf & H) Hch. assert (Hf' : hat b (heap m') = Some f) by (rewrite Hk; [done|by left]).
  split; [by exists f|]. rewrite Hr. eapply chain_same; [| |exact Hch].
  - intros g Hg. exists g. rewrite Hf', <- Hf. done.
  - intros c Hc. apply Hk. by right.
Qed.

Lemma stays_wf m m' s b l0 l v w : wf m s -> control m = runs b l0 -> stays m m' s b l v w -> wf m' s.
Proof.
  intros Hw E []. destruct (wf_runs m s b l0 Hw E) as (_ & H1 & H2).
  destruct (chain_kept m m' b s) as [H3 H4]; try done. by eapply wf_of_running.
Qed.

(** [co_await] or [resolve] of an object that is not empty. *)
Lemma await_action m s b l w i a pt t :
  wf m s -> control m = runs b l -> objects m !! i = Some a -> thunks_of m !! i = Some t ->
  match pt with in_await a' _ | in_resolve a' _ _ => a' = a | _ => False end ->
  match t with
  | computed p => exists m', co_await b a pt (release i (set_world w m)) = Some m' /\
      stays m m' s b (answer pt p l) (resolved pt p (delete i (thunks_of m))) w
  | not_started l0 => exists m', co_await b a pt (release i (set_world w m)) = Some m' /\
      calls m m' s b a l0 pt (delete i (thunks_of m)) w
  end.
Proof.
  intros Hw E Hi Ht Hpt. destruct (wf_runs m s b l Hw E) as (Hc & (fb & Hb & Hrun & Hidle) & Hch).
  assert (Hta : hthunk a (heap m) = Some t) by (rewrite lookup_hthunks, Hi in Ht; done).
  assert (Hpt' : awaited (set_point pt fb) = Some a) by (unfold awaited; simpl; destruct pt; by subst).
  destruct t as [l0|p].
  - destruct (co_await_fresh (set_world w m) s b i a pt fb Hc Hi Hb Hpt' l0 Hta)
      as (m' & Eq & H1 & H2 & H3 & H4 & H5 & H6 & H7 & H8 & H9 & H10).
    exists m'. split; [done|]. constructor; try done; [|by exists fb].
    eapply wf_of_running; [exact H1|done|done|done|]. simpl. split; [done|]. split.
    + exists (set_point pt fb). done.
    + rewrite H3. eapply chain_same; [|exact H8|exact Hch]. intros f Hf. exists (set_point pt fb).
      split; [done|]. simpl in *. congruence.
  - destruct (co_await_computed (set_world w m) s b i a pt fb Hc Hi Hb Hpt' p l Hta Hrun)
      as (m' & Eq & H1 & H2 & H3 & H4 & H5 & H6 & H7).
    exists m'. split; [done|]. by constructor.
Qed.

Lemma exec_view m s b l :
  wf m s -> control m = runs b l ->
  match view_of l (thunks_of m) (world m) with
  | V_returns p w => exec act m = Some (set_control (returns b p) (set_world w m))
  | V_stays l' v w => exists m', exec act m = Some m' /\ stays m m' s b l' v w
  | V_calls l0 next after v w => exists m' a pt, exec act m = Some m' /\ calls m m' s b a l0 pt v w /\
      (forall p l, answer pt p l = next p) /\ (forall p v, resolved pt p v = after p v)
  end.
Proof.
  intros Hw E. destruct (wf_runs m s b l Hw E) as (Hc & Hrun & Hch). unfold view_of, exec. rewrite E.
  destruct (act l (world m)) as [w [p|l'|o k|i k|j i k]]; try done.
  - eexists. split; [done|]. by constructor.
  - destruct (object_step_ok o (set_world w m) (b :: s) Hc) as (r & h' & o' & Eo & Hc' & Ev & Hk).
    cbn [heap objects set_world] in Ev. rewrite Ev, Eo. simpl. eexists. split; [done|]. by constructor.
  - destruct (throw_if_empty_ok k_empty_lazy_result_operator_co_await_err_msg i (set_world w m) (b :: s) _ Hc)
      as [(a & t & Et & Hi & Ht & Hv)|[Et Hv]]; rewrite Et; cbn [heap objects set_world] in *; rewrite Hv.
    + assert (H := await_action m s b l w i a (in_await a k) t Hw E Hi Hv eq_refl).
      destruct t as [l0|p]; [|exact H]. destruct H as (m' & Eq & H). by exists m', a, (in_await a k).
    + eexists. split; [done|]. by constructor.
  - destruct (throw_if_empty_ok k_empty_lazy_result_resolve_err_msg i (set_world w m) (b :: s) _ Hc)
      as [(a & t & Et & Hi & Ht & Hv)|[Et Hv]]; rewrite Et; cbn [heap objects set_world] in *; rewrite Hv.
    + assert (H := await_action m s b l w i a (in_resolve a j k) t Hw E Hi Hv eq_refl).
      destruct t as [l0|p]; [|exact H]. destruct H as (m' & Eq & H). by exists m', a, (in_resolve a j k).
    + eexists. split; [done|]. by constructor.
Qed.

(** ** A coroutine that returns *)
Lemma final_ok m s a p :
  wf m s -> control m = returns a p -> exists f h',
    h' = <[a := Some f]> (heap m) /\ thunk_of f = Some (computed p) /\
    final_suspend a p m = transfer (m_caller_handle f) (set_heap h' m) /\
    core h' (objects m) s (Some a) /\ kept s (heap m) h' /\ hthunk a h' = Some (computed p) /\
    hthunks h' (objects m) = thunks_of m /\ (exists g, hat a (heap m) = Some g /\ m_caller_handle f = m_caller_handle g).
Proof.
  intros [Hc Hctl] E. unfold in_progress, control_ok in *. rewrite E in *. destruct Hctl as [(g & Hg & Hrun & Hidle) Hch].
  destruct (build_ok p g Hidle) as (g' & Hb & Hcall & Hcont). assert (Ha : is_Some (hat a (heap m))) by (by rewrite Hg).
  assert (Ht : thunk_of (set_point at_end g') = Some (computed p)) by (unfold thunk_of; simpl; by rewrite Hcont).
  exists (set_point at_end g'). eexists. split; [reflexivity|]. split; [done|]. split.
  - unfold final_suspend, frame_at. fold (hat a (heap m)). rewrite Hg. simpl. by rewrite Hb.
  - split; [by eapply core_finish|]. assert (Hn : a ∉ s) by (apply NoDup_cons; apply (c_nodup _ _ _ _ Hc)).
    split; [by apply kept_put|]. split; [by rewrite hthunk_put_eq|]. split; [|by exists g].
    apply hthunks_same. intros i b Hi. apply hthunk_put_ne; [done|]. intros ->.
    destruct (c_objects _ _ _ _ Hc i a Hi) as [t Hta]. destruct (c_busy _ _ _ _ Hc a) as [_ Hnone]; [by left|congruence].
Qed.

(** The coroutine that waits for it goes on. *)
Lemma exec_pop m s a b p l0 fb :
  wf m (b :: s) -> control m = returns a p -> hat b (heap m) = Some fb -> exists m',
    exec act m = Some m' /\ wf m' s /\ control m' = runs b (answer (at_point fb) p l0) /\ world m' = world m /\
    runner m' = runner m /\ published m' = published m /\ thunks_of m' = resolved (at_point fb) p (thunks_of m) /\
    hat b (heap m') = Some (set_point running fb) /\ kept s (heap m) (heap m').
Proof.
  intros Hw E Hb. destruct (final_ok m (b :: s) a p Hw E) as (f & h' & -> & Ht & Ef & Hc & Hk & Hta & Hth & g & Hg & Hcall).
  destruct Hw as [Hc0 Hctl]. unfold in_progress, control_ok in *. rewrite E in *.
  destruct Hctl as [_ [(g1 & Hg1 & Hcg) [(fb' & Hb' & Haw & Hidle) Hch]]].
  assert (fb' = fb) as -> by congruence. assert (Hl : m_caller_handle f = Some (lazy b)) by congruence.
  set (m1 := set_heap (<[a := Some f]> (heap m)) m).
  assert (Hb1 : hat b (heap m1) = Some fb) by (rewrite <- Hb; apply Hk; by left).
  destruct (resume_waiting b a fb p m1 (b :: s) l0 Hc Hta) as (m' & Eq & [H1 H2 H3 H4 H5 H6 (f1 & f2 & Hf1 & Hf2 & ->) H8]);
    [by left|done|done|].
  exists m'. unfold exec. rewrite E, Ef, Hl. split; [exact Eq|].
  assert (f1 = fb) as -> by congruence. assert (Hn : b ∉ s) by (apply NoDup_cons; apply (c_nodup _ _ _ _ Hc)).
  assert (Hks : kept s (heap m) (heap m')).
  { intros c Hc1. rewrite H8 by (try (by right); intros ->; done). apply Hk. by right. }
  split; [|rewrite H5; simpl; rewrite Hth; done].
  eapply wf_of_running; [exact H1|done|done| |].
  - exists (set_point running fb). done.
  - rewrite H3. eapply chain_same; [|exact Hks|exact Hch]. intros c Hc1. exists (set_point running fb).
    split; [done|]. simpl. congruence.
Qed.

(** The last one publishes its result. *)
Lemma exec_finish m a p :
  wf m [] -> control m = returns a p -> exists m',
    exec act m = Some m' /\ wf m' [] /\ control m' = idle /\ world m' = world m /\
    published m' = published m ++ [p] /\ thunks_of m' = thunks_of m.
Proof.
  intros Hw E. destruct (final_ok m [] a p Hw E) as (f & h' & -> & Ht & Ef & Hc & Hk & Hta & Hth & g & Hg & Hcall).
  destruct Hw as [Hc0 Hctl]. unfold in_progress, control_ok in *. rewrite E in *.
  destruct Hctl as [_ [Hr (g1 & Hg1 & Hcg)]]. assert (Hl : m_caller_handle f = Some the_runner) by congruence.
  set (m1 := set_heap (<[a := Some f]> (heap m)) m).
  destruct (await_resume_ok a m1 [] p Hc Hta) as (h2 & E2 & Hc2 & Hth2 & _).
  eexists. unfold exec. rewrite E, Ef, Hl. simpl. unfold resume_runner. simpl. rewrite Hr. simpl. fold m1. rewrite E2. simpl.
  split; [done|]. split_ands; try done. etransitivity; [exact Hth2|exact Hth].
Qed.

(** ** The machine evaluates *)
Lemma execs_app n1 n2 m m1 : execs act n1 m = Some m1 -> execs act (n1 + n2) m = execs act n2 m1.
Proof.
  revert m. induction n1 as [|n1 IH]; intros m; simpl; [by intros [= ->]|].
  destruct (exec act m); [apply IH|done].
Qed.

(** [b] is about to return [p]; the others are where they were. *)
Record reaches m m' s (b : nat) (p : payload T) (v : store) (w : W) : Prop := {
  re_control : control m' = returns b p;
  re_world : world m' = w;
  re_runner : runner m' = runner m;
  re_published : published m' = published m;
  re_thunks : thunks_of m' = v;
  re_wf : wf m' s;
  re_kept : kept (b :: s) (heap m) (heap m')
}.

(** A coroutine that was called returns to its caller. *)
Lemma call_returns m m1 m2 s b a l0 l pt v w p v' w' :
  wf m s -> control m = runs b l -> calls m m1 s b a l0 pt v w -> reaches m1 m2 (b :: s) a p v' w' ->
  exists m3, exec act m2 = Some m3 /\ stays m m3 s b (answer pt p l) (resolved pt p v') w'.
Proof.
  intros Hw E Hca Hre. destruct (ca_frame _ _ _ _ _ _ _ _ _ Hca) as (fb & Hfb & Hrun & Hfb1).
  assert (Hfb2 : hat b (heap m2) = Some (set_point pt fb)).
  { rewrite (re_kept _ _ _ _ _ _ _ Hre); [done|]. right. by left. }
  destruct (exec_pop m2 s a b p l _ (re_wf _ _ _ _ _ _ _ Hre) (re_control _ _ _ _ _ _ _ Hre) Hfb2)
    as (m3 & Eq & Hw3 & H1 & H2 & H3 & H4 & H5 & H6 & H7).
  destruct Hca as [C1 C2 C3 C4 C5 C6 C7 C8], Hre as [R1 R2 R3 R4 R5 R6 R7].
  exists m3. split; [done|]. constructor; [exact H1|congruence|congruence|congruence|by rewrite H5, R5| |].
  - destruct (wf_runs m3 s b _ Hw3 H1) as [Hc _]. exact Hc.
  - intros c Hc. destruct (wf_runs m s b l Hw E) as [Hcm _].
    assert (Hn : b ∉ s) by (apply NoDup_cons; apply (c_nodup _ _ _ _ Hcm)).
    apply elem_of_cons in Hc as [->|Hc].
    + rewrite H6, Hfb. f_equal. destruct fb. simpl in *. by subst.
    + rewrite H7, R7, C8 by (try done; right; by right). done.
Qed.

Lemma stays_reaches m m1 m' s b l v w p v' w' :
  stays m m1 s b l v w -> reaches m1 m' s b p v' w' -> reaches m m' s b p v' w'.
Proof. intros [] []. constructor; try congruence. by eapply kept_trans. Qed.

Lemma eval_execs n : forall l v w p v' w' m s b,
  eval act n l v w = Some (p, v', w') -> wf m s -> control m = runs b l -> thunks_of m = v -> world m = w ->
  exists k m', execs act k m = Some m' /\ reaches m m' s b p v' w'.
Proof.
  induction n as [|n IH]; intros l v w p v' w' m s b He Hw E Hv Hww; [done|].
  rewrite eval_view in He. assert (Hx := exec_view m s b l Hw E). rewrite Hv, Hww in Hx.
  destruct (view_of l v w) as [p0 w0|l1 v1 w1|l1 next after v1 w1].
  - injection He as <- <- <-. exists 1. eexists. simpl. rewrite Hx. split; [done|].
    destruct (wf_runs m s b l Hw E) as (Hc & Hr & Hch). constructor; try done.
  - destruct Hx as (m1 & Ex & Hst).
    destruct (IH l1 v1 w1 p v' w' m1 s b He) as (k & m' & Ek & Hre).
    + by eapply stays_wf.
    + apply (st_control _ _ _ _ _ _ _ Hst).
    + apply (st_thunks _ _ _ _ _ _ _ Hst).
    + apply (st_world _ _ _ _ _ _ _ Hst).
    + exists (S k), m'. simpl. rewrite Ex. split; [done|]. by eapply stays_reaches.
  - destruct Hx as (m1 & a & pt & Ex & Hca & Hnext & Hafter).
    destruct (eval act n l1 v1 w1) as [[[p1 v2] w2]|] eqn:E1; [|done]. simpl in He.
    destruct (IH l1 v1 w1 p1 v2 w2 m1 (b :: s) a E1) as (k1 & m2 & Ek1 & Hre1); try apply Hca.
    destruct (call_returns m m1 m2 s b a l1 l pt v1 w1 p1 v2 w2 Hw E Hca Hre1) as (m3 & E3 & Hst).
    destruct (IH (next p1) (after p1 v2) w2 p v' w' m3 s b He) as (k2 & m' & Ek2 & Hre2).
    + by eapply stays_wf.
    + rewrite (st_control _ _ _ _ _ _ _ Hst). by rewrite Hnext.
    + rewrite (st_thunks _ _ _ _ _ _ _ Hst). by rewrite Hafter.
    + apply (st_world _ _ _ _ _ _ _ Hst).
    + exists (S (k1 + S k2)), m'. simpl. rewrite Ex. simpl. rewrite (execs_app _ _ _ _ Ek1). simpl. rewrite E3.
      split; [done|]. by eapply stays_reaches.
Qed.

(** ** And nothing else

    If the coroutines come to an end, so does the evaluation. *)
Lemma execs_idle n m : control m = idle -> execs act n m = if decide (n = 0) then Some m else None.
Proof. intros E. destruct n; [done|]. simpl. unfold exec. by rewrite E. Qed.

(** From [m], the coroutines that wait come to an end, after [n] actions. *)
Definition ends n m : Prop := exists m', execs act n m = Some m' /\ control m' = idle.

Lemma ends_split k n m m1 : ends n m -> execs act k m = Some m1 -> control m1 <> idle -> k < n /\ ends (n - k) m1.
Proof.
  intros (m' & E & Hi) Ek Hne. assert (Hlt : k < n).
  { destruct (decide (k < n)) as [|Hge]; [done|]. exfalso. replace k with (n + (k - n)) in Ek by lia.
    rewrite (execs_app _ _ _ _ E), execs_idle in Ek by done. case_decide; [by simplify_eq|done]. }
  split; [done|]. exists m'. split; [|done]. rewrite <- E. replace n with (k + (n - k)) at 2 by lia.
  by rewrite (execs_app _ _ _ _ Ek).
Qed.

Lemma eval_mono n n' l v w r : eval act n l v w = Some r -> n <= n' -> eval act n' l v w = Some r.
Proof.
  revert n' l v w r. induction n as [|n IH]; intros [|n'] l v w r He Hle; try done; try lia.
  rewrite eval_view in *. destruct (view_of l v w) as [p0 w0|l1 v1 w1|l1 next after v1 w1]; [done| |].
  - apply IH; [done|lia].
  - destruct (eval act n l1 v1 w1) as [[[p1 v2] w2]|] eqn:E1; [|done].
    rewrite (IH n' l1 v1 w1 _ E1) by lia. simpl in *. apply IH; [done|lia].
Qed.

Lemma ends_eval n : forall l m s b,
  ends n m -> wf m s -> control m = runs b l ->
  exists fuel p v' w', eval act fuel l (thunks_of m) (world m) = Some (p, v', w').
Proof.
  induction n as [n IH] using lt_wf_ind. intros l m s b Hn Hw E.
  assert (Hx := exec_view m s b l Hw E).
  destruct (view_of l (thunks_of m) (world m)) as [p0 w0|l1 v1 w1|l1 next after v1 w1] eqn:Ev.
  - exists 1. eexists _, _, _. by rewrite eval_view, Ev.
  - destruct Hx as (m1 & Ex & Hst).
    destruct (ends_split 1 n m m1 Hn) as [H1 H2]; [simpl; by rewrite Ex|by rewrite (st_control _ _ _ _ _ _ _ Hst)|].
    destruct (IH (n - 1) ltac:(lia) l1 m1 s b H2) as (fuel & p & v' & w' & Ee).
    + by eapply stays_wf.
    + apply (st_control _ _ _ _ _ _ _ Hst).
    + exists (S fuel), p, v', w'. rewrite eval_view, Ev.
      by rewrite <- (st_thunks _ _ _ _ _ _ _ Hst), <- (st_world _ _ _ _ _ _ _ Hst).
  - destruct Hx as (m1 & a & pt & Ex & Hca & Hnext & Hafter).
    destruct (ends_split 1 n m m1 Hn) as [H1 H2]; [simpl; by rewrite Ex|by rewrite (ca_control _ _ _ _ _ _ _ _ _ Hca)|].
    destruct (IH (n - 1) ltac:(lia) l1 m1 (b :: s) a H2) as (f1 & p1 & v2 & w2 & Ee1); try apply Hca.
    rewrite (ca_thunks _ _ _ _ _ _ _ _ _ Hca), (ca_world _ _ _ _ _ _ _ _ _ Hca) in Ee1.
    destruct (eval_execs f1 l1 v1 w1 p1 v2 w2 m1 (b :: s) a Ee1) as (k1 & m2 & Ek1 & Hre1); try apply Hca.
    destruct (call_returns m m1 m2 s b a l1 l pt v1 w1 p1 v2 w2 Hw E Hca Hre1) as (m3 & E3 & Hst).
    assert (Ek : execs act (k1 + 1) m1 = Some m3) by (rewrite (execs_app _ _ _ _ Ek1); simpl; by rewrite E3).
    destruct (ends_split (k1 + 1) (n - 1) m1 m3 H2 Ek) as [H3 H4]; [by rewrite (st_control _ _ _ _ _ _ _ Hst)|].
    destruct (IH (n - 1 - (k1 + 1)) ltac:(lia) (next p1) m3 s b H4) as (f2 & p & v' & w' & Ee2).
    + by eapply stays_wf.
    + rewrite (st_control _ _ _ _ _ _ _ Hst). by rewrite Hnext.
    + rewrite (st_thunks _ _ _ _ _ _ _ Hst), (st_world _ _ _ _ _ _ _ Hst), Hafter in Ee2.
      exists (S (f1 + f2)), p, v', w'. rewrite eval_view, Ev, (eval_mono f1 _ _ _ _ _ Ee1) by lia. simpl.
      by apply (eval_mono f2); [|lia].
Qed.

Lemma ends_unique n1 n2 m m1 m2 :
  execs act n1 m = Some m1 -> control m1 = idle -> execs act n2 m = Some m2 -> control m2 = idle -> m1 = m2.
Proof.
  revert n2 m. induction n1 as [|n1 IH]; intros n2 m E1 I1 E2 I2; simpl in E1.
  - simplify_eq. rewrite execs_idle in E2 by done. case_decide; by simplify_eq.
  - destruct n2 as [|n2]; simpl in E2.
    + simplify_eq. unfold exec in E1. by rewrite I2 in E1.
    + destruct (exec act m) as [m'|]; [|done]. by eapply IH.
Qed.

(** ** [run()] *)
Lemma run_lazy_ok m i :
  wf m [] -> control m = idle ->
  match objects m !! i with
  | None => run_lazy i m = Some (Some (make_exn empty_result k_empty_lazy_result_run_err_msg), m)
  | Some a =>
      match hthunk a (heap m) with
      | Some (computed p) => exists m', run_lazy i m = Some (None, m') /\ wf m' [] /\ control m' = idle /\
          world m' = world m /\ published m' = published m ++ [p] /\ thunks_of m' = delete i (thunks_of m)
      | Some (not_started l) => exists m', run_lazy i m = Some (None, m') /\ wf m' [] /\ control m' = runs a l /\
          world m' = world m /\ published m' = published m /\ thunks_of m' = delete i (thunks_of m)
      | None => False
      end
  end.
Proof.
  intros [Hc Hctl] E. unfold run_lazy, throw_if_empty. unfold in_progress, control_ok in *. rewrite E in *.
  destruct (objects m !! i) as [a|] eqn:Hi; [|done]. destruct (c_objects _ _ _ _ Hc i a Hi) as [t Ht]. rewrite Ht.
  assert (Hcr := core_release _ _ _ _ _ Hc Hi). unfold frame_at. fold (hat a (heap m)). destruct t as [l|p].
  - destruct (not_started_frame _ _ _ Ht) as (f & Hf & Hp & Hidle). rewrite Hf. simpl. unfold done. rewrite Hp. simpl.
    set (f' := set_caller (Some the_runner) f). set (h1 := <[a := Some f']> (heap m)).
    assert (Hs : is_Some (hat a (heap m))) by (by rewrite Hf).
    destruct (set_caller_same (heap m) a f (Some the_runner) Hf) as [Hth1 Hs1]. fold f' h1 in Hth1, Hs1.
    assert (Hc1 : core h1 (delete i (objects m)) [] (Some a)) by (by apply (core_same (heap m))).
    set (m1 := set_heap h1 (set_runner (Some a) (release i m))).
    assert (Hf1 : hat a (heap m1) = Some f') by (by apply hat_put_eq).
    destruct (resume_fresh a l m1 [] f' Hc1 Hf1 Hp Hidle) as (h' & Er & -> & Hc2 & Hth2 & _).
    eexists. split; [unfold await, frame_at; simpl; fold (hat a (heap m)); rewrite Hf; simpl|].
    { match goal with |- context [resume_body a ?x] => change x with m1 end. rewrite Er. reflexivity. }
    assert (Ha2 : hat a (<[a := Some (set_point running f')]> (heap m1)) = Some (set_point running f')) by (apply hat_put_eq; by exists f').
    split_ands; try done.
    + constructor; [exact Hc2|]. unfold control_ok. simpl. split; [by eexists|]. split; [done|]. by eexists.
    + etransitivity; [exact Hth2|]. rewrite <- hthunks_delete. apply hthunks_same. intros; apply Hth1.
  - destruct (computed_frame _ _ _ Ht) as (f & Hf & Hp & Hcont). rewrite Hf. simpl. unfold done. rewrite Hp. simpl.
    destruct (await_resume_ok a (set_runner (Some a) (release i m)) [] p Hcr Ht) as (h' & Er & Hc1 & Hth1 & _).
    unfold resume_runner. simpl. rewrite Er. simpl. eexists. split; [reflexivity|]. split_ands; try done.
    etransitivity; [exact Hth1|]. apply hthunks_delete.
Qed.

(** ** Every machine of a program *)
Notation step := (LazyResult.step act).

Lemma wf_new (w : W) : wf (new_machine (T := T) (L := L) w) [].
Proof.
  constructor; [|done]. unfold in_progress, new_machine. simpl. constructor.
  - intros i a. by rewrite lookup_empty.
  - intros i j a. by rewrite lookup_empty.
  - done.
  - intros a Ha. by apply not_elem_of_nil in Ha.
  - constructor.
  - intros a [f Hf]. done.
Qed.

Lemma wf_idle m s : wf m s -> control m = idle -> s = [] /\ core (heap m) (objects m) [] None.
Proof. intros [H1 H2] E. unfold in_progress, control_ok in *. rewrite E in *. tauto. Qed.

Lemma exec_ok m s : wf m s -> control m <> idle -> exists m' s', exec act m = Some m' /\ wf m' s'.
Proof.
  intros Hw Hne. destruct (control m) as [|b l|b p] eqn:E; [done| |].
  - assert (Hx := exec_view m s b l Hw E).
    destruct (view_of l (thunks_of m) (world m)) as [p0 w0|l1 v1 w1|l1 next after v1 w1].
    + eexists _, s. split; [exact Hx|]. destruct (wf_runs m s b l Hw E) as (Hc & Hr & Hch). by constructor.
    + destruct Hx as (m' & Ex & Hst). exists m', s. split; [done|]. by eapply stays_wf.
    + destruct Hx as (m' & a & pt & Ex & Hca & _). exists m', (b :: s). split; [done|]. by destruct Hca.
  - destruct s as [|c s].
    + destruct (exec_finish m b p Hw E) as (m' & Ex & Hw' & _). by exists m', [].
    + assert (Hctl := w_control m (c :: s) Hw). unfold control_ok in Hctl. rewrite E in Hctl.
      destruct Hctl as [_ [_ [(f & Hf & Haw & _) _]]].
      assert (Hl : L) by (unfold awaited in Haw; destruct (at_point f); try done; eauto using r_unit).
      destruct (exec_pop m s b c p Hl f Hw E Hf) as (m' & Ex & Hw' & _). by exists m', s.
Qed.

Lemma step_ok l m s : wf m s -> enabled l m = true -> exists m' s', step l m = Some m' /\ wf m' s'.
Proof.
  intros Hw He. unfold LazyResult.step. rewrite He. unfold enabled in He. destruct l as [o|i|].
  - destruct (control m) eqn:E; try done. destruct (wf_idle m s Hw E) as [-> Hc].
    destruct (object_step_ok o m [] Hc) as (r & h' & o' & Eo & Hc' & _). rewrite Eo. simpl. eexists _, []. split; [done|].
    constructor; unfold in_progress, control_ok; simpl; rewrite E; [done|].
    assert (Hctl := w_control m [] Hw). unfold control_ok in Hctl. by rewrite E in Hctl.
  - destruct (control m) eqn:E; try done. destruct (wf_idle m s Hw E) as [-> _].
    assert (H := run_lazy_ok m i Hw E). destruct (objects m !! i) as [a|]; [|rewrite H; by exists m, []].
    destruct (hthunk a (heap m)) as [[l|p]|]; [| |done]; destruct H as (m' & Er & Hw' & _); rewrite Er; by exists m', [].
  - apply (exec_ok m s Hw). intros E. by rewrite E in He.
Qed.

Lemma reachable_wf w m : reachable step (new_machine w) m -> exists s, wf m s.
Proof.
  apply (reachable_invariant step (new_machine w) (fun m => exists s, wf m s)); [by exists []; apply wf_new|].
  intros l m1 m2 [s Hw] Hs. assert (He : enabled l m1 = true) by (unfold LazyResult.step in Hs; by destruct (enabled l m1)).
  destruct (step_ok l m1 s Hw He) as (m' & s' & E & Hw'). exists s'. by simplify_eq.
Qed.

(** C36. A [lazy_result] is a thunk: [run()] of an object that holds one ends with
    the result [p], after some number of actions of the coroutines, with the
    objects and the rest of the program in certain states, exactly when the
    evaluation of the coroutine, with every [co_await] of a [lazy_result] replaced
    by the evaluation of its coroutine on the spot, ends like that.  A coroutine
    that was awaited or resolved is not evaluated again. *)
Theorem lazy_result_is_a_thunk w0 m i t p v w :
  reachable step (new_machine w0) m -> control m = idle -> thunks m !! i = Some t ->
  (exists fuel, force act fuel t (delete i (thunks m)) (world m) = Some (p, v, w)) <->
  (exists n m0 m', run_lazy i m = Some (None, m0) /\ execs act n m0 = Some m' /\ control m' = idle /\
     published m' = published m ++ [p] /\ thunks m' = v /\ world m' = w).
Proof.
  intros Hr E Ht. destruct (reachable_wf w0 m Hr) as [s Hw]. destruct (wf_idle m s Hw E) as [-> Hc].
  assert (Hrun := run_lazy_ok m i Hw E). assert (Hti : thunks_of m !! i = Some t) by exact Ht.
  rewrite lookup_hthunks in Hti. destruct (objects m !! i) as [a|]; [|done]. simpl in Hti. rewrite Hti in Hrun.
  destruct t as [l|q]; destruct Hrun as (m0 & Er & Hw0 & E0 & Hw1 & Hp & Hv); simpl.
  - assert (Hfin : forall fuel q v' w', eval act fuel l (thunks_of m0) (world m0) = Some (q, v', w') ->
      exists n m', execs act n m0 = Some m' /\ control m' = idle /\ published m' = published m ++ [q] /\
        thunks_of m' = v' /\ world m' = w').
    { intros fuel q v' w' He. destruct (eval_execs fuel l _ _ q v' w' m0 [] a He Hw0 E0 eq_refl eq_refl) as (k & m1 & Ek & Hre).
      destruct Hre as [R1 R2 R3 R4 R5 R6 R7]. destruct (exec_finish m1 a q R6 R1) as (m' & Ef & _ & F1 & F2 & F3 & F4).
      exists (k + 1), m'. rewrite (execs_app _ _ _ _ Ek). simpl. rewrite Ef. split_ands; try congruence. done. }
    split.
    + intros [fuel He]. rewrite <- Hw1 in He.
      assert (He' : eval act fuel l (thunks_of m0) (world m0) = Some (p, v, w)) by (rewrite Hv; exact He).
      destruct (Hfin fuel p v w He') as (n & m' & H). by exists n, m0, m'.
    + intros (n & m0' & m' & Er' & En & Hi & Hp' & Hv' & Hw'). assert (m0' = m0) as -> by congruence.
      destruct (ends_eval n l m0 [] a) as (fuel & q & v1 & w1 & He); [by exists m'|done|done|].
      destruct (Hfin fuel q v1 w1 He) as (n2 & m2 & En2 & I2 & P2 & V2 & W2).
      assert (m2 = m') as -> by (by eapply ends_unique).
      exists fuel. rewrite Hv, Hw1 in He. assert (q = p) as -> by (rewrite P2 in Hp'; by simplify_list_eq).
      rewrite <- Hv', <- Hw', W2. change (thunks m') with (thunks_of m'). rewrite V2. exact He.
  - split.
    + intros [_ [= <- <- <-]]. by exists 0, m0, m0.
    + intros (n & m0' & m' & Er' & En & Hi & Hp' & Hv' & Hw'). assert (m0' = m0) as -> by congruence.
      rewrite execs_idle in En by done. case_decide; simplify_eq. exists 0.
      assert (q = p) as -> by (rewrite Hp in Hp'; by simplify_list_eq). rewrite Hw1. do 2 f_equal. f_equal. symmetry. exact Hv.
Qed.

(** C37. Whatever a program does with [lazy_result]s, in and outside of
    coroutines, no destroyed, running or finished coroutine is resumed, no
    coroutine is destroyed twice or while it waits, no result is read before it is
    there; an object owns its coroutine alone, and when no coroutine runs, every
    coroutine frame is owned by an object; [run] of an empty object throws
    [empty_result]. *)
Theorem lazy_results_are_safe w m :
  reachable step (new_machine w) m ->
  (forall l, enabled l m = true -> is_Some (step l m)) /\
  (forall i j a, objects m !! i = Some a -> is_Some (thunk_at a m) /\ (objects m !! j = Some a -> i = j)) /\
  (control m = idle -> forall a f, frame_at a m = Some f -> exists i, objects m !! i = Some a) /\
  (control m = idle -> forall i, objects m !! i = None ->
     run_lazy i m = Some (Some (make_exn empty_result k_empty_lazy_result_run_err_msg), m)).
Proof.
  intros Hr. destruct (reachable_wf w m Hr) as [s Hw]. split; [|split; [|split]].
  - intros l He. destruct (step_ok l m s Hw He) as (m' & s' & -> & _). by eexists.
  - intros i j a Hi. split; [by apply (c_objects _ _ _ _ (w_core m s Hw) i)|]. intros Hj.
    by apply (c_unique _ _ _ _ (w_core m s Hw) i j a).
  - intros E a f Hf. destruct (wf_idle m s Hw E) as [-> Hc].
    destruct (c_owned _ _ _ _ Hc a) as [H|[H|H]]; [by exists f|done|done|by apply not_elem_of_nil in H].
  - intros E i Hi. destruct (wf_idle m s Hw E) as [-> Hc]. assert (H := run_lazy_ok m i Hw E). by rewrite Hi in H.
Qed.
End theorems.

(** ** The theorems at work

    One coroutine makes another, resolves it, looks at its status, awaits it, and
    awaits it again, which throws. *)
Definition sample (l : nat * nat) (w : list nat) : list nat * action nat (nat * nat) :=
  match l with
  | (0, _) => (w ++ [0], do_object (op_create 1 (10, 0)) (fun _ => (1, 0)))
  | (1, _) => (w, do_resolve 1 1 (fun _ => (2, 0)))
  | (2, _) => (w, do_object (op_status 1) (fun r => match r with r_status value => (3, 0) | _ => (6, 0) end))
  | (3, _) => (w, do_await 1 (fun r => match r with r_value t => (4, t) | _ => (6, 0) end))
  | (4, t) => (w, do_await 1 (fun r => match r with r_raised _ => (5, t) | _ => (6, 0) end))
  | (5, t) => (w, co_return (inl (S t)))
  | (10, _) => (w ++ [10], co_return (inl 7))
  | _ => (w, co_return (inr (make_exn runtime_error "")))
  end.

Definition sample_machine : machine nat (nat * nat) (list nat) :=
  after (step sample) (new_machine []) [L_object (op_create 0 (0, 0))].

Lemma lazy_result_is_a_thunk_witness : exists n m0 m',
  run_lazy 0 sample_machine = Some (None, m0) /\ execs sample n m0 = Some m' /\ control m' = idle /\
  published m' = [inl 8] /\ world m' = [0; 10].
Proof.
  destruct (lazy_result_is_a_thunk sample [] sample_machine 0 (not_started (0, 0)) (inl 8) ∅ [0; 10]) as [H _].
  - apply after_reachable.
  - vm_compute. reflexivity.
  - vm_compute. reflexivity.
  - destruct H as (n & m0 & m' & H1 & H2 & H3 & H4 & H5 & H6); [exists 20; vm_compute; reflexivity|].
    exists n, m0, m'. split; [exact H1|]. split; [exact H2|]. split; [exact H3|]. split; [exact H4|exact H6].
Defined.

Lemma lazy_results_are_safe_witness :
  is_Some (step sample (L_run 0) sample_machine) /\
  run_lazy 3 sample_machine = Some (Some (make_exn empty_result k_empty_lazy_result_run_err_msg), sample_machine).
Proof.
  destruct (lazy_results_are_safe sample [] sample_machine) as (H1 & _ & _ & H2); [apply after_reachable|].
  split; [apply H1; vm_compute; reflexivity|apply H2; vm_compute; reflexivity].
Defined.
