(* ===== verification/AsyncCV.v ===== *)
(** * async_condition_variable

    [include/concurrencpp/threads/async_condition_variable.h] and
    [source/threads/async_condition_variable.cpp].  Any number of coroutines
    share one condition variable and one [async_lock], each with a
    [scoped_async_lock] of its own; the lock is that of [AsyncLock], step by step.
    One transition per atomic action on the mutex of the condition variable; the
    awaiters are linked through the members [next] of one heap of nodes, in the
    list of the condition variable and in those that calls of [notify_all] have
    taken from it. *)

From stdpp Require Import prelude list gmap functions.
From Stdlib Require Import ZArith Lia.
From S2P Require Import Prelude Errors ConsumerContext Slist AsyncLock.

Local Open Scope list_scope.

(** ** The coroutines

    [pred]: in the overload of [await] with a predicate. *)
Inductive pc :=
  | V_idle (r : call_result)
  | V_pred                          (* assert(lock.owns_lock()); pred() *)
  (* co_await cv_awaiter( *this, lock) *)
  | V_construct (pred : bool)
  | V_mutex (pred : bool)           (* await_suspend: before the unique_lock *)
  | V_unlock (pred : bool)          (*   before m_lock.unlock() *)
  | V_unlocking (pred : bool)       (*   in it *)
  | V_unlock_threw (e : exn)        (*   it threw *)
  | V_push (pred : bool)
  | V_release (pred : bool)         (*   before ~unique_lock *)
  | V_suspended (pred : bool)
  | V_resumed (pred : bool)         (* before ~cv_awaiter *)
  | V_resume_on (pred : bool)       (* co_await resume_on(resume_executor) *)
  | V_relock (pred : bool)          (* co_await lock.lock(resume_executor) *)
  | V_locking (pred : bool)         (*   in it *)
  (* notify_one() *)
  | V_one_mutex
  | V_one_pop
  | V_one_unlock (aw : option addr)
  | V_one_resume (aw : option addr)
  (* notify_all(), with its local list *)
  | V_all_mutex
  | V_all_take
  | V_all_unlock (l : slist)
  | V_all_next (l : slist)
  | V_all_resume (a : addr) (l : slist)
  | V_aborted.

(** [verify_await_params]. *)
Definition verify_await_params (executor_null : bool) (g : guard_t) : outcome exn unit :=
  if executor_null then
    Throw (make_exn invalid_argument k_async_condition_variable_await_invalid_resume_executor_err_msg)
  else if negb (scoped_async_lock.owns_lock g) then
    Throw (make_exn invalid_argument k_async_condition_variable_await_lock_unlocked_err_msg)
  else Ok tt.

Section condition_variable.
Context {Q : Type} `{AwaiterQueue Q}.

(** The address of the lock. *)
Variable this : addr.

Record state := make_state {
  lock : AsyncLock.state Q;
  m_lock : option addr;             (* who holds the mutex *)
  m_awaiters : slist;
  nodes : node_heap;
  pcs : addr -> pc
}.

Definition init : state := make_state AsyncLock.init None slist_init ∅ (fun _ => V_idle no_result).

Definition set_lock v s := make_state v (m_lock s) (m_awaiters s) (nodes s) (pcs s).
Definition set_mutex v s := make_state (lock s) v (m_awaiters s) (nodes s) (pcs s).
Definition set_awaiters v s := make_state (lock s) (m_lock s) v (nodes s) (pcs s).
Definition set_nodes v s := make_state (lock s) (m_lock s) (m_awaiters s) v (pcs s).
Definition goto (i : addr) (p : pc) (s : state) : state :=
  make_state (lock s) (m_lock s) (m_awaiters s) (nodes s) (<[i := p]> (pcs s)).

Definition fault (i : addr) (s : state) : state := goto i V_aborted s.

(** The coroutine, as the lock knows it. *)
Definition at_lock (i : addr) (s : state) : coroutine := coroutines (lock s) i.

Definition acquire (i : addr) (next : pc) (s : state) : option state :=
  match m_lock s with
  | None => Some (goto i next (set_mutex (Some i) s))
  | Some _ => None
  end.

Definition release (i : addr) (next : pc) (s : state) : state := goto i next (set_mutex None s).

(** A call of a member function of the guard. *)
Definition call_guard (i : addr) (c : call) (next : pc) (s : state) : option state :=
  match AsyncLock.call_step this i c (lock s) with
  | Some l => Some (goto i next (set_lock l s))
  | None => None
  end.

(** [cv_awaiter::resume]: resuming a coroutine that is not suspended is
    undefined. *)
Definition resume (i a : addr) (next : pc) (s : state) : state :=
  match pcs s a with
  | V_suspended k => goto i next (goto a (V_resumed k) s)
  | _ => fault i s
  end.

(** [await] returned to the coroutine, or to the loop over the predicate. *)
Definition await_returned (pred : bool) : pc := if pred then V_pred else V_idle (returned true).

(** *** [cv_awaiter] and [await_impl] *)
Definition await_step (i : addr) (p : pc) (s : state) : option state :=
  match p with
  | V_construct k => Some (goto i (V_mutex k) (set_nodes (<[i := None]> (nodes s)) s))
  | V_mutex k => acquire i (V_unlock k) s
  | V_unlock k => call_guard i call_scoped_unlock (V_unlocking k) s
  | V_unlocking k =>
      match co_pc (at_lock i s) with
      | A_idle (threw e) => Some (goto i (V_unlock_threw e) s)
      | A_idle _ => Some (goto i (V_push k) s)
      | _ => None
      end
  | V_unlock_threw e => Some (release i (V_idle (threw e)) (set_nodes (delete i (nodes s)) s))
  | V_push k =>
      Some match push_back i (m_awaiters s) (nodes s) with
           | Ok (l, h) => goto i (V_release k) (set_nodes h (set_awaiters l s))
           | _ => fault i s
           end
  | V_release k => Some (release i (V_suspended k) s)
  | V_resumed k =>
      let s := set_nodes (delete i (nodes s)) s in
      Some (if scoped_async_lock.owns_lock (guard (at_lock i s)) then fault i s
            else goto i (V_resume_on k) s)
  | V_resume_on k => Some (goto i (V_relock k) s)
  | V_relock k => call_guard i (call_scoped_lock false) (V_locking k) s
  | V_locking k =>
      match co_pc (at_lock i s) with
      | A_idle (threw e) => Some (goto i (V_idle (threw e)) s)
      | A_idle _ => Some (goto i (await_returned k) s)
      | _ => None
      end
  | _ => None
  end.

(** *** [notify_one] *)
Definition notify_one_step (i : addr) (p : pc) (s : state) : option state :=
  match p with
  | V_one_mutex => acquire i V_one_pop s
  | V_one_pop =>
      Some match pop_front (m_awaiters s) (nodes s) with
           | Ok (aw, l) => goto i (V_one_unlock aw) (set_awaiters l s)
           | _ => fault i s
           end
  | V_one_unlock aw => Some (release i (V_one_resume aw) s)
  | V_one_resume (Some a) => Some (resume i a (V_idle (returned true)) s)
  | V_one_resume None => Some (goto i (V_idle (returned true)) s)
  | _ => None
  end.

(** *** [notify_all] *)
Definition notify_all_step (i : addr) (p : pc) (s : state) : option state :=
  match p with
  | V_all_mutex => acquire i V_all_take s
  | V_all_take =>
      let (awaiters, rest) := slist_move (m_awaiters s) in
      Some (goto i (V_all_unlock awaiters) (set_awaiters rest s))
  | V_all_unlock l => Some (release i (V_all_next l) s)
  | V_all_next l =>
      Some match pop_front l (nodes s) with
           | Ok (None, _) => goto i (V_idle (returned true)) s
           | Ok (Some a, l) => goto i (V_all_resume a l) s
           | _ => fault i s
           end
  | V_all_resume a l => Some (resume i a (V_all_next l) s)
  | _ => None
  end.

Definition act_step (i : addr) (s : state) : option state :=
  match pcs s i with
  | (V_one_mutex | V_one_pop | V_one_unlock _ | V_one_resume _) as p => notify_one_step i p s
  | (V_all_mutex | V_all_take | V_all_unlock _ | V_all_next _ | V_all_resume _ _) as p => notify_all_step i p s
  | p => await_step i p s
  end.

Inductive label :=
  | L_lock (l : AsyncLock.label)                     (* a step of the lock *)
  | L_await (i : addr) (executor_null pred : bool)   (* co_await cv.await(...) *)
  | L_notify_one (i : addr)
  | L_notify_all (i : addr)
  | L_pred (i : addr) (b : bool)                     (* what pred() returns *)
  | L_act (i : addr)
  | L_interrupted (i : addr).                        (* resume_on throws broken_task *)

(** The coroutine can call a function. *)
Definition is_free (i : addr) (s : state) : bool :=
  match pcs s i, co_pc (at_lock i s) with V_idle _, A_idle _ => true | _, _ => false end.

Definition step (l : label) (s : state) : option state :=
  match l with
  | L_lock l =>
      let allowed := match l with AsyncLock.L_call i _ => is_free i s | _ => true end in
      if allowed then
        match AsyncLock.step this l (lock s) with Some lk => Some (set_lock lk s) | None => None end
      else None
  | L_await i null pred =>
      if is_free i s then
        Some match verify_await_params null (guard (at_lock i s)) with
             | Ok _ => goto i (if pred then V_pred else V_construct false) s
             | Throw e => goto i (V_idle (threw e)) s
             | Abort => fault i s
             end
      else None
  | L_notify_one i => if is_free i s then Some (goto i V_one_mutex s) else None
  | L_notify_all i => if is_free i s then Some (goto i V_all_mutex s) else None
  | L_pred i b =>
      match pcs s i with
      | V_pred =>
          Some (if scoped_async_lock.owns_lock (guard (at_lock i s)) then
                  goto i (if b : bool then V_idle (returned true) else V_construct true) s
                else fault i s)
      | _ => None
      end
  | L_act i => act_step i s
  | L_interrupted i =>
      match pcs s i with
      | V_resume_on _ => Some (goto i (V_idle (threw interrupted_error)) s)
      | _ => None
      end
  end.

(** [~async_condition_variable]: the debug assertion. *)
Definition destroy_cv (s : state) : outcome exn unit :=
  match slist_empty (m_awaiters s) with Ok true => Ok tt | _ => Abort end.
End condition_variable.
Arguments state : clear implicits.
