(* ===== verification/AsyncCVProps.v ===== *)
(** * async_condition_variable: the invariant *)

From Stdlib Require Import ZArith Lia.
From stdpp Require Import prelude list gmap functions.
From S2P Require Import Prelude Errors ConsumerContext Slist AsyncLock AsyncLockProps AsyncCV.

Local Open Scope list_scope.

(** ** What the lock promises to a coroutine that waits *)

Definition is_idle (p : AsyncLock.pc) : bool := match p with A_idle _ => true | _ => false end.
Definition in_scoped_unlock (p : AsyncLock.pc) : bool :=
  match p with
  | A_ul_mutex by_scoped_unlock | A_ul_check by_scoped_unlock
  | A_ul_unlock by_scoped_unlock _ | A_ul_retry by_scoped_unlock _ => true
  | _ => false
  end.
Definition in_scoped_lock (p : AsyncLock.pc) : bool :=
  match p with
  | A_lk_mutex k _ | A_lk_check k _ | A_lk_unlock k _ | A_lk_push k | A_lk_park k | A_lk_suspended k
  | A_lk_resumed k | A_lk_resume_on k | A_ct_mutex k _ | A_ct_body k _ | A_lk_enter k =>
      match k with by_scoped_lock => true | by_lock => false end
  | A_ct_unlock _ _ | A_ct_retry _ _ => true
  | _ => false
  end.

Definition owning (b : bool) (c : coroutine) : Prop := scoped_async_lock.m_owns (guard c) = b.

Definition unlocking_ok (c : coroutine) : Prop :=
  (in_scoped_unlock (co_pc c) = true /\ owning true c) \/ (co_pc c = A_idle (returned true) /\ owning false c).
Definition locking_ok (c : coroutine) : Prop :=
  (in_scoped_lock (co_pc c) = true /\ owning false c) \/ (co_pc c = A_idle (returned true) /\ owning true c) \/
  (exists e, co_pc c = A_idle (threw e) /\ owning false c).

Definition lock_ok (p : pc) (c : coroutine) : Prop :=
  match p with
  | V_construct _ | V_mutex _ | V_unlock _ | V_pred => is_idle (co_pc c) = true /\ owning true c
  | V_unlocking _ => unlocking_ok c /\ is_Some (scoped_async_lock.m_lock (guard c))
  | V_push _ | V_release _ | V_suspended _ | V_resumed _ | V_resume_on _ | V_relock _ =>
      is_idle (co_pc c) = true /\ owning false c /\ is_Some (scoped_async_lock.m_lock (guard c))
  | V_locking _ => locking_ok c /\ is_Some (scoped_async_lock.m_lock (guard c))
  | V_unlock_threw _ | V_aborted => False
  | _ => True
  end.

Section lock.
Context {Q : Type} `{AwaiterQueueLaws Q}.
Variable this : addr.
Implicit Types lk : AsyncLock.state Q.
Notation co := coroutines.

Definition by_actor (l : AsyncLock.label) : addr :=
  match l with AsyncLock.L_call i _ | AsyncLock.L_act i | AsyncLock.L_interrupted i => i end.

(** A step of the lock changes its coroutine, and may resume another one. *)
Definition others lk lk' (i : addr) : Prop :=
  forall j, j <> i -> co lk' j = co lk j \/
    exists k, co_pc (co lk j) = A_lk_suspended k /\ co lk' j = with_pc (A_lk_resumed k) (co lk j).

Lemma others_only lk lk' i : only i lk lk' -> others lk lk' i.
Proof. intros Ho j Hj. left. by apply Ho. Qed.

Lemma only_update i c lk lk0 : coroutines lk0 = coroutines lk -> only i lk (set_coroutine i c lk0).
Proof. intros E j Hj. rewrite only_set by done. by rewrite E. Qed.

Lemma only_pop i f lk lk0 : coroutines lk0 = coroutines lk -> only i lk (unlock_and_pop i f lk0).
Proof. intros E. unfold unlock_and_pop, AsyncLock.fault. repeat case_match; by apply only_update. Qed.

Lemma others_retry i aw next lk :
  (forall lk1, only i lk1 (next lk1)) -> others lk (retry i aw next lk) i.
Proof.
  intros Hn. unfold retry, AsyncLock.fault. destruct aw as [a|]; [|by apply others_only].
  destruct (co_pc (co lk a)) eqn:E; try (by apply others_only, only_update).
  intros j Hj. rewrite Hn by done. destruct (decide (j = a)) as [->|Hja].
  - right. exists k. split; [done|]. unfold AsyncLock.goto. by rewrite at_set.
  - left. by apply (only_update a (with_pc (A_lk_resumed k) (co lk a)) lk lk).
Qed.

Lemma others_step l lk lk' : AsyncLock.step this l lk = Some lk' -> others lk lk' (by_actor l).
Proof.
  intros Hs. destruct l as [i c|i|i]; simpl in *.
  - apply others_only. unfold call_step, start, AsyncLock.fault in Hs.
    repeat case_match; simplify_eq; by apply only_update.
  - unfold AsyncLock.act_step, lock_impl_step, try_lock_step, unlock_step, AsyncLock.acquire, release_mutex in Hs.
    repeat case_match; simplify_eq;
      try (apply others_only; unfold count_step, lock_return, try_lock_return, AsyncLock.fault;
             repeat case_match; first [by apply only_update|by apply only_pop]).
    all: apply others_retry; intros lk1; unfold unlock_return; repeat case_match; by apply only_update.
  - case_match; simplify_eq. by apply others_only, only_update.
Qed.

(** The state of a coroutine in the condition variable is kept by the steps of
    the others ... *)
Lemma lock_ok_others p c c' :
  c' = c \/ (exists k, co_pc c = A_lk_suspended k /\ c' = with_pc (A_lk_resumed k) c) -> lock_ok p c -> lock_ok p c'.
Proof.
  intros [->|(k & E & ->)]; [done|]. unfold lock_ok, unlocking_ok, locking_ok, owning. simpl. rewrite E.
  destruct p; simpl; try done; intros; naive_solver.
Qed.

(** ... and by its own. *)
Lemma lock_not_aborted lk i : inv lk -> co_pc (co lk i) <> A_aborted.
Proof. intros (_ & _ & _ & Hp) E. specialize (Hp i). unfold pc_ok in Hp. by rewrite E in Hp. Qed.

Lemma fault_pc i lk : co_pc (co (AsyncLock.fault i lk) i) = A_aborted.
Proof. unfold AsyncLock.fault, AsyncLock.goto. by rewrite at_set. Qed.

(** What a coroutine is after [goto], when nothing else has happened to it. *)
Lemma at_goto i p lk lk0 : coroutines lk0 = coroutines lk -> co (AsyncLock.goto i p lk0) i = with_pc p (co lk i).
Proof. intros E. unfold AsyncLock.goto. by rewrite at_set, E. Qed.

Lemma at_pop i f lk lk0 : inv (unlock_and_pop i f lk0) -> coroutines lk0 = coroutines lk ->
  exists aw, co (unlock_and_pop i f lk0) i = with_pc (f aw) (co lk i).
Proof.
  intros Hi E. unfold unlock_and_pop in *. destruct (q_pop _) as [[aw q]|e|].
  - exists aw. by apply at_goto.
  - by destruct (lock_not_aborted _ i Hi (fault_pc _ _)).
  - by destruct (lock_not_aborted _ i Hi (fault_pc _ _)).
Qed.

(** [retry] leaves the coroutine that calls it alone. *)
Lemma at_retry i aw c lk :
  (forall k, co_pc (co lk i) <> A_lk_suspended k) -> inv (retry i aw (set_coroutine i c) lk) ->
  co (retry i aw (set_coroutine i c) lk) i = c.
Proof.
  intros Hn Hi. unfold retry in *. destruct aw as [a|]; [|by rewrite at_set].
  destruct (co_pc (co lk a)) eqn:E; try (by destruct (lock_not_aborted _ i Hi (fault_pc _ _))). by rewrite at_set.
Qed.

Lemma retry_ext i aw (next next' : AsyncLock.state Q -> AsyncLock.state Q) lk :
  (forall k, co_pc (co lk i) <> A_lk_suspended k) ->
  (forall lk1, co lk1 i = co lk i -> next lk1 = next' lk1) -> retry i aw next lk = retry i aw next' lk.
Proof.
  intros Hn He. unfold retry. destruct aw as [a|]; [|by apply He].
  destruct (co_pc (co lk a)) eqn:E; try done. apply He. unfold AsyncLock.goto.
  rewrite only_set; [done|]. intros ->. by destruct (Hn k).
Qed.

Lemma unlocking_act i lk lk' :
  inv lk -> inv lk' -> AsyncLock.act_step this i lk = Some lk' ->
  in_scoped_unlock (co_pc (co lk i)) = true -> owning true (co lk i) ->
  unlocking_ok (co lk' i) /\ scoped_async_lock.m_lock (guard (co lk' i)) = scoped_async_lock.m_lock (guard (co lk i)).
Proof.
  intros Hi Hi' Hs Hp Ho. unfold owning in Ho.
  assert (Hgo : forall p, co lk' i = with_pc p (co lk i) -> in_scoped_unlock p = true ->
    unlocking_ok (co lk' i) /\ scoped_async_lock.m_lock (guard (co lk' i)) = scoped_async_lock.m_lock (guard (co lk i))).
  { intros p -> Hp'. split; [by left|done]. }
  unfold AsyncLock.act_step in Hs. destruct (co_pc (co lk i)) eqn:E; try done; destruct u; try done; simpl in Hs.
  - unfold AsyncLock.acquire in Hs. case_match; [done|]. simplify_eq. eapply Hgo; [by apply at_goto|done].
  - assert (Hpos : 0 < owns (co lk i)).
    { unfold owns, inside. rewrite E, Ho. simpl. lia. }
    pose proof Hi as (_ & [o Hown] & _). destruct (own_known lk o i Hown Hpos) as (_ & Hl & _). rewrite Hl in Hs.
    unfold count_step in Hs. case_match; simplify_eq; [|by destruct (lock_not_aborted _ i Hi' (fault_pc _ _))].
    destruct (at_pop i (A_ul_unlock by_scoped_unlock) lk _ Hi' eq_refl) as [aw Haw]. by eapply Hgo.
  - simplify_eq. eapply Hgo; [by apply at_goto|done].
  - simplify_eq. assert (Hn : forall k, co_pc (co lk i) <> A_lk_suspended k) by (intros k; by rewrite E).
    set (c := with_guard (A_idle (returned true)) (scoped_async_lock.set_owns false (guard (co lk i))) (co lk i)).
    rewrite (retry_ext i aw _ (set_coroutine i c) lk Hn) in * by (intros lk1 E1; simpl; by rewrite E1).
    rewrite at_retry by done. split; [by right|done].
Qed.

Lemma locking_act i lk lk' :
  inv lk -> inv lk' -> AsyncLock.act_step this i lk = Some lk' ->
  in_scoped_lock (co_pc (co lk i)) = true -> owning false (co lk i) ->
  locking_ok (co lk' i) /\ scoped_async_lock.m_lock (guard (co lk' i)) = scoped_async_lock.m_lock (guard (co lk i)).
Proof.
  intros Hi Hi' Hs Hp Ho.
  assert (Hgo : forall p, co lk' i = with_pc p (co lk i) -> in_scoped_lock p = true ->
    locking_ok (co lk' i) /\ scoped_async_lock.m_lock (guard (co lk' i)) = scoped_async_lock.m_lock (guard (co lk i))).
  { intros p -> Hp'. split; [by left|done]. }
  unfold AsyncLock.act_step in Hs. destruct (co_pc (co lk i)) eqn:E; try done; try (destruct k; try done); simpl in Hs;
    unfold AsyncLock.acquire, release_mutex in Hs;
    try (repeat case_match; simplify_eq; first
      [eapply Hgo; [by apply at_goto|done]
      |by destruct (lock_not_aborted _ i Hi' (fault_pc _ _))
      |by destruct (lock_not_aborted _ i Hi' (fault_pc _ _))]).
  - repeat case_match; simplify_eq; [|by destruct (lock_not_aborted _ i Hi' (fault_pc _ _))].
    destruct (at_pop i (fun aw => A_ct_unlock aw e) lk lk Hi' eq_refl) as [aw Haw]. by eapply Hgo.
  - simplify_eq. assert (Hn : forall k, co_pc (co lk i) <> A_lk_suspended k) by (intros k; by rewrite E).
    rewrite (retry_ext i aw _ (set_coroutine i (with_pc (A_idle (threw e)) (co lk i))) lk Hn) in *
      by (intros lk1 E1; unfold AsyncLock.goto; by rewrite E1).
    rewrite at_retry by done. split; [|done]. right. right. by exists e.
  - unfold count_step in Hs. case_match; simplify_eq; [|by destruct (lock_not_aborted _ i Hi' (fault_pc _ _))].
    unfold lock_return. rewrite at_set. split; [|done]. right. by left.
Qed.

Lemma lock_ok_act i p lk lk' :
  inv lk -> inv lk' -> AsyncLock.act_step this i lk = Some lk' -> lock_ok p (co lk i) -> lock_ok p (co lk' i).
Proof.
  intros Hi Hi' Hs Hp.
  assert (Hne : is_idle (co_pc (co lk i)) = false).
  { unfold AsyncLock.act_step in Hs. by destruct (co_pc (co lk i)). }
  destruct p; simpl in *; try done; try (by destruct Hp as [Hp _]; congruence); destruct Hp as [Hp Hl].
  - destruct Hp as [[Hp Ho]|[Hp _]]; [|by rewrite Hp in Hne].
    destruct (unlocking_act i lk lk' Hi Hi' Hs Hp Ho) as [H1 ->]. done.
  - destruct Hp as [[Hp Ho]|[[Hp _]|[e [Hp _]]]]; [|by rewrite Hp in Hne..].
    destruct (locking_act i lk lk' Hi Hi' Hs Hp Ho) as [H1 ->]. done.
Qed.

Lemma lock_ok_interrupted i p lk lk' :
  AsyncLock.step this (AsyncLock.L_interrupted i) lk = Some lk' -> lock_ok p (co lk i) -> lock_ok p (co lk' i).
Proof.
  intros Hs Hp. simpl in Hs. destruct (co_pc (co lk i)) eqn:E; try done. simplify_eq. rewrite (at_goto i _ lk lk eq_refl).
  destruct p; unfold lock_ok, unlocking_ok, locking_ok in *; simpl in *; rewrite ?E in Hp; naive_solver.
Qed.

(** Every step of the lock that the condition variable lets pass. *)
Lemma lock_ok_step l p lk lk' i :
  inv lk -> inv lk' -> AsyncLock.step this l lk = Some lk' ->
  (forall j c, l = AsyncLock.L_call j c -> j = i -> exists r, p = V_idle r) ->
  lock_ok p (co lk i) -> lock_ok p (co lk' i).
Proof.
  intros Hi Hi' Hs Hc Hp. destruct (decide (by_actor l = i)) as [<-|Hne].
  - destruct l as [j c|j|j]; [|exact (lock_ok_act j p lk lk' Hi Hi' Hs Hp)|exact (lock_ok_interrupted j p lk lk' Hs Hp)].
    destruct (Hc j c eq_refl eq_refl) as [r ->]. done.
  - eapply lock_ok_others; [|exact Hp]. by apply (others_step l lk lk' Hs).
Qed.
End lock.
