(* ===== verification/AsyncCVQueue.v ===== *)
(** * async_condition_variable: the awaiters

    Every coroutine that waits is in exactly one place: in the list of the
    condition variable, in the list of a call of [notify_all], or in the hands of
    a call that is about to resume it. *)

From Stdlib Require Import ZArith Lia.
From stdpp Require Import prelude list gmap functions.
From S2P Require Import Prelude Errors ConsumerContext Slist AsyncLock AsyncLockProps AsyncCV AsyncCVProps.

Local Open Scope list_scope.

(** It holds the mutex of the condition variable. *)
Definition holds_cv (p : pc) : bool :=
  match p with
  | V_unlock _ | V_unlocking _ | V_unlock_threw _ | V_push _ | V_release _
  | V_one_pop | V_one_unlock _ | V_all_take | V_all_unlock _ => true
  | _ => false
  end.

(** Its awaiter is linked. *)
Definition queued (p : pc) : bool := match p with V_release _ | V_suspended _ => true | _ => false end.
Definition is_suspended (p : pc) : bool := match p with V_suspended _ => true | _ => false end.

(** Its awaiter is constructed, and not linked yet. *)
Definition fresh (p : pc) : bool :=
  match p with V_mutex _ | V_unlock _ | V_unlocking _ | V_push _ => true | _ => false end.

(** The awaiter a notifier is about to resume, and its local list. *)
Definition popped (p : pc) : list addr :=
  match p with V_one_unlock (Some a) | V_one_resume (Some a) | V_all_resume a _ => [a] | _ => [] end.
Definition taken (p : pc) : option slist :=
  match p with V_all_unlock l | V_all_next l | V_all_resume _ l => Some l | _ => None end.

Implicit Types (aw l : slist) (h : node_heap) (P : addr -> pc) (q : list addr) (lq : addr -> list addr).

Definition held P lq (j : addr) : list addr := popped (P j) ++ lq j.

Record qinv aw h P q lq : Prop := {
  q_list : slist_repr aw h q;
  q_taken : forall j, match taken (P j) with Some l => slist_repr l h (lq j) | None => lq j = [] end;
  q_in : forall a, a ∈ q -> queued (P a) = true;
  q_held : forall j a, a ∈ held P lq j -> is_suspended (P a) = true /\ a ∉ q;
  q_disjoint : forall i j a, a ∈ held P lq i -> a ∈ held P lq j -> i = j;
  q_nodup : forall j, NoDup (held P lq j);
  q_all : forall a, queued (P a) = true -> a ∈ q \/ exists j, a ∈ held P lq j;
  q_fresh : forall a, fresh (P a) = true -> h !! a = Some None
}.

(** An awaiter that is not linked is in no list. *)
Lemma unlinked aw h P q lq i : qinv aw h P q lq -> queued (P i) = false -> i ∉ q /\ forall j, i ∉ held P lq j.
Proof.
  intros Hq Hi. split.
  - intros Hin. rewrite (q_in _ _ _ _ _ Hq i Hin) in Hi. done.
  - intros j Hin. destruct (q_held _ _ _ _ _ Hq j i Hin) as [H _]. by destruct (P i).
Qed.

Lemma repr_insert l h q a n : a ∉ q -> slist_repr l h q -> slist_repr l (<[a := n]> h) q.
Proof. intros Ha (H1 & H2 & H3). split; [done|]. split; [by apply Slist.chain_insert|done]. Qed.

Lemma repr_delete l h q a : a ∉ q -> slist_repr l h q -> slist_repr l (delete a h) q.
Proof. intros Ha (H1 & H2 & H3). split; [done|]. split; [by apply Slist.chain_delete|done]. Qed.

(** The memory of a node that is in no list changes. *)
Lemma qinv_heap aw h h' P q lq i :
  qinv aw h P q lq -> queued (P i) = false -> fresh (P i) = false ->
  (forall l ns, i ∉ ns -> slist_repr l h ns -> slist_repr l h' ns) -> (forall a, a <> i -> h' !! a = h !! a) ->
  qinv aw h' P q lq.
Proof.
  intros Hq Hi Hf Hr Hh. destruct (unlinked _ _ _ _ _ i Hq Hi) as [H1 H2]. constructor; try apply Hq.
  - apply Hr; [done|apply Hq].
  - intros j. assert (Hj := q_taken _ _ _ _ _ Hq j). destruct (taken (P j)); [|done]. apply Hr; [|done].
    specialize (H2 j). unfold held in H2. set_solver.
  - intros a Ha. rewrite Hh; [by apply (q_fresh _ _ _ _ _ Hq)|]. intros ->. congruence.
Qed.

(** ** One program counter changes *)
Section goto.
Variables (aw : slist) (h : node_heap) (P : addr -> pc) (q : list addr) (lq : addr -> list addr) (i : addr) (p : pc).
Hypothesis Hq : qinv aw h P q lq.
Hypothesis Hrun : is_suspended (P i) = false.
Let P' : addr -> pc := <[i := p]> P.

Lemma at_other j : j <> i -> P' j = P j.
Proof. intros Hj. unfold P'. by rewrite fn_lookup_insert_ne. Qed.

Lemma at_self : P' i = p.
Proof. unfold P'. by rewrite fn_lookup_insert. Qed.

Lemma not_held j : i ∉ held P lq j.
Proof. intros H. destruct (q_held _ _ _ _ _ Hq j i H) as [H1 _]. congruence. Qed.

Lemma held_other lq' j : j <> i -> lq' j = lq j -> held P' lq' j = held P lq j.
Proof. intros Hj E. unfold held. by rewrite at_other, E. Qed.

(** A step that moves awaiters between the list of the condition variable and
    the notifier [i]. *)
Lemma qinv_move aw' q' lq' :
  slist_repr aw' h q' -> match taken p with Some l => slist_repr l h (lq' i) | None => lq' i = [] end ->
  (forall j, j <> i -> lq' j = lq j) -> queued (P i) = false -> queued p = false -> (fresh p = true -> fresh (P i) = true) ->
  NoDup (popped p ++ lq' i ++ q') ->
  (forall a, a ∈ popped p ++ lq' i -> (a ∈ q /\ is_suspended (P a) = true) \/ a ∈ held P lq i) ->
  (forall a, a ∈ q' -> a ∈ q) ->
  (forall a, a ∈ q \/ a ∈ held P lq i -> a ∈ q' \/ a ∈ popped p ++ lq' i) -> qinv aw' h P' q' lq'.
Proof.
  intros H1 H2 H3 H4 H5 H6 H7 H8 H9 H10.
  assert (Hi : held P' lq' i = popped p ++ lq' i) by (unfold held; by rewrite at_self).
  assert (Hj : forall j, j <> i -> held P' lq' j = held P lq j) by (intros; apply held_other; auto).
  rewrite app_assoc in H7. apply list.NoDup_app in H7 as (N1 & N2 & N3).
  assert (Hself : i ∉ q) by (intros Hin; rewrite (q_in _ _ _ _ _ Hq i Hin) in H4; done).
  assert (Hs : forall a, is_suspended (P a) = true -> is_suspended (P' a) = true).
  { intros a Ha. rewrite at_other; [done|]. intros ->. congruence. }
  assert (Hsq : forall a, a ∈ q -> queued (P' a) = true).
  { intros a Ha. rewrite at_other; [by apply (q_in _ _ _ _ _ Hq)|]. intros ->. done. }
  constructor.
  - done.
  - intros j. destruct (decide (j = i)) as [->|Hn]; [by rewrite at_self|]. rewrite at_other, H3 by done. apply Hq.
  - intros a Ha. by apply Hsq, H9.
  - intros j a. destruct (decide (j = i)) as [->|Hn].
    + rewrite Hi. intros Ha. split; [|by apply N2]. destruct (H8 a Ha) as [[_ H]|H]; [by apply Hs|].
      apply Hs. by apply (q_held _ _ _ _ _ Hq i).
    + rewrite Hj by done. intros Ha. destruct (q_held _ _ _ _ _ Hq j a Ha) as [Ha1 Ha2]. split; [by apply Hs|]. auto.
  - assert (Hx : forall j a, j <> i -> a ∈ held P' lq' i -> a ∉ held P lq j).
    { intros j a Hn. rewrite Hi. intros Ha Ha'. destruct (H8 a Ha) as [[Haq _]|Hh].
      - by destruct (q_held _ _ _ _ _ Hq j a Ha').
      - by apply Hn, (q_disjoint _ _ _ _ _ Hq j i a). }
    intros j k a. destruct (decide (j = i)) as [->|Hn], (decide (k = i)) as [->|Hn']; [done| | |].
    + intros Ha. rewrite Hj by done. intros Ha'. by destruct (Hx k a Hn' Ha).
    + intros Ha' Ha. rewrite Hj in Ha' by done. by destruct (Hx j a Hn Ha).
    + rewrite !Hj by done. apply (q_disjoint _ _ _ _ _ Hq).
  - intros j. destruct (decide (j = i)) as [->|Hn]; [by rewrite Hi|]. rewrite Hj by done. apply (q_nodup _ _ _ _ _ Hq).
  - intros a Ha. assert (Ha' : queued (P a) = true).
    { destruct (decide (a = i)) as [->|Hn]; [rewrite at_self in Ha; congruence|]. by rewrite at_other in Ha. }
    destruct (q_all _ _ _ _ _ Hq a Ha') as [Hin|[j Hin]].
    + destruct (H10 a (or_introl Hin)) as [?|?]; [by left|]. right. exists i. by rewrite Hi.
    + destruct (decide (j = i)) as [->|Hn].
      * destruct (H10 a (or_intror Hin)) as [?|?]; [by left|]. right. exists i. by rewrite Hi.
      * right. exists j. by rewrite Hj.
  - intros a Ha. destruct (decide (a = i)) as [->|Hn].
    + rewrite at_self in Ha. apply (q_fresh _ _ _ _ _ Hq). auto.
    + rewrite at_other in Ha by done. by apply (q_fresh _ _ _ _ _ Hq).
Qed.

(** A step that does not concern the lists. *)
Lemma qinv_goto :
  queued p = queued (P i) -> popped p = popped (P i) -> taken p = taken (P i) ->
  (fresh p = true -> h !! i = Some None) -> qinv aw h P' q lq.
Proof.
  intros H1 H2 H3 H4.
  assert (Hh : forall j, held P' lq j = held P lq j).
  { intros j. destruct (decide (j = i)) as [->|Hn]; [|by apply held_other]. unfold held. by rewrite at_self, H2. }
  assert (Hqd : forall a, queued (P' a) = queued (P a)).
  { intros a. destruct (decide (a = i)) as [->|Hn]; [by rewrite at_self|by rewrite at_other]. }
  constructor.
  - apply Hq.
  - intros j. destruct (decide (j = i)) as [->|Hn]; [rewrite at_self, H3|rewrite at_other by done]; apply Hq.
  - intros a Ha. rewrite Hqd. by apply (q_in _ _ _ _ _ Hq).
  - intros j a. rewrite Hh. intros Ha. rewrite at_other; [by apply (q_held _ _ _ _ _ Hq j)|].
    intros ->. by destruct (not_held j).
  - intros j k a. rewrite !Hh. apply (q_disjoint _ _ _ _ _ Hq).
  - intros j. rewrite Hh. apply (q_nodup _ _ _ _ _ Hq).
  - intros a. rewrite Hqd. intros Ha. destruct (q_all _ _ _ _ _ Hq a Ha) as [?|[j Hj]]; [by left|]. right. exists j. by rewrite Hh.
  - intros a Ha. destruct (decide (a = i)) as [->|Hn].
    + rewrite at_self in Ha. auto.
    + rewrite at_other in Ha by done. by apply (q_fresh _ _ _ _ _ Hq).
Qed.

(** [push_back]. *)
Lemma qinv_push k k' :
  P i = V_push k -> p = V_release k' -> exists aw' h', push_back i aw h = Ok (aw', h') /\ qinv aw' h' P' (q ++ [i]) lq.
Proof.
  intros Ei Ep. destruct (unlinked _ _ _ _ _ i Hq) as [Hi Hh]; [by rewrite Ei|].
  destruct (push_back_spec aw h q i (q_list _ _ _ _ _ Hq) Hi) as (aw' & h' & E & Hr & Hk).
  { apply (q_fresh _ _ _ _ _ Hq). by rewrite Ei. }
  exists aw', h'. split; [done|].
  assert (Hheld : forall j, held P' lq j = held P lq j).
  { intros j. destruct (decide (j = i)) as [->|Hn]; [|by apply held_other]. unfold held. by rewrite at_self, Ei, Ep. }
  assert (Hout : forall j a, a ∈ held P lq j -> a ∉ q /\ a <> i).
  { intros j a Ha. destruct (q_held _ _ _ _ _ Hq j a Ha). split; [done|]. intros ->. by destruct (Hh j). }
  assert (Hrep : forall l ns, (forall a, a ∈ ns -> a ∉ q) -> slist_repr l h ns -> slist_repr l h' ns).
  { intros l ns Hns (R1 & R2 & R3). split; [done|]. split; [|done]. clear -R2 Hns Hk. revert R2. generalize (m_head l).
    induction ns as [|b ns IH]; intros o; [done|]. intros [-> (n & Hn & Hc)]. split; [done|]. exists n.
    rewrite Hk by (apply Hns; by left). split; [done|]. apply IH; [|done]. intros a Ha. apply Hns. by right. }
  constructor.
  - done.
  - intros j. assert (Hj := q_taken _ _ _ _ _ Hq j). destruct (decide (j = i)) as [->|Hn].
    + rewrite at_self, Ep. rewrite Ei in Hj. done.
    + rewrite at_other by done. destruct (taken (P j)); [|done]. apply Hrep; [|done]. intros a Ha.
      apply (Hout j). unfold held. set_solver.
  - intros a [Ha| ->%list_elem_of_singleton]%elem_of_app; [|by rewrite at_self, Ep].
    rewrite at_other by (intros ->; done). by apply (q_in _ _ _ _ _ Hq).
  - intros j a. rewrite Hheld. intros Ha. destruct (Hout j a Ha) as [H1 H2]. rewrite at_other by done.
    split; [by apply (q_held _ _ _ _ _ Hq j)|]. set_solver.
  - intros j k0 a. rewrite !Hheld. apply (q_disjoint _ _ _ _ _ Hq).
  - intros j. rewrite Hheld. apply (q_nodup _ _ _ _ _ Hq).
  - intros a Ha. destruct (decide (a = i)) as [->|Hn]; [left; set_solver|]. rewrite at_other in Ha by done.
    destruct (q_all _ _ _ _ _ Hq a Ha) as [?|[j Hj]]; [left; set_solver|]. right. exists j. by rewrite Hheld.
  - intros a Ha. destruct (decide (a = i)) as [->|Hn]; [by rewrite at_self, Ep in Ha|]. rewrite at_other in Ha by done.
    rewrite Hk; [by apply (q_fresh _ _ _ _ _ Hq)|]. intros Hin. assert (Hin' := q_in _ _ _ _ _ Hq a Hin). by destruct (P a).
Qed.
End goto.

(** A notifier resumes the awaiter it holds. *)
Lemma qinv_resume aw h P q lq i a k p :
  qinv aw h P q lq -> popped (P i) = [a] -> P a = V_suspended k ->
  popped p = [] -> taken p = taken (P i) -> queued p = false -> fresh p = false ->
  qinv aw h (<[i := p]> (<[a := V_resumed k]> P)) q lq.
Proof.
  intros Hq Hpop Ea H1 H2 H3 H4. set (P' := <[i := p]> (<[a := V_resumed k]> P)).
  assert (Hia : i <> a) by (intros ->; by rewrite Ea in Hpop).
  assert (Hi : P' i = p) by (unfold P'; by rewrite fn_lookup_insert).
  assert (Ha : P' a = V_resumed k) by (unfold P'; rewrite fn_lookup_insert_ne, fn_lookup_insert; done).
  assert (Ho : forall j, j <> i -> j <> a -> P' j = P j) by (intros; unfold P'; by rewrite !fn_lookup_insert_ne).
  assert (Hhi : held P lq i = a :: lq i) by (unfold held; by rewrite Hpop).
  assert (Hhi' : held P' lq i = lq i) by (unfold held; by rewrite Hi, H1).
  assert (Hlqa : lq a = []) by (assert (Ht := q_taken _ _ _ _ _ Hq a); by rewrite Ea in Ht).
  assert (Hho : forall j, j <> i -> held P' lq j = held P lq j).
  { intros j Hj. destruct (decide (j = a)) as [->|Hn]; [unfold held; by rewrite Ha, Ea|]. unfold held. by rewrite Ho. }
  assert (Hnd := q_nodup _ _ _ _ _ Hq i). rewrite Hhi in Hnd. apply list.NoDup_cons in Hnd as [Hna Hnd].
  assert (Hsub : forall j b, b ∈ held P' lq j -> b ∈ held P lq j /\ b <> a).
  { intros j b Hb. destruct (decide (j = i)) as [->|Hn].
    - rewrite Hhi' in Hb. rewrite Hhi. split; [by right|]. intros ->. done.
    - rewrite Hho in Hb by done. split; [done|]. intros ->. apply Hn, (q_disjoint _ _ _ _ _ Hq j i a Hb). rewrite Hhi. by left. }
  assert (Haq : a ∉ q) by (apply (q_held _ _ _ _ _ Hq i); rewrite Hhi; by left).
  assert (Hs : forall b, b <> a -> is_suspended (P b) = true -> is_suspended (P' b) = true).
  { intros b Hb Hsb. rewrite Ho; [done| |done]. intros ->. destruct (P i); try done. }
  constructor.
  - apply Hq.
  - intros j. assert (Ht := q_taken _ _ _ _ _ Hq j). destruct (decide (j = i)) as [->|Hn]; [by rewrite Hi, H2|].
    destruct (decide (j = a)) as [->|Hn']; [by rewrite Ha|]. by rewrite Ho.
  - intros b Hb. rewrite Ho; [by apply (q_in _ _ _ _ _ Hq)| |by intros ->].
    intros ->. assert (Hqi := q_in _ _ _ _ _ Hq i Hb). by destruct (P i).
  - intros j b Hb. destruct (Hsub j b Hb) as [Hb1 Hb2]. destruct (q_held _ _ _ _ _ Hq j b Hb1). split; [by apply Hs|done].
  - intros j k' b [Hb _]%Hsub [Hb' _]%Hsub. by apply (q_disjoint _ _ _ _ _ Hq j k' b).
  - intros j. destruct (decide (j = i)) as [->|Hn]; [by rewrite Hhi'|]. rewrite Hho by done. apply (q_nodup _ _ _ _ _ Hq).
  - intros b Hb. destruct (decide (b = i)) as [->|Hbi]; [rewrite Hi in Hb; congruence|].
    destruct (decide (b = a)) as [->|Hba]; [by rewrite Ha in Hb|]. rewrite Ho in Hb by done.
    destruct (q_all _ _ _ _ _ Hq b Hb) as [?|[j Hj]]; [by left|]. right. exists j.
    destruct (decide (j = i)) as [->|Hn]; [|by rewrite Hho]. rewrite Hhi'. rewrite Hhi in Hj. set_solver.
  - intros b Hb. destruct (decide (b = i)) as [->|Hbi]; [rewrite Hi in Hb; congruence|].
    destruct (decide (b = a)) as [->|Hba]; [by rewrite Ha in Hb|]. rewrite Ho in Hb by done. by apply (q_fresh _ _ _ _ _ Hq).
Qed.

(** An awaiter is constructed. *)
Lemma qinv_construct aw h P q lq i k k' :
  qinv aw h P q lq -> P i = V_construct k -> qinv aw (<[i := None]> h) (<[i := V_mutex k']> P) q lq.
Proof.
  intros Hq Ei. apply qinv_goto; rewrite ?Ei; try done; [|intros _; apply lookup_insert_eq].
  apply (qinv_heap aw h _ P q lq i Hq); [by rewrite Ei|by rewrite Ei| |intros a Ha; by apply lookup_insert_ne].
  intros l ns Hn. by apply repr_insert.
Qed.

(** An awaiter that was resumed dies. *)
Lemma qinv_destroy aw h P q lq i k :
  qinv aw h P q lq -> P i = V_resumed k -> qinv aw (delete i h) P q lq.
Proof.
  intros Hq Ei. apply (qinv_heap aw h _ P q lq i Hq); [by rewrite Ei|by rewrite Ei| |intros a Ha; by apply lookup_delete_ne].
  intros l ns Hn. by apply repr_delete.
Qed.

Lemma qinv_init : qinv slist_init ∅ (fun _ => V_idle no_result) [] (fun _ => []).
Proof.
  constructor; try done; try (intros; unfold held in *; simpl in *; set_solver).
  - apply slist_repr_init.
  - intros j. constructor.
Qed.
