(* ===== verification/AsyncCVInvariant.v ===== *)
(** * async_condition_variable: every step keeps the invariant *)

From Stdlib Require Import ZArith Lia.
From stdpp Require Import prelude list gmap functions.
From S2P Require Import Prelude Errors ConsumerContext Slist AsyncLock AsyncLockProps AsyncCV AsyncCVProps AsyncCVQueue.

Local Open Scope list_scope.

Section invariant.
Context {Q : Type} `{AwaiterQueueLaws Q}.
Variable this : addr.
Implicit Types s : AsyncCV.state Q.
Notation step := (AsyncCV.step this).

Record cvinv s : Prop := {
  v_lock : inv (lock s) /\ guard_inv (lock s);
  v_ok : forall i, lock_ok (pcs s i) (at_lock i s);
  v_mutex : forall i, holds_cv (pcs s i) = bool_decide (m_lock s = Some i);
  v_queue : exists q lq, qinv (m_awaiters s) (nodes s) (pcs s) q lq
}.

(** ** Steps that leave the lock alone *)
Definition mutex_change s s' (i : addr) (p : pc) : Prop :=
  (m_lock s' = m_lock s /\ holds_cv p = holds_cv (pcs s i)) \/
  (m_lock s = None /\ m_lock s' = Some i /\ holds_cv p = true) \/
  (holds_cv (pcs s i) = true /\ m_lock s' = None /\ holds_cv p = false).

Lemma mutex_after s s' i p :
  cvinv s -> mutex_change s s' i p -> forall j, holds_cv (<[i := p]> (pcs s) j) = bool_decide (m_lock s' = Some j).
Proof.
  intros Hs Hm j. assert (Hmi := v_mutex s Hs i). assert (Hmj := v_mutex s Hs j).
  destruct (decide (j = i)) as [->|Hn]; [rewrite fn_lookup_insert|rewrite fn_lookup_insert_ne by done].
  - destruct Hm as [[-> ->]|[(_ & -> & ->)|(_ & -> & ->)]]; [done|by rewrite bool_decide_true|done].
  - rewrite Hmj. destruct Hm as [[-> _]|[(-> & -> & _)|(E & -> & _)]]; [done| |].
    + rewrite bool_decide_false by done. by rewrite bool_decide_false by congruence.
    + rewrite Hmi in E. apply bool_decide_eq_true in E. rewrite E. rewrite bool_decide_false by congruence. done.
Qed.

Lemma cvinv_goto s s' i p :
  cvinv s -> lock s' = lock s -> pcs s' = <[i := p]> (pcs s) -> lock_ok p (at_lock i s) -> mutex_change s s' i p ->
  (exists q lq, qinv (m_awaiters s') (nodes s') (<[i := p]> (pcs s)) q lq) -> cvinv s'.
Proof.
  intros Hs El Ep Hok Hm Hq. constructor.
  - rewrite El. apply Hs.
  - intros j. unfold at_lock. rewrite El, Ep. destruct (decide (j = i)) as [->|Hn].
    + by rewrite fn_lookup_insert.
    + rewrite fn_lookup_insert_ne by done. apply (v_ok s Hs).
  - rewrite Ep. by apply (mutex_after s s' i p).
  - by rewrite Ep.
Qed.

(** Nor the lists. *)
Lemma cvinv_quiet s s' i p :
  cvinv s -> lock s' = lock s -> pcs s' = <[i := p]> (pcs s) -> m_awaiters s' = m_awaiters s -> nodes s' = nodes s ->
  lock_ok p (at_lock i s) -> mutex_change s s' i p ->
  is_suspended (pcs s i) = false -> queued p = queued (pcs s i) -> popped p = popped (pcs s i) -> taken p = taken (pcs s i) ->
  (fresh p = true -> fresh (pcs s i) = true) -> cvinv s'.
Proof.
  intros Hs El Ep Ea En Hok Hm H1 H2 H3 H4 H5. eapply cvinv_goto; try done. destruct (v_queue s Hs) as (q & lq & Hq).
  exists q, lq. rewrite Ea, En. apply qinv_goto; try done. intros Hf. apply (q_fresh _ _ _ _ _ Hq). auto.
Qed.

(** ** Steps of the lock *)
Lemma cvinv_lock l s lk :
  cvinv s -> AsyncLock.step this l (lock s) = Some lk ->
  (forall i c, l = AsyncLock.L_call i c -> exists r, pcs s i = V_idle r) -> cvinv (set_lock lk s).
Proof.
  intros Hs Hl Hc. assert (Hlk := lock_inv_step this l (lock s) lk (v_lock s Hs) Hl). constructor; try apply Hs.
  - done.
  - intros i. unfold at_lock. simpl. apply (lock_ok_step this l _ (lock s)); try done; [apply Hs|apply Hlk| |apply (v_ok s Hs)].
    intros j c E <-. by eapply Hc.
Qed.

(** A call of a member function of the guard, by [i]. *)
Lemma cvinv_call i c lk p s :
  cvinv s -> call_step this i c (lock s) = Some lk -> lock_ok p (coroutines lk i) ->
  holds_cv p = holds_cv (pcs s i) -> is_suspended (pcs s i) = false -> queued p = queued (pcs s i) ->
  popped p = popped (pcs s i) -> taken p = taken (pcs s i) ->
  (fresh p = true -> fresh (pcs s i) = true) -> cvinv (goto i p (set_lock lk s)).
Proof.
  intros Hs Hl Hok H1 H2 H3 H4 H5 H6.
  assert (Hlk := lock_inv_step this (AsyncLock.L_call i c) (lock s) lk (v_lock s Hs) Hl). constructor.
  - done.
  - intros j. unfold at_lock. simpl. destruct (decide (j = i)) as [->|Hn]; [by rewrite fn_lookup_insert|].
    rewrite fn_lookup_insert_ne by done. eapply lock_ok_others; [|apply (v_ok s Hs j)].
    by apply (others_step this (AsyncLock.L_call i c) (lock s) lk Hl).
  - apply (mutex_after s (goto i p s)); [done|by left].
  - destruct (v_queue s Hs) as (q & lq & Hq). exists q, lq. apply qinv_goto; try done.
    intros Hf. apply (q_fresh _ _ _ _ _ Hq). auto.
Qed.

Lemma call_unlock_ok i s lk :
  cvinv s -> is_idle (co_pc (at_lock i s)) = true -> owning true (at_lock i s) ->
  call_step this i call_scoped_unlock (lock s) = Some lk -> unlocking_ok (coroutines lk i) /\
    is_Some (scoped_async_lock.m_lock (guard (coroutines lk i))).
Proof.
  intros Hs Hi Ho Hl. destruct (proj2 (v_lock s Hs) i) as [Hg _]. unfold owning, at_lock in *. specialize (Hg Ho).
  unfold call_step in Hl. destruct (co_pc (coroutines (lock s) i)) eqn:E; try done.
  unfold scoped_async_lock.unlock_check in Hl. rewrite Ho in Hl. simpl in Hl. destruct Hg as [l Hg]. rewrite Hg in Hl. simplify_eq.
  rewrite (at_goto i _ (lock s) (lock s) eq_refl). simpl. split; [by left|by rewrite Hg].
Qed.

Lemma call_lock_ok i s lk :
  is_idle (co_pc (at_lock i s)) = true -> owning false (at_lock i s) ->
  is_Some (scoped_async_lock.m_lock (guard (at_lock i s))) ->
  call_step this i (call_scoped_lock false) (lock s) = Some lk -> locking_ok (coroutines lk i) /\
    is_Some (scoped_async_lock.m_lock (guard (coroutines lk i))).
Proof.
  intros Hi Ho [l Hg] Hl. unfold owning, at_lock in *.
  unfold call_step in Hl. destruct (co_pc (coroutines (lock s) i)) eqn:E; try done.
  unfold scoped_async_lock.lock_check in Hl. rewrite Hg, Ho in Hl. simpl in Hl. simplify_eq.
  rewrite (at_goto i _ (lock s) (lock s) eq_refl). simpl. split; [by left|by rewrite Hg].
Qed.

(** ** [await] *)
Lemma owns_lock_eq g : scoped_async_lock.owns_lock g = scoped_async_lock.m_owns g.
Proof. done. Qed.

Lemma cvinv_await i s s' : cvinv s -> await_step this i (pcs s i) s = Some s' -> cvinv s'.
Proof.
  intros Hs Ha. assert (Hok := v_ok s Hs i). destruct (v_queue s Hs) as (q & lq & Hq).
  destruct (pcs s i) as [r| |k|k|k|k|e|k|k|k|k|k|k|k| | |a|a| | |l|l|a l| ] eqn:E; simpl in Ha; try done; simpl in Hok.
  - simplify_eq. eapply (cvinv_goto s _ i (V_mutex k)); try done; [left; by rewrite E|].
    exists q, lq. by eapply qinv_construct.
  - unfold acquire in Ha. destruct (m_lock s) eqn:Em; [done|]. simplify_eq.
    eapply (cvinv_quiet s _ i (V_unlock k)); rewrite ?E; try done. right. by left.
  - unfold call_guard in Ha. destruct (call_step _ _ _ _) as [lk|] eqn:El; [|done]. simplify_eq. destruct Hok as [H1 H2].
    eapply cvinv_call; try done; rewrite ?E; try done. by apply (call_unlock_ok i s).
  - destruct Hok as [[[H1 H2]|[H1 H2]] H3]; [by destruct (co_pc (at_lock i s))|]. rewrite H1 in Ha. simplify_eq.
    eapply (cvinv_quiet s _ i (V_push k)); rewrite ?E; try done; [|left; by rewrite E].
    simpl. by rewrite H1.
  - destruct (qinv_push _ _ _ _ _ i (V_release k) Hq (f_equal is_suspended E) k k E eq_refl) as (aw' & h' & Ep & Hq'). rewrite Ep in Ha. simplify_eq.
    eapply (cvinv_goto s _ i (V_release k)); try done; [left; by rewrite E|]. eauto.
  - simplify_eq. eapply (cvinv_quiet s _ i (V_suspended k)); rewrite ?E; try done.
    right. right. by rewrite E.
  - destruct Hok as (H1 & H2 & H3). rewrite owns_lock_eq in Ha. change (at_lock i (set_nodes _ s)) with (at_lock i s) in Ha.
    rewrite H2 in Ha. simplify_eq. eapply (cvinv_goto s _ i (V_resume_on k)); try done; [left; by rewrite E|].
    exists q, lq. apply qinv_goto; rewrite ?E; try done. by eapply qinv_destroy.
  - simplify_eq. eapply (cvinv_quiet s _ i (V_relock k)); rewrite ?E; try done. left. by rewrite E.
  - unfold call_guard in Ha. destruct (call_step _ _ _ _) as [lk|] eqn:El; [|done]. simplify_eq. destruct Hok as (H1 & H2 & H3).
    eapply cvinv_call; try done; rewrite ?E; try done. by apply (call_lock_ok i s).
  - destruct Hok as [[[H1 H2]|[[H1 H2]|[e [H1 H2]]]] H3]; [by destruct (co_pc (at_lock i s))| |]; rewrite H1 in Ha; simplify_eq.
    + eapply (cvinv_quiet s _ i (await_returned k)); rewrite ?E; try done; destruct k; try done; try (left; by rewrite E).
      simpl. by rewrite H1.
    + eapply (cvinv_quiet s _ i (V_idle (threw e))); rewrite ?E; try done. left. by rewrite E.
Qed.

(** ** The notifiers *)
Lemma cvinv_resume i a p s :
  cvinv s -> popped (pcs s i) = [a] -> popped p = [] -> taken p = taken (pcs s i) -> queued p = false -> fresh p = false ->
  holds_cv p = holds_cv (pcs s i) -> lock_ok p (at_lock i s) ->
  cvinv (resume i a p s) /\ exists k, pcs s a = V_suspended k /\ pcs (resume i a p s) = <[i := p]> (<[a := V_resumed k]> (pcs s)).
Proof.
  intros Hs Hpop H1 H2 H3 H4 H5 H6. destruct (v_queue s Hs) as (q & lq & Hq).
  assert (Ha : is_suspended (pcs s a) = true).
  { apply (q_held _ _ _ _ _ Hq i). unfold held. rewrite Hpop. by left. }
  destruct (pcs s a) as [ | | | | | | | | |k| | | | | | | | | | | | | | ] eqn:Ea; try done.
  unfold resume. rewrite Ea. split; [|by exists k]. assert (Hoa := v_ok s Hs a). rewrite Ea in Hoa.
  assert (Hia : i <> a) by (intros ->; by rewrite Ea in Hpop).
  assert (Hm := v_mutex s Hs). constructor; simpl.
  - apply Hs.
  - intros j. change (at_lock j _) with (at_lock j s). destruct (decide (j = i)) as [->|Hn]; [by rewrite fn_lookup_insert|].
    rewrite fn_lookup_insert_ne by done. destruct (decide (j = a)) as [->|Hn']; [by rewrite fn_lookup_insert|].
    rewrite fn_lookup_insert_ne by done. apply (v_ok s Hs).
  - intros j. rewrite <- Hm. destruct (decide (j = i)) as [->|Hn]; [by rewrite fn_lookup_insert|].
    rewrite fn_lookup_insert_ne by done. destruct (decide (j = a)) as [->|Hn']; [by rewrite fn_lookup_insert, Ea|].
    by rewrite fn_lookup_insert_ne by done.
  - exists q, lq. by apply qinv_resume.
Qed.

(** The linked awaiters are suspended when somebody else holds the mutex. *)
Lemma all_suspended i s q lq a :
  cvinv s -> holds_cv (pcs s i) = true -> queued (pcs s i) = false ->
  qinv (m_awaiters s) (nodes s) (pcs s) q lq -> a ∈ q -> is_suspended (pcs s a) = true.
Proof.
  intros Hs Hi Hqi Hq Ha. assert (Hqa := q_in _ _ _ _ _ Hq a Ha). destruct (holds_cv (pcs s a)) eqn:E.
  - rewrite (v_mutex s Hs) in E, Hi. apply bool_decide_eq_true in E, Hi. congruence.
  - by destruct (pcs s a).
Qed.

(** [notify_one] takes the first awaiter. *)
Lemma one_pop_ok i s q lq :
  cvinv s -> pcs s i = V_one_pop -> qinv (m_awaiters s) (nodes s) (pcs s) q lq ->
  exists l, pop_front (m_awaiters s) (nodes s) = Ok (head q, l) /\
    qinv l (nodes s) (<[i := V_one_unlock (head q)]> (pcs s)) (tail q) lq.
Proof.
  intros Hs E Hq. assert (Hsus := all_suspended i s q lq). rewrite E in Hsus.
  destruct (pop_front_spec _ _ _ (q_list _ _ _ _ _ Hq)) as (l & Ep & Hr). exists l. split; [done|].
  assert (Hlq : lq i = []) by (assert (Ht := q_taken _ _ _ _ _ Hq i); by rewrite E in Ht).
  assert (Hp : popped (V_one_unlock (head q)) ++ tail q = q) by (by destruct q).
  destruct (q_list _ _ _ _ _ Hq) as (Hnd & _).
  apply (qinv_move (m_awaiters s) (nodes s) (pcs s) q lq); rewrite ?E, ?Hlq; try done.
  - by rewrite app_nil_l, Hp.
  - intros a Ha. rewrite app_nil_r in Ha. left.
    assert (Haq : a ∈ q) by (rewrite <- Hp; apply elem_of_app; by left). split; [done|]. by apply Hsus.
  - intros a Ha. rewrite <- Hp. apply elem_of_app. by right.
  - intros a [Ha|Ha]; [|unfold held in Ha; rewrite E, Hlq in Ha; by apply not_elem_of_nil in Ha].
    assert (Ha' : a ∈ popped (V_one_unlock (head q)) ++ tail q) by (by rewrite Hp).
    rewrite app_nil_r. apply elem_of_app in Ha'. tauto.
Qed.

(** [notify_all] takes them all. *)
Lemma all_take_ok i s q lq :
  cvinv s -> pcs s i = V_all_take -> qinv (m_awaiters s) (nodes s) (pcs s) q lq ->
  qinv (slist_move (m_awaiters s)).2 (nodes s) (<[i := V_all_unlock (slist_move (m_awaiters s)).1]> (pcs s)) [] (<[i := q]> lq).
Proof.
  intros Hs E Hq. assert (Hsus := all_suspended i s q lq). rewrite E in Hsus.
  destruct (slist_move_spec _ _ _ (q_list _ _ _ _ _ Hq)) as [Hr1 Hr2].
  assert (Hlq : lq i = []) by (assert (Ht := q_taken _ _ _ _ _ Hq i); by rewrite E in Ht).
  destruct (q_list _ _ _ _ _ Hq) as (Hnd & _).
  apply (qinv_move (m_awaiters s) (nodes s) (pcs s) q lq); rewrite ?E, ?fn_lookup_insert; try done.
  - intros j Hj. by apply fn_lookup_insert_ne.
  - by rewrite app_nil_r.
  - intros a Ha. left. simpl in Ha. split; [done|]. by apply Hsus.
  - intros a Ha. by apply not_elem_of_nil in Ha.
  - intros a [Ha|Ha]; [by right|]. unfold held in Ha. rewrite E, Hlq in Ha. set_solver.
Qed.

(** The next one of the local list. *)
Lemma all_next_ok i s q lq l :
  cvinv s -> pcs s i = V_all_next l -> qinv (m_awaiters s) (nodes s) (pcs s) q lq ->
  exists l', pop_front l (nodes s) = Ok (head (lq i), l') /\
    qinv (m_awaiters s) (nodes s)
      (<[i := match head (lq i) with Some a => V_all_resume a l' | None => V_idle (returned true) end]> (pcs s))
      q (<[i := tail (lq i)]> lq).
Proof.
  intros Hs E Hq. assert (Ht := q_taken _ _ _ _ _ Hq i). rewrite E in Ht. simpl in Ht.
  destruct (pop_front_spec _ _ _ Ht) as (l' & Ep & Hr). exists l'. split; [done|].
  assert (Hh : held (pcs s) lq i = lq i) by (unfold held; by rewrite E).
  assert (Hnd := q_nodup _ _ _ _ _ Hq i). rewrite Hh in Hnd.
  assert (Hx : forall a, a ∈ lq i -> a ∉ q) by (intros a Ha; apply (q_held _ _ _ _ _ Hq i); by rewrite Hh).
  destruct (q_list _ _ _ _ _ Hq) as (Hndq & _).
  apply (qinv_move (m_awaiters s) (nodes s) (pcs s) q lq); rewrite ?E, ?Hh, ?fn_lookup_insert; try done.
  - by apply (q_list _ _ _ _ _ Hq).
  - by destruct (lq i).
  - intros j Hj. by apply fn_lookup_insert_ne.
  - by destruct (lq i).
  - by destruct (lq i).
  - assert (Hnq : NoDup (lq i ++ q)) by (apply list.NoDup_app; auto). by destruct (lq i).
  - intros a Ha. right. destruct (lq i); set_solver.
  - intros a [Ha|Ha]; [by left|right]. destruct (lq i); set_solver.
Qed.

Lemma cvinv_one i s s' : cvinv s -> notify_one_step i (pcs s i) s = Some s' -> cvinv s'.
Proof.
  intros Hs Ha. destruct (v_queue s Hs) as (q & lq & Hq).
  destruct (pcs s i) as [r| |k|k|k|k|e|k|k|k|k|k|k|k| | |a|[a|]| | |l|l|a l| ] eqn:E; simpl in Ha; try done.
  - unfold acquire in Ha. destruct (m_lock s) eqn:Em; [done|]. simplify_eq.
    eapply (cvinv_quiet s _ i V_one_pop); rewrite ?E; try done. right. by left.
  - destruct (one_pop_ok i s q lq Hs E Hq) as (l & Ep & Hq'). rewrite Ep in Ha. simplify_eq.
    eapply (cvinv_goto s _ i (V_one_unlock (head q))); try done; [left; by rewrite E|]. eauto.
  - simplify_eq. eapply (cvinv_quiet s _ i (V_one_resume a)); rewrite ?E; try done. right. right. by rewrite E.
  - simplify_eq. apply cvinv_resume; by rewrite ?E.
  - simplify_eq. eapply (cvinv_quiet s _ i (V_idle (returned true))); rewrite ?E; try done. left. by rewrite E.
Qed.

Lemma cvinv_all i s s' : cvinv s -> notify_all_step i (pcs s i) s = Some s' -> cvinv s'.
Proof.
  intros Hs Ha. destruct (v_queue s Hs) as (q & lq & Hq).
  destruct (pcs s i) as [r| |k|k|k|k|e|k|k|k|k|k|k|k| | |a|[a|]| | |l|l|a l| ] eqn:E; simpl in Ha; try done.
  - unfold acquire in Ha. destruct (m_lock s) eqn:Em; [done|]. simplify_eq.
    eapply (cvinv_quiet s _ i V_all_take); rewrite ?E; try done. right. by left.
  - simplify_eq. eapply (cvinv_goto s _ i (V_all_unlock (slist_move (m_awaiters s)).1)); try done; [left; by rewrite E|].
    exists [], (<[i := q]> lq). exact (all_take_ok i s q lq Hs E Hq).
  - simplify_eq. eapply (cvinv_quiet s _ i (V_all_next l)); rewrite ?E; try done. right. right. by rewrite E.
  - destruct (all_next_ok i s q lq l Hs E Hq) as (l' & Ep & Hq'). rewrite Ep in Ha.
    destruct (head (lq i)) as [a|]; simplify_eq.
    + eapply (cvinv_goto s _ i (V_all_resume a l')); try done; [left; by rewrite E|]. eauto.
    + eapply (cvinv_goto s _ i (V_idle (returned true))); try done; [left; by rewrite E|]. eauto.
  - simplify_eq. apply cvinv_resume; by rewrite ?E.
Qed.

(** A function is called, or returns at once. *)
Lemma cvinv_begin i p r s :
  cvinv s -> pcs s i = V_idle r -> lock_ok p (at_lock i s) ->
  holds_cv p = false -> queued p = false -> popped p = [] -> taken p = None -> fresh p = false -> cvinv (goto i p s).
Proof.
  intros Hs E Hok H1 H2 H3 H4 H5. eapply (cvinv_quiet s _ i p); rewrite ?E; try done; [left; by rewrite E|by rewrite H5].
Qed.

Lemma cvinv_step l s s' : cvinv s -> step l s = Some s' -> cvinv s'.
Proof.
  intros Hs Hl. assert (Hfree : forall i, is_free i s = true -> (exists r, pcs s i = V_idle r) /\ is_idle (co_pc (at_lock i s)) = true).
  { intros i. unfold is_free. destruct (pcs s i); try done. destruct (co_pc (at_lock i s)); try done. eauto. }
  destruct l as [l|i null pred|i|i|i b|i|i]; cbn [AsyncCV.step] in Hl.
  - assert (Hc : forall i c, l = AsyncLock.L_call i c -> is_free i s = true).
    { intros i c ->. by destruct (is_free i s). }
    assert (Hl' : exists lk, AsyncLock.step this l (lock s) = Some lk /\ s' = set_lock lk s).
    { repeat case_match; simplify_eq; eauto. }
    destruct Hl' as (lk & El & ->). apply (cvinv_lock l); try done. intros i c E. by apply Hfree, (Hc i c).
  - destruct (is_free i s) eqn:F; [|done]. destruct (Hfree i F) as [[r E] Hi]. simplify_eq.
    unfold verify_await_params. destruct null; [by eapply cvinv_begin|].
    destruct (scoped_async_lock.owns_lock (guard (at_lock i s))) eqn:Eo; simpl; [|by eapply cvinv_begin].
    destruct pred; by eapply cvinv_begin.
  - destruct (is_free i s) eqn:F; [|done]. destruct (Hfree i F) as [[r E] _]. simplify_eq. by eapply cvinv_begin.
  - destruct (is_free i s) eqn:F; [|done]. destruct (Hfree i F) as [[r E] _]. simplify_eq. by eapply cvinv_begin.
  - destruct (pcs s i) eqn:E; try done. assert (Hok := v_ok s Hs i). rewrite E in Hok. destruct Hok as [H1 H2].
    rewrite owns_lock_eq, H2 in Hl. simplify_eq.
    destruct b; [eapply (cvinv_quiet s _ i (V_idle (returned true)))|eapply (cvinv_quiet s _ i (V_construct true))];
      rewrite ?E; try done; left; by rewrite E.
  - unfold act_step in Hl. destruct (pcs s i) eqn:E; try done; rewrite <- E in Hl;
      first [by eapply cvinv_await|by eapply cvinv_one|by eapply cvinv_all].
  - destruct (pcs s i) eqn:E; try done. simplify_eq.
    eapply (cvinv_quiet s _ i (V_idle (threw interrupted_error))); rewrite ?E; try done. left. by rewrite E.
Qed.

Lemma cvinv_init : cvinv init.
Proof.
  constructor; try done.
  - split; [apply lock_inv_init|]. by intros i.
  - exists [], (fun _ => []). apply qinv_init.
Qed.

Lemma cvinv_reachable s : reachable step init s -> cvinv s.
Proof. apply (reachable_invariant step init cvinv); [apply cvinv_init|]. intros l s1 s2. apply cvinv_step. Qed.
End invariant.
