(* ===== verification/AsyncCVTheorems.v ===== *)
(** * async_condition_variable: theorems *)

From Stdlib Require Import ZArith Lia.
From stdpp Require Import prelude list gmap functions.
From S2P Require Import Prelude Errors ConsumerContext Slist AsyncLock AsyncLockProps AsyncCV AsyncCVProps AsyncCVQueue AsyncCVInvariant.

Local Open Scope list_scope.

Section theorems.
Context {Q : Type} `{AwaiterQueueLaws Q}.
Variable this : addr.
Implicit Types s : AsyncCV.state Q.
Notation step := (AsyncCV.step this).

Lemma holds_cv_unique s i j : cvinv s -> holds_cv (pcs s i) = true -> holds_cv (pcs s j) = true -> i = j.
Proof. intros Hs. rewrite !(v_mutex s Hs). intros Hi%bool_decide_eq_true Hj%bool_decide_eq_true. congruence. Qed.

Lemma not_holding s i : cvinv s -> m_lock s = None -> holds_cv (pcs s i) = false.
Proof. intros Hs Hm. by rewrite (v_mutex s Hs), Hm. Qed.

(** C38. In every interleaving of coroutines that use the lock, wait for the
    condition variable and notify it, no assertion of the lock, of the condition
    variable or of its list fails, and no coroutine is resumed that is not
    suspended; one coroutine at a time holds the mutex of the condition variable;
    a coroutine that is suspended does not own the lock, and one to which [await]
    returns owns it again. *)
Theorem condition_variable_is_safe s :
  reachable step init s ->
  (forall i, pcs s i <> V_aborted /\ co_pc (at_lock i s) <> A_aborted) /\
  (forall i j, holds_cv (pcs s i) = true -> holds_cv (pcs s j) = true -> i = j) /\
  (forall i k, pcs s i = V_suspended k -> scoped_async_lock.owns_lock (guard (at_lock i s)) = false) /\
  (forall i k s', pcs s i = V_locking k -> step (L_act i) s = Some s' -> pcs s' i = await_returned k ->
     scoped_async_lock.owns_lock (guard (at_lock i s')) = true).
Proof.
  intros Hr. assert (Hs := cvinv_reachable this s Hr). split; [|split; [|split]].
  - intros i. assert (Hok := v_ok s Hs i). split; [by intros E; rewrite E in Hok|].
    apply lock_not_aborted, (v_lock s Hs).
  - intros i j. by apply holds_cv_unique.
  - intros i k E. assert (Hok := v_ok s Hs i). rewrite E in Hok. apply Hok.
  - intros i k s' E Hl Hp. assert (Hok := v_ok s Hs i). rewrite E in Hok. destruct Hok as [Hok _].
    cbn [AsyncCV.step] in Hl. unfold act_step in Hl. rewrite E in Hl. simpl in Hl.
    destruct Hok as [[H1 _]|[[H1 H2]|[e [H1 _]]]]; [by destruct (co_pc (at_lock i s))| |]; rewrite H1 in Hl; simplify_eq; [done|].
    simpl in Hp. rewrite fn_lookup_insert in Hp. by destruct k.
Qed.

(** ** [notify_all] alone *)
Definition act_j (s : AsyncCV.state Q) (j : addr) := step (L_act j) s.

Lemma resume_suspended j a k p s : pcs s a = V_suspended k -> resume j a p s = goto j p (goto a (V_resumed k) s).
Proof. unfold resume. by intros ->. Qed.

(** The loop of [notify_all]. *)
Lemma all_drains ns : forall s j l q lq,
  cvinv s -> pcs s j = V_all_next l -> qinv (m_awaiters s) (nodes s) (pcs s) q lq -> lq j = ns ->
  exists s', run step (replicate (2 * length ns + 1) (L_act j)) s = Some s' /\ pcs s' j = V_idle (returned true) /\
    (forall a, a <> j -> pcs s' a = match pcs s a with
                                    | V_suspended k => if decide (a ∈ ns) then V_resumed k else V_suspended k
                                    | p => p
                                    end).
Proof.
  induction ns as [|a ns IH]; intros s j l q lq Hs E Hq El.
  - destruct (all_next_ok j s q lq l Hs E Hq) as (l' & Ep & Hq'). rewrite El in Ep. simpl in Ep.
    eexists. split; [|split].
    + simpl. unfold act_step. rewrite E. simpl. rewrite Ep. done.
    + simpl. by rewrite fn_lookup_insert.
    + intros b Hb. simpl. rewrite fn_lookup_insert_ne by done. by destruct (pcs s b).
  - destruct (all_next_ok j s q lq l Hs E Hq) as (l' & Ep & Hq'). rewrite El in Ep, Hq'. simpl in Ep, Hq'.
    set (s1 := goto j (V_all_resume a l') s).
    assert (E1 : step (L_act j) s = Some s1) by (simpl; unfold act_step; rewrite E; simpl; by rewrite Ep).
    assert (Hs1 := cvinv_step this _ _ _ Hs E1).
    assert (Ej1 : pcs s1 j = V_all_resume a l') by (simpl; by rewrite fn_lookup_insert).
    assert (Hsusp : is_suspended (pcs s1 a) = true).
    { apply (q_held _ _ _ _ _ Hq' j). unfold held. change (<[j := V_all_resume a l']> (pcs s)) with (pcs s1). rewrite Ej1. by left. }
    destruct (pcs s1 a) as [ | | | | | | | | |k| | | | | | | | | | | | | | ] eqn:Ea; try done.
    set (s2 := goto j (V_all_next l') (goto a (V_resumed k) s1)).
    assert (E2 : step (L_act j) s1 = Some s2).
    { change (act_step this j s1 = Some s2). unfold act_step. rewrite Ej1.
      cbn [notify_all_step]. by rewrite (resume_suspended _ _ k). }
    assert (Hs2 := cvinv_step this _ _ _ Hs1 E2).
    assert (Hq2 : qinv (m_awaiters s2) (nodes s2) (pcs s2) q (<[j := ns]> lq)).
    { apply (qinv_resume (m_awaiters s1) (nodes s1) (pcs s1)); try done; by rewrite Ej1. }
    destruct (IH s2 j l' q (<[j := ns]> lq) Hs2) as (s' & Er & Ej & Hp); try done.
    + simpl. by rewrite fn_lookup_insert.
    + by rewrite fn_lookup_insert.
    + exists s'. split; [|split; [done|]].
      * replace (2 * length (a :: ns) + 1) with (S (S (2 * length ns + 1))) by (simpl; lia).
        cbn [replicate run]. rewrite E1. cbn [run]. rewrite E2. exact Er.
      * assert (Haj : a <> j) by (intros ->; by rewrite Ej1 in Ea).
        assert (Hps : pcs s a = V_suspended k) by (simpl in Ea; by rewrite fn_lookup_insert_ne in Ea).
        assert (Hnd := q_nodup _ _ _ _ _ Hq j). unfold held in Hnd. rewrite E, El in Hnd. apply list.NoDup_cons in Hnd as [Hna _].
        intros b Hb. rewrite Hp by done. simpl. rewrite fn_lookup_insert_ne by done.
        destruct (decide (b = a)) as [->|Hba].
        -- rewrite fn_lookup_insert, Hps. rewrite decide_True by (by left). done.
        -- rewrite !fn_lookup_insert_ne by done. destruct (pcs s b); try done.
           destruct (decide (b ∈ ns)), (decide (b ∈ a :: ns)); set_solver.
Qed.

Definition gave_up (p : pc) : bool :=
  match p with V_unlocking _ | V_push _ | V_release _ | V_suspended _ => true | _ => false end.

(** It has taken awaiters and not yet resumed them all. *)
Definition notifying (p : pc) : bool := negb (bool_decide (popped p = []) && bool_decide (taken p = None)).

(** C40. No notification is lost: when a coroutine calls [notify_all], the mutex is
    free and no other notification is under way, then its own actions bring the
    call to its end, and every coroutine that had given up the lock to wait is
    resumed. *)
Theorem notify_all_resumes_everyone s j :
  reachable step init s -> pcs s j = V_all_mutex -> m_lock s = None ->
  (forall j', notifying (pcs s j') = false) ->
  exists n s', run step (replicate n (L_act j)) s = Some s' /\ pcs s' j = V_idle (returned true) /\
    (forall i, gave_up (pcs s i) = true -> exists k, pcs s i = V_suspended k /\ pcs s' i = V_resumed k) /\
    (forall i, i <> j -> gave_up (pcs s i) = false -> pcs s' i = pcs s i).
Proof.
  intros Hr Ej Hm Hn. assert (Hs := cvinv_reachable this s Hr). destruct (v_queue s Hs) as (q & lq & Hq).
  set (s1 := goto j V_all_take (set_mutex (Some j) s)).
  assert (E1 : step (L_act j) s = Some s1) by (simpl; unfold act_step; rewrite Ej; simpl; unfold acquire; by rewrite Hm).
  assert (Hs1 := cvinv_step this _ _ _ Hs E1). assert (Ej1 : pcs s1 j = V_all_take) by (simpl; by rewrite fn_lookup_insert).
  assert (Hq1 : qinv (m_awaiters s1) (nodes s1) (pcs s1) q lq) by (apply (qinv_goto (m_awaiters s) (nodes s) (pcs s)); by rewrite ?Ej).
  set (l := (slist_move (m_awaiters s)).1).
  set (s2 := goto j (V_all_unlock l) (set_awaiters (slist_move (m_awaiters s)).2 s1)).
  assert (E2 : step (L_act j) s1 = Some s2).
  { change (act_step this j s1 = Some s2). unfold act_step. by rewrite Ej1. }
  assert (Hs2 := cvinv_step this _ _ _ Hs1 E2). assert (Hq2 := all_take_ok j s1 q lq Hs1 Ej1 Hq1).
  assert (Ej2 : pcs s2 j = V_all_unlock l) by (simpl; by rewrite fn_lookup_insert).
  set (s3 := goto j (V_all_next l) (set_mutex None s2)).
  assert (E3 : step (L_act j) s2 = Some s3).
  { change (act_step this j s2 = Some s3). unfold act_step. by rewrite Ej2. }
  assert (Hs3 := cvinv_step this _ _ _ Hs2 E3).
  assert (Hq3 : qinv (m_awaiters s3) (nodes s3) (pcs s3) [] (<[j := q]> lq)).
  { apply (qinv_goto (m_awaiters s2) (nodes s2) (pcs s2)); by rewrite ?Ej2. }
  destruct (all_drains q s3 j l [] (<[j := q]> lq) Hs3) as (s' & Er & Ej' & Hp); try done.
  { simpl. by rewrite fn_lookup_insert. }
  { by rewrite fn_lookup_insert. }
  assert (Hrest : forall i, i <> j -> pcs s3 i = pcs s i) by (intros; simpl; by rewrite !fn_lookup_insert_ne).
  assert (Hall : forall i, queued (pcs s i) = true -> i ∈ q).
  { intros i Hi. destruct (q_all _ _ _ _ _ Hq i Hi) as [?|[j' Hj]]; [done|]. exfalso.
    specialize (Hn j'). unfold notifying in Hn. apply negb_false_iff, andb_true_iff in Hn as [H1%bool_decide_eq_true H2%bool_decide_eq_true].
    assert (Ht := q_taken _ _ _ _ _ Hq j'). rewrite H2 in Ht. unfold held in Hj. rewrite H1, Ht in Hj. by apply not_elem_of_nil in Hj. }
  exists (3 + (2 * length q + 1)), s'. split; [|split; [done|split]].
  - rewrite replicate_add, run_app. simpl replicate. cbn [run]. rewrite E1. cbn [run]. rewrite E2. cbn [run]. rewrite E3. exact Er.
  - intros i Hi. assert (Hij : i <> j) by (intros ->; by rewrite Ej in Hi).
    assert (Hh := not_holding s i Hs Hm). assert (Hii := Hall i). specialize (Hp i Hij). rewrite Hrest in Hp by done.
    destruct (pcs s i); try done. eexists. split; [done|]. by rewrite decide_True in Hp by auto.
  - intros i Hij Hi. rewrite Hp, Hrest by done. by destruct (pcs s i).
Qed.

(** C39. The awaiters wait in a queue: a coroutine that begins to wait goes to its
    end, and [notify_one], called when the mutex is free, takes the coroutine at
    its front and resumes it, and no other one. *)
Theorem awaiters_are_resumed_in_order s :
  reachable step init s -> exists q,
    slist_repr (m_awaiters s) (nodes s) q /\ (forall a, a ∈ q -> queued (pcs s a) = true) /\
    (forall i k s', pcs s i = V_push k -> step (L_act i) s = Some s' -> slist_repr (m_awaiters s') (nodes s') (q ++ [i])) /\
    (forall j, pcs s j = V_one_mutex -> m_lock s = None ->
       exists s', run step (replicate 4 (L_act j)) s = Some s' /\ pcs s' j = V_idle (returned true) /\
         slist_repr (m_awaiters s') (nodes s') (tail q) /\
         (forall a, a <> j -> head q = Some a -> exists k, pcs s a = V_suspended k /\ pcs s' a = V_resumed k) /\
         (forall a, a <> j -> head q <> Some a -> pcs s' a = pcs s a)).
Proof.
  intros Hr. assert (Hs := cvinv_reachable this s Hr). destruct (v_queue s Hs) as (q & lq & Hq). exists q.
  split; [apply Hq|]. split; [apply Hq|]. split.
  - intros i k s' E Hl. destruct (qinv_push _ _ _ _ _ i (V_release k) Hq (f_equal is_suspended E) k k E eq_refl) as (aw & h & Ep & Hq').
    change (act_step this i s = Some s') in Hl. unfold act_step in Hl. rewrite E in Hl. simpl in Hl. rewrite Ep in Hl. simplify_eq.
    apply Hq'.
  - intros j Ej Hm. set (s1 := goto j V_one_pop (set_mutex (Some j) s)).
    assert (E1 : step (L_act j) s = Some s1) by (simpl; unfold act_step; rewrite Ej; simpl; unfold acquire; by rewrite Hm).
    assert (Hs1 := cvinv_step this _ _ _ Hs E1). assert (Ej1 : pcs s1 j = V_one_pop) by (simpl; by rewrite fn_lookup_insert).
    assert (Hq1 : qinv (m_awaiters s1) (nodes s1) (pcs s1) q lq)
      by (apply (qinv_goto (m_awaiters s) (nodes s) (pcs s)); by rewrite ?Ej).
    destruct (one_pop_ok j s1 q lq Hs1 Ej1 Hq1) as (l & Ep & Hq2).
    set (s2 := goto j (V_one_unlock (head q)) (set_awaiters l s1)).
    assert (E2 : step (L_act j) s1 = Some s2).
    { change (act_step this j s1 = Some s2). unfold act_step. rewrite Ej1. cbn [notify_one_step]. by rewrite Ep. }
    assert (Hs2 := cvinv_step this _ _ _ Hs1 E2).
    assert (Ej2 : pcs s2 j = V_one_unlock (head q)) by (simpl; by rewrite fn_lookup_insert).
    set (s3 := goto j (V_one_resume (head q)) (set_mutex None s2)).
    assert (E3 : step (L_act j) s2 = Some s3).
    { change (act_step this j s2 = Some s3). unfold act_step. by rewrite Ej2. }
    assert (Hs3 := cvinv_step this _ _ _ Hs2 E3). assert (Ej3 : pcs s3 j = V_one_resume (head q)) by (simpl; by rewrite fn_lookup_insert).
    assert (Hrest : forall i, i <> j -> pcs s3 i = pcs s i) by (intros; simpl; by rewrite !fn_lookup_insert_ne).
    assert (Hrep : slist_repr l (nodes s) (tail q)) by (apply Hq2).
    assert (Hrun : forall s4, step (L_act j) s3 = Some s4 -> run step (replicate 4 (L_act j)) s = Some s4).
    { intros s4 E4. simpl replicate. cbn [run]. rewrite E1. cbn [run]. rewrite E2. cbn [run]. rewrite E3. cbn [run]. by rewrite E4. }
    destruct (head q) as [b|] eqn:Eh.
    + assert (E4 : step (L_act j) s3 = Some (resume j b (V_idle (returned true)) s3)).
      { change (act_step this j s3 = Some (resume j b (V_idle (returned true)) s3)). unfold act_step. by rewrite Ej3. }
      destruct (cvinv_resume j b (V_idle (returned true)) s3 Hs3) as (_ & k & Eb & Ep4); try (by rewrite ?Ej3).
      exists (resume j b (V_idle (returned true)) s3). split; [by apply Hrun|]. rewrite Ep4. split; [by rewrite fn_lookup_insert|].
      rewrite (resume_suspended _ _ k) by done. split; [done|]. split.
      * intros a Ha [= ->]. exists k. rewrite <- (Hrest a) by done. split; [done|].
        rewrite fn_lookup_insert_ne by done. by rewrite fn_lookup_insert.
      * intros a Ha Hne. rewrite fn_lookup_insert_ne by done. rewrite fn_lookup_insert_ne by congruence. by apply Hrest.
    + exists (goto j (V_idle (returned true)) s3). split.
      { apply Hrun. change (act_step this j s3 = Some (goto j (V_idle (returned true)) s3)). unfold act_step. by rewrite Ej3. }
      split; [simpl; by rewrite fn_lookup_insert|]. split; [done|]. split; [done|].
      intros a Ha _. simpl. rewrite fn_lookup_insert_ne by done. by apply Hrest.
Qed.
End theorems.

(** ** The theorems at work

    Two coroutines take the lock and wait, one after the other, a third one
    notifies. *)
Notation cv_state := (AsyncCV.state slist_queue).
Notation cv_step := (AsyncCV.step (Q := slist_queue) 0).

Definition takes_the_lock (i : addr) : list label :=
  L_lock (AsyncLock.L_call i (call_lock false)) :: replicate 4 (L_lock (AsyncLock.L_act i)).

Definition waits (i : addr) : list label :=
  L_await i false false :: replicate 3 (L_act i) ++ replicate 4 (L_lock (AsyncLock.L_act i)) ++ replicate 3 (L_act i).

Definition both_wait : list label := takes_the_lock 1 ++ waits 1 ++ takes_the_lock 2 ++ waits 2.
Definition two_wait : cv_state := after cv_step init both_wait.
Definition one_notifies : cv_state := after cv_step init (both_wait ++ [L_notify_one 3]).
Definition all_notified : cv_state := after cv_step init (both_wait ++ [L_notify_all 3]).

Lemma condition_variable_is_safe_witness :
  pcs two_wait 1 = V_suspended false /\ scoped_async_lock.owns_lock (guard (at_lock 1 two_wait)) = false.
Proof.
  assert (E : pcs two_wait 1 = V_suspended false) by (vm_compute; reflexivity). split; [exact E|].
  destruct (condition_variable_is_safe 0 two_wait) as (_ & _ & Hw & _); [unfold two_wait; apply after_reachable|].
  exact (Hw 1 false E).
Defined.

Lemma awaiters_are_resumed_in_order_witness : exists s',
  run cv_step (replicate 4 (L_act 3)) one_notifies = Some s' /\ pcs s' 1 = V_resumed false /\ pcs s' 2 = V_suspended false.
Proof.
  destruct (awaiters_are_resumed_in_order 0 one_notifies) as (q & Hq & _ & _ & Hn); [unfold one_notifies; apply after_reachable|].
  destruct (Hn 3) as (s' & Er & _ & _ & H1 & H2); [vm_compute; reflexivity|vm_compute; reflexivity|].
  assert (Hh : head q = Some 1).
  { assert (Em : m_head (m_awaiters one_notifies) = Some 1) by (vm_compute; reflexivity).
    destruct Hq as (_ & Hc & _). rewrite Em in Hc. destruct q as [|a q]; [discriminate Hc|]. destruct Hc as [Hc _].
    injection Hc as <-. reflexivity. }
  exists s'. split; [exact Er|]. split.
  - destruct (H1 1) as (k & E & ->); [discriminate|exact Hh|]. vm_compute in E. injection E as <-. reflexivity.
  - rewrite H2; [vm_compute; reflexivity|discriminate|]. rewrite Hh. discriminate.
Defined.

Lemma notify_all_resumes_everyone_witness : exists n s',
  run cv_step (replicate n (L_act 3)) all_notified = Some s' /\ pcs s' 1 = V_resumed false /\ pcs s' 2 = V_resumed false.
Proof.
  destruct (notify_all_resumes_everyone 0 all_notified 3) as (n & s' & Er & _ & Hp & _).
  - unfold all_notified. apply after_reachable.
  - vm_compute. reflexivity.
  - vm_compute. reflexivity.
  - intros [|[|[|[|j]]]]; vm_compute; reflexivity.
  - exists n, s'. split; [exact Er|]. split.
    + destruct (Hp 1) as (k & E & ->); [vm_compute; reflexivity|]. vm_compute in E. injection E as <-. reflexivity.
    + destruct (Hp 2) as (k & E & ->); [vm_compute; reflexivity|]. vm_compute in E. injection E as <-. reflexivity.
Defined.
