(* ===== verification/Examples.v ===== *)
(** * The example programs

    The examples of [example/] that compute something, as functions.  What they
    rely on is proved elsewhere: a result delivers what its task returned
    ([ResultTheorems], [CoroutinesTheorems]), [when_all] hands out all results in
    their order and [when_any] one that is ready ([WhenResultTheorems]), and a
    loop over a generator sees what it yields ([GeneratorTheorems]).  So a
    parallel part is the list of the values of its tasks here, and the choice of
    [when_any] is an argument. *)

From Stdlib Require Import ZArith Znumtheory Lia Ascii.
From stdpp Require Import prelude list.
From S2P Require Import Prelude.
#[local] Open Scope list_scope.

(** ** 2: counting even numbers *)
Module even_numbers.
Definition is_even (i : Z) : bool := (Z.rem i 2 =? 0)%Z.

Definition count_if (l : list Z) : nat := length (filter (fun i => is_even i = true) l).

(** The task of one chunk. *)
Definition count_chunk (vector : list Z) (chunk_begin chunk_end : nat) : nat :=
  count_if (take (chunk_end - chunk_begin) (drop chunk_begin vector)).

Definition count_even (concurrency_level : nat) (vector : list Z) : nat :=
  let chunk_size := length vector / concurrency_level in
  let chunk_count := (fun i => count_chunk vector (i * chunk_size) (i * chunk_size + chunk_size)) <$> seq 0 concurrency_level in
  sum_list chunk_count.
End even_numbers.

(** ** 3 and 4: replacing a character in a file *)
Module file_processing.
Inductive executor := background | thread_pool | caller.
Inductive action := read_file | write_file | process.

#[export] Instance executor_eq_dec : EqDecision executor.
Proof. solve_decision. Defined.
#[export] Instance action_eq_dec : EqDecision action.
Proof. solve_decision. Defined.

(** The file, the executor that the coroutine runs in, and where each piece of
    work was done. *)
Record world := make_world {
  file : list ascii;
  running_on : executor;
  log : list (executor * action)
}.

Definition replace (from to : ascii) (c : ascii) : ascii := if decide (c = from) then to else c.

Definition did (a : action) (w : world) : world := make_world (file w) (running_on w) (log w ++ [(running_on w, a)]).
Definition read (w : world) : list ascii * world := (file w, did read_file w).
Definition write (content : list ascii) (w : world) : world :=
  make_world content (running_on w) (log w ++ [(running_on w, write_file)]).
Definition change (from to : ascii) (content : list ascii) (w : world) : list ascii * world :=
  (replace from to <$> content, did process w).

(** [co_await executor->submit(f)]: [f] runs there. *)
Definition on (e : executor) (w : world) : world := make_world (file w) e (log w).

(** [resume_on]: an awaitable, which does its work when it is awaited. *)
Definition resume_on (e : executor) : world -> world := on e.
Definition co_await (r : world -> world) (w : world) : world := r w.
Definition discard (r : world -> world) (w : world) : world := w.

Definition replace_chars_in_file (from to : ascii) (w : world) : world :=
  let '(file_content, w) := read (on background w) in
  let '(processed_file_content, w) := change from to file_content (on thread_pool w) in
  write processed_file_content (on background w).

Definition replace_chars_in_file_2 (from to : ascii) (w : world) : world :=
  let w := co_await (resume_on background) w in
  let '(file_content, w) := read w in
  let w := co_await (resume_on thread_pool) w in
  let '(file_content, w) := change from to file_content w in
  let w := discard (resume_on background) w in
  write file_content w.

(** [main], which both have: the exit code; [argv] holds the program, the path
    (of the file of the world) and the two characters. *)
Definition main (replace_chars : ascii -> ascii -> world -> world) (argv : list (list ascii)) (w : world) : Z * world :=
  match argv with
  | _ :: _ :: from :: to :: _ =>
      match from, to with
      | [from], [to] => (0%Z, replace_chars from to w)
      | _, _ => ((-1)%Z, w)
      end
  | _ => ((-1)%Z, w)
  end.

(** 13: [read_file_lines] and how [main] calls it. *)
Definition read_file_lines (background_executor thread_pool_executor : executor) (w : world) : list ascii * world :=
  let w := co_await (resume_on background_executor) w in
  let '(file_content, w) := read w in
  let w := co_await (resume_on thread_pool_executor) w in
  (file_content, did process w).

Definition main_13 (w : world) : list ascii * world := read_file_lines thread_pool background w.
End file_processing.

(** ** 5: prime numbers *)
Module prime_numbers.
(** The loop; its fuel is more than the steps it can make. *)
Fixpoint no_divisor (fuel : nat) (num range i : Z) : bool :=
  match fuel with
  | O => true
  | S fuel =>
      if (i <=? range)%Z then
        if (Z.rem num i =? 0)%Z || (Z.rem num (i + 2) =? 0)%Z then false
        else no_divisor fuel num range (i + 6)
      else true
  end.

(** [static_cast<int>(std::sqrt(num))] is the integer square root. *)
Definition is_prime (num : Z) : bool :=
  if (num <=? 1)%Z then false
  else if (num <=? 3)%Z then true
  else
    let range := Z.sqrt num in
    if (Z.rem num 2 =? 0)%Z || (Z.rem num 3 =? 0)%Z then false
    else no_divisor (Z.to_nat num) num range 5.

Definition find_primes (begin end_ : Z) : list Z := filter (fun i => is_prime i = true) (seqZ begin (end_ - begin)).

Definition limit : Z := 1000000.

(** [when_all] keeps the order of the ranges. *)
Definition find_prime_numbers (concurrency_level : nat) : list Z :=
  let range_length := (limit / Z.of_nat concurrency_level)%Z in
  let found_primes_in_range :=
    (fun i : nat => find_primes (Z.of_nat i * range_length) (Z.of_nat i * range_length + range_length)) <$> seq 0 concurrency_level in
  concat found_primes_in_range.
End prime_numbers.

(** ** 8: consuming tasks as they finish

    A result is the number of its task and the value it delivers; [pick] is the
    index that [when_any] answers. *)
Module when_any_example.
Record message := make_message { task_num : nat; done_value : Z }.

Fixpoint consume (pick : list (nat * Z) -> nat) (fuel : nat) (results : list (nat * Z)) : list (message * nat) :=
  match fuel with
  | O => []
  | S fuel =>
      match results with
      | [] => []
      | _ =>
          let index := pick results in
          match results !! index with
          | Some (task, value) => (make_message index value, task) :: consume pick fuel (delete index results)
          | None => []
          end
      end
  end.

(** The messages, each with the task it is about. *)
Definition consume_tasks_as_they_finish (pick : list (nat * Z) -> nat) (results : list (nat * Z)) : list (message * nat) :=
  consume pick (length results) results.
End when_any_example.

(** ** 13: the lines of a text *)
Module text_lines.
Definition newline : ascii := "010".

(** [text.find('\n', prev)]. *)
Definition find_newline (text : list ascii) (prev : nat) : option nat :=
  match list_find (fun c => c = newline) (drop prev text) with
  | Some (n, _) => Some (prev + n)
  | None => None
  end.

(** [text.substr(prev, count)]. *)
Definition substr (text : list ascii) (prev count : nat) : list ascii := take count (drop prev text).

Fixpoint read_from (fuel : nat) (text : list ascii) (prev : nat) : list (list ascii) :=
  match fuel with
  | O => []
  | S fuel =>
      match find_newline text prev with
      | Some pos => substr text prev (pos - prev) :: read_from fuel text (pos + 1)
      | None => [drop prev text]
      end
  end.

(** What the generator yields. *)
Definition read_lines (text : list ascii) : list (list ascii) := read_from (S (length text)) text 0.

Fixpoint join_lines (lines : list (list ascii)) : list ascii :=
  match lines with
  | [] => []
  | [l] => l
  | l :: lines => l ++ newline :: join_lines lines
  end.
End text_lines.
