(* ===== verification/ExamplesTheorems.v ===== *)
(** * The example programs: theorems *)

From Stdlib Require Import ZArith Znumtheory Lia Ascii.
From stdpp Require Import prelude list.
From S2P Require Import Prelude Examples.
#[local] Open Scope list_scope.

(** ** Chunks of a list *)

(** Consecutive chunks of the same length are a prefix. *)
Lemma concat_chunks {A} (c n : nat) (l : list A) :
  concat ((fun i => take c (drop (i * c) l)) <$> seq 0 n) = take (n * c) l.
Proof.
  induction n as [|n IH]; [done|].
  rewrite seq_S, fmap_app, concat_app, IH. simpl. rewrite app_nil_r.
  replace (c + n * c) with (n * c + c) by lia.
  rewrite <-(take_drop (n * c) l) at 3. rewrite take_app, take_take, length_take.
  destruct (decide (n * c <= length l)) as [Hle|Hgt].
  - f_equal; [f_equal; lia|]. f_equal. lia.
  - rewrite (drop_ge l) by lia. rewrite !take_nil, !app_nil_r. rewrite !take_ge by lia. done.
Qed.

(** ** 2 *)
Module even_numbers_theorems.
Import even_numbers.

Lemma count_if_app l1 l2 : count_if (l1 ++ l2) = count_if l1 + count_if l2.
Proof. unfold count_if. by rewrite list.filter_app, length_app. Qed.

Lemma sum_counts (ls : list (list Z)) : sum_list (count_if <$> ls) = count_if (concat ls).
Proof. induction ls as [|l ls IH]; [done|]. rewrite fmap_cons. simpl. by rewrite count_if_app, IH. Qed.

(** The program counts the even numbers of the chunks; it counts all of them
    when the number of workers divides the length. *)
Lemma count_even_spec k v :
  count_even k v = count_if (take (k * (length v / k)) v) /\
  ((exists m, length v = m * k) -> count_even k v = count_if v).
Proof.
  assert (E : count_even k v = count_if (take (k * (length v / k)) v)).
  { unfold count_even. rewrite <-concat_chunks, <-sum_counts, <-list_fmap_compose. f_equal.
    apply list_fmap_ext. intros i x _. unfold count_chunk. simpl. f_equal. f_equal. lia. }
  split; [done|]. intros [m Hm]. rewrite E. destruct k as [|k].
  - rewrite Nat.mul_0_r in Hm. by destruct v.
  - rewrite Hm, Nat.div_mul by done. by rewrite take_ge by lia.
Qed.

(** With twelve workers the last four of 64 numbers are not counted (and the
    last four of 64 * 1024). *)
Lemma tail_is_not_counted :
  count_even 12 (replicate 64 2%Z) = 60 /\ count_if (replicate 64 2%Z) = 64 /\
  (64 * 1024 - 12 * (64 * 1024 / 12) = 4)%Z.
Proof. by vm_compute. Qed.
End even_numbers_theorems.

(** ** 3 and 4 *)
Module file_processing_theorems.
Import file_processing.

(** Both versions leave the same file and do the same work in the same order;
    the first one reads and writes in the background executor and changes the
    content in the thread pool, wherever it was called from. *)
Lemma versions_agree from to w :
  file (replace_chars_in_file from to w) = replace from to <$> file w /\
  file (replace_chars_in_file_2 from to w) = file (replace_chars_in_file from to w) /\
  (log (replace_chars_in_file from to w)) =
    log w ++ [(background, read_file); (thread_pool, process); (background, write_file)] /\
  (log (replace_chars_in_file_2 from to w)).*2 = (log (replace_chars_in_file from to w)).*2.
Proof.
  unfold replace_chars_in_file, replace_chars_in_file_2. simpl. rewrite <-!app_assoc. split_ands; try done.
  by rewrite !fmap_app.
Qed.

(** The second version does not await the last [resume_on]: it writes the file
    in the thread pool. *)
Lemma write_blocks_the_thread_pool from to w :
  log (replace_chars_in_file_2 from to w) =
    log w ++ [(background, read_file); (thread_pool, process); (thread_pool, write_file)].
Proof. unfold replace_chars_in_file_2. simpl. by rewrite <-!app_assoc. Qed.

(** Arguments that are missing or are not single characters leave the file
    alone. *)
Lemma bad_arguments f argv w :
  (forall program path from to rest, argv <> program :: path :: [from] :: [to] :: rest) -> main f argv w = ((-1)%Z, w).
Proof.
  intros H. destruct argv as [|program [|path [|a [|b rest]]]]; try done. simpl.
  destruct a as [|from []], b as [|to []]; try done. by destruct (H program path from to rest).
Qed.

(** [main] of the generator example swaps the two executors: the file is read,
    which blocks, in the thread pool, and its lines are processed in the background
    executor. *)
Lemma executors_are_swapped w :
  log (main_13 w).2 = log w ++ [(thread_pool, read_file); (background, process)] /\ (main_13 w).1 = file w.
Proof. unfold main_13, read_file_lines. simpl. by rewrite <-app_assoc. Qed.
End file_processing_theorems.

(** ** 13 *)
Module text_lines_theorems.
Import text_lines.

Lemma find_newline_Some text prev pos :
  find_newline text prev = Some pos ->
  prev <= pos < length text /\ drop prev text = take (pos - prev) (drop prev text) ++ newline :: drop (pos + 1) text /\
  newline ∉ take (pos - prev) (drop prev text).
Proof.
  unfold find_newline. destruct (list_find _ _) as [[n c]|] eqn:E; [|done]. intros [= <-].
  apply list_find_Some in E as (Hn & -> & Hlt). rewrite lookup_drop in Hn.
  assert (Hlen := lookup_lt_Some _ _ _ Hn). replace (prev + n - prev) with n by lia. split_ands; try lia.
  - rewrite <-(take_drop n (drop prev text)) at 1. f_equal. rewrite drop_drop, (drop_S _ _ _ Hn). by rewrite Nat.add_1_r.
  - intros Hin. apply list_elem_of_lookup in Hin as [j Hj]. apply lookup_take_Some in Hj as [Hj Hjn]. by eapply Hlt.
Qed.

Lemma find_newline_None text prev : find_newline text prev = None -> newline ∉ drop prev text.
Proof.
  unfold find_newline. destruct (list_find _ _) as [[n c]|] eqn:E; [done|]. intros _ Hin.
  apply list_find_None in E. rewrite list.Forall_forall in E. by apply (E newline).
Qed.

Lemma read_from_spec fuel : forall text prev,
  prev <= length text -> length text - prev < fuel ->
  read_from fuel text prev <> [] /\ join_lines (read_from fuel text prev) = drop prev text /\
  Forall (fun l => newline ∉ l) (read_from fuel text prev).
Proof.
  induction fuel as [|fuel IH]; intros text prev Hp Hf; [lia|]. cbn [read_from].
  destruct (find_newline text prev) as [pos|] eqn:E.
  - apply find_newline_Some in E as (Hpos & Hsplit & Hnew).
    destruct (IH text (pos + 1)) as (Hne & Hj & Hall); [lia..|]. split_ands; [done| |by constructor].
    unfold substr. rewrite Hsplit at 2. rewrite <-Hj.
    cbn [join_lines]. by destruct (read_from fuel text (pos + 1)).
  - split_ands; [done|done|]. constructor; [by apply find_newline_None|done].
Qed.

(** The lines that the generator of the example yields are the lines of the
    text: none of them contains a line feed, and joined by line feeds they are
    the text, whatever it is (empty, without a last line feed, or ending with
    one). *)
Theorem read_lines_round_trip text :
  join_lines (read_lines text) = text /\ Forall (fun l => newline ∉ l) (read_lines text).
Proof. destruct (read_from_spec (S (length text)) text 0) as (_ & ? & ?); [lia..|]. done. Qed.
End text_lines_theorems.

(** ** 8 *)
Module when_any_theorems.
Import when_any_example.

Lemma consume_all pick : (forall l, l <> [] -> pick l < length l) -> forall fuel results,
  length results <= fuel ->
  ((fun x : message * nat => (x.2, done_value x.1)) <$> consume pick fuel results) ≡ₚ results.
Proof.
  intros Hp fuel. induction fuel as [|fuel IH]; intros results Hl; [by destruct results; [|simpl in Hl; lia]|].
  cbn [consume]. destruct results as [|x results]; [done|]. set (l := x :: results).
  destruct (lookup_lt_is_Some_2 l (pick l)) as [[task v] Hx]; [by apply Hp|]. rewrite Hx, fmap_cons. simpl.
  rewrite IH by (rewrite length_delete by (by rewrite Hx); unfold l; simpl in *; lia).
  symmetry. by apply delete_Permutation.
Qed.

(** Whatever [when_any] answers, every result is consumed once. *)
Lemma every_result_is_consumed pick results :
  (forall l, l <> [] -> pick l < length l) ->
  ((fun x : message * nat => (x.2, done_value x.1)) <$> consume_tasks_as_they_finish pick results) ≡ₚ results.
Proof. intros Hp. by apply consume_all. Qed.

(** But the messages do not name the tasks: the index is one of the results that
    are left. *)
Lemma messages_misname_tasks :
  (fun x : message * nat => (task_num x.1, x.2)) <$> consume_tasks_as_they_finish (fun _ => 0) [(0, 0%Z); (1, 15%Z); (2, 30%Z)] =
  [(0, 0); (0, 1); (0, 2)].
Proof. done. Qed.
End when_any_theorems.

(** ** 5 *)
Module prime_numbers_theorems.
Import prime_numbers.

Lemma rem_divides a b : (0 <= a)%Z -> (0 < b)%Z -> (Z.rem a b =? 0)%Z = true <-> (b | a)%Z.
Proof.
  intros Ha Hb. rewrite Z.eqb_eq, Z.rem_mod_nonneg by lia. split; [apply Z.mod_divide; lia|intros H; apply Z.mod_divide; [lia|done]].
Qed.

(** What the loop has looked at when it ends. *)
Lemma no_divisor_spec fuel : forall num range i,
  (0 <= num)%Z -> (0 < i)%Z -> (range < i + Z.of_nat fuel)%Z ->
  no_divisor fuel num range i = true <->
  (forall j, (0 <= j)%Z -> (i + 6 * j <= range)%Z -> ~ (i + 6 * j | num)%Z /\ ~ (i + 6 * j + 2 | num)%Z).
Proof.
  induction fuel as [|fuel IH]; intros num range i Hn Hi Hf; cbn [no_divisor].
  { split; [|done]. intros _ j Hj Hle. lia. }
  destruct (Z.leb_spec i range) as [Hle|Hgt]; [|split; [|done]; intros _ j Hj H; lia].
  destruct ((Z.rem num i =? 0)%Z || (Z.rem num (i + 2) =? 0)%Z) eqn:E.
  - split; [done|]. intros H. destruct (H 0%Z) as [H1 H2]; [lia..|]. rewrite Z.mul_0_r, Z.add_0_r in H1, H2.
    apply orb_true_iff in E as [E|E]; apply rem_divides in E; done || lia.
  - apply orb_false_iff in E as [E1 E2]. rewrite IH by lia.
    assert (N1 : ~ (i | num)%Z) by (intros H; apply rem_divides in H; [congruence|lia..]).
    assert (N2 : ~ (i + 2 | num)%Z) by (intros H; apply rem_divides in H; [congruence|lia..]).
    split; intros H j Hj Hle'.
    + destruct (decide (j = 0%Z)) as [->|Hne]; [by rewrite Z.mul_0_r, Z.add_0_r|].
      replace (i + 6 * j)%Z with (i + 6 + 6 * (j - 1))%Z by lia. apply H; lia.
    + replace (i + 6 + 6 * j)%Z with (i + 6 * (j + 1))%Z by lia. apply H; lia.
Qed.

(** A composite number has a divisor up to its square root. *)
Lemma small_divisor n : (1 < n)%Z -> ~ prime n -> exists d, (1 < d <= Z.sqrt n)%Z /\ (d | n)%Z.
Proof.
  intros Hn Hp. destruct (not_prime_divide n Hn Hp) as (m & Hm & [k Hk]).
  assert (Hk1 : (1 < k < n)%Z) by nia.
  destruct (Z.le_ge_cases m k).
  - exists m. split; [|by exists k]. split; [lia|]. apply Z.sqrt_le_square; nia.
  - exists k. split; [|exists m; lia]. split; [lia|]. apply Z.sqrt_le_square; nia.
Qed.

Lemma prime_no_divisor n d : prime n -> (1 < d < n)%Z -> ~ (d | n)%Z.
Proof. intros Hp Hd H. apply prime_divisors in H; [|done]. lia. Qed.

(** A divisor of a number that neither 2 nor 3 divides is 1 or 5 modulo 6. *)
Lemma divisor_mod_6 n d : ~ (2 | n)%Z -> ~ (3 | n)%Z -> (d | n)%Z -> (1 < d)%Z ->
  exists j, (0 <= j)%Z /\ (d = 5 + 6 * j \/ d = 5 + 6 * j + 2)%Z.
Proof.
  intros H2 H3 Hd Hd1.
  assert (N2 : (d mod 2 <> 0)%Z) by (intros E; apply H2; transitivity d; [apply Z.mod_divide; [lia|done]|done]).
  assert (N3 : (d mod 3 <> 0)%Z) by (intros E; apply H3; transitivity d; [apply Z.mod_divide; [lia|done]|done]).
  assert (E6 := Z.div_mod d 6 ltac:(lia)). assert (B6 := Z.mod_pos_bound d 6 ltac:(lia)).
  set (q := (d / 6)%Z) in *. set (r := (d mod 6)%Z) in *.
  assert (M2 : (d mod 2 = r mod 2)%Z) by (rewrite E6; replace (6 * q + r)%Z with (r + 3 * q * 2)%Z by lia; apply Z.mod_add; lia).
  assert (M3 : (d mod 3 = r mod 3)%Z) by (rewrite E6; replace (6 * q + r)%Z with (r + 2 * q * 3)%Z by lia; apply Z.mod_add; lia).
  rewrite M2 in N2. rewrite M3 in N3.
  assert (Hr : (r = 1 \/ r = 5)%Z).
  { assert (r = 0 \/ r = 1 \/ r = 2 \/ r = 3 \/ r = 4 \/ r = 5)%Z as [->|[->|[->|[->|[->| ->]]]]] by lia; auto; by vm_compute in N2, N3. }
  destruct Hr; [exists (q - 1)%Z|exists q]; lia.
Qed.

(** [is_prime] of the example answers true exactly for the prime numbers,
    for every [int] and whatever its loop does; in particular the loop ends before
    the fuel does. *)
Theorem is_prime_decides num : is_prime num = true <-> prime num.
Proof.
  unfold is_prime. destruct (Z.leb_spec num 1) as [H1|H1]; [split; [done|intros [Hp _]; lia]|].
  destruct (Z.leb_spec num 3) as [H3|H3].
  { split; [|done]. intros _. assert (num = 2 \/ num = 3)%Z as [->| ->] by lia; [apply prime_2|apply prime_3]. }
  assert (Hdiv : forall d, (0 < d)%Z -> (Z.rem num d =? 0)%Z = true <-> (d | num)%Z) by (intros; apply rem_divides; lia).
  destruct ((Z.rem num 2 =? 0)%Z || (Z.rem num 3 =? 0)%Z) eqn:E.
  { split; [done|]. intros Hp. exfalso.
    apply orb_true_iff in E as [E|E]; apply Hdiv in E; try lia; revert E; apply prime_no_divisor; (done || lia). }
  apply orb_false_iff in E as [E2 E3].
  assert (N2 : ~ (2 | num)%Z) by (rewrite <-Hdiv by lia; congruence).
  assert (N3 : ~ (3 | num)%Z) by (rewrite <-Hdiv by lia; congruence).
  assert (Hsq : (Z.sqrt num * Z.sqrt num <= num)%Z) by (apply Z.sqrt_spec; lia).
  assert (Hsn := Z.sqrt_nonneg num). assert (Hsl := Z.sqrt_lt_lin num ltac:(lia)).
  rewrite no_divisor_spec by lia. split.
  - intros Hloop. destruct (prime_dec num) as [Hp|Hp]; [done|]. exfalso.
    destruct (small_divisor num ltac:(lia) Hp) as (d & Hd & Hdn).
    destruct (divisor_mod_6 num d N2 N3 Hdn ltac:(lia)) as (j & Hj & [->| ->]).
    + by destruct (Hloop j Hj) as [? _]; [lia|].
    + by destruct (Hloop j Hj) as [_ ?]; [lia|].
  - intros Hp j Hj Hle. split; apply prime_no_divisor; try done; [lia|]. split; [lia|]. nia.
Qed.

(** What the program finds. *)
Lemma find_primes_in begin end_ p : p ∈ find_primes begin end_ <-> (begin <= p < end_)%Z /\ is_prime p = true.
Proof. unfold find_primes. rewrite list_elem_of_filter, elem_of_seqZ. split; intros [? ?]; (split; [|done]) || split; try done; lia. Qed.

(** The primes below [k * (1000000 / k)], each once: all of those below 1000000
    when [k] divides it. *)
Lemma find_prime_numbers_spec k p :
  0 < k -> (p ∈ find_prime_numbers k <-> (0 <= p < Z.of_nat k * (limit / Z.of_nat k))%Z /\ is_prime p = true).
Proof.
  intros Hk. set (len := (limit / Z.of_nat k)%Z). assert (Hlen : (0 <= len)%Z) by (apply Z.div_pos; unfold limit; lia).
  unfold find_prime_numbers. fold len. assert (Hcat : forall ls : list (list Z), p ∈ concat ls <-> exists l, p ∈ l /\ l ∈ ls).
  { intros ls. rewrite list_elem_of_In, List.in_concat. setoid_rewrite list_elem_of_In. naive_solver. }
  rewrite Hcat. clear Hcat. split.
  - intros (l & Hl & (i & -> & Hi)%list_elem_of_fmap). apply elem_of_seq in Hi.
    apply find_primes_in in Hl as [Hr Hp]. split; [|done]. nia.
  - intros [Hr Hp]. assert (Hpos : (0 < len)%Z) by nia.
    assert (Hi : (0 <= p / len < Z.of_nat k)%Z) by (split; [apply Z.div_pos; lia|apply Z.div_lt_upper_bound; nia]).
    exists (find_primes (Z.of_nat (Z.to_nat (p / len)) * len) (Z.of_nat (Z.to_nat (p / len)) * len + len)). split.
    + apply find_primes_in. split; [|done]. rewrite Z2Nat.id by lia.
      assert (E := Z.div_mod p len ltac:(lia)). assert (B := Z.mod_pos_bound p len Hpos). lia.
    + apply list_elem_of_fmap. exists (Z.to_nat (p / len)). split; [done|]. apply elem_of_seq. lia.
Qed.

(** With 128 workers the last ranges end at 999936: the prime 999983 is not
    found. *)
Lemma a_prime_is_missed : is_prime 999983 = true /\ 999983%Z ∉ find_prime_numbers 128.
Proof.
  split; [by vm_compute|]. rewrite find_prime_numbers_spec by lia. intros [[_ H] _]. by vm_compute in H.
Qed.
End prime_numbers_theorems.
